(* ===== verification/_CoqProject ===== *)
-Q . S2P
Prelude.v
Bytes.v
OrdMap.v
MempoolTypes.v
OrderedPool.v
ExpiringCache.v
FeeStats.v
Mempool.v
MempoolInv.v
MempoolQueries.v
Vlq.v
Frame.v
Messages.v
Handshake.v
PeerDb.v
Store.v
PeerStore.v
AddressSanity.v
Router.v
Node.v
RouterExample.v
ChainConfig.v
VotingCodec.v
Voting.v
Header.v
Difficulty.v
Pow.v
HeaderStore.v
HeaderChain.v
HeaderChainInv.v
HeaderChainOps.v
HeaderChainReach.v
Sections.v
SyncInfo.v
ChainStore.v
Pipeline.v
PipelineInv.v
PipelineForks.v
PipelineExample.v
Delivery.v
SyncPolicies.v
AvlTree.v
StateStorage.v
StateStorageInv.v
StateReader.v
StateCompact.v
SnapshotProtocol.v
Snapshot.v
SnapshotInv.v
BlockSections.v
StateChanges.v
Validators.v
ValidatorsInv.v
ValidatorsExample.v
Mining.v
MiningInv.v
MiningTask.v
MiningExample.v
