(* ===== verification/Prelude.v ===== *)
(** * A verification development for ergo-node-rust

    ergo-node-rust is a full and light node of the Ergo blockchain. Its crates are a P2P
    layer (src/p2p), a header chain with voting and difficulty (src/chain), a mempool
    (src/mempool), a sync machine (src/sync), block validation (src/validation), the
    versioned UTXO state (src/state), the modifier store (src/store), mining (src/mining),
    a REST API (src/api), and the binary that wires them (src/src).

    Frames from peers are decoded by the P2P layer and routed; the modifiers in them go
    through the pipeline of the binary, which chains headers, writes the store and binds
    section bodies to the ids their headers give them; the sync machine then has the
    validators apply the blocks to the state; transactions go to the mempool, from which
    the miner builds candidates, and a solved candidate enters the pipeline like a block
    of a peer. A node without a state can download one as a snapshot.

    This library is a shallow embedding of these parts. Every definition translates a
    function or type of the source and keeps its name where possible; each file names the
    sources it models.

    ** Conventions

    Machine integers are [Z] with the wrap-around of a release build written out
    ([add_u32], [as_i32], ...); saturating and checked operations are separate. [result]
    is Rust's [Result]; [outcome] adds panics to it, so that a theorem that a call is
    [Return] also says that it does not panic. Mutating methods take and return the
    state. Bytes are [Z]s; the ids of headers are 32-byte numbers ([id32], with
    [id_bytes]), other ids are byte strings; instants and durations are nanoseconds
    ([instant], [duration]). The clock is an argument, as is what else the environment
    decides: the iteration order of a hash map where it is observable, what peers send,
    whether a bounded channel has room, how far a write got, what a crash leaves. Hash
    maps whose order is not observable are [gmap]s; the ordered map of the pool is a
    sorted list (OrdMap.v). Logging, counters and memory estimates are left out.

    Code outside src/ is a type class, with its documented behaviour as laws. Of the
    Ergo libraries: sigma-ser integers and rule statuses ([SigmaIO], [SigmaIOLaws],
    [VlqWidths], [VlqLength]), the Autolykos hit and compact difficulty ([PowScheme]),
    header bytes ([HeaderIO], [MinerHeaders]), the Merkle root and the transaction codec
    ([SectionIO], [TxPrinter]), transactions and boxes ([ErgoTx]), their evaluation
    ([TxInterp]), the building of boxes and transactions ([MinerLib]), and the AVL prover
    and verifier ([AvlProver], with the contract [ProverLaws]). Of other crates: the hash
    ([Blake2b], [NodeHash]), the LRU cache ([LruCache], [LruPush]) and memory allocation
    ([Memory]). Inside the node, [PeerStorage] with [StorageLaws] is what the peer
    database expects of its storage; PeerStore.v proves it of the store. Witnesses
    instantiate every class with concrete functions. Hashes are never assumed to be
    injective: either the ids at hand are bound to their headers by a function, or the
    conclusion names the two strings that collide.

    ** Files

    - Prelude.v: results and outcomes with their notations, machine integers, time,
      byte-list readers, tactics, hint databases and shared lemmas. Bytes.v: big-endian
      integers and slices. OrdMap.v: Rust's [BTreeMap].
    - Mempool (src/mempool): MempoolTypes.v, OrderedPool.v, ExpiringCache.v, FeeStats.v,
      Mempool.v; MempoolInv.v with the invariants, the behaviour of each operation and
      reachability; MempoolQueries.v with fee queries and rebroadcast.
    - P2P (src/p2p): Vlq.v, Frame.v, Messages.v (the wire), Handshake.v, PeerDb.v,
      AddressSanity.v, Router.v, Node.v (write queues, event loop, admission, dialing);
      RouterExample.v.
    - Store (src/store): Store.v; PeerStore.v with the adapter of src/src that keeps the
      peer database in it.
    - Chain (src/chain): ChainConfig.v, VotingCodec.v, Voting.v, Header.v, Difficulty.v,
      Pow.v, HeaderStore.v, Sections.v, SyncInfo.v; HeaderChain.v as a state monad over
      [HeaderChain]; HeaderChainInv.v, what it is for a chain to represent a list of
      headers ([repr]), append and deep reorganization; HeaderChainOps.v, restoring,
      verifying, installing, one-deep reorganization; HeaderChainReach.v, the step
      relation over all operations.
    - Binary (src/src): ChainStore.v, the loaders and the restart of main.rs; Pipeline.v,
      pipeline.rs; PipelineInv.v, its invariant; PipelineForks.v, what a fork header can
      do; PipelineExample.v.
    - Sync (src/sync): Delivery.v, SyncPolicies.v; SnapshotProtocol.v, Snapshot.v and
      SnapshotInv.v for the snapshot bootstrap.
    - State (src/state): AvlTree.v (packed nodes, with the parser and the walk of
      src/sync/src/snapshot), StateStorage.v, StateStorageInv.v, StateReader.v,
      StateCompact.v.
    - Validation (src/validation): BlockSections.v, StateChanges.v, Validators.v,
      ValidatorsInv.v, ValidatorsExample.v.
    - Mining (src/mining): Mining.v, MiningInv.v; MiningTask.v with the submission of a
      solution in src/api and src/src; MiningExample.v.

    ** What is proved

    Mempool. [process_correct], [apply_block_correct] and [revalidate_correct] say of
    each operation that it returns, keeps the pool's guarantees, and changes the pool by
    exactly what its result reports. [reachable_no_double_spend] and [reachable_reader]
    lift them to every sequence of operations; [return_breaks_invariants],
    [accepted_not_pooled] and [cache_insert_stale] mark where the code stops short.

    P2P. [frame_roundtrip], [message_roundtrip] and [sync_info_roundtrip] are round
    trips, [parse_bounds] bounds what a peer can make the node hold. [handshake_agreed]
    is the exchange of two nodes. [peer_queue_correct] and [messages_delivered] are about
    every interleaving of senders, writer and aborts, [event_isolated] about the event
    loop, [serve_correct] and [get_peers_vouched] about what is answered;
    [gossip_keeps_observed] is the eviction policy, [oversized_answer] its gap.

    Header chain. [try_append_correct], [try_reorg_correct], [try_reorg_deep_correct],
    [install_correct], [restore_correct] and [linkage_check_correct] give each operation
    on every branch, failures leaving the chain as it was; [reachable_chain] says that
    every reachable chain is a linked list of headers and serves only its headers.
    [soft_fork_refines], [boundary_correct], [tally_correct], [fork_gate_correct] and
    [header_votes_correct] are the voting rules, [expected_difficulty_total],
    [eip37_damped] and [on_schedule_stable] the difficulty, [verify_pow_correct] the
    proof of work, [section_check_exact] the binding of sections.

    Store and pipeline. [store_consistent] holds through every use of the store and every
    crash, [prune_correct] and [migration_correct] are single operations, and
    [peers_survive_restart] is the peer table over it. [pipeline_in_sync] keeps chain and
    store in step across batches, [sections_bound] and [requests_bounded] are about
    sections and parent requests, [boot_correct] about the restart;
    [poisoned_restart] and [reorg_to_less_work] show what fork headers can still do.

    State. [storage_refines] relates the storage to a stack of versions;
    [lookup_key_correct], [compact_to_correct] and [compact_complete] are the reader and
    the compaction; [bootstrap_correct], [download_live] and [snapshot_served] are the
    snapshot, [snap_parse_panics] the bodies its parser fails on.

    Validation and mining. [delivered_sections_parse] connects the check on delivery to
    the validators' parsers, [state_changes_correct] the tree operations of a block to its
    transactions one after the other, [scripts_correct] and [boundary_check_exact] are the
    script and epoch checks. [utxo_apply_correct], [validator_in_step] and
    [digest_follows_utxo] are the validators, [mined_block_accepted] their proofs for the
    miner. [candidate_within_limits] and [candidate_accepted] say that a candidate fits
    and is valid, [accepted_solution_stored], [one_solution_at_a_time] and
    [mined_announced_once] what becomes of a solution, [latch_race] what the latch misses.

    ** Bounds

    The eviction loop has one round more than the pool has members, and each round
    removes one; the family walk has the source's depth of 500; a VLQ integer has at most
    ten bytes as in the source; the rewind of a failed reorganization has a round for
    each header of the branch; the drain of the pipeline's buffer has a round for each
    buffered header, and more change nothing; the fork walk has the source's number of
    steps; parsers have a round for each byte; the walks over stored nodes have the depth
    the theorem about them derives, and compaction a bound from the source's depth cap,
    shown to be enough for every database; a filling of the download queue has
    [fill_fuel], shown to be enough. No theorem assumes that fuel is not exhausted.

    Heights are [u32] in the source and wrap at the top: the theorems on chains ask that
    the headers at hand stay below it. The storage theorems ask that version numbers do
    not reach their maximum ([room]).

    ** What is not modelled

    The sync machine's event loop (src/sync/src/state.rs) and the NiPoPoW proofs with the
    light bootstrap, which go through ergo_nipopow; serving proofs and snapshots to
    peers; sockets, tasks, configuration, UPnP, packet capture; the remaining handlers of
    the REST API; the add-ons and the vendored redb. I/O errors of the databases are no
    steps: an operation that fails with one returns before its transaction commits. *)

From Stdlib Require Export ZArith Lia.
From stdpp Require Export base tactics option list sets gmap strings numbers sorting.

#[global] Open Scope Z_scope.

(** ** Results

    Rust's [Result<A, E>]. [Err] is an error path of the source; a Rust panic
    (an [expect], an out-of-range index, a division by zero) is a separate
    constructor of [outcome] where a function of the source can reach one. *)

Inductive result (E A : Type) : Type :=
| Ok (a : A)
| Err (e : E).
Arguments Ok {E A} a.
Arguments Err {E A} e.

Inductive outcome (E A : Type) : Type :=
| Return (a : A)
| Fail (e : E)
| Panic.
Arguments Return {E A} a.
Arguments Fail {E A} e.
Arguments Panic {E A}.

Declare Scope rust_scope.
Delimit Scope rust_scope with rust.

Definition result_bind {E A B} (m : result E A) (k : A -> result E B) : result E B :=
  match m with
  | Ok a => k a
  | Err e => Err e
  end.

Definition outcome_bind {E A B} (m : outcome E A) (k : A -> outcome E B) : outcome E B :=
  match m with
  | Return a => k a
  | Fail e => Fail e
  | Panic => Panic
  end.

(** The [?] operator of the source. *)
Notation "'let?' x ':=' m 'in' k" := (result_bind m (fun x => k))
  (at level 10, x pattern, m at level 100, k at level 200) : rust_scope.
Notation "'let!' x ':=' m 'in' k" := (outcome_bind m (fun x => k))
  (at level 10, x pattern, m at level 100, k at level 200) : rust_scope.
#[global] Open Scope rust_scope.

(** [Option::ok_or]. *)
Definition ok_or {E A} (o : option A) (e : E) : result E A :=
  match o with
  | Some a => Ok a
  | None => Err e
  end.

Definition is_ok {E A} (r : result E A) : bool :=
  match r with
  | Ok _ => true
  | Err _ => false
  end.

Definition of_result {E A} (r : result E A) : outcome E A :=
  match r with
  | Ok a => Return a
  | Err e => Fail e
  end.

(** [Option::expect]: a panic on [None]. *)
Definition expect {E A} (o : option A) : outcome E A :=
  match o with
  | Some a => Return a
  | None => Panic
  end.

(** ** Machine integers

    An integer of the source is a [Z] in the range of its type. The release
    profile of the workspace keeps Rust's default of wrapping arithmetic, so
    [+], [-], [*] and [sum] wrap; the saturating and checked operations the
    source calls are written out. *)

Definition U8_MAX : Z := 255.
Definition U16_MAX : Z := 65535.
Definition U32_MAX : Z := 4294967295.
Definition I32_MAX : Z := 2147483647.
Definition U64_MAX : Z := 18446744073709551615.
Definition I64_MAX : Z := 9223372036854775807.

Definition as_u8 (x : Z) : Z := x mod 2 ^ 8.
Definition as_u16 (x : Z) : Z := x mod 2 ^ 16.
Definition as_u32 (x : Z) : Z := x mod 2 ^ 32.
Definition as_u64 (x : Z) : Z := x mod 2 ^ 64.

Definition as_i8 (x : Z) : Z := (x + 2 ^ 7) mod 2 ^ 8 - 2 ^ 7.
Definition as_i16 (x : Z) : Z := (x + 2 ^ 15) mod 2 ^ 16 - 2 ^ 15.
Definition as_i32 (x : Z) : Z := (x + 2 ^ 31) mod 2 ^ 32 - 2 ^ 31.
Definition as_i64 (x : Z) : Z := (x + 2 ^ 63) mod 2 ^ 64 - 2 ^ 63.

Definition add_u32 (a b : Z) : Z := as_u32 (a + b).
Definition sub_u32 (a b : Z) : Z := as_u32 (a - b).
Definition mul_u32 (a b : Z) : Z := as_u32 (a * b).
Definition add_u64 (a b : Z) : Z := as_u64 (a + b).
Definition sub_u64 (a b : Z) : Z := as_u64 (a - b).
Definition add_i32 (a b : Z) : Z := as_i32 (a + b).
Definition sub_i32 (a b : Z) : Z := as_i32 (a - b).

(** [u64::saturating_add], [u32::saturating_add], [saturating_sub] and the
    [checked] forms. *)
Definition sat_add_u64 (a b : Z) : Z := Z.min (a + b) U64_MAX.
Definition sat_add_u32 (a b : Z) : Z := Z.min (a + b) U32_MAX.
Definition sat_sub (a b : Z) : Z := Z.max 0 (a - b).
Definition checked_sub (a b : Z) : option Z := if a <? b then None else Some (a - b).
Definition checked_add_u64 (a b : Z) : option Z :=
  if U64_MAX <? a + b then None else Some (a + b).
Definition checked_add_u32 (a b : Z) : option Z :=
  if U32_MAX <? a + b then None else Some (a + b).

Definition is_u8 (x : Z) : Prop := 0 <= x <= U8_MAX.
Definition is_u16 (x : Z) : Prop := 0 <= x <= U16_MAX.
Definition is_u32 (x : Z) : Prop := 0 <= x <= U32_MAX.
Definition is_u64 (x : Z) : Prop := 0 <= x <= U64_MAX.
Definition is_i32 (x : Z) : Prop := - I32_MAX - 1 <= x <= I32_MAX.

(** [Iterator::sum] over [u64]. *)
Definition sum_u64 (l : list Z) : Z := foldl add_u64 0 l.

(** Unfolds the integer layer and leaves the goal to [lia]. *)
Ltac int_unfold :=
  unfold is_u8, is_u16, is_u32, is_u64, is_i32, add_u32, sub_u32, mul_u32, add_u64, sub_u64,
    add_i32, sub_i32, as_u8, as_u16, as_u32, as_u64, as_i8, as_i16, as_i32, as_i64, sat_add_u64,
    sat_add_u32, sat_sub,
    U8_MAX, U16_MAX, U32_MAX, I32_MAX, U64_MAX, I64_MAX in *.

Ltac int_solve := int_unfold; Z.div_mod_to_equations; lia.

Create HintDb rust.
Create Rewrite HintDb rust.

Lemma as_u64_small x : is_u64 x -> as_u64 x = x.
Proof. intros. unfold as_u64. apply Z.mod_small. int_unfold. lia. Qed.

Lemma as_u32_small x : is_u32 x -> as_u32 x = x.
Proof. intros. unfold as_u32. apply Z.mod_small. int_unfold. lia. Qed.

Lemma as_u64_range x : is_u64 (as_u64 x).
Proof. int_unfold. pose proof (Z.mod_pos_bound x (2 ^ 64)). lia. Qed.

Lemma as_u32_range x : is_u32 (as_u32 x).
Proof. int_unfold. pose proof (Z.mod_pos_bound x (2 ^ 32)). lia. Qed.

Lemma as_i32_small x : is_i32 x -> as_i32 x = x.
Proof. intros. unfold as_i32. rewrite Z.mod_small; int_unfold; lia. Qed.

Lemma as_i32_range x : is_i32 (as_i32 x).
Proof. int_unfold. pose proof (Z.mod_pos_bound (x + 2 ^ 31) (2 ^ 32)). lia. Qed.

Lemma sat_add_u64_range a b : 0 <= a -> 0 <= b -> is_u64 (sat_add_u64 a b).
Proof. int_unfold. lia. Qed.

#[export] Hint Resolve as_u64_range as_u32_range as_i32_range sat_add_u64_range : rust.
#[export] Hint Rewrite as_u64_small as_u32_small as_i32_small using (int_unfold; lia) : rust.

(** ** Bits *)

(** Bits that do not overlap add up: the shift-and-or of the wire decoders. *)
Lemma lor_shift_add a b n : 0 <= n -> 0 <= a < 2 ^ n -> Z.lor a (Z.shiftl b n) = a + b * 2 ^ n.
Proof.
  intros Hn Ha. rewrite Z.shiftl_mul_pow2 by lia.
  enough (Z.land a (b * 2 ^ n) = 0) by (pose proof (Z.add_lor_land a (b * 2 ^ n)); lia).
  apply Z.bits_inj'. intros i Hi. rewrite Z.land_spec, Z.bits_0.
  destruct (decide (i < n)).
  - rewrite Z.mul_pow2_bits_low by lia. by rewrite andb_false_r.
  - rewrite <- (Z.mod_small a (2 ^ n)) by lia.
    by rewrite Z.mod_pow2_bits_high by lia.
Qed.

Lemma land_127 v : Z.land v 127 = v mod 128.
Proof. change 127 with (Z.ones 7). rewrite Z.land_ones by lia. done. Qed.

Lemma lor_128 v : 0 <= v < 128 -> Z.lor v 128 = v + 128.
Proof. intros. exact (lor_shift_add v 1 7 ltac:(lia) ltac:(lia)). Qed.

Lemma land_128_small v : 0 <= v < 128 -> Z.land v 128 = 0.
Proof.
  intros. pose proof (lor_128 v ltac:(lia)) as E.
  pose proof (Z.add_lor_land v 128). lia.
Qed.

Lemma land_128_set v : 0 <= v < 128 -> Z.land (v + 128) 128 = 128.
Proof.
  intros. rewrite <- lor_128 by lia. apply Z.bits_inj'. intros i Hi.
  rewrite Z.land_spec, Z.lor_spec. by destruct (Z.testbit 128 i), (Z.testbit v i).
Qed.

(** ** Identifiers and time

    A 32-byte identifier (a box, transaction, header or modifier id) is the
    integer its bytes spell in big-endian order: the order of [[u8; 32]] is the
    order of those integers, and equality is preserved. An [Instant] and a
    [Duration] are counts of nanoseconds. *)

Abbreviation id32 := Z (only parsing).
Abbreviation instant := Z (only parsing).
Abbreviation duration := Z (only parsing).

Definition from_secs (s : Z) : duration := s * 1000000000.
Definition from_millis (ms : Z) : duration := ms * 1000000.
Definition as_secs (d : duration) : Z := d / 1000000000.
Definition as_millis (d : duration) : Z := d / 1000000.

(** [Instant::duration_since] and [saturating_duration_since], which both
    saturate at zero. *)
Definition duration_since (now earlier : instant) : duration := sat_sub now earlier.

(** ** Byte strings *)

Definition byte_list := list Z.

Definition bytes_ok (l : list Z) : Prop := Forall is_u8 l.

(** [Read::read_exact] on a cursor: the next [n] bytes and the rest. *)
Definition read_exact (n : nat) (l : list Z) : option (list Z * list Z) :=
  if (n <=? length l)%nat then Some (take n l, drop n l) else None.

Lemma read_exact_app (p r : list Z) : read_exact (length p) (p ++ r) = Some (p, r).
Proof.
  unfold read_exact. rewrite length_app.
  rewrite (proj2 (Nat.leb_le _ _)) by lia.
  by rewrite take_app_length, drop_app_length.
Qed.

Lemma read_exact_app_n n (p r : list Z) :
  length p = n -> read_exact n (p ++ r) = Some (p, r).
Proof. intros <-. apply read_exact_app. Qed.

Lemma read_exact_None n l : read_exact n l = None <-> (length l < n)%nat.
Proof.
  unfold read_exact. destruct (Nat.leb_spec n (length l)); split; intros; try done; lia.
Qed.

Lemma read_exact_Some n l p r :
  read_exact n l = Some (p, r) -> l = p ++ r /\ length p = n.
Proof.
  unfold read_exact. destruct (n <=? length l)%nat eqn:E; [|done].
  intros [= <- <-]. rewrite take_drop. split; [done|].
  apply Nat.leb_le in E. rewrite length_take. lia.
Qed.

(** ** Sorted lists *)

Lemma StronglySorted_omap {A B} (R : A -> A -> Prop) (S : B -> B -> Prop) (f : A -> option B) l :
  (forall x y fx fy, R x y -> f x = Some fx -> f y = Some fy -> S fx fy) ->
  StronglySorted R l -> StronglySorted S (omap f l).
Proof.
  intros Hf. induction 1 as [|x l Hs IH Hx]; [constructor|]. cbn.
  destruct (f x) as [fx|] eqn:E; [|done]. constructor; [done|].
  apply Forall_forall. intros fy (y & Hy & Ey)%list_elem_of_omap.
  rewrite Forall_forall in Hx. by eapply Hf; [apply Hx| |].
Qed.

Lemma StronglySorted_snoc {A} (R : A -> A -> Prop) l x :
  StronglySorted R l -> Forall (fun y => R y x) l -> StronglySorted R (l ++ [x]).
Proof.
  induction 1 as [|y l Hs IH Hy]; intros Hf; [repeat constructor|].
  inversion Hf; subst. cbn. constructor; [by apply IH|]. apply Forall_app. by repeat constructor.
Qed.

Lemma StronglySorted_reverse {A} (R : A -> A -> Prop) l :
  StronglySorted (fun x y => R y x) l -> StronglySorted R (reverse l).
Proof.
  induction 1 as [|x l Hs IH Hx]; [constructor|]. rewrite reverse_cons.
  apply StronglySorted_snoc; [done|]. by apply Forall_reverse.
Qed.

Lemma seqZ_sorted a n : StronglySorted Z.lt (seqZ a n).
Proof.
  destruct (decide (0 <= n)) as [Hn|Hn]; [|rewrite seqZ_nil by lia; constructor].
  revert a. pattern n. apply natlike_ind; [|clear n Hn; intros n Hn IH a|done].
  - intros a. rewrite seqZ_nil by lia. constructor.
  - rewrite seqZ_cons by lia. constructor; [by replace (Z.pred (Z.succ n)) with n by lia; apply IH|].
    apply Forall_forall. intros x Hx. apply elem_of_seqZ in Hx. lia.
Qed.

(** ** Maps filled from lists *)

Lemma foldl_insert_lookup {K A} `{Countable K} (l : list (K * A)) (m : gmap K A) k :
  NoDup l.*1 ->
  foldl (fun m e => <[e.1 := e.2]> m) m l !! k =
    match (list_to_map l : gmap K A) !! k with Some v => Some v | None => m !! k end.
Proof.
  revert m. induction l as [|[k0 v0] l IH]; intros m Hn; [cbn; by rewrite lookup_empty|].
  rewrite fmap_cons in Hn. apply NoDup_cons in Hn as [Hk Hn]. cbn [foldl]. rewrite IH by exact Hn. rewrite list_to_map_cons. cbn [fst snd] in *.
  destruct (decide (k0 = k)) as [->|Hne].
  - rewrite lookup_insert_eq, not_elem_of_list_to_map_1; [by rewrite lookup_insert_eq|exact Hk].
  - by rewrite !lookup_insert_ne by done.
Qed.


(** ** Rust's [sort_by]: a stable sort *)

Section StableSort.
Context {A : Type} (R : A -> A -> Prop) `{!RelDecision R}.

Fixpoint insert_sorted (x : A) (l : list A) : list A :=
  match l with
  | [] => [x]
  | y :: l' => if decide (R x y) then x :: y :: l' else y :: insert_sorted x l'
  end.

Definition stable_sort (l : list A) : list A := foldr insert_sorted [] l.

Lemma sorted_filter (P : A -> Prop) `{!forall x, Decision (P x)} l : StronglySorted R l -> StronglySorted R (filter P l).
Proof.
  induction 1 as [|x l Hs IH Hx]; [constructor|]. rewrite filter_cons. case_decide; [|done]. constructor; [done|].
  rewrite Forall_forall in *. intros y [_ Hy]%list_elem_of_filter. auto.
Qed.

Lemma insert_sorted_Permutation x l : insert_sorted x l ≡ₚ x :: l.
Proof.
  induction l as [|y l IH]; [done|]. cbn. case_decide; [done|]. by rewrite IH, (Permutation_swap x y).
Qed.

Lemma stable_sort_Permutation l : stable_sort l ≡ₚ l.
Proof. induction l as [|x l IH]; [done|]. cbn. by rewrite insert_sorted_Permutation, IH. Qed.

Context `{!Transitive R, !Total R}.

Lemma insert_sorted_sorted x l : StronglySorted R l -> StronglySorted R (insert_sorted x l).
Proof.
  induction 1 as [|y l Hs IH Hy]; [repeat constructor|]. cbn. case_decide as Hxy.
  - constructor; [by constructor|]. constructor; [done|]. eapply Forall_impl; [done|]. intros z. by apply transitivity.
  - constructor; [done|]. rewrite insert_sorted_Permutation. constructor; [|done].
    by destruct (total R x y).
Qed.

Lemma stable_sort_sorted l : StronglySorted R (stable_sort l).
Proof. induction l as [|x l IH]; [constructor|]. by apply insert_sorted_sorted. Qed.

(** Elements that compare equal keep their order. *)
Lemma stable_sort_stable a l :
  filter (fun x => R a x /\ R x a) (stable_sort l) = filter (fun x => R a x /\ R x a) l.
Proof.
  induction l as [|x l IH]; [done|]. cbn [stable_sort foldr]. fold (stable_sort l).
  assert (forall l', filter (fun x => R a x /\ R x a) (insert_sorted x l')
                     = filter (fun x => R a x /\ R x a) (x :: l')) as Hi.
  { induction l' as [|y l' IH']; [done|]. cbn [insert_sorted]. case_decide as Hxy; [done|].
    rewrite filter_cons, IH', !filter_cons. destruct (decide (R a y /\ R y a)) as [[Hay Hya]|]; [|done].
    assert (~ (R a x /\ R x a)) as Hn by (intros [_ Hxa]; apply Hxy; by transitivity a).
    by rewrite !(decide_False _ _ Hn). }
  rewrite Hi, !filter_cons, IH. done.
Qed.

End StableSort.
