(* ===== verification/Bytes.v ===== *)
(** * Fixed-width integers as bytes

    The big-endian encodings ([to_be_bytes], [from_be_bytes]) the storage formats and the
    ids use, at any width, and slices of byte strings. *)

From S2P Require Import Prelude.

(** The [n] bytes of an integer, most significant first. *)
Fixpoint be_bytes (n : nat) (z : Z) : list Z :=
  match n with
  | O => []
  | S n' => be_bytes n' (z / 256) ++ [z mod 256]
  end.

Definition from_be (l : list Z) : Z := foldl (fun acc b => acc * 256 + b) 0 l.

Definition id_bytes (id : id32) : list Z := be_bytes 32 id.

Lemma be_bytes_length n z : length (be_bytes n z) = n.
Proof. revert z. induction n as [|n IH]; intros z; [done|]. cbn. rewrite length_app, IH. cbn. lia. Qed.

Lemma be_bytes_inj n a b :
  0 <= a < 256 ^ Z.of_nat n -> 0 <= b < 256 ^ Z.of_nat n -> be_bytes n a = be_bytes n b -> a = b.
Proof.
  revert a b. induction n as [|n IH]; intros a b Ha Hb Heq; [cbn in *; lia|].
  rewrite Nat2Z.inj_succ, Z.pow_succ_r in Ha, Hb by lia. cbn in Heq.
  apply app_inj_2 in Heq as [Hq Hr]; [|done]. injection Hr as Hr.
  assert (a / 256 = b / 256); [|Z.div_mod_to_equations; lia].
  apply IH; [..|done]; (split; [apply Z.div_pos; lia|apply Z.div_lt_upper_bound; lia]).
Qed.

Lemma from_be_snoc l b : from_be (l ++ [b]) = from_be l * 256 + b.
Proof. unfold from_be. by rewrite foldl_app. Qed.

Lemma from_be_be n z : 0 <= z < 256 ^ Z.of_nat n -> from_be (be_bytes n z) = z.
Proof.
  revert z. induction n as [|n IH]; intros z Hz; [cbn in *; lia|].
  rewrite Nat2Z.inj_succ, Z.pow_succ_r in Hz by lia. cbn [be_bytes]. rewrite from_be_snoc, IH.
  - Z.div_mod_to_equations. lia.
  - split; [apply Z.div_pos; lia|apply Z.div_lt_upper_bound; lia].
Qed.

Lemma from_be_range l : bytes_ok l -> 0 <= from_be l < 256 ^ Z.of_nat (length l).
Proof.
  induction l as [|b l IH] using rev_ind; intros Hl; [done|].
  apply Forall_app in Hl as [Hl [Hb _]%Forall_cons]. specialize (IH Hl).
  rewrite from_be_snoc, length_app. cbn [length]. rewrite Nat.add_1_r, Nat2Z.inj_succ, Z.pow_succ_r by lia.
  revert Hb. int_unfold. lia.
Qed.

Lemma be_bytes_from l : bytes_ok l -> be_bytes (length l) (from_be l) = l.
Proof.
  induction l as [|b l IH] using rev_ind; intros Hl; [done|].
  apply Forall_app in Hl as [Hl [Hb _]%Forall_cons].
  rewrite from_be_snoc, length_app, Nat.add_1_r. cbn [be_bytes].
  assert ((from_be l * 256 + b) / 256 = from_be l /\ (from_be l * 256 + b) mod 256 = b) as [-> ->].
  { revert Hb. int_unfold. intros. Z.div_mod_to_equations. lia. }
  by rewrite IH.
Qed.

Lemma be_bytes_ok n z : bytes_ok (be_bytes n z).
Proof.
  revert z. induction n as [|n IH]; intros z; [constructor|]. cbn. apply Forall_app. split; [apply IH|].
  constructor; [|constructor]. int_unfold. pose proof (Z.mod_pos_bound z 256). lia.
Qed.

Lemma from_be_u32 z : is_u32 z -> from_be (be_bytes 4 z) = z.
Proof. intros. apply from_be_be. int_unfold. lia. Qed.

Lemma from_be_u64 z : is_u64 z -> from_be (be_bytes 8 z) = z.
Proof. intros. apply from_be_be. int_unfold. lia. Qed.

#[export] Hint Rewrite be_bytes_length : rust.

(** A fixed-width integer read off the front of a byte string. *)
Definition read_be (n : nat) (l : list Z) : option (Z * list Z) :=
  match read_exact n l with
  | Some (b, r) => Some (from_be b, r)
  | None => None
  end.

Lemma read_be_app n z r :
  0 <= z < 256 ^ Z.of_nat n -> read_be n (be_bytes n z ++ r) = Some (z, r).
Proof.
  intros Hz. unfold read_be. rewrite (read_exact_app_n n) by apply be_bytes_length.
  by rewrite from_be_be.
Qed.

Lemma read_be_u32 z r : is_u32 z -> read_be 4 (be_bytes 4 z ++ r) = Some (z, r).
Proof. intros. apply read_be_app. int_unfold. lia. Qed.

Lemma read_be_u64 z r : is_u64 z -> read_be 8 (be_bytes 8 z ++ r) = Some (z, r).
Proof. intros. apply read_be_app. int_unfold. lia. Qed.

#[global] Arguments be_bytes : simpl never.

Lemma nth_is_u8 l i : bytes_ok l -> is_u8 (nth i l 0).
Proof.
  intros Hl. destruct (nth_in_or_default i l 0) as [Hin| ->]; [|int_unfold; lia].
  apply list_elem_of_In in Hin. unfold bytes_ok in Hl. rewrite Forall_forall in Hl. by apply Hl.
Qed.
