(* ===== verification/OrdMap.v ===== *)
(** * Ordered maps

    Rust's [BTreeMap<K, V>] as a list of entries sorted strictly by the key's
    [Ord]. The order is a typeclass, because an [Ord] need not see every field of
    its key: two keys can compare [Equal] and differ. As in Rust, inserting at an
    equal key keeps the stored key and replaces the value. *)

From S2P Require Import Prelude.

(** Rust's [Ord], with the laws [std] requires of it. *)
Class RustOrd (K : Type) := cmp : K -> K -> comparison.
#[global] Hint Mode RustOrd ! : typeclass_instances.

Class RustOrdLaws (K : Type) `{RustOrd K} : Prop := {
  cmp_refl : forall x : K, cmp x x = Eq;
  cmp_opp : forall x y : K, cmp y x = CompOpp (cmp x y);
  cmp_eq_compat : forall x y z : K, cmp x y = Eq -> cmp x z = cmp y z;
  cmp_lt_trans : forall x y z : K, cmp x y = Lt -> cmp y z = Lt -> cmp x z = Lt;
}.

Section OrdMap.
Context {K V : Type} `{RustOrdLaws K}.

Abbreviation map := (list (K * V)).

Definition key_lt (p q : K * V) : Prop := cmp p.1 q.1 = Lt.

Definition om_sorted (m : map) : Prop := StronglySorted key_lt m.

(** [BTreeMap::get_key_value]. *)
Fixpoint om_get_kv (k : K) (m : map) : option (K * V) :=
  match m with
  | [] => None
  | (k', v) :: m' =>
      match cmp k k' with
      | Eq => Some (k', v)
      | _ => om_get_kv k m'
      end
  end.

(** [BTreeMap::get]. *)
Definition om_get (k : K) (m : map) : option V := snd <$> om_get_kv k m.

(** [BTreeMap::insert]. *)
Fixpoint om_insert (k : K) (v : V) (m : map) : map :=
  match m with
  | [] => [(k, v)]
  | (k', v') :: m' =>
      match cmp k k' with
      | Lt => (k, v) :: (k', v') :: m'
      | Eq => (k', v) :: m'
      | Gt => (k', v') :: om_insert k v m'
      end
  end.

(** [BTreeMap::remove]: the removed value and the rest. *)
Fixpoint om_remove (k : K) (m : map) : option V * map :=
  match m with
  | [] => (None, [])
  | (k', v') :: m' =>
      match cmp k k' with
      | Eq => (Some v', m')
      | _ => let '(r, m'') := om_remove k m' in (r, (k', v') :: m'')
      end
  end.

(** [BTreeMap::get_mut] followed by a write through the reference. *)
Fixpoint om_alter (f : V -> V) (k : K) (m : map) : map :=
  match m with
  | [] => []
  | (k', v') :: m' =>
      match cmp k k' with
      | Eq => (k', f v') :: m'
      | _ => (k', v') :: om_alter f k m'
      end
  end.

(** ** Order lemmas *)

Lemma cmp_eq_sym (x y : K) : cmp x y = Eq -> cmp y x = Eq.
Proof. intros E. by rewrite cmp_opp, E. Qed.

Lemma cmp_gt_lt (x y : K) : cmp x y = Gt -> cmp y x = Lt.
Proof. intros E. by rewrite cmp_opp, E. Qed.

Lemma cmp_lt_eq_r (x y z : K) : cmp x y = Lt -> cmp y z = Eq -> cmp x z = Lt.
Proof.
  intros H1 H2. rewrite cmp_opp, <- (cmp_eq_compat y z x) by done.
  by rewrite (cmp_opp x y), H1.
Qed.

Lemma key_lt_irrefl (p q : K * V) : cmp (p.1) (q.1) = Eq -> ~ key_lt p q.
Proof. unfold key_lt. intros ->. done. Qed.

Lemma om_sorted_cons k v (m : map) :
  om_sorted ((k, v) :: m) <-> om_sorted m /\ Forall (fun p => cmp k p.1 = Lt) m.
Proof.
  unfold om_sorted. split.
  - intros Hs. by apply StronglySorted_inv in Hs.
  - intros [? ?]. by constructor.
Qed.

(** ** Membership *)

Lemma om_get_kv_elem k m p : om_get_kv k m = Some p -> p ∈ m /\ cmp k p.1 = Eq.
Proof.
  induction m as [|[k' v'] m IH]; cbn; [done|].
  destruct (cmp k k') eqn:E; intros Hp; simplify_eq; [set_solver| |];
    apply IH in Hp as [? ?]; set_solver.
Qed.

Lemma om_elem_get_kv k m p :
  om_sorted m -> p ∈ m -> cmp k p.1 = Eq -> om_get_kv k m = Some p.
Proof.
  induction m as [|[k' v'] m IH]; [set_solver|]. rewrite om_sorted_cons.
  intros [Hs Hf] Hp Heq. cbn. apply elem_of_cons in Hp as [->|Hp].
  - cbn in Heq. by rewrite Heq.
  - rewrite Forall_forall in Hf. pose proof (Hf _ Hp) as Hlt.
    rewrite (cmp_opp k' k), (cmp_lt_eq_r _ _ _ Hlt (cmp_eq_sym _ _ Heq)). cbn. by apply IH.
Qed.

Lemma om_elem_unique m p q :
  om_sorted m -> p ∈ m -> q ∈ m -> cmp (p.1) (q.1) = Eq -> p = q.
Proof.
  intros Hs Hp Hq E.
  pose proof (om_elem_get_kv (p.1) m p Hs Hp (cmp_refl _)).
  pose proof (om_elem_get_kv (p.1) m q Hs Hq E). congruence.
Qed.

Lemma om_get_kv_None k m : om_get_kv k m = None -> forall p, p ∈ m -> cmp k p.1 <> Eq.
Proof.
  induction m as [|[k' v'] m IH]; cbn; [set_solver|].
  intros Hn p Hp. apply elem_of_cons in Hp as [->|Hp].
  - cbn. by destruct (cmp k k').
  - destruct (cmp k k'); [done| |]; by apply IH.
Qed.

Lemma om_insert_elem_fresh k v m p :
  om_get_kv k m = None -> p ∈ om_insert k v m <-> p = (k, v) \/ p ∈ m.
Proof.
  induction m as [|[k' v'] m IH]; cbn; [set_solver|].
  destruct (cmp k k') eqn:E; intros Hn; [done|set_solver|].
  rewrite !elem_of_cons, IH by done. tauto.
Qed.

Lemma om_insert_length_fresh k v m :
  om_get_kv k m = None -> length (om_insert k v m) = S (length m).
Proof.
  induction m as [|[k' v'] m IH]; cbn; [done|].
  destruct (cmp k k') eqn:E; intros Hn; [done|done|]. cbn. by rewrite IH.
Qed.

Lemma om_insert_sorted k v m : om_sorted m -> om_sorted (om_insert k v m).
Proof.
  induction m as [|[k' v'] m IH]; cbn; [intros; repeat constructor|].
  rewrite om_sorted_cons. intros [Hs Hf]. destruct (cmp k k') eqn:E.
  - rewrite om_sorted_cons. done.
  - rewrite !om_sorted_cons. split; [done|]. constructor; [done|].
    eapply Forall_impl; [done|]. cbn. intros p Hp. by eapply cmp_lt_trans.
  - rewrite om_sorted_cons. split; [by apply IH|].
    assert (Hlt : cmp k' k = Lt) by (by apply cmp_gt_lt).
    clear IH Hs. induction m as [|[k2 v2] m IH]; cbn; [by repeat constructor|].
    inversion Hf; subst. destruct (cmp k k2) eqn:E2; repeat (constructor; cbn); try done.
    by apply IH.
Qed.

Lemma om_remove_None k m : om_sorted m -> om_get_kv k m = None -> om_remove k m = (None, m).
Proof.
  induction m as [|[k' v'] m IH]; cbn; [done|]. rewrite om_sorted_cons. intros [Hs _].
  destruct (cmp k k'); [done| |]; intros Hn; by rewrite IH.
Qed.

Lemma om_remove_fst k m : fst (om_remove k m) = om_get k m.
Proof.
  unfold om_get. induction m as [|[k' v'] m IH]; cbn; [done|].
  destruct (cmp k k'); [done| |]; destruct (om_remove k m); cbn in *; done.
Qed.

Lemma om_remove_elem k m p :
  om_sorted m -> p ∈ snd (om_remove k m) <-> p ∈ m /\ cmp k p.1 <> Eq.
Proof.
  induction m as [|[k' v'] m IH]; cbn; [set_solver|]. rewrite om_sorted_cons.
  intros [Hs Hf]. destruct (cmp k k') eqn:E.
  - cbn. rewrite elem_of_cons. split; [|intros [[->|?] Hn]; [by cbn in Hn|done]].
    intros Hp. split; [by right|]. rewrite Forall_forall in Hf.
    rewrite (cmp_eq_compat _ _ _ E), (Hf _ Hp). done.
  - destruct (om_remove k m) as [r m'']. cbn in *. rewrite !elem_of_cons, IH by done.
    split; [intros [->|[? ?]]; cbn; rewrite ?E; auto|tauto].
  - destruct (om_remove k m) as [r m'']. cbn in *. rewrite !elem_of_cons, IH by done.
    split; [intros [->|[? ?]]; cbn; rewrite ?E; auto|tauto].
Qed.

Lemma om_remove_Forall (P : K * V -> Prop) k m :
  Forall P m -> Forall P (snd (om_remove k m)).
Proof.
  induction 1 as [|[k' v'] m Hp Hf IH]; cbn; [done|].
  destruct (cmp k k') eqn:E; [done| |];
    destruct (om_remove k m) as [r m'']; cbn in *; by constructor.
Qed.

Lemma om_remove_sorted k m : om_sorted m -> om_sorted (snd (om_remove k m)).
Proof.
  induction m as [|[k' v'] m IH]; cbn; [done|]. rewrite om_sorted_cons. intros [Hs Hf].
  apply (om_remove_Forall _ k) in Hf.
  destruct (cmp k k') eqn:E; [done| |]; destruct (om_remove k m) as [r m''] eqn:Er; cbn in *;
    rewrite om_sorted_cons; (split; [by apply IH|done]).
Qed.

(** Removing the greatest key. *)
Lemma om_remove_last k v m : om_sorted (m ++ [(k, v)]) -> om_remove k (m ++ [(k, v)]) = (Some v, m).
Proof.
  induction m as [|[k' v'] m IH]; cbn [app om_remove]; [by rewrite cmp_refl|].
  rewrite om_sorted_cons. intros [Hs Hf]. rewrite IH by done. rewrite Forall_forall in Hf.
  specialize (Hf (k, v) ltac:(apply elem_of_app; right; by left)). cbn in Hf.
  by rewrite cmp_opp, Hf.
Qed.

Lemma om_remove_length k m v :
  fst (om_remove k m) = Some v -> length m = S (length (snd (om_remove k m))).
Proof.
  induction m as [|[k' v'] m IH]; cbn; [done|].
  destruct (cmp k k') eqn:E; [done| |]; destruct (om_remove k m) as [r m''] eqn:Er; cbn in *;
    intros Hr; by rewrite (IH Hr).
Qed.

Lemma om_alter_keys f k m : (om_alter f k m).*1 = m.*1.
Proof.
  induction m as [|[k' v'] m IH]; cbn; [done|].
  destruct (cmp k k'); cbn; by rewrite ?IH.
Qed.

Lemma om_alter_elem f k m k' v' :
  om_sorted m ->
  (k', v') ∈ om_alter f k m <->
  exists v, (k', v) ∈ m /\ v' = match cmp k k' with Eq => f v | _ => v end.
Proof.
  induction m as [|[k1 v1] m IH]; cbn; [intros; split; [set_solver|intros (?&?&?); set_solver]|].
  rewrite om_sorted_cons. intros [Hs Hf]. rewrite Forall_forall in Hf.
  assert (Hm : cmp k k1 <> Eq -> (k', v') ∈ (k1, v1) :: om_alter f k m <->
      exists v, (k', v) ∈ (k1, v1) :: m /\ v' = match cmp k k' with Eq => f v | _ => v end).
  { intros Hne. rewrite elem_of_cons, IH by done. split.
    - intros [[= -> ->]|(v & Hv & ->)]; [|exists v; set_solver].
      exists v1. split; [set_solver|]. by destruct (cmp k k1).
    - intros (v & [[= -> ->]|Hv]%elem_of_cons & ->); [|right; eauto].
      left. by destruct (cmp k k1). }
  destruct (cmp k k1) eqn:E; [|by apply Hm|by apply Hm].
  rewrite elem_of_cons. split.
  - intros [[= -> ->]|Hin]; [exists v1; rewrite E; set_solver|].
    exists v'. split; [set_solver|]. specialize (Hf _ Hin). cbn in Hf.
    by rewrite (cmp_eq_compat _ _ _ E), Hf.
  - intros (v & [[= -> ->]|Hv]%elem_of_cons & ->); [left; by rewrite E|right].
    specialize (Hf _ Hv). cbn in Hf. by rewrite (cmp_eq_compat _ _ _ E), Hf.
Qed.

Lemma om_alter_sorted f k m : om_sorted m -> om_sorted (om_alter f k m).
Proof.
  induction m as [|[k' v'] m IH]; cbn; [done|]. rewrite om_sorted_cons. intros [Hs Hf].
  assert (Hf' : Forall (fun p : K * V => cmp k' p.1 = Lt) (om_alter f k m)).
  { apply (Forall_fmap fst (fun x => cmp k' x = Lt)). rewrite om_alter_keys.
    by apply Forall_fmap. }
  destruct (cmp k k'); rewrite om_sorted_cons; [done| |]; (split; [by apply IH|done]).
Qed.

End OrdMap.
