(* ===== verification/MempoolTypes.v ===== *)
(** * Mempool data and transaction weights

    The records of [mempool/src/types.rs] and the ordering key of
    [mempool/src/weight.rs]. [Transaction] and [ErgoBox] are ergo-lib types, of
    which a model carries the fields the node's own code reads; an [ErgoTree] is
    compared only for equality and stands as its bytes. *)

From S2P Require Import Prelude OrdMap.

(** ** Chain data *)

Record ErgoBox := mk_ergo_box {
  box_id : id32;
  ergo_tree : byte_list;
  value : Z;                      (* nanoERG, u64 *)
  creation_height : Z;            (* u32 *)
}.

Record Transaction := mk_tx {
  tx_id_of : id32;
  inputs : list id32;
  data_inputs : option (list id32);
  outputs : list ErgoBox;
}.

(** ** Mempool records *)

Module MempoolTypes.

(** [UnconfirmedTx]. *)
Record UnconfirmedTx := mk_utx {
  tx : Transaction;
  tx_bytes : byte_list;
  fee : Z;
  cost : Z;
  validation_cost : option Z;
  created : instant;
  last_checked : instant;
  source : option Z;
}.

Inductive FeeStrategy := FeePerByte | FeePerCycle.

(** [MempoolConfig] and its defaults. *)
Record MempoolConfig := mk_config {
  capacity : Z;
  min_fee : Z;
  fee_strategy : FeeStrategy;
  cleanup_interval : duration;
  rebroadcast_count : Z;
  invalidation_ttl : duration;
  invalidation_capacity : Z;
  cost_per_block : Z;
  cost_per_peer_per_block : Z;
  reward_delay : Z;
}.

Definition default_config : MempoolConfig := {|
  capacity := 1000;
  min_fee := 1000000;
  fee_strategy := FeePerByte;
  cleanup_interval := from_secs 30;
  rebroadcast_count := 3;
  invalidation_ttl := from_secs 1800;
  invalidation_capacity := 10000;
  cost_per_block := 12000000;
  cost_per_peer_per_block := 10000000;
  reward_delay := 720;
|}.

(** The reasons [process] formats into its [Declined] strings. *)
Inductive decline_reason :=
  | InterblockBudgetExhausted
  | PerPeerBudgetExhausted
  | TooManyInputs (n : Z)
  | InputNotFound (id : id32)
  | CreationHeightAbovePreheader (height preheader : Z)
  | FeeBelowMinimum (fee min : Z)
  | PoolFullFeeTooLow.

Inductive invalid_reason (E : Type) :=
  | PreviouslyInvalidated
  | ValidationFailed (e : E).
Arguments PreviouslyInvalidated {E}.
Arguments ValidationFailed {E} _.

(** [ProcessingOutcome]. *)
Inductive ProcessingOutcome (E : Type) :=
  | Accepted (tx_id : id32)
  | Replaced (tx_id : id32) (removed : list id32)
  | DoubleSpendLoser (winner_ids : list id32)
  | Declined (reason : decline_reason)
  | Invalidated (reason : invalid_reason E)
  | AlreadyInPool.
Arguments Accepted {E} _.
Arguments Replaced {E} _ _.
Arguments DoubleSpendLoser {E} _.
Arguments Declined {E} _.
Arguments Invalidated {E} _.
Arguments AlreadyInPool {E}.

(** ** The ordering key *)

(** [TxWeight]. *)
Record TxWeight := mk_weight {
  weight : Z;
  fee_per_factor : Z;
  tw_tx_id : id32;
}.

#[global] Instance TxWeight_eq_dec : EqDecision TxWeight.
Proof. solve_decision. Defined.

(** [impl Ord for TxWeight]: heavier first, then the lower id. *)
#[global] Instance tx_weight_cmp : RustOrd TxWeight := fun self other =>
  match Z.compare (weight other) (weight self) with
  | Eq => Z.compare (tw_tx_id self) (tw_tx_id other)
  | c => c
  end.

Definition FAKE_COST : Z := 1000.

(** [TxWeight::new]. *)
Definition tx_weight_new (tx_id : id32) (fee tx_byte_size cost : Z) (strategy : FeeStrategy)
    : TxWeight :=
  let fee_factor :=
    match strategy with
    | FeePerByte => tx_byte_size
    | FeePerCycle => if cost =? 0 then FAKE_COST else cost
    end in
  let fee_per_factor :=
    if fee_factor =? 0 then 0 else Z.min (fee * 1024 / fee_factor) U64_MAX in
  {| weight := fee_per_factor; fee_per_factor := fee_per_factor; tw_tx_id := tx_id |}.

(** ** The order is a total order on (weight, id) *)

Lemma tx_weight_cmp_eq a b : cmp a b = Eq <-> weight a = weight b /\ tw_tx_id a = tw_tx_id b.
Proof.
  unfold cmp, tx_weight_cmp. destruct (Z.compare_spec (weight b) (weight a)).
  - rewrite Z.compare_eq_iff. intuition congruence.
  - split; [done|lia].
  - split; [done|lia].
Qed.

Lemma tx_weight_cmp_lt a b :
  cmp a b = Lt <-> weight b < weight a \/ (weight a = weight b /\ tw_tx_id a < tw_tx_id b).
Proof.
  unfold cmp, tx_weight_cmp. destruct (Z.compare_spec (weight b) (weight a)).
  - rewrite Z.compare_lt_iff. intuition lia.
  - intuition lia.
  - split; [done|lia].
Qed.

#[global] Instance tx_weight_laws : RustOrdLaws TxWeight.
Proof.
  split.
  - intros x. by apply tx_weight_cmp_eq.
  - intros x y. unfold cmp, tx_weight_cmp.
    rewrite (Z.compare_antisym (weight y) (weight x)), (Z.compare_antisym (tw_tx_id x) (tw_tx_id y)).
    by destruct (weight y ?= weight x)%Z.
  - intros x y z [Hw Ht]%tx_weight_cmp_eq. unfold cmp, tx_weight_cmp. by rewrite Hw, Ht.
  - intros x y z. rewrite !tx_weight_cmp_lt. lia.
Qed.

(** The base weight is a [u64] whatever the inputs, and never divides by zero. *)
Lemma tx_weight_new_range t f sz c s :
  0 <= f -> 0 <= sz -> 0 <= c -> is_u64 (weight (tx_weight_new t f sz c s)).
Proof.
  intros Hf Hsz Hc. unfold tx_weight_new. cbn.
  destruct s; repeat case_match; unfold is_u64, U64_MAX, FAKE_COST in *; try lia;
    (split; [|lia]); apply Z.min_glb; try lia; apply Z.div_pos; lia.
Qed.

End MempoolTypes.
