(* ===== verification/OrderedPool.v ===== *)
(** * The ordered pool

    [mempool/src/pool.rs] (the priority-ordered transaction store and its four
    indexes), [mempool/src/reader.rs] (the serving index) and
    [mempool/src/family.rs] (propagation of a child's weight to its ancestors).
    The invariant [pool_ok] says that the indexes agree with the store. *)

From S2P Require Import Prelude OrdMap MempoolTypes.
Import MempoolTypes.

(** ** Lemmas on maps filled by a loop *)

Section FillMap.
Context {A B : Type}.

Lemma fill_lookup (m : gmap Z A) (w : A) (ids : list Z) i :
  fold_left (fun m id => <[id := w]> m) ids m !! i =
  if decide (i ∈ ids) then Some w else m !! i.
Proof.
  revert m. induction ids as [|j ids IH]; intros m; cbn [fold_left].
  - rewrite decide_False by set_solver. done.
  - rewrite IH. destruct (decide (i ∈ ids)) as [Hin|Hin].
    + by rewrite decide_True by set_solver.
    + destruct (decide (i = j)) as [->|Hne].
      * rewrite lookup_insert_eq. by rewrite decide_True by set_solver.
      * rewrite lookup_insert_ne by done. by rewrite decide_False by set_solver.
Qed.

Lemma fill_pair_lookup (m : gmap Z (A * B)) (w : A) (bs : list (Z * B)) i w' b :
  fold_left (fun m '(id, b) => <[id := (w, b)]> m) bs m !! i = Some (w', b) ->
  (w' = w /\ (i, b) ∈ bs) \/ m !! i = Some (w', b).
Proof.
  revert m. induction bs as [|[j b'] bs IH]; intros m; cbn [fold_left]; [auto|].
  intros [[? ?]|Hm]%IH; [set_solver|].
  destruct (decide (i = j)) as [->|Hne].
  - rewrite lookup_insert_eq in Hm. simplify_eq. set_solver.
  - rewrite lookup_insert_ne in Hm by done. by right.
Qed.

Lemma fill_pair_lookup_in (m : gmap Z (A * B)) (w : A) (bs : list (Z * B)) i :
  i ∈ bs.*1 -> exists b, fold_left (fun m '(id, b) => <[id := (w, b)]> m) bs m !! i = Some (w, b).
Proof.
  revert m. induction bs as [|[j b] bs IH] using rev_ind; intros m; [set_solver|].
  rewrite fold_left_app. cbn. rewrite fmap_app, elem_of_app. cbn. intros Hi.
  destruct (decide (i = j)) as [->|Hne]; [exists b; apply lookup_insert_eq|].
  rewrite lookup_insert_ne by done. apply IH. set_solver.
Qed.

End FillMap.

Lemma fmap_Some_1' {A B} (f : A -> B) (mx : option A) y :
  f <$> mx = Some y -> exists x, f x = y /\ mx = Some x.
Proof. destruct mx; cbn; naive_solver. Qed.

Module OrderedPool.

(** ** State and operations *)

(** [OrderedPool]; [tx_index] is the map inside [TxBytesIndex]. *)
Record OrderedPool := mk_pool {
  ordered : list (TxWeight * UnconfirmedTx);
  by_id : gmap Z TxWeight;
  by_input : gmap Z TxWeight;
  by_output : gmap Z (TxWeight * ErgoBox);
  tx_index : gmap Z byte_list;
  pool_capacity : Z;
}.

(** [OrderedPool::new]. *)
Definition pool_new (capacity : Z) : OrderedPool :=
  mk_pool [] ∅ ∅ ∅ ∅ capacity.

Definition pool_len (p : OrderedPool) : Z := Z.of_nat (length (ordered p)).

Definition pool_is_empty (p : OrderedPool) : bool :=
  match ordered p with [] => true | _ => false end.

Definition pool_is_full (p : OrderedPool) : bool := pool_capacity p <=? pool_len p.

(** [OrderedPool::insert]. *)
Definition pool_insert (weight : TxWeight) (utx : UnconfirmedTx) (input_ids : list id32)
    (output_boxes : list (id32 * ErgoBox)) (p : OrderedPool) : OrderedPool :=
  let tx_id := tw_tx_id weight in
  {| by_id := <[tx_id := weight]> (by_id p);
     tx_index := <[tx_id := tx_bytes utx]> (tx_index p);
     by_input := fold_left (fun m id => <[id := weight]> m) input_ids (by_input p);
     by_output := fold_left (fun m '(box_id, ebox) => <[box_id := (weight, ebox)]> m)
                    output_boxes (by_output p);
     ordered := om_insert weight utx (ordered p);
     pool_capacity := pool_capacity p |}.

(** [OrderedPool::remove]. *)
Definition pool_remove (tx_id : id32) (p : OrderedPool) : option UnconfirmedTx * OrderedPool :=
  match by_id p !! tx_id with
  | None => (None, p)
  | Some weight =>
      let by_id' := delete tx_id (by_id p) in
      let index' := delete tx_id (tx_index p) in
      match om_remove weight (ordered p) with
      | (None, ordered') =>
          (None, mk_pool ordered' by_id' (by_input p) (by_output p) index' (pool_capacity p))
      | (Some utx, ordered') =>
          (Some utx,
           mk_pool ordered' by_id'
             (filter (fun '(_, w) => tw_tx_id w <> tx_id) (by_input p))
             (filter (fun '(_, wb) => tw_tx_id wb.1 <> tx_id) (by_output p))
             index' (pool_capacity p))
      end
  end.

(** [OrderedPool::get] and [get_weighted]. *)
Definition pool_get (tx_id : id32) (p : OrderedPool) : option UnconfirmedTx :=
  match by_id p !! tx_id with
  | None => None
  | Some weight => om_get weight (ordered p)
  end.

Definition pool_get_weighted (tx_id : id32) (p : OrderedPool)
    : option (TxWeight * UnconfirmedTx) :=
  match by_id p !! tx_id with
  | None => None
  | Some weight => om_get_kv weight (ordered p)
  end.

(** A write through [OrderedPool::get_mut]: [f] is applied to the entry, if any. *)
Definition pool_get_mut (f : UnconfirmedTx -> UnconfirmedTx) (tx_id : id32) (p : OrderedPool)
    : OrderedPool :=
  match by_id p !! tx_id with
  | None => p
  | Some weight =>
      mk_pool (om_alter f weight (ordered p)) (by_id p) (by_input p) (by_output p)
        (tx_index p) (pool_capacity p)
  end.

Definition pool_contains (tx_id : id32) (p : OrderedPool) : bool :=
  match by_id p !! tx_id with Some _ => true | None => false end.

Definition spending_tx (input_box_id : id32) (p : OrderedPool) : option TxWeight :=
  by_input p !! input_box_id.

Definition unconfirmed_box (id : id32) (p : OrderedPool) : option ErgoBox :=
  snd <$> by_output p !! id.

Definition pool_top (limit : Z) (p : OrderedPool) : list UnconfirmedTx :=
  take (Z.to_nat limit) (ordered p).*2.

Definition all_prioritized (p : OrderedPool) : list UnconfirmedTx := (ordered p).*2.

(** [OrderedPool::evict_lowest]. *)
Definition evict_lowest (p : OrderedPool) : option id32 * OrderedPool :=
  match last (ordered p) with
  | None => (None, p)
  | Some (lowest_weight, _) =>
      let tx_id := tw_tx_id lowest_weight in
      (Some tx_id, snd (pool_remove tx_id p))
  end.

Definition lowest_weight (p : OrderedPool) : option Z :=
  (fun e : TxWeight * UnconfirmedTx => weight e.1) <$> last (ordered p).

Definition with_weight (w : TxWeight) (new_weight : Z) : TxWeight :=
  mk_weight new_weight (fee_per_factor w) (tw_tx_id w).

(** [OrderedPool::update_weight]. *)
Definition update_weight (tx_id : id32) (new_weight : Z) (p : OrderedPool) : OrderedPool :=
  match by_id p !! tx_id with
  | None => p
  | Some old_weight =>
      match om_remove old_weight (ordered p) with
      | (None, ordered') =>
          mk_pool ordered' (by_id p) (by_input p) (by_output p) (tx_index p) (pool_capacity p)
      | (Some utx, ordered') =>
          let updated := with_weight old_weight new_weight in
          {| by_id := <[tx_id := updated]> (by_id p);
             by_input := (fun w => if tw_tx_id w =? tx_id then updated else w) <$> by_input p;
             by_output := (fun wb : TxWeight * ErgoBox =>
                             if tw_tx_id wb.1 =? tx_id then (updated, wb.2) else wb)
                          <$> by_output p;
             tx_index := tx_index p;
             ordered := om_insert updated utx ordered';
             pool_capacity := pool_capacity p |}
      end
  end.

Definition spent_inputs (p : OrderedPool) : list id32 := (map_to_list (by_input p)).*1.

Definition tx_ids (p : OrderedPool) : list id32 := (map_to_list (by_id p)).*1.

(** [MempoolReader::tx_bytes], over the pool's shared index. *)
Definition reader_tx_bytes (id : id32) (p : OrderedPool) : option byte_list := tx_index p !! id.

(** The output boxes of a transaction with their ids, [process::output_boxes]. *)
Definition output_boxes (t : Transaction) : list (id32 * ErgoBox) :=
  (fun b => (box_id b, b)) <$> outputs t.

(** ** Family weight *)

Definition MAX_PARENT_SCAN_DEPTH : nat := 500.
Definition MAX_PARENT_SCAN_MS : Z := 500.

(** The pool transactions whose outputs [ids] spend, each paired with the weight
    to add: the entries the loops push, in the order they push them. *)
Definition parents_of (ids : list id32) (weight_to_add : Z) (p : OrderedPool)
    : list (id32 * Z) :=
  omap (fun id => (fun wb : TxWeight * ErgoBox => (tw_tx_id wb.1, weight_to_add))
                  <$> by_output p !! id) ids.

Section Family.
(** Elapsed time since the scan started, at the loop's [n]-th reading. *)
Variable elapsed : nat -> duration.

(** The [while let] loop of [propagate_family_weight]. [remaining] is
    [MAX_PARENT_SCAN_DEPTH - depth]; the stack's top is the list's head. An id no
    longer pooled is skipped without counting towards the depth, so the recursion
    is on the depth and, within one depth, on the stack. *)
Fixpoint propagate_loop (remaining : nat)
    : nat -> list (id32 * Z) -> OrderedPool -> OrderedPool :=
  fix go (tick : nat) (to_visit : list (id32 * Z)) (pool : OrderedPool) {struct to_visit} :=
    match to_visit with
    | [] => pool
    | (parent_id, weight_to_add) :: rest =>
        match remaining with
        | O => pool
        | S remaining' =>
            if MAX_PARENT_SCAN_MS <=? as_millis (elapsed tick) then pool
            else
              match by_id pool !! parent_id with
              | None => go (S tick) rest pool
              | Some w =>
                  let pool1 := update_weight parent_id (add_u64 (weight w) weight_to_add) pool in
                  let to_visit' :=
                    match pool_get parent_id pool1 with
                    | Some parent_utx =>
                        rev (parents_of (inputs (tx parent_utx)) weight_to_add pool1) ++ rest
                    | None => rest
                    end in
                  propagate_loop remaining' (S tick) to_visit' pool1
              end
        end
    end.

(** [propagate_family_weight]. *)
Definition propagate_family_weight (child_input_ids : list id32) (child_fee_per_factor : Z)
    (pool : OrderedPool) : OrderedPool :=
  propagate_loop MAX_PARENT_SCAN_DEPTH 0%nat
    (rev (parents_of child_input_ids child_fee_per_factor pool)) pool.

End Family.

(** ** Invariant *)

(** The indexes agree with the store: the store is sorted by weight; every entry is
    in [by_id] under its own transaction's id, and [by_id] has nothing else; the
    serving index holds each entry's bytes; [by_input] and [by_output] name pooled
    transactions that spend, respectively create, the box. *)
Record pool_ok (p : OrderedPool) : Prop := {
  ok_sorted : om_sorted (ordered p);
  ok_entry : forall w u, (w, u) ∈ ordered p ->
    by_id p !! tw_tx_id w = Some w /\ tx_id_of (tx u) = tw_tx_id w;
  ok_by_id : forall t w, by_id p !! t = Some w ->
    tw_tx_id w = t /\ exists u, (w, u) ∈ ordered p;
  ok_index_in : forall w u, (w, u) ∈ ordered p ->
    tx_index p !! tw_tx_id w = Some (tx_bytes u);
  ok_index_dom : forall t b, tx_index p !! t = Some b -> is_Some (by_id p !! t);
  ok_input : forall i w, by_input p !! i = Some w ->
    exists u, (w, u) ∈ ordered p /\ i ∈ inputs (tx u);
  ok_output : forall o w b, by_output p !! o = Some (w, b) ->
    exists u, (w, u) ∈ ordered p /\ (o, b) ∈ output_boxes (tx u);
}.

(** Double-spend detection is complete: every input of a pooled transaction leads
    to that transaction. *)
Definition inputs_indexed (p : OrderedPool) : Prop :=
  forall w u i, (w, u) ∈ ordered p -> i ∈ inputs (tx u) -> by_input p !! i = Some w.

(** Two entries' ids being equal makes them the same entry. *)
Lemma entry_unique p w1 u1 w2 u2 :
  pool_ok p -> (w1, u1) ∈ ordered p -> (w2, u2) ∈ ordered p ->
  tw_tx_id w1 = tw_tx_id w2 -> w1 = w2 /\ u1 = u2.
Proof.
  intros Hok H1 H2 Ht. pose proof (ok_entry _ Hok _ _ H1) as [E1 _].
  pose proof (ok_entry _ Hok _ _ H2) as [E2 _]. rewrite Ht in E1.
  assert (w1 = w2) as -> by congruence. split; [done|].
  pose proof (om_elem_unique _ _ _ (ok_sorted _ Hok) H1 H2 (cmp_refl _)). congruence.
Qed.

(** [get] finds exactly the stored entries. *)
Lemma pool_get_spec p t u :
  pool_ok p ->
  pool_get t p = Some u <-> exists w, (w, u) ∈ ordered p /\ tw_tx_id w = t.
Proof.
  intros Hok. unfold pool_get. split.
  - destruct (by_id p !! t) as [w|] eqn:E; [|done]. unfold om_get.
    destruct (om_get_kv w (ordered p)) as [[w' u']|] eqn:Eg; [|done]. intros [= ->].
    apply om_get_kv_elem in Eg as [Hin Hc]. exists w'. split; [done|].
    apply tx_weight_cmp_eq in Hc as [_ Hc]. cbn in Hc. rewrite <- Hc. by apply (ok_by_id _ Hok).
  - intros (w & Hin & <-). rewrite (proj1 (ok_entry _ Hok _ _ Hin)). unfold om_get.
    by rewrite (om_elem_get_kv w _ (w, u) (ok_sorted _ Hok) Hin (cmp_refl _)).
Qed.

Lemma pool_get_weighted_spec p t w u :
  pool_ok p ->
  pool_get_weighted t p = Some (w, u) <-> (w, u) ∈ ordered p /\ tw_tx_id w = t.
Proof.
  intros Hok. unfold pool_get_weighted. split.
  - destruct (by_id p !! t) as [w0|] eqn:E; [|done]. intros Eg.
    apply om_get_kv_elem in Eg as [Hin Hc]. split; [done|].
    apply tx_weight_cmp_eq in Hc as [_ Hc]. cbn in Hc. rewrite <- Hc. by apply (ok_by_id _ Hok).
  - intros (Hin & <-). rewrite (proj1 (ok_entry _ Hok _ _ Hin)).
    by apply (om_elem_get_kv w _ (w, u) (ok_sorted _ Hok) Hin (cmp_refl _)).
Qed.

Lemma pool_contains_spec p t :
  pool_ok p -> pool_contains t p = true <-> exists w u, (w, u) ∈ ordered p /\ tw_tx_id w = t.
Proof.
  intros Hok. unfold pool_contains. split.
  - destruct (by_id p !! t) as [w|] eqn:E; [|done].
    apply (ok_by_id _ Hok) in E as [? [u ?]]. eauto.
  - intros (w & u & Hin & <-). by rewrite (proj1 (ok_entry _ Hok _ _ Hin)).
Qed.

(** What removing a pooled id takes out of the store. *)
Lemma remove_entry p t w :
  pool_ok p -> by_id p !! t = Some w ->
  exists u rest, om_remove w (ordered p) = (Some u, rest) /\ (w, u) ∈ ordered p /\
    tw_tx_id w = t /\ om_sorted rest /\ length (ordered p) = S (length rest) /\
    forall w' u', (w', u') ∈ rest <-> (w', u') ∈ ordered p /\ tw_tx_id w' <> t.
Proof.
  intros Hok Hw. destruct (ok_by_id _ Hok _ _ Hw) as [Ht [u Hin]].
  pose proof (ok_sorted _ Hok) as Hs.
  destruct (om_remove w (ordered p)) as [r rest] eqn:Er.
  assert (r = Some u) as ->.
  { pose proof (om_remove_fst w (ordered p)) as Hf. rewrite Er in Hf. cbn in Hf. rewrite Hf.
    unfold om_get. by rewrite (om_elem_get_kv w _ (w, u) Hs Hin (cmp_refl _)). }
  exists u, rest. split_and!; try done.
  - pose proof (om_remove_sorted w _ Hs) as Hr. by rewrite Er in Hr.
  - pose proof (om_remove_length w (ordered p) u) as Hl. rewrite Er in Hl. by apply Hl.
  - intros w' u'. pose proof (om_remove_elem w (ordered p) (w', u') Hs) as He.
    rewrite Er in He. cbn in He. rewrite He. split; intros [Hin' Hne]; (split; [done|]).
    + intros Heq. destruct (entry_unique p w u w' u') as [<- _]; [done..|congruence|].
      by rewrite cmp_refl in Hne.
    + intros [_ Hc]%tx_weight_cmp_eq. congruence.
Qed.

(** Everything [remove] does to a well-formed pool, by cases on membership. *)
Lemma pool_remove_absent p t : by_id p !! t = None -> pool_remove t p = (None, p).
Proof. unfold pool_remove. by intros ->. Qed.

Lemma pool_remove_spec p t w :
  pool_ok p -> by_id p !! t = Some w ->
  exists u p', pool_remove t p = (Some u, p') /\ (w, u) ∈ ordered p /\ pool_ok p' /\
    pool_capacity p' = pool_capacity p /\
    length (ordered p) = S (length (ordered p')) /\ by_id p' = delete t (by_id p) /\
    (forall w' u', (w', u') ∈ ordered p' <-> (w', u') ∈ ordered p /\ tw_tx_id w' <> t) /\
    (forall i w', by_input p' !! i = Some w' <->
                  by_input p !! i = Some w' /\ tw_tx_id w' <> t) /\
    (forall o wb, by_output p' !! o = Some wb <->
                  by_output p !! o = Some wb /\ tw_tx_id wb.1 <> t).
Proof.
  intros Hok Hw. destruct (remove_entry p t w Hok Hw) as (u & rest & Er & Hin & Ht & Hs & Hl & He).
  unfold pool_remove. rewrite Hw, Er. eexists u, _. split; [reflexivity|].
  assert (Hinp : forall i w', (filter (fun '(_, w0) => tw_tx_id w0 <> t) (by_input p)
      : gmap Z TxWeight) !! i = Some w' <-> by_input p !! i = Some w' /\ tw_tx_id w' <> t).
  { intros i w'. by rewrite map_lookup_filter_Some. }
  assert (Houtp : forall o wb, (filter (fun '(_, wb0) => tw_tx_id wb0.1 <> t) (by_output p)
      : gmap Z (TxWeight * ErgoBox)) !! o = Some wb <->
      by_output p !! o = Some wb /\ tw_tx_id wb.1 <> t).
  { intros o wb. by rewrite map_lookup_filter_Some. }
  split_and!; try done. split; cbn [ordered by_id by_input by_output tx_index].
  - done.
  - intros w' u' [Hin' Hne]%He. destruct (ok_entry _ Hok _ _ Hin'). by rewrite lookup_delete_ne.
  - intros t' w' [Hne Hb]%lookup_delete_Some. destruct (ok_by_id _ Hok _ _ Hb) as [<- [u' Hu']].
    split; [done|]. exists u'. by apply He.
  - intros w' u' [Hin' Hne]%He. rewrite lookup_delete_ne by done. by apply (ok_index_in _ Hok).
  - intros t' b [Hne Hb]%lookup_delete_Some. rewrite lookup_delete_ne by done.
    by eapply (ok_index_dom _ Hok).
  - intros i w' [Hb Hne]%Hinp. destruct (ok_input _ Hok _ _ Hb) as (u' & Hu' & Hi).
    exists u'. by rewrite He.
  - intros o w' b [Hb Hne]%Houtp. destruct (ok_output _ Hok _ _ _ Hb) as (u' & Hu' & Hi).
    exists u'. by rewrite He.
Qed.

(** [insert] of a fresh transaction. *)
Lemma insert_fresh p w :
  pool_ok p -> by_id p !! tw_tx_id w = None -> om_get_kv w (ordered p) = None.
Proof.
  intros Hok Hn. destruct (om_get_kv w (ordered p)) as [[w' u']|] eqn:E; [|done].
  apply om_get_kv_elem in E as [Hin [_ Ht]%tx_weight_cmp_eq]. cbn in Ht.
  destruct (ok_entry _ Hok _ _ Hin) as [Hb _]. congruence.
Qed.

Lemma pool_insert_elem p w u ins outs w' u' :
  pool_ok p -> by_id p !! tw_tx_id w = None ->
  (w', u') ∈ ordered (pool_insert w u ins outs p) <-> (w' = w /\ u' = u) \/ (w', u') ∈ ordered p.
Proof.
  intros Hok Hn. cbn. rewrite om_insert_elem_fresh by (by apply insert_fresh).
  split; (intros [?|?]; [left; naive_solver|by right]).
Qed.

Lemma pool_insert_length p w u ins outs :
  pool_ok p -> by_id p !! tw_tx_id w = None ->
  length (ordered (pool_insert w u ins outs p)) = S (length (ordered p)).
Proof. intros Hok Hn. apply om_insert_length_fresh. by apply insert_fresh. Qed.

Lemma pool_insert_ok p w u :
  pool_ok p -> by_id p !! tw_tx_id w = None -> tx_id_of (tx u) = tw_tx_id w ->
  pool_ok (pool_insert w u (inputs (tx u)) (output_boxes (tx u)) p).
Proof.
  intros Hok Hn Ht.
  pose proof (fun w' u' => pool_insert_elem p w u (inputs (tx u)) (output_boxes (tx u)) w' u' Hok Hn) as He.
  assert (Hne : forall w' u', (w', u') ∈ ordered p -> tw_tx_id w <> tw_tx_id w').
  { intros w' u' Hin Heq. destruct (ok_entry _ Hok _ _ Hin) as [Hb _]. congruence. }
  split.
  - by apply om_insert_sorted, ok_sorted.
  - intros w' u' [[-> ->]|Hin]%He; cbn; [by rewrite lookup_insert_eq|].
    destruct (ok_entry _ Hok _ _ Hin). rewrite lookup_insert_ne; eauto.
  - intros t w' Hb. cbn in Hb. apply lookup_insert_Some in Hb as [[<- <-]|[Hk Hb]].
    + split; [done|]. exists u. apply He. by left.
    + destruct (ok_by_id _ Hok _ _ Hb) as [? [u' Hu']]. split; [done|]. exists u'. apply He. by right.
  - intros w' u' [[-> ->]|Hin]%He; cbn; [by rewrite lookup_insert_eq|].
    rewrite lookup_insert_ne by eauto. by apply (ok_index_in _ Hok).
  - intros t b Hb. cbn in *. apply lookup_insert_Some in Hb as [[<- _]|[Hk Hb]].
    + rewrite lookup_insert_eq. eauto.
    + rewrite lookup_insert_ne by done. by eapply (ok_index_dom _ Hok).
  - intros i w'. cbn. rewrite fill_lookup. destruct (decide (i ∈ inputs (tx u))).
    + intros [= <-]. exists u. split; [apply He; by left|done].
    + intros (u' & Hu' & Hi)%(ok_input _ Hok). exists u'. split; [apply He; by right|done].
  - intros o w' b Hb. cbn in Hb. apply fill_pair_lookup in Hb as [[-> Hb]|Hb].
    + exists u. split; [apply He; by left|done].
    + apply (ok_output _ Hok) in Hb as (u' & Hu' & Hi). exists u'. split; [apply He; by right|done].
Qed.

Lemma pool_insert_indexed p w u :
  pool_ok p -> by_id p !! tw_tx_id w = None -> inputs_indexed p ->
  (forall i, i ∈ inputs (tx u) -> by_input p !! i = None) ->
  inputs_indexed (pool_insert w u (inputs (tx u)) (output_boxes (tx u)) p).
Proof.
  intros Hok Hn Hix Hfree w' u' i [[-> ->]|Hin]%pool_insert_elem Hi; try done;
    cbn; rewrite fill_lookup.
  - by rewrite decide_True.
  - rewrite decide_False; [by eapply Hix|].
    intros Hi'. pose proof (Hix _ _ _ Hin Hi). rewrite (Hfree i Hi') in *. done.
Qed.

Lemma pool_remove_indexed p t :
  pool_ok p -> inputs_indexed p -> inputs_indexed (snd (pool_remove t p)).
Proof.
  intros Hok Hix. destruct (by_id p !! t) as [w|] eqn:E.
  - destruct (pool_remove_spec p t w Hok E) as (u & p' & -> & _ & _ & _ & _ & _ & He & Hi & _).
    intros w' u' i [Hin Hne]%He Hiu. apply Hi. split; [by eapply Hix|done].
  - by rewrite pool_remove_absent.
Qed.

Lemma pool_remove_ok p t : pool_ok p -> pool_ok (snd (pool_remove t p)).
Proof.
  intros Hok. destruct (by_id p !! t) as [w|] eqn:E.
  - by destruct (pool_remove_spec p t w Hok E) as (u & p' & -> & _ & ? & _).
  - by rewrite pool_remove_absent.
Qed.

(** What stays in the pool after a [remove], stated uniformly. *)
Lemma pool_remove_elem p t w' u' :
  pool_ok p ->
  (w', u') ∈ ordered (snd (pool_remove t p)) <-> (w', u') ∈ ordered p /\ tw_tx_id w' <> t.
Proof.
  intros Hok. destruct (by_id p !! t) as [w|] eqn:E.
  - by destruct (pool_remove_spec p t w Hok E) as (u & p' & -> & _ & _ & _ & _ & _ & He & _).
  - rewrite pool_remove_absent by done. cbn. split; [|by intros []].
    intros Hin. split; [done|]. intros <-. destruct (ok_entry _ Hok _ _ Hin). congruence.
Qed.

Lemma pool_remove_input p t i w' :
  pool_ok p ->
  by_input (snd (pool_remove t p)) !! i = Some w' <->
  by_input p !! i = Some w' /\ tw_tx_id w' <> t.
Proof.
  intros Hok. destruct (by_id p !! t) as [w|] eqn:E.
  - by destruct (pool_remove_spec p t w Hok E) as (u & p' & -> & _ & _ & _ & _ & _ & _ & Hi & _).
  - rewrite pool_remove_absent by done. cbn. split; [|by intros []].
    intros Hb. split; [done|]. intros <-.
    destruct (ok_input _ Hok _ _ Hb) as (u & Hin & _). destruct (ok_entry _ Hok _ _ Hin). congruence.
Qed.

Lemma pool_remove_capacity p t : pool_capacity (snd (pool_remove t p)) = pool_capacity p.
Proof. unfold pool_remove. by repeat case_match. Qed.

Lemma pool_remove_length_le p t :
  (length (ordered (snd (pool_remove t p))) <= length (ordered p))%nat.
Proof.
  unfold pool_remove. destruct (by_id p !! t) as [w|]; [|done].
  assert (length (snd (om_remove w (ordered p))) <= length (ordered p))%nat.
  { induction (ordered p) as [|[k v] m IH]; cbn; [done|].
    destruct (cmp w k); cbn; [lia| |]; destruct (om_remove w m); cbn in *; lia. }
  destruct (om_remove w (ordered p)) as [[u|] rest]; done.
Qed.

(** ** Re-weighting *)

(** Two pools that hold the same transactions under the same ids and indexes, and
    differ at most in weights. *)
Record same_txs (p p' : OrderedPool) : Prop := {
  same_capacity : pool_capacity p' = pool_capacity p;
  same_length : length (ordered p') = length (ordered p);
  same_get : forall t, pool_get t p' = pool_get t p;
  same_inputs : forall i, tw_tx_id <$> by_input p' !! i = tw_tx_id <$> by_input p !! i;
  same_outputs : forall o, unconfirmed_box o p' = unconfirmed_box o p;
  same_base : forall t, fee_per_factor <$> by_id p' !! t = fee_per_factor <$> by_id p !! t;
}.

#[global] Instance same_txs_preorder : PreOrder same_txs.
Proof.
  split; [by split|]. intros p q r [] []. split; try congruence; intros x; by etrans.
Qed.

Lemma update_weight_elem p t n w :
  pool_ok p -> by_id p !! t = Some w ->
  exists u, (w, u) ∈ ordered p /\
    length (ordered (update_weight t n p)) = length (ordered p) /\
    om_sorted (ordered (update_weight t n p)) /\
    forall w' u', (w', u') ∈ ordered (update_weight t n p) <->
      (w' = with_weight w n /\ u' = u) \/ ((w', u') ∈ ordered p /\ tw_tx_id w' <> t).
Proof.
  intros Hok Hw. destruct (remove_entry p t w Hok Hw) as (u & rest & Er & Hin & Ht & Hs & Hl & He).
  exists u. split; [done|]. unfold update_weight. rewrite Hw, Er. cbn [ordered].
  assert (Hf : om_get_kv (with_weight w n) rest = None).
  { destruct (om_get_kv (with_weight w n) rest) as [[w' u']|] eqn:E; [|done].
    apply om_get_kv_elem in E as [Hin' [_ Hc]%tx_weight_cmp_eq]. apply He in Hin'.
    cbn in Hc. destruct Hin'. congruence. }
  split_and!.
  - by rewrite om_insert_length_fresh, Hl.
  - by apply om_insert_sorted.
  - intros w' u'. rewrite om_insert_elem_fresh, He by done.
    split; (intros [?|?]; [left; naive_solver|by right]).
Qed.

Lemma update_weight_fields p t n w :
  pool_ok p -> by_id p !! t = Some w ->
  by_id (update_weight t n p) = <[t := with_weight w n]> (by_id p) /\
  by_input (update_weight t n p) =
    (fun w0 => if tw_tx_id w0 =? t then with_weight w n else w0) <$> by_input p /\
  by_output (update_weight t n p) =
    (fun wb : TxWeight * ErgoBox => if tw_tx_id wb.1 =? t then (with_weight w n, wb.2) else wb)
    <$> by_output p /\
  tx_index (update_weight t n p) = tx_index p /\
  pool_capacity (update_weight t n p) = pool_capacity p.
Proof.
  intros Hok Hw. destruct (remove_entry p t w Hok Hw) as (u & rest & Er & _).
  unfold update_weight. by rewrite Hw, Er.
Qed.

Lemma update_weight_absent p t n : by_id p !! t = None -> update_weight t n p = p.
Proof. unfold update_weight. by intros ->. Qed.

(** The entry a re-weighted index points at. *)
Lemma update_weight_points p t n w w0 u0 :
  pool_ok p -> by_id p !! t = Some w -> (w0, u0) ∈ ordered p ->
  ((if tw_tx_id w0 =? t then with_weight w n else w0), u0) ∈ ordered (update_weight t n p).
Proof.
  intros Hok Hw H0. destruct (update_weight_elem p t n w Hok Hw) as (u & Hin & _ & _ & He).
  destruct (ok_by_id _ Hok _ _ Hw) as [Ht _]. apply He.
  destruct (Z.eqb_spec (tw_tx_id w0) t) as [Heq|Hne]; [left|by right].
  destruct (entry_unique p w0 u0 w u) as [-> ->]; [done..|congruence|done].
Qed.

Lemma update_weight_ok p t n : pool_ok p -> pool_ok (update_weight t n p).
Proof.
  intros Hok. destruct (by_id p !! t) as [w|] eqn:Hw; [|by rewrite update_weight_absent].
  destruct (update_weight_elem p t n w Hok Hw) as (u & Hin & _ & Hs & He).
  destruct (update_weight_fields p t n w Hok Hw) as (Hbi & Hbin & Hbo & Hix & _).
  destruct (ok_by_id _ Hok _ _ Hw) as [Ht _].
  destruct (ok_entry _ Hok _ _ Hin) as [_ Hu].
  split.
  - done.
  - intros w' u' [[-> ->]|[Hin' Hne]]%He; rewrite Hbi; cbn [with_weight tw_tx_id].
    + by rewrite Ht, lookup_insert_eq, <- Ht.
    + rewrite lookup_insert_ne by done. by apply (ok_entry _ Hok).
  - intros t' w'. rewrite Hbi. intros [[<- <-]|[Hne Hb]]%lookup_insert_Some.
    + split; [done|]. exists u. apply He. by left.
    + destruct (ok_by_id _ Hok _ _ Hb) as [<- [u' Hu']]. split; [done|]. exists u'. apply He. auto.
  - intros w' u' [[-> ->]|[Hin' Hne]]%He; rewrite Hix; cbn [with_weight tw_tx_id];
      by apply (ok_index_in _ Hok).
  - intros t' b. rewrite Hix, Hbi. intros Hb%(ok_index_dom _ Hok).
    destruct (decide (t = t')) as [->|Hne]; [rewrite lookup_insert_eq; eauto|].
    by rewrite lookup_insert_ne.
  - intros i w'. rewrite Hbin, lookup_fmap. intros (w0 & <- & Hb)%fmap_Some_1'.
    destruct (ok_input _ Hok _ _ Hb) as (u0 & Hin0 & Hi). exists u0.
    split; [by apply update_weight_points|done].
  - intros o w' b. rewrite Hbo, lookup_fmap. intros ([w0 b0] & Heq & Hb)%fmap_Some_1'.
    destruct (ok_output _ Hok _ _ _ Hb) as (u0 & Hin0 & Hi). exists u0.
    assert (b = b0 /\ w' = if tw_tx_id w0 =? t then with_weight w n else w0) as [-> ->]
      by (cbn in Heq; case_match; naive_solver).
    split; [by apply update_weight_points|done].
Qed.

Lemma update_weight_same p t n : pool_ok p -> same_txs p (update_weight t n p).
Proof.
  intros Hok. destruct (by_id p !! t) as [w|] eqn:Hw; [|by rewrite update_weight_absent].
  destruct (update_weight_elem p t n w Hok Hw) as (u & Hin & Hl & _ & He).
  destruct (update_weight_fields p t n w Hok Hw) as (Hbi & Hbin & Hbo & _ & Hc).
  destruct (ok_by_id _ Hok _ _ Hw) as [Ht _].
  split; try done.
  - intros t'. apply option_eq. intros u'.
    rewrite !pool_get_spec by eauto using update_weight_ok. split.
    + intros (w' & [[-> ->]|[Hin' _]]%He & <-); [by exists w|eauto].
    + intros (w' & Hin' & <-). pose proof (update_weight_points p t n w w' u' Hok Hw Hin') as Hp.
      eexists. split; [exact Hp|]. destruct (Z.eqb_spec (tw_tx_id w') t); [|done].
      cbn. congruence.
  - intros i. rewrite Hbin, lookup_fmap. destruct (by_input p !! i) as [w0|]; [|done]. cbn.
    destruct (Z.eqb_spec (tw_tx_id w0) t); [cbn; congruence|done].
  - intros o. unfold unconfirmed_box. rewrite Hbo, lookup_fmap.
    destruct (by_output p !! o) as [[w0 b0]|]; [|done]. cbn. by case_match.
  - intros t'. rewrite Hbi. destruct (decide (t = t')) as [->|Hne].
    + by rewrite lookup_insert_eq, Hw.
    + by rewrite lookup_insert_ne.
Qed.

Lemma same_txs_indexed p p' :
  pool_ok p -> pool_ok p' -> same_txs p p' -> inputs_indexed p -> inputs_indexed p'.
Proof.
  intros Hok Hok' Hsame Hix w' u i Hin Hi.
  assert (Hg : pool_get (tw_tx_id w') p' = Some u) by (apply pool_get_spec; eauto).
  rewrite (same_get _ _ Hsame) in Hg. apply pool_get_spec in Hg as (w & Hinw & Ht); [|done].
  pose proof (same_inputs _ _ Hsame i) as Hs. rewrite (Hix _ _ _ Hinw Hi) in Hs. cbn in Hs.
  apply fmap_Some_1' in Hs as (w'' & Ht'' & Hb). rewrite Hb.
  destruct (ok_input _ Hok' _ _ Hb) as (u'' & Hin'' & _).
  destruct (entry_unique p' w'' u'' w' u) as [-> _]; [done..|congruence|done].
Qed.

Lemma same_txs_contains p p' t :
  pool_ok p -> pool_ok p' -> same_txs p p' -> pool_contains t p' = pool_contains t p.
Proof.
  intros Hok Hok' Hsame. pose proof (same_base _ _ Hsame t) as Hb. unfold pool_contains.
  by destruct (by_id p !! t), (by_id p' !! t).
Qed.

(** Propagation re-weights and does nothing else. *)
Lemma propagate_loop_same elapsed remaining tick to_visit p :
  pool_ok p ->
  pool_ok (propagate_loop elapsed remaining tick to_visit p) /\
  same_txs p (propagate_loop elapsed remaining tick to_visit p).
Proof.
  revert tick to_visit p. induction remaining as [|r IH]; intros tick to_visit.
  - intros p Hok. destruct to_visit as [|[]]; by split.
  - revert tick. induction to_visit as [|[t n] rest IHv]; intros tick p Hok; [by split|].
    cbn [propagate_loop]. case_match; [by split|].
    destruct (by_id p !! t) as [w|] eqn:Hw; [|by apply IHv].
    set (p1 := update_weight t _ p).
    assert (Hok1 : pool_ok p1) by (by apply update_weight_ok).
    assert (Hs1 : same_txs p p1) by (by apply update_weight_same).
    split; [by apply IH|]. etrans; [exact Hs1|]. by apply IH.
Qed.

Lemma propagate_family_ok elapsed ids f p :
  pool_ok p -> pool_ok (propagate_family_weight elapsed ids f p).
Proof. intros. by apply propagate_loop_same. Qed.

Lemma propagate_family_same elapsed ids f p :
  pool_ok p -> same_txs p (propagate_family_weight elapsed ids f p).
Proof. intros. by apply propagate_loop_same. Qed.

(** ** Bookkeeping writes *)

Lemma pool_get_mut_ok f p t :
  (forall u, tx (f u) = tx u /\ tx_bytes (f u) = tx_bytes u) ->
  pool_ok p -> pool_ok (pool_get_mut f t p).
Proof.
  intros Hf Hok. unfold pool_get_mut. destruct (by_id p !! t) as [w|] eqn:Hw; [|done].
  pose proof (fun k v => om_alter_elem f w (ordered p) k v (ok_sorted _ Hok)) as He.
  assert (Hback : forall w' u', (w', u') ∈ om_alter f w (ordered p) ->
    exists u, (w', u) ∈ ordered p /\ tx u' = tx u /\ tx_bytes u' = tx_bytes u).
  { intros w' u' (u & Hin & ->)%He. exists u. split; [done|]. destruct (Hf u). by case_match. }
  assert (Hfwd : forall w' u, (w', u) ∈ ordered p ->
    exists u', (w', u') ∈ om_alter f w (ordered p) /\ tx u' = tx u).
  { intros w' u Hin. eexists. split; [apply He; by exists u|]. destruct (Hf u). by case_match. }
  split; cbn.
  - by apply om_alter_sorted, ok_sorted.
  - intros w' u' (u & Hin & -> & _)%Hback. by apply (ok_entry _ Hok).
  - intros t' w' Hb. destruct (ok_by_id _ Hok _ _ Hb) as [? [u Hin]].
    apply Hfwd in Hin as (u' & ? & _). eauto.
  - intros w' u' (u & Hin & _ & ->)%Hback. by apply (ok_index_in _ Hok).
  - apply (ok_index_dom _ Hok).
  - intros i w' Hb. destruct (ok_input _ Hok _ _ Hb) as (u & Hin & Hi).
    apply Hfwd in Hin as (u' & ? & Htx). exists u'. by rewrite Htx.
  - intros o w' b Hb. destruct (ok_output _ Hok _ _ _ Hb) as (u & Hin & Hi).
    apply Hfwd in Hin as (u' & ? & Htx). exists u'. by rewrite Htx.
Qed.

Lemma pool_get_mut_indexed f p t :
  (forall u, tx (f u) = tx u) -> pool_ok p -> inputs_indexed p ->
  inputs_indexed (pool_get_mut f t p).
Proof.
  intros Hf Hok Hix. unfold pool_get_mut. destruct (by_id p !! t) as [w|] eqn:Hw; [|done].
  intros w' u' i (u & Hin & ->)%(om_alter_elem f w _ _ _ (ok_sorted _ Hok)) Hi.
  cbn. eapply Hix; [done|]. case_match; by rewrite ?Hf in Hi.
Qed.

Lemma pool_get_mut_length f p t : length (ordered (pool_get_mut f t p)) = length (ordered p).
Proof.
  unfold pool_get_mut. case_match; [|done]. cbn.
  pose proof (om_alter_keys f t0 (ordered p)) as Hk.
  apply (f_equal length) in Hk. by rewrite !length_fmap in Hk.
Qed.

Lemma pool_get_mut_capacity f p t : pool_capacity (pool_get_mut f t p) = pool_capacity p.
Proof. unfold pool_get_mut. by case_match. Qed.

Lemma pool_new_ok c : pool_ok (pool_new c).
Proof.
  split; cbn; try (intros; set_solver).
  constructor.
Qed.

Lemma pool_new_indexed c : inputs_indexed (pool_new c).
Proof. intros w u i Hin. set_solver. Qed.

(** ** How far propagation moves a weight *)

(** [p'] is [p] with every weight raised by at most [d]. *)
Definition raised_by (d : Z) (p p' : OrderedPool) : Prop :=
  forall t w', by_id p' !! t = Some w' ->
  exists w, by_id p !! t = Some w /\ weight w <= weight w' <= weight w + d.

Lemma update_weight_raised p t w add :
  pool_ok p -> by_id p !! t = Some w -> 0 <= add -> 0 <= weight w -> weight w + add <= U64_MAX ->
  raised_by add p (update_weight t (add_u64 (weight w) add) p).
Proof.
  intros Hok Hw Ha H0 Hmax t' w'.
  destruct (update_weight_fields p t (add_u64 (weight w) add) w Hok Hw) as (-> & _).
  unfold add_u64. rewrite as_u64_small by (unfold is_u64; lia).
  intros [[<- <-]|[Hne Hb]]%lookup_insert_Some.
  - exists w. split; [done|]. cbn. lia.
  - exists w'. split; [done|]. lia.
Qed.

Lemma propagate_loop_raised elapsed f remaining tick to_visit p :
  pool_ok p -> 0 <= f -> Forall (fun e => e.2 = f) to_visit ->
  (forall t w, by_id p !! t = Some w ->
     0 <= weight w /\ weight w + Z.of_nat remaining * f <= U64_MAX) ->
  raised_by (Z.of_nat remaining * f) p (propagate_loop elapsed remaining tick to_visit p).
Proof.
  intros Hok Hf. revert tick to_visit p Hok. induction remaining as [|r IH]; intros tick to_visit.
  - intros p Hok _ _. destruct to_visit as [|[]]; intros t w Hb; exists w; split; try done; lia.
  - revert tick. induction to_visit as [|[t n] rest IHv]; intros tick p Hok Hall Hmax.
    { intros t w Hb; exists w; split; [done|]; lia. }
    inversion Hall as [|? ? Hn Hall']; subst. cbn in *. case_match.
    { intros t' w' Hb; exists w'; split; [done|]; lia. }
    destruct (by_id p !! t) as [w|] eqn:Hw; [|by apply IHv].
    destruct (Hmax t w Hw) as [Hw0 Hwm].
    assert (Hr : raised_by n p (update_weight t (add_u64 (weight w) n) p)).
    { apply update_weight_raised; try done. nia. }
    intros t' w' Hb. apply IH in Hb as (w1 & Hb1 & Hle).
    + apply Hr in Hb1 as (w0 & Hb0 & Hle0). exists w0. split; [done|]. lia.
    + by apply update_weight_ok.
    + case_match; [|done]. apply Forall_app. split; [|done].
      apply Forall_rev, Forall_forall. intros [t0 n0] Hin. unfold parents_of in Hin.
      apply list_elem_of_omap in Hin as (i & _ & Hi).
      apply fmap_Some_1' in Hi as (wb & Heq & _). by injection Heq as <- <-.
    + intros t1 w1 Hb1. apply Hr in Hb1 as (w0 & Hb0 & Hle0). specialize (Hmax _ _ Hb0). lia.
Qed.

(** The ids in the store are distinct. *)
Lemma ordered_ids_nodup p :
  pool_ok p -> NoDup ((fun e : TxWeight * UnconfirmedTx => tw_tx_id e.1) <$> ordered p).
Proof.
  intros Hok. apply NoDup_fmap_2_strong.
  - intros [w1 u1] [w2 u2] H1 H2 Heq. cbn in Heq.
    by destruct (entry_unique p w1 u1 w2 u2) as [-> ->].
  - pose proof (ok_sorted _ Hok) as Hs. unfold om_sorted in Hs.
    induction Hs as [|e l Hs IH Hf]; constructor; [|done].
    intros Hin. rewrite Forall_forall in Hf. specialize (Hf _ Hin).
    unfold key_lt in Hf. by rewrite cmp_refl in Hf.
Qed.

(** Family propagation re-weights and does nothing else: the pool keeps its
    transactions, its base rates and its indexes, and each weight rises by between
    nothing and 500 times the child's rate (the scan's depth bound), as long as that
    much fits a [u64]. *)
Theorem propagate_correct elapsed ids f p :
  pool_ok p -> 0 <= f ->
  (forall t w, by_id p !! t = Some w -> 0 <= weight w /\ weight w + 500 * f <= U64_MAX) ->
  let p' := propagate_family_weight elapsed ids f p in
  pool_ok p' /\ same_txs p p' /\ raised_by (500 * f) p p'.
Proof.
  intros Hok Hf Hmax p'. split_and!.
  - by apply propagate_family_ok.
  - by apply propagate_family_same.
  - apply (propagate_loop_raised elapsed f MAX_PARENT_SCAN_DEPTH); try done.
    apply Forall_rev, Forall_forall. intros [t0 n0] Hin. unfold parents_of in Hin.
    apply list_elem_of_omap in Hin as (i & _ & Hi).
    apply fmap_Some_1' in Hi as (wb & Heq & _). by injection Heq as <- <-.
Qed.

(** A pool of one transaction, id 7, spending box 1 and making box 2. *)
Definition one_tx_pool : OrderedPool :=
  let t := mk_tx 7 [1] None [mk_ergo_box 2 [] 10 1] in
  pool_insert (mk_weight 100 100 7) (mk_utx t [] 10 10 None 0 0 None) (inputs t)
    (output_boxes t) (pool_new 5).

Lemma propagate_correct_witness :
  let p' := propagate_family_weight (fun _ => 0) [2] 40 one_tx_pool in
  weight <$> by_id p' !! 7 = Some 140 /\ pool_ok p' /\ same_txs one_tx_pool p'.
Proof.
  cbv zeta. split; [vm_compute; reflexivity|].
  destruct (propagate_correct (fun _ => 0) [2] 40 one_tx_pool) as (H1 & H2 & _).
  - apply (pool_insert_ok (pool_new 5)); [apply pool_new_ok|done|done].
  - lia.
  - intros t w Hb. cbn in Hb. apply lookup_insert_Some in Hb as [[_ <-]|[_ Hb]].
    + unfold U64_MAX. cbn. lia.
    + by rewrite lookup_empty in Hb.
  - split; [exact H1|exact H2].
Defined.

End OrderedPool.
