(* ===== verification/ExpiringCache.v ===== *)
(** * The invalidation cache

    [mempool/src/expiring_cache.rs]: a set whose members expire after a time to
    live and whose size is bounded, evicting the oldest member first. Each
    operation that reads the clock takes the reading as [now]. *)

From S2P Require Import Prelude.

Module ExpiringCache.

(** [ExpiringCache<[u8; 32]>]. *)
Record ExpiringCache := mk_cache {
  entries : gmap Z instant;
  insertion_order : list id32;
  ttl : duration;
  cache_capacity : Z;
}.

Definition cache_new (ttl : duration) (capacity : Z) : ExpiringCache :=
  mk_cache ∅ [] ttl capacity.

(** The eviction loop of [insert]: drop the oldest member while the set is at its
    capacity, stopping when there is no member left to drop. *)
Fixpoint evict_oldest (capacity : Z) (order : list id32) (m : gmap Z instant)
    : gmap Z instant * list id32 :=
  if capacity <=? Z.of_nat (size m) then
    match order with
    | oldest :: rest => evict_oldest capacity rest (delete oldest m)
    | [] => (m, [])
    end
  else (m, order).

(** [ExpiringCache::insert]. *)
Definition cache_insert (now : instant) (key : id32) (c : ExpiringCache) : ExpiringCache :=
  match entries c !! key with
  | Some _ => c
  | None =>
      let '(m, order) := evict_oldest (cache_capacity c) (insertion_order c) (entries c) in
      mk_cache (<[key := now]> m) (order ++ [key]) (ttl c) (cache_capacity c)
  end.

(** [ExpiringCache::contains]. *)
Definition cache_contains (now : instant) (key : id32) (c : ExpiringCache) : bool :=
  match entries c !! key with
  | Some inserted => duration_since now inserted <? ttl c
  | None => false
  end.

(** [ExpiringCache::prune]. *)
Definition cache_prune (now : instant) (c : ExpiringCache) : ExpiringCache :=
  let m := filter (fun '(_, inserted) => duration_since now inserted < ttl c) (entries c) in
  mk_cache m (filter (fun k => is_Some (m !! k)) (insertion_order c)) (ttl c) (cache_capacity c).

Definition cache_len (c : ExpiringCache) : Z := Z.of_nat (size (entries c)).

Definition cache_is_empty (c : ExpiringCache) : bool := cache_len c =? 0.

Definition cache_clear (c : ExpiringCache) : ExpiringCache :=
  mk_cache ∅ [] (ttl c) (cache_capacity c).

(** ** Invariant *)

(** The insertion order lists each member once, and the set fits its capacity. *)
Record cache_ok (c : ExpiringCache) : Prop := {
  order_nodup : NoDup (insertion_order c);
  order_dom : forall k, k ∈ insertion_order c <-> is_Some (entries c !! k);
  cache_fits : cache_len c <= cache_capacity c;
}.

Lemma size_order (m : gmap Z instant) order :
  NoDup order -> (forall k, k ∈ order <-> is_Some (m !! k)) -> size m = length order.
Proof.
  intros Hnd Hdom. rewrite <- size_dom.
  assert (dom m = list_to_set order) as ->.
  { apply set_eq. intros k. by rewrite elem_of_dom, elem_of_list_to_set, Hdom. }
  by apply size_list_to_set.
Qed.

Lemma evict_oldest_spec cap order m :
  0 < cap -> NoDup order -> (forall k, k ∈ order <-> is_Some (m !! k)) ->
  let '(m', order') := evict_oldest cap order m in
  NoDup order' /\ (forall k, k ∈ order' <-> is_Some (m' !! k)) /\
  Z.of_nat (size m') < cap /\ (exists dropped, order = dropped ++ order') /\
  (forall k, k ∈ order' -> m' !! k = m !! k) /\
  (Z.of_nat (size m) < cap -> m' = m).
Proof.
  intros Hcap. revert m. induction order as [|o rest IH]; intros m Hnd Hdom.
  - pose proof (size_order m [] Hnd Hdom) as Hs. cbn [evict_oldest length] in *.
    rewrite Hs. destruct (Z.leb_spec cap (Z.of_nat 0)); [lia|].
    rewrite Hs. split_and!; try done. by exists [].
  - cbn [evict_oldest]. destruct (Z.leb_spec cap (Z.of_nat (size m))) as [Hle|Hgt].
    + apply NoDup_cons in Hnd as [Hno Hnd].
      assert (Hdom' : forall k, k ∈ rest <-> is_Some (delete o m !! k)).
      { intros k. destruct (decide (o = k)) as [->|Hne].
        - rewrite lookup_delete_eq. split; [done|by intros []].
        - rewrite lookup_delete_ne, <- Hdom by done. set_solver. }
      specialize (IH (delete o m) Hnd Hdom').
      destruct (evict_oldest cap rest (delete o m)) as [m' order'].
      destruct IH as (H1 & H2 & H3 & [d H4] & H5 & H6). split_and!; try done.
      * exists (o :: d). by rewrite H4.
      * intros k Hk. rewrite (H5 k Hk). apply lookup_delete_ne. set_solver.
      * lia.
    + split_and!; try done. by exists [].
Qed.

Lemma cache_insert_ok now key c :
  0 < cache_capacity c -> cache_ok c -> cache_ok (cache_insert now key c).
Proof.
  intros Hcap [Hnd Hdom Hfit]. unfold cache_insert.
  destruct (entries c !! key) eqn:Ek; [by split|].
  pose proof (evict_oldest_spec _ _ _ Hcap Hnd Hdom) as Hev.
  destruct (evict_oldest _ _ _) as [m order].
  destruct Hev as (Hnd' & Hdom' & Hsz & [d Hd] & Hsame & _).
  assert (Hk : key ∉ order).
  { intros Hin. apply (f_equal (fun l => key ∈ l)) in Hd. assert (key ∈ insertion_order c) as Hi.
    { rewrite Hd. set_solver. } apply Hdom in Hi as [? ?]. congruence. }
  split; cbn.
  - apply NoDup_app. split_and!; [done|set_solver|apply NoDup_singleton].
  - intros k. destruct (decide (key = k)) as [->|Hne].
    + rewrite lookup_insert_eq. set_solver.
    + rewrite lookup_insert_ne, <- Hdom' by done. set_solver.
  - unfold cache_len. cbn. rewrite map_size_insert_None; [lia|].
    destruct (m !! key) eqn:Em; [|done]. exfalso. apply Hk, Hdom'. eauto.
Qed.

Lemma cache_prune_ok now c : cache_ok c -> cache_ok (cache_prune now c).
Proof.
  intros [Hnd Hdom Hfit]. split; cbn.
  - by apply NoDup_filter.
  - intros k. rewrite list_elem_of_filter, Hdom. split; [by intros []|]. intros Hs.
    split; [done|]. destruct Hs as [x [Hx _]%map_lookup_filter_Some]. eauto.
  - unfold cache_len in *. cbn. etrans; [|exact Hfit]. apply inj_le, map_size_filter.
Qed.

Lemma cache_clear_ok c : 0 <= cache_capacity c -> cache_ok (cache_clear c).
Proof. split; cbn; [constructor|split; [set_solver|by intros []]|done]. Qed.

Lemma cache_new_ok t cap : 0 <= cap -> cache_ok (cache_new t cap).
Proof. split; cbn; [constructor|split; [set_solver|by intros []]|done]. Qed.

(** ** Reachable caches *)

Inductive cache_op :=
  | OpInsert (now : instant) (key : id32)
  | OpPrune (now : instant)
  | OpClear.

Definition run_op (c : ExpiringCache) (op : cache_op) : ExpiringCache :=
  match op with
  | OpInsert now key => cache_insert now key c
  | OpPrune now => cache_prune now c
  | OpClear => cache_clear c
  end.

Lemma run_op_capacity c op : cache_capacity (run_op c op) = cache_capacity c.
Proof.
  destruct op; cbn; try done. unfold cache_insert. case_match; [done|]. by case_match.
Qed.

(** Whatever sequence of insertions, prunings and clears it goes through, a cache
    of positive capacity never holds more members than its capacity, and its
    insertion order lists exactly its members, each once. *)
Theorem cache_bounded t cap ops :
  0 < cap -> cache_ok (foldl run_op (cache_new t cap) ops).
Proof.
  intros Hcap. enough (H : cache_ok (foldl run_op (cache_new t cap) ops) /\
    cache_capacity (foldl run_op (cache_new t cap) ops) = cap) by apply H.
  induction ops as [|op ops IH] using rev_ind; [split; [apply cache_new_ok; lia|done]|].
  rewrite foldl_snoc. destruct IH as [Hok Hc]. rewrite run_op_capacity. split; [|done].
  destruct op; cbn [run_op].
  - apply cache_insert_ok; [lia|done].
  - by apply cache_prune_ok.
  - apply cache_clear_ok. lia.
Qed.

Lemma cache_bounded_witness :
  cache_ok (foldl run_op (cache_new 10 2) [OpInsert 1 7; OpInsert 2 8; OpInsert 3 9]) /\
  insertion_order (foldl run_op (cache_new 10 2) [OpInsert 1 7; OpInsert 2 8; OpInsert 3 9]) = [8; 9].
Proof.
  split; [|vm_compute; reflexivity].
  apply (cache_bounded 10 2 [OpInsert 1 7; OpInsert 2 8; OpInsert 3 9]). lia.
Defined.

(** An expired member that was not pruned is not refreshed by inserting it again:
    the insertion returns early, and the key still reads as absent. *)
Theorem cache_insert_stale now key inserted c :
  entries c !! key = Some inserted -> ttl c <= duration_since now inserted ->
  cache_contains now key (cache_insert now key c) = false.
Proof.
  intros He Ht. unfold cache_insert. rewrite He. unfold cache_contains. rewrite He.
  by apply Z.ltb_ge.
Qed.

Lemma cache_insert_stale_witness :
  cache_contains 20 7 (cache_insert 20 7 (cache_insert 1 7 (cache_new 10 2))) = false.
Proof.
  apply (cache_insert_stale 20 7 1 (cache_insert 1 7 (cache_new 10 2))).
  - vm_compute. reflexivity.
  - vm_compute. discriminate.
Defined.

End ExpiringCache.
