(* ===== verification/FeeStats.v ===== *)
(** * Fee statistics

    [mempool/src/stats.rs]: a histogram of the waits of confirmed pool
    transactions and a sliding window that measures throughput. *)

From S2P Require Import Prelude.

Module FeeStats.

Definition HISTOGRAM_BINS : nat := 60.
Definition MEASUREMENT_INTERVAL : duration := from_secs 60.

Record FeeHistogramBin := mk_bin { n_txns : Z; total_fee : Z }.

Definition bin_default : FeeHistogramBin := mk_bin 0 0.

(** [FeeHistogramBin::add]. *)
Definition bin_add (fee_per_factor : Z) (b : FeeHistogramBin) : FeeHistogramBin :=
  mk_bin (add_u64 (n_txns b) 1) (sat_add_u64 (total_fee b) fee_per_factor).

Record FeeStats := mk_stats {
  histogram : list FeeHistogramBin;
  window_start : instant;
  taken : Z;
  snap_time : instant;
  snap_taken : Z;
}.

(** [FeeStats::new]. *)
Definition stats_new (now : instant) : FeeStats :=
  mk_stats (replicate HISTOGRAM_BINS bin_default) now 0 now 0.

Definition saturating_u64 (v : Z) : Z := Z.min v U64_MAX.

(** [FeeStats::record_confirmation]. *)
Definition record_confirmation (now created : instant) (fee_per_factor : Z) (s : FeeStats)
    : FeeStats :=
  let taken0 := add_u64 (taken s) 1 in
  let '(window_start', taken', snap_time', snap_taken') :=
    if MEASUREMENT_INTERVAL <? duration_since now (snap_time s) then
      let '(taken1, start1) :=
        if negb (snap_taken s =? 0)
        then (sub_u64 taken0 (snap_taken s), snap_time s)
        else (taken0, window_start s) in
      (start1, taken1, now, taken1)
    else (window_start s, taken0, snap_time s, snap_taken s) in
  let minutes := as_secs (duration_since now created) / 60 in
  let histogram' :=
    if minutes <? Z.of_nat HISTOGRAM_BINS
    then alter (bin_add fee_per_factor) (Z.to_nat minutes) (histogram s)
    else histogram s in
  mk_stats histogram' window_start' taken' snap_time' snap_taken'.

(** [FeeStats::fee_for_wait]. *)
Definition fee_for_wait (wait_minutes tx_size : Z) (s : FeeStats) : option Z :=
  let last := Z.min wait_minutes (Z.of_nat HISTOGRAM_BINS - 1) in
  match List.find (fun bin => negb (n_txns bin =? 0))
          (take (Z.to_nat last + 1) (histogram s)) with
  | None => None
  | Some bin =>
      let average := total_fee bin / n_txns bin in
      Some (saturating_u64 (average * tx_size / 1024))
  end.

(** [FeeStats::wait_for_position]. *)
Definition wait_for_position (now : instant) (position : Z) (s : FeeStats) : Z :=
  if taken s =? 0 then 0
  else
    let elapsed := Z.min (duration_since now (window_start s)) MEASUREMENT_INTERVAL in
    saturating_u64 (as_millis elapsed * position / taken s).

(** ** Invariant *)

Definition count_bins (bins : list FeeHistogramBin) : Z :=
  fold_right (fun b acc => n_txns b + acc) 0 bins.

(** Sixty bins of non-negative counts whose total is at most the number [n] of
    confirmations recorded, and a window that never empties: [snap_taken] is
    positive once a snapshot was taken and never exceeds [taken]. *)
Record stats_ok (n : Z) (s : FeeStats) : Prop := {
  bins_len : length (histogram s) = HISTOGRAM_BINS;
  bins_pos : Forall (fun b => 0 <= n_txns b /\ 0 <= total_fee b <= U64_MAX) (histogram s);
  bins_total : count_bins (histogram s) <= n;
  taken_range : 0 <= snap_taken s <= taken s /\ taken s <= n;
  taken_pos : 0 < n -> 0 < taken s;
}.

Lemma count_bins_alter f i bins b :
  bins !! i = Some b -> 0 <= n_txns b < U64_MAX ->
  count_bins (alter (bin_add f) i bins) = count_bins bins + 1.
Proof.
  revert i. induction bins as [|b0 bins IH]; intros [|i] Hi Hb; cbn in *; try done.
  - simplify_eq. cbn. unfold add_u64. rewrite as_u64_small by (unfold is_u64; lia). lia.
  - change (n_txns b0 + count_bins (alter (bin_add f) i bins) = n_txns b0 + count_bins bins + 1).
    rewrite (IH i Hi Hb). lia.
Qed.

Lemma count_bins_nonneg bins : Forall (fun b => 0 <= n_txns b) bins -> 0 <= count_bins bins.
Proof. unfold count_bins; induction 1 as [|b bins Hb _ IH]; cbn; lia. Qed.

Lemma count_bins_le bins i b :
  Forall (fun b => 0 <= n_txns b) bins -> bins !! i = Some b -> n_txns b <= count_bins bins.
Proof.
  intros Hf. revert i. induction Hf as [|b0 bins Hb Hf IH]; intros [|i] Hi; try done;
    change (count_bins (b0 :: bins)) with (n_txns b0 + count_bins bins); cbn in Hi.
  - simplify_eq. pose proof (count_bins_nonneg _ Hf). lia.
  - specialize (IH _ Hi). lia.
Qed.

(** One more transaction in a bin: the counts stay non-negative and their total
    grows by one. *)
Lemma bin_add_count n f bins i b :
  n < U64_MAX -> Forall (fun b => 0 <= n_txns b) bins -> count_bins bins <= n ->
  bins !! i = Some b ->
  Forall (fun b => 0 <= n_txns b) (alter (bin_add f) i bins) /\
  count_bins (alter (bin_add f) i bins) = count_bins bins + 1.
Proof.
  intros Hn Hall Hc Hi. pose proof (Forall_lookup_1 _ _ _ _ Hall Hi) as Hb. cbn in Hb.
  pose proof (count_bins_le _ _ _ Hall Hi). split.
  - apply Forall_alter; [done|]. intros b' Hb' ?. simplify_eq. cbn. unfold add_u64.
    apply as_u64_range.
  - apply (count_bins_alter _ _ _ _ Hi). lia.
Qed.

Lemma stats_new_ok now : stats_ok 0 (stats_new now).
Proof.
  split; try done.
  apply Forall_replicate. cbn. unfold U64_MAX. lia.
Qed.

Lemma bin_add_ok n f bins i :
  n < U64_MAX -> 0 <= f ->
  Forall (fun b => 0 <= n_txns b /\ 0 <= total_fee b <= U64_MAX) bins -> count_bins bins <= n ->
  Forall (fun b => 0 <= n_txns b /\ 0 <= total_fee b <= U64_MAX) (alter (bin_add f) i bins) /\
  count_bins (alter (bin_add f) i bins) <= n + 1.
Proof.
  intros Hn Hf Hall Hc. assert (Hall' : Forall (fun b => 0 <= n_txns b) bins).
  { eapply Forall_impl; [exact Hall|]. by intros b []. }
  destruct (bins !! i) as [b|] eqn:Hi.
  - destruct (bin_add_count n f bins i b Hn Hall' Hc Hi) as [_ ->]. split; [|lia].
    apply Forall_alter; [done|]. intros b' Hb' [? ?]. cbn.
    split; [apply as_u64_range|]. unfold sat_add_u64. lia.
  - assert (alter (bin_add f) i bins = bins) as ->; [|split; [done|lia]].
    apply list_eq. intros j. rewrite list_lookup_alter. case_decide; [subst; by rewrite Hi|done].
Qed.

Lemma record_confirmation_ok n now created f s :
  n < U64_MAX -> 0 <= f -> stats_ok n s -> stats_ok (n + 1) (record_confirmation now created f s).
Proof.
  intros Hn Hf [Hlen Hpos Htot Htk Hps]. unfold record_confirmation.
  assert (Ht0 : add_u64 (taken s) 1 = taken s + 1).
  { unfold add_u64. apply as_u64_small. unfold is_u64. lia. }
  assert (Hs0 : sub_u64 (taken s + 1) (snap_taken s) = taken s + 1 - snap_taken s).
  { unfold sub_u64. apply as_u64_small. unfold is_u64. lia. }
  rewrite Ht0, Hs0.
  set (bins := if _ <? Z.of_nat HISTOGRAM_BINS then _ else _).
  assert (Hb : length bins = HISTOGRAM_BINS /\
    Forall (fun b => 0 <= n_txns b /\ 0 <= total_fee b <= U64_MAX) bins /\
    count_bins bins <= n + 1).
  { unfold bins. case_match; [|split_and!; [done..|lia]].
    rewrite length_alter. split; [done|]. by apply bin_add_ok. }
  destruct Hb as (Hbl & Hbp & Hbt). clearbody bins.
  destruct (MEASUREMENT_INTERVAL <? _), (Z.eqb_spec (snap_taken s) 0); cbn;
    split; cbn; try done; lia.
Qed.

(** What [fee_for_wait] answers never divides by zero and is a [u64]. *)
Lemma fee_for_wait_range n wait size s :
  stats_ok n s -> 0 <= size ->
  forall fee, fee_for_wait wait size s = Some fee -> is_u64 fee.
Proof.
  intros Hok Hs fee. unfold fee_for_wait.
  destruct (List.find _ _) as [b|] eqn:E; [|done]. intros [= <-].
  apply find_some in E as [Hin Hb]. apply list_elem_of_In in Hin.
  assert (Hin' : b ∈ histogram s) by (eapply subseteq_take; exact Hin).
  pose proof (bins_pos _ _ Hok) as Hp. rewrite Forall_forall in Hp.
  destruct (Hp b Hin') as [Hn Hf]. destruct (Z.eqb_spec (n_txns b) 0) as [|Hnz]; [done|].
  unfold saturating_u64, is_u64. split; [|unfold U64_MAX; lia].
  apply Z.min_glb; [|unfold U64_MAX; lia]. apply Z.div_pos; [|lia].
  apply Z.mul_nonneg_nonneg; [apply Z.div_pos; lia|done].
Qed.

(** After any sequence of fewer than 2^64 confirmations, the histogram still has
    its sixty bins and counts no transaction twice, and the throughput window has
    not emptied: the snapshot never exceeds the count it is subtracted from, and
    the count that divides the expected wait is positive. *)
Theorem stats_reachable now confirmations :
  Z.of_nat (length confirmations) <= U64_MAX ->
  Forall (fun c : instant * instant * Z => 0 <= c.2) confirmations ->
  stats_ok (Z.of_nat (length confirmations))
    (fold_left (fun s '(at_, created, f) => record_confirmation at_ created f s)
       confirmations (stats_new now)).
Proof.
  induction confirmations as [|[[at_ created] f] cs IH] using rev_ind; intros Hn Hf.
  - apply stats_new_ok.
  - rewrite length_app in *. cbn [length] in *. apply Forall_app in Hf as [Hf Hc].
    rewrite fold_left_app. cbn [fold_left].
    replace (Z.of_nat (length cs + 1)) with (Z.of_nat (length cs) + 1) by lia.
    apply record_confirmation_ok; [lia|by inversion Hc|]. apply IH; [lia|done].
Qed.

Lemma stats_reachable_witness :
  stats_ok 3 (fold_left (fun s '(at_, created, f) => record_confirmation at_ created f s)
    [(from_secs 10, 0, 5); (from_secs 90, 0, 7); (from_secs 200, from_secs 20, 9)] (stats_new 0)).
Proof.
  apply (stats_reachable 0 [(from_secs 10, 0, 5); (from_secs 90, 0, 7);
                            (from_secs 200, from_secs 20, 9)]).
  - unfold U64_MAX. cbn. lia.
  - repeat (constructor; [cbn; lia|]). constructor.
Defined.

End FeeStats.
