(* ===== verification/Mempool.v ===== *)
(** * The mempool

    [mempool/src/process.rs] (admission), [mempool/src/lib.rs] (queries and block
    interaction) and [mempool/src/cleanup.rs] (revalidation and rebroadcast), over
    the pool, the invalidation cache and the fee statistics.

    ErgoScript validation ([ergo_validation::validate_single_transaction], a call
    into ergo-lib) and the fee proposition's construction are parameters. An
    operation that reads the clock takes its readings as arguments. *)

From S2P Require Import Prelude OrdMap MempoolTypes OrderedPool ExpiringCache FeeStats.
Import MempoolTypes OrderedPool ExpiringCache FeeStats.

Module Mempool.

(** [Mempool]. *)
Record Mempool := mk_mempool {
  pool : OrderedPool;
  invalidated : ExpiringCache;
  stats : FeeStats;
  config : MempoolConfig;
  fee_proposition : byte_list;
  interblock_cost : Z;
  per_peer_cost : gmap Z Z;
}.

Definition MAX_TRANSACTION_SIZE : Z := 98304.
Definition CLEANUP_COST_LIMIT : Z := 7000000.
Definition MAX_TX_INPUTS : Z := 5000.

Definition with_pool (p : OrderedPool) (m : Mempool) : Mempool :=
  mk_mempool p (invalidated m) (stats m) (config m) (fee_proposition m)
    (interblock_cost m) (per_peer_cost m).

Definition with_invalidated (c : ExpiringCache) (m : Mempool) : Mempool :=
  mk_mempool (pool m) c (stats m) (config m) (fee_proposition m)
    (interblock_cost m) (per_peer_cost m).

Definition with_costs (ib : Z) (pp : gmap Z Z) (m : Mempool) : Mempool :=
  mk_mempool (pool m) (invalidated m) (stats m) (config m) (fee_proposition m) ib pp.

Definition with_stats (s : FeeStats) (m : Mempool) : Mempool :=
  mk_mempool (pool m) (invalidated m) s (config m) (fee_proposition m)
    (interblock_cost m) (per_peer_cost m).

(** [Mempool::new]; [build_fee_proposition] is
    [ergo_tree_predef::fee_proposition], whose failure panics. *)
Definition mempool_new {E} (build_fee_proposition : Z -> result E byte_list) (now : instant)
    (config : MempoolConfig) : outcome E Mempool :=
  match build_fee_proposition (reward_delay config) with
  | Err _ => Panic
  | Ok fee_proposition =>
      Return {| pool := pool_new (capacity config);
                invalidated := cache_new (invalidation_ttl config) (invalidation_capacity config);
                stats := stats_new now;
                config := config;
                fee_proposition := fee_proposition;
                interblock_cost := 0;
                per_peer_cost := ∅ |}
  end.

(** ** Transaction helpers *)

(** [extract_fee]. *)
Definition extract_fee (t : Transaction) (fee_proposition : byte_list) : Z :=
  sum_u64 (value <$> filter (fun out => ergo_tree out = fee_proposition) (outputs t)).

(** [output_above_preheader]: both heights pass through [as i32]. *)
Definition output_above_preheader (t : Transaction) (preheader_height : Z) : option Z :=
  List.find (fun h => as_i32 preheader_height <? as_i32 h) (creation_height <$> outputs t).

(** The [UtxoReader] trait's one method. *)
Definition UtxoReader := id32 -> option ErgoBox.

(** [utxo_reader.box_by_id(id).or_else(|| pool.unconfirmed_box(id))]. *)
Definition resolve_box (utxo_reader : UtxoReader) (p : OrderedPool) (id : id32) : option ErgoBox :=
  match utxo_reader id with
  | Some b => Some b
  | None => unconfirmed_box id p
  end.

(** Step 5: the input boxes in order, or the first id that does not resolve. *)
Fixpoint resolve_inputs (utxo_reader : UtxoReader) (p : OrderedPool) (ids : list id32)
    : result id32 (list ErgoBox) :=
  match ids with
  | [] => Ok []
  | id :: ids' =>
      match resolve_box utxo_reader p id with
      | None => Err id
      | Some b =>
          let? boxes := resolve_inputs utxo_reader p ids' in
          Ok (b :: boxes)
      end
  end.

(** The data-input boxes; an id that does not resolve is skipped. *)
Definition resolve_data (utxo_reader : UtxoReader) (p : OrderedPool) (t : Transaction)
    : list ErgoBox :=
  match data_inputs t with
  | None => []
  | Some dis => omap (resolve_box utxo_reader p) dis
  end.

(** ** Admission *)

(** Steps 1 to 4: the checks that need no lookup of boxes. *)
Definition early_checks {E} (now : instant) (t : Transaction) (source : option Z) (m : Mempool)
    : option (ProcessingOutcome E) :=
  let tx_id := tx_id_of t in
  if cache_contains now tx_id (invalidated m) then Some (Invalidated PreviouslyInvalidated)
  else if pool_contains tx_id (pool m) then Some AlreadyInPool
  else
    let limited :=
      match source with
      | None => None
      | Some peer =>
          if cost_per_block (config m) <=? interblock_cost m
          then Some InterblockBudgetExhausted
          else
            match per_peer_cost m !! peer with
            | Some peer_cost =>
                if cost_per_peer_per_block (config m) <=? peer_cost
                then Some PerPeerBudgetExhausted
                else None
            | None => None
            end
      end in
    match limited with
    | Some reason => Some (Declined reason)
    | None =>
        let n := Z.of_nat (length (inputs t)) in
        if MAX_TX_INPUTS <? n then Some (Declined (TooManyInputs n)) else None
    end.

(** The rate-limit bookkeeping after step 6. *)
Definition charge (source : option Z) (cost : Z) (m : Mempool) : Mempool :=
  match source with
  | None => m
  | Some peer =>
      with_costs (add_u64 (interblock_cost m) cost)
        (<[peer := add_u64 (default 0 (per_peer_cost m !! peer)) cost]> (per_peer_cost m)) m
  end.

(** Step 9: the pooled transactions that spend one of [ids], each once, in the
    order the inputs name them. *)
Definition find_conflicts (p : OrderedPool) (ids : list id32) : list id32 :=
  fold_left (fun conflicts id =>
    match spending_tx id p with
    | Some existing =>
        if bool_decide (tw_tx_id existing ∈ conflicts) then conflicts
        else conflicts ++ [tw_tx_id existing]
    | None => conflicts
    end) ids [].

Definition avg_conflict_weight (p : OrderedPool) (conflicts : list id32) : Z :=
  sum_u64 (weight <$> omap (fun id => by_id p !! id) conflicts) / Z.of_nat (length conflicts).

Definition remove_all (ids : list id32) (p : OrderedPool) : OrderedPool :=
  fold_left (fun p id => snd (pool_remove id p)) ids p.

(** Step 13: [while self.pool.len() > self.config.capacity]. [None] is a loop that
    has not ended within the fuel. *)
Fixpoint evict_over (fuel : nat) (capacity : Z) (p : OrderedPool) (evicted : list id32)
    : option (list id32 * OrderedPool) :=
  if capacity <? pool_len p then
    match fuel with
    | O => None
    | S fuel' =>
        match evict_lowest p with
        | (Some evicted_id, p') => evict_over fuel' capacity p' (evicted ++ [evicted_id])
        | (None, p') => evict_over fuel' capacity p' evicted
        end
    end
  else Some (evicted, p).

(** Step 10. *)
Definition refused_when_full (w : TxWeight) (p : OrderedPool) : bool :=
  pool_is_full p &&
  match lowest_weight p with
  | Some lowest => weight w <=? lowest
  | None => false
  end.

(** Steps 11 to 13: insert, propagate, evict. *)
Definition admit_tx (elapsed : nat -> duration) (w : TxWeight) (utx : UnconfirmedTx)
    (cap : Z) (p : OrderedPool) : option (list id32 * OrderedPool) :=
  let p1 := pool_insert w utx (inputs (tx utx)) (output_boxes (tx utx)) p in
  let p2 := propagate_family_weight elapsed (inputs (tx utx)) (fee_per_factor w) p1 in
  evict_over (S (length (ordered p2))) cap p2 [].

Section Process.
Context {E StateContext : Type}.
Variable pre_header_height : StateContext -> Z.
Variable validate_single_transaction :
  Transaction -> list ErgoBox -> list ErgoBox -> StateContext -> result E Z.

(** The clock as one call reads it: at the invalidation lookup, at an insertion
    into the invalidation cache, when the entry is made, and in the family scan. *)
Record Clock := mk_clock {
  at_lookup : instant;
  at_invalidate : instant;
  at_entry : instant;
  scan_elapsed : nat -> duration;
}.

(** Steps 9 to 13, from the weight on. *)
Definition place (clock : Clock) (w : TxWeight) (utx : UnconfirmedTx) (m : Mempool)
    : option (ProcessingOutcome E * Mempool) :=
  let t := tx utx in
  let conflicts := find_conflicts (pool m) (inputs t) in
  if negb (bool_decide (conflicts = [])) &&
     (weight w <=? avg_conflict_weight (pool m) conflicts)
  then Some (DoubleSpendLoser conflicts, m)
  else
    let p1 := remove_all conflicts (pool m) in
    if refused_when_full w p1 then Some (Declined PoolFullFeeTooLow, with_pool p1 m)
    else
      match admit_tx (scan_elapsed clock) w utx (capacity (config m)) p1 with
      | None => None
      | Some (evicted, p2) =>
          Some ((if bool_decide (conflicts = []) then Accepted (tx_id_of t)
                 else Replaced (tx_id_of t) (conflicts ++ evicted)),
                with_pool p2 m)
      end.

(** [Mempool::process]. *)
Definition process (clock : Clock) (t : Transaction) (bytes : byte_list)
    (utxo_reader : UtxoReader) (state_context : StateContext) (source : option Z)
    (m : Mempool) : option (ProcessingOutcome E * Mempool) :=
  match early_checks (at_lookup clock) t source m with
  | Some o => Some (o, m)
  | None =>
      match resolve_inputs utxo_reader (pool m) (inputs t) with
      | Err id => Some (Declined (InputNotFound id), m)
      | Ok input_boxes =>
          let data_boxes := resolve_data utxo_reader (pool m) t in
          let preheader := pre_header_height state_context in
          match output_above_preheader t preheader with
          | Some height => Some (Declined (CreationHeightAbovePreheader height preheader), m)
          | None =>
              match validate_single_transaction t input_boxes data_boxes state_context with
              | Err e =>
                  Some (Invalidated (ValidationFailed e),
                        with_invalidated
                          (cache_insert (at_invalidate clock) (tx_id_of t) (invalidated m)) m)
              | Ok validation_cost =>
                  let len := Z.of_nat (length bytes) in
                  let cost := as_u32 (Z.max validation_cost len) in
                  let m1 := charge source cost m in
                  let fee := extract_fee t (fee_proposition m) in
                  if fee <? min_fee (config m)
                  then Some (Declined (FeeBelowMinimum fee (min_fee (config m))), m1)
                  else
                    let w := tx_weight_new (tx_id_of t) fee len cost (fee_strategy (config m)) in
                    let now := at_entry clock in
                    let utx := mk_utx t bytes fee cost (Some validation_cost) now now source in
                    place clock w utx m1
              end
          end
      end
  end.

End Process.

(** ** Queries *)

Definition mempool_get (tx_id : id32) (m : Mempool) : option UnconfirmedTx :=
  pool_get tx_id (pool m).

Definition mempool_contains (now : instant) (tx_id : id32) (m : Mempool) : bool :=
  pool_contains tx_id (pool m) || cache_contains now tx_id (invalidated m).

Definition is_invalidated (now : instant) (tx_id : id32) (m : Mempool) : bool :=
  cache_contains now tx_id (invalidated m).

Definition mempool_len (m : Mempool) : Z := pool_len (pool m).

Definition mempool_is_empty (m : Mempool) : bool := pool_is_empty (pool m).

Definition mempool_top (limit : Z) (m : Mempool) : list UnconfirmedTx := pool_top limit (pool m).

(** [Mempool::recommended_fee]. *)
Definition recommended_fee (wait_minutes tx_size : Z) (m : Mempool) : Z :=
  match fee_for_wait wait_minutes tx_size (stats m) with
  | Some fee => Z.max fee (min_fee (config m))
  | None => min_fee (config m)
  end.

Fixpoint take_while {A} (f : A -> bool) (l : list A) : list A :=
  match l with
  | [] => []
  | x :: l' => if f x then x :: take_while f l' else []
  end.

(** [Mempool::expected_wait_ms_at]; a zero size divides by zero. *)
Definition expected_wait_ms_at {E} (now : instant) (fee tx_size : Z) (m : Mempool)
    : outcome E Z :=
  if tx_size =? 0 then Panic
  else
    let fee_per_kb := saturating_u64 (fee * 1024 / tx_size) in
    let position :=
      Z.of_nat (length (take_while (fun w => fee_per_kb <? weight w) (ordered (pool m)).*1)) in
    Return (wait_for_position now position (stats m)).

(** The loop of [pool_histogram_at]: [interval] is zero when [max_wait_ms < bins],
    and a wait below [max_wait_ms] is then divided by zero; an index past the last
    bin panics. *)
Fixpoint fill_histogram {E} (now : instant) (last interval max_wait_ms : Z)
    (es : list (TxWeight * UnconfirmedTx)) (histogram : list FeeHistogramBin)
    : outcome E (list FeeHistogramBin) :=
  match es with
  | [] => Return histogram
  | (w, utx) :: es' =>
      let wait := saturating_u64 (as_millis (duration_since now (created utx))) in
      let! bin :=
        (if wait <? max_wait_ms
         then if interval =? 0 then Panic else Return (Z.min (wait / interval) last)
         else Return last) in
      match histogram !! Z.to_nat bin with
      | None => Panic
      | Some _ =>
          fill_histogram now last interval max_wait_ms es'
            (alter (bin_add (fee_per_factor w)) (Z.to_nat bin) histogram)
      end
  end.

(** [Mempool::pool_histogram_at]. *)
Definition pool_histogram_at {E} (now : instant) (bins max_wait_ms : Z) (m : Mempool)
    : outcome E (list FeeHistogramBin) :=
  if bins =? 0 then Panic
  else
    fill_histogram now bins (max_wait_ms / bins) max_wait_ms (ordered (pool m))
      (replicate (Z.to_nat bins + 1) bin_default).

(** ** Block interaction *)

(** [Mempool::invalidate]. *)
Definition invalidate (now : instant) (tx_id : id32) (m : Mempool) : Mempool :=
  with_invalidated (cache_insert now tx_id (invalidated m))
    (with_pool (snd (pool_remove tx_id (pool m))) m).

(** One iteration of the inner loop of [apply_block_at]: drop the pooled
    transaction that spends [input_id], unless it is [tx_id] itself. *)
Definition drop_conflict (tx_id : id32) (acc : OrderedPool * list id32) (input_id : id32)
    : OrderedPool * list id32 :=
  let '(p, removed) := acc in
  match spending_tx input_id p with
  | None => (p, removed)
  | Some conflict =>
      if tw_tx_id conflict =? tx_id then (p, removed)
      else
        match pool_remove (tw_tx_id conflict) p with
        | (Some _, p') => (p', removed ++ [tw_tx_id conflict])
        | (None, p') => (p', removed)
        end
  end.

(** One iteration of the outer loop. *)
Definition confirm_tx (now : instant) (acc : OrderedPool * FeeStats * list id32)
    (t : Transaction) : OrderedPool * FeeStats * list id32 :=
  let '(p, s, removed) := acc in
  let tx_id := tx_id_of t in
  let s' :=
    match pool_get_weighted tx_id p with
    | Some (w, utx) => record_confirmation now (created utx) (fee_per_factor w) s
    | None => s
    end in
  let '(p1, removed1) :=
    match pool_remove tx_id p with
    | (Some _, p') => (p', removed ++ [tx_id])
    | (None, p') => (p', removed)
    end in
  let '(p2, removed2) := fold_left (drop_conflict tx_id) (inputs t) (p1, removed1) in
  (p2, s', removed2).

(** [Mempool::apply_block_at]; [prune_at] is the reading [prune] takes. *)
Definition apply_block_at (now prune_at : instant) (confirmed_txs : list Transaction)
    (m : Mempool) : list id32 * Mempool :=
  let '(p, s, removed) := fold_left (confirm_tx now) confirmed_txs (pool m, stats m, []) in
  (removed,
   mk_mempool p (cache_prune prune_at (invalidated m)) s (config m) (fee_proposition m) 0 ∅).

(** [Mempool::return_to_pool]. *)
Definition return_to_pool (txs : list UnconfirmedTx) (m : Mempool) : Mempool :=
  fold_left (fun m utx =>
    let tx_id := tx_id_of (tx utx) in
    if pool_contains tx_id (pool m) then m
    else
      let w := tx_weight_new tx_id (fee utx) (Z.of_nat (length (tx_bytes utx))) (cost utx)
                 (fee_strategy (config m)) in
      with_pool (pool_insert w utx (inputs (tx utx)) (output_boxes (tx utx)) (pool m)) m)
    txs m.

(** ** Cleanup *)

Definition mark_checked (measured : Z) (now : instant) (u : UnconfirmedTx) : UnconfirmedTx :=
  mk_utx (tx u) (tx_bytes u) (fee u) (cost u) (Some measured) (created u) now (source u).

Section Cleanup.
Context {E StateContext : Type}.
Variable pre_header_height : StateContext -> Z.
Variable validate_single_transaction :
  Transaction -> list ErgoBox -> list ErgoBox -> StateContext -> result E Z.
(** The clock when the invalidation cache inserts an id. *)
Variable at_invalidate : id32 -> instant.

(** The loop of [revalidate_within]. *)
Fixpoint revalidate_loop (now : instant) (limit : Z) (utxo_reader : UtxoReader)
    (state_context : StateContext) (prioritized : list id32) (spent : Z) (removed : list id32)
    (m : Mempool) : list id32 * Mempool :=
  match prioritized with
  | [] => (removed, m)
  | tx_id :: rest =>
      let continue := revalidate_loop now limit utxo_reader state_context rest in
      match pool_get tx_id (pool m) with
      | None => continue spent removed m
      | Some utx =>
          if duration_since now (last_checked utx) <=? cleanup_interval (config m)
          then continue spent removed m
          else if limit <=? spent then (removed, m)
          else
            match output_above_preheader (tx utx) (pre_header_height state_context) with
            | Some _ => continue spent removed m
            | None =>
                let previous_cost := default 0 (validation_cost utx) in
                match resolve_inputs utxo_reader (pool m) (inputs (tx utx)) with
                | Err _ =>
                    continue (sat_add_u64 spent previous_cost) (removed ++ [tx_id])
                      (with_pool (snd (pool_remove tx_id (pool m))) m)
                | Ok input_boxes =>
                    let data_boxes := resolve_data utxo_reader (pool m) (tx utx) in
                    match validate_single_transaction (tx utx) input_boxes data_boxes
                            state_context with
                    | Ok measured =>
                        continue (sat_add_u64 spent measured) removed
                          (with_pool (pool_get_mut (mark_checked measured now) tx_id (pool m)) m)
                    | Err _ =>
                        continue (sat_add_u64 spent previous_cost) (removed ++ [tx_id])
                          (with_pool (snd (pool_remove tx_id (pool m)))
                             (with_invalidated
                                (cache_insert (at_invalidate tx_id) tx_id (invalidated m)) m))
                    end
                end
            end
      end
  end.

(** [Mempool::revalidate_within]. *)
Definition revalidate_within (now : instant) (limit : Z) (utxo_reader : UtxoReader)
    (state_context : StateContext) (m : Mempool) : list id32 * Mempool :=
  revalidate_loop now limit utxo_reader state_context
    ((fun e : TxWeight * UnconfirmedTx => tw_tx_id e.1) <$> ordered (pool m)) 0 [] m.

(** [Mempool::revalidate_at]. *)
Definition revalidate_at (now : instant) (utxo_reader : UtxoReader)
    (state_context : StateContext) (m : Mempool) : list id32 * Mempool :=
  revalidate_within now CLEANUP_COST_LIMIT utxo_reader state_context m.

End Cleanup.

(** The loop of [select_for_rebroadcast]. *)
Fixpoint rebroadcast_loop (utxo_reader : UtxoReader) (count : Z) (utxs : list UnconfirmedTx)
    (valid : list UnconfirmedTx) : list UnconfirmedTx :=
  match utxs with
  | [] => valid
  | utx :: rest =>
      if count <=? Z.of_nat (length valid) then valid
      else
        let all_inputs_exist :=
          forallb (fun id => match utxo_reader id with Some _ => true | None => false end)
            (inputs (tx utx)) in
        rebroadcast_loop utxo_reader count rest
          (if all_inputs_exist then valid ++ [utx] else valid)
  end.

Definition select_for_rebroadcast (utxo_reader : UtxoReader) (m : Mempool) : list UnconfirmedTx :=
  rebroadcast_loop utxo_reader (rebroadcast_count (config m)) (all_prioritized (pool m)) [].

End Mempool.
