(* ===== verification/MempoolInv.v ===== *)
(** * What the mempool guarantees

    The mempool as a transition system: the well-formedness of its state on every
    reachable path, the absence of double spends on every path that returns no
    rolled-back transaction, and the effect of each operation. *)

From S2P Require Import Prelude OrdMap MempoolTypes OrderedPool ExpiringCache FeeStats Mempool.
Import MempoolTypes OrderedPool ExpiringCache FeeStats Mempool.

Module MempoolInv.

(** ** Invariants *)

(** The indexes agree with the store and the caches are within their bounds. *)
Record mempool_wf (m : Mempool) : Prop := {
  wf_pool : pool_ok (pool m);
  wf_capacity : pool_capacity (pool m) = capacity (config m);
  wf_cap_pos : 0 <= capacity (config m);
  wf_cache : cache_ok (invalidated m);
  wf_cache_pos : 0 < cache_capacity (invalidated m);
}.

(** Well-formed, within capacity, and every spent box indexed to its spender. *)
Record mempool_strict (m : Mempool) : Prop := {
  strict_wf : mempool_wf m;
  strict_indexed : inputs_indexed (pool m);
  strict_len : pool_len (pool m) <= capacity (config m);
}.

(** ** Lists of removals *)

Lemma remove_all_cons t ids p : remove_all (t :: ids) p = remove_all ids (snd (pool_remove t p)).
Proof. done. Qed.

Lemma remove_all_spec ids p :
  pool_ok p ->
  pool_ok (remove_all ids p) /\ pool_capacity (remove_all ids p) = pool_capacity p /\
  (inputs_indexed p -> inputs_indexed (remove_all ids p)) /\
  (forall w u, (w, u) ∈ ordered (remove_all ids p) <-> (w, u) ∈ ordered p /\ tw_tx_id w ∉ ids) /\
  (forall i w, by_input (remove_all ids p) !! i = Some w <->
               by_input p !! i = Some w /\ tw_tx_id w ∉ ids).
Proof.
  revert p. induction ids as [|t ids IH]; intros p Hok.
  - split_and!; try done; cbn; (split; [intros; split; [done|set_solver]|by intros []]).
  - rewrite remove_all_cons.
    destruct (IH (snd (pool_remove t p)) (pool_remove_ok p t Hok)) as (H1 & H2 & H3 & H4 & H5).
    split_and!; [done| | | |].
    + by rewrite H2, pool_remove_capacity.
    + intros. by apply H3, pool_remove_indexed.
    + intros w u. rewrite H4, pool_remove_elem by done. set_solver.
    + intros i w. rewrite H5, pool_remove_input by done. set_solver.
Qed.

Lemma remove_all_length_le ids p : (length (ordered (remove_all ids p)) <= length (ordered p))%nat.
Proof.
  revert p. induction ids as [|t ids IH]; intros p; [done|].
  rewrite remove_all_cons. etrans; [apply IH|apply pool_remove_length_le].
Qed.

Lemma remove_all_length_lt t ids p w :
  pool_ok p -> by_id p !! t = Some w ->
  (length (ordered (remove_all (t :: ids) p)) < length (ordered p))%nat.
Proof.
  intros Hok Hw. rewrite remove_all_cons. pose proof (remove_all_length_le ids (snd (pool_remove t p))) as Hl.
  destruct (pool_remove_spec p t w Hok Hw) as (u & p' & E & _ & _ & _ & Hlen & _).
  rewrite E in *. cbn in *. lia.
Qed.

(** ** Conflicts *)

Lemma find_conflicts_elem p ids t :
  t ∈ find_conflicts p ids <->
  exists i w, i ∈ ids /\ by_input p !! i = Some w /\ tw_tx_id w = t.
Proof.
  unfold find_conflicts, spending_tx.
  enough (Hgen : forall acc, t ∈ fold_left (fun conflicts id =>
      match by_input p !! id with
      | Some existing => if bool_decide (tw_tx_id existing ∈ conflicts) then conflicts
                         else conflicts ++ [tw_tx_id existing]
      | None => conflicts
      end) ids acc <->
    t ∈ acc \/ exists i w, i ∈ ids /\ by_input p !! i = Some w /\ tw_tx_id w = t).
  { rewrite Hgen. set_solver. }
  induction ids as [|i ids IH]; intros acc; cbn; [set_solver|]. rewrite IH. clear IH.
  destruct (by_input p !! i) as [w|] eqn:Ei.
  - case_bool_decide; [|rewrite elem_of_app]; (split; [|intros [?|(j & w' & [->|]%elem_of_cons & ? & ?)]]);
      set_solver.
  - split; [set_solver|]. intros [?|(j & w' & [->|]%elem_of_cons & ? & ?)]; [set_solver| |set_solver].
    congruence.
Qed.

(** Once the conflicts are removed, no pooled transaction spends an input. *)
Lemma conflicts_cleared p ids i :
  pool_ok p -> i ∈ ids -> by_input (remove_all (find_conflicts p ids) p) !! i = None.
Proof.
  intros Hok Hi. destruct (remove_all_spec (find_conflicts p ids) p Hok) as (_ & _ & _ & _ & Hin).
  destruct (by_input (remove_all _ p) !! i) as [w|] eqn:E; [|done].
  apply Hin in E as [Hb Hn]. exfalso. apply Hn, find_conflicts_elem. eauto.
Qed.

Lemma find_conflicts_pooled p ids t :
  pool_ok p -> t ∈ find_conflicts p ids -> exists w, by_id p !! t = Some w.
Proof.
  intros Hok (i & w & _ & Hb & <-)%find_conflicts_elem. exists w.
  destruct (ok_input _ Hok _ _ Hb) as (u & Hin & _). by destruct (ok_entry _ Hok _ _ Hin).
Qed.

Lemma by_id_remove_all p ids t :
  pool_ok p -> by_id p !! t = None -> by_id (remove_all ids p) !! t = None.
Proof.
  intros Hok Hn. destruct (remove_all_spec ids p Hok) as (Hok' & _ & _ & He & _).
  destruct (by_id (remove_all ids p) !! t) as [w|] eqn:E; [|done].
  apply (ok_by_id _ Hok') in E as [<- [u Hin]]. apply He in Hin as [Hin _].
  destruct (ok_entry _ Hok _ _ Hin). congruence.
Qed.

(** ** Eviction *)

(** A non-empty store always has something to evict, and evicting shrinks it. *)
Lemma evict_lowest_spec p :
  pool_ok p -> ordered p <> [] ->
  exists w u p', evict_lowest p = (Some (tw_tx_id w), p') /\ last (ordered p) = Some (w, u) /\
    p' = snd (pool_remove (tw_tx_id w) p) /\ ordered p = ordered p' ++ [(w, u)].
Proof.
  intros Hok Hne. unfold evict_lowest.
  destruct (last (ordered p)) as [[w u]|] eqn:El; [|by apply last_None in El].
  exists w, u, (snd (pool_remove (tw_tx_id w) p)). split_and!; try done.
  destruct (ok_entry _ Hok w u) as [Hb _]; [by apply last_Some_elem_of|].
  apply last_Some in El as [l El]. pose proof (ok_sorted _ Hok) as Hs. rewrite El in Hs.
  unfold pool_remove. rewrite Hb, El, om_remove_last by done. done.
Qed.

(** The ids of entries, the lowest weight first. *)
Definition ids_from_lowest (es : list (TxWeight * UnconfirmedTx)) : list id32 :=
  reverse ((fun e : TxWeight * UnconfirmedTx => tw_tx_id e.1) <$> es).

Lemma evict_over_spec fuel cap p acc :
  pool_ok p -> 0 <= cap -> (length (ordered p) <= fuel)%nat ->
  exists evicted p', evict_over fuel cap p acc = Some (acc ++ evicted, p') /\ pool_ok p' /\
    pool_capacity p' = pool_capacity p /\ pool_len p' <= cap /\
    (pool_len p <= cap -> evicted = [] /\ p' = p) /\
    (inputs_indexed p -> inputs_indexed p') /\
    (forall w u, (w, u) ∈ ordered p' <-> (w, u) ∈ ordered p /\ tw_tx_id w ∉ evicted) /\
    Z.of_nat (length evicted) = Z.max 0 (pool_len p - cap) /\
    ordered p' = take (Z.to_nat cap) (ordered p) /\
    evicted = ids_from_lowest (drop (Z.to_nat cap) (ordered p)).
Proof.
  intros Hok Hcap. revert p acc Hok. induction fuel as [|fuel IH]; intros p acc Hok Hf;
    cbn [evict_over]; destruct (Z.ltb_spec cap (pool_len p)) as [Hlt|Hge];
    try (exists [], p; rewrite app_nil_r; unfold pool_len in *; rewrite take_ge, drop_ge by lia;
         split_and!; try done; [set_solver|cbn; lia]).
  - unfold pool_len in Hlt. lia.
  - destruct (evict_lowest_spec p Hok) as (w & u & p' & -> & _ & Hp' & Hl).
    { intros E. unfold pool_len in Hlt. rewrite E in Hlt. cbn in Hlt. lia. }
    assert (Hok' : pool_ok p') by (subst; by apply pool_remove_ok).
    destruct (IH p' (acc ++ [tw_tx_id w]) Hok') as
      (ev & p2 & -> & H1 & H2 & H3 & _ & H5 & H6 & H7 & H8 & H9); [rewrite Hl, length_app in Hf; cbn in Hf; lia|].
    exists (tw_tx_id w :: ev), p2. rewrite <- app_assoc. unfold pool_len in Hlt. rewrite Hl, length_app in Hlt. cbn in Hlt.
    split_and!; try done.
    + rewrite H2. subst. apply pool_remove_capacity.
    + unfold pool_len. rewrite Hl, length_app. cbn. lia.
    + intros Hix. apply H5. subst. by apply pool_remove_indexed.
    + intros w' u'. rewrite H6. subst. rewrite pool_remove_elem by done. set_solver.
    + unfold pool_len in *. rewrite Hl, length_app. cbn [length]. lia.
    + by rewrite Hl, take_app_le by lia.
    + rewrite Hl, drop_app_le by lia. unfold ids_from_lowest. rewrite fmap_app, reverse_app. cbn. by rewrite H9.
Qed.

(** ** Contents as a lookup function *)

Lemma pool_get_insert p w u t :
  pool_ok p -> by_id p !! tw_tx_id w = None -> tx_id_of (tx u) = tw_tx_id w ->
  pool_get t (pool_insert w u (inputs (tx u)) (output_boxes (tx u)) p) =
  if decide (t = tw_tx_id w) then Some u else pool_get t p.
Proof.
  intros Hok Hn Ht. pose proof (pool_insert_ok p w u Hok Hn Ht) as Hok'.
  pose proof (fun w' u' => pool_insert_elem p w u (inputs (tx u)) (output_boxes (tx u)) w' u' Hok Hn) as He.
  apply option_eq. intros u'. rewrite (pool_get_spec _ _ _ Hok').
  case_decide as Hd.
  - split; [|intros [= <-]; exists w; split; [apply He; by left|done]].
    intros (w' & [[-> ->]|Hin]%He & Hid); [done|].
    destruct (ok_entry _ Hok _ _ Hin). congruence.
  - rewrite (pool_get_spec _ _ _ Hok). split.
    + intros (w' & [[-> ->]|Hin]%He & Hid); [congruence|eauto].
    + intros (w' & Hin & Hid). exists w'. split; [apply He; by right|done].
Qed.

Lemma pool_get_without p p' (ids : list Z) t :
  pool_ok p -> pool_ok p' ->
  (forall w u, (w, u) ∈ ordered p' <-> (w, u) ∈ ordered p /\ tw_tx_id w ∉ ids) ->
  pool_get t p' = if decide (t ∈ ids) then None else pool_get t p.
Proof.
  intros Hok Hok' He. apply option_eq. intros u. rewrite (pool_get_spec _ _ _ Hok').
  case_decide as Hd.
  - split; [|done]. intros (w & [_ Hn]%He & <-). done.
  - rewrite (pool_get_spec _ _ _ Hok). split; intros (w & Hin & <-); exists w;
      [by apply He in Hin as []|by rewrite He].
Qed.

Lemma pool_get_by_id p t : pool_ok p -> pool_get t p = None <-> by_id p !! t = None.
Proof.
  intros Hok. split.
  - intros Hg. destruct (by_id p !! t) as [w|] eqn:E; [|done].
    apply (ok_by_id _ Hok) in E as [Ht [u Hin]].
    assert (pool_get t p = Some u) by (apply pool_get_spec; eauto). congruence.
  - intros E. unfold pool_get. by rewrite E.
Qed.

(** ** Admission *)

(** The pool's entries by decreasing weight once the transaction is in and its family is
    re-weighted. *)
Definition ranked (elapsed : nat -> duration) (w : TxWeight) (u : UnconfirmedTx) (p : OrderedPool)
    : list (TxWeight * UnconfirmedTx) :=
  ordered (propagate_family_weight elapsed (inputs (tx u)) (fee_per_factor w)
             (pool_insert w u (inputs (tx u)) (output_boxes (tx u)) p)).

(** Steps 11 to 13 end, and leave the old contents plus the new transaction, less
    what was evicted: the entries beyond the capacity, from the lowest weight up. *)
Lemma admit_tx_spec elapsed w u cap p :
  pool_ok p -> by_id p !! tw_tx_id w = None -> tx_id_of (tx u) = tw_tx_id w -> 0 <= cap ->
  exists evicted p', admit_tx elapsed w u cap p = Some (evicted, p') /\ pool_ok p' /\
    pool_capacity p' = pool_capacity p /\ pool_len p' <= cap /\
    (inputs_indexed p -> (forall i, i ∈ inputs (tx u) -> by_input p !! i = None) ->
     inputs_indexed p') /\
    (forall t, pool_get t p' = if decide (t ∈ evicted) then None
                               else if decide (t = tw_tx_id w) then Some u else pool_get t p) /\
    om_sorted (ranked elapsed w u p) /\
    ordered p' = take (Z.to_nat cap) (ranked elapsed w u p) /\
    evicted = ids_from_lowest (drop (Z.to_nat cap) (ranked elapsed w u p)).
Proof.
  intros Hok Hn Ht Hcap. unfold admit_tx, ranked.
  set (p1 := pool_insert w u _ _ p).
  assert (Hok1 : pool_ok p1) by (by apply pool_insert_ok).
  set (p2 := propagate_family_weight _ _ _ p1).
  assert (Hok2 : pool_ok p2) by (by apply propagate_family_ok).
  assert (Hs : same_txs p1 p2) by (by apply propagate_family_same).
  destruct (evict_over_spec (S (length (ordered p2))) cap p2 [] Hok2 Hcap) as
    (ev & p' & E & H1 & H2 & H3 & _ & H5 & H6 & _ & H8 & H9); [lia|].
  exists ev, p'. split_and!; try done.
  - by rewrite H2, (same_capacity _ _ Hs).
  - intros Hix Hfree. apply H5, (same_txs_indexed p1 p2); try done. by apply pool_insert_indexed.
  - intros t. rewrite (pool_get_without p2 p' ev t) by done.
    case_decide; [done|]. rewrite (same_get _ _ Hs). by apply pool_get_insert.
  - by apply ok_sorted.
Qed.

(** The contents of [p'] are those of [p] with [u] added at [t0] and [gone] taken
    out. *)
Definition contents_after (p p' : OrderedPool) (t0 : id32) (u : UnconfirmedTx)
    (gone : list id32) : Prop :=
  forall t, pool_get t p' = if decide (t ∈ gone) then None
                            else if decide (t = t0) then Some u else pool_get t p.

(** The pooled transactions that spend an input of [t]. *)
Definition conflicting (p : OrderedPool) (t : Transaction) (c : id32) : Prop :=
  exists u i, pool_get c p = Some u /\ i ∈ inputs (tx u) /\ i ∈ inputs t.

Lemma conflicting_found p t c :
  pool_ok p -> inputs_indexed p ->
  c ∈ find_conflicts p (inputs t) <-> conflicting p t c.
Proof.
  intros Hok Hix. rewrite find_conflicts_elem. split.
  - intros (i & w & Hi & Hb & <-). destruct (ok_input _ Hok _ _ Hb) as (u & Hin & Hiu).
    exists u, i. split_and!; [|done|done]. apply pool_get_spec; eauto.
  - intros (u & i & Hg & Hiu & Hi). apply pool_get_spec in Hg as (w & Hin & <-); [|done].
    exists i, w. split_and!; [done|by eapply Hix|done].
Qed.

Lemma full_after_conflict p t :
  pool_ok p -> find_conflicts p (inputs t) <> [] ->
  pool_len (remove_all (find_conflicts p (inputs t)) p) < pool_len p.
Proof.
  intros Hok Hne. destruct (find_conflicts p (inputs t)) as [|c cs] eqn:E; [done|].
  destruct (find_conflicts_pooled p (inputs t) c Hok) as [w Hw]; [rewrite E; set_solver|].
  pose proof (remove_all_length_lt c cs p w Hok Hw). unfold pool_len. lia.
Qed.

Lemma decide_gone {A} (t t0 : Z) (cs ev : list Z) (x y : option A) :
  t0 ∉ cs ->
  (if decide (t ∈ ev) then None
   else if decide (t = t0) then x else if decide (t ∈ cs) then None else y) =
  if decide (t ∈ cs ++ ev) then None else if decide (t = t0) then x else y.
Proof. intros Hn. repeat case_decide; try done; set_solver. Qed.

Section Process.
Context {E StateContext : Type}.
Variable pre_header_height : StateContext -> Z.
Variable validate : Transaction -> list ErgoBox -> list ErgoBox -> StateContext -> result E Z.

(** *** What an outcome says *)

(** The weight and the entry of a transaction whose scripts cost [vc]. *)
Definition cost_of (bytes : byte_list) (vc : Z) : Z := as_u32 (Z.max vc (Z.of_nat (length bytes))).

Definition weight_of (t : Transaction) (bytes : byte_list) (vc : Z) (m : Mempool) : TxWeight :=
  tx_weight_new (tx_id_of t) (extract_fee t (fee_proposition m)) (Z.of_nat (length bytes)) (cost_of bytes vc)
    (fee_strategy (config m)).

Definition entry_of (clock : Clock) (t : Transaction) (bytes : byte_list) (vc : Z) (source : option Z) (m : Mempool)
    : UnconfirmedTx :=
  mk_utx t bytes (extract_fee t (fee_proposition m)) (cost_of bytes vc) (Some vc) (at_entry clock) (at_entry clock) source.

Section Call.
Variables (clock : Clock) (t : Transaction) (bytes : byte_list) (utxo : UtxoReader) (ctx : StateContext).
Variables (source : option Z) (m : Mempool).

(** The transaction passed the checks up to the fee, its scripts at the cost [vc]. *)
Definition validated (vc : Z) : Prop :=
  output_above_preheader t (pre_header_height ctx) = None /\ min_fee (config m) <= extract_fee t (fee_proposition m) /\
  exists boxes, resolve_inputs utxo (pool m) (inputs t) = Ok boxes /\ validate t boxes (resolve_data utxo (pool m) t) ctx = Ok vc.

(** The pool afterwards, with the transactions [gone] taken out first: the entries by
    weight, the new one among them, cut at the capacity. *)
Definition placed (vc : Z) (gone evicted : list id32) (p' : OrderedPool) : Prop :=
  let es := ranked (scan_elapsed clock) (weight_of t bytes vc m) (entry_of clock t bytes vc source m) (remove_all gone (pool m)) in
  let n := Z.to_nat (capacity (config m)) in
  om_sorted es /\ ordered p' = take n es /\ evicted = ids_from_lowest (drop n es) /\
  contents_after (pool m) p' (tx_id_of t) (entry_of clock t bytes vc source m) (gone ++ evicted).

Definition declined_for (r : decline_reason) : Prop :=
  match r with
  | InterblockBudgetExhausted => is_Some source /\ cost_per_block (config m) <= interblock_cost m
  | PerPeerBudgetExhausted => exists peer c, source = Some peer /\ per_peer_cost m !! peer = Some c /\
      cost_per_peer_per_block (config m) <= c
  | TooManyInputs n => n = Z.of_nat (length (inputs t)) /\ MAX_TX_INPUTS < n
  | InputNotFound id => id ∈ inputs t /\ utxo id = None /\ unconfirmed_box id (pool m) = None
  | CreationHeightAbovePreheader h limit => limit = pre_header_height ctx /\
      h ∈ creation_height <$> outputs t /\ as_i32 limit < as_i32 h
  | FeeBelowMinimum fee limit => fee = extract_fee t (fee_proposition m) /\ limit = min_fee (config m) /\ fee < limit
  | PoolFullFeeTooLow => (forall c, ~ conflicting (pool m) t c) /\ capacity (config m) <= pool_len (pool m) /\
      exists vc lowest, validated vc /\ lowest_weight (pool m) = Some lowest /\ weight (weight_of t bytes vc m) <= lowest
  end.

(** What an outcome says about the pool before and after. *)
Definition outcome_spec (m' : Mempool) (o : ProcessingOutcome E) : Prop :=
  match o with
  | Accepted id =>
      id = tx_id_of t /\ (forall c, ~ conflicting (pool m) t c) /\
      exists vc evicted, validated vc /\ placed vc [] evicted (pool m')
  | Replaced id removed =>
      id = tx_id_of t /\
      exists vc conflicts evicted, validated vc /\ conflicts <> [] /\ (forall c, c ∈ conflicts <-> conflicting (pool m) t c) /\
        avg_conflict_weight (pool m) conflicts < weight (weight_of t bytes vc m) /\
        removed = conflicts ++ evicted /\ placed vc conflicts evicted (pool m')
  | DoubleSpendLoser winners =>
      pool m' = pool m /\ winners <> [] /\ (forall c, c ∈ winners <-> conflicting (pool m) t c) /\
      exists vc, validated vc /\ weight (weight_of t bytes vc m) <= avg_conflict_weight (pool m) winners
  | Declined r => pool m' = pool m /\ declined_for r
  | Invalidated (ValidationFailed e) => pool m' = pool m /\
      invalidated m' = cache_insert (at_invalidate clock) (tx_id_of t) (invalidated m) /\
      exists boxes, resolve_inputs utxo (pool m) (inputs t) = Ok boxes /\ validate t boxes (resolve_data utxo (pool m) t) ctx = Err e
  | Invalidated PreviouslyInvalidated => m' = m /\ cache_contains (at_lookup clock) (tx_id_of t) (invalidated m) = true
  | AlreadyInPool => m' = m /\ pool_contains (tx_id_of t) (pool m) = true
  end.

End Call.

Lemma with_pool_wf p m :
  mempool_wf m -> pool_ok p -> pool_capacity p = capacity (config m) -> mempool_wf (with_pool p m).
Proof. intros [] Hp Hc. by split. Qed.

Lemma place_wf clock w utx m :
  mempool_wf m -> by_id (pool m) !! tw_tx_id w = None -> tx_id_of (tx utx) = tw_tx_id w ->
  exists o m', place (E := E) clock w utx m = Some (o, m') /\ mempool_wf m'.
Proof.
  intros Hwf Hn Ht. unfold place. set (cs := find_conflicts _ _).
  case_match; [by exists (DoubleSpendLoser cs), m|].
  destruct (remove_all_spec cs (pool m) (wf_pool _ Hwf)) as (H1 & H2 & _).
  pose proof (wf_capacity _ Hwf) as Hc.
  case_match; [eexists _, _; split; [done|]; by apply with_pool_wf; rewrite ?H2|].
  destruct (admit_tx_spec (scan_elapsed clock) w utx (capacity (config m)) (remove_all cs (pool m)))
    as (ev & p' & -> & Hok' & Hcap' & _); try done.
  { by apply by_id_remove_all, Hn; apply wf_pool. }
  { by apply wf_cap_pos. }
  eexists _, _. split; [done|]. apply with_pool_wf; [done..|]. by rewrite Hcap', H2.
Qed.

(** The remaining cases of [place], past the comparison with the conflicts. *)
Lemma place_admits clock t bytes utxo ctx source vc m m1 evicted p' :
  let cs := find_conflicts (pool m) (inputs t) in
  let w := weight_of t bytes vc m in
  pool_ok (pool m) -> inputs_indexed (pool m) -> by_id (pool m) !! tx_id_of t = None -> 0 <= capacity (config m) ->
  validated t utxo ctx m vc -> (cs = [] \/ avg_conflict_weight (pool m) cs < weight w) ->
  admit_tx (scan_elapsed clock) w (entry_of clock t bytes vc source m) (capacity (config m)) (remove_all cs (pool m)) = Some (evicted, p') ->
  outcome_spec clock t bytes utxo ctx source m (with_pool p' m1)
    (if bool_decide (cs = []) then Accepted (tx_id_of t) else Replaced (tx_id_of t) (cs ++ evicted)).
Proof.
  intros cs w Hok Hix Hn Hcap Hval Hds Ha. destruct (remove_all_spec cs (pool m) Hok) as (H1 & H2 & H3 & H4 & _).
  destruct (admit_tx_spec (scan_elapsed clock) w (entry_of clock t bytes vc source m) (capacity (config m)) (remove_all cs (pool m)))
    as (ev & p2 & E2 & Hok' & _ & _ & _ & Hget & Hs & Ho & He); try done; [by apply by_id_remove_all|].
  rewrite Ha in E2. injection E2 as <- <-.
  assert (placed clock t bytes source m vc cs evicted p') as Hp.
  { split_and!; try done. intros t0. rewrite Hget. cbn [w weight_of tx_weight_new tw_tx_id].
    rewrite (pool_get_without (pool m) _ cs t0) by done.
    apply decide_gone. intros Hin. destruct (find_conflicts_pooled _ _ _ Hok Hin). congruence. }
  pose proof (fun c => conflicting_found (pool m) t c Hok Hix) as Hcf. fold cs in Hcf. case_bool_decide as Hcs.
  - split; [done|]. split; [intros c Hc%Hcf; rewrite Hcs in Hc; set_solver|]. exists vc, evicted. by rewrite Hcs in Hp.
  - split; [done|]. exists vc, cs, evicted. destruct Hds as [|Hds]; [done|]. by split_and!.
Qed.

Lemma place_strict clock t bytes utxo ctx source vc m m1 :
  pool m1 = pool m -> config m1 = config m -> mempool_strict m1 ->
  by_id (pool m) !! tx_id_of t = None -> validated t utxo ctx m vc ->
  exists o m', place (E := E) clock (weight_of t bytes vc m) (entry_of clock t bytes vc source m) m1 = Some (o, m') /\
    mempool_strict m' /\ outcome_spec clock t bytes utxo ctx source m m' o.
Proof.
  intros Ep Ec Hst Hn Hval. pose proof Hst as [Hwf Hix Hlen]. pose proof (wf_pool _ Hwf) as Hok. rewrite Ep in Hok, Hix.
  pose proof (wf_capacity _ Hwf) as Hcap. rewrite Ep, Ec in Hcap. pose proof (wf_cap_pos _ Hwf) as H0. rewrite Ec in H0.
  pose proof (fun c => conflicting_found (pool m) t c Hok Hix) as Hcf.
  pose proof (full_after_conflict (pool m) t Hok) as Hfull.
  pose proof (fun i => conflicts_cleared (pool m) (inputs t) i Hok) as Hclr.
  unfold place. cbn [tx entry_of]. rewrite Ep, Ec. set (cs := find_conflicts _ _) in *. set (w := weight_of t bytes vc m).
  destruct (remove_all_spec cs (pool m) Hok) as (H1 & H2 & H3 & H4 & _).
  case_match eqn:Eds.
  { apply andb_true_iff in Eds as [Eds Ew]. apply negb_true_iff, bool_decide_eq_false in Eds. apply Z.leb_le in Ew.
    exists (DoubleSpendLoser cs), m1. split_and!; [done|done|]. split_and!; try done. by exists vc. }
  case_match eqn:Efull.
  { unfold refused_when_full, pool_is_full in Efull. apply andb_true_iff in Efull as [Efull%Z.leb_le Elow].
    assert (cs = []) as Hcs.
    { destruct (decide (cs = [])) as [|Hne]; [done|]. specialize (Hfull Hne). rewrite H2 in Efull. rewrite Ep, Ec in Hlen. lia. }
    rewrite Hcs in *. cbn [remove_all fold_left] in *. exists (Declined PoolFullFeeTooLow), (with_pool (pool m) m1).
    split_and!; [done|rewrite <- Ep; by split; [apply with_pool_wf; apply Hwf|apply Hst|]|].
    split; [done|]. cbn [declined_for]. split_and!; [intros c Hc%Hcf; set_solver|lia|].
    destruct (lowest_weight (pool m)) as [lowest|]; [|done]. apply Z.leb_le in Elow. by exists vc, lowest. }
  destruct (admit_tx_spec (scan_elapsed clock) w (entry_of clock t bytes vc source m) (capacity (config m)) (remove_all cs (pool m)))
    as (ev & p' & Ea & Hok' & Hcap' & Hlen' & Hix' & _); try done; [by apply by_id_remove_all|].
  rewrite Ea. eexists _, _. split; [done|]. split.
  { split; [apply with_pool_wf; [done..|by rewrite Hcap', H2, Ec]| |by cbn; rewrite Ec].
    apply Hix'; [by apply H3|apply Hclr]. }
  apply (place_admits clock t bytes utxo ctx source vc); try done.
  apply andb_false_iff in Eds as [Eds|Eds]; [left; by apply negb_false_iff, bool_decide_eq_true in Eds|right; by apply Z.leb_gt in Eds].
Qed.

Lemma charge_fields source c m :
  pool (charge source c m) = pool m /\ config (charge source c m) = config m /\
  invalidated (charge source c m) = invalidated m.
Proof. by destruct source. Qed.

Lemma charge_wf source c m : mempool_wf m -> mempool_wf (charge source c m).
Proof. intros []. destruct source; by split. Qed.

Lemma charge_strict source c m : mempool_strict m -> mempool_strict (charge source c m).
Proof. intros [Hwf ? ?]. pose proof (charge_wf source c m Hwf). destruct source; by split. Qed.

Lemma with_invalidated_wf now t m :
  mempool_wf m -> mempool_wf (with_invalidated (cache_insert now t (invalidated m)) m).
Proof.
  intros []. split; try done; cbn.
  - by apply cache_insert_ok.
  - unfold cache_insert. case_match; [done|]. by case_match.
Qed.

(** Past the early checks the transaction is not pooled. *)
Lemma early_checks_fresh now t source m :
  early_checks (E := E) now t source m = None -> by_id (pool m) !! tx_id_of t = None.
Proof.
  unfold early_checks, pool_contains. destruct (by_id (pool m) !! tx_id_of t); [|done].
  by case_match.
Qed.

Lemma early_checks_outcome clock t bytes utxo ctx source m o :
  early_checks (at_lookup clock) t source m = Some o -> outcome_spec clock t bytes utxo ctx source m m o.
Proof.
  unfold early_checks. intros Ho. destruct (cache_contains _ _ _) eqn:Ec; [by injection Ho as <-|].
  destruct (pool_contains _ _) eqn:Ep; [by injection Ho as <-|].
  destruct source as [peer|]; repeat case_match; simplify_eq; (split; [done|]); cbn [declined_for];
    rewrite ?Z.leb_le, ?Z.ltb_lt in *; eauto 6.
Qed.

Lemma resolve_inputs_Err utxo p ids id :
  resolve_inputs utxo p ids = Err id -> id ∈ ids /\ utxo id = None /\ unconfirmed_box id p = None.
Proof.
  induction ids as [|i ids IH]; [done|]. cbn [resolve_inputs]. unfold resolve_box.
  destruct (utxo i) eqn:Eu; [|destruct (unconfirmed_box i p) eqn:Eb].
  1,2: destruct (resolve_inputs utxo p ids); [done|]; intros E0; apply IH in E0 as (? & ? & ?); split; [by right|done].
  intros [= <-]. by split; [left|].
Qed.

Lemma output_above_Some t limit h :
  output_above_preheader t limit = Some h -> h ∈ creation_height <$> outputs t /\ as_i32 limit < as_i32 h.
Proof.
  unfold output_above_preheader. intros [Hin Hlt]%find_some. split; [by apply list_elem_of_In|]. by apply Z.ltb_lt.
Qed.

Lemma process_wf clock t bytes utxo ctx source m :
  mempool_wf m ->
  exists o m', process pre_header_height validate clock t bytes utxo ctx source m = Some (o, m') /\
    mempool_wf m'.
Proof.
  intros Hwf. unfold process. destruct (early_checks _ _ _ _) as [o|] eqn:Ee; [eauto|].
  destruct (resolve_inputs _ _ _) as [boxes|id]; [|eauto].
  destruct (output_above_preheader _ _) as [h|]; [eauto|].
  destruct (validate _ _ _ _) as [vc|e]; [|eexists _, _; split; [done|]; by apply with_invalidated_wf].
  case_match; [eexists _, _; split; [done|]; by apply charge_wf|].
  apply place_wf; [by apply charge_wf| |done].
  rewrite (proj1 (charge_fields _ _ _)). by eapply early_checks_fresh.
Qed.

Lemma process_spec clock t bytes utxo ctx source m :
  mempool_strict m ->
  exists o m', process pre_header_height validate clock t bytes utxo ctx source m = Some (o, m') /\
    mempool_strict m' /\ outcome_spec clock t bytes utxo ctx source m m' o.
Proof.
  intros Hst. unfold process. destruct (early_checks _ _ _ _) as [o|] eqn:Ee.
  { exists o, m. split_and!; [done..|]. by eapply early_checks_outcome. }
  destruct (resolve_inputs _ _ _) as [boxes|id] eqn:Er.
  2:{ eexists _, m. split_and!; [done..|]. split; [done|]. by apply resolve_inputs_Err. }
  destruct (output_above_preheader _ _) as [h|] eqn:Eo.
  { eexists _, m. split_and!; [done..|]. split; [done|]. split; [done|]. by apply output_above_Some. }
  destruct (validate _ _ _ _) as [vc|e] eqn:Ev.
  2:{ eexists _, _. split_and!; [done| |].
      - destruct Hst. split; [|done..]. by apply with_invalidated_wf.
      - split_and!; [done..|]. by exists boxes. }
  destruct (charge_fields source (cost_of bytes vc) m) as (Ep & Ec & _). case_match eqn:Ef.
  { apply Z.ltb_lt in Ef. eexists _, _. split_and!; [done|by apply charge_strict|]. by split. }
  apply Z.ltb_ge in Ef. apply (place_strict clock t bytes utxo ctx source vc m (charge source (cost_of bytes vc) m)); try done.
  - by apply charge_strict.
  - by eapply early_checks_fresh.
  - split_and!; [done..|]. by exists boxes.
Qed.

(** C7: Admission. From a state without double spends and within capacity,
    [process] always returns; the state it leaves has the same guarantees; and the
    outcome tells exactly what happened. An accepted transaction is valid, pays the
    minimum, had no conflict, and the pool is the old one with it put in, its family
    re-weighted, and cut at the capacity by weight, so that what is evicted has the lowest
    weights. A replacing one weighs more than its conflicts do on average and takes the
    place of all of them; a losing one weighs no more than that. Every other outcome
    leaves the pool as it was and names the check that failed: the rate limits, the number
    of inputs, an input that no one holds, the creation heights, the scripts, the fee, or
    a full pool whose lowest weight is not below. *)
Theorem process_correct clock t bytes utxo ctx source m :
  mempool_strict m ->
  exists o m', process pre_header_height validate clock t bytes utxo ctx source m = Some (o, m') /\
    mempool_strict m' /\ outcome_spec clock t bytes utxo ctx source m m' o.
Proof. apply process_spec. Qed.

End Process.

(** ** Passes that only remove *)

(** [p] is [p0] without the transactions [removed], all of which [p0] held. *)
Record shrunk (p0 p : OrderedPool) (removed : list id32) : Prop := {
  sh_ok : pool_ok p;
  sh_capacity : pool_capacity p = pool_capacity p0;
  sh_indexed : inputs_indexed p0 -> inputs_indexed p;
  sh_elem : forall w u, (w, u) ∈ ordered p <-> (w, u) ∈ ordered p0 /\ tw_tx_id w ∉ removed;
  sh_removed : forall t, t ∈ removed -> is_Some (by_id p0 !! t);
  sh_len : (length (ordered p) <= length (ordered p0))%nat;
}.

Lemma shrunk_refl p : pool_ok p -> shrunk p p [].
Proof. intros Hok. split; try done; set_solver. Qed.

Lemma shrunk_remove p0 p removed t :
  pool_ok p0 -> shrunk p0 p removed ->
  match pool_remove t p with
  | (Some _, p') => shrunk p0 p' (removed ++ [t])
  | (None, p') => shrunk p0 p' removed
  end.
Proof.
  intros Hok0 Hsh. pose proof (sh_ok _ _ _ Hsh) as Hok.
  destruct (by_id p !! t) as [w|] eqn:E; [|by rewrite pool_remove_absent].
  pose proof (pool_remove_indexed p t Hok) as Hix.
  destruct (pool_remove_spec p t w Hok E) as (u & p' & Er & Hin & Hok' & Hc & Hl & _ & He & _).
  rewrite Er in *. destruct Hsh as [_ H2 H3 H4 H5 H6]. split; try done.
  - congruence.
  - intros Hi. by apply Hix, H3.
  - intros w' u'. rewrite He, H4. set_solver.
  - intros t' [Ht'|Ht']%elem_of_app; [by apply H5|]. apply list_elem_of_singleton in Ht' as ->.
    apply H4 in Hin as [Hin _]. destruct (ok_entry _ Hok0 _ _ Hin) as [Hb _].
    destruct (ok_by_id _ Hok _ _ E) as [<- _]. eauto.
  - lia.
Qed.

Lemma drop_conflict_shrunk p0 t p removed i :
  pool_ok p0 -> shrunk p0 p removed ->
  shrunk p0 (drop_conflict t (p, removed) i).1 (drop_conflict t (p, removed) i).2.
Proof.
  intros Hok0 Hsh. unfold drop_conflict. destruct (spending_tx i p) as [w|]; [|done].
  case_match; [done|]. pose proof (shrunk_remove p0 p removed (tw_tx_id w) Hok0 Hsh) as Hr.
  by destruct (pool_remove _ p) as [[u|] p'].
Qed.

Lemma drop_conflicts_shrunk p0 t is_ acc :
  pool_ok p0 -> shrunk p0 acc.1 acc.2 ->
  let acc' := fold_left (drop_conflict t) is_ acc in
  shrunk p0 acc'.1 acc'.2 /\ (forall w u, (w, u) ∈ ordered acc'.1 -> (w, u) ∈ ordered acc.1).
Proof.
  intros Hok0. revert acc. induction is_ as [|i is_ IH]; intros [p removed] Hsh; [done|].
  cbn [fold_left]. pose proof (drop_conflict_shrunk p0 t p removed i Hok0 Hsh) as Hsh1.
  destruct (IH _ Hsh1) as [H1 H2]. split; [exact H1|]. intros w u Hin%H2. cbn in *.
  unfold drop_conflict in Hin. repeat case_match; simplify_eq; try done;
    match goal with H : pool_remove ?t0 p = (_, ?p1) |- _ =>
      pose proof (pool_remove_elem p t0 w u (sh_ok _ _ _ Hsh)) as He; rewrite H in He end;
    by apply He in Hin as [].
Qed.

(** After the inner loop nothing in the pool spends one of the inputs, unless it is
    the confirmed transaction itself. *)
Lemma drop_conflicts_clear p0 t is_ acc :
  pool_ok p0 -> inputs_indexed p0 -> shrunk p0 acc.1 acc.2 ->
  forall w u i, (w, u) ∈ ordered (fold_left (drop_conflict t) is_ acc).1 ->
  i ∈ is_ -> i ∈ inputs (tx u) -> tw_tx_id w = t.
Proof.
  intros Hok0 Hix0. revert acc. induction is_ as [|j is_ IH]; intros [p removed] Hsh w u i Hin Hi Hiu;
    [set_solver|].
  cbn [fold_left] in Hin. pose proof (drop_conflict_shrunk p0 t p removed j Hok0 Hsh) as Hsh1.
  apply elem_of_cons in Hi as [->|Hi]; [|by eapply (IH _ Hsh1)].
  destruct (drop_conflicts_shrunk p0 t is_ _ Hok0 Hsh1) as [_ Hsub]. apply Hsub in Hin.
  destruct (decide (tw_tx_id w = t)) as [|Hne]; [done|exfalso].
  pose proof (sh_ok _ _ _ Hsh) as Hok. cbn in Hok.
  assert (Hinp : (w, u) ∈ ordered p).
  { by apply (proj2 (drop_conflicts_shrunk p0 t [j] (p, removed) Hok0 Hsh)). }
  pose proof (sh_indexed _ _ _ Hsh Hix0 w u j Hinp Hiu) as Hb. cbn in Hb.
  unfold drop_conflict, spending_tx in Hin. rewrite Hb in Hin.
  destruct (Z.eqb_spec (tw_tx_id w) t); [done|].
  pose proof (pool_remove_elem p (tw_tx_id w) w u Hok) as He.
  destruct (pool_remove (tw_tx_id w) p) as [[]]; cbn in *; by apply He in Hin as [].
Qed.

(** One confirmed transaction. *)
Lemma confirm_tx_spec now p0 p s removed t :
  pool_ok p0 -> shrunk p0 p removed ->
  let '(p', _, removed') := confirm_tx now (p, s, removed) t in
  shrunk p0 p' removed' /\ (forall w u, (w, u) ∈ ordered p' -> (w, u) ∈ ordered p) /\
  (inputs_indexed p0 -> forall w u, (w, u) ∈ ordered p' ->
     tw_tx_id w <> tx_id_of t /\ forall i, i ∈ inputs t -> i ∉ inputs (tx u)).
Proof.
  intros Hok0 Hsh. unfold confirm_tx. pose proof (sh_ok _ _ _ Hsh) as Hok.
  pose proof (shrunk_remove p0 p removed (tx_id_of t) Hok0 Hsh) as Hr.
  pose proof (fun w u => pool_remove_elem p (tx_id_of t) w u Hok) as He.
  set (acc := match pool_remove (tx_id_of t) p with
              | (Some _, p') => (p', removed ++ [tx_id_of t]) | (None, p') => (p', removed) end).
  assert (Hacc : shrunk p0 acc.1 acc.2 /\ forall w u, (w, u) ∈ ordered acc.1 ->
      (w, u) ∈ ordered p /\ tw_tx_id w <> tx_id_of t).
  { unfold acc. destruct (pool_remove (tx_id_of t) p) as [[]]; cbn in *; (split; [done|]);
      intros ?? Hin; by apply He. }
  clearbody acc. destruct acc as [p1 removed1], Hacc as [Hsh1 Hsub1].
  pose proof (drop_conflicts_shrunk p0 (tx_id_of t) (inputs t) (p1, removed1) Hok0 Hsh1) as [H1 H2].
  pose proof (drop_conflicts_clear p0 (tx_id_of t) (inputs t) (p1, removed1) Hok0) as H3.
  destruct (fold_left _ _ _) as [p2 removed2]. cbn in *. split_and!; [done| |].
  - intros w u Hin. by apply Hsub1, H2.
  - intros Hix w u Hin. assert (Hne : tw_tx_id w <> tx_id_of t) by (by eapply Hsub1, H2).
    split; [done|]. intros i Hi Hiu. by apply Hne, (H3 Hix Hsh1 w u i).
Qed.

Lemma confirm_all_spec now p0 txs p s removed :
  pool_ok p0 -> shrunk p0 p removed ->
  let '(p', _, removed') := fold_left (confirm_tx now) txs (p, s, removed) in
  shrunk p0 p' removed' /\ (forall w u, (w, u) ∈ ordered p' -> (w, u) ∈ ordered p) /\
  (inputs_indexed p0 -> forall t w u, t ∈ txs -> (w, u) ∈ ordered p' ->
     tw_tx_id w <> tx_id_of t /\ forall i, i ∈ inputs t -> i ∉ inputs (tx u)).
Proof.
  intros Hok0. revert p s removed. induction txs as [|t txs IH]; intros p s removed Hsh.
  { cbn. split_and!; [done..|set_solver]. }
  cbn [fold_left]. pose proof (confirm_tx_spec now p0 p s removed t Hok0 Hsh) as H1.
  destruct (confirm_tx now (p, s, removed) t) as [[p1 s1] removed1].
  destruct H1 as (Hsh1 & Hsub1 & Hc1). specialize (IH p1 s1 removed1 Hsh1).
  destruct (fold_left _ _ _) as [[p2 s2] removed2]. destruct IH as (Hsh2 & Hsub2 & Hc2).
  split_and!; [done|auto|]. intros Hix t' w u [->|Hin']%elem_of_cons Hin; [|by apply Hc2].
  apply Hc1; [done|]. by apply Hsub2.
Qed.

Lemma apply_block_spec now prune_at txs m :
  mempool_strict m ->
  let '(removed, m') := apply_block_at now prune_at txs m in
  mempool_strict m' /\
  (forall w u, (w, u) ∈ ordered (pool m') <-> (w, u) ∈ ordered (pool m) /\ tw_tx_id w ∉ removed) /\
  (forall t, t ∈ removed -> pool_contains t (pool m) = true) /\
  (forall t w u, t ∈ txs -> (w, u) ∈ ordered (pool m') ->
     tw_tx_id w <> tx_id_of t /\ forall i, i ∈ inputs t -> i ∉ inputs (tx u)) /\
  interblock_cost m' = 0 /\ per_peer_cost m' = ∅.
Proof.
  intros [Hwf Hix Hlen]. pose proof (wf_pool _ Hwf) as Hok. unfold apply_block_at.
  pose proof (confirm_all_spec now (pool m) txs (pool m) (stats m) [] Hok (shrunk_refl _ Hok)) as H.
  destruct (fold_left _ _ _) as [[p s] removed]. destruct H as ([H1 H2 H3 H4 H5 H6] & _ & Hclear).
  destruct Hwf. split_and!; try done; cbn.
  - split; cbn; [|by apply H3|unfold pool_len in *; lia].
    split; cbn; [done|congruence|done|by apply cache_prune_ok|done].
  - intros t Ht. unfold pool_contains. by destruct (H5 t Ht) as [? ->].
  - by apply Hclear.
Qed.

(** C33: Applying a block. Whatever pooled transaction the block confirmed is gone,
    and so is every pooled transaction that spends one of its inputs; exactly the
    returned ids were removed, each of them was pooled, and nothing else changed in
    the pool; the rate limits start over. *)
Theorem apply_block_correct now prune_at txs m :
  mempool_strict m ->
  let '(removed, m') := apply_block_at now prune_at txs m in
  mempool_strict m' /\
  (forall w u, (w, u) ∈ ordered (pool m') <-> (w, u) ∈ ordered (pool m) /\ tw_tx_id w ∉ removed) /\
  (forall t, t ∈ removed -> pool_contains t (pool m) = true) /\
  (forall t w u, t ∈ txs -> (w, u) ∈ ordered (pool m') ->
     tw_tx_id w <> tx_id_of t /\ forall i, i ∈ inputs t -> i ∉ inputs (tx u)) /\
  interblock_cost m' = 0 /\ per_peer_cost m' = ∅.
Proof. apply apply_block_spec. Qed.

(** ** Revalidation *)

Lemma pool_get_mut_get f p t t' :
  (forall u, tx (f u) = tx u /\ tx_bytes (f u) = tx_bytes u) -> pool_ok p ->
  pool_get t' (pool_get_mut f t p) =
  if decide (t' = t) then f <$> pool_get t p else pool_get t' p.
Proof.
  intros Hf Hok. pose proof (pool_get_mut_ok f p t Hf Hok) as Hok'.
  unfold pool_get_mut in *. destruct (by_id p !! t) as [w|] eqn:Hw.
  2:{ case_decide as Hd; [|done]. subst. unfold pool_get. by rewrite Hw. }
  destruct (ok_by_id _ Hok _ _ Hw) as [Hwt [u0 Hin0]].
  pose proof (fun k v => om_alter_elem f w (ordered p) k v (ok_sorted _ Hok)) as He.
  apply option_eq. intros u'. rewrite (pool_get_spec _ _ _ Hok'). cbn.
  assert (Hcmp : forall w' u, (w', u) ∈ ordered p -> cmp w w' = Eq <-> tw_tx_id w' = t).
  { intros w' u Hin. rewrite tx_weight_cmp_eq. split; [intros []; congruence|].
    intros Ht. destruct (entry_unique p w' u w u0) as [-> _]; [done..|congruence|done]. }
  case_decide as Hd.
  - subst t'. assert (Hg : pool_get t p = Some u0) by (apply pool_get_spec; eauto).
    rewrite Hg. cbn. split.
    + intros (w' & (u & Hin & ->)%He & Ht). rewrite (proj2 (Hcmp _ _ Hin) Ht).
      destruct (entry_unique p w' u w u0) as [_ ->]; [done..|congruence|done].
    + intros [= <-]. exists w. split; [|done]. apply He. exists u0. by rewrite cmp_refl.
  - rewrite (pool_get_spec _ _ _ Hok). split.
    + intros (w' & (u & Hin & ->)%He & Ht). exists w'. split; [|done].
      destruct (cmp w w') eqn:Ec; try done. apply (Hcmp _ _ Hin) in Ec. congruence.
    + intros (w' & Hin & Ht). exists w'. split; [|done]. apply He. exists u'. split; [done|].
      destruct (cmp w w') eqn:Ec; try done. apply (Hcmp _ _ Hin) in Ec. congruence.
Qed.

Lemma pool_remove_get p t t' :
  pool_ok p ->
  pool_get t' (snd (pool_remove t p)) = if decide (t' = t) then None else pool_get t' p.
Proof.
  intros Hok. rewrite (pool_get_without p _ [t]) by
    (try apply pool_remove_ok; try done; intros; rewrite pool_remove_elem by done; set_solver).
  repeat case_decide; set_solver.
Qed.

(** The state of a pass that has removed [removed] and has [rest] still to visit. *)
Record pass_inv (now : instant) (m0 m : Mempool) (removed rest : list id32) : Prop := {
  pi_strict : mempool_strict m;
  pi_config : config m = config m0;
  pi_contents : forall t, tx <$> pool_get t (pool m) =
    if decide (t ∈ removed) then None else tx <$> pool_get t (pool m0);
  pi_rest : forall t, t ∈ rest -> pool_get t (pool m) = pool_get t (pool m0);
  pi_due : forall t, t ∈ removed -> exists u, pool_get t (pool m0) = Some u /\
    cleanup_interval (config m0) < duration_since now (last_checked u);
}.

Lemma with_pool_strict p m :
  mempool_strict m -> pool_ok p -> pool_capacity p = pool_capacity (pool m) ->
  inputs_indexed p -> pool_len p <= pool_len (pool m) -> mempool_strict (with_pool p m).
Proof.
  intros [Hwf Hix Hlen] Hp Hc Hi Hl. split; [|done|cbn; lia].
  apply with_pool_wf; [done..|]. by rewrite Hc, (wf_capacity _ Hwf).
Qed.

Lemma remove_strict t m :
  mempool_strict m -> mempool_strict (with_pool (snd (pool_remove t (pool m))) m).
Proof.
  intros Hst. pose proof (wf_pool _ (strict_wf _ Hst)) as Hok.
  apply with_pool_strict; [done|by apply pool_remove_ok|apply pool_remove_capacity| |].
  - apply pool_remove_indexed; [done|apply Hst].
  - unfold pool_len. pose proof (pool_remove_length_le (pool m) t). lia.
Qed.

Lemma mark_strict measured now t m :
  mempool_strict m ->
  mempool_strict (with_pool (pool_get_mut (mark_checked measured now) t (pool m)) m).
Proof.
  intros Hst. pose proof (wf_pool _ (strict_wf _ Hst)) as Hok.
  apply with_pool_strict; [done|by apply pool_get_mut_ok|apply pool_get_mut_capacity| |].
  - apply pool_get_mut_indexed; [done|done|apply Hst].
  - unfold pool_len. by rewrite pool_get_mut_length.
Qed.

Lemma invalidated_strict now t m :
  mempool_strict m -> mempool_strict (with_invalidated (cache_insert now t (invalidated m)) m).
Proof. intros [? ? ?]. split; [by apply with_invalidated_wf|done|done]. Qed.

(** Removing a due transaction keeps the pass invariant. *)
Lemma pass_remove now m0 m m1 removed t rest u :
  pass_inv now m0 m removed (t :: rest) -> t ∉ rest ->
  pool_get t (pool m) = Some u ->
  cleanup_interval (config m) < duration_since now (last_checked u) ->
  mempool_strict m1 -> config m1 = config m -> pool m1 = snd (pool_remove t (pool m)) ->
  pass_inv now m0 m1 (removed ++ [t]) rest.
Proof.
  intros [Hst Hcfg Hcon Hrest Hdue] Hnd Hg Hlate Hst1 Hcfg1 Hp.
  pose proof (wf_pool _ (strict_wf _ Hst)) as Hok. split.
  - done.
  - congruence.
  - intros t'. rewrite Hp, pool_remove_get by done. case_decide as Hd.
    + subst. rewrite decide_True by set_solver. done.
    + rewrite Hcon. repeat case_decide; set_solver.
  - intros t' Ht'. rewrite Hp, pool_remove_get by done. rewrite decide_False by set_solver.
    apply Hrest. set_solver.
  - intros t' [Ht'|Ht']%elem_of_app; [by apply Hdue|]. apply list_elem_of_singleton in Ht' as ->.
    exists u. rewrite <- Hrest by set_solver. split; [done|]. congruence.
Qed.

Lemma pass_mark now m0 m removed t rest measured :
  pass_inv now m0 m removed (t :: rest) -> t ∉ rest ->
  pass_inv now m0 (with_pool (pool_get_mut (mark_checked measured now) t (pool m)) m) removed rest.
Proof.
  intros [Hst Hcfg Hcon Hrest Hdue] Hnd. pose proof (wf_pool _ (strict_wf _ Hst)) as Hok.
  split; try done.
  - by apply mark_strict.
  - intros t'. cbn. rewrite pool_get_mut_get by done. rewrite <- Hcon.
    case_decide; [|done]. subst. by destruct (pool_get t (pool m)).
  - intros t' Ht'. cbn. rewrite pool_get_mut_get by done. rewrite decide_False by set_solver.
    apply Hrest. set_solver.
Qed.

Lemma pass_skip now m0 m removed t rest :
  pass_inv now m0 m removed (t :: rest) -> pass_inv now m0 m removed rest.
Proof. intros []. split; try done. set_solver. Qed.

Section Revalidate.
Context {E StateContext : Type}.
Variable pre_header_height : StateContext -> Z.
Variable validate : Transaction -> list ErgoBox -> list ErgoBox -> StateContext -> result E Z.
Variable at_invalidate : id32 -> instant.

Lemma revalidate_loop_inv now limit utxo ctx m0 rest spent removed m :
  NoDup rest -> pass_inv now m0 m removed rest ->
  let '(removed', m') := revalidate_loop pre_header_height validate at_invalidate now limit
                           utxo ctx rest spent removed m in
  pass_inv now m0 m' removed' [].
Proof.
  revert spent removed m. induction rest as [|t rest IH]; intros spent removed m Hnd Hinv; [done|].
  apply NoDup_cons in Hnd as [Hni Hnd]. cbn [revalidate_loop].
  pose proof (pass_skip _ _ _ _ _ _ Hinv) as Hskip.
  destruct (pool_get t (pool m)) as [u|] eqn:Hg; [|by apply IH].
  destruct (Z.leb_spec (duration_since now (last_checked u)) (cleanup_interval (config m)));
    [by apply IH|].
  destruct (limit <=? spent); [destruct Hskip; split; try done; set_solver|].
  destruct (output_above_preheader _ _); [by apply IH|].
  destruct (resolve_inputs _ _ _) as [boxes|].
  - destruct (validate _ _ _ _) as [c|e]; apply IH; try done.
    + by apply pass_mark.
    + eapply pass_remove; try done. apply (remove_strict t (with_invalidated _ m)).
      apply invalidated_strict, Hinv.
  - apply IH; [done|]. eapply pass_remove; try done. apply remove_strict, Hinv.
Qed.

Lemma revalidate_spec now limit utxo ctx m :
  mempool_strict m ->
  let '(removed, m') := revalidate_within pre_header_height validate at_invalidate now limit
                          utxo ctx m in
  mempool_strict m' /\
  (forall t, tx <$> pool_get t (pool m') =
             if decide (t ∈ removed) then None else tx <$> pool_get t (pool m)) /\
  (forall t, t ∈ removed -> exists u, pool_get t (pool m) = Some u /\
     cleanup_interval (config m) < duration_since now (last_checked u)).
Proof.
  intros Hst. unfold revalidate_within.
  pose proof (wf_pool _ (strict_wf _ Hst)) as Hok.
  pose proof (revalidate_loop_inv now limit utxo ctx m
    ((fun e : TxWeight * UnconfirmedTx => tw_tx_id e.1) <$> ordered (pool m)) 0 [] m) as H.
  destruct (revalidate_loop _ _ _ _ _ _ _ _ _ _ _) as [removed m'].
  assert (Hp : pass_inv now m m' removed []).
  { apply H; [by apply ordered_ids_nodup|]. split; try done; set_solver. }
  destruct Hp as [H1 H2 H3 H4 H5]. by split_and!.
Qed.

(** A revalidation pass keeps the mempool's guarantees and only removes: the
    returned ids are exactly the transactions that left the pool, each had last
    been checked longer than [cleanup_interval] ago, and every other transaction
    is still pooled. *)
Theorem revalidate_correct now limit utxo ctx m :
  mempool_strict m ->
  let '(removed, m') := revalidate_within pre_header_height validate at_invalidate now limit
                          utxo ctx m in
  mempool_strict m' /\
  (forall t, tx <$> pool_get t (pool m') =
             if decide (t ∈ removed) then None else tx <$> pool_get t (pool m)) /\
  (forall t, t ∈ removed -> exists u, pool_get t (pool m) = Some u /\
     cleanup_interval (config m) < duration_since now (last_checked u)).
Proof. apply revalidate_spec. Qed.

End Revalidate.

(** ** The mempool as a transition system *)

Lemma return_to_pool_wf txs m : mempool_wf m -> mempool_wf (return_to_pool txs m).
Proof.
  revert m. unfold return_to_pool. induction txs as [|u txs IH]; intros m Hwf; [done|].
  cbn [fold_left]. apply IH. destruct (pool_contains (tx_id_of (tx u)) (pool m)) eqn:Ec; [done|].
  apply with_pool_wf; [done| |by apply Hwf]. apply pool_insert_ok; [by apply Hwf| |done].
  cbn. unfold pool_contains in Ec. by destruct (by_id (pool m) !! _).
Qed.

Lemma apply_block_wf now prune_at txs m :
  mempool_wf m -> mempool_wf (snd (apply_block_at now prune_at txs m)).
Proof.
  intros Hwf. pose proof (wf_pool _ Hwf) as Hok. unfold apply_block_at.
  pose proof (confirm_all_spec now (pool m) txs (pool m) (stats m) [] Hok (shrunk_refl _ Hok)) as H.
  destruct (fold_left _ _ _) as [[p s] removed]. destruct H as ([H1 H2 _ _ _ _] & _ & _).
  destruct Hwf. split; cbn; [done|congruence|done|by apply cache_prune_ok|done].
Qed.

Lemma invalidate_wf now t m : mempool_wf m -> mempool_wf (invalidate now t m).
Proof.
  intros Hwf. apply (with_invalidated_wf now t (with_pool _ m)).
  apply with_pool_wf; [done|apply pool_remove_ok, Hwf|]. rewrite pool_remove_capacity. apply Hwf.
Qed.

Section System.
Context {E StateContext : Type}.
Variable pre_header_height : StateContext -> Z.
Variable validate : Transaction -> list ErgoBox -> list ErgoBox -> StateContext -> result E Z.
Variable build_fee_proposition : Z -> result E byte_list.

(** The operations the node performs while it follows the chain forward. *)
Inductive mempool_step : Mempool -> Mempool -> Prop :=
  | step_process clock t bytes utxo ctx source o m m' :
      process pre_header_height validate clock t bytes utxo ctx source m = Some (o, m') ->
      mempool_step m m'
  | step_invalidate now t m : mempool_step m (invalidate now t m)
  | step_apply_block now prune_at txs m :
      mempool_step m (snd (apply_block_at now prune_at txs m))
  | step_revalidate at_invalidate now limit utxo ctx m :
      mempool_step m (snd (revalidate_within pre_header_height validate at_invalidate now limit
                             utxo ctx m)).

(** A rollback also returns transactions to the pool. *)
Inductive rollback_step : Mempool -> Mempool -> Prop :=
  | step_forward m m' : mempool_step m m' -> rollback_step m m'
  | step_return txs m : rollback_step m (return_to_pool txs m).

Lemma revalidate_wf at_invalidate now limit utxo ctx m :
  mempool_wf m ->
  mempool_wf (snd (revalidate_within pre_header_height validate at_invalidate now limit utxo ctx m)).
Proof.
  intros Hwf. unfold revalidate_within. generalize 0, (@nil Z).
  generalize ((fun e : TxWeight * UnconfirmedTx => tw_tx_id e.1) <$> ordered (pool m)).
  intros rest. revert m Hwf. induction rest as [|t rest IH]; intros m Hwf spent removed; [done|].
  assert (Hrm : mempool_wf (with_pool (snd (pool_remove t (pool m))) m)).
  { apply with_pool_wf; [done|apply pool_remove_ok, Hwf|]. rewrite pool_remove_capacity. apply Hwf. }
  cbn [revalidate_loop]. destruct (pool_get t (pool m)) as [u|]; [|by apply IH].
  destruct (_ <=? cleanup_interval (config m)); [by apply IH|].
  destruct (limit <=? spent); [done|].
  destruct (output_above_preheader _ _); [by apply IH|].
  destruct (resolve_inputs _ _ _) as [boxes|]; [|by apply IH].
  destruct (validate _ _ _ _) as [c|e]; apply IH.
  - apply with_pool_wf; [done|apply pool_get_mut_ok, Hwf; done|].
    rewrite pool_get_mut_capacity. apply Hwf.
  - by apply (with_invalidated_wf (at_invalidate t) t (with_pool _ m)).
Qed.

Lemma mempool_step_wf m m' : mempool_step m m' -> mempool_wf m -> mempool_wf m'.
Proof.
  intros [clock t bytes utxo ctx source o m1 m2 Hp|now t m1|now pa txs m1|ai now l utxo ctx m1] Hwf.
  - destruct (process_wf pre_header_height validate clock t bytes utxo ctx source m1 Hwf)
      as (? & ? & Hp' & ?). congruence.
  - by apply invalidate_wf.
  - by apply apply_block_wf.
  - by apply revalidate_wf.
Qed.

Lemma mempool_step_strict m m' : mempool_step m m' -> mempool_strict m -> mempool_strict m'.
Proof.
  intros [clock t bytes utxo ctx source o m1 m2 Hp|now t m1|now pa txs m1|ai now l utxo ctx m1] Hst.
  - destruct (process_spec pre_header_height validate clock t bytes utxo ctx source m1 Hst)
      as (? & ? & Hp' & ? & _). congruence.
  - by apply (invalidated_strict now t (with_pool _ m1)), remove_strict.
  - pose proof (apply_block_spec now pa txs m1 Hst) as H. by destruct (apply_block_at _ _ _ _), H.
  - pose proof (revalidate_spec pre_header_height validate ai now l utxo ctx m1 Hst) as H.
    by destruct (revalidate_within _ _ _ _ _ _ _ _), H.
Qed.

Lemma mempool_new_strict now cfg m :
  0 <= capacity cfg -> 0 < invalidation_capacity cfg ->
  mempool_new build_fee_proposition now cfg = Return m -> mempool_strict m.
Proof.
  intros Hc Hi. unfold mempool_new. destruct (build_fee_proposition _); [|done].
  intros [= <-]. split; [split|..]; cbn; try done.
  - apply pool_new_ok.
  - apply cache_new_ok. lia.
  - apply pool_new_indexed.
Qed.

(** C8: On every path of the running node (transactions processed, blocks applied,
    revalidation, invalidation), no two pooled transactions spend the same box, the
    pool stays within its capacity, and its indexes agree with its contents. *)
Theorem reachable_no_double_spend now cfg m0 m :
  0 <= capacity cfg -> 0 < invalidation_capacity cfg ->
  mempool_new build_fee_proposition now cfg = Return m0 -> rtc mempool_step m0 m ->
  mempool_wf m /\ pool_len (pool m) <= capacity (config m) /\
  forall t1 t2 u1 u2 i, pool_get t1 (pool m) = Some u1 -> pool_get t2 (pool m) = Some u2 ->
    i ∈ inputs (tx u1) -> i ∈ inputs (tx u2) -> t1 = t2.
Proof.
  intros Hc Hi Hnew Hr. assert (Hst : mempool_strict m).
  { apply mempool_new_strict in Hnew; [|done..]. clear -Hr Hnew.
    induction Hr; eauto using mempool_step_strict. }
  destruct Hst as [Hwf Hix Hlen]. split_and!; [done..|].
  intros t1 t2 u1 u2 i H1 H2 Hi1 Hi2. pose proof (wf_pool _ Hwf) as Hok.
  apply pool_get_spec in H1 as (w1 & Hin1 & <-); [|done].
  apply pool_get_spec in H2 as (w2 & Hin2 & <-); [|done].
  pose proof (Hix _ _ _ Hin1 Hi1). pose proof (Hix _ _ _ Hin2 Hi2). congruence.
Qed.

(** On every path, rollbacks included, the indexes agree with the store, and the
    serving reader hands out exactly the bytes of the pooled transactions. *)
Theorem reachable_reader now cfg m0 m :
  0 <= capacity cfg -> 0 < invalidation_capacity cfg ->
  mempool_new build_fee_proposition now cfg = Return m0 -> rtc rollback_step m0 m ->
  mempool_wf m /\
  forall t, reader_tx_bytes t (pool m) = tx_bytes <$> pool_get t (pool m).
Proof.
  intros Hc Hi Hnew Hr. assert (Hwf : mempool_wf m).
  { apply mempool_new_strict in Hnew as [Hwf _ _]; [|done..]. clear -Hr Hwf.
    induction Hr as [|m1 m2 m3 [m' m'' Hs|txs m'] _ IH]; [done|..]; apply IH;
      eauto using mempool_step_wf, return_to_pool_wf. }
  split; [done|]. intros t. pose proof (wf_pool _ Hwf) as Hok. unfold reader_tx_bytes.
  destruct (pool_get t (pool m)) as [u|] eqn:Hg; cbn.
  - apply pool_get_spec in Hg as (w & Hin & <-); [|done]. by apply (ok_index_in _ Hok).
  - apply pool_get_by_id in Hg; [|done]. destruct (tx_index (pool m) !! t) as [b|] eqn:Eb; [|done].
    apply (ok_index_dom _ Hok) in Eb as [? ?]. congruence.
Qed.

End System.

(** ** Concrete states *)

Module Examples.

Definition ex_box (id : id32) (tree : byte_list) (v : Z) : ErgoBox := mk_ergo_box id tree v 1.

(** Boxes below 100 are confirmed; the fee proposition is the one-byte tree [7]. *)
Definition ex_utxo : UtxoReader := fun id => if id <? 100 then Some (ex_box id [9] 5000000) else None.
Definition ex_tree (_ : Z) : result unit byte_list := Ok [7].
Definition ex_validate (_ : Transaction) (_ _ : list ErgoBox) (_ : Z) : result unit Z := Ok 1000.
Definition ex_clock : Clock := mk_clock 10 11 12 (fun _ => 0).

(** [ex_tx id ins out fee] spends [ins], makes box [out] and pays [fee]. *)
Definition ex_tx (id : id32) (ins : list id32) (out : id32) (fee : Z) : Transaction :=
  mk_tx id ins None [ex_box (id + 5000) [7] fee; ex_box out [9] 1000000].

Definition ex_config (cap : Z) : MempoolConfig :=
  mk_config cap 1000000 FeePerByte (from_secs 30) 3 (from_secs 1800) 10000 12000000 10000000 720.

Definition ex_empty (cap : Z) : Mempool :=
  mk_mempool (pool_new cap) (cache_new (from_secs 1800) 10000) (stats_new 0) (ex_config cap)
    [7] 0 ∅.

Definition ex_process (size : nat) (t : Transaction) (m : Mempool)
    : option (ProcessingOutcome unit * Mempool) :=
  process (fun h : Z => h) ex_validate ex_clock t (replicate size 0) ex_utxo 100 (Some 3) m.

Definition ex_after (size : nat) (t : Transaction) (m : Mempool) : Mempool :=
  default m (snd <$> ex_process size t m).

(** A pool that holds one transaction, spending box 1 and making box 201. *)
Definition ex_parent : Transaction := ex_tx 1001 [1] 201 1000000.
Definition ex_one (cap : Z) : Mempool := ex_after 100 ex_parent (ex_empty cap).

Definition outcome_of {A} (r : option (ProcessingOutcome unit * A)) :
    option (ProcessingOutcome unit) := fst <$> r.

Lemma ex_empty_new cap : mempool_new ex_tree 0 (ex_config cap) = Return (ex_empty cap).
Proof. done. Qed.

Lemma ex_process_step size t m o :
  outcome_of (ex_process size t m) = Some o ->
  mempool_step (fun h : Z => h) ex_validate m (ex_after size t m).
Proof.
  unfold ex_after, outcome_of. destruct (ex_process size t m) as [[o' m']|] eqn:Ep; [|done].
  intros _. by eapply step_process.
Qed.

Lemma ex_one_strict cap : 0 <= cap -> mempool_strict (ex_one cap).
Proof.
  intros Hc. assert (Hst : mempool_strict (ex_empty cap)).
  { by apply (mempool_new_strict ex_tree 0 (ex_config cap)). }
  destruct (process_spec (fun h : Z => h) ex_validate ex_clock ex_parent (replicate 100 0) ex_utxo
    100 (Some 3) _ Hst) as (o & m' & Hp & Hst' & _).
  unfold ex_one, ex_after. unfold ex_process. by rewrite Hp.
Qed.

End Examples.
Import Examples.

Lemma process_correct_witness :
  exists o m', ex_process 50 (ex_tx 1002 [1] 202 1000000) (ex_one 2) = Some (o, m') /\
    mempool_strict m' /\
    outcome_spec (fun h : Z => h) ex_validate ex_clock (ex_tx 1002 [1] 202 1000000) (replicate 50 0) ex_utxo 100 (Some 3) (ex_one 2) m' o.
Proof.
  apply (process_correct (fun h : Z => h) ex_validate ex_clock (ex_tx 1002 [1] 202 1000000)
    (replicate 50 0) ex_utxo 100 (Some 3) (ex_one 2)).
  apply ex_one_strict. lia.
Defined.

Lemma apply_block_correct_witness :
  let '(removed, m') := apply_block_at 20 21 [ex_tx 1003 [1] 203 1000000] (ex_one 2) in
  removed = [1001] /\ mempool_strict m' /\
  forall t w u, t ∈ [ex_tx 1003 [1] 203 1000000] -> (w, u) ∈ ordered (pool m') ->
     tw_tx_id w <> tx_id_of t /\ forall i, i ∈ inputs t -> i ∉ inputs (tx u).
Proof.
  pose proof (apply_block_correct 20 21 [ex_tx 1003 [1] 203 1000000] (ex_one 2)
    (ex_one_strict 2 ltac:(lia))) as H.
  assert (E : fst (apply_block_at 20 21 [ex_tx 1003 [1] 203 1000000] (ex_one 2)) = [1001])
    by (vm_compute; reflexivity).
  destruct (apply_block_at _ _ _ _) as [removed m'].
  destruct H as (H1 & _ & _ & H2 & _). split; [exact E|]. split; [exact H1|exact H2].
Defined.

Lemma revalidate_correct_witness :
  let '(removed, m') := revalidate_within (fun h : Z => h) ex_validate (fun _ => 50)
    (from_secs 100) 10 (fun _ => None) 100 (ex_one 2) in
  removed = [1001] /\ mempool_strict m'.
Proof.
  pose proof (revalidate_correct (fun h : Z => h) ex_validate (fun _ => 50) (from_secs 100) 10
    (fun _ => None) 100 (ex_one 2) (ex_one_strict 2 ltac:(lia))) as H.
  assert (E : fst (revalidate_within (fun h : Z => h) ex_validate (fun _ => 50)
    (from_secs 100) 10 (fun _ => None) 100 (ex_one 2)) = [1001]) by (vm_compute; reflexivity).
  destruct (revalidate_within _ _ _ _ _ _ _ _) as [removed m'].
  destruct H as (H1 & _). split; [exact E|exact H1].
Defined.

(** The heavier of two transactions that spend box 1 has replaced the other. *)
Lemma reachable_no_double_spend_witness :
  let m := ex_after 50 (ex_tx 1002 [1] 202 1000000) (ex_one 2) in
  tx_ids (pool m) = [1002] /\ mempool_wf m /\ pool_len (pool m) <= 2.
Proof.
  set (m := ex_after 50 (ex_tx 1002 [1] 202 1000000) (ex_one 2)). cbv zeta.
  destruct (reachable_no_double_spend (fun h : Z => h) ex_validate ex_tree 0 (ex_config 2)
    (ex_empty 2) m) as (H1 & H2 & _).
  - cbn. lia.
  - cbn. lia.
  - apply ex_empty_new.
  - apply (rtc_l _ _ (ex_one 2)).
    + eapply ex_process_step. vm_compute. reflexivity.
    + apply rtc_once. eapply ex_process_step. vm_compute. reflexivity.
  - split; [vm_compute; reflexivity|]. split; [exact H1|].
    assert (E : capacity (config m) = 2) by (vm_compute; reflexivity). by rewrite <- E.
Defined.

(** The entry a rollback returns for [t]. *)
Definition ex_returned (t : Transaction) : UnconfirmedTx :=
  mk_utx t (replicate 80 0) 1000000 80 None 5 5 None.

Lemma reachable_reader_witness :
  let m := return_to_pool [ex_returned (ex_tx 1004 [1] 204 1000000)] (ex_one 2) in
  mempool_wf m /\ reader_tx_bytes 1004 (pool m) = tx_bytes <$> pool_get 1004 (pool m).
Proof.
  set (m := return_to_pool _ _). cbv zeta.
  destruct (reachable_reader (fun h : Z => h) ex_validate ex_tree 0 (ex_config 2) (ex_empty 2) m)
    as (H1 & H2); [cbn; lia|cbn; lia|apply ex_empty_new| |split; [exact H1|apply H2]].
  apply (rtc_l _ _ (ex_one 2)); [|apply rtc_once, step_return].
  apply step_forward. eapply ex_process_step. vm_compute. reflexivity.
Defined.

(** ** Where a report and its effect part *)

(** An [Accepted] transaction need not be in the pool: at capacity, a child that
    outweighs the lightest entry, its own parent, lifts the parent above itself and
    is the one evicted. *)
Theorem accepted_not_pooled :
  exists m m' t, mempool_strict m /\ ex_process 50 t m = Some (Accepted (tx_id_of t), m') /\
    pool_contains (tx_id_of t) (pool m') = false.
Proof.
  exists (ex_one 1), (ex_after 50 (ex_tx 1002 [201] 202 1000000) (ex_one 1)),
    (ex_tx 1002 [201] 202 1000000).
  split_and!; [by apply ex_one_strict| |]; vm_compute; reflexivity.
Qed.

(** Returning a rolled-back transaction bypasses the double-spend check and the
    capacity: a pool of capacity one ends up with two transactions that spend the
    same box. *)
Theorem return_breaks_invariants :
  exists m u1 u2, mempool_strict m /\ capacity (config m) = 1 /\
    let p := pool (return_to_pool [u2] m) in
    pool_len p = 2 /\ pool_get 1001 p = Some u1 /\ pool_get 1004 p = Some u2 /\
    1 ∈ inputs (tx u1) /\ 1 ∈ inputs (tx u2).
Proof.
  eexists (ex_one 1), _, (ex_returned (ex_tx 1004 [1] 204 1000000)).
  split_and!; [by apply ex_one_strict|vm_compute; reflexivity|].
  cbv zeta. split_and!; [vm_compute; reflexivity..| |]; cbn; set_solver.
Qed.

End MempoolInv.
