(* ===== verification/MempoolQueries.v ===== *)
(** * The mempool's read-only queries

    The fee queries of [mempool/src/lib.rs] and the rebroadcast selection of
    [mempool/src/cleanup.rs], against direct definitions of what they report; and
    the cases where an operation's report and its effect part. *)

From S2P Require Import Prelude OrdMap MempoolTypes OrderedPool ExpiringCache FeeStats Mempool.
From S2P Require Import MempoolInv.
Import MempoolTypes OrderedPool ExpiringCache FeeStats Mempool MempoolInv MempoolInv.Examples.

Module MempoolQueries.

(** ** Pool histogram *)

Lemma fill_histogram_spec {E} now last interval max_wait es h :
  0 < interval -> 0 <= last -> Z.of_nat (length h) = last + 1 ->
  Forall (fun b => 0 <= n_txns b) h ->
  count_bins h + Z.of_nat (length es) <= U64_MAX ->
  exists h', fill_histogram (E := E) now last interval max_wait es h = Return h' /\
    length h' = length h /\ count_bins h' = count_bins h + Z.of_nat (length es).
Proof.
  intros Hi Hl. revert h. induction es as [|[w u] es IH]; intros h Hlen Hall Hmax.
  - exists h. cbn. split_and!; [done..|lia].
  - cbn [fill_histogram]. set (wait := saturating_u64 _).
    assert (Hw : 0 <= wait).
    { unfold wait, saturating_u64, as_millis, duration_since, U64_MAX. apply Z.min_glb; [|lia].
      apply Z.div_pos; [apply Z.le_max_l|lia]. }
    assert (exists bin, (if wait <? max_wait
        then if interval =? 0 then Panic else Return (Z.min (wait / interval) last)
        else Return last) = Return (E := E) bin /\ 0 <= bin <= last) as (bin & -> & Hbin).
    { destruct (wait <? max_wait); [|exists last; split; [done|lia]].
      destruct (Z.eqb_spec interval 0); [lia|]. eexists. split; [done|].
      pose proof (Z.div_pos wait interval Hw Hi). lia. }
    cbn [outcome_bind]. destruct (h !! Z.to_nat bin) as [b|] eqn:Eb.
    2:{ apply lookup_ge_None_1 in Eb. lia. }
    cbn [length] in Hmax.
    destruct (bin_add_count (count_bins h) (fee_per_factor w) h (Z.to_nat bin) b) as [H1 H2];
      [lia|done|done|done|].
    destruct (IH (alter (bin_add (fee_per_factor w)) (Z.to_nat bin) h)) as (h' & -> & Hl' & Hc');
      [by rewrite length_alter|done|lia|].
    exists h'. split_and!; [done|by rewrite Hl', length_alter|]. cbn [length]. lia.
Qed.

Lemma count_bins_replicate n : count_bins (replicate n bin_default) = 0.
Proof. induction n; [done|]. cbn. done. Qed.

(** The pool histogram never panics on the arguments its precondition allows: it
    has [bins + 1] bins and counts every pooled transaction exactly once, the ones
    past the last bin's start included. *)
Theorem pool_histogram_total {E} now bins max_wait m :
  1 <= bins -> bins <= max_wait -> pool_len (pool m) <= U64_MAX ->
  exists h, pool_histogram_at (E := E) now bins max_wait m = Return h /\
    Z.of_nat (length h) = bins + 1 /\ count_bins h = pool_len (pool m).
Proof.
  intros Hb Hm Hlen. unfold pool_histogram_at. destruct (Z.eqb_spec bins 0); [lia|].
  destruct (fill_histogram_spec (E := E) now bins (max_wait / bins) max_wait (ordered (pool m))
    (replicate (Z.to_nat bins + 1) bin_default)) as (h & -> & Hl & Hc).
  - apply Z.div_str_pos. lia.
  - lia.
  - rewrite length_replicate. lia.
  - by apply Forall_replicate.
  - rewrite count_bins_replicate. unfold pool_len in Hlen. lia.
  - exists h. rewrite count_bins_replicate in Hc. rewrite length_replicate in Hl.
    split_and!; [done|lia|]. unfold pool_len. lia.
Qed.

(** ** Expected wait *)

Lemma take_while_sorted (l : list (TxWeight * UnconfirmedTx)) x :
  om_sorted l ->
  length (take_while (fun w => x <? weight w) l.*1) =
  length (filter (fun e => x < weight e.1) l).
Proof.
  unfold om_sorted. induction 1 as [|[w u] l Hs IH Hf]; [done|]. cbn [fmap list_fmap take_while fst].
  rewrite filter_cons. cbn [fst]. destruct (Z.ltb_spec x (weight w)).
  - rewrite decide_True by done. cbn [length]. f_equal. exact IH.
  - rewrite decide_False by lia. cbn [length].
    enough (filter (fun e : TxWeight * UnconfirmedTx => x < weight e.1) l = []) as -> by done.
    destruct (filter _ l) as [|[w' u'] l'] eqn:Ef; [done|exfalso].
    assert (Hin : (w', u') ∈ (w', u') :: l') by set_solver.
    rewrite <- Ef in Hin. apply list_elem_of_filter in Hin as [Hx Hin]. rewrite Forall_forall in Hf.
    specialize (Hf _ Hin). unfold key_lt in Hf. cbn in *. rewrite tx_weight_cmp_lt in Hf. lia.
Qed.

(** The expected wait of a fee is computed from the number of pooled
    transactions whose weight is strictly above that fee's rate (the prefix scan
    finds them all), and it never exceeds one measurement interval, 60 seconds,
    per transaction ahead. *)
Theorem expected_wait_position {E} now fee tx_size m :
  0 < tx_size -> pool_ok (pool m) -> 0 <= taken (stats m) ->
  let ahead := Z.of_nat (length (filter
    (fun e : TxWeight * UnconfirmedTx => saturating_u64 (fee * 1024 / tx_size) < weight e.1)
    (ordered (pool m)))) in
  exists wait, expected_wait_ms_at (E := E) now fee tx_size m = Return wait /\
    wait = wait_for_position now ahead (stats m) /\ 0 <= wait <= 60000 * ahead.
Proof.
  intros Hs Hok Htk ahead. unfold expected_wait_ms_at. destruct (Z.eqb_spec tx_size 0); [lia|].
  rewrite take_while_sorted by apply Hok. eexists. split_and!; [done|done|..];
    fold ahead; assert (0 <= ahead) by (unfold ahead; lia); unfold wait_for_position;
    (destruct (Z.eqb_spec (taken (stats m)) 0); [lia|]); unfold saturating_u64.
  all: set (el := as_millis _).
  all: assert (0 <= el <= 60000) as Hel by (unfold el, as_millis, MEASUREMENT_INTERVAL,
         from_secs, duration_since, sat_sub; Z.div_mod_to_equations; lia).
  - apply Z.min_glb; [|unfold U64_MAX; lia]. apply Z.div_pos; nia.
  - etrans; [apply Z.le_min_l|]. apply Z.div_le_upper_bound; nia.
Qed.

(** ** Rebroadcast *)

Definition inputs_confirmed (utxo_reader : UtxoReader) (u : UnconfirmedTx) : Prop :=
  Forall (fun id => is_Some (utxo_reader id)) (inputs (tx u)).

#[global] Instance inputs_confirmed_dec utxo u : Decision (inputs_confirmed utxo u).
Proof. unfold inputs_confirmed. apply _. Defined.

Lemma all_inputs_exist_spec utxo u :
  forallb (fun id => match utxo id with Some _ => true | None => false end) (inputs (tx u)) =
  bool_decide (inputs_confirmed utxo u).
Proof.
  apply eq_true_iff_eq. rewrite bool_decide_eq_true. unfold inputs_confirmed.
  induction (inputs (tx u)) as [|i ids IH]; [done|]. cbn [forallb].
  rewrite andb_true_iff, IH, Forall_cons. destruct (utxo i) as [b|]; [naive_solver|].
  split; [by intros []|]. intros [[? ?] _]. done.
Qed.

Lemma rebroadcast_loop_spec utxo count utxs valid :
  Z.of_nat (length valid) <= count ->
  rebroadcast_loop utxo count utxs valid =
  valid ++ take (Z.to_nat count - length valid) (filter (inputs_confirmed utxo) utxs).
Proof.
  revert valid. induction utxs as [|u utxs IH]; intros valid Hc; cbn [rebroadcast_loop].
  - by rewrite filter_nil, take_nil, app_nil_r.
  - destruct (Z.leb_spec count (Z.of_nat (length valid))).
    + replace (Z.to_nat count - length valid)%nat with 0%nat by lia. by rewrite take_0, app_nil_r.
    + rewrite all_inputs_exist_spec, filter_cons. case_bool_decide.
      * rewrite decide_True by done. rewrite IH by (rewrite length_app; cbn; lia).
        rewrite length_app. cbn [length].
        replace (Z.to_nat count - length valid)%nat
          with (S (Z.to_nat count - (length valid + 1)))%nat by lia.
        cbn [take]. by rewrite <- app_assoc.
      * rewrite decide_False by done. by apply IH.
Qed.

(** The rebroadcast selection is the first [rebroadcast_count] pooled
    transactions, in priority order, all of whose inputs are confirmed boxes. *)
Theorem rebroadcast_selects utxo m :
  0 <= rebroadcast_count (config m) ->
  select_for_rebroadcast utxo m =
  take (Z.to_nat (rebroadcast_count (config m)))
    (filter (inputs_confirmed utxo) (all_prioritized (pool m))).
Proof.
  intros Hc. unfold select_for_rebroadcast. rewrite rebroadcast_loop_spec by done.
  cbn [length app]. by rewrite Nat.sub_0_r.
Qed.

Lemma pool_histogram_total_witness :
  exists h, pool_histogram_at (E := unit) (from_secs 5) 3 10 (ex_one 2) = Return h /\
    Z.of_nat (length h) = 3 + 1 /\ count_bins h = pool_len (pool (ex_one 2)).
Proof.
  apply (pool_histogram_total (from_secs 5) 3 10 (ex_one 2)); [lia|lia|].
  vm_compute. discriminate.
Defined.

Lemma expected_wait_position_witness :
  exists wait, expected_wait_ms_at (E := unit) 5 1000 100 (ex_one 2) = Return wait /\
    0 <= wait <= 60000 * Z.of_nat (length (filter
      (fun e : TxWeight * UnconfirmedTx => saturating_u64 (1000 * 1024 / 100) < weight e.1)
      (ordered (pool (ex_one 2))))).
Proof.
  destruct (expected_wait_position (E := unit) 5 1000 100 (ex_one 2)) as (wait & H1 & _ & H2).
  - lia.
  - apply (wf_pool _ (strict_wf _ (ex_one_strict 2 ltac:(lia)))).
  - vm_compute. discriminate.
  - exists wait. split; [exact H1|exact H2].
Defined.

Lemma rebroadcast_selects_witness :
  length (select_for_rebroadcast ex_utxo (ex_one 2)) = 1%nat /\
  select_for_rebroadcast ex_utxo (ex_one 2) =
  take 3 (filter (inputs_confirmed ex_utxo) (all_prioritized (pool (ex_one 2)))).
Proof.
  split; [vm_compute; reflexivity|].
  apply (rebroadcast_selects ex_utxo (ex_one 2)). vm_compute. discriminate.
Defined.

End MempoolQueries.
