(* ===== verification/Vlq.v ===== *)
(** * P2P integers: variable-length quantities and ZigZag

    Models p2p/src/transport/vlq.rs: the VLQ writer and reader of the P2P wire
    format, the length reader with its cap, and the ZigZag maps for 32- and
    64-bit signed integers. The reader works on the remaining bytes of a cursor
    and returns the value with what is left. *)

From S2P Require Import Prelude.

Module Vlq.

(** The [io::Error] values the readers produce. *)
Inductive vlq_error :=
| UnexpectedEof
| VlqOverflow
| LengthTooLarge (val : Z).

(** The loop of [write_vlq]. A [u64] needs ten rounds, the last of which has no
    bits left ([write_vlq_bytes_length]). *)
Fixpoint write_vlq_loop (rounds : nat) (value : Z) : list Z :=
  match rounds with
  | O => []
  | S rounds' =>
      let byte := as_u8 (Z.land value 127) in
      let value' := Z.shiftr value 7 in
      if value' =? 0 then [byte] else Z.lor byte 128 :: write_vlq_loop rounds' value'
  end.

Definition write_vlq (buf : list Z) (value : Z) : list Z := buf ++ write_vlq_loop 10 value.

Fixpoint read_vlq_loop (l : list Z) (acc shift : Z) : result vlq_error (Z * list Z) :=
  match l with
  | [] => Err UnexpectedEof
  | b :: rest =>
      let acc' := Z.lor acc (as_u64 (Z.shiftl (Z.land b 127) shift)) in
      if Z.land b 128 =? 0 then Ok (acc', rest)
      else
        let shift' := shift + 7 in
        if 63 <? shift' then Err VlqOverflow else read_vlq_loop rest acc' shift'
  end.

Definition read_vlq (l : list Z) : result vlq_error (Z * list Z) := read_vlq_loop l 0 0.

Definition MAX_VLQ_LENGTH : Z := 16388608.

Definition read_vlq_length (l : list Z) : result vlq_error (Z * list Z) :=
  let? (val, rest) := read_vlq l in
  if MAX_VLQ_LENGTH <? val then Err (LengthTooLarge val) else Ok (val, rest).

Definition zigzag_encode (value : Z) : Z :=
  as_u32 (Z.lxor (as_i32 (Z.shiftl value 1)) (Z.shiftr value 31)).

Definition zigzag_decode (value : Z) : Z :=
  Z.lxor (as_i32 (Z.shiftr value 1)) (- Z.land value 1).

Definition zigzag_encode_i64 (value : Z) : Z :=
  as_u64 (Z.lxor (as_i64 (Z.shiftl value 1)) (Z.shiftr value 63)).

Definition zigzag_decode_i64 (value : Z) : Z :=
  Z.lxor (as_i64 (Z.shiftr value 1)) (- Z.land value 1).

(** ** Lemmas *)

Lemma vlq_low_byte v : as_u8 (Z.land v 127) = v mod 128.
Proof.
  rewrite land_127. unfold as_u8. apply Z.mod_small.
  pose proof (Z.mod_pos_bound v 128). lia.
Qed.

Lemma vlq_shift v : Z.shiftr v 7 = v / 128.
Proof. rewrite Z.shiftr_div_pow2 by lia. done. Qed.

Lemma write_vlq_loop_S n v :
  write_vlq_loop (S n) v =
    if v / 128 =? 0 then [v mod 128] else (v mod 128 + 128) :: write_vlq_loop n (v / 128).
Proof.
  cbn [write_vlq_loop]. rewrite vlq_low_byte, vlq_shift, lor_128; [done|].
  apply Z.mod_pos_bound. lia.
Qed.

#[global] Arguments write_vlq_loop : simpl never.

Lemma write_vlq_loop_ok n v : bytes_ok (write_vlq_loop n v).
Proof.
  revert v. induction n as [|n IH]; intros v; [constructor|].
  rewrite write_vlq_loop_S. pose proof (Z.mod_pos_bound v 128 ltac:(lia)).
  case_match; repeat constructor; try apply IH; int_unfold; lia.
Qed.

Lemma write_vlq_loop_length n v : (0 < n)%nat -> (1 <= length (write_vlq_loop n v) <= n)%nat.
Proof.
  revert v. induction n as [|n IH]; intros v Hn; [lia|].
  rewrite write_vlq_loop_S. case_match; simpl; [lia|].
  destruct n as [|n]; [simpl; lia|]. specialize (IH (v / 128) ltac:(lia)). lia.
Qed.

(** One decoded byte: what the reader's accumulator becomes. *)
Lemma read_vlq_acc acc shift v :
  0 <= shift -> 0 <= acc < 2 ^ shift -> 0 <= v -> v * 2 ^ shift < 2 ^ 64 ->
  Z.lor acc (as_u64 (Z.shiftl (v mod 128) shift)) = acc + (v mod 128) * 2 ^ shift.
Proof.
  intros Hs Ha Hv Hb.
  pose proof (Z.mod_pos_bound v 128 ltac:(lia)).
  pose proof (Z.mod_le v 128 ltac:(lia) ltac:(lia)).
  rewrite as_u64_small by (rewrite Z.shiftl_mul_pow2 by lia; int_unfold; nia).
  by apply lor_shift_add.
Qed.

Lemma land_127_continue v : 0 <= v < 128 -> Z.land (v + 128) 127 = v.
Proof. intros. rewrite land_127. Z.div_mod_to_equations. lia. Qed.

Lemma read_write_vlq_loop n v acc shift r :
  0 <= shift -> shift = 7 * (10 - Z.of_nat n) -> 0 <= acc < 2 ^ shift ->
  0 <= v < 2 ^ (7 * Z.of_nat n) -> v * 2 ^ shift < 2 ^ 64 ->
  (0 < n)%nat ->
  read_vlq_loop (write_vlq_loop n v ++ r) acc shift = Ok (acc + v * 2 ^ shift, r).
Proof.
  revert v acc shift. induction n as [|n IH]; intros v acc shift Hs Hsn Ha Hv Hb Hn; [lia|].
  pose proof (Z.mod_pos_bound v 128 ltac:(lia)).
  pose proof (Z.div_mod v 128 ltac:(lia)) as Hdm.
  assert (Hp : 0 < 2 ^ shift) by (apply Z.pow_pos_nonneg; lia).
  rewrite write_vlq_loop_S. case_match eqn:E; cbn [app read_vlq_loop].
  - apply Z.eqb_eq in E. rewrite land_127, Z.mod_mod by lia.
    rewrite (read_vlq_acc acc shift v), land_128_small by lia. cbn. do 2 f_equal. nia.
  - apply Z.eqb_neq in E. rewrite land_127_continue, land_128_set by lia. cbn.
    rewrite read_vlq_acc by lia.
    assert (n <> 0)%nat.
    { intros ->. change (2 ^ (7 * Z.of_nat 1)) with 128 in Hv.
      rewrite Z.div_small in E by lia. done. }
    rewrite (proj2 (Z.ltb_ge _ _)) by lia.
    assert (Hp7 : 2 ^ (shift + 7) = 128 * 2 ^ shift) by (rewrite Z.pow_add_r by lia; lia).
    assert (Hlt : v / 128 < 2 ^ (7 * Z.of_nat n)).
    { apply Z.div_lt_upper_bound; [lia|].
      replace (7 * Z.of_nat (S n)) with (7 + 7 * Z.of_nat n) in Hv by lia.
      rewrite Z.pow_add_r in Hv by lia. lia. }
    rewrite IH by (rewrite ?Hp7; nia). rewrite Hp7. do 2 f_equal. nia.
Qed.

Lemma read_vlq_write v r : is_u64 v -> read_vlq (write_vlq [] v ++ r) = Ok (v, r).
Proof.
  intros Hv. unfold read_vlq, write_vlq. rewrite app_nil_l.
  rewrite read_write_vlq_loop; int_unfold; try lia.
  by rewrite Z.mul_1_r.
Qed.

Lemma read_vlq_length_write v r :
  0 <= v <= MAX_VLQ_LENGTH -> read_vlq_length (write_vlq [] v ++ r) = Ok (v, r).
Proof.
  unfold MAX_VLQ_LENGTH. intros Hv. unfold read_vlq_length.
  rewrite read_vlq_write by (int_unfold; lia). cbn. unfold MAX_VLQ_LENGTH.
  by rewrite (proj2 (Z.ltb_ge _ _)) by lia.
Qed.

Lemma write_vlq_app buf v : write_vlq buf v = buf ++ write_vlq [] v.
Proof. done. Qed.

Lemma write_vlq_ok v : bytes_ok (write_vlq [] v).
Proof. apply write_vlq_loop_ok. Qed.

(** The reader's result is a [u64], and never longer than its input. *)
Lemma read_vlq_loop_range l acc shift v r :
  is_u64 acc -> read_vlq_loop l acc shift = Ok (v, r) ->
  is_u64 v /\ exists p, l = p ++ r /\ (0 < length p)%nat.
Proof.
  revert acc shift. induction l as [|b l IH]; intros acc shift Hacc; cbn; [done|].
  assert (Hacc' : is_u64 (Z.lor acc (as_u64 (Z.shiftl (Z.land b 127) shift)))).
  { pose proof (as_u64_range (Z.shiftl (Z.land b 127) shift)) as Hr.
    set (c := as_u64 _) in *. clearbody c. revert Hacc Hr. int_unfold. intros.
    assert (Z.lor acc c < 2 ^ 64).
    { destruct (decide (acc = 0)) as [->|]; [rewrite Z.lor_0_l; lia|].
      destruct (decide (c = 0)) as [->|]; [rewrite Z.lor_0_r; lia|].
      assert (0 < Z.lor acc c).
      { pose proof (Z.lor_nonneg acc c). pose proof (Z.lor_eq_0_iff acc c). lia. }
      apply Z.log2_lt_pow2; [lia|]. rewrite Z.log2_lor by lia.
      apply Z.max_lub_lt; apply Z.log2_lt_pow2; lia. }
    pose proof (Z.lor_nonneg acc c). lia. }
  case_match.
  - intros [= <- <-]. split; [done|]. exists [b]. simpl. split; [done|lia].
  - case_match; [done|]. intros Hl. apply IH in Hl as [? (p & -> & ?)]; [|done].
    split; [done|]. exists (b :: p). simpl. split; [done|lia].
Qed.

Lemma read_vlq_length_range l v r :
  read_vlq_length l = Ok (v, r) ->
  0 <= v <= MAX_VLQ_LENGTH /\ exists p, l = p ++ r /\ (0 < length p)%nat.
Proof.
  unfold read_vlq_length. destruct (read_vlq l) as [[v' r']|] eqn:E; cbn; [|done].
  apply read_vlq_loop_range in E as [Hv Hp]; [|int_unfold; lia].
  case_match eqn:El; [done|]. intros [= <- <-]. apply Z.ltb_ge in El.
  split; [int_unfold; lia|done].
Qed.

Lemma lxor_m1 x : Z.lxor x (-1) = - x - 1.
Proof. rewrite Z.lxor_m1_r. unfold Z.lnot. lia. Qed.

(** What the two ZigZag encoders compute, as arithmetic. *)
Definition zigzag_spec (v : Z) : Z := if v <? 0 then - 2 * v - 1 else 2 * v.

Lemma shiftr_sign n v :
  0 <= n -> - 2 ^ n <= v < 2 ^ n -> Z.shiftr v n = if v <? 0 then -1 else 0.
Proof.
  intros Hn Hv. rewrite Z.shiftr_div_pow2 by lia.
  assert (0 < 2 ^ n) by (apply Z.pow_pos_nonneg; lia).
  case_match eqn:E; [|apply Z.div_small; lia].
  symmetry. apply (Z.div_unique _ _ _ (v + 2 ^ n)); lia.
Qed.

Lemma zigzag_encode_spec v : is_i32 v -> zigzag_encode v = zigzag_spec v.
Proof.
  intros Hv. unfold zigzag_encode, zigzag_spec.
  rewrite shiftr_sign, Z.shiftl_mul_pow2 by (int_unfold; lia).
  destruct (v <? 0) eqn:E; rewrite ?lxor_m1, ?Z.lxor_0_r; int_solve.
Qed.

Lemma zigzag_encode_i64_spec v :
  - I64_MAX - 1 <= v <= I64_MAX -> zigzag_encode_i64 v = zigzag_spec v.
Proof.
  intros Hv. unfold zigzag_encode_i64, zigzag_spec.
  rewrite shiftr_sign, Z.shiftl_mul_pow2 by (int_unfold; lia).
  destruct (v <? 0) eqn:E; rewrite ?lxor_m1, ?Z.lxor_0_r; int_solve.
Qed.

Lemma zigzag_split v :
  Z.shiftr (zigzag_spec v) 1 = (if v <? 0 then - v - 1 else v) /\
  - Z.land (zigzag_spec v) 1 = (if v <? 0 then -1 else 0).
Proof.
  pose proof (Z.land_ones (zigzag_spec v) 1 ltac:(lia)) as E. change (Z.ones 1) with 1 in E.
  rewrite E, Z.shiftr_div_pow2 by lia. unfold zigzag_spec.
  destruct (v <? 0); Z.div_mod_to_equations; lia.
Qed.

(** ** Properties *)

(** Every [u64] survives the P2P variable-length encoding. The writer emits
    between one and ten bytes, and the reader, started on those bytes followed
    by anything, returns the value and leaves exactly what followed. *)
Theorem vlq_roundtrip v r :
  is_u64 v ->
  read_vlq (write_vlq [] v ++ r) = Ok (v, r) /\
  (1 <= length (write_vlq [] v) <= 10)%nat.
Proof.
  intros Hv. split; [by apply read_vlq_write|].
  unfold write_vlq. rewrite app_nil_l. apply write_vlq_loop_length. lia.
Qed.

Lemma vlq_roundtrip_witness :
  read_vlq (write_vlq [] U64_MAX ++ [7]) = Ok (U64_MAX, [7]) /\
  (1 <= length (write_vlq [] U64_MAX) <= 10)%nat.
Proof. apply (vlq_roundtrip U64_MAX [7]). int_unfold; lia. Defined.

(** ZigZag is a bijection on both widths: decoding the encoding of any
    [i32] or [i64] gives it back, so negative handshake fields survive. *)
Theorem zigzag_roundtrip v :
  (is_i32 v -> zigzag_decode (zigzag_encode v) = v) /\
  (- I64_MAX - 1 <= v <= I64_MAX -> zigzag_decode_i64 (zigzag_encode_i64 v) = v).
Proof.
  destruct (zigzag_split v) as [Hs Hl]. split; intros Hv.
  - unfold zigzag_decode. rewrite zigzag_encode_spec, Hs, Hl by done.
    destruct (v <? 0) eqn:E; rewrite ?lxor_m1, ?Z.lxor_0_r; int_solve.
  - unfold zigzag_decode_i64. rewrite zigzag_encode_i64_spec, Hs, Hl by done.
    destruct (v <? 0) eqn:E; rewrite ?lxor_m1, ?Z.lxor_0_r; int_solve.
Qed.

End Vlq.
