(* ===== verification/Frame.v ===== *)
(** * P2P frames

    Models p2p/src/transport/frame.rs: the frame encoder and decoder, the
    stream reader with its permanent penalties and capture tap, and the frame
    writer. [Blake2b256::digest] is the external [blake2] crate and so a
    parameter; the only fact the framing relies on is its 32-byte length. The
    blacklist of p2p/src/blacklist.rs is the set of banned addresses. *)

From S2P Require Import Prelude.

Module Frame.

Definition MIN_HEADER_SIZE : nat := 9.
Definition HEADER_SIZE : nat := 13.
Definition MAX_BODY_SIZE : Z := 16388608.

Record frame := { code : Z; body : list Z }.

Inductive frame_error :=
| FrameTooShort
| BadMagic
| BodyTooLarge (len : Z)
| FrameTruncated
| ChecksumMismatch
| StreamEof.

(** [u32::to_be_bytes] and [u32::from_be_bytes]. *)
Definition to_be_bytes (v : Z) : list Z :=
  [as_u8 (Z.shiftr v 24); as_u8 (Z.shiftr v 16); as_u8 (Z.shiftr v 8); as_u8 v].

Definition from_be_bytes (l : list Z) : Z := foldl (fun acc b => acc * 256 + b) 0 l.

(** A half-open slice [data[a..b]] with [a <= b <= data.len()]. *)
Definition slice (a b : nat) (data : list Z) : list Z := take (b - a) (drop a data).

Section WithDigest.
Context (blake2b256 : list Z -> list Z).

Definition encode (magic : list Z) (f : frame) : list Z :=
  magic ++ [code f] ++ to_be_bytes (as_u32 (Z.of_nat (length (body f)))) ++
  (if bool_decide (body f = []) then [] else take 4 (blake2b256 (body f)) ++ body f).

Definition decode (magic data : list Z) : result frame_error frame :=
  if (length data <? MIN_HEADER_SIZE)%nat then Err FrameTooShort
  else if negb (bool_decide (slice 0 4 data = magic)) then Err BadMagic
  else
    let code := nth 4 data 0 in
    let body_len := from_be_bytes (slice 5 9 data) in
    if MAX_BODY_SIZE <? body_len then Err (BodyTooLarge body_len)
    else if body_len =? 0 then Ok {| code := code; body := [] |}
    else
      let expected_total := (HEADER_SIZE + Z.to_nat body_len)%nat in
      if (length data <? expected_total)%nat then Err FrameTruncated
      else
        let checksum := slice 9 13 data in
        let body := slice HEADER_SIZE expected_total data in
        if negb (bool_decide (take 4 (blake2b256 body) = checksum)) then Err ChecksumMismatch
        else Ok {| code := code; body := body |}.

(** ** The stream reader *)

(** What [read_frame] and [write_frame] touch: the bytes still to come from the
    peer, the bytes written to it, the session blacklist and what the capture
    tap recorded. *)
Record conn := {
  incoming : list Z;
  outgoing : list Z;
  banned : gset Z;
  tapped : list (list Z)
}.

(** [Blacklist::record_permanent]. *)
Definition record_permanent (addr : Z) (c : conn) : conn :=
  {| incoming := incoming c; outgoing := outgoing c;
     banned := {[addr]} ∪ banned c; tapped := tapped c |}.

(** [Blacklist::contains]. *)
Definition blacklisted (addr : Z) (c : conn) : bool := bool_decide (addr ∈ banned c).

Definition set_incoming (l : list Z) (c : conn) : conn :=
  {| incoming := l; outgoing := outgoing c; banned := banned c; tapped := tapped c |}.

(** [Tap::capture_inbound] and [capture_outbound], when a tap is attached. *)
Definition capture (tap : bool) (bytes : list Z) (c : conn) : conn :=
  if tap then {| incoming := incoming c; outgoing := outgoing c; banned := banned c;
                 tapped := tapped c ++ [bytes] |}
  else c.

Definition read_frame (magic : list Z) (peer_addr : Z) (tap : bool) (c : conn) :
    result frame_error frame * conn :=
  match read_exact 9 (incoming c) with
  | None => (Err StreamEof, set_incoming [] c)
  | Some (prefix, rest) =>
      let c := set_incoming rest c in
      if negb (bool_decide (slice 0 4 prefix = magic)) then
        (Err BadMagic, record_permanent peer_addr c)
      else
        let code := nth 4 prefix 0 in
        let body_len := from_be_bytes (slice 5 9 prefix) in
        if MAX_BODY_SIZE <? body_len then
          (Err (BodyTooLarge body_len), record_permanent peer_addr c)
        else if body_len =? 0 then
          (Ok {| code := code; body := [] |}, capture tap prefix c)
        else
          match read_exact 4 (incoming c) with
          | None => (Err StreamEof, set_incoming [] c)
          | Some (checksum, rest1) =>
              match read_exact (Z.to_nat body_len) rest1 with
              | None => (Err StreamEof, set_incoming [] c)
              | Some (body, rest2) =>
                  let c := set_incoming rest2 c in
                  if negb (bool_decide (take 4 (blake2b256 body) = checksum)) then
                    (Err ChecksumMismatch, record_permanent peer_addr c)
                  else
                    (Ok {| code := code; body := body |},
                     capture tap (prefix ++ checksum ++ body) c)
              end
          end
  end.

Definition write_frame (magic : list Z) (f : frame) (tap : bool) (c : conn) : conn :=
  let bytes := encode magic f in
  let c := capture tap bytes c in
  {| incoming := incoming c; outgoing := outgoing c ++ bytes; banned := banned c;
     tapped := tapped c |}.

(** ** Lemmas *)

Lemma to_be_bytes_length v : length (to_be_bytes v) = 4%nat.
Proof. done. Qed.

Lemma from_to_be_bytes v : is_u32 v -> from_be_bytes (to_be_bytes v) = v.
Proof.
  intros Hv. unfold from_be_bytes, to_be_bytes. cbn [foldl].
  rewrite !Z.shiftr_div_pow2 by lia.
  change (2 ^ 24) with (256 * (256 * 256)). change (2 ^ 16) with (256 * 256).
  change (2 ^ 8) with 256. unfold as_u8. change (2 ^ 8) with 256.
  rewrite <- !Z.div_div by lia. revert Hv. int_unfold. intros. Z.div_mod_to_equations. lia.
Qed.

Lemma slice_app_exact (p q r : list Z) a b :
  length p = a -> length (p ++ q) = b -> slice a b (p ++ q ++ r) = q.
Proof.
  intros <- <-. unfold slice. rewrite drop_app_length, length_app.
  replace (length p + length q - length p)%nat with (length q) by lia.
  apply take_app_length.
Qed.

(** The fixed prefix of a frame: magic, code and length. *)
Definition header (magic : list Z) (c len : Z) : list Z := magic ++ [c] ++ to_be_bytes len.

Lemma header_length magic c len : length magic = 4%nat -> length (header magic c len) = 9%nat.
Proof. intros H. unfold header. rewrite !length_app, H. done. Qed.

Lemma header_fields magic c len r :
  length magic = 4%nat ->
  slice 0 4 (header magic c len ++ r) = magic /\
  nth 4 (header magic c len ++ r) 0 = c /\
  slice 5 9 (header magic c len ++ r) = to_be_bytes len.
Proof.
  intros H. unfold header. split_and!.
  - rewrite <- app_assoc. apply (slice_app_exact []); simpl; lia.
  - rewrite <- !app_assoc, app_nth2 by lia. rewrite H. done.
  - rewrite (app_assoc magic [c]), <- app_assoc. apply slice_app_exact;
      rewrite !length_app, ?to_be_bytes_length; simpl; lia.
Qed.

Lemma encode_header magic f :
  encode magic f = header magic (code f) (as_u32 (Z.of_nat (length (body f)))) ++
    (if bool_decide (body f = []) then [] else take 4 (blake2b256 (body f)) ++ body f).
Proof. unfold encode, header. by rewrite <- !app_assoc. Qed.

Section Digest.
Context (digest_length : forall l, length (blake2b256 l) = 32%nat).

Lemma checksum_length b : length (take 4 (blake2b256 b)) = 4%nat.
Proof. rewrite length_take, digest_length. done. Qed.

Lemma encode_body_len f :
  Z.of_nat (length (body f)) <= MAX_BODY_SIZE ->
  from_be_bytes (to_be_bytes (as_u32 (Z.of_nat (length (body f))))) = Z.of_nat (length (body f)).
Proof.
  unfold MAX_BODY_SIZE. intros H.
  rewrite as_u32_small, from_to_be_bytes by (int_unfold; lia). done.
Qed.

Lemma decode_encode_app magic f r :
  length magic = 4%nat -> Z.of_nat (length (body f)) <= MAX_BODY_SIZE ->
  decode magic (encode magic f ++ r) = Ok f.
Proof.
  intros Hm Hb. rewrite encode_header, <- app_assoc.
  set (len := as_u32 _). set (tl := (if bool_decide _ then _ else _) ++ r).
  destruct (header_fields magic (code f) len tl Hm) as (H1 & H2 & H3).
  unfold decode. rewrite H1, H2, H3. unfold len. rewrite encode_body_len by done.
  rewrite (proj2 (Nat.ltb_ge _ _)) by (rewrite length_app, header_length by done; unfold MIN_HEADER_SIZE; lia).
  rewrite bool_decide_true by done. cbn [negb].
  rewrite (proj2 (Z.ltb_ge _ _)) by done.
  destruct f as [c b]. cbn [Frame.body Frame.code] in *. subst tl.
  destruct b as [|x b]; [done|]. rewrite (bool_decide_false (x :: b = [])) by done.
  rewrite (proj2 (Z.eqb_neq _ _)) by (simpl; lia). rewrite Nat2Z.id.
  pose proof (checksum_length (x :: b)) as Hc. set (ck := take 4 _) in *.
  set (hd := header _ _ _). assert (Hh : length hd = 9%nat) by (by apply header_length).
  rewrite <- app_assoc.
  rewrite (proj2 (Nat.ltb_ge _ _)) by (rewrite !length_app, Hh, Hc; unfold HEADER_SIZE; simpl; lia).
  rewrite (slice_app_exact hd ck (_ ++ r) 9 13) by (rewrite ?length_app; lia).
  rewrite (app_assoc hd ck), (slice_app_exact (hd ++ ck) (x :: b) r HEADER_SIZE)
    by (rewrite ?length_app; unfold HEADER_SIZE; lia).
  by rewrite bool_decide_true by done.
Qed.

Lemma read_frame_encode magic f r addr tap c :
  length magic = 4%nat -> Z.of_nat (length (body f)) <= MAX_BODY_SIZE ->
  incoming c = encode magic f ++ r ->
  read_frame magic addr tap c = (Ok f, capture tap (encode magic f) (set_incoming r c)).
Proof.
  intros Hm Hb Hi. unfold read_frame. rewrite Hi, encode_header, <- app_assoc.
  set (len := as_u32 _). set (hd := header magic (code f) len).
  pose proof (header_length magic (code f) len Hm) as Hh. fold hd in Hh.
  rewrite read_exact_app_n by done.
  destruct (header_fields magic (code f) len [] Hm) as (H1 & H2 & H3).
  rewrite app_nil_r in H1, H2, H3. fold hd in H1, H2, H3. rewrite H1, H2, H3.
  unfold len. rewrite encode_body_len by done.
  rewrite bool_decide_true by done. cbn [negb]. rewrite (proj2 (Z.ltb_ge _ _)) by done.
  destruct f as [fc b]. cbn [Frame.body Frame.code] in *.
  destruct b as [|x b].
  { cbn. by rewrite app_nil_r. }
  rewrite (bool_decide_false (x :: b = [])) by done.
  rewrite (proj2 (Z.eqb_neq _ _)) by (simpl; lia).
  pose proof (checksum_length (x :: b)) as Hc. set (ck := take 4 _) in *.
  cbn [incoming set_incoming]. rewrite <- app_assoc, read_exact_app_n by done.
  rewrite Nat2Z.id, read_exact_app. fold ck. by rewrite bool_decide_true by done.
Qed.
(** A frame of which only some bytes came: the end of the stream, and no ban. *)
Lemma read_frame_torn magic f n addr tap c :
  length magic = 4%nat -> Z.of_nat (length (body f)) <= MAX_BODY_SIZE -> (n < length (encode magic f))%nat ->
  incoming c = take n (encode magic f) ->
  exists c', read_frame magic addr tap c = (Err StreamEof, c') /\ banned c' = banned c.
Proof.
  intros Hm Hb Hn Hi. unfold read_frame. rewrite Hi. rewrite encode_header in *.
  set (len := as_u32 _) in *. set (hd := header magic (code f) len) in *.
  pose proof (header_length magic (code f) len Hm) as Hh. fold hd in Hh.
  destruct (decide (n < 9)%nat) as [|H9].
  { rewrite (proj2 (read_exact_None _ _)); [by eexists|]. rewrite length_take. lia. }
  rewrite take_app, (take_ge hd), read_exact_app_n by (done || lia).
  destruct (header_fields magic (code f) len [] Hm) as (H1 & H2 & H3).
  rewrite app_nil_r in H1, H2, H3. fold hd in H1, H2, H3. rewrite H1, H2, H3.
  unfold len. rewrite encode_body_len by done.
  rewrite bool_decide_true by done. cbn [negb]. rewrite (proj2 (Z.ltb_ge _ _)) by done.
  rewrite length_app, Hh in Hn. destruct f as [fc b]. cbn [Frame.body Frame.code] in *.
  destruct b as [|x b]; [cbn in Hn; lia|].
  rewrite (bool_decide_false (x :: b = [])) in * by done.
  rewrite (proj2 (Z.eqb_neq _ _)) by (simpl; lia).
  pose proof (checksum_length (x :: b)) as Hc. set (ck := take 4 _) in *. rewrite length_app, Hc in Hn.
  cbn [incoming set_incoming]. rewrite Hh. destruct (decide (n - 9 < 4)%nat) as [|H4].
  { rewrite (proj2 (read_exact_None _ _)); [by eexists|]. rewrite length_take. lia. }
  rewrite take_app, (take_ge ck), read_exact_app_n by (done || lia). rewrite Nat2Z.id.
  rewrite (proj2 (read_exact_None _ _)); [by eexists|]. rewrite length_take, Hc. lia.
Qed.
End Digest.
End WithDigest.

(** The errors [read_frame] answers with a permanent ban. *)
Definition penalised (r : result frame_error frame) : bool :=
  match r with
  | Err BadMagic | Err (BodyTooLarge _) | Err ChecksumMismatch => true
  | _ => false
  end.

(** ** Properties *)

(** a frame written by [encode] is read back exactly, by the slice decoder
    and by the stream reader. The stream reader consumes precisely the frame's
    bytes, so the next frame starts where this one ended, bans nobody, and hands
    the capture tap the same wire bytes the writer produced. *)
Theorem frame_roundtrip blake2b256 magic f r addr tap c :
  (forall l, length (blake2b256 l) = 32%nat) ->
  length magic = 4%nat ->
  Z.of_nat (length (body f)) <= MAX_BODY_SIZE ->
  incoming c = encode blake2b256 magic f ++ r ->
  decode blake2b256 magic (incoming c) = Ok f /\
  read_frame blake2b256 magic addr tap c =
    (Ok f, capture tap (encode blake2b256 magic f) (set_incoming r c)).
Proof.
  intros Hd Hm Hb Hi. split.
  - rewrite Hi. by apply decode_encode_app.
  - by apply read_frame_encode.
Qed.

Lemma frame_roundtrip_witness :
  let blake l := replicate 32 (Z.of_nat (length l)) in
  let f := {| code := 55; body := [1; 2; 3] |} in
  let c := {| incoming := encode blake [1; 0; 2; 4] f ++ [9]; outgoing := [];
              banned := ∅; tapped := [] |} in
  decode blake [1; 0; 2; 4] (incoming c) = Ok f /\
  read_frame blake [1; 0; 2; 4] 17 true c =
    (Ok f, capture true (encode blake [1; 0; 2; 4] f) (set_incoming [9] c)).
Proof.
  intros blake f c.
  apply (frame_roundtrip blake [1; 0; 2; 4] f [9] 17 true c);
    [intros l; apply length_replicate | done | vm_compute; congruence | done].
Defined.

(** The session blacklist is a record of protocol violations only. One
    [read_frame] bans the peer exactly when it answers with a wrong magic, an
    oversized length or a checksum mismatch; on success, on a truncated stream
    and on every other outcome the banned set is untouched, and no address but
    the peer's is ever added. *)
Theorem read_frame_penalty blake2b256 magic addr tap c :
  let '(r, c') := read_frame blake2b256 magic addr tap c in
  banned c' = (if penalised r then {[addr]} ∪ banned c else banned c).
Proof.
  unfold read_frame, capture. repeat case_match; by simplify_eq.
Qed.

End Frame.
