(* ===== verification/Messages.v ===== *)
(** * P2P protocol messages

    Models p2p/src/protocol/messages.rs: the typed messages, their parse from
    and serialization to frames, and the bodies of INV, ModifierRequest and
    ModifierResponse with the caps that bound what a hostile peer can make the
    node allocate. The bodies of peer lists are in Handshake.v, with the codec of
    their entries. A modifier id is its 32 bytes. *)

From S2P Require Import Prelude Vlq Frame.
Import Vlq Frame.

Module Messages.

Definition MAX_INV_OBJECTS : Z := 400.

Definition modifier_id : Type := list Z.

Definition GET_PEERS : Z := 1.
Definition PEERS : Z := 2.
Definition MODIFIER_REQUEST : Z := 22.
Definition MODIFIER_RESPONSE : Z := 33.
Definition INV : Z := 55.
Definition SYNC_INFO : Z := 65.

Inductive protocol_message :=
| GetPeers
| Peers (body : list Z)
| Inv (modifier_type : Z) (ids : list modifier_id)
| ModifierRequest (modifier_type : Z) (ids : list modifier_id)
| ModifierResponse (modifier_type : Z) (modifiers : list (modifier_id * list Z))
| SyncInfo (body : list Z)
| Unknown (code : Z) (body : list Z).

Inductive msg_error :=
| Truncated
| BadVlq (e : vlq_error)
| CountExceedsCap (count : Z)
| PayloadExceedsBody (allocated : Z)
| InvalidUtf8.

(** [cursor.read_exact(..)?] and [vlq::read_vlq_length(..)?]. *)
Definition take_bytes (n : nat) (l : list Z) : result msg_error (list Z * list Z) :=
  ok_or (read_exact n l) Truncated.

Definition take_vlq_length (l : list Z) : result msg_error (Z * list Z) :=
  match read_vlq_length l with
  | Ok v => Ok v
  | Err UnexpectedEof => Err Truncated
  | Err e => Err (BadVlq e)
  end.

Fixpoint read_ids (count : nat) (l : list Z) : result msg_error (list modifier_id) :=
  match count with
  | O => Ok []
  | S count' =>
      let? (id, rest) := take_bytes 32 l in
      let? ids := read_ids count' rest in
      Ok (id :: ids)
  end.

Definition parse_inv_body (data : list Z) : result msg_error (Z * list modifier_id) :=
  let? (type_byte, rest) := take_bytes 1 data in
  let? (count, rest) := take_vlq_length rest in
  if MAX_INV_OBJECTS <? count then Err (CountExceedsCap count)
  else
    let? ids := read_ids (Z.to_nat count) rest in
    Ok (nth 0 type_byte 0, ids).

Definition encode_inv_body (modifier_type : Z) (ids : list modifier_id) : list Z :=
  write_vlq [modifier_type] (Z.of_nat (length ids)) ++ concat ids.

Fixpoint read_modifiers (count : nat) (body_size allocated : Z) (l : list Z) :
    result msg_error (list (modifier_id * list Z)) :=
  match count with
  | O => Ok []
  | S count' =>
      let? (id, rest) := take_bytes 32 l in
      let? (data_len, rest) := take_vlq_length rest in
      let allocated := sat_add_u64 allocated data_len in
      if body_size <? allocated then Err (PayloadExceedsBody allocated)
      else
        let? (mod_data, rest) := take_bytes (Z.to_nat data_len) rest in
        let? mods := read_modifiers count' body_size allocated rest in
        Ok ((id, mod_data) :: mods)
  end.

Definition parse_modifier_response_body (data : list Z) :
    result msg_error (Z * list (modifier_id * list Z)) :=
  let body_size := Z.of_nat (length data) in
  let? (type_byte, rest) := take_bytes 1 data in
  let? (count, rest) := take_vlq_length rest in
  if MAX_INV_OBJECTS <? count then Err (CountExceedsCap count)
  else
    let? mods := read_modifiers (Z.to_nat count) body_size 0 rest in
    Ok (nth 0 type_byte 0, mods).

Definition encode_modifier (m : modifier_id * list Z) : list Z :=
  write_vlq (m.1) (Z.of_nat (length (m.2))) ++ m.2.

Definition encode_modifier_response_body (modifier_type : Z)
    (modifiers : list (modifier_id * list Z)) : list Z :=
  write_vlq [modifier_type] (Z.of_nat (length modifiers)) ++ concat (encode_modifier <$> modifiers).

Definition from_frame (f : frame) : result msg_error protocol_message :=
  if code f =? GET_PEERS then Ok GetPeers
  else if code f =? PEERS then Ok (Peers (body f))
  else if code f =? INV then
    let? (modifier_type, ids) := parse_inv_body (body f) in Ok (Inv modifier_type ids)
  else if code f =? MODIFIER_REQUEST then
    let? (modifier_type, ids) := parse_inv_body (body f) in Ok (ModifierRequest modifier_type ids)
  else if code f =? MODIFIER_RESPONSE then
    let? (modifier_type, modifiers) := parse_modifier_response_body (body f) in
    Ok (ModifierResponse modifier_type modifiers)
  else if code f =? SYNC_INFO then Ok (SyncInfo (body f))
  else Ok (Unknown (code f) (body f)).

Definition to_frame (m : protocol_message) : frame :=
  match m with
  | GetPeers => {| code := GET_PEERS; body := [] |}
  | Peers b => {| code := PEERS; body := b |}
  | Inv t ids => {| code := INV; body := encode_inv_body t ids |}
  | ModifierRequest t ids => {| code := MODIFIER_REQUEST; body := encode_inv_body t ids |}
  | ModifierResponse t ms =>
      {| code := MODIFIER_RESPONSE; body := encode_modifier_response_body t ms |}
  | SyncInfo b => {| code := SYNC_INFO; body := b |}
  | Unknown c b => {| code := c; body := b |}
  end.

(** ** Lemmas *)

Lemma take_bytes_app n p r : length p = n -> take_bytes n (p ++ r) = Ok (p, r).
Proof. intros H. unfold take_bytes. by rewrite read_exact_app_n. Qed.

Lemma take_bytes_Ok n l p r : take_bytes n l = Ok (p, r) -> l = p ++ r /\ length p = n.
Proof.
  unfold take_bytes. destruct (read_exact n l) as [[??]|] eqn:E; cbn; [|done].
  intros [= <- <-]. by apply read_exact_Some.
Qed.

Lemma take_vlq_length_write v r :
  0 <= v <= MAX_VLQ_LENGTH -> take_vlq_length (write_vlq [] v ++ r) = Ok (v, r).
Proof. intros H. unfold take_vlq_length. by rewrite read_vlq_length_write. Qed.

Lemma take_vlq_length_Ok l v r :
  take_vlq_length l = Ok (v, r) ->
  0 <= v <= MAX_VLQ_LENGTH /\ exists p, l = p ++ r /\ (0 < length p)%nat.
Proof.
  unfold take_vlq_length. destruct (read_vlq_length l) as [[??]|e] eqn:E.
  - intros [= <- <-]. by apply read_vlq_length_range.
  - by destruct e.
Qed.

Lemma read_ids_concat ids r :
  Forall (fun id : modifier_id => length id = 32%nat) ids ->
  read_ids (length ids) (concat ids ++ r) = Ok ids.
Proof.
  induction 1 as [|id ids Hid _ IH]; [done|]. cbn.
  rewrite <- app_assoc, take_bytes_app by done. cbn. by rewrite IH.
Qed.

Lemma parse_inv_encode t ids :
  Z.of_nat (length ids) <= MAX_INV_OBJECTS ->
  Forall (fun id : modifier_id => length id = 32%nat) ids ->
  parse_inv_body (encode_inv_body t ids) = Ok (t, ids).
Proof.
  unfold MAX_INV_OBJECTS. intros Hc Hi. unfold parse_inv_body, encode_inv_body.
  rewrite write_vlq_app, <- app_assoc, take_bytes_app by done. cbn [result_bind].
  rewrite take_vlq_length_write by (unfold MAX_VLQ_LENGTH; lia). cbn [result_bind].
  unfold MAX_INV_OBJECTS. rewrite (proj2 (Z.ltb_ge _ _)) by lia.
  rewrite Nat2Z.id, <- (app_nil_r (concat ids)), read_ids_concat by done. done.
Qed.

Definition payload (ms : list (modifier_id * list Z)) : Z :=
  foldr (fun m acc => Z.of_nat (length (m.2)) + acc) 0 ms.

Lemma payload_cons id d ms : payload ((id, d) :: ms) = Z.of_nat (length d) + payload ms.
Proof. done. Qed.

Lemma payload_nonneg ms : 0 <= payload ms.
Proof. induction ms as [|[id d] ms IH]; [done|]. rewrite payload_cons. lia. Qed.

Definition modifier_ok (m : modifier_id * list Z) : Prop :=
  length (m.1) = 32%nat /\ Z.of_nat (length (m.2)) <= MAX_VLQ_LENGTH.

Lemma read_modifiers_concat ms size alloc :
  0 <= alloc -> alloc + payload ms <= size -> size <= U64_MAX -> Forall modifier_ok ms ->
  read_modifiers (length ms) size alloc (concat (encode_modifier <$> ms)) = Ok ms.
Proof.
  revert alloc. induction ms as [|[id d] ms IH]; intros alloc Ha Hs Hu Hok; [done|].
  inversion Hok as [|?? [Hid Hd] Hok']; subst. cbn [fst snd] in Hid, Hd. cbn [fmap list_fmap concat length].
  rewrite payload_cons in Hs.
  pose proof (payload_nonneg ms). cbn [read_modifiers]. unfold encode_modifier at 1.
  cbn [fst snd]. rewrite write_vlq_app, <- !app_assoc, take_bytes_app by done. cbn [result_bind].
  rewrite take_vlq_length_write by lia. cbn [result_bind].
  unfold sat_add_u64. rewrite Z.min_l by lia. rewrite (proj2 (Z.ltb_ge _ _)) by lia.
  rewrite Nat2Z.id, take_bytes_app by done. cbn [result_bind].
  by rewrite IH by (auto; lia).
Qed.

Lemma concat_payload ms :
  payload ms <= Z.of_nat (length (concat (encode_modifier <$> ms))).
Proof.
  induction ms as [|[id d] ms IH]; [done|]. rewrite payload_cons, fmap_cons. cbn [concat].
  unfold encode_modifier at 1. rewrite !length_app. cbn [snd]. lia.
Qed.

Lemma parse_response_encode t ms :
  Z.of_nat (length ms) <= MAX_INV_OBJECTS -> Forall modifier_ok ms ->
  Z.of_nat (length (encode_modifier_response_body t ms)) <= U64_MAX ->
  parse_modifier_response_body (encode_modifier_response_body t ms) = Ok (t, ms).
Proof.
  intros Hc Hok Hu. unfold parse_modifier_response_body.
  set (size := Z.of_nat (length (encode_modifier_response_body t ms))) in *.
  assert (Hp : payload ms <= size).
  { subst size. unfold encode_modifier_response_body. rewrite length_app.
    pose proof (concat_payload ms). lia. }
  unfold encode_modifier_response_body.
  rewrite write_vlq_app, <- app_assoc, take_bytes_app by done. cbn [result_bind].
  rewrite take_vlq_length_write by (unfold MAX_VLQ_LENGTH, MAX_INV_OBJECTS in *; lia).
  cbn [result_bind]. rewrite (proj2 (Z.ltb_ge _ _)) by done.
  rewrite Nat2Z.id, read_modifiers_concat by (done || lia). done.
Qed.

(** What the INV parser and the response parser let through. *)
Lemma read_ids_Ok n l ids :
  read_ids n l = Ok ids ->
  length ids = n /\ Forall (fun id : modifier_id => length id = 32%nat) ids.
Proof.
  revert l ids. induction n as [|n IH]; intros l ids; cbn; [by intros [= <-]|].
  destruct (take_bytes 32 l) as [[id rest]|] eqn:E; cbn; [|done].
  destruct (read_ids n rest) as [ids'|] eqn:E'; cbn; [|done]. intros [= <-].
  apply take_bytes_Ok in E as [_ ?]. apply IH in E' as [? ?]. split; [simpl; lia|by constructor].
Qed.

Lemma read_modifiers_Ok n size alloc l ms :
  0 <= alloc -> size < U64_MAX -> read_modifiers n size alloc l = Ok ms ->
  length ms = n /\ Forall (fun m : modifier_id * list Z => length (m.1) = 32%nat) ms /\
  (ms = [] \/ alloc + payload ms <= size).
Proof.
  revert alloc l ms. induction n as [|n IH]; intros alloc l ms Ha Hs; cbn.
  { intros [= <-]. auto. }
  destruct (take_bytes 32 l) as [[id rest]|] eqn:E; cbn; [|done].
  destruct (take_vlq_length rest) as [[len rest2]|] eqn:E2; cbn; [|done].
  case_match eqn:E3; [done|]. apply Z.ltb_ge in E3.
  destruct (take_bytes (Z.to_nat len) rest2) as [[d rest3]|] eqn:E4; cbn; [|done].
  destruct (read_modifiers n _ _ rest3) as [ms'|] eqn:E5; cbn; [|done]. intros [= <-].
  apply take_bytes_Ok in E as [_ ?], E4 as [_ ?].
  apply take_vlq_length_Ok in E2 as [? _].
  unfold sat_add_u64 in *. rewrite Z.min_l in E5 by lia.
  apply IH in E5 as (? & ? & Hor); [|lia|done].
  split_and!; [simpl; lia|by constructor|]. right. rewrite payload_cons.
  destruct Hor as [->|]; cbn; lia.
Qed.

(** The messages a node can put on the wire: every id is 32 bytes, every list is
    within the protocol cap, and an unknown code is really unknown. *)
Definition message_ok (m : protocol_message) : Prop :=
  match m with
  | Inv _ ids | ModifierRequest _ ids =>
      Z.of_nat (length ids) <= MAX_INV_OBJECTS /\
      Forall (fun id : modifier_id => length id = 32%nat) ids
  | ModifierResponse t ms =>
      Z.of_nat (length ms) <= MAX_INV_OBJECTS /\ Forall modifier_ok ms /\
      Z.of_nat (length (encode_modifier_response_body t ms)) <= U64_MAX
  | Unknown c _ =>
      c ∉ [GET_PEERS; PEERS; INV; MODIFIER_REQUEST; MODIFIER_RESPONSE; SYNC_INFO]
  | _ => True
  end.

(** ** Properties *)

(** typed messages round-trip through frames: for every well-formed message,
    parsing the frame it serializes to gives the same message back, the opaque
    bodies and unknown codes included. *)
Theorem message_roundtrip m : message_ok m -> from_frame (to_frame m) = Ok m.
Proof.
  destruct m as [|b|t ids|t ids|t ms|b|c b]; cbn [message_ok]; intros H; try done.
  - destruct H as [Hc Hi].
    change (from_frame _) with
      (let? (t, ids) := parse_inv_body (encode_inv_body t ids) in @Ok msg_error _ (Inv t ids)).
    by rewrite parse_inv_encode.
  - destruct H as [Hc Hi].
    change (from_frame _) with
      (let? (t, ids) := parse_inv_body (encode_inv_body t ids) in
       @Ok msg_error _ (ModifierRequest t ids)).
    by rewrite parse_inv_encode.
  - destruct H as (Hc & Hok & Hu).
    change (from_frame _) with
      (let? (t, ms) := parse_modifier_response_body (encode_modifier_response_body t ms) in
       @Ok msg_error _ (ModifierResponse t ms)).
    by rewrite parse_response_encode.
  - unfold from_frame. cbn [to_frame Frame.code Frame.body]. rewrite !not_elem_of_cons in H.
    destruct H as (H1 & H2 & H3 & H4 & H5 & H6 & _).
    apply Z.eqb_neq in H1, H2, H3, H4, H5, H6. by rewrite H1, H2, H3, H4, H5, H6.
Qed.

Lemma message_roundtrip_witness :
  let m := ModifierResponse 101 [(replicate 32 7, [1; 2]); (replicate 32 8, [])] in
  from_frame (to_frame m) = Ok m.
Proof.
  intros m. apply (message_roundtrip m). subst m. split_and!.
  - vm_compute. congruence.
  - repeat constructor; vm_compute; congruence.
  - vm_compute. congruence.
Defined.

(** A hostile peer cannot make the modifier parsers allocate beyond the
    protocol's bounds. Whatever the bytes, a body that parses as INV,
    ModifierRequest or ModifierResponse yields at most 400 entries, every id is 32
    bytes, and the modifier payloads together are no longer than the body that
    carried them. *)
Theorem parse_bounds data :
  Z.of_nat (length data) < U64_MAX ->
  match parse_inv_body data with
  | Ok (_, ids) =>
      Z.of_nat (length ids) <= MAX_INV_OBJECTS /\
      Forall (fun id : modifier_id => length id = 32%nat) ids
  | Err _ => True
  end /\
  match parse_modifier_response_body data with
  | Ok (_, ms) =>
      Z.of_nat (length ms) <= MAX_INV_OBJECTS /\
      Forall (fun m : modifier_id * list Z => length (m.1) = 32%nat) ms /\
      payload ms <= Z.of_nat (length data)
  | Err _ => True
  end.
Proof.
  intros Hu. unfold parse_inv_body, parse_modifier_response_body.
  destruct (take_bytes 1 data) as [[t rest]|]; cbn; [|done].
  destruct (take_vlq_length rest) as [[n rest2]|] eqn:E; cbn; [|done].
  apply take_vlq_length_Ok in E as [? _].
  destruct (MAX_INV_OBJECTS <? n) eqn:En; cbn; [done|]. apply Z.ltb_ge in En. split.
  - destruct (read_ids _ rest2) as [ids|] eqn:E; cbn; [|done].
    apply read_ids_Ok in E as [? ?]. split; [lia|done].
  - destruct (read_modifiers _ _ _ rest2) as [ms|] eqn:E; cbn; [|done].
    apply read_modifiers_Ok in E as (? & ? & Hor); [|lia|done].
    split_and!; [lia|done|]. destruct Hor as [->|]; cbn; lia.
Qed.

Lemma parse_bounds_witness :
  let data := encode_inv_body 2 [replicate 32 5] in
  parse_inv_body data = Ok (2, [replicate 32 5]) /\
  Z.of_nat (length [replicate 32 5]) <= MAX_INV_OBJECTS.
Proof.
  intros data. pose proof (parse_bounds data ltac:(vm_compute; congruence)) as [H _].
  split; [reflexivity|exact (proj1 H)].
Defined.

End Messages.
