(* ===== verification/Handshake.v ===== *)
(** * P2P handshakes, peer specifications and peer lists

    Models p2p/src/transport/handshake.rs, the types it uses from
    p2p/src/types.rs, the short strings of p2p/src/transport/vlq.rs, the byte-wise
    reader of p2p/src/transport/connection.rs and the peer-list bodies of
    p2p/src/protocol/messages.rs. The clock and the random session id are
    arguments. A [String] is its bytes, and [from_utf8] the check of RFC 3629. *)

From S2P Require Import Prelude Vlq Frame Messages.
Import Vlq Frame Messages.

Module Handshake.

(** ** Addresses, versions and networks *)

(** [std::net::IpAddr] by its octets, four or sixteen of them. *)
Inductive IpAddr :=
| V4 (octets : list Z)
| V6 (octets : list Z).

(** [std::net::SocketAddr]; flow label and scope id of a V6 address are zero for
    every address the source constructs. *)
Record SocketAddr := mk_addr { ip : IpAddr; port : Z }.

#[global] Instance IpAddr_eq_dec : EqDecision IpAddr.
Proof. solve_decision. Defined.

#[global] Instance SocketAddr_eq_dec : EqDecision SocketAddr.
Proof. solve_decision. Defined.

#[global] Instance IpAddr_countable : Countable IpAddr.
Proof.
  refine (inj_countable' (fun a => match a with V4 o => inl o | V6 o => inr o end)
            (fun s => match s with inl o => V4 o | inr o => V6 o end) _).
  by intros [].
Defined.

#[global] Instance SocketAddr_countable : Countable SocketAddr.
Proof.
  refine (inj_countable' (fun a => (ip a, port a)) (fun p => mk_addr p.1 p.2) _).
  by intros [].
Defined.

Record Version := mk_version { major : Z; minor : Z; patch : Z }.

Definition EIP37_MIN : Version := mk_version 4 0 100.

(** The derived [Ord] of [Version] is lexicographic. *)
Definition version_lt (a b : Version) : bool :=
  (major a <? major b)
  || (major a =? major b) && ((minor a <? minor b)
     || (minor a =? minor b) && (patch a <? patch b)).

Inductive Network := Mainnet | Testnet.

#[global] Instance Network_eq_dec : EqDecision Network.
Proof. solve_decision. Defined.

Definition magic (n : Network) : list Z :=
  match n with
  | Mainnet => [1; 0; 2; 4]
  | Testnet => [2; 3; 2; 3]
  end.

Inductive ProxyMode := Full | Light.

#[global] Instance ProxyMode_eq_dec : EqDecision ProxyMode.
Proof. solve_decision. Defined.

Inductive Direction := Outbound | Inbound.

#[global] Instance Direction_eq_dec : EqDecision Direction.
Proof. solve_decision. Defined.

Record ModeConfig := mk_mode { state_type_id : Z; verifying : bool; blocks_to_keep : Z }.

Record HandshakeConfig := mk_config {
  agent_name : list Z;
  peer_name : list Z;
  cfg_version : Version;
  network : Network;
  mode : ProxyMode;
  declared_address : option SocketAddr;
  mode_config : ModeConfig
}.

Record Feature := mk_feature { id : Z; fbody : list Z }.

Record PeerSpec := mk_spec {
  agent : list Z;
  version : Version;
  name : list Z;
  address : option SocketAddr;
  features : list Feature
}.

Definition FEATURE_MODE : Z := 16.
Definition FEATURE_SESSION : Z := 3.

(** ** Strings *)

Definition continuation (b : Z) : bool := (128 <=? b) && (b <=? 191).

Definition between (lo hi b : Z) : bool := (lo <=? b) && (b <=? hi).

(** [String::from_utf8] accepts exactly the well-formed sequences of RFC 3629. *)
Fixpoint utf8_valid (l : list Z) : bool :=
  match l with
  | [] => true
  | a :: l1 =>
      if a <? 128 then utf8_valid l1
      else match l1 with
      | [] => false
      | b :: l2 =>
          if between 194 223 a then continuation b && utf8_valid l2
          else match l2 with
          | [] => false
          | c :: l3 =>
              if (a =? 224) && between 160 191 b || between 225 236 a && continuation b
                 || (a =? 237) && between 128 159 b || between 238 239 a && continuation b
              then continuation c && utf8_valid l3
              else match l3 with
              | [] => false
              | d :: l4 =>
                  ((a =? 240) && between 144 191 b || between 241 243 a && continuation b
                   || (a =? 244) && between 128 143 b)
                  && continuation c && continuation d && utf8_valid l4
              end
          end
      end
  end.

(** The length byte is [s.len() as u8]; the assertion that it fits is absent from
    a release build. *)
Definition write_short_string (s : list Z) : list Z := as_u8 (Z.of_nat (length s)) :: s.

Definition read_short_string (l : list Z) : result msg_error (list Z * list Z) :=
  let? (len_byte, rest) := take_bytes 1 l in
  let? (bytes, rest) := take_bytes (Z.to_nat (nth 0 len_byte 0)) rest in
  if utf8_valid bytes then Ok (bytes, rest) else Err InvalidUtf8.

Definition take_vlq (l : list Z) : result msg_error (Z * list Z) :=
  match read_vlq l with
  | Ok v => Ok v
  | Err UnexpectedEof => Err Truncated
  | Err e => Err (BadVlq e)
  end.

(** ** Writing *)

Definition octets (a : IpAddr) : list Z := match a with V4 o | V6 o => o end.

Definition write_declared_address (addr : option SocketAddr) : list Z :=
  match addr with
  | None => [0]
  | Some a =>
      let ip_bytes := octets (ip a) in
      write_vlq (1 :: as_u8 (Z.of_nat (length ip_bytes) + 4) :: ip_bytes) (port a)
  end.

Definition write_feature (f : Feature) : list Z :=
  write_vlq [id f] (Z.of_nat (length (fbody f))) ++ fbody f.

Definition serialize_peer_entry (spec : PeerSpec) : list Z :=
  write_short_string (agent spec)
  ++ [major (version spec); minor (version spec); patch (version spec)]
  ++ write_short_string (name spec)
  ++ write_declared_address (address spec)
  ++ as_u8 (Z.of_nat (length (features spec)))
  :: concat (write_feature <$> features spec).

Definition build_mode_body (config : HandshakeConfig) : list Z :=
  let mc := mode_config config in
  let body := [state_type_id mc; if verifying mc then 1 else 0] in
  let body :=
    match mode config with
    | Full => body ++ [0]
    | Light => write_vlq (body ++ [1]) (zigzag_encode_i64 1)
    end in
  write_vlq body (zigzag_encode_i64 (blocks_to_keep mc)).

Definition build_session_body (n : Network) (rand_u64 : Z) : list Z :=
  let session_id := as_i64 rand_u64 in
  write_vlq (magic n) (zigzag_encode_i64 session_id).

Definition write_peer_entry_from_config (config : HandshakeConfig) (rand_u64 : Z) : list Z :=
  let mode_body := build_mode_body config in
  let session_body := build_session_body (network config) rand_u64 in
  write_short_string (agent_name config)
  ++ [major (cfg_version config); minor (cfg_version config); patch (cfg_version config)]
  ++ write_short_string (peer_name config)
  ++ write_declared_address (declared_address config)
  ++ [2]
  ++ write_vlq [FEATURE_MODE] (Z.of_nat (length mode_body)) ++ mode_body
  ++ write_vlq [FEATURE_SESSION] (Z.of_nat (length session_body)) ++ session_body.

Definition build (config : HandshakeConfig) (now rand_u64 : Z) : list Z :=
  write_vlq [] (as_u64 now) ++ write_peer_entry_from_config config rand_u64.

(** ** Reading *)

Definition parse_address (l : list Z) : result msg_error (option SocketAddr * list Z) :=
  let? (addr_len_byte, rest) := take_bytes 1 l in
  let ip_len := sat_sub (nth 0 addr_len_byte 0) 4 in
  let? (ip_bytes, rest) := take_bytes (Z.to_nat ip_len) rest in
  let? (p, rest) := take_vlq rest in
  let port := as_u16 p in
  if ip_len =? 4 then Ok (Some (mk_addr (V4 ip_bytes) port), rest)
  else if ip_len =? 16 then Ok (Some (mk_addr (V6 ip_bytes) port), rest)
  else Ok (None, rest).

Fixpoint read_features (feat_count : nat) (l : list Z) :
    result msg_error (list Feature * list Z) :=
  match feat_count with
  | O => Ok ([], l)
  | S n =>
      let? (fid, rest) := take_bytes 1 l in
      let? (flen, rest) := take_vlq_length rest in
      let? (body, rest) := take_bytes (Z.to_nat flen) rest in
      let? (fs, rest) := read_features n rest in
      Ok (mk_feature (nth 0 fid 0) body :: fs, rest)
  end.

Definition parse_features (l : list Z) : result msg_error (list Feature * list Z) :=
  let? (feat_count, rest) := take_bytes 1 l in
  read_features (Z.to_nat (nth 0 feat_count 0)) rest.

Definition read_declared (l : list Z) : result msg_error (option SocketAddr * list Z) :=
  let? (has_addr, rest) := take_bytes 1 l in
  if negb (nth 0 has_addr 0 =? 0) then parse_address rest else Ok (None, rest).

Definition parse_peer_entry (l : list Z) : result msg_error (PeerSpec * list Z) :=
  let? (agent, rest) := read_short_string l in
  let? (ver, rest) := take_bytes 3 rest in
  let version := mk_version (nth 0 ver 0) (nth 1 ver 0) (nth 2 ver 0) in
  let? (name, rest) := read_short_string rest in
  let? (address, rest) := read_declared rest in
  let? (features, rest) := parse_features rest in
  Ok (mk_spec agent version name address features, rest).

(** [parse] with what its cursor has left. *)
Definition parse_rest (data : list Z) : result msg_error (PeerSpec * list Z) :=
  let? (_, rest) := take_vlq data in
  parse_peer_entry rest.

Definition parse (data : list Z) : result msg_error PeerSpec :=
  let? (spec, _) := parse_rest data in Ok spec.

(** [measure_size] walks the handshake a second time; the position of its cursor
    is what it has consumed. *)
Fixpoint skip_features (feat_count : nat) (l : list Z) : result msg_error (list Z) :=
  match feat_count with
  | O => Ok l
  | S n =>
      let? (_, rest) := take_bytes 1 l in
      let? (flen, rest) := take_vlq_length rest in
      let? (_, rest) := take_bytes (Z.to_nat flen) rest in
      skip_features n rest
  end.

Definition skip_address (l : list Z) : result msg_error (list Z) :=
  let? (has_addr, rest) := take_bytes 1 l in
  if negb (nth 0 has_addr 0 =? 0) then
    let? (addr_len_byte, rest) := take_bytes 1 rest in
    let? (_, rest) := take_bytes (Z.to_nat (sat_sub (nth 0 addr_len_byte 0) 4)) rest in
    let? (_, rest) := take_vlq rest in
    Ok rest
  else Ok rest.

Definition measure_size (data : list Z) : result msg_error Z :=
  let? (_, rest) := take_vlq data in
  let? (_, rest) := read_short_string rest in
  let? (_, rest) := take_bytes 3 rest in
  let? (_, rest) := read_short_string rest in
  let? rest := skip_address rest in
  let? (feat_count, rest) := take_bytes 1 rest in
  let? rest := skip_features (Z.to_nat (nth 0 feat_count 0)) rest in
  Ok (Z.of_nat (length data) - Z.of_nat (length rest)).

(** ** Checking a peer *)

Inductive peer_refused :=
| VersionTooOld (v : Version)
| MagicMismatch (peer_magic : list Z).

Definition session (spec : PeerSpec) : option Feature :=
  find (fun f => id f =? FEATURE_SESSION) (features spec).

Definition validate_peer (spec : PeerSpec) (n : Network) : result peer_refused unit :=
  if version_lt (version spec) EIP37_MIN then Err (VersionTooOld (version spec))
  else
    match session spec with
    | Some f =>
        if (4 <=? length (fbody f))%nat && negb (bool_decide (take 4 (fbody f) = magic n))
        then Err (MagicMismatch (take 4 (fbody f))) else Ok tt
    | None => Ok tt
    end.

Definition rest_api_url (spec : PeerSpec) : option (list Z) :=
  match find (fun f => id f =? 4) (features spec) with
  | None => None
  | Some f =>
      match fbody f with
      | [] => None
      | len :: text =>
          if (S (length text) <? 1 + Z.to_nat len)%nat then None
          else
            let url := take (Z.to_nat len) text in
            if utf8_valid url then Some url else None
      end
  end.

(** ** The byte-wise reader of a connection *)

Definition HANDSHAKE_MAX_SIZE : Z := 8192.

Inductive handshake_error :=
| EmptyHandshake
| IncompleteHandshake
| HandshakeTooLarge
| HandshakeInvalid (e : msg_error).

(** The loop of [read_handshake]: one byte more per round until the bytes so far
    parse. Returns the specification, the number of bytes read and the bytes
    left in the stream. The stream is the whole of what the peer sends, so the
    loop ends with it. *)
Fixpoint read_handshake_loop (buf stream : list Z) :
    result handshake_error (PeerSpec * nat * list Z) :=
  match stream with
  | [] => Err (match buf with [] => EmptyHandshake | _ => IncompleteHandshake end)
  | byte :: stream' =>
      let buf := buf ++ [byte] in
      if HANDSHAKE_MAX_SIZE <? Z.of_nat (length buf) then Err HandshakeTooLarge
      else
        match parse buf with
        | Ok spec => Ok (spec, length buf, stream')
        | Err Truncated => read_handshake_loop buf stream'
        | Err e => Err (HandshakeInvalid e)
        end
  end.

Definition read_handshake (stream : list Z) :
    result handshake_error (PeerSpec * nat * list Z) :=
  read_handshake_loop [] stream.

(** What [Connection::outbound] and [Connection::inbound] do with the peer's side
    of the handshake: read it and check it. *)
Inductive connect_error :=
| ReadFailed (e : handshake_error)
| Refused (e : peer_refused).

Definition accept_peer (n : Network) (stream : list Z) :
    result connect_error (PeerSpec * nat * list Z) :=
  match read_handshake stream with
  | Err e => Err (ReadFailed e)
  | Ok (spec, bytes_read, rest) =>
      match validate_peer spec n with
      | Err e => Err (Refused e)
      | Ok _ => Ok (spec, bytes_read, rest)
      end
  end.

(** [Connection::outbound] speaks first; [Connection::inbound] answers only a peer
    it has accepted. Both return the bytes sent beside the result. The timeout
    around the read is not modelled. *)
Definition outbound (config : HandshakeConfig) (now rand_u64 : Z) (stream : list Z) :
    list Z * result connect_error (PeerSpec * nat * list Z) :=
  (build config now rand_u64, accept_peer (network config) stream).

Definition inbound (config : HandshakeConfig) (now rand_u64 : Z) (stream : list Z) :
    list Z * result connect_error (PeerSpec * nat * list Z) :=
  match accept_peer (network config) stream with
  | Err e => ([], Err e)
  | Ok r => (build config now rand_u64, Ok r)
  end.

(** ** Peer lists *)

Fixpoint read_peer_entries (count : nat) (l : list Z) : result msg_error (list PeerSpec) :=
  match count with
  | O => Ok []
  | S count' =>
      let? (p, rest) := parse_peer_entry l in
      let? ps := read_peer_entries count' rest in
      Ok (p :: ps)
  end.

Definition parse_peers_body (body : list Z) (cap : Z) : result msg_error (list PeerSpec) :=
  let? (count, rest) := take_vlq_length body in
  if cap <? count then Err (CountExceedsCap count)
  else read_peer_entries (Z.to_nat count) rest.

Definition build_peers_body (specs : list PeerSpec) : list Z :=
  write_vlq [] (Z.of_nat (length specs)) ++ concat (serialize_peer_entry <$> specs).

(** ** Streaming parsers

    A parser is streaming when it depends on the bytes it consumes only, and when
    more input changes neither its result nor an error other than the end of the
    input. *)

Definition streaming {A} (f : list Z -> result msg_error (A * list Z)) : Prop :=
  (forall l x r, f l = Ok (x, r) -> exists p, l = p ++ r /\ forall r', f (p ++ r') = Ok (x, r'))
  /\ (forall l r e, f l = Err e -> e <> Truncated -> f (l ++ r) = Err e).

Create HintDb streaming.

Lemma streaming_bind {A B} (f : list Z -> result msg_error (A * list Z))
    (g : A -> list Z -> result msg_error (B * list Z)) :
  streaming f -> (forall x, streaming (g x)) ->
  streaming (fun l => result_bind (f l) (fun p => let '(x, r) := p in g x r)).
Proof.
  intros [Hf Hfe] Hg. split.
  - intros l y r. destruct (f l) as [[x r1]|e] eqn:E; cbn; [|done]. intros H.
    destruct (Hf _ _ _ E) as (p & -> & Hp). destruct (proj1 (Hg x) _ _ _ H) as (q & -> & Hq).
    exists (p ++ q). rewrite app_assoc. split; [done|]. intros r'.
    rewrite <- app_assoc, Hp. apply Hq.
  - intros l r e. destruct (f l) as [[x r1]|e'] eqn:E; cbn; intros H He.
    + destruct (Hf _ _ _ E) as (p & -> & Hp). rewrite <- app_assoc, Hp. cbn.
      by apply (proj2 (Hg x)).
    + injection H as ->. by rewrite (Hfe _ r _ E He).
Qed.

Lemma streaming_ret {A} (x : A) : streaming (fun l => Ok (x, l)).
Proof. split; [|done]. intros l y r [= <- <-]. by exists []. Qed.

Lemma streaming_err {A} e : streaming (fun _ => @Err msg_error (A * list Z) e).
Proof. by split. Qed.

Lemma streaming_if {A} (b : bool) (f g : list Z -> result msg_error (A * list Z)) :
  streaming f -> streaming g -> streaming (fun l => if b then f l else g l).
Proof. by destruct b. Qed.

Lemma streaming_take_bytes n : streaming (take_bytes n).
Proof.
  split.
  - intros l x r [-> H]%take_bytes_Ok. exists x. split; [done|].
    intros r'. by apply take_bytes_app.
  - intros l r e. unfold take_bytes. destruct (read_exact n l); cbn; [done|].
    by intros [= <-].
Qed.

Lemma read_vlq_loop_streaming l acc shift :
  (forall v r, read_vlq_loop l acc shift = Ok (v, r) ->
     exists p, l = p ++ r /\ forall r', read_vlq_loop (p ++ r') acc shift = Ok (v, r'))
  /\ (forall r e, read_vlq_loop l acc shift = Err e -> e <> UnexpectedEof ->
     read_vlq_loop (l ++ r) acc shift = Err e).
Proof.
  revert acc shift. induction l as [|b l IH]; intros acc shift.
  { split; [done|]. cbn. by intros r e [= <-]. }
  cbn. set (acc' := Z.lor _ _). destruct (Z.land b 128 =? 0) eqn:Eb.
  { split; [|done]. intros v r [= <- <-]. exists [b]. split; [done|]. intros r'. cbn.
    by rewrite Eb. }
  destruct (63 <? shift + 7) eqn:Es; [split; done|].
  destruct (IH acc' (shift + 7)) as [IH1 IH2]. split; [|done].
  intros v r H. destruct (IH1 v r H) as (p & -> & Hp). exists (b :: p). split; [done|].
  intros r'. cbn. rewrite Eb, Es. apply Hp.
Qed.

Lemma streaming_take_vlq : streaming take_vlq.
Proof.
  unfold take_vlq, read_vlq. split.
  - intros l x r. destruct (read_vlq_loop_streaming l 0 0) as [H _].
    destruct (read_vlq_loop l 0 0) as [[v r1]|[]] eqn:E; intros [= -> ->].
    destruct (H x r eq_refl) as (p & -> & Hp). exists p. split; [done|]. intros r'.
    by rewrite Hp.
  - intros l r e. destruct (read_vlq_loop_streaming l 0 0) as [_ H].
    destruct (read_vlq_loop l 0 0) as [|e'] eqn:E; [done|]. specialize (H r e' eq_refl).
    destruct e'; intros [= <-] He; try done; by rewrite H.
Qed.

Lemma take_vlq_length_bind l :
  take_vlq_length l =
    let? (v, r) := take_vlq l in
    if MAX_VLQ_LENGTH <? v then Err (BadVlq (LengthTooLarge v)) else Ok (v, r).
Proof.
  unfold take_vlq_length, take_vlq, read_vlq_length.
  destruct (read_vlq l) as [[v r]|[]]; cbn; [|done..]. by destruct (_ <? v).
Qed.

Lemma streaming_ext {A} (f g : list Z -> result msg_error (A * list Z)) :
  (forall l, f l = g l) -> streaming f -> streaming g.
Proof.
  intros E [H1 H2]. split.
  - intros l x r. rewrite <- E. intros H. destruct (H1 _ _ _ H) as (p & -> & Hp).
    exists p. split; [done|]. intros r'. by rewrite <- E.
  - intros l r e. rewrite <- !E. apply H2.
Qed.

#[export] Hint Resolve streaming_ret streaming_err streaming_if streaming_take_bytes
  streaming_take_vlq : streaming.
#[export] Hint Extern 2 (streaming (fun l => result_bind _ _)) =>
  apply streaming_bind; [|intros ?] : streaming.

Lemma streaming_take_vlq_length : streaming take_vlq_length.
Proof.
  eapply streaming_ext; [intros l; symmetry; apply take_vlq_length_bind|].
  auto with streaming.
Qed.
#[export] Hint Resolve streaming_take_vlq_length : streaming.

Lemma streaming_short_string : streaming read_short_string.
Proof. unfold read_short_string. auto 7 with streaming. Qed.

Lemma streaming_address : streaming parse_address.
Proof. unfold parse_address. auto 10 with streaming. Qed.
#[export] Hint Resolve streaming_short_string streaming_address : streaming.

Lemma streaming_declared : streaming read_declared.
Proof. unfold read_declared. auto 7 with streaming. Qed.

Lemma streaming_read_features n : streaming (read_features n).
Proof. induction n as [|n IH]; cbn; auto 12 with streaming. Qed.
#[export] Hint Resolve streaming_declared streaming_read_features : streaming.

Lemma streaming_features : streaming parse_features.
Proof. unfold parse_features. auto with streaming. Qed.
#[export] Hint Resolve streaming_features : streaming.

Lemma streaming_entry : streaming parse_peer_entry.
Proof. unfold parse_peer_entry. auto 15 with streaming. Qed.
#[export] Hint Resolve streaming_entry : streaming.

Lemma streaming_parse : streaming parse_rest.
Proof. unfold parse_rest. auto with streaming. Qed.

(** ** Reading byte by byte *)

Lemma streaming_mono {A} (f : list Z -> result msg_error (A * list Z)) l x r t :
  streaming f -> f l = Ok (x, r) -> f (l ++ t) = Ok (x, r ++ t).
Proof.
  intros [Hf _] H. destruct (Hf _ _ _ H) as (p & -> & Hp). by rewrite <- app_assoc, Hp.
Qed.

(** When one byte more completes a parse, nothing is left over. *)
Lemma streaming_last {A} (f : list Z -> result msg_error (A * list Z)) b c x r :
  streaming f -> f b = Err Truncated -> f (b ++ [c]) = Ok (x, r) -> r = [].
Proof.
  intros Hf Ht H. destruct (proj1 Hf _ _ _ H) as (p & E & Hp).
  destruct r as [|y r _] using rev_ind; [done|]. exfalso.
  rewrite app_assoc in E. apply app_inj_tail in E as [-> ->].
  rewrite (Hp r) in Ht. done.
Qed.

(** What the loop returns, by one parse of the bytes within the size limit. *)
Definition read_spec (buf stream : list Z) : result handshake_error (PeerSpec * nat * list Z) :=
  let room := (Z.to_nat HANDSHAKE_MAX_SIZE - length buf)%nat in
  let data := buf ++ take room stream in
  match parse_rest data with
  | Ok (spec, rest) => Ok (spec, (length data - length rest)%nat, rest ++ drop room stream)
  | Err Truncated =>
      if HANDSHAKE_MAX_SIZE <? Z.of_nat (length (buf ++ stream)) then Err HandshakeTooLarge
      else Err (match buf ++ stream with [] => EmptyHandshake | _ => IncompleteHandshake end)
  | Err e => Err (HandshakeInvalid e)
  end.

Lemma read_handshake_loop_spec stream buf :
  parse_rest buf = Err Truncated -> Z.of_nat (length buf) <= HANDSHAKE_MAX_SIZE ->
  read_handshake_loop buf stream = read_spec buf stream.
Proof.
  revert buf. induction stream as [|c s IH]; intros buf Ht Hl; unfold read_spec.
  { rewrite take_nil, !app_nil_r, Ht, (proj2 (Z.ltb_ge _ _) Hl). by destruct buf. }
  remember (Z.to_nat HANDSHAKE_MAX_SIZE) as lim eqn:El.
  cbn [read_handshake_loop]. rewrite length_app. cbn [length].
  destruct (HANDSHAKE_MAX_SIZE <? Z.of_nat (length buf + 1)) eqn:Em.
  { apply Z.ltb_lt in Em.
    replace (lim - length buf)%nat with 0%nat by lia.
    rewrite app_nil_r, Ht, length_app. cbn [length].
    by rewrite (proj2 (Z.ltb_lt _ _)) by lia. }
  apply Z.ltb_ge in Em.
  assert (Er : (lim - length buf
                = S (lim - length (buf ++ [c])))%nat).
  { rewrite length_app. cbn [length]. lia. }
  rewrite Er, firstn_cons, skipn_cons. set (n := (_ - length (buf ++ [c]))%nat).
  rewrite (cons_middle c buf (take n s)), (cons_middle c buf s), !(app_assoc buf [c]).
  destruct (parse_rest (buf ++ [c])) as [[spec r]|e] eqn:Ep.
  - clearbody n. pose proof (streaming_last _ _ _ _ _ streaming_parse Ht Ep) as ->.
    rewrite (streaming_mono _ _ _ _ (take n s) streaming_parse Ep).
    unfold parse. rewrite Ep. cbn [result_bind length app]. rewrite take_drop, !length_app. cbn [length].
    do 3 f_equal. lia.
  - unfold parse. rewrite Ep. cbn [result_bind]. destruct e.
    { rewrite IH; [unfold read_spec; rewrite <- El; fold n; reflexivity|done|]. rewrite length_app. cbn [length]. lia. }
    all: by rewrite (proj2 streaming_parse _ (take n s) _ Ep).
Qed.

(** The byte-wise handshake reader of a connection is equivalent to one parse of
    the first 8192 bytes. It succeeds exactly when they hold a handshake, reports how
    many bytes that handshake has, and leaves every byte after it in the stream for
    the first frame; it fails as too large exactly when 8192 bytes are not enough. *)
Theorem read_handshake_equiv stream :
  read_handshake stream =
    let limit := Z.to_nat HANDSHAKE_MAX_SIZE in
    let data := take limit stream in
    match parse_rest data with
    | Ok (spec, rest) => Ok (spec, (length data - length rest)%nat, rest ++ drop limit stream)
    | Err Truncated =>
        if HANDSHAKE_MAX_SIZE <? Z.of_nat (length stream) then Err HandshakeTooLarge
        else Err (match stream with [] => EmptyHandshake | _ => IncompleteHandshake end)
    | Err e => Err (HandshakeInvalid e)
    end.
Proof.
  unfold read_handshake. rewrite read_handshake_loop_spec by done. unfold read_spec.
  cbn [app length]. by rewrite Nat.sub_0_r.
Qed.

(** ** Round trips *)

Definition short_ok (s : list Z) : Prop := utf8_valid s = true /\ (length s <= 255)%nat.

Definition addr_ok (a : SocketAddr) : Prop :=
  is_u16 (port a) /\
  match ip a with
  | V4 o => length o = 4%nat
  | V6 o => length o = 16%nat
  end.

Definition feature_ok (f : Feature) : Prop := Z.of_nat (length (fbody f)) <= MAX_VLQ_LENGTH.

Definition spec_ok (s : PeerSpec) : Prop :=
  short_ok (agent s) /\ short_ok (name s) /\ from_option addr_ok True (address s)
  /\ (length (features s) <= 255)%nat /\ Forall feature_ok (features s).

Lemma read_write_short_string s r :
  short_ok s -> read_short_string (write_short_string s ++ r) = Ok (s, r).
Proof.
  intros [Hu Hl]. unfold read_short_string, write_short_string.
  change ((?a :: s) ++ r) with ([a] ++ (s ++ r)). rewrite take_bytes_app by done. cbn [result_bind nth].
  rewrite take_bytes_app; [cbn; by rewrite Hu|]. unfold as_u8.
  rewrite Z.mod_small by lia. lia.
Qed.

Lemma take_vlq_write v r : is_u64 v -> take_vlq (write_vlq [] v ++ r) = Ok (v, r).
Proof. intros H. unfold take_vlq. by rewrite read_vlq_write. Qed.

Lemma read_write_declared a r :
  from_option addr_ok True a -> read_declared (write_declared_address a ++ r) = Ok (a, r).
Proof.
  unfold read_declared, write_declared_address.
  destruct a as [[[o|o] pt]|]; cbn [from_option]; [intros [Hp Ho]..|]; cbn [ip octets port] in *.
  3: { intros _. by rewrite take_bytes_app. }
  all: rewrite write_vlq_app, <- app_assoc;
    change (1 :: as_u8 _ :: o) with ([1] ++ [as_u8 (Z.of_nat (length o) + 4)] ++ o);
    rewrite Ho, <- !app_assoc, take_bytes_app by done; cbn [result_bind nth Z.eqb negb];
    unfold parse_address; rewrite take_bytes_app by done; cbn [result_bind nth];
    rewrite take_bytes_app by done; cbn [result_bind];
    rewrite take_vlq_write by (int_unfold; lia); cbn [result_bind];
    cbn; unfold as_u16; rewrite Z.mod_small by (int_unfold; lia); done.
Qed.

Lemma read_write_features fs r :
  Forall feature_ok fs ->
  read_features (length fs) (concat (write_feature <$> fs) ++ r) = Ok (fs, r).
Proof.
  induction 1 as [|f fs Hf _ IH]; [done|]. unfold feature_ok in Hf.
  change (length (f :: fs)) with (S (length fs)).
  change (concat (write_feature <$> f :: fs))
    with (write_feature f ++ concat (write_feature <$> fs)).
  cbn [read_features]. unfold write_feature at 1. rewrite write_vlq_app, <- !app_assoc.
  rewrite take_bytes_app by done. cbn [result_bind nth].
  rewrite take_vlq_length_write by lia. cbn [result_bind].
  rewrite take_bytes_app by lia. cbn [result_bind]. rewrite IH. by destruct f.
Qed.

Lemma parse_features_write fs r :
  (length fs <= 255)%nat -> Forall feature_ok fs ->
  parse_features (as_u8 (Z.of_nat (length fs)) :: concat (write_feature <$> fs) ++ r) = Ok (fs, r).
Proof.
  intros Hl Hf. unfold parse_features.
  change (?a :: ?l) with ([a] ++ l). rewrite take_bytes_app by done. cbn [result_bind nth].
  unfold as_u8. rewrite Z.mod_small, Nat2Z.id by lia. by apply read_write_features.
Qed.

Lemma parse_serialize_entry s r :
  spec_ok s -> parse_peer_entry (serialize_peer_entry s ++ r) = Ok (s, r).
Proof.
  intros (Ha & Hn & Hd & Hl & Hf). unfold parse_peer_entry, serialize_peer_entry.
  rewrite <- !app_assoc, read_write_short_string by done. cbn [result_bind].
  rewrite take_bytes_app by done. cbn [result_bind].
  rewrite read_write_short_string by done. cbn [result_bind].
  rewrite read_write_declared by done. cbn [result_bind].
  cbn [app]. rewrite parse_features_write by done. by destruct s as [? [] ? ? ?].
Qed.

Lemma parse_build_peers specs cap r :
  Forall spec_ok specs -> Z.of_nat (length specs) <= cap ->
  Z.of_nat (length specs) <= MAX_VLQ_LENGTH ->
  parse_peers_body (build_peers_body specs ++ r) cap = Ok specs.
Proof.
  intros Hs Hc Hm. unfold parse_peers_body, build_peers_body.
  rewrite <- app_assoc, take_vlq_length_write by lia. cbn [result_bind].
  rewrite (proj2 (Z.ltb_ge _ _) Hc), Nat2Z.id. clear Hc Hm.
  induction Hs as [|s specs Hs _ IH]; [done|].
  change (length (s :: specs)) with (S (length specs)).
  change (concat (serialize_peer_entry <$> s :: specs))
    with (serialize_peer_entry s ++ concat (serialize_peer_entry <$> specs)).
  cbn [read_peer_entries]. rewrite <- app_assoc, parse_serialize_entry by done. cbn [result_bind].
  by rewrite IH.
Qed.

(** The specification a node describes itself with. *)
Definition spec_of (c : HandshakeConfig) (rand_u64 : Z) : PeerSpec :=
  mk_spec (agent_name c) (cfg_version c) (peer_name c) (declared_address c)
    [mk_feature FEATURE_MODE (build_mode_body c);
     mk_feature FEATURE_SESSION (build_session_body (network c) rand_u64)].

Definition config_ok (c : HandshakeConfig) : Prop :=
  short_ok (agent_name c) /\ short_ok (peer_name c)
  /\ from_option addr_ok True (declared_address c).

Lemma entry_from_config c rnd :
  write_peer_entry_from_config c rnd = serialize_peer_entry (spec_of c rnd).
Proof.
  unfold write_peer_entry_from_config, serialize_peer_entry, spec_of, write_feature. cbn.
  rewrite app_nil_r, <- !app_assoc. done.
Qed.

Lemma write_vlq_length buf v :
  (length buf < length (write_vlq buf v) <= length buf + 10)%nat.
Proof.
  unfold write_vlq. rewrite length_app.
  pose proof (write_vlq_loop_length 10 v ltac:(lia)). lia.
Qed.

Lemma mode_body_length c : (length (build_mode_body c) <= 23)%nat.
Proof.
  unfold build_mode_body.
  set (b := match mode c with Full => _ | Light => _ end).
  assert (length b <= 13)%nat.
  { subst b. destruct (mode c); [simpl; lia|].
    pose proof (write_vlq_length ([state_type_id (mode_config c);
      if verifying (mode_config c) then 1 else 0] ++ [1]) (zigzag_encode_i64 1)) as H.
    simpl in *. lia. }
  pose proof (write_vlq_length b (zigzag_encode_i64 (blocks_to_keep (mode_config c)))). lia.
Qed.

Lemma session_body_length n rnd : (4 < length (build_session_body n rnd) <= 14)%nat.
Proof.
  unfold build_session_body.
  pose proof (write_vlq_length (magic n) (zigzag_encode_i64 (as_i64 rnd))) as H.
  replace (length (magic n)) with 4%nat in H by (by destruct n). lia.
Qed.

Lemma spec_of_ok c rnd : config_ok c -> spec_ok (spec_of c rnd).
Proof.
  intros (Ha & Hp & Hd). split_and!; [done..|simpl; lia|].
  pose proof (mode_body_length c). pose proof (session_body_length (network c) rnd).
  repeat constructor; unfold feature_ok, MAX_VLQ_LENGTH; simpl; lia.
Qed.

Lemma declared_length a : from_option addr_ok True a ->
  (length (write_declared_address a) <= 28)%nat.
Proof.
  destruct a as [[i pt]|]; [|simpl; lia]. intros [_ Ho]. cbn [ip port] in *.
  unfold write_declared_address. cbn [ip port]. cbv zeta.
  pose proof (write_vlq_length (1 :: as_u8 (Z.of_nat (length (octets i)) + 4) :: octets i) pt) as H.
  cbn [length] in H. destruct i; cbn [octets] in *; lia.
Qed.

Lemma build_length c now rnd : config_ok c -> (length (build c now rnd) <= 700)%nat.
Proof.
  intros ((_ & Ha) & (_ & Hp) & Hd). unfold build, write_peer_entry_from_config.
  pose proof (declared_length _ Hd). pose proof (mode_body_length c).
  pose proof (session_body_length (network c) rnd).
  pose proof (write_vlq_length [] (as_u64 now)).
  pose proof (write_vlq_length [FEATURE_MODE] (Z.of_nat (length (build_mode_body c)))).
  pose proof (write_vlq_length [FEATURE_SESSION]
                (Z.of_nat (length (build_session_body (network c) rnd)))).
  unfold write_short_string. rewrite !length_app. cbn [length] in *. lia.
Qed.

Lemma parse_build c now rnd r :
  config_ok c -> parse_rest (build c now rnd ++ r) = Ok (spec_of c rnd, r).
Proof.
  intros Hc. unfold parse_rest, build. rewrite entry_from_config, <- app_assoc.
  rewrite take_vlq_write by apply as_u64_range. cbn [result_bind].
  by apply parse_serialize_entry, spec_of_ok.
Qed.

Lemma read_build c now rnd r :
  config_ok c ->
  read_handshake (build c now rnd ++ r) =
    Ok (spec_of c rnd, length (build c now rnd), r).
Proof.
  intros Hc. pose proof (build_length c now rnd Hc) as Hl.
  unfold read_handshake. rewrite read_handshake_loop_spec by done. unfold read_spec.
  cbn [app length]. rewrite Nat.sub_0_r, take_app_ge, parse_build, drop_app_ge, length_app
    by (done || (unfold HANDSHAKE_MAX_SIZE; lia)).
  rewrite take_drop. do 3 f_equal. lia.
Qed.

(** At least version 4.0.100. *)
Definition recent (v : Version) : Prop :=
  4 < major v \/ major v = 4 /\ (0 < minor v \/ minor v = 0 /\ 100 <= patch v).

Lemma recent_spec v : version_lt v EIP37_MIN = false <-> recent v.
Proof.
  unfold version_lt, recent. cbn [major minor patch EIP37_MIN].
  rewrite orb_false_iff, andb_false_iff, orb_false_iff, andb_false_iff, !Z.ltb_ge, !Z.eqb_neq. lia.
Qed.

#[global] Instance recent_dec v : Decision (recent v).
Proof. destruct (version_lt v EIP37_MIN) eqn:E; [right|left; by apply recent_spec]. intros H%recent_spec. congruence. Defined.

(** What a node makes of a configuration it is shown, when it is on network [n]. *)
Definition judged {A} (c : HandshakeConfig) (n : Network) (learned : A) (r : result connect_error A) : Prop :=
  if decide (recent (cfg_version c)) then
    if decide (network c = n) then r = Ok learned
    else r = Err (Refused (MagicMismatch (magic (network c))))
  else r = Err (Refused (VersionTooOld (cfg_version c))).

Lemma accept_build n c now rnd r :
  config_ok c -> judged c n (spec_of c rnd, length (build c now rnd), r) (accept_peer n (build c now rnd ++ r)).
Proof.
  intros Hc. unfold judged, accept_peer. rewrite read_build by done. unfold validate_peer, session.
  cbn [version spec_of features find id FEATURE_MODE FEATURE_SESSION Z.eqb Pos.eqb fbody].
  destruct (decide (recent (cfg_version c))) as [Hr|Hr].
  - apply recent_spec in Hr. rewrite Hr. pose proof (session_body_length (network c) rnd).
    rewrite (proj2 (Nat.leb_le _ _)) by lia.
    assert (take 4 (build_session_body (network c) rnd) = magic (network c)) as ->.
    { unfold build_session_body, write_vlq. by destruct (network c). }
    by destruct (network c), n.
  - destruct (version_lt (cfg_version c) EIP37_MIN) eqn:E; [done|]. by apply recent_spec in E.
Qed.

(** C16: Two nodes that dial each other agree on their handshake. Whatever the two
    configurations, each side accepts the other exactly when the other's version is at
    least 4.0.100 and both are on one network; it then has learned exactly what the other
    is configured with, and whatever follows the handshake is still in the stream. A peer
    that is too old or on another network is refused with that reason. The listener
    answers a dialer it accepts, and does not say a word to one it refuses. *)
Theorem handshake_agreed (a b : HandshakeConfig) (t1 t2 r1 r2 : Z) (more_a more_b : list Z) :
  config_ok a -> config_ok b ->
  let (sent_b, at_b) := inbound b t2 r2 ((outbound a t1 r1 []).1 ++ more_a) in
  let (sent_a, at_a) := outbound a t1 r1 (build b t2 r2 ++ more_b) in
  judged a (network b) (spec_of a r1, length sent_a, more_a) at_b /\
  judged b (network a) (spec_of b r2, length (build b t2 r2), more_b) at_a /\
  sent_b = (if decide (recent (cfg_version a) /\ network a = network b) then build b t2 r2 else []).
Proof.
  intros Ha Hb. unfold inbound, outbound. cbn [fst].
  pose proof (accept_build (network b) a t1 r1 more_a Ha) as Hab.
  pose proof (accept_build (network a) b t2 r2 more_b Hb) as Hba.
  assert ((if decide (recent (cfg_version a) /\ network a = network b) then build b t2 r2 else []) =
    match accept_peer (network b) (build a t1 r1 ++ more_a) with Ok _ => build b t2 r2 | Err _ => [] end) as ->.
  { unfold judged in Hab. repeat case_decide; rewrite Hab; try done; tauto. }
  destruct (accept_peer (network b) _); by split_and!.
Qed.

(** ** Well-typed results *)

(** On bytes, [f] returns values with [P] and leaves bytes. *)
Definition yields {A} (f : list Z -> result msg_error (A * list Z)) (P : A -> Prop) : Prop :=
  forall l x r, bytes_ok l -> f l = Ok (x, r) -> P x /\ bytes_ok r.

Lemma yields_bind {A B} (f : list Z -> result msg_error (A * list Z))
    (g : A -> list Z -> result msg_error (B * list Z)) P Q :
  yields f P -> (forall x, P x -> yields (g x) Q) ->
  yields (fun l => result_bind (f l) (fun p => let '(x, r) := p in g x r)) Q.
Proof.
  intros Hf Hg l y r Hl. destruct (f l) as [[x r1]|] eqn:E; cbn; [|done]. intros H.
  destruct (Hf _ _ _ Hl E) as [Hx Hr]. by apply (Hg x Hx r1).
Qed.

Lemma yields_ret {A} (x : A) (P : A -> Prop) : P x -> yields (fun l => Ok (x, l)) P.
Proof. intros Hx l y r Hl [= <- <-]. done. Qed.

Lemma yields_take_bytes n : yields (take_bytes n) (fun b => bytes_ok b /\ length b = n).
Proof. intros l x r Hl [-> Hn]%take_bytes_Ok. apply Forall_app in Hl as [? ?]. done. Qed.

Lemma yields_suffix {A} (f : list Z -> result msg_error (A * list Z)) (P : A -> Prop) :
  streaming f -> (forall l x r, f l = Ok (x, r) -> P x) -> yields f P.
Proof.
  intros [Hs _] HP l x r Hl E. split; [by eapply HP|].
  destruct (Hs _ _ _ E) as (p & -> & _). by apply Forall_app in Hl as [_ ?].
Qed.

Lemma yields_take_vlq : yields take_vlq (fun _ => True).
Proof. by apply yields_suffix; [apply streaming_take_vlq|]. Qed.

Lemma yields_take_vlq_length : yields take_vlq_length (fun v => 0 <= v <= MAX_VLQ_LENGTH).
Proof.
  apply yields_suffix; [apply streaming_take_vlq_length|].
  by intros l x r [? _]%take_vlq_length_Ok.
Qed.

Lemma byte_range b n : bytes_ok b /\ length b = S n -> is_u8 (nth 0 b 0).
Proof. intros [H Hn]. destruct H; [done|]. done. Qed.

Definition string_typed (s : list Z) : Prop := bytes_ok s /\ short_ok s.

Definition addr_typed (a : SocketAddr) : Prop := addr_ok a /\ bytes_ok (octets (ip a)).

Definition feature_typed (f : Feature) : Prop :=
  is_u8 (id f) /\ bytes_ok (fbody f) /\ feature_ok f.

Definition version_typed (v : Version) : Prop :=
  is_u8 (major v) /\ is_u8 (minor v) /\ is_u8 (patch v).

Definition spec_typed (s : PeerSpec) : Prop :=
  string_typed (agent s) /\ version_typed (version s) /\ string_typed (name s)
  /\ from_option addr_typed True (address s)
  /\ (length (features s) <= 255)%nat /\ Forall feature_typed (features s).

Lemma spec_typed_ok s : spec_typed s -> spec_ok s.
Proof.
  intros ([_ ?] & _ & [_ ?] & Ha & ? & Hf). split_and!; try done.
  - by destruct (address s); [destruct Ha|].
  - eapply Forall_impl; [exact Hf|]. by intros f (_ & _ & ?).
Qed.

Lemma yields_short_string : yields read_short_string string_typed.
Proof.
  unfold read_short_string. eapply yields_bind; [apply yields_take_bytes|].
  intros len Hlen. apply byte_range in Hlen. eapply yields_bind; [apply yields_take_bytes|].
  intros b [Hb Hl]. destruct (utf8_valid b) eqn:E; [|done].
  apply yields_ret. split; [done|]. split; [done|]. int_unfold. lia.
Qed.

Lemma as_u16_range x : is_u16 (as_u16 x).
Proof. unfold as_u16, is_u16, U16_MAX. pose proof (Z.mod_pos_bound x (2 ^ 16)). lia. Qed.

Lemma yields_declared : yields read_declared (from_option addr_typed True).
Proof.
  unfold read_declared, parse_address. eapply yields_bind; [apply yields_take_bytes|].
  intros has _. case_match; [|by apply yields_ret].
  eapply yields_bind; [apply yields_take_bytes|]. intros len Hlen. apply byte_range in Hlen.
  eapply yields_bind; [apply yields_take_bytes|]. intros o [Ho Hl].
  eapply yields_bind; [apply yields_take_vlq|]. intros p _. pose proof (as_u16_range p).
  case_match eqn:E4; [|case_match eqn:E16; [|by apply yields_ret]];
    apply yields_ret; (split; [split; [done|]|done]); apply Z.eqb_eq in E4 || apply Z.eqb_eq in E16;
    cbn [ip]; lia.
Qed.

Lemma yields_features : yields parse_features
  (fun fs => (length fs <= 255)%nat /\ Forall feature_typed fs).
Proof.
  unfold parse_features. eapply yields_bind; [apply yields_take_bytes|].
  intros c Hc. apply byte_range in Hc. int_unfold.
  assert (H : forall n, yields (read_features n) (fun fs => length fs = n /\ Forall feature_typed fs)).
  { induction n as [|n IH]; cbn [read_features]; [apply yields_ret; auto|].
    eapply yields_bind; [apply yields_take_bytes|]. intros i Hi. apply byte_range in Hi.
    eapply yields_bind; [apply yields_take_vlq_length|]. intros len Hlen.
    eapply yields_bind; [apply yields_take_bytes|]. intros b [Hb Hl].
    eapply yields_bind; [apply IH|]. intros fs [Hfs Hall]. apply yields_ret.
    split; [simpl; lia|]. constructor; [|done]. split_and!; [done..|].
    unfold feature_ok. cbn beta in Hlen. cbn [fbody]. lia. }
  intros l fs r Hl E. destruct (H _ _ _ _ Hl E) as [[Hn Hf] Hr]. split; [|done]. split; [lia|done].
Qed.

Lemma yields_entry : yields parse_peer_entry spec_typed.
Proof.
  unfold parse_peer_entry. eapply yields_bind; [apply yields_short_string|]. intros ag Hag.
  eapply yields_bind; [apply yields_take_bytes|]. intros v [Hv Hl].
  eapply yields_bind; [apply yields_short_string|]. intros nm Hnm.
  eapply yields_bind; [apply yields_declared|]. intros ad Had.
  eapply yields_bind; [apply yields_features|]. intros fs [Hn Hf]. apply yields_ret.
  destruct v as [|v1 [|v2 [|v3 [|]]]]; try done.
  inversion Hv as [|??? Hv2]; subst. inversion Hv2 as [|??? Hv3]; subst. inversion Hv3; subst.
  by split_and!.
Qed.

(** Every peer specification parsed from bytes, of a handshake or of a gossiped peer
    list, is well typed: valid UTF-8 names of at most 255 bytes, byte-sized versions
    and feature ids, an address of four or sixteen octets with a 16-bit port, at most
    255 features within the length cap. A specification that was parsed can be passed
    on: its serialization parses back to it and to nothing else. *)
Theorem parsed_spec_typed data s r t :
  bytes_ok data -> parse_peer_entry data = Ok (s, r) ->
  spec_typed s /\ bytes_ok r /\ parse_peer_entry (serialize_peer_entry s ++ t) = Ok (s, t).
Proof.
  intros Hd E. destruct (yields_entry _ _ _ Hd E) as [Hs Hr]. split_and!; [done..|].
  by apply parse_serialize_entry, spec_typed_ok.
Qed.

Lemma yields_peer_list n l ps :
  bytes_ok l -> read_peer_entries n l = Ok ps -> Forall spec_typed ps.
Proof.
  revert l ps. induction n as [|n IH]; intros l ps Hl; cbn; [by intros [= <-]|].
  destruct (parse_peer_entry l) as [[p r]|] eqn:E; cbn; [|done].
  destruct (yields_entry _ _ _ Hl E) as [Hp Hr].
  destruct (read_peer_entries n r) as [qs|] eqn:E2; cbn; [|done]. intros [= <-].
  constructor; [done|]. by apply (IH r).
Qed.

Lemma skip_features_spec n l : skip_features n l = let? (_, r) := read_features n l in Ok r.
Proof.
  revert l. induction n as [|n IH]; intros l; [done|]. cbn.
  destruct (take_bytes 1 l) as [[v1 m1]|]; cbn; [|done].
  destruct (take_vlq_length m1) as [[len m2]|]; cbn; [|done].
  destruct (take_bytes _ m2) as [[v2 m3]|]; cbn; [|done].
  rewrite IH. by destruct (read_features n m3) as [[??]|].
Qed.

Lemma skip_address_spec l : skip_address l = let? (_, r) := read_declared l in Ok r.
Proof.
  unfold skip_address, read_declared, parse_address.
  destruct (take_bytes 1 l) as [[c m1]|]; cbn [result_bind]; [|done].
  destruct (negb _); [|done].
  destruct (take_bytes 1 m1) as [[k m2]|]; cbn [result_bind]; [|done].
  destruct (take_bytes _ m2) as [[v3 m3]|]; cbn [result_bind]; [|done].
  destruct (take_vlq m3) as [[v4 m4]|]; cbn [result_bind]; [|done].
  by destruct (_ =? 4); [|destruct (_ =? 16)].
Qed.

(** [measure_size] agrees with [parse] on every input, errors included. *)
Lemma measure_size_exact data :
  measure_size data =
    let? (_, rest) := parse_rest data in
    Ok (Z.of_nat (length data) - Z.of_nat (length rest)).
Proof.
  unfold measure_size, parse_rest, parse_peer_entry, parse_features.
  destruct (take_vlq data) as [[v5 l1]|]; cbn [result_bind]; [|done].
  destruct (read_short_string l1) as [[v6 l2]|]; cbn [result_bind]; [|done].
  destruct (take_bytes 3 l2) as [[v7 l3]|]; cbn [result_bind]; [|done].
  destruct (read_short_string l3) as [[v8 l4]|]; cbn [result_bind]; [|done].
  rewrite skip_address_spec. destruct (read_declared l4) as [[v9 l5]|]; cbn [result_bind]; [|done].
  destruct (take_bytes 1 l5) as [[c l6]|]; cbn [result_bind]; [|done].
  rewrite skip_features_spec. by destruct (read_features _ l6) as [[??]|].
Qed.

(** ** Concrete nodes *)

Module Examples.

Definition dialer : HandshakeConfig :=
  mk_config [101; 114; 103; 111] [110; 49] (mk_version 5 0 20) Mainnet Full
    (Some (mk_addr (V4 [213; 239; 193; 208]) 9030)) (mk_mode 0 true (-1)).

Definition listener : HandshakeConfig :=
  mk_config [101; 114; 103; 111] [195; 169] (mk_version 6 0 3) Mainnet Light
    (Some (mk_addr (V6 [32; 1; 7; 24; 0; 0; 0; 0; 0; 0; 0; 0; 0; 0; 0; 1]) 9030))
    (mk_mode 1 true 1440).

Lemma dialer_ok : config_ok dialer.
Proof. split_and!; [split; [done|simpl; lia]..|split; [split; vm_compute; discriminate|done]]. Qed.

Lemma listener_ok : config_ok listener.
Proof. split_and!; [split; [done|simpl; lia]..|split; [split; vm_compute; discriminate|done]]. Qed.

(** The dialer a release before the minimum. *)
Definition old_dialer : HandshakeConfig :=
  mk_config [101; 114; 103; 111] [110; 49] (mk_version 4 0 99) Mainnet Full
    (Some (mk_addr (V4 [213; 239; 193; 208]) 9030)) (mk_mode 0 true (-1)).

Lemma handshake_agreed_witness :
  (inbound listener 2 11 ((outbound dialer 1 7 []).1 ++ [1; 0; 2; 4])).2
    = Ok (spec_of dialer 7, length (build dialer 1 7), [1; 0; 2; 4]) /\
  inbound listener 2 11 ((outbound old_dialer 1 7 []).1 ++ [1; 0; 2; 4]) =
    ([], Err (Refused (VersionTooOld (mk_version 4 0 99)))).
Proof.
  split.
  - pose proof (handshake_agreed dialer listener 1 2 7 11 [1; 0; 2; 4] [] dialer_ok listener_ok) as H.
    revert H. destruct (inbound _ _ _ _) as [sent_b at_b]. cbn [outbound]. intros (H & _). exact H.
  - pose proof (handshake_agreed old_dialer listener 1 2 7 11 [1; 0; 2; 4] [] dialer_ok listener_ok) as H.
    revert H. destruct (inbound _ _ _ _) as [sent_b at_b]. cbn [outbound]. intros (H & _ & H2).
    vm_compute in H2. subst sent_b. f_equal. exact H.
Defined.

Lemma parsed_spec_typed_witness :
  spec_typed (spec_of dialer 7).
Proof.
  refine (proj1 (parsed_spec_typed (serialize_peer_entry (spec_of dialer 7) ++ [7])
    (spec_of dialer 7) [7] [] _ _)); [|vm_compute; reflexivity].
  apply (bool_decide_unpack _). vm_compute. exact I.
Defined.

End Examples.

End Handshake.
