(* ===== verification/PeerDb.v ===== *)
(** * The peer database

    Models p2p/src/peer_db.rs: the address book behind peer gossip and the outbound
    dialer. Entries are observed (a handshake was completed with the address) or
    hearsay (a third party named it). The hash map's iteration order decides between
    equally old entries; it is an argument of the operations that iterate, [values],
    with the law that it enumerates the map. The blacklist is shared with the router
    and is an argument. Persistence is the trait [PeerStorage]. *)

From S2P Require Import Prelude Vlq Frame Messages Handshake.
Import Handshake.

Module PeerDb.

Record PeerRecord := mk_record {
  rec_address : SocketAddr;
  last_seen_ms : Z;
  last_handshake_ms : Z;
  rec_agent : list Z;
  rec_name : list Z;
  rec_version : Z * Z * Z;
  rec_features : list (Z * list Z)
}.

Definition is_observed (r : PeerRecord) : bool := 0 <? last_handshake_ms r.

Definition DEFAULT_CAP : nat := 1000.

(** The trait [PeerStorage]. Errors carry no information the database uses. *)
Class PeerStorage (St : Type) := {
  load_all : St -> result unit (list PeerRecord);
  put : PeerRecord -> St -> result unit unit * St;
  delete_row : SocketAddr -> St -> result unit unit * St
}.

Record PeerDb (St : Type) := mk_db {
  entries : gmap SocketAddr PeerRecord;
  cap : nat;
  self_addresses : gset SocketAddr;
  storage : St
}.
Arguments mk_db {_}. Arguments entries {_}. Arguments cap {_}.
Arguments self_addresses {_}. Arguments storage {_}.

Inductive AddressGroup := GroupV4 (prefix : list Z) | GroupV6 (prefix : list Z).

#[global] Instance AddressGroup_eq_dec : EqDecision AddressGroup.
Proof. solve_decision. Defined.

#[global] Instance AddressGroup_countable : Countable AddressGroup.
Proof.
  refine (inj_countable' (fun g => match g with GroupV4 p => inl p | GroupV6 p => inr p end)
            (fun s => match s with inl p => GroupV4 p | inr p => GroupV6 p end) _).
  by intros [].
Defined.

(** A /16 of IPv4, a /64 of IPv6. *)
Definition address_group (addr : SocketAddr) : AddressGroup :=
  match ip addr with
  | V4 o => GroupV4 (take 2 o)
  | V6 o => GroupV6 (take 8 o)
  end.

Definition group_of (r : PeerRecord) : AddressGroup := address_group (rec_address r).

(** [Iterator::min_by_key]: the first of the smallest elements. *)
Fixpoint min_by_key {A} (key : A -> Z) (l : list A) : option A :=
  match l with
  | [] => None
  | x :: l' =>
      match min_by_key key l' with
      | None => Some x
      | Some y => if key x <=? key y then Some x else Some y
      end
  end.

(** [Option::or_else]. *)
Definition or_else {A} (a b : option A) : option A := match a with Some x => Some x | None => b end.

Definition observed_of (vs : list PeerRecord) : list PeerRecord :=
  filter (fun r => is_observed r = true) vs.

Definition count_groups (vs : list PeerRecord) : gmap AddressGroup Z :=
  foldl (fun m r => <[group_of r := default 0 (m !! group_of r) + 1]> m) ∅ (observed_of vs).

(** [values().copied().max()]. *)
Definition most_crowded (per_group : gmap AddressGroup Z) : option Z :=
  match (map_to_list per_group).*2 with
  | [] => None
  | c :: cs => Some (foldl Z.max c cs)
  end.

Definition crowded_observed (vs : list PeerRecord) : option PeerRecord :=
  let per_group := count_groups vs in
  match most_crowded per_group with
  | None => None
  | Some most =>
      if most <=? 1 then None
      else min_by_key last_handshake_ms
             (filter (fun r => per_group !! group_of r = Some most) (observed_of vs))
  end.

Definition victim (vs : list PeerRecord) : option PeerRecord :=
  or_else (min_by_key last_seen_ms (filter (fun r => is_observed r = false) vs))
    (or_else (crowded_observed vs) (min_by_key last_handshake_ms vs)).

Section Operations.
Context {St : Type} `{!PeerStorage St}.
Context (values : gmap SocketAddr PeerRecord -> list PeerRecord).
Context (blacklist : gset SocketAddr).

Definition with_entries (db : PeerDb St) (m : gmap SocketAddr PeerRecord) (st : St) : PeerDb St :=
  mk_db m (cap db) (self_addresses db) st.

(** [PeerDb::new]: the rows of the storage but for our own addresses. *)
Definition new (st : St) (cap : nat) (self_addresses : gset SocketAddr) :
    result unit (PeerDb St) :=
  let? loaded := load_all st in
  Ok (mk_db
        (foldl (fun m r => if decide (rec_address r ∈ self_addresses) then m
                           else <[rec_address r := r]> m) ∅ loaded)
        cap self_addresses st).

Definition evict_oldest (db : PeerDb St) : PeerDb St :=
  match victim (values (entries db)) with
  | Some r =>
      with_entries db (delete (rec_address r) (entries db))
        (delete_row (rec_address r) (storage db)).2
  | None => db
  end.

Definition merge_stamps (r prior : PeerRecord) : PeerRecord :=
  mk_record (rec_address r)
    (Z.max (last_seen_ms r) (last_seen_ms prior))
    (Z.max (last_handshake_ms r) (last_handshake_ms prior))
    (rec_agent r) (rec_name r) (rec_version r) (rec_features r).

(** [PeerDb::record]. A failed write to the storage is logged and ignored. *)
Definition record (r : PeerRecord) (db : PeerDb St) : PeerDb St :=
  if decide (rec_address r ∈ blacklist) then db
  else if decide (rec_address r ∈ self_addresses db) then db
  else
    let (r, db) :=
      match entries db !! rec_address r with
      | Some prior => (merge_stamps r prior, db)
      | None =>
          (r, if (cap db <=? size (entries db))%nat then evict_oldest db else db)
      end in
    with_entries db (<[rec_address r := r]> (entries db)) (put r (storage db)).2.

Definition forget (addr : SocketAddr) (db : PeerDb St) : PeerDb St :=
  match entries db !! addr with
  | Some _ => with_entries db (delete addr (entries db)) (delete_row addr (storage db)).2
  | None => db
  end.

Definition get (addr : SocketAddr) (db : PeerDb St) : option PeerRecord := entries db !! addr.

Definition later_handshake (a b : PeerRecord) : Prop := last_handshake_ms b <= last_handshake_ms a.

#[global] Instance later_handshake_dec : RelDecision later_handshake.
Proof. intros a b. unfold later_handshake. apply _. Defined.

Definition eligible_observed (exclude : gset SocketAddr) (r : PeerRecord) : Prop :=
  is_observed r = true /\ (rec_address r ∉ exclude) /\ (rec_address r ∉ blacklist).

#[global] Instance eligible_observed_dec exclude r : Decision (eligible_observed exclude r).
Proof. unfold eligible_observed. apply _. Defined.

Definition observed (limit : nat) (exclude : gset SocketAddr) (db : PeerDb St) : list PeerRecord :=
  if (limit =? 0)%nat then []
  else
    let candidates := filter (eligible_observed exclude) (values (entries db)) in
    take limit (stable_sort later_handshake candidates).

(** [IndexedRandom::choose], by the index drawn. *)
Definition choose {A} (draw : nat) (pool : list A) : option A :=
  match pool with
  | [] => None
  | _ => pool !! (draw mod length pool)%nat
  end.

Definition dial_candidate (exclude : gset SocketAddr) (connected : list SocketAddr)
    (eligible : PeerRecord -> bool) (draw : nat) (db : PeerDb St) : option PeerRecord :=
  let candidates :=
    filter (fun r => (rec_address r ∉ exclude) /\ (rec_address r ∉ blacklist) /\ eligible r = true)
      (values (entries db)) in
  let connected_groups : gset AddressGroup := list_to_set (address_group <$> connected) in
  let preferred := filter (fun r => group_of r ∉ connected_groups) candidates in
  choose draw (match preferred with [] => candidates | _ => preferred end).

Definition all (db : PeerDb St) : list PeerRecord := values (entries db).

Definition count (db : PeerDb St) : nat := size (entries db).
End Operations.

(** ** The in-memory storage *)

Inductive MemoryStorageOp := Put (addr : SocketAddr) | Delete (addr : SocketAddr).

Record MemoryPeerStorage := mk_memory {
  mem_entries : gmap SocketAddr PeerRecord;
  pub_log : list MemoryStorageOp
}.

Definition memory_new : MemoryPeerStorage := mk_memory ∅ [].

Definition memory_load_all (st : MemoryPeerStorage) : result unit (list PeerRecord) :=
  Ok (map_to_list (mem_entries st)).*2.

Definition memory_put (r : PeerRecord) (st : MemoryPeerStorage) : result unit unit * MemoryPeerStorage :=
  (Ok tt, mk_memory (<[rec_address r := r]> (mem_entries st)) (pub_log st ++ [Put (rec_address r)])).

Definition memory_delete (addr : SocketAddr) (st : MemoryPeerStorage) :
    result unit unit * MemoryPeerStorage :=
  (Ok tt, mk_memory (delete addr (mem_entries st)) (pub_log st ++ [Delete addr])).

#[global] Instance memory_storage : PeerStorage MemoryPeerStorage :=
  {| load_all := memory_load_all; put := memory_put; delete_row := memory_delete |}.

(** ** Selection *)

Lemma min_by_key_Some {A} (key : A -> Z) l x :
  min_by_key key l = Some x -> x ∈ l /\ forall y, y ∈ l -> key x <= key y.
Proof.
  revert x. induction l as [|a l IH]; intros x; cbn; [done|].
  destruct (min_by_key key l) as [b|] eqn:E.
  - destruct (IH b eq_refl) as [Hb Hle].
    destruct (key a <=? key b) eqn:Ek; intros [= <-]; [apply Z.leb_le in Ek|apply Z.leb_gt in Ek].
    + split; [left|]. intros y [->|Hy]%elem_of_cons; [done|]. specialize (Hle y Hy). lia.
    + split; [by right|]. intros y [->|Hy]%elem_of_cons; [lia|]. by apply Hle.
  - intros [= <-]. destruct l as [|c l].
    + split; [left|]. intros y [->|Hy]%elem_of_cons; [done|]. by apply not_elem_of_nil in Hy.
    + cbn in E. destruct (min_by_key key l); [by case_match|done].
Qed.

Lemma min_by_key_None {A} (key : A -> Z) l : min_by_key key l = None -> l = [].
Proof. destruct l as [|a l]; [done|]. cbn. destruct (min_by_key key l); [by case_match|done]. Qed.

(** How many observed entries share a group. *)
Definition group_size (g : AddressGroup) (vs : list PeerRecord) : Z :=
  Z.of_nat (length (filter (fun r => group_of r = g) (observed_of vs))).

Lemma count_groups_lookup vs g :
  count_groups vs !! g = if group_size g vs =? 0 then None else Some (group_size g vs).
Proof.
  unfold count_groups, group_size. generalize (observed_of vs) as l.
  induction l as [|r l IH] using rev_ind; [done|].
  rewrite foldl_snoc, filter_app, length_app. set (m := foldl _ ∅ l) in *.
  destruct (decide (group_of r = g)) as [<-|Hne].
  - rewrite lookup_insert_eq, filter_cons_True, filter_nil by done. cbn [length].
    rewrite IH. case_match eqn:E; cbn [default].
    + apply Z.eqb_eq in E. rewrite (proj2 (Z.eqb_neq _ _)) by lia. f_equal. lia.
    + unfold Datatypes.id. rewrite (proj2 (Z.eqb_neq _ _)) by lia. f_equal. lia.
  - rewrite lookup_insert_ne, filter_cons_False, filter_nil by done. cbn [length].
    by rewrite Nat.add_0_r.
Qed.

Lemma group_size_pos r vs : r ∈ observed_of vs -> 0 < group_size (group_of r) vs.
Proof.
  intros Hr. unfold group_size.
  assert (Hin : r ∈ filter (fun r' => group_of r' = group_of r) (observed_of vs))
    by by apply list_elem_of_filter.
  destruct (filter _ _); [by apply not_elem_of_nil in Hin|]. simpl. lia.
Qed.

Lemma foldl_max c cs : foldl Z.max c cs ∈ c :: cs /\ forall x, x ∈ c :: cs -> x <= foldl Z.max c cs.
Proof.
  revert c. induction cs as [|d cs IH]; intros c; cbn.
  - split; [left|]. intros x [->|Hx]%elem_of_cons; [done|]. by apply not_elem_of_nil in Hx.
  - destruct (IH (Z.max c d)) as [Hin Hle]. split.
    + apply elem_of_cons in Hin as [->|Hin]; [|by right; right].
      destruct (Z.max_spec c d) as [[_ ->]|[_ ->]]; [right; left|left].
    + pose proof (Hle (Z.max c d) (list_elem_of_here _ _)).
      intros x [->|[->|Hx]%elem_of_cons]%elem_of_cons; [lia..|]. apply Hle. by right.
Qed.

Lemma most_crowded_Some m c :
  most_crowded m = Some c ->
  (exists g, m !! g = Some c) /\ forall g c', m !! g = Some c' -> c' <= c.
Proof.
  unfold most_crowded. destruct (map_to_list m).*2 as [|d ds] eqn:E; [done|]. intros [= <-].
  destruct (foldl_max d ds) as [Hin Hle]. rewrite <- E in Hin, Hle. split.
  - apply list_elem_of_fmap in Hin as ([g c] & Hc & Hin). exists g.
    rewrite Hc. by apply elem_of_map_to_list.
  - intros g c' Hg. apply Hle. apply list_elem_of_fmap. exists (g, c').
    split; [done|]. by apply elem_of_map_to_list.
Qed.

Lemma most_crowded_None m : most_crowded m = None -> m = ∅.
Proof.
  unfold most_crowded. destruct (map_to_list m).*2 as [|d ds] eqn:E; [|done]. intros _.
  apply fmap_nil_inv in E. by apply map_to_list_empty_iff.
Qed.

(** The oldest handshake in a group no smaller than any other. *)
Definition pays_for_crowding (vs : list PeerRecord) (r : PeerRecord) : Prop :=
  r ∈ observed_of vs
  /\ (forall r', r' ∈ observed_of vs -> group_size (group_of r') vs <= group_size (group_of r) vs)
  /\ (forall r', r' ∈ observed_of vs -> group_size (group_of r') vs = group_size (group_of r) vs ->
        last_handshake_ms r <= last_handshake_ms r').

Lemma crowded_observed_Some vs r : crowded_observed vs = Some r -> pays_for_crowding vs r.
Proof.
  unfold crowded_observed. destruct (most_crowded (count_groups vs)) as [most|] eqn:Em; [|done].
  apply most_crowded_Some in Em as [_ Hle].
  destruct (most <=? 1); [done|]. intros [Hin Hmin]%min_by_key_Some.
  apply list_elem_of_filter in Hin as [Hg Hr].
  assert (Hgs : group_size (group_of r) vs = most).
  { rewrite count_groups_lookup in Hg. pose proof (group_size_pos r vs Hr).
    rewrite (proj2 (Z.eqb_neq _ _)) in Hg by lia. by injection Hg. }
  split_and!; [done| |]; intros r' Hr'; pose proof (group_size_pos r' vs Hr').
  - rewrite Hgs. apply (Hle (group_of r')). rewrite count_groups_lookup.
    by rewrite (proj2 (Z.eqb_neq _ _)) by lia.
  - intros He. apply Hmin, list_elem_of_filter. split; [|done].
    rewrite count_groups_lookup, (proj2 (Z.eqb_neq _ _)) by lia. congruence.
Qed.

Lemma crowded_observed_None vs r :
  crowded_observed vs = None -> r ∈ observed_of vs -> group_size (group_of r) vs = 1.
Proof.
  unfold crowded_observed. intros Hn Hr. pose proof (group_size_pos r vs Hr) as Hp.
  assert (Hl : count_groups vs !! group_of r = Some (group_size (group_of r) vs))
    by by rewrite count_groups_lookup, (proj2 (Z.eqb_neq _ _)) by lia.
  destruct (most_crowded (count_groups vs)) as [most|] eqn:Em.
  - apply most_crowded_Some in Em as [[g Hg] Hle]. specialize (Hle _ _ Hl).
    destruct (most <=? 1) eqn:E1; [apply Z.leb_le in E1; lia|]. apply Z.leb_gt in E1.
    apply min_by_key_None in Hn. rewrite count_groups_lookup in Hg.
    case_match eqn:E0; [done|]. injection Hg as Hg.
    destruct (filter (fun r => group_of r = g) (observed_of vs)) as [|q qs] eqn:Eq.
    { unfold group_size in Hg. rewrite Eq in Hg. simpl in Hg. lia. }
    assert (Hq : q ∈ filter (fun r => group_of r = g) (observed_of vs)) by (rewrite Eq; left).
    apply list_elem_of_filter in Hq as [Hqg Hqo]. exfalso.
    apply (not_elem_of_nil q). rewrite <- Hn. apply list_elem_of_filter. split; [|done].
    by rewrite count_groups_lookup, Hqg, E0, Hg.
  - apply most_crowded_None in Em. rewrite Em, lookup_empty in Hl. done.
Qed.

(** The entry that makes room. While there is hearsay it is the hearsay not
    mentioned for longest; otherwise crowding pays. *)
Definition evicts (vs : list PeerRecord) (r : PeerRecord) : Prop :=
  r ∈ vs /\
  if is_observed r then (forall r', r' ∈ vs -> is_observed r' = true) /\ pays_for_crowding vs r
  else forall r', r' ∈ vs -> is_observed r' = false -> last_seen_ms r <= last_seen_ms r'.

Lemma elem_of_observed r vs : r ∈ observed_of vs <-> is_observed r = true /\ r ∈ vs.
Proof. unfold observed_of. by rewrite list_elem_of_filter. Qed.

Lemma victim_Some vs r : victim vs = Some r -> evicts vs r.
Proof.
  unfold victim, evicts.
  destruct (min_by_key last_seen_ms _) as [h|] eqn:Eh; cbn.
  { intros [= <-]. apply min_by_key_Some in Eh as [Hin Hmin].
    apply list_elem_of_filter in Hin as [Ho Hin]. split; [done|]. rewrite Ho.
    intros r' Hr' Ho'. by apply Hmin, list_elem_of_filter. }
  apply min_by_key_None in Eh.
  assert (Hall : forall r', r' ∈ vs -> is_observed r' = true).
  { intros r' Hr'. destruct (is_observed r') eqn:E; [done|]. exfalso.
    apply (not_elem_of_nil r'). rewrite <- Eh. by apply list_elem_of_filter. }
  assert (Hok : forall r, pays_for_crowding vs r -> r ∈ vs /\
            if is_observed r then (forall r', r' ∈ vs -> is_observed r' = true) /\ pays_for_crowding vs r
            else forall r', r' ∈ vs -> is_observed r' = false -> last_seen_ms r <= last_seen_ms r').
  { intros q Hq. pose proof Hq as (Hin & _). apply elem_of_observed in Hin as [Ho Hin].
    split; [done|]. by rewrite Ho. }
  destruct (crowded_observed vs) as [c|] eqn:Ec; cbn.
  { intros [= <-]. by apply Hok, crowded_observed_Some. }
  intros [Hin Hmin]%min_by_key_Some. apply Hok.
  assert (Hr : r ∈ observed_of vs) by (apply elem_of_observed; auto).
  split_and!; [done| |]; intros r' Hr'.
  - rewrite !(crowded_observed_None vs _ Ec) by done. done.
  - intros _. apply Hmin. by apply elem_of_observed in Hr' as [_ ?].
Qed.

Lemma victim_None vs : victim vs = None -> vs = [].
Proof.
  unfold victim. destruct (min_by_key last_seen_ms _); [done|]. cbn.
  destruct (crowded_observed vs); [done|]. cbn. apply min_by_key_None.
Qed.

(** ** The database *)

Definition enumerates (values : gmap SocketAddr PeerRecord -> list PeerRecord) : Prop :=
  forall m, values m ≡ₚ (map_to_list m).*2.

Lemma elem_of_values values (m : gmap SocketAddr PeerRecord) (r : PeerRecord) :
  enumerates values -> r ∈ values m <-> exists k, m !! k = Some r.
Proof.
  intros Hv. rewrite (Hv m), list_elem_of_fmap. split.
  - intros ([k r'] & -> & Hin). exists k. by apply elem_of_map_to_list.
  - intros [k Hk]. exists (k, r). split; [done|]. by apply elem_of_map_to_list.
Qed.

Lemma values_nil values (m : gmap SocketAddr PeerRecord) :
  enumerates values -> values m = [] -> m = ∅.
Proof.
  intros Hv Hn. apply map_to_list_empty_iff. pose proof (Hv m) as Hp.
  rewrite Hn in Hp. apply Permutation_nil in Hp. by apply fmap_nil_inv in Hp.
Qed.

(** Entries are filed under their address, none is our own, stamps are [u64]. *)
Definition db_wf {St} (db : PeerDb St) : Prop :=
  forall k r, entries db !! k = Some r ->
    rec_address r = k /\ (k ∉ self_addresses db) /\ 0 <= last_handshake_ms r.

Lemma victim_lookup {St} values (db : PeerDb St) v :
  enumerates values -> db_wf db -> victim (values (entries db)) = Some v ->
  entries db !! rec_address v = Some v.
Proof.
  intros Hv Hwf [Hin _]%victim_Some. apply elem_of_values in Hin as [k Hk]; [|done].
  by destruct (Hwf k v Hk) as [-> _].
Qed.

Section Record.
Context {St : Type} `{!PeerStorage St}.
Context (values : gmap SocketAddr PeerRecord -> list PeerRecord) (Hvalues : enumerates values).
Context (blacklist : gset SocketAddr).
Implicit Types (db : PeerDb St) (r : PeerRecord).

(** The entries once there is room for one more. *)
Definition made_room db : gmap SocketAddr PeerRecord :=
  if (cap db <=? size (entries db))%nat then
    match victim (values (entries db)) with
    | Some v => delete (rec_address v) (entries db)
    | None => entries db
    end
  else entries db.

Lemma made_room_sub db k q : made_room db !! k = Some q -> entries db !! k = Some q.
Proof.
  unfold made_room. case_match; [|done]. destruct (victim _); [|done].
  by intros [_ ?]%lookup_delete_Some.
Qed.

(** What [record] does to an address that is neither banned nor our own. *)
Lemma record_entries r db :
  (rec_address r ∉ blacklist) -> (rec_address r ∉ self_addresses db) ->
  entries (record values blacklist r db) =
    match entries db !! rec_address r with
    | Some prior => <[rec_address r := merge_stamps r prior]> (entries db)
    | None => <[rec_address r := r]> (made_room db)
    end.
Proof.
  intros Hb Hs. unfold record. rewrite !decide_False by done.
  destruct (entries db !! rec_address r) as [prior|]; [done|].
  unfold made_room. case_match; [|done]. unfold evict_oldest. by destruct (victim _).
Qed.

Lemma record_ignored r db :
  (rec_address r ∈ blacklist) \/ (rec_address r ∈ self_addresses db) ->
  record values blacklist r db = db.
Proof. intros H. unfold record. repeat case_decide; tauto. Qed.

Lemma record_shape r db :
  self_addresses (record values blacklist r db) = self_addresses db
  /\ cap (record values blacklist r db) = cap db.
Proof.
  unfold record. repeat case_decide; [done..|].
  destruct (entries db !! rec_address r); [done|]. case_match; [|done].
  unfold evict_oldest. by destruct (victim _).
Qed.

Lemma record_wf r db :
  db_wf db -> 0 <= last_handshake_ms r -> db_wf (record values blacklist r db).
Proof.
  intros Hwf Hr k q. destruct (record_shape r db) as [-> _].
  destruct (decide (rec_address r ∈ blacklist)); [rewrite record_ignored by auto; apply Hwf|].
  destruct (decide (rec_address r ∈ self_addresses db)); [rewrite record_ignored by auto; apply Hwf|].
  rewrite record_entries by done.
  destruct (entries db !! rec_address r) as [prior|] eqn:Ep;
    intros [[<- <-]|[Hne Hk]]%lookup_insert_Some.
  - split_and!; [done..|]. cbn. lia.
  - by apply Hwf.
  - done.
  - by apply Hwf, made_room_sub.
Qed.

Lemma record_size r db :
  db_wf db ->
  (size (entries (record values blacklist r db))
   <= Nat.max (size (entries db)) (Nat.max (cap db) 1))%nat.
Proof.
  intros Hwf.
  destruct (decide (rec_address r ∈ blacklist)); [rewrite record_ignored by auto; lia|].
  destruct (decide (rec_address r ∈ self_addresses db)); [rewrite record_ignored by auto; lia|].
  rewrite record_entries by done.
  destruct (entries db !! rec_address r) as [prior|] eqn:Ep.
  { rewrite map_size_insert_Some by eauto. lia. }
  unfold made_room.
  case_match eqn:Ec; [|apply Nat.leb_gt in Ec; rewrite map_size_insert_None by done; lia].
  destruct (victim (values (entries db))) as [v|] eqn:Ev.
  - pose proof (victim_lookup values db v Hvalues Hwf Ev) as Hl.
    rewrite map_size_insert_None.
    + rewrite map_size_delete_Some by eauto.
      assert (size (entries db) <> 0)%nat by (rewrite map_size_ne_0_lookup; eauto). lia.
    + rewrite lookup_delete_None. by right.
  - apply victim_None, values_nil in Ev as He; [|done].
    rewrite He, map_size_insert_None, map_size_empty by done. lia.
Qed.
End Record.

(** Recording an address ([PeerDb::record]) keeps the database well formed and never
    grows it beyond its cap. Banned and own addresses are ignored. A known address
    keeps the larger of each stamp and takes the rest from the new record. A new
    address is added; when the table is full exactly one entry makes room, and it is
    the hearsay not mentioned for longest, or, if every entry is observed, the oldest
    handshake among the most crowded address groups. Holds for every storage and
    every iteration order of the hash map. *)
Theorem record_correct {St} `{!PeerStorage St} values blacklist (r : PeerRecord) (db : PeerDb St) :
  enumerates values -> db_wf db -> 0 <= last_handshake_ms r ->
  let db' := record values blacklist r db in
  db_wf db'
  /\ (size (entries db') <= Nat.max (size (entries db)) (Nat.max (cap db) 1))%nat
  /\ if decide ((rec_address r ∈ blacklist) \/ (rec_address r ∈ self_addresses db)) then db' = db
     else
       match entries db !! rec_address r with
       | Some prior => entries db' = <[rec_address r := merge_stamps r prior]> (entries db)
       | None =>
           if (size (entries db) <? cap db)%nat then entries db' = <[rec_address r := r]> (entries db)
           else if decide (entries db = ∅) then entries db' = {[rec_address r := r]}
           else exists v, evicts (values (entries db)) v
                  /\ entries db !! rec_address v = Some v
                  /\ entries db' = <[rec_address r := r]> (delete (rec_address v) (entries db))
       end.
Proof.
  intros Hv Hwf Hr db'. split; [by apply record_wf|]. split; [by apply record_size|].
  case_decide as Hd; [by apply record_ignored|].
  subst db'. rewrite record_entries by tauto.
  destruct (entries db !! rec_address r) as [prior|]; [done|].
  unfold made_room. rewrite Nat.ltb_antisym. destruct (cap db <=? size (entries db))%nat; cbn [negb]; [|done].
  destruct (victim (values (entries db))) as [v|] eqn:Ev.
  - pose proof (victim_lookup values db v Hv Hwf Ev) as Hl.
    rewrite decide_False by (intros He; by rewrite He, lookup_empty in Hl).
    exists v. split_and!; [by apply victim_Some|done..].
  - apply victim_None, values_nil in Ev as He; [|done].
    by rewrite decide_True, He by done.
Qed.

(** ** Gossip *)

(** One gossiped record: the iteration order and the blacklist at that time, and
    the record, which claims no handshake. *)
Record gossip := mk_gossip {
  g_values : gmap SocketAddr PeerRecord -> list PeerRecord;
  g_blacklist : gset SocketAddr;
  g_record : PeerRecord
}.

Definition gossip_ok (g : gossip) : Prop :=
  enumerates (g_values g) /\ last_handshake_ms (g_record g) = 0.

Definition hear {St} `{!PeerStorage St} (gs : list gossip) (db : PeerDb St) : PeerDb St :=
  foldl (fun db g => record (g_values g) (g_blacklist g) (g_record g) db) db gs.

(** Every observed entry of [m] outside [lost] is in [m'] with its stamp. *)
Definition keeps_observed (lost : gset SocketAddr) (m m' : gmap SocketAddr PeerRecord) : Prop :=
  forall k r, m !! k = Some r -> is_observed r = true -> (k ∉ lost) ->
    exists r', m' !! k = Some r' /\ last_handshake_ms r' = last_handshake_ms r.

Definition has_hearsay (m : gmap SocketAddr PeerRecord) : Prop :=
  exists k r, m !! k = Some r /\ is_observed r = false.

Lemma keeps_observed_trans lost m1 m2 m3 :
  keeps_observed lost m1 m2 -> keeps_observed ∅ m2 m3 -> keeps_observed lost m1 m3.
Proof.
  intros H1 H2 k r Hk Ho Hl. destruct (H1 k r Hk Ho Hl) as (r2 & Hr2 & He).
  assert (is_observed r2 = true) as Ho2 by (unfold is_observed in *; by rewrite He).
  destruct (H2 k r2 Hr2 Ho2 ltac:(set_solver)) as (r3 & ? & ?). exists r3. split; [done|congruence].
Qed.

Lemma hearsay_stamp r : is_observed r = false -> 0 <= last_handshake_ms r -> last_handshake_ms r = 0.
Proof. unfold is_observed. intros H%Z.ltb_ge ?. lia. Qed.

(** Gossip about a known address changes no handshake stamp. *)
Lemma merge_gossip (m : gmap SocketAddr PeerRecord) r prior :
  last_handshake_ms r = 0 -> m !! rec_address r = Some prior -> 0 <= last_handshake_ms prior ->
  let m' := <[rec_address r := merge_stamps r prior]> m in
  keeps_observed ∅ m m' /\ (has_hearsay m -> has_hearsay m').
Proof.
  intros Hr Ep Hp m'. subst m'. split.
  - intros k q Hq Ho _. destruct (decide (k = rec_address r)) as [->|Hne].
    + rewrite lookup_insert_eq. exists (merge_stamps r prior). split; [done|]. cbn.
      assert (q = prior) as -> by congruence. lia.
    + rewrite lookup_insert_ne by done. eauto.
  - intros (k & q & Hq & Ho). destruct (decide (k = rec_address r)) as [->|Hne].
    + exists (rec_address r), (merge_stamps r prior). rewrite lookup_insert_eq. split; [done|].
      assert (q = prior) as -> by congruence. unfold is_observed in *. cbn. rewrite Hr.
      by rewrite Z.max_r.
    + exists k, q. by rewrite lookup_insert_ne.
Qed.

(** There is something else to give up: room, or an entry the node only heard of. *)
Definition spare {St} (db : PeerDb St) : Prop := has_hearsay (entries db) \/ (size (entries db) < cap db)%nat.

(** One gossiped record costs at most one observed entry, and none when there is
    something else to give up; afterwards there is, unless nothing was lost. *)
Lemma record_gossip {St} `{!PeerStorage St} g (db : PeerDb St) :
  gossip_ok g -> db_wf db ->
  let db' := record (g_values g) (g_blacklist g) (g_record g) db in
  (spare db -> keeps_observed ∅ (entries db) (entries db') /\ spare db')
  /\ (keeps_observed ∅ (entries db) (entries db') \/ exists a, keeps_observed {[a]} (entries db) (entries db') /\ spare db').
Proof.
  destruct g as [values bl r]. intros [Hv Hr] Hwf db'. subst db'. cbn [g_values g_blacklist g_record] in *.
  assert (keeps_observed ∅ (entries db) (entries db)) as Hrefl by (intros k q ???; eauto).
  destruct (decide (rec_address r ∈ bl \/ rec_address r ∈ self_addresses db)) as [Hd|Hd]; [rewrite record_ignored by done; auto|].
  unfold spare. rewrite (proj2 (record_shape values bl r db)), record_entries by tauto. set (m := entries db) in *.
  destruct (m !! rec_address r) as [prior|] eqn:Ep.
  - destruct (Hwf _ _ Ep) as (_ & _ & Hp). destruct (merge_gossip m r prior Hr Ep Hp).
    rewrite map_size_insert_Some by (by rewrite Ep). tauto.
  - assert (Hh : forall n, has_hearsay (<[rec_address r:=r]> n)).
    { intros n. exists (rec_address r), r. rewrite lookup_insert_eq. split; [done|].
      unfold is_observed. by rewrite Hr. }
    assert (Hk : keeps_observed ∅ m (<[rec_address r:=r]> m)).
    { intros k q Hq _ _. exists q. rewrite lookup_insert_ne; [done|]. congruence. }
    unfold made_room. fold m. destruct (Nat.leb_spec (cap db) (size m)) as [Hfull|]; [|by auto].
    destruct (victim (values m)) as [v|] eqn:Ev; [|by auto].
    pose proof (victim_lookup values db v Hv Hwf Ev) as Hl. fold m in Hl.
    assert (Hd' : keeps_observed {[rec_address v]} m (<[rec_address r:=r]> (delete (rec_address v) m))).
    { intros k q Hq _ Hn. exists q. rewrite lookup_insert_ne by congruence.
      rewrite lookup_delete_ne by set_solver. done. }
    split; [|by eauto]. intros [(k & q & Hq & Ho)|]; [|lia]. split; [|by left].
    assert (is_observed v = false) as Hvo.
    { destruct (is_observed v) eqn:E; [|done]. apply victim_Some in Ev as [_ He].
      rewrite E in He. destruct He as [He _]. rewrite He in Ho; [done|].
      apply elem_of_values; eauto. }
    intros k' q' Hq' Ho' _. apply (Hd' k' q' Hq' Ho'). intros ->%elem_of_singleton. congruence.
Qed.

(** An entry observed after a gossiped record was observed before it. *)
Lemma record_origin {St} `{!PeerStorage St} g (db : PeerDb St) :
  gossip_ok g -> db_wf db -> forall k r,
  entries (record (g_values g) (g_blacklist g) (g_record g) db) !! k = Some r ->
  is_observed r = true ->
  exists r0, entries db !! k = Some r0 /\ last_handshake_ms r0 = last_handshake_ms r.
Proof.
  destruct g as [values bl q]. intros [Hv Hq] Hwf k r. cbn [g_values g_blacklist g_record] in *.
  destruct (decide (rec_address q ∈ bl \/ rec_address q ∈ self_addresses db)) as [Hd|Hd].
  { rewrite record_ignored by done. eauto. }
  rewrite record_entries by tauto.
  destruct (entries db !! rec_address q) as [prior|] eqn:Ep;
    intros [[<- <-]|[Hne Hk]]%lookup_insert_Some Ho; [| by eauto| |].
  - exists prior. split; [done|]. destruct (Hwf _ _ Ep) as (_ & _ & ?). cbn. lia.
  - unfold is_observed in Ho. rewrite Hq in Ho. done.
  - apply made_room_sub in Hk. eauto.
Qed.

Lemma gossip_wf {St} `{!PeerStorage St} g (db : PeerDb St) :
  gossip_ok g -> db_wf db -> db_wf (record (g_values g) (g_blacklist g) (g_record g) db).
Proof. intros [_ Hg] Hwf. apply record_wf; [done|]. by rewrite Hg. Qed.

Lemma hear_wf {St} `{!PeerStorage St} gs (db : PeerDb St) :
  Forall gossip_ok gs -> db_wf db -> db_wf (hear gs db).
Proof.
  intros Hgs. revert db. induction Hgs as [|g gs Hg _ IH]; intros db Hwf; [done|].
  by apply IH, gossip_wf.
Qed.

Lemma hear_spare {St} `{!PeerStorage St} gs (db : PeerDb St) :
  Forall gossip_ok gs -> db_wf db -> spare db -> keeps_observed ∅ (entries db) (entries (hear gs db)).
Proof.
  intros Hgs. revert db. induction Hgs as [|g gs Hg _ IH]; intros db Hwf Hh.
  - intros k q ???. eauto.
  - destruct (record_gossip g db Hg Hwf) as [H _]. destruct (H Hh) as [Hk Hh'].
    eapply keeps_observed_trans; [exact Hk|]. apply IH; [|done].
    by apply gossip_wf.
Qed.

(** C30: However many peer lists are gossiped to the node, and whatever they contain: while
    the peer database has room, or holds an entry the node only heard of, every address it
    completed a handshake with stays, with its handshake time; from a full database of
    observed entries at most one of them goes. Gossip never turns an address into an
    observed one: an entry observed afterwards was observed before. *)
Theorem gossip_keeps_observed {St} `{!PeerStorage St} (gs : list gossip) (db : PeerDb St) :
  Forall gossip_ok gs -> db_wf db ->
  (spare db -> keeps_observed ∅ (entries db) (entries (hear gs db)))
  /\ (exists lost : gset SocketAddr, (size lost <= 1)%nat
     /\ keeps_observed lost (entries db) (entries (hear gs db)))
  /\ (forall k r, entries (hear gs db) !! k = Some r -> is_observed r = true ->
        exists r0, entries db !! k = Some r0 /\ last_handshake_ms r0 = last_handshake_ms r).
Proof.
  intros Hgs Hwf. split_and!.
  - intros Hsp. by apply hear_spare.
  - revert db Hwf. induction Hgs as [|g gs Hg Hgs IH]; intros db Hwf.
    { exists ∅. split; [by rewrite size_empty; lia|]. intros k q ???. eauto. }
    pose proof (gossip_wf g db Hg Hwf) as Hwf'.
    destruct (record_gossip g db Hg Hwf) as [_ [Hk|(a & Hk & Hh)]].
    + destruct (IH _ Hwf') as (lost & Hs & Hl). exists lost. split; [done|].
      intros k r Hr Ho Hn. destruct (Hk k r Hr Ho ltac:(set_solver)) as (r2 & Hr2 & He).
      assert (is_observed r2 = true) as Ho2 by (unfold is_observed in *; by rewrite He).
      destruct (Hl k r2 Hr2 Ho2 Hn) as (r3 & ? & ?). exists r3. split; [done|congruence].
    + exists {[a]}. split; [by rewrite size_singleton|].
      eapply keeps_observed_trans; [exact Hk|].
      by apply (hear_spare gs (record (g_values g) (g_blacklist g) (g_record g) db)).
  - revert db Hwf. induction Hgs as [|g gs Hg Hgs IH]; intros db Hwf k r Hk Ho; [eauto|].
    pose proof (gossip_wf g db Hg Hwf) as Hwf'.
    destruct (IH _ Hwf' k r Hk Ho) as (r1 & Hr1 & He1).
    destruct (record_origin g db Hg Hwf k r1 Hr1) as (r0 & ? & ?).
    { unfold is_observed in *. by rewrite He1. }
    exists r0. split; [done|congruence].
Qed.

(** ** Queries *)

#[global] Instance later_handshake_total : Total later_handshake.
Proof. intros a b. unfold later_handshake. lia. Qed.

#[global] Instance later_handshake_trans : Transitive later_handshake.
Proof. intros a b c. unfold later_handshake. lia. Qed.

Section Queries.
Context {St : Type}.
Context (values : gmap SocketAddr PeerRecord -> list PeerRecord) (Hvalues : enumerates values).
Context (blacklist : gset SocketAddr).
Implicit Types (db : PeerDb St) (r : PeerRecord).

Lemma elem_of_candidates (P : PeerRecord -> Prop) `{!forall r, Decision (P r)} db r :
  r ∈ filter P (values (entries db)) <-> P r /\ exists k, entries db !! k = Some r.
Proof. rewrite list_elem_of_filter. by rewrite elem_of_values. Qed.

Lemma observed_sorted limit exclude db :
  StronglySorted later_handshake (observed values blacklist limit exclude db).
Proof.
  unfold observed. case_match; [constructor|].
  eapply StronglySorted_app_1_l. rewrite take_drop.
  apply (stable_sort_sorted later_handshake).
Qed.

Lemma observed_elem limit exclude db r :
  r ∈ observed values blacklist limit exclude db ->
  eligible_observed blacklist exclude r /\ exists k, entries db !! k = Some r.
Proof.
  unfold observed. case_match; [by intros ?%not_elem_of_nil|].
  intros Hr%elem_of_take. destruct Hr as (i & Hr & _). apply list_elem_of_lookup_2 in Hr.
  rewrite stable_sort_Permutation in Hr. by apply elem_of_candidates in Hr.
Qed.

(** Nothing left out is more recent than what is returned. *)
Lemma observed_best limit exclude db r k q :
  entries db !! k = Some q -> eligible_observed blacklist exclude q ->
  q ∉ observed values blacklist limit exclude db ->
  r ∈ observed values blacklist limit exclude db ->
  last_handshake_ms q <= last_handshake_ms r.
Proof.
  intros Hq He. unfold observed. case_match; [by intros _ ?%not_elem_of_nil|].
  set (l := stable_sort later_handshake _). intros Hn Hr.
  assert (Hin : q ∈ l).
  { subst l. rewrite stable_sort_Permutation. apply elem_of_candidates. eauto. }
  rewrite <- (take_drop limit l), elem_of_app in Hin. destruct Hin as [Hin|Hin]; [done|].
  assert (Hs : StronglySorted later_handshake (take limit l ++ drop limit l)).
  { rewrite take_drop. apply (stable_sort_sorted later_handshake). }
  exact (StronglySorted_app_1_elem_of _ _ _ r q Hs Hr Hin).
Qed.

Lemma observed_length limit exclude db :
  length (observed values blacklist limit exclude db) =
    Nat.min limit (length (filter (eligible_observed blacklist exclude) (values (entries db)))).
Proof.
  unfold observed. case_match eqn:E; [by apply Nat.eqb_eq in E as ->|].
  rewrite length_take. f_equal. apply Permutation_length, stable_sort_Permutation.
Qed.

(** What could be returned and is not is left out for want of room. *)
Lemma observed_full limit exclude db k q :
  entries db !! k = Some q -> eligible_observed blacklist exclude q ->
  q ∉ observed values blacklist limit exclude db ->
  length (observed values blacklist limit exclude db) = limit.
Proof.
  intros Hq He Hn. rewrite observed_length. apply Nat.min_l.
  destruct (Nat.le_gt_cases limit (length (filter (eligible_observed blacklist exclude) (values (entries db))))) as [|Hlt]; [done|].
  exfalso. apply Hn. unfold observed. destruct (Nat.eqb_spec limit 0) as [->|_]; [lia|].
  rewrite take_ge by (rewrite stable_sort_Permutation; lia). rewrite stable_sort_Permutation.
  apply elem_of_candidates. eauto.
Qed.

Lemma observed_nodup limit exclude db :
  (forall k r, entries db !! k = Some r -> rec_address r = k) ->
  NoDup (rec_address <$> observed values blacklist limit exclude db).
Proof.
  intros Hk. unfold observed. case_match; [constructor|].
  apply (sublist_NoDup _ (rec_address <$> stable_sort later_handshake (filter (eligible_observed blacklist exclude) (values (entries db)))));
    [|apply fmap_sublist, sublist_take].
  rewrite stable_sort_Permutation.
  apply (sublist_NoDup _ (rec_address <$> values (entries db))); [|apply fmap_sublist, sublist_filter].
  rewrite (Hvalues (entries db)), <- list_fmap_compose.
  rewrite (list_fmap_ext (rec_address ∘ snd) fst); [apply NoDup_fst_map_to_list|].
  intros i [k r] Hi%list_elem_of_lookup_2%elem_of_map_to_list. cbn. by apply Hk.
Qed.

Lemma choose_elem {A} draw (pool : list A) x : choose draw pool = Some x -> x ∈ pool.
Proof. unfold choose. destruct pool; [done|]. apply list_elem_of_lookup_2. Qed.

Lemma choose_nonempty {A} draw (pool : list A) : pool <> [] -> is_Some (choose draw pool).
Proof.
  unfold choose. destruct pool as [|a l] eqn:E; [done|]. intros _.
  apply lookup_lt_is_Some_2. apply Nat.mod_upper_bound. done.
Qed.

(** The dialer gets an eligible entry, and one outside the groups it is already
    connected to whenever there is one. *)
Lemma dial_candidate_correct exclude connected eligible draw db :
  let ok := fun q => (rec_address q ∉ exclude) /\ (rec_address q ∉ blacklist) /\ eligible q = true in
  let fresh := fun q => group_of q ∉ address_group <$> connected in
  match dial_candidate values blacklist exclude connected eligible draw db with
  | Some r =>
      (exists k, entries db !! k = Some r) /\ ok r
      /\ ((exists k q, entries db !! k = Some q /\ ok q /\ fresh q) -> fresh r)
  | None => forall k q, entries db !! k = Some q -> ~ ok q
  end.
Proof.
  intros ok fresh. unfold dial_candidate.
  set (cs := filter _ (values (entries db))).
  set (groups := list_to_set (address_group <$> connected) : gset AddressGroup).
  assert (Hcs : forall q, q ∈ cs <-> ok q /\ exists k, entries db !! k = Some q)
    by (intros q; apply elem_of_candidates).
  assert (Hg : forall q, q ∈ filter (fun r => group_of r ∉ groups) cs <-> fresh q /\ q ∈ cs).
  { intros q. rewrite list_elem_of_filter. subst groups fresh. by rewrite elem_of_list_to_set. }
  destruct (filter (fun r => group_of r ∉ groups) cs) as [|p ps] eqn:Ep.
  - assert (Hno : forall q, q ∈ cs -> ~ fresh q).
    { intros q Hq Hf. by apply (not_elem_of_nil q), Hg. }
    destruct (choose draw cs) as [r|] eqn:Er.
    + apply choose_elem in Er. pose proof Er as [Hok Hk]%Hcs. split_and!; [done..|].
      intros (k & q & Hq & Ho & Hf). exfalso. apply (Hno q); [apply Hcs; eauto|done].
    + intros k q Hq Ho. assert (Hin : q ∈ cs) by (apply Hcs; eauto).
      destruct (choose_nonempty draw cs) as [x Hx]; [|congruence].
      intros ->. by apply not_elem_of_nil in Hin.
  - destruct (choose draw (p :: ps)) as [r|] eqn:Er.
    + apply choose_elem, Hg in Er as [Hf [Hok Hk]%Hcs]. auto.
    + destruct (choose_nonempty draw (p :: ps)) as [x Hx]; [done|congruence].
Qed.
End Queries.

(** ** Persistence *)

(** What the database relies on: the storage is a table of records by address, and
    its writes succeed. [storable] is what can be put, [kept] what a row of it gives back,
    [storage_ok] an invariant of the implementation. *)
Class StorageLaws (St : Type) `{!PeerStorage St} := {
  rows : St -> gmap SocketAddr PeerRecord;
  storable : PeerRecord -> Prop;
  storable_addr : SocketAddr -> Prop;
  storable_address : forall r, storable r -> storable_addr (rec_address r);
  storable_merge : forall r prior, storable r -> storable prior -> storable (merge_stamps r prior);
  kept : PeerRecord -> PeerRecord;
  kept_stamps : forall r, rec_address (kept r) = rec_address r /\ last_handshake_ms (kept r) = last_handshake_ms r;
  kept_storable : forall r, storable r -> storable (kept r);
  kept_again : forall r, kept (kept r) = kept r;
  storage_ok : St -> Prop;
  rows_keyed : forall st k r, storage_ok st -> rows st !! k = Some r -> rec_address r = k;
  load_rows : forall st, storage_ok st ->
    exists l, load_all st = Ok l /\ l ≡ₚ (map_to_list (rows st)).*2;
  put_rows : forall r st, storage_ok st -> storable r ->
    storage_ok (put r st).2 /\ rows (put r st).2 = <[rec_address r := kept r]> (rows st);
  delete_rows : forall a st, storage_ok st -> storable_addr a ->
    storage_ok (delete_row a st).2 /\ rows (delete_row a st).2 = delete a (rows st)
}.

Inductive db_op :=
| OpRecord (values : gmap SocketAddr PeerRecord -> list PeerRecord)
    (blacklist : gset SocketAddr) (r : PeerRecord)
| OpForget (addr : SocketAddr).

Definition run_op {St} `{!PeerStorage St} (db : PeerDb St) (op : db_op) : PeerDb St :=
  match op with
  | OpRecord values blacklist r => record values blacklist r db
  | OpForget addr => forget addr db
  end.

Definition op_ok {St} `{StorageLaws St} (op : db_op) : Prop :=
  match op with
  | OpRecord values _ r => enumerates values /\ storable r /\ 0 <= last_handshake_ms r
  | OpForget _ => True
  end.

Section Persistence.
Context {St : Type} `{StorageLaws St}.
Implicit Types (db : PeerDb St) (r : PeerRecord).

(** The table on disk and the table in memory agree but for our own addresses. *)
Definition in_step db : Prop :=
  forall k, k ∉ self_addresses db -> rows (storage db) !! k = kept <$> entries db !! k.

Definition persisted db : Prop :=
  storage_ok (storage db) /\ db_wf db /\ in_step db /\ map_Forall (fun _ r => storable r) (entries db).

Lemma load_lookup (self : gset SocketAddr) l k r :
  NoDup (rec_address <$> l) ->
  (foldl (fun m r => if decide (rec_address r ∈ self) then m else <[rec_address r := r]> m) ∅ l
     : gmap SocketAddr PeerRecord) !! k
    = Some r <-> r ∈ l /\ rec_address r = k /\ k ∉ self.
Proof.
  induction l as [|q l IH] using rev_ind.
  { intros _. cbn. rewrite lookup_empty. split; [done|]. by intros [?%not_elem_of_nil _]. }
  rewrite fmap_app, NoDup_app. intros (Hn & Hd & _). specialize (IH Hn).
  rewrite foldl_snoc, elem_of_app, list_elem_of_singleton.
  case_decide as Hs.
  { rewrite IH. split; [tauto|]. intros ([Hr| ->] & <- & Hk); [by auto|done]. }
  rewrite lookup_insert_Some, IH. split.
  - intros [[<- <-]|(Hne & Hr & ? & ?)]; auto.
  - intros ([Hr| ->] & <- & Hk); [|by left]. right. split_and!; [|done..].
    intros He. apply (Hd (rec_address r)); [by apply list_elem_of_fmap_2|].
    rewrite <- He. by apply list_elem_of_fmap_2, list_elem_of_singleton.
Qed.

Lemma reload db :
  persisted db ->
  exists db', new (storage db) (cap db) (self_addresses db) = Ok db'
    /\ entries db' = kept <$> entries db /\ persisted db'
    /\ cap db' = cap db /\ self_addresses db' = self_addresses db.
Proof.
  intros (Hok & Hwf & Hin & Hst). unfold new.
  destruct (load_rows (storage db) Hok) as (l & -> & Hp). cbn [result_bind].
  assert (Ha : rec_address <$> l ≡ₚ (map_to_list (rows (storage db))).*1).
  { rewrite Hp, <- list_fmap_compose. apply reflexive_eq, list_fmap_ext.
    intros i [k r] Hi%list_elem_of_lookup_2. apply elem_of_map_to_list in Hi. cbn.
    by apply (rows_keyed _ _ _ Hok). }
  assert (Hnd : NoDup (rec_address <$> l)) by (rewrite Ha; apply NoDup_fst_map_to_list).
  set (m := foldl _ ∅ l). assert (Em : m = kept <$> entries db).
  { apply map_eq. intros k. apply option_eq. intros r.
    subst m. rewrite load_lookup by done. rewrite lookup_fmap. split.
    - intros (Hr & Hk & Hs). rewrite <- (Hin k Hs). rewrite Hp in Hr.
      apply list_elem_of_fmap in Hr as ([k' r'] & -> & Hr). apply elem_of_map_to_list in Hr.
      cbn in *. rewrite <- Hk. by rewrite (rows_keyed _ _ _ Hok Hr).
    - intros (q & Hq & ->)%fmap_Some. destruct (Hwf _ _ Hq) as (<- & Hs & _).
      split_and!; [|apply kept_stamps|done]. rewrite Hp. apply list_elem_of_fmap.
      exists (rec_address q, kept q). split; [done|]. apply elem_of_map_to_list. by rewrite (Hin _ Hs), Hq. }
  eexists. split; [done|]. cbn. rewrite Em. split; [done|]. split; [|done]. split_and!; [done|..]; cbn.
  - intros k r. cbn. rewrite lookup_fmap. intros (q & Hq & ->)%fmap_Some. destruct (kept_stamps q) as [-> ->].
    by apply Hwf.
  - intros k Hk. cbn in *. rewrite Hin, lookup_fmap by done. destruct (entries db !! k); cbn; [|done].
    by rewrite kept_again.
  - intros k r. rewrite lookup_fmap. intros (q & Hq & ->)%fmap_Some. apply kept_storable. by apply (Hst k).
Qed.

Lemma insert_persisted db r :
  persisted db -> storable r -> 0 <= last_handshake_ms r -> (rec_address r ∉ self_addresses db) ->
  persisted (with_entries db (<[rec_address r := r]> (entries db)) (put r (storage db)).2).
Proof.
  intros (Hok & Hwf & Hin & Hst) Hr Hh Hs.
  destruct (put_rows r (storage db) Hok Hr) as [Hok' Hrows]. split_and!; [done|..].
  - intros k q. cbn. intros [[<- <-]|[_ Hk]]%lookup_insert_Some; [done|]. by apply Hwf.
  - intros k Hk. cbn in *. rewrite Hrows.
    destruct (decide (k = rec_address r)) as [->|]; [by rewrite !lookup_insert_eq|].
    rewrite !lookup_insert_ne by done. by apply Hin.
  - cbn. by apply map_Forall_insert_2.
Qed.

Lemma delete_persisted db a r :
  persisted db -> entries db !! a = Some r ->
  persisted (with_entries db (delete a (entries db)) (delete_row a (storage db)).2).
Proof.
  intros (Hok & Hwf & Hin & Hst) Ha. destruct (Hwf _ _ Ha) as (<- & _).
  destruct (delete_rows (rec_address r) (storage db) Hok) as [Hok' Hrows];
    [by apply storable_address, (Hst _ _ Ha)|]. split_and!; [done|..].
  - intros k q. cbn. intros [_ Hk]%lookup_delete_Some. by apply Hwf.
  - intros k Hk. cbn in *. rewrite Hrows.
    destruct (decide (k = rec_address r)) as [->|]; [by rewrite !lookup_delete_eq|].
    rewrite !lookup_delete_ne by done. by apply Hin.
  - cbn. by apply map_Forall_delete.
Qed.

Lemma run_op_persisted db op : op_ok op -> persisted db -> persisted (run_op db op).
Proof.
  destruct op as [values bl r|a]; cbn.
  - intros (Hv & Hr & Hh) Hp. unfold record. repeat case_decide; [done..|].
    destruct (entries db !! rec_address r) as [prior|] eqn:Ep.
    + pose proof Hp as (_ & _ & _ & Hst). apply insert_persisted; [done| |cbn; lia|done].
      apply storable_merge; [done|]. by apply (Hst _ _ Ep).
    + apply insert_persisted; [|done..|]; repeat case_match; try done.
      all: unfold evict_oldest; destruct (victim _) as [v|] eqn:Ev; [|done].
      * pose proof Hp as (_ & Hwf & _). by apply (delete_persisted _ _ v), (victim_lookup values).
      * done.
  - intros _ Hp. unfold forget. destruct (entries db !! a) as [r|] eqn:Ea; [|done].
    by apply (delete_persisted _ _ r).
Qed.
End Persistence.

(** The peer table survives a restart. After any sequence of recorded and forgotten
    addresses, evictions included, loading the storage gives back exactly the entries
    that were in memory, each as a row keeps it. *)
Theorem reload_same {St} `{StorageLaws St} (ops : list db_op) (db : PeerDb St) :
  Forall op_ok ops -> persisted db ->
  let db' := foldl run_op db ops in
  exists db'', new (storage db') (cap db') (self_addresses db') = Ok db''
    /\ entries db'' = kept <$> entries db'.
Proof.
  intros Hops Hp db'. assert (Hp' : persisted db').
  { subst db'. revert db Hp. induction Hops; intros db Hp; [done|]. cbn.
    by apply IHHops, run_op_persisted. }
  destruct (reload db' Hp') as (db'' & ? & ? & _). eauto.
Qed.

Definition memory_ok (st : MemoryPeerStorage) : Prop :=
  map_Forall (fun k r => rec_address r = k) (mem_entries st).

#[global] Program Instance memory_laws : StorageLaws MemoryPeerStorage := {|
  rows := mem_entries;
  storable _ := True;
  storable_addr _ := True;
  kept r := r;
  storage_ok := memory_ok
|}.
Next Obligation. done. Qed.
Next Obligation. done. Qed.
Next Obligation. done. Qed.
Next Obligation. done. Qed.
Next Obligation. done. Qed.
Next Obligation. intros st k r Hok. apply Hok. Qed.
Next Obligation. intros st _. cbn. eauto. Qed.
Next Obligation.
  intros r st Hok _. split; [|done]. by apply map_Forall_insert_2.
Qed.
Next Obligation.
  intros a st Hok _. split; [|done]. by apply map_Forall_delete.
Qed.

(** ** Examples *)

Module Examples.

Definition enumerate (m : gmap SocketAddr PeerRecord) : list PeerRecord := (map_to_list m).*2.

Lemma enumerate_ok : enumerates enumerate.
Proof. by intros m. Qed.

Definition at4 (a b c d : Z) : SocketAddr := mk_addr (V4 [a; b; c; d]) 9030.

Definition entry (a : SocketAddr) (seen handshake : Z) : PeerRecord :=
  mk_record a seen handshake [] [] (5, 0, 20) [].

Definition table (cap : nat) (rs : list PeerRecord) : PeerDb MemoryPeerStorage :=
  let m := list_to_map ((fun r => (rec_address r, r)) <$> rs) in
  mk_db m cap ∅ (mk_memory m []).

(** Two observed peers in one /16, two in another, and room for no more. *)
Definition full : PeerDb MemoryPeerStorage :=
  table 4 [entry (at4 10 1 0 1) 50 50; entry (at4 10 1 0 2) 60 60;
           entry (at4 20 2 0 1) 10 10; entry (at4 20 2 0 2) 70 70].

Definition rumour (a : SocketAddr) : gossip := mk_gossip enumerate ∅ (entry a 99 0).

Lemma full_persisted : persisted full.
Proof.
  split_and!; [|intros k r|intros k _; symmetry; apply option_fmap_id|by intros k r _].
  - apply (bool_decide_unpack _). vm_compute. exact I.
  - revert k r.
    assert (H : map_Forall (fun k r => rec_address r = k /\ (k ∉ (∅ : gset SocketAddr))
                  /\ 0 <= last_handshake_ms r) (entries full)).
    { apply (bool_decide_unpack _). vm_compute. exact I. }
    exact H.
Qed.

Lemma full_wf : db_wf full.
Proof. apply full_persisted. Qed.

(** A handshake from the first group evicts the oldest of the other: on a tie
    between groups crowding does not only pay for itself. *)
Lemma tie_evicts_other_group :
  let db := record enumerate ∅ (entry (at4 10 1 0 3) 80 80) full in
  get (at4 20 2 0 1) db = None /\ get (at4 10 1 0 1) db = Some (entry (at4 10 1 0 1) 50 50).
Proof. vm_compute. split; reflexivity. Qed.

Lemma record_correct_witness :
  let r := entry (at4 30 3 0 1) 80 80 in
  let db := record enumerate ∅ r full in
  db_wf db /\ (size (entries db) <= 4)%nat
  /\ exists v, evicts (enumerate (entries full)) v
       /\ entries db = <[rec_address r := r]> (delete (rec_address v) (entries full)).
Proof.
  intros r db.
  destruct (record_correct enumerate ∅ r full enumerate_ok full_wf ltac:(vm_compute; discriminate))
    as (Hwf & Hs & H).
  split; [exact Hwf|]. split; [exact Hs|].
  rewrite decide_False in H by (intros [Hb|Hb]; exact (not_elem_of_empty _ Hb)).
  replace (entries full !! rec_address r) with (@None PeerRecord) in H by (vm_compute; reflexivity).
  replace (size (entries full) <? cap full)%nat with false in H by (vm_compute; reflexivity).
  rewrite decide_False in H.
  - destruct H as (v & Hv & _ & He). exists v. split; [exact Hv|exact He].
  - intros He. assert (Hsz : size (entries full) = 0%nat) by (rewrite He; apply map_size_empty).
    vm_compute in Hsz. discriminate.
Defined.

(** A full table of observed entries, and the same with a place free. *)
Definition roomy : PeerDb MemoryPeerStorage :=
  table 5 [entry (at4 10 1 0 1) 50 50; entry (at4 10 1 0 2) 60 60;
           entry (at4 20 2 0 1) 10 10; entry (at4 20 2 0 2) 70 70].

Definition rumours : list gossip := [rumour (at4 7 7 7 7); rumour (at4 8 8 8 8); rumour (at4 20 2 0 2)].

Lemma gossiped_ok : Forall gossip_ok rumours.
Proof. repeat (apply List.Forall_cons || apply List.Forall_nil); split; reflexivity || exact enumerate_ok. Qed.

(** One of the four peers of the full table goes. *)
Lemma full_loses_one : get (at4 20 2 0 1) (hear rumours full) = None.
Proof. by vm_compute. Qed.

Lemma roomy_wf : db_wf roomy.
Proof.
  intros k r. revert k r.
  assert (H : map_Forall (fun k r => rec_address r = k /\ (k ∉ (∅ : gset SocketAddr)) /\ 0 <= last_handshake_ms r) (entries roomy)).
  { apply (bool_decide_unpack _). vm_compute. exact I. }
  exact H.
Qed.

Lemma gossip_keeps_observed_witness :
  keeps_observed ∅ (entries roomy) (entries (hear rumours roomy)) /\
  (exists lost : gset SocketAddr, (size lost <= 1)%nat /\ keeps_observed lost (entries full) (entries (hear rumours full))).
Proof.
  split.
  - refine (proj1 (gossip_keeps_observed rumours roomy gossiped_ok roomy_wf) _).
    right. apply Nat.ltb_lt. vm_compute. reflexivity.
  - exact (proj1 (proj2 (gossip_keeps_observed rumours full gossiped_ok full_wf))).
Defined.

Lemma reload_same_witness :
  let db' := foldl run_op full
    [OpRecord enumerate ∅ (entry (at4 7 7 7 7) 99 0); OpForget (at4 10 1 0 1)] in
  exists db'', new (storage db') (cap db') (self_addresses db') = Ok db''
    /\ entries db'' = kept <$> entries db'.
Proof.
  refine (reload_same [OpRecord enumerate ∅ (entry (at4 7 7 7 7) 99 0); OpForget (at4 10 1 0 1)]
            full _ full_persisted).
  apply List.Forall_cons; [|apply List.Forall_cons; [exact I|apply List.Forall_nil]].
  split; [exact enumerate_ok|]. split; [exact I|]. vm_compute. discriminate.
Defined.

End Examples.

End PeerDb.
