(* ===== verification/Store.v ===== *)
(** * The modifier store

    src/store/src/redb.rs: the tables of the node's database, the two caches kept beside
    them, every operation of [ModifierStore], the opening with its rebuild of the caches
    and the one-shot migration of legacy header rows. A redb table is a finite map; a
    table that does not exist yet reads as an empty one, and a write transaction takes
    effect as a whole. A commit without fsync is visible at once; a crash leaves the last
    durable state or any state committed since, whichever redb kept. An operation that
    fails with an I/O error returns before its transaction commits and before it touches a
    cache: it is no step of the model. *)

From S2P Require Import Prelude Bytes Vlq Messages Handshake.
Import Handshake.

Module Store.

(** ** Tables *)

Record Tables := mk_tables {
  primary : gmap (Z * list Z) (list Z);
  height_index : gmap (Z * Z) (list Z);
  header_forks : gmap (Z * Z) (list Z);
  header_scores : gmap (list Z) (list Z);
  best_chain : gmap Z (list Z);
  chain_meta : gmap (list Z) (list Z);
  peer_rows : gmap (list Z) (list Z)
}.

Definition no_tables : Tables := mk_tables ∅ ∅ ∅ ∅ ∅ ∅ ∅.

Definition with_primary (t : Tables) m : Tables :=
  mk_tables m (height_index t) (header_forks t) (header_scores t) (best_chain t) (chain_meta t) (peer_rows t).
Definition with_height_index (t : Tables) m : Tables :=
  mk_tables (primary t) m (header_forks t) (header_scores t) (best_chain t) (chain_meta t) (peer_rows t).
Definition with_header_forks (t : Tables) m : Tables :=
  mk_tables (primary t) (height_index t) m (header_scores t) (best_chain t) (chain_meta t) (peer_rows t).
Definition with_header_scores (t : Tables) m : Tables :=
  mk_tables (primary t) (height_index t) (header_forks t) m (best_chain t) (chain_meta t) (peer_rows t).
Definition with_best_chain (t : Tables) m : Tables :=
  mk_tables (primary t) (height_index t) (header_forks t) (header_scores t) m (chain_meta t) (peer_rows t).
Definition with_chain_meta (t : Tables) m : Tables :=
  mk_tables (primary t) (height_index t) (header_forks t) (header_scores t) (best_chain t) m (peer_rows t).
Definition with_peer_rows (t : Tables) m : Tables :=
  mk_tables (primary t) (height_index t) (header_forks t) (header_scores t) (best_chain t) (chain_meta t) m.

(** Rows come in the order of their keys. *)
Definition row_le {A} (a b : Z * A) : Prop := a.1 <= b.1.
#[global] Instance row_le_dec {A} : RelDecision (@row_le A).
Proof. intros a b. apply Z_le_dec. Defined.

Definition sorted_rows {A} (m : gmap Z A) : list (Z * A) := merge_sort row_le (map_to_list m).

(** [table.range((k, 0)..=(k, u32::MAX))]. *)
Definition range_of {A} (k : Z) (m : gmap (Z * Z) A) : list (Z * A) :=
  merge_sort row_le
    (omap (fun r : (Z * Z) * A => if decide (r.1.1 = k) then Some (r.1.2, r.2) else None) (map_to_list m)).

(** ** The store *)

Definition NON_HEADER_TYPES : list Z := [102; 104; 108].

(** The tables as every reader sees them, as the last durable commit left them, and as
    each commit since left them, the newest first; then the caches. *)
Record RedbModifierStore := mk_redb {
  tables : Tables;
  durable : Tables;
  unsynced : list Tables;
  tips : gmap Z (Z * list Z);
  header_tip : option (Z * list Z)
}.

Inductive StoreError :=
| SingleHeaderPutForbidden
| ScoreRequiredForHeader
| HeaderNotInPrimary (id : list Z)
| HeaderPruneForbidden.

(** [ModifierBatchEntry]. *)
Record ModifierBatchEntry := mk_entry {
  e_type : Z;
  e_id : list Z;
  e_height : Z;
  e_data : list Z;
  e_score : option (list Z)
}.

(** A write transaction with [Durability::None]. *)
Definition commit (s : RedbModifierStore) (t : Tables) : RedbModifierStore :=
  mk_redb t (durable s) (t :: unsynced s) (tips s) (header_tip s).

(** [tip.is_none_or(|t| height > t.0)]. *)
Definition raises (height : Z) (tip : option (Z * list Z)) : bool :=
  match tip with None => true | Some t => t.1 <? height end.

Definition load_tips (t : Tables) : gmap Z (Z * list Z) :=
  foldl (fun m type_id =>
           match last (range_of type_id (height_index t)) with
           | Some row => <[type_id := row]> m
           | None => m
           end) ∅ NON_HEADER_TYPES.

Definition load_best_header_tip (t : Tables) : option (Z * list Z) := last (sorted_rows (best_chain t)).

Definition migrate_row (t : Tables) (row : Z * list Z) : Tables :=
  let t := with_header_forks t (<[(row.1, 0) := row.2]> (header_forks t)) in
  let t := with_header_scores t (<[row.2 := []]> (header_scores t)) in
  let t := with_best_chain t (<[row.1 := row.2]> (best_chain t)) in
  with_height_index t (delete (101, row.1) (height_index t)).

(** The migration commits durably. *)
Definition migrate_headers_if_needed (s : RedbModifierStore) : RedbModifierStore :=
  if negb (bool_decide (header_forks (tables s) = ∅)) then s
  else
    let entries := range_of 101 (height_index (tables s)) in
    match last entries with
    | None => s
    | Some tip =>
        let t := foldl migrate_row (tables s) entries in
        mk_redb t t [] (tips s) (Some tip)
    end.

(** [RedbModifierStore::new] on the tables the file holds. *)
Definition open (file : Tables) : RedbModifierStore :=
  migrate_headers_if_needed (mk_redb file file [] (load_tips file) (load_best_header_tip file)).

(** An empty durable commit. *)
Definition flush (s : RedbModifierStore) : RedbModifierStore :=
  mk_redb (tables s) (tables s) [] (tips s) (header_tip s).

(** The store opened on what a crash left: the [k]-th newest of the states committed since
    the last durable one, or that one if there are no more. *)
Definition surviving (k : nat) (s : RedbModifierStore) : Tables := nth k (unsynced s) (durable s).
Definition restart (k : nat) (s : RedbModifierStore) : RedbModifierStore := open (surviving k s).

(** ** Writing modifiers *)

Definition put_entry (t : Tables) (e : ModifierBatchEntry) : Tables :=
  let t := with_primary t (<[(e_type e, e_id e) := e_data e]> (primary t)) in
  if e_type e =? 101 then
    match e_score e with
    | None => t
    | Some score =>
        let t := with_header_scores t (<[e_id e := score]> (header_scores t)) in
        if 0 <? e_height e then
          let t := with_header_forks t (<[(e_height e, 0) := e_id e]> (header_forks t)) in
          with_best_chain t (<[e_height e := e_id e]> (best_chain t))
        else t
    end
  else if 0 <? e_height e then
    with_height_index t (<[(e_type e, e_height e) := e_id e]> (height_index t))
  else t.

Definition needs_score (e : ModifierBatchEntry) : bool :=
  (e_type e =? 101) && bool_decide (e_score e = None).

(** [new_best_tip]: the first of the highest headers of the batch. *)
Definition batch_best_tip (entries : list ModifierBatchEntry) : option (Z * list Z) :=
  foldl (fun tip e => if (e_type e =? 101) && (0 <? e_height e) && raises (e_height e) tip
                      then Some (e_height e, e_id e) else tip) None entries.

Definition raise_tips (m : gmap Z (Z * list Z)) (entries : list ModifierBatchEntry) : gmap Z (Z * list Z) :=
  foldl (fun m e => if negb (e_type e =? 101) && (0 <? e_height e) && raises (e_height e) (m !! e_type e)
                    then <[e_type e := (e_height e, e_id e)]> m else m) m entries.

Definition put_batch (entries : list ModifierBatchEntry) (s : RedbModifierStore) :
    result StoreError unit * RedbModifierStore :=
  if existsb needs_score entries then (Err ScoreRequiredForHeader, s)
  else
    let t := foldl put_entry (tables s) entries in
    let new_tip :=
      match batch_best_tip entries with
      | Some n => if raises n.1 (header_tip s) then Some n else header_tip s
      | None => header_tip s
      end in
    (Ok tt, mk_redb t (durable s) (t :: unsynced s) (raise_tips (tips s) entries) new_tip).

Definition put (type_id : Z) (id : list Z) (height : Z) (data : list Z) (s : RedbModifierStore) :
    result StoreError unit * RedbModifierStore :=
  if type_id =? 101 then (Err SingleHeaderPutForbidden, s)
  else put_batch [mk_entry type_id id height data None] s.

Definition put_header (id : list Z) (height fork : Z) (score data : list Z) (s : RedbModifierStore) :
    RedbModifierStore :=
  let t := tables s in
  let t := with_primary t (<[(101, id) := data]> (primary t)) in
  let t := with_header_forks t (<[(height, fork) := id]> (header_forks t)) in
  let t := with_header_scores t (<[id := score]> (header_scores t)) in
  let t := match best_chain t !! height with
           | None => with_best_chain t (<[height := id]> (best_chain t))
           | Some _ => t
           end in
  mk_redb t (durable s) (t :: unsynced s) (tips s)
    (if (fork =? 0) && raises height (header_tip s) then Some (height, id) else header_tip s).

Definition put_header_score (id score : list Z) (s : RedbModifierStore) :
    result StoreError unit * RedbModifierStore :=
  match primary (tables s) !! (101, id) with
  | None => (Err (HeaderNotInPrimary id), s)
  | Some _ => (Ok tt, commit s (with_header_scores (tables s) (<[id := score]> (header_scores (tables s)))))
  end.

Definition put_header_score_batch (entries : list (list Z * list Z)) (s : RedbModifierStore) :
    result StoreError unit * RedbModifierStore :=
  match find (fun e : list Z * list Z => bool_decide (primary (tables s) !! (101, e.1) = None)) entries with
  | Some e => (Err (HeaderNotInPrimary e.1), s)
  | None =>
      (Ok tt, commit s (with_header_scores (tables s)
                (foldl (fun m e => <[e.1 := e.2]> m) (header_scores (tables s)) entries)))
  end.

(** ** Pruning *)

Definition prune_rows (horizon : Z) (type_ids : list Z) (t : Tables) : list (Z * Z * list Z) :=
  concat ((fun ty => (fun r : Z * list Z => (ty, r.1, r.2))
                       <$> filter (fun r => r.1 < horizon) (range_of ty (height_index t))) <$> type_ids).

Definition prune_row (t : Tables) (row : Z * Z * list Z) : Tables :=
  let '(ty, h, id) := row in
  let t := with_primary t (delete (ty, id) (primary t)) in
  with_height_index t (delete (ty, h) (height_index t)).

Definition prune_below_height (horizon : Z) (type_ids : list Z) (s : RedbModifierStore) :
    result StoreError nat * RedbModifierStore :=
  if bool_decide (101 ∈ type_ids) then (Err HeaderPruneForbidden, s)
  else if bool_decide (type_ids = []) || (horizon =? 0) then (Ok 0%nat, s)
  else
    let to_delete := prune_rows horizon type_ids (tables s) in
    (Ok (length to_delete), commit s (foldl prune_row (tables s) to_delete)).

(** ** Reading *)

Definition get (type_id : Z) (id : list Z) (s : RedbModifierStore) : option (list Z) :=
  primary (tables s) !! (type_id, id).

Definition contains (type_id : Z) (id : list Z) (s : RedbModifierStore) : bool :=
  bool_decide (is_Some (primary (tables s) !! (type_id, id))).

Definition best_header_at (height : Z) (s : RedbModifierStore) : option (list Z) :=
  best_chain (tables s) !! height.

Definition get_id_at (type_id height : Z) (s : RedbModifierStore) : option (list Z) :=
  if type_id =? 101 then best_header_at height s
  else height_index (tables s) !! (type_id, height).

Definition best_header_tip (s : RedbModifierStore) : option (Z * list Z) := header_tip s.

Definition tip (type_id : Z) (s : RedbModifierStore) : option (Z * list Z) :=
  if type_id =? 101 then best_header_tip s else tips s !! type_id.

Definition header_ids_at_height (height : Z) (s : RedbModifierStore) : list (list Z * Z) :=
  (fun r : Z * list Z => (r.2, r.1)) <$> range_of height (header_forks (tables s)).

Definition header_score (id : list Z) (s : RedbModifierStore) : option (list Z) :=
  header_scores (tables s) !! id.

Definition min_height_present (type_id : Z) (s : RedbModifierStore) : option Z :=
  fst <$> head (if type_id =? 101 then sorted_rows (best_chain (tables s))
                else range_of type_id (height_index (tables s))).

Definition best_chain_entries (s : RedbModifierStore) : list (Z * list Z) :=
  sorted_rows (best_chain (tables s)).

Definition read_header_at (height : Z) (s : RedbModifierStore) : option (list Z) :=
  match best_chain (tables s) !! height with
  | Some id => primary (tables s) !! (101, id)
  | None => None
  end.

(** ** Metadata and peers *)

Definition chain_meta_get (key : list Z) (s : RedbModifierStore) : option (list Z) :=
  chain_meta (tables s) !! key.
Definition chain_meta_put (key value : list Z) (s : RedbModifierStore) : RedbModifierStore :=
  commit s (with_chain_meta (tables s) (<[key := value]> (chain_meta (tables s)))).
Definition chain_meta_delete (key : list Z) (s : RedbModifierStore) : RedbModifierStore :=
  commit s (with_chain_meta (tables s) (delete key (chain_meta (tables s)))).

Definition encode_addr (addr : SocketAddr) : list Z :=
  match ip addr with
  | V4 octets => 4 :: octets
  | V6 octets => 6 :: octets
  end ++ be_bytes 2 (port addr).

Definition decode_addr (bytes : list Z) : option SocketAddr :=
  match bytes with
  | family :: rest =>
      if (family =? 4) && (length bytes =? 7)%nat then
        Some (mk_addr (V4 (take 4 rest)) (from_be (drop 4 rest)))
      else if (family =? 6) && (length bytes =? 19)%nat then
        Some (mk_addr (V6 (take 16 rest)) (from_be (drop 16 rest)))
      else None
  | [] => None
  end.

Definition put_peer (addr : SocketAddr) (rec : list Z) (s : RedbModifierStore) : RedbModifierStore :=
  commit s (with_peer_rows (tables s) (<[encode_addr addr := rec]> (peer_rows (tables s)))).
Definition delete_peer (addr : SocketAddr) (s : RedbModifierStore) : RedbModifierStore :=
  commit s (with_peer_rows (tables s) (delete (encode_addr addr) (peer_rows (tables s)))).

(** Rows whose key does not decode are skipped; their order is not promised. *)
Definition list_peers (s : RedbModifierStore) : list (SocketAddr * list Z) :=
  omap (fun r : list Z * list Z => (fun a => (a, r.2)) <$> decode_addr r.1)
    (map_to_list (peer_rows (tables s))).

(** ** Rows *)

#[global] Instance row_le_trans {A} : Transitive (@row_le A).
Proof. intros a b c. unfold row_le. lia. Qed.
#[global] Instance row_le_total {A} : Total (@row_le A).
Proof. intros a b. unfold row_le. lia. Qed.

Lemma elem_of_sorted_rows {A} (m : gmap Z A) k v : (k, v) ∈ sorted_rows m <-> m !! k = Some v.
Proof. unfold sorted_rows. by rewrite merge_sort_Permutation, elem_of_map_to_list. Qed.

Lemma elem_of_range_of {A} (k : Z) (m : gmap (Z * Z) A) h v : (h, v) ∈ range_of k m <-> m !! (k, h) = Some v.
Proof.
  unfold range_of. rewrite merge_sort_Permutation, list_elem_of_omap. split.
  - intros ([[a b] w] & Hin%elem_of_map_to_list & He). cbn in He. case_decide; [|done].
    by simplify_eq.
  - intros Hv. exists ((k, h), v). rewrite elem_of_map_to_list. split; [done|]. cbn. by rewrite decide_True.
Qed.

Lemma last_row {A} (l : list (Z * A)) r :
  StronglySorted row_le l -> last l = Some r -> r ∈ l /\ forall q, q ∈ l -> q.1 <= r.1.
Proof.
  intros Hs Hr. apply last_Some in Hr as [l' ->]. split; [apply elem_of_app; right; by apply list_elem_of_singleton|].
  intros q [Hq|Hq]%elem_of_app; [|by apply list_elem_of_singleton in Hq as ->].
  apply (StronglySorted_app_1_elem_of _ _ _ q r Hs Hq). by apply list_elem_of_singleton.
Qed.

Lemma head_row {A} (l : list (Z * A)) r :
  StronglySorted row_le l -> head l = Some r -> r ∈ l /\ forall q, q ∈ l -> r.1 <= q.1.
Proof.
  intros Hs Hr. destruct l as [|a l]; [done|]. injection Hr as ->. inversion Hs as [|? ? ? Hf]; subst.
  split; [by left|]. intros q [->|Hq]%elem_of_cons; [done|]. rewrite Forall_forall in Hf. by apply Hf.
Qed.

Lemma sorted_rows_sorted {A} (m : gmap Z A) : StronglySorted row_le (sorted_rows m).
Proof. apply (StronglySorted_merge_sort row_le). Qed.

Lemma range_of_sorted {A} (k : Z) (m : gmap (Z * Z) A) : StronglySorted row_le (range_of k m).
Proof. apply (StronglySorted_merge_sort row_le). Qed.

Lemma last_None_nil {A} (l : list A) : last l = None -> l = [].
Proof. apply last_None. Qed.

(** [r] is the highest row of type [k]. *)
Definition highest {A} (k : Z) (m : gmap (Z * Z) A) (r : option (Z * A)) : Prop :=
  match r with
  | Some (h, v) => m !! (k, h) = Some v /\ forall h' v', m !! (k, h') = Some v' -> h' <= h
  | None => forall h v, m !! (k, h) <> Some v
  end.

Lemma last_range_highest {A} (k : Z) (m : gmap (Z * Z) A) : highest k m (last (range_of k m)).
Proof.
  destruct (last (range_of k m)) as [[h v]|] eqn:E.
  - destruct (last_row _ _ (range_of_sorted k m) E) as [Hin Hmax].
    split; [by apply elem_of_range_of|]. intros h' v' Hv'. by apply (Hmax (h', v')), elem_of_range_of.
  - apply last_None_nil in E. intros h v Hv%elem_of_range_of. rewrite E in Hv. by apply not_elem_of_nil in Hv.
Qed.

Definition topmost {A} (m : gmap Z A) (r : option (Z * A)) : Prop :=
  match r with
  | Some (h, v) => m !! h = Some v /\ forall h' v', m !! h' = Some v' -> h' <= h
  | None => m = ∅
  end.

Lemma last_rows_topmost {A} (m : gmap Z A) : topmost m (last (sorted_rows m)).
Proof.
  destruct (last (sorted_rows m)) as [[h v]|] eqn:E.
  - destruct (last_row _ _ (sorted_rows_sorted m) E) as [Hin Hmax].
    split; [by apply elem_of_sorted_rows|]. intros h' v' Hv'. by apply (Hmax (h', v')), elem_of_sorted_rows.
  - apply last_None_nil in E. apply map_eq. intros k. destruct (m !! k) as [v|] eqn:Ek; [|by rewrite lookup_empty].
    apply elem_of_sorted_rows in Ek. rewrite E in Ek. by apply not_elem_of_nil in Ek.
Qed.

(** ** Batches *)

(** What an entry says about a body, about the id at a height, about a score. *)
Definition data_of (ty : Z) (i : list Z) (e : ModifierBatchEntry) : option (list Z) :=
  if bool_decide (e_type e = ty /\ e_id e = i) then Some (e_data e) else None.
Definition id_of (ty h : Z) (e : ModifierBatchEntry) : option (list Z) :=
  if bool_decide (e_type e = ty /\ e_height e = h /\ 0 < h) then Some (e_id e) else None.
Definition score_of (i : list Z) (e : ModifierBatchEntry) : option (list Z) :=
  if bool_decide (e_type e = 101 /\ e_id e = i) then e_score e else None.

(** The last entry that says something decides. *)
Definition latest {A} (says : ModifierBatchEntry -> option A) (es : list ModifierBatchEntry) (old : option A) :
    option A :=
  match last (omap says es) with Some a => Some a | None => old end.

Lemma latest_snoc {A} (says : ModifierBatchEntry -> option A) es e old :
  latest says (es ++ [e]) old = match says e with Some a => Some a | None => latest says es old end.
Proof.
  unfold latest. rewrite omap_app. cbn. destruct (says e); [by rewrite last_snoc|by rewrite app_nil_r].
Qed.

Lemma fold_latest {A} (read : Tables -> option A) (says : ModifierBatchEntry -> option A) (P : ModifierBatchEntry -> Prop) :
  (forall t e, P e -> read (put_entry t e) = match says e with Some a => Some a | None => read t end) ->
  forall es t, Forall P es -> read (foldl put_entry t es) = latest says es (read t).
Proof.
  intros Hstep es t. induction es as [|e es IH] using rev_ind; intros HP; [done|].
  apply Forall_app in HP as [HP He]. rewrite foldl_snoc, latest_snoc, Hstep, IH; [done|done|].
  by apply Forall_cons in He as [? _].
Qed.

Definition scored (e : ModifierBatchEntry) : Prop := e_type e = 101 -> is_Some (e_score e).

Lemma scored_spec es : existsb needs_score es = false <-> Forall scored es.
Proof.
  rewrite <- not_true_iff_false, existsb_exists. split.
  - intros Hn. apply Forall_forall. intros e He Ht. destruct (e_score e) eqn:Es; [done|]. exfalso.
    apply Hn. exists e. rewrite <- list_elem_of_In. split; [done|]. unfold needs_score.
    rewrite Ht, Es. by rewrite bool_decide_true.
  - intros Hf (e & He & Hn). rewrite <- list_elem_of_In in He. rewrite Forall_forall in Hf.
    unfold needs_score in Hn. apply andb_true_iff in Hn as [Ht%Z.eqb_eq Hs%bool_decide_eq_true].
    destruct (Hf e He Ht) as [? ?]. congruence.
Qed.

Ltac entry_cases e :=
  unfold put_entry; destruct (Z.eqb_spec (e_type e) 101);
  [destruct (e_score e) eqn:?|]; destruct (Z.ltb_spec 0 (e_height e)); cbn.

Lemma put_entry_primary t e ty i :
  primary (put_entry t e) !! (ty, i) = match data_of ty i e with Some a => Some a | None => primary t !! (ty, i) end.
Proof.
  assert (primary (put_entry t e) = <[(e_type e, e_id e) := e_data e]> (primary t)) as ->
    by (by entry_cases e).
  unfold data_of. case_bool_decide as Hc; [destruct Hc as [-> ->]; by rewrite lookup_insert_eq|].
  rewrite lookup_insert_ne; [done|]. intros [= ? ?]. naive_solver.
Qed.

Lemma put_entry_scores t e i :
  scored e ->
  header_scores (put_entry t e) !! i = match score_of i e with Some a => Some a | None => header_scores t !! i end.
Proof.
  intros Hs. unfold score_of. case_bool_decide as Hc.
  - destruct Hc as [Ht <-]. destruct (Hs Ht) as [sc Hsc]. rewrite Hsc. entry_cases e; simplify_eq; by rewrite lookup_insert_eq.
  - entry_cases e; try done; (rewrite lookup_insert_ne; [done|naive_solver]).
Qed.

Lemma put_entry_best t e h :
  scored e ->
  best_chain (put_entry t e) !! h = match id_of 101 h e with Some a => Some a | None => best_chain t !! h end.
Proof.
  intros Hs. unfold id_of. case_bool_decide as Hc.
  - destruct Hc as (Ht & <- & Hh). destruct (Hs Ht) as [sc Hsc]. entry_cases e; simplify_eq; try lia; try done.
    by rewrite lookup_insert_eq.
  - entry_cases e; try done. rewrite lookup_insert_ne; [done|]. naive_solver.
Qed.

Lemma put_entry_forks t e h f :
  scored e ->
  header_forks (put_entry t e) !! (h, f) =
    match (if f =? 0 then id_of 101 h e else None) with Some a => Some a | None => header_forks t !! (h, f) end.
Proof.
  intros Hs. unfold id_of. destruct (Z.eqb_spec f 0) as [->|Hf]; [case_bool_decide as Hc|].
  - destruct Hc as (Ht & <- & Hh). destruct (Hs Ht) as [sc Hsc]. entry_cases e; simplify_eq; try lia; try done.
    by rewrite lookup_insert_eq.
  - entry_cases e; try done. rewrite lookup_insert_ne; [done|]. naive_solver.
  - entry_cases e; try done. rewrite lookup_insert_ne; [done|]. congruence.
Qed.

Lemma put_entry_index t e ty h :
  ty <> 101 ->
  height_index (put_entry t e) !! (ty, h) = match id_of ty h e with Some a => Some a | None => height_index t !! (ty, h) end.
Proof.
  intros Hty. unfold id_of. case_bool_decide as Hc.
  - destruct Hc as (<- & <- & Hh). entry_cases e; simplify_eq; try lia; try done. by rewrite lookup_insert_eq.
  - entry_cases e; try done. rewrite lookup_insert_ne; [done|]. intros [= ? ?]. naive_solver.
Qed.

Lemma put_entries_other es t :
  chain_meta (foldl put_entry t es) = chain_meta t /\ peer_rows (foldl put_entry t es) = peer_rows t.
Proof.
  induction es as [|e es IH] using rev_ind; [done|]. rewrite foldl_snoc. destruct IH as [<- <-].
  by entry_cases e.
Qed.

(** A batch is written completely or not at all. It is refused, and nothing changes,
    exactly when a header comes without its score. Otherwise every read afterwards is
    decided by the last entry of the batch about it, and by what was there before if
    there is none: bodies by type and id, ids by type and height (headers in the best
    chain, at fork 0), scores by header id; an entry at height 0 is in no height index,
    and nothing else changes. *)
Theorem put_batch_correct es s :
  let (r, s') := put_batch es s in
  match r with
  | Err e => e = ScoreRequiredForHeader /\ s' = s /\ ~ Forall scored es
  | Ok _ =>
      Forall scored es
      /\ (forall ty i, get ty i s' = latest (data_of ty i) es (get ty i s))
      /\ (forall ty h, get_id_at ty h s' = latest (id_of ty h) es (get_id_at ty h s))
      /\ (forall i, header_score i s' = latest (score_of i) es (header_score i s))
      /\ (forall h f, header_forks (tables s') !! (h, f) =
            if f =? 0 then latest (id_of 101 h) es (header_forks (tables s) !! (h, f))
            else header_forks (tables s) !! (h, f))
      /\ chain_meta (tables s') = chain_meta (tables s) /\ peer_rows (tables s') = peer_rows (tables s)
      /\ durable s' = durable s
  end.
Proof.
  unfold put_batch. destruct (existsb needs_score es) eqn:E.
  { split_and!; [done..|]. intros Hf%scored_spec. congruence. }
  apply scored_spec in E as Hs. destruct (put_entries_other es (tables s)) as [Hm Hp].
  assert (HT : Forall (fun _ => True) es) by (apply Forall_forall; done).
  split_and!; try done; cbn [tables]; unfold get, get_id_at, best_header_at, header_score; cbn [tables].
  - intros ty i. apply (fold_latest (fun t => primary t !! (ty, i)) _ (fun _ => True)); [|done].
    intros t e _. apply put_entry_primary.
  - intros ty h. destruct (Z.eqb_spec ty 101) as [->|Hne].
    + apply (fold_latest (fun t => best_chain t !! h) _ scored); [|done]. intros t e. apply put_entry_best.
    + apply (fold_latest (fun t => height_index t !! (ty, h)) _ (fun _ => True)); [|done].
      intros t e _. by apply put_entry_index.
  - intros i. apply (fold_latest (fun t => header_scores t !! i) _ scored); [|done].
    intros t e. apply put_entry_scores.
  - intros h f. destruct (f =? 0) eqn:Ef.
    + apply (fold_latest (fun t => header_forks t !! (h, f)) _ scored); [|done].
      intros t e He. rewrite put_entry_forks, Ef by done. done.
    + assert (H : header_forks (foldl put_entry (tables s) es) !! (h, f) =
                  latest (fun _ => None) es (header_forks (tables s) !! (h, f))).
      { apply (fold_latest (fun t => header_forks t !! (h, f)) _ scored); [|done].
        intros t e He. by rewrite put_entry_forks, Ef. }
      rewrite H. clear. unfold latest. assert (omap (fun _ => @None (list Z)) es = []) as -> by (induction es; done).
      done.
Qed.

(** ** Histories of a store *)

Inductive store_op :=
| Put (ty : Z) (i : list Z) (h : Z) (data : list Z)
| PutBatch (es : list ModifierBatchEntry)
| PutHeader (i : list Z) (h fork : Z) (score data : list Z)
| PutScore (i score : list Z)
| PutScores (es : list (list Z * list Z))
| Prune (horizon : Z) (types : list Z)
| MetaPut (key value : list Z)
| MetaDelete (key : list Z)
| PutPeer (a : SocketAddr) (rec : list Z)
| DeletePeer (a : SocketAddr)
| Flush
| Restart (k : nat).

Definition run_store (s : RedbModifierStore) (op : store_op) : RedbModifierStore :=
  match op with
  | Put ty i h data => (put ty i h data s).2
  | PutBatch es => (put_batch es s).2
  | PutHeader i h fork score data => put_header i h fork score data s
  | PutScore i score => (put_header_score i score s).2
  | PutScores es => (put_header_score_batch es s).2
  | Prune horizon types => (prune_below_height horizon types s).2
  | MetaPut key value => chain_meta_put key value s
  | MetaDelete key => chain_meta_delete key s
  | PutPeer a rec => put_peer a rec s
  | DeletePeer a => delete_peer a s
  | Flush => flush s
  | Restart k => restart k s
  end.

Section Consistency.
(** The height the callers know for a modifier; zero stands for unknown. *)
Variable height_of : Z -> list Z -> Z.

Definition entry_ok (e : ModifierBatchEntry) : Prop :=
  (e_type e = 101 \/ e_type e ∈ NON_HEADER_TYPES)
  /\ (e_height e = 0 \/ (0 < e_height e /\ (e_type e <> 101 -> e_height e = height_of (e_type e) (e_id e)))).

(** How the node calls the store: modifiers of the types it knows, sections under their
    own height, pruning below every tip. *)
Definition op_ok (s : RedbModifierStore) (op : store_op) : Prop :=
  match op with
  | Put ty i h data => entry_ok (mk_entry ty i h data None)
  | PutBatch es => Forall entry_ok es
  | Prune horizon types => forall ty h i, ty ∈ types -> tip ty s = Some (h, i) -> horizon <= h
  | _ => True
  end.

Definition stored (t : Tables) (i : list Z) : Prop :=
  is_Some (primary t !! (101, i)) /\ is_Some (header_scores t !! i).

Record tables_ok (t : Tables) : Prop := {
  best_stored : forall h i, best_chain t !! h = Some i -> stored t i;
  forks_stored : forall h f i, header_forks t !! (h, f) = Some i -> stored t i;
  index_stored : forall ty h i, height_index t !! (ty, h) = Some i ->
    ty ∈ NON_HEADER_TYPES /\ 0 < h /\ height_of ty i = h /\ is_Some (primary t !! (ty, i))
}.

(** The cached header tip: the highest height of the best chain, but for the heights that
    [put_header] filled under a fork number other than 0, for which the cache is left. *)
Definition forked (t : Tables) (h : Z) : Prop := exists f, f <> 0 /\ is_Some (header_forks t !! (h, f)).
Definition header_top (t : Tables) (top : option Z) : Prop :=
  match top with
  | Some h => is_Some (best_chain t !! h)
      /\ forall h', is_Some (best_chain t !! h') -> h' <= h \/ forked t h'
  | None => forall h', is_Some (best_chain t !! h') -> forked t h'
  end.

Record store_ok (s : RedbModifierStore) : Prop := {
  live_ok : tables_ok (tables s);
  durable_ok : tables_ok (durable s);
  unsynced_ok : Forall tables_ok (unsynced s);
  tips_ok : forall ty, ty <> 101 ->
    fst <$> tips s !! ty = fst <$> last (range_of ty (height_index (tables s)));
  header_tip_ok : header_top (tables s) (fst <$> header_tip s)
}.

Definition omax (a b : option Z) : option Z :=
  match a, b with
  | Some x, Some y => Some (Z.max x y)
  | Some x, None => Some x
  | None, b => b
  end.

(** The height of the highest row after one more. *)
Lemma last_range_insert (k : Z) (m : gmap (Z * Z) (list Z)) h v :
  fst <$> last (range_of k (<[(k, h) := v]> m)) =
    omax (fst <$> last (range_of k m)) (Some h).
Proof.
  pose proof (last_range_highest k m) as Hm. pose proof (last_range_highest k (<[(k, h) := v]> m)) as Hn.
  destruct (last (range_of k (<[(k, h) := v]> m))) as [[h1 v1]|]; cbn.
  2:{ exfalso. apply (Hn h v). by rewrite lookup_insert_eq. }
  destruct Hn as [Hn1 Hn2]. pose proof (Hn2 h v ltac:(by rewrite lookup_insert_eq)) as Hle.
  destruct (last (range_of k m)) as [[h0 v0]|]; cbn; f_equal.
  - destruct Hm as [Hm1 Hm2]. assert (h0 <= h1).
    { destruct (decide (h0 = h)) as [->|]; [done|]. apply (Hn2 h0 v0). rewrite lookup_insert_ne; [done|congruence]. }
    destruct (decide (h1 = h)) as [->|Hne]; [lia|]. rewrite lookup_insert_ne in Hn1 by congruence.
    apply Hm2 in Hn1. lia.
  - destruct (decide (h1 = h)) as [->|Hne]; [done|]. rewrite lookup_insert_ne in Hn1 by congruence.
    by apply Hm in Hn1.
Qed.

Lemma last_range_insert_ne (k ty : Z) (m : gmap (Z * Z) (list Z)) h v :
  k <> ty -> fst <$> last (range_of k (<[(ty, h) := v]> m)) = fst <$> last (range_of k m).
Proof.
  intros Hne. pose proof (last_range_highest k m) as Hm.
  pose proof (last_range_highest k (<[(ty, h) := v]> m)) as Hn.
  assert (Hl : forall h', <[(ty, h) := v]> m !! (k, h') = m !! (k, h')) by (intros; apply lookup_insert_ne; congruence).
  destruct (last (range_of k (<[(ty, h) := v]> m))) as [[h1 v1]|], (last (range_of k m)) as [[h0 v0]|]; cbn; try done.
  - destruct Hm as [Hm1 Hm2], Hn as [Hn1 Hn2]. rewrite Hl in Hn1. f_equal. apply Z.le_antisymm; [by eapply Hm2|].
    apply (Hn2 _ v0). by rewrite Hl.
  - destruct Hn as [Hn1 _]. rewrite Hl in Hn1. by apply Hm in Hn1.
  - destruct Hm as [Hm1 _]. exfalso. apply (Hn h0 v0). by rewrite Hl.
Qed.

(** Another row of the best chain, the tip raised to it if it is higher. *)
Lemma header_top_insert t t' h i top :
  best_chain t' = <[h := i]> (best_chain t) -> (forall k, forked t k -> forked t' k) ->
  header_top t top -> header_top t' (omax top (Some h)).
Proof.
  intros Eb Hf Ht. destruct top as [h0|]; cbn in *; rewrite Eb; split.
  - destruct (Z.max_spec h0 h) as [[_ ->]|[_ ->]]; [by rewrite lookup_insert_eq|].
    destruct (decide (h0 = h)) as [->|]; [by rewrite lookup_insert_eq|]. rewrite lookup_insert_ne by done. apply Ht.
  - intros k Hk. destruct (decide (k = h)) as [->|]; [left; lia|]. rewrite lookup_insert_ne in Hk by done.
    apply Ht in Hk as [?|?]; [left; lia|right; by apply Hf].
  - by rewrite lookup_insert_eq.
  - intros k Hk. destruct (decide (k = h)) as [->|]; [by left|]. rewrite lookup_insert_ne in Hk by done.
    right. by apply Hf, Ht.
Qed.

Lemma header_top_same t t' top :
  best_chain t' = best_chain t -> (forall k, forked t k -> forked t' k) -> header_top t top -> header_top t' top.
Proof.
  intros Eb Hf. unfold header_top. rewrite Eb. destruct top; [|naive_solver].
  intros [? Hk]. split; [done|]. intros k []%Hk; auto.
Qed.

Lemma raises_max h (r : option (Z * list Z)) i :
  fst <$> (if raises h r then Some (h, i) else r) = omax (fst <$> r) (Some h).
Proof.
  destruct r as [[h' i']|]; cbn; [|done]. destruct (Z.ltb_spec h' h); cbn; f_equal; lia.
Qed.

Definition is_row (e : ModifierBatchEntry) : bool := negb (e_type e =? 101) && (0 <? e_height e).
Definition is_best (e : ModifierBatchEntry) : bool := (e_type e =? 101) && (0 <? e_height e).

Lemma put_entry_index_table t e :
  height_index (put_entry t e) =
    if is_row e then <[(e_type e, e_height e) := e_id e]> (height_index t) else height_index t.
Proof. unfold is_row. by entry_cases e. Qed.

Lemma put_entry_best_table t e :
  scored e -> best_chain (put_entry t e) =
    if is_best e then <[e_height e := e_id e]> (best_chain t) else best_chain t.
Proof.
  intros Hs. unfold is_best. entry_cases e; try done. destruct (Hs ltac:(done)) as [? ?]. congruence.
Qed.

Lemma raise_tips_ok es m t :
  (forall ty, ty <> 101 -> fst <$> m !! ty = fst <$> last (range_of ty (height_index t))) ->
  forall ty, ty <> 101 ->
    fst <$> raise_tips m es !! ty = fst <$> last (range_of ty (height_index (foldl put_entry t es))).
Proof.
  intros Hm. unfold raise_tips. induction es as [|e es IH] using rev_ind; intros ty Hty; [by apply Hm|].
  rewrite !foldl_snoc, put_entry_index_table. set (m' := foldl _ m es) in *. cbv beta.
  replace (negb (e_type e =? 101) && (0 <? e_height e) && raises (e_height e) (m' !! e_type e))
    with (is_row e && raises (e_height e) (m' !! e_type e)) by done.
  destruct (is_row e) eqn:Er; cbn [andb]; [|by apply IH].
  apply andb_true_iff in Er as [Hne%negb_true_iff%Z.eqb_neq _].
  destruct (decide (ty = e_type e)) as [->|Hd].
  - rewrite last_range_insert, <- IH by done. rewrite <- (raises_max (e_height e) (m' !! e_type e) (e_id e)).
    destruct (raises _ _); [by rewrite lookup_insert_eq|done].
  - rewrite last_range_insert_ne by done. destruct (raises _ _); [rewrite lookup_insert_ne by done|]; by apply IH.
Qed.

Lemma put_entry_forked t e k : scored e -> forked t k -> forked (put_entry t e) k.
Proof.
  intros Hs (f & Hf & Hk). exists f. split; [done|]. by rewrite put_entry_forks, (proj2 (Z.eqb_neq _ _) Hf).
Qed.

Lemma batch_tip_ok es t (tip : option (Z * list Z)) :
  Forall scored es -> header_top t (fst <$> tip) ->
  header_top (foldl put_entry t es)
    (fst <$> match batch_best_tip es with Some n => if raises n.1 tip then Some n else tip | None => tip end).
Proof.
  intros Hs Ht. assert (E : fst <$> match batch_best_tip es with Some n => if raises n.1 tip then Some n else tip
    | None => tip end = omax (fst <$> tip) (fst <$> batch_best_tip es)).
  { destruct (batch_best_tip es) as [[h i]|]; [apply raises_max|by destruct tip]. }
  rewrite E. clear E. unfold batch_best_tip. induction es as [|e es IH] using rev_ind; cbn; [by destruct tip|].
  apply Forall_app in Hs as [Hs He%Forall_cons]. destruct He as [He _]. specialize (IH Hs).
  rewrite !foldl_snoc. set (b := foldl _ None es) in *. cbv beta.
  replace ((e_type e =? 101) && (0 <? e_height e) && raises (e_height e) b)
    with (is_best e && raises (e_height e) b) by done.
  pose proof (put_entry_best_table (foldl put_entry t es) e He) as Eb.
  pose proof (put_entry_forked (foldl put_entry t es) e) as Hf.
  destruct (is_best e); cbn [andb]; [|by apply (header_top_same (foldl put_entry t es)); auto].
  rewrite (raises_max (e_height e) b (e_id e)).
  replace (omax (fst <$> tip) (omax (fst <$> b) (Some (e_height e))))
    with (omax (omax (fst <$> tip) (fst <$> b)) (Some (e_height e)))
    by (destruct (fst <$> tip), (fst <$> b); cbn; f_equal; lia).
  eapply header_top_insert; eauto.
Qed.

(** ** Every operation keeps the tables consistent *)

Lemma put_entry_stored t e i : scored e -> stored t i -> stored (put_entry t e) i.
Proof.
  intros Hs [Hp Hc]. split; [rewrite put_entry_primary|rewrite put_entry_scores by done];
    by case_match.
Qed.

Lemma put_entry_new t e : scored e -> e_type e = 101 -> stored (put_entry t e) (e_id e).
Proof.
  intros Hs Ht. destruct (Hs Ht) as [sc Hsc]. split.
  - rewrite put_entry_primary. unfold data_of. by rewrite bool_decide_true.
  - rewrite put_entry_scores by done. unfold score_of. by rewrite bool_decide_true, Hsc.
Qed.

Lemma put_entry_ok t e : scored e -> entry_ok e -> tables_ok t -> tables_ok (put_entry t e).
Proof.
  intros Hs [Hty Hh] [H1 H2 H3]. split.
  - intros h i. rewrite put_entry_best by done. unfold id_of. case_bool_decide as Hc.
    + destruct Hc as (Ht & _). intros [= <-]. by apply put_entry_new.
    + intros Hi. by eapply put_entry_stored, H1.
  - intros h f i. rewrite put_entry_forks by done. destruct (f =? 0); unfold id_of; [case_bool_decide as Hc|].
    + destruct Hc as (Ht & _). intros [= <-]. by apply put_entry_new.
    + intros Hi. by eapply put_entry_stored, H2.
    + intros Hi. by eapply put_entry_stored, H2.
  - intros ty h i Hi. rewrite put_entry_index_table in Hi. rewrite put_entry_primary. destruct (is_row e) eqn:Er.
    + apply andb_true_iff in Er as [Hne%negb_true_iff%Z.eqb_neq Hp%Z.ltb_lt].
      apply lookup_insert_Some in Hi as [[[= <- <-] <-]|[_ Hi]].
      * unfold data_of. rewrite bool_decide_true by done. destruct Hh as [|[_ Hh]]; [lia|]. naive_solver.
      * apply H3 in Hi as (? & ? & ? & ?). split_and!; [done..|]. by case_match.
    + apply H3 in Hi as (? & ? & ? & ?). split_and!; [done..|]. by case_match.
Qed.

Lemma put_entries_ok es t : Forall scored es -> Forall entry_ok es -> tables_ok t -> tables_ok (foldl put_entry t es).
Proof.
  intros Hs He Ht. revert t Ht. induction es as [|e es IH]; intros t Ht; [done|].
  apply Forall_cons in Hs as [Hs1 Hs], He as [He1 He]. cbn. by apply IH, put_entry_ok.
Qed.

Lemma put_batch_ok es s : Forall entry_ok es -> store_ok s -> store_ok (put_batch es s).2.
Proof.
  intros He [H1 H2 H3 H4 H5]. unfold put_batch. destruct (existsb needs_score es) eqn:E; [done|].
  apply scored_spec in E. pose proof (put_entries_ok es _ E He H1).
  split; cbn [snd tables durable unsynced tips header_tip]; [done|done|by constructor| |].
  - by apply raise_tips_ok.
  - by apply batch_tip_ok.
Qed.

Lemma non_header ty : ty ∈ NON_HEADER_TYPES -> ty <> 101.
Proof. unfold NON_HEADER_TYPES. rewrite !elem_of_cons, elem_of_nil. lia. Qed.

Definition header_row (i : list Z) (h fork : Z) (score data : list Z) (t : Tables) : Tables :=
  with_header_scores (with_header_forks (with_primary t (<[(101, i) := data]> (primary t)))
    (<[(h, fork) := i]> (header_forks t))) (<[i := score]> (header_scores t)).

Lemma header_row_stored i h fork score data t j :
  stored t j \/ j = i -> stored (header_row i h fork score data t) j.
Proof.
  intros Hj. split; cbn.
  - destruct (decide (j = i)) as [->|]; [by rewrite lookup_insert_eq|].
    rewrite lookup_insert_ne by congruence. by destruct Hj as [[? ?]|].
  - destruct (decide (j = i)) as [->|]; [by rewrite lookup_insert_eq|].
    rewrite lookup_insert_ne by congruence. by destruct Hj as [[? ?]|].
Qed.

Lemma header_row_ok i h fork score data t : tables_ok t -> tables_ok (header_row i h fork score data t).
Proof.
  intros [H1 H2 H3]. split.
  - intros k j Hj. apply header_row_stored. left. by eapply H1.
  - intros k f j Hj. apply header_row_stored. cbn in Hj. apply lookup_insert_Some in Hj as [[_ <-]|[_ Hj]]; [by right|].
    left. by eapply H2.
  - intros ty k j Hj. apply H3 in Hj as (? & ? & ? & ?). split_and!; [done..|]. cbn.
    rewrite lookup_insert_ne; [done|]. intros [= <- _]. by apply (non_header 101).
Qed.

Lemma best_row_ok h i t : stored t i -> tables_ok t -> tables_ok (with_best_chain t (<[h := i]> (best_chain t))).
Proof.
  intros Hi [H1 H2 H3]. split; cbn; [|done|done].
  intros k j Hj. apply lookup_insert_Some in Hj as [[_ <-]|[_ Hj]]; [done|]. by apply (H1 k).
Qed.

Lemma header_row_forked i h fork score data t k :
  forked t k \/ (k = h /\ fork <> 0) -> forked (header_row i h fork score data t) k.
Proof.
  intros [(f & Hf & Hk)|[-> Hf]]; [exists f|exists fork]; (split; [done|]); cbn.
  - destruct (decide ((h, fork) = (k, f))) as [<-|]; [by rewrite lookup_insert_eq|by rewrite lookup_insert_ne].
  - by rewrite lookup_insert_eq.
Qed.

(** A header put at an empty height, under fork 0 or not. *)
Lemma header_row_top i h fork score data t (tip : option (Z * list Z)) :
  header_top t (fst <$> tip) ->
  let t1 := header_row i h fork score data t in
  let t2 := with_best_chain t1 (<[h := i]> (best_chain t)) in
  header_top t2 (fst <$> if (fork =? 0) && raises h tip then Some (h, i) else tip).
Proof.
  intros Ht t1 t2. destruct (Z.eqb_spec fork 0) as [->|Hf]; cbn [andb].
  - rewrite (raises_max h tip i). apply (header_top_insert t _ h i); [done| |done].
    intros k Hk. apply (header_row_forked i h 0 score data t k). by left.
  - assert (Hk : forall k, forked t k \/ (k = h /\ fork <> 0) -> forked t2 k) by (intros k; apply header_row_forked).
    destruct tip as [[h0 j]|]; cbn [fmap option_fmap option_map fst header_top best_chain t2 with_best_chain] in *.
    + split.
      * destruct (decide (h = h0)) as [->|]; [by rewrite lookup_insert_eq|]. rewrite lookup_insert_ne by done. apply Ht.
      * intros k Hs. destruct (decide (h = k)) as [->|]; [right; by apply Hk; right|].
        rewrite lookup_insert_ne in Hs by done. apply Ht in Hs as [?|?]; [by left|right; by apply Hk; left].
    + intros k Hs. apply Hk. destruct (decide (h = k)) as [->|]; [by right|left].
      rewrite lookup_insert_ne in Hs by done. by apply Ht.
Qed.

(** A header put at a height that has one: under fork 0 the cache may rise to it. *)
Lemma header_row_top_present i h fork score data t (tip : option (Z * list Z)) :
  is_Some (best_chain t !! h) -> header_top t (fst <$> tip) ->
  header_top (header_row i h fork score data t) (fst <$> if (fork =? 0) && raises h tip then Some (h, i) else tip).
Proof.
  intros Hh Ht. assert (Ht' : header_top (header_row i h fork score data t) (fst <$> tip)).
  { apply (header_top_same t); [done| |done]. intros k Hk. apply header_row_forked. by left. }
  destruct (fork =? 0); cbn [andb]; [|done]. rewrite (raises_max h tip i).
  destruct (fst <$> tip) as [h0|]; cbn in *; split.
  - destruct (Z.max_spec h0 h) as [[_ ->]|[_ ->]]; [done|apply Ht'].
  - intros k []%Ht'; [left; lia|by right].
  - done.
  - intros k ?%Ht'. by right.
Qed.

Lemma put_header_ok i h fork score data s : store_ok s -> store_ok (put_header i h fork score data s).
Proof.
  intros [H1 H2 H3 H4 H5]. unfold put_header.
  change (with_header_scores _ _) with (header_row i h fork score data (tables s)).
  pose proof (header_row_ok i h fork score data _ H1) as Hr.
  pose proof (header_row_stored i h fork score data (tables s) i (or_intror eq_refl)) as Hi.
  change (best_chain (header_row i h fork score data (tables s))) with (best_chain (tables s)).
  destruct (best_chain (tables s) !! h) as [j|] eqn:Eb; split; cbn [tables durable unsynced tips header_tip];
    try done; try (constructor; [|done]); try done.
  - by apply header_row_top_present.
  - exact (best_row_ok h i (header_row i h fork score data (tables s)) Hi Hr).
  - exact (best_row_ok h i (header_row i h fork score data (tables s)) Hi Hr).
  - by apply header_row_top.
Qed.

(** ** Pruning *)

Lemma elem_of_prune_rows horizon types t ty h i :
  (ty, h, i) ∈ prune_rows horizon types t <->
    ty ∈ types /\ h < horizon /\ height_index t !! (ty, h) = Some i.
Proof.
  unfold prune_rows. rewrite list_elem_of_In, in_concat. split.
  - intros (l & Hl & Hi). rewrite <- list_elem_of_In in Hl. rewrite <- list_elem_of_In in Hi.
    apply list_elem_of_fmap in Hl as (ty' & -> & Hty).
    apply list_elem_of_fmap in Hi as ([h' i'] & [= -> -> ->] & Hr).
    apply list_elem_of_filter in Hr as [Hlt Hr%elem_of_range_of]. done.
  - intros (Hty & Hlt & Hi).
    exists ((fun r : Z * list Z => (ty, r.1, r.2)) <$> filter (fun r => r.1 < horizon) (range_of ty (height_index t))).
    rewrite <- !list_elem_of_In, !list_elem_of_fmap. split; [by exists ty|].
    exists (h, i). split; [done|]. apply list_elem_of_filter. split; [done|]. by apply elem_of_range_of.
Qed.

Lemma prune_index rows t ty h :
  height_index (foldl prune_row t rows) !! (ty, h) =
    if bool_decide ((ty, h) ∈ rows.*1) then None else height_index t !! (ty, h).
Proof.
  induction rows as [|[[a b] j] rows IH] using rev_ind; [done|]. rewrite foldl_snoc, fmap_app. cbn.
  destruct (decide ((a, b) = (ty, h))) as [[= -> ->]|Hne].
  - rewrite lookup_delete_eq, bool_decide_true; [done|]. apply elem_of_app. right. by apply list_elem_of_singleton.
  - rewrite lookup_delete_ne, IH by done. apply (f_equal (fun b : bool => if b then None else height_index t !! (ty, h))).
    apply bool_decide_ext. rewrite elem_of_app, list_elem_of_singleton. naive_solver.
Qed.

Lemma prune_primary rows t ty i :
  primary (foldl prune_row t rows) !! (ty, i) =
    if bool_decide (Exists (fun r : Z * Z * list Z => r.1.1 = ty /\ r.2 = i) rows) then None
    else primary t !! (ty, i).
Proof.
  induction rows as [|[[a b] j] rows IH] using rev_ind; [done|]. rewrite foldl_snoc. cbn.
  destruct (decide ((a, j) = (ty, i))) as [[= -> ->]|Hne].
  - rewrite lookup_delete_eq, bool_decide_true; [done|]. apply Exists_app. right. by apply Exists_cons; left.
  - rewrite lookup_delete_ne, IH by done. apply (f_equal (fun b : bool => if b then None else primary t !! (ty, i))).
    apply bool_decide_ext. rewrite Exists_app, Exists_cons, Exists_nil. cbn. naive_solver.
Qed.

Lemma prune_other rows t :
  header_forks (foldl prune_row t rows) = header_forks t /\ header_scores (foldl prune_row t rows) = header_scores t
  /\ best_chain (foldl prune_row t rows) = best_chain t /\ chain_meta (foldl prune_row t rows) = chain_meta t
  /\ peer_rows (foldl prune_row t rows) = peer_rows t.
Proof.
  revert t. induction rows as [|[[a b] j] rows IH]; intros t; [done|]. cbn [foldl].
  destruct (IH (prune_row t (a, b, j))) as (-> & -> & -> & -> & ->). done.
Qed.

(** After pruning the index has a row exactly if it had one outside the pruned range,
    and a body is gone exactly if a pruned row named it. *)
Lemma pruned_index horizon types t ty h :
  height_index (foldl prune_row t (prune_rows horizon types t)) !! (ty, h) =
    if bool_decide (ty ∈ types /\ h < horizon) then None else height_index t !! (ty, h).
Proof.
  rewrite prune_index. destruct (height_index t !! (ty, h)) as [i|] eqn:E; [|by repeat case_bool_decide].
  apply (f_equal (fun b : bool => if b then None else Some i)), bool_decide_ext. rewrite list_elem_of_fmap. split.
  - intros ([[a b] j] & [= -> ->] & Hin%elem_of_prune_rows). naive_solver.
  - intros [Hty Hlt]. exists (ty, h, i). split; [done|]. by apply elem_of_prune_rows.
Qed.

Definition pruned_body (horizon : Z) (types : list Z) (t : Tables) (ty : Z) (i : list Z) : Prop :=
  ty ∈ types /\ exists h, h < horizon /\ height_index t !! (ty, h) = Some i.

Lemma pruned_primary horizon types t ty i :
  let t' := foldl prune_row t (prune_rows horizon types t) in
  (pruned_body horizon types t ty i -> primary t' !! (ty, i) = None)
  /\ (~ pruned_body horizon types t ty i -> primary t' !! (ty, i) = primary t !! (ty, i)).
Proof.
  intros t'. subst t'. rewrite prune_primary. split; intros H.
  - rewrite bool_decide_true; [done|]. destruct H as (Hty & h & Hlt & Hi). apply Exists_exists.
    exists (ty, h, i). split; [by apply elem_of_prune_rows|done].
  - rewrite bool_decide_false; [done|]. intros ([[a b] j] & Hin & <- & <-)%Exists_exists. apply H.
    apply elem_of_prune_rows in Hin as (? & ? & ?). split; [done|]. by exists b.
Qed.

Lemma prune_tables_ok horizon types t :
  101 ∉ types -> tables_ok t -> tables_ok (foldl prune_row t (prune_rows horizon types t)).
Proof.
  intros Hno [H1 H2 H3]. destruct (prune_other (prune_rows horizon types t) t) as (Ef & Es & Eb & _).
  assert (Hst : forall i, stored t i -> stored (foldl prune_row t (prune_rows horizon types t)) i).
  { intros i [Hp Hc]. split; [|by rewrite Es]. rewrite (proj2 (pruned_primary horizon types t 101 i)); [done|].
    by intros [? _]. }
  split; [rewrite Eb|rewrite Ef|]; [by eauto..|].
  intros ty h i Hi. rewrite pruned_index in Hi. case_bool_decide as Hc; [done|].
  destruct (H3 ty h i Hi) as (? & ? & Hh & Hp). split_and!; [done..|].
  rewrite (proj2 (pruned_primary horizon types t ty i)); [done|].
  intros (Hty & h' & Hlt & Hi'). apply H3 in Hi' as (_ & _ & Hh' & _). apply Hc. split; [done|]. congruence.
Qed.

Lemma highest_agree {A} (k : Z) (m m' : gmap (Z * Z) A) r r' :
  highest k m r -> highest k m' r' ->
  (forall h v, m' !! (k, h) = Some v -> m !! (k, h) = Some v) ->
  (forall h v, r = Some (h, v) -> m' !! (k, h) = Some v) ->
  fst <$> r = fst <$> r'.
Proof.
  intros Hr Hr' Hsub Hkeep. destruct r as [[h v]|], r' as [[h' v']|]; cbn in *; try done.
  - destruct Hr as [_ Hm], Hr' as [H' Hm']. f_equal. apply Z.le_antisymm; [|by eapply Hm, Hsub].
    by eapply Hm', Hkeep.
  - exfalso. by apply (Hr' h v), Hkeep.
  - exfalso. destruct Hr' as [H' _]. by apply (Hr h' v'), Hsub.
Qed.

Lemma prune_ok horizon types s :
  op_ok s (Prune horizon types) -> store_ok s -> store_ok (prune_below_height horizon types s).2.
Proof.
  intros Hop [H1 H2 H5 H3 H4]. unfold prune_below_height. case_bool_decide as Hno; [done|].
  destruct (_ || _); [done|]. cbn [snd].
  destruct (prune_other (prune_rows horizon types (tables s)) (tables s)) as (Ef & _ & Eb & _).
  pose proof (prune_tables_ok horizon types _ Hno H1).
  split; cbn [commit tables durable unsynced tips header_tip]; [done|done|by constructor| |].
  2:{ apply (header_top_same (tables s)); [done| |done]. intros k (f & ? & ?). exists f. by rewrite Ef. }
  intros ty Hty. rewrite H3 by done. apply (highest_agree ty (height_index (tables s))
    (height_index (foldl prune_row (tables s) (prune_rows horizon types (tables s)))));
    [apply last_range_highest..| |].
  - intros h v. rewrite pruned_index. by case_bool_decide.
  - intros h v El. rewrite pruned_index. pose proof (last_range_highest ty (height_index (tables s))) as Hh.
    rewrite El in Hh. destruct Hh as [Hh _]. rewrite bool_decide_false; [done|]. intros [Hin Hlt].
    specialize (H3 ty Hty). rewrite El in H3. destruct (tips s !! ty) as [[th ti]|] eqn:Et; [|done].
    cbn in H3. injection H3 as ->. specialize (Hop ty h ti Hin). unfold tip in Hop.
    rewrite (proj2 (Z.eqb_neq _ _) Hty) in Hop. specialize (Hop Et). lia.
Qed.

(** ** Restarting *)

Lemma no_legacy_rows t : tables_ok t -> range_of 101 (height_index t) = [].
Proof.
  intros Ht. destruct (range_of 101 (height_index t)) as [|[h i] l] eqn:E; [done|]. exfalso.
  assert (Hi : height_index t !! (101, h) = Some i) by (apply elem_of_range_of; rewrite E; by left).
  apply (index_stored _ Ht) in Hi as [Hn _]. by apply (non_header 101).
Qed.

Lemma open_tables t : tables_ok t -> open t = mk_redb t t [] (load_tips t) (load_best_header_tip t).
Proof.
  intros Ht. unfold open, migrate_headers_if_needed. cbn [tables].
  destruct (negb _); [done|]. by rewrite no_legacy_rows.
Qed.

Lemma load_tips_lookup t ty :
  load_tips t !! ty = if bool_decide (ty ∈ NON_HEADER_TYPES) then last (range_of ty (height_index t)) else None.
Proof.
  unfold load_tips.
  assert (H : forall l (m : gmap Z (Z * list Z)), NoDup l -> (forall x, x ∈ l -> m !! x = None) ->
    foldl (fun m type_id => match last (range_of type_id (height_index t)) with
                            | Some row => <[type_id := row]> m | None => m end) m l !! ty
    = if bool_decide (ty ∈ l) then last (range_of ty (height_index t)) else m !! ty).
  { induction l as [|x l IH]; intros m Hnd Hm; [by rewrite bool_decide_false by apply not_elem_of_nil|].
    apply NoDup_cons in Hnd as [Hx Hnd]. cbn [foldl]. rewrite IH; [|done|].
    - destruct (decide (ty = x)) as [->|Hne].
      + rewrite bool_decide_false by done. rewrite bool_decide_true by by left.
        destruct (last _) as [row|]; [by rewrite lookup_insert_eq|]. apply Hm. by left.
      + assert (Hb : bool_decide (ty ∈ l) = bool_decide (ty ∈ x :: l))
          by (apply bool_decide_ext; rewrite elem_of_cons; naive_solver).
        rewrite Hb. destruct (bool_decide (ty ∈ x :: l)); [done|].
        destruct (last (range_of x (height_index t))); [by rewrite lookup_insert_ne|done].
    - intros y Hy. destruct (last (range_of x (height_index t)));
        [rewrite lookup_insert_ne by congruence|]; apply Hm; by right. }
  apply H; [|intros; apply lookup_empty]. apply (bool_decide_unpack _). by vm_compute.
Qed.

Lemma open_ok t : tables_ok t -> store_ok (open t).
Proof.
  intros Ht. rewrite open_tables by done. split; cbn [tables durable unsynced tips header_tip]; try done.
  - intros ty Hty. rewrite load_tips_lookup. case_bool_decide as Hin; [done|].
    pose proof (last_range_highest ty (height_index t)) as Hh. destruct (last _) as [[h i]|]; [|done].
    destruct Hh as [Hh _]. apply (index_stored _ Ht) in Hh as [? _]. done.
  - unfold load_best_header_tip. pose proof (last_rows_topmost (best_chain t)) as Hh.
    destruct (last _) as [[h i]|]; cbn in *; [|rewrite Hh; intros k [? Hk]; by rewrite lookup_empty in Hk].
    split; [by rewrite (proj1 Hh)|]. intros k [v Hv]. left. by apply (proj2 Hh k v).
Qed.

Lemma no_tables_ok : tables_ok no_tables.
Proof.
  split; [intros h i Hi|intros h f i Hi|intros ty h i Hi]; cbn in Hi; by rewrite lookup_empty in Hi.
Qed.

Lemma scores_grow (m m' : gmap (list Z) (list Z)) t :
  (forall i, is_Some (m !! i) -> is_Some (m' !! i)) -> header_scores t = m ->
  tables_ok t -> tables_ok (with_header_scores t m').
Proof.
  intros Hm <- [H1 H2 H3]. split; cbn; [| |done].
  - intros h i Hi. destruct (H1 h i Hi) as [Hp Hs]. split; cbn; auto.
  - intros h f i Hi. destruct (H2 h f i Hi) as [Hp Hs]. split; cbn; auto.
Qed.

Lemma commit_ok s t :
  store_ok s -> tables_ok t -> height_index t = height_index (tables s) -> best_chain t = best_chain (tables s) ->
  header_forks t = header_forks (tables s) -> store_ok (commit s t).
Proof.
  intros [H1 H2 H3 H4 H5] Ht Ei Eb Ef. split; cbn [commit tables durable unsynced tips header_tip]; rewrite ?Ei; try done.
  - by constructor.
  - apply (header_top_same (tables s)); [done| |done]. intros k (f & ? & ?). exists f. by rewrite Ef.
Qed.

Lemma surviving_ok k s : store_ok s -> tables_ok (surviving k s).
Proof.
  intros [_ Hd Hu _ _]. unfold surviving. destruct (nth_in_or_default k (unsynced s) (durable s)) as [Hin| ->]; [|done].
  rewrite Forall_forall in Hu. by apply Hu, list_elem_of_In.
Qed.

Lemma run_store_ok s op : op_ok s op -> store_ok s -> store_ok (run_store s op).
Proof.
  intros Hop Hs. destruct op as [ty i h data|es|i h fork score data|i score|es|horizon types|key value|key|a rec|a| |k];
    cbn [run_store].
  - unfold put. destruct (Z.eqb_spec ty 101); [done|]. apply put_batch_ok; [|done]. by apply Forall_singleton.
  - by apply put_batch_ok.
  - by apply put_header_ok.
  - unfold put_header_score. destruct (primary _ !! _); [|done]. apply commit_ok; [done| |done..].
    eapply scores_grow; [|done|apply Hs]. intros j Hj. cbn.
    destruct (decide (j = i)) as [->|]; [by rewrite lookup_insert_eq|by rewrite lookup_insert_ne].
  - unfold put_header_score_batch. destruct (find _ _); [done|]. apply commit_ok; [done| |done..].
    eapply scores_grow; [|done|apply Hs]. intros j Hj. clear Hop.
    revert Hj. generalize (header_scores (tables s)). induction es as [|e es IH]; intros m Hj; [done|]. cbn.
    apply IH. destruct (decide (j = e.1)) as [->|]; [by rewrite lookup_insert_eq|by rewrite lookup_insert_ne].
  - by apply prune_ok.
  - apply commit_ok; [done| |done..]. by destruct (live_ok _ Hs); split.
  - apply commit_ok; [done| |done..]. by destruct (live_ok _ Hs); split.
  - apply commit_ok; [done| |done..]. by destruct (live_ok _ Hs); split.
  - apply commit_ok; [done| |done..]. by destruct (live_ok _ Hs); split.
  - destruct Hs as [H1 H2 H3 H4 H5]. by split.
  - by apply open_ok, surviving_ok.
Qed.

(** Every state a node's store can be in, from a fresh file on. *)
Inductive store_reaches : RedbModifierStore -> Prop :=
| reaches_fresh : store_reaches (open no_tables)
| reaches_op s op : store_reaches s -> op_ok s op -> store_reaches (run_store s op).

Lemma reaches_ok s : store_reaches s -> store_ok s.
Proof. induction 1; [apply open_ok, no_tables_ok|by apply run_store_ok]. Qed.

(** The tip of a type as the cache should have it. *)
Definition tip_at_top (ty : Z) (s : RedbModifierStore) : Prop :=
  match tip ty s with
  | Some (h, _) => is_Some (get_id_at ty h s) /\ forall h', is_Some (get_id_at ty h' s) -> h' <= h
  | None => forall h, get_id_at ty h s = None
  end.

Lemma tip_highest s ty : store_ok s -> ty <> 101 -> tip_at_top ty s.
Proof.
  intros [_ _ _ H3 _] Hne. unfold tip_at_top, tip, get_id_at. rewrite (proj2 (Z.eqb_neq _ _) Hne).
  specialize (H3 ty Hne). pose proof (last_range_highest ty (height_index (tables s))) as Ht.
  destruct (tips s !! ty) as [[h i]|], (last _) as [[h' i']|]; cbn in H3; simplify_eq; cbn in Ht.
  - destruct Ht as [Ht Hm]. split; [by rewrite Ht|]. intros k [v Hv]. by eapply Hm.
  - intros h. destruct (height_index (tables s) !! (ty, h)) eqn:E; [|done]. by apply Ht in E.
Qed.

Lemma opened_tip t ty :
  tables_ok t -> tip_at_top ty (open t) /\ forall h i, tip ty (open t) = Some (h, i) -> get_id_at ty h (open t) = Some i.
Proof.
  intros Ht. destruct (decide (ty = 101)) as [->|Hne].
  - rewrite open_tables by done. unfold tip_at_top, tip, get_id_at, best_header_tip, best_header_at. cbn.
    unfold load_best_header_tip. pose proof (last_rows_topmost (best_chain t)) as Htop.
    destruct (last _) as [[h i]|]; cbn in Htop.
    + destruct Htop as [Hi Hm]. split; [|by intros ? ? [= <- <-]]. split; [by rewrite Hi|]. intros k [v Hv]. by eapply Hm.
    + split; [|done]. intros h. by rewrite Htop, lookup_empty.
  - split; [by apply tip_highest; [apply open_ok|]|]. intros h i. rewrite open_tables by done.
    unfold tip, get_id_at. rewrite (proj2 (Z.eqb_neq _ _) Hne). cbn [tips tables].
    rewrite load_tips_lookup. case_bool_decide; [|done]. intros E.
    pose proof (last_range_highest ty (height_index t)) as Htop. rewrite E in Htop. apply Htop.
Qed.

(** C21: Whatever the node does with its store, which takes sections under their own height
    and is pruned below the tips ([op_ok]), crashes included, whichever of the states
    committed since the last flush they leave: an id found under a height has its body,
    every header known at a height has body and score, and the tip of each section type is
    at the highest height the index has. The header tip is at a height of the best chain,
    and every best-chain height above it was filled under a fork number other than 0,
    which the cache does not follow. After a restart every tip, the header tip too, is at
    the highest height, with the id the index has there. *)
Theorem store_consistent s :
  store_reaches s ->
  (forall ty h i, get_id_at ty h s = Some i -> is_Some (get ty i s))
  /\ (forall h i f, (i, f) ∈ header_ids_at_height h s -> is_Some (get 101 i s) /\ is_Some (header_score i s))
  /\ (forall h i, best_header_at h s = Some i ->
        read_header_at h s = get 101 i s /\ is_Some (header_score i s))
  /\ (forall ty, ty <> 101 -> tip_at_top ty s)
  /\ (forall h i, best_header_tip s = Some (h, i) -> is_Some (best_header_at h s))
  /\ (forall h, is_Some (best_header_at h s) ->
        (exists top i, best_header_tip s = Some (top, i) /\ h <= top)
        \/ exists f i, f <> 0 /\ (i, f) ∈ header_ids_at_height h s)
  /\ (forall k ty, tip_at_top ty (restart k s)
        /\ forall h i, tip ty (restart k s) = Some (h, i) -> get_id_at ty h (restart k s) = Some i).
Proof.
  intros Hs%reaches_ok. pose proof (live_ok _ Hs) as [H1 H2 H3]. pose proof (header_tip_ok _ Hs) as Htop.
  unfold header_top, best_header_tip in *. split_and!.
  - intros ty h i. unfold get_id_at, best_header_at, get. destruct (Z.eqb_spec ty 101) as [->|Hne].
    + intros Hi. by apply (H1 h).
    + intros Hi. by apply (H3 ty h).
  - intros h i f Hin. unfold header_ids_at_height in Hin.
    apply list_elem_of_fmap in Hin as ([f' i'] & [= <- <-] & Hr%elem_of_range_of). by apply (H2 h f).
  - intros h i Hi. unfold read_header_at, best_header_at in *. rewrite Hi. split; [done|]. by apply (H1 h).
  - intros ty. by apply tip_highest.
  - intros h i E. rewrite E in Htop. apply Htop.
  - intros h Hh. assert (Hf : forked (tables s) h -> exists f i, f <> 0 /\ (i, f) ∈ header_ids_at_height h s).
    { intros (f & ? & i & Hi). exists f, i. split; [done|]. apply list_elem_of_fmap. exists (f, i).
      split; [done|]. by apply elem_of_range_of. }
    destruct (header_tip s) as [[top i]|]; cbn in Htop; [|right; by apply Hf, Htop].
    apply Htop in Hh as [?|?]; [left; by exists top, i|right; by apply Hf].
  - intros k ty. by apply opened_tip, surviving_ok.
Qed.

(** An operation that writes makes one commit. *)
Lemma run_commits s op :
  op <> Flush -> (forall k, op <> Restart k) ->
  run_store s op = s
  \/ durable (run_store s op) = durable s /\ unsynced (run_store s op) = tables (run_store s op) :: unsynced s.
Proof.
  intros Hf Hr. destruct op; try (by right); try (by left); try done; cbn [run_store].
  - unfold put, put_batch. destruct (_ =? _); [by left|]. destruct (existsb _ _); [by left|by right].
  - unfold put_batch. destruct (existsb _ _); [by left|by right].
  - unfold put_header_score. destruct (_ !! _); [by right|by left].
  - unfold put_header_score_batch. destruct (find _ _); [by left|by right].
  - unfold prune_below_height. case_bool_decide; [by left|]. destruct (_ || _); [by left|by right].
  - by destruct (Hr k).
Qed.

(** What a crash leaves is a state the store went through since the last flush. *)
Lemma crash_prefix s ops k :
  Forall (fun op => op <> Flush /\ forall k, op <> Restart k) ops ->
  exists done, done `prefix_of` ops
    /\ surviving k (foldl run_store (flush s) ops) = tables (foldl run_store (flush s) done).
Proof.
  induction ops as [|op ops IH] using rev_ind in k |- *; intros Hops.
  { exists []. split; [done|]. by destruct k. }
  apply Forall_app in Hops as [Hops Hop%Forall_cons]. destruct Hop as [[Hf Hr] _].
  assert (Hpre : forall k, exists done, done `prefix_of` ops ++ [op]
    /\ surviving k (foldl run_store (flush s) ops) = tables (foldl run_store (flush s) done)).
  { intros j. destruct (IH j Hops) as (d & Hd & ?). exists d. split; [by apply prefix_app_r|done]. }
  rewrite foldl_snoc. destruct (run_commits (foldl run_store (flush s) ops) op Hf Hr) as [->|[Ht Hs]]; [apply Hpre|].
  unfold surviving. rewrite Hs, Ht. destruct k as [|k]; cbn [nth]; [|apply Hpre].
  exists (ops ++ [op]). by rewrite foldl_snoc.
Qed.

(** Pruning removes exactly the indexed rows of the given types below the horizon, with
    the bodies they name, and nothing else: no header, no body of a row that stays. It
    refuses to prune headers, and pruning again with the same arguments finds nothing. *)
Theorem prune_correct s horizon types :
  store_reaches s -> 0 <= horizon ->
  let (r, s') := prune_below_height horizon types s in
  match r with
  | Err e => e = HeaderPruneForbidden /\ s' = s /\ 101 ∈ types
  | Ok _ =>
      (101 ∉ types)
      /\ (forall ty h, get_id_at ty h s' =
            if bool_decide (ty ∈ types /\ h < horizon) then None else get_id_at ty h s)
      /\ (forall ty h i, ty ∈ types -> h < horizon -> get_id_at ty h s = Some i -> get ty i s' = None)
      /\ (forall ty i, (forall h, ty ∈ types -> h < horizon -> get_id_at ty h s <> Some i) ->
            get ty i s' = get ty i s)
      /\ (forall h, header_ids_at_height h s' = header_ids_at_height h s)
      /\ (forall i, header_score i s' = header_score i s)
      /\ (prune_below_height horizon types s').1 = Ok 0%nat
  end.
Proof.
  intros Hs%reaches_ok Hz. unfold prune_below_height. case_bool_decide as Hno; [done|].
  destruct (bool_decide (types = []) || (horizon =? 0)) eqn:E.
  - assert (Hnone : forall ty h, ty ∈ types -> h < horizon -> get_id_at ty h s = None).
    { intros ty h Hin Hlt. unfold get_id_at. rewrite (proj2 (Z.eqb_neq ty 101)) by (by intros ->).
      apply orb_true_iff in E as [->%bool_decide_eq_true|Hz0%Z.eqb_eq]; [by apply not_elem_of_nil in Hin|].
      destruct (height_index (tables s) !! (ty, h)) eqn:Ei; [|done].
      apply (index_stored _ (live_ok _ Hs)) in Ei as (_ & ? & _). lia. }
    split_and!; try done.
    + intros ty h. destruct (bool_decide (ty ∈ types /\ h < horizon)) eqn:Hc; [|done].
      apply bool_decide_eq_true in Hc as [? ?]. by apply Hnone.
    + intros ty h i Hin Hlt. by rewrite (Hnone ty h Hin Hlt).
  - destruct (prune_other (prune_rows horizon types (tables s)) (tables s)) as (Ef & Es & Eb & _).
    unfold get_id_at, best_header_at, get, header_ids_at_height, header_score. cbn [fst commit tables].
    rewrite Ef, Es, Eb. split_and!; try done.
    + intros ty h. destruct (Z.eqb_spec ty 101) as [->|]; [|apply pruned_index].
      rewrite bool_decide_false; [done|]. by intros [? _].
    + intros ty h i Hin Hlt. rewrite (proj2 (Z.eqb_neq ty 101)) by (by intros ->). intros Hi.
      apply (pruned_primary horizon types (tables s) ty i). split; [done|]. by exists h.
    + intros ty i Hn. apply (pruned_primary horizon types (tables s) ty i). intros (Hin & h & Hlt & Hi).
      apply (Hn h Hin Hlt). by rewrite (proj2 (Z.eqb_neq ty 101)) by (by intros ->).
    + assert (prune_rows horizon types (foldl prune_row (tables s) (prune_rows horizon types (tables s))) = []) as ->;
        [|done].
      apply elem_of_nil_inv. intros [[ty h] i] Hin%elem_of_prune_rows. rewrite pruned_index in Hin.
      destruct Hin as (? & ? & Hin). by rewrite bool_decide_true in Hin.
Qed.

End Consistency.

(** ** The migration of legacy header rows *)

Definition row_at (h : Z) (r : Z * list Z) : option (list Z) := if decide (r.1 = h) then Some r.2 else None.

Lemma last_row_at (k h : Z) (m : gmap (Z * Z) (list Z)) : last (omap (row_at h) (range_of k m)) = m !! (k, h).
Proof.
  destruct (last (omap (row_at h) (range_of k m))) as [i|] eqn:E.
  - apply last_Some_elem_of, list_elem_of_omap in E as ([h' i'] & Hin%elem_of_range_of & Hr).
    unfold row_at in Hr. cbn in Hr. case_decide; [|done]. congruence.
  - apply last_None in E. destruct (m !! (k, h)) as [i|] eqn:Ei; [|done].
    apply elem_of_range_of in Ei. assert (Hin : i ∈ omap (row_at h) (range_of k m)).
    { apply list_elem_of_omap. exists (h, i). split; [done|]. unfold row_at. cbn. by rewrite decide_True. }
    rewrite E in Hin. by apply not_elem_of_nil in Hin.
Qed.

Lemma migrate_lookup rows t :
  let t' := foldl migrate_row t rows in
  primary t' = primary t /\ chain_meta t' = chain_meta t /\ peer_rows t' = peer_rows t
  /\ (forall h, best_chain t' !! h = match last (omap (row_at h) rows) with Some i => Some i | None => best_chain t !! h end)
  /\ (forall h f, header_forks t' !! (h, f) =
        match (if f =? 0 then last (omap (row_at h) rows) else None) with
        | Some i => Some i | None => header_forks t !! (h, f) end)
  /\ (forall ty h, height_index t' !! (ty, h) =
        match (if ty =? 101 then last (omap (row_at h) rows) else None) with
        | Some _ => None | None => height_index t !! (ty, h) end).
Proof.
  cbn zeta. induction rows as [|[k i] rows (H1 & H2 & H3 & H4 & H5 & H6)] using rev_ind.
  { cbn. split_and!; try done; [intros h f; by destruct (f =? 0)|intros ty h; by destruct (ty =? 101)]. }
  rewrite foldl_snoc. cbn. split_and!; [done..| | |].
  - intros h. rewrite omap_app. cbn. unfold row_at at 2. cbn. case_decide as Hk.
    + subst. by rewrite lookup_insert_eq, last_snoc.
    + by rewrite lookup_insert_ne, H4, app_nil_r.
  - intros h f. rewrite omap_app. cbn. unfold row_at at 2. cbn. case_decide as Hk.
    + subst. destruct (Z.eqb_spec f 0) as [->|Hf]; [by rewrite lookup_insert_eq, last_snoc|].
      rewrite lookup_insert_ne, H5 by congruence. by rewrite (proj2 (Z.eqb_neq f 0) Hf).
    + rewrite lookup_insert_ne, H5, app_nil_r by congruence. done.
  - intros ty h. rewrite omap_app. cbn. unfold row_at at 2. cbn. case_decide as Hk.
    + subst. rewrite last_snoc. destruct (Z.eqb_spec ty 101) as [->|Hty]; [by rewrite lookup_delete_eq|].
      rewrite lookup_delete_ne, H6 by congruence. by rewrite (proj2 (Z.eqb_neq ty 101) Hty).
    + by rewrite lookup_delete_ne, H6, app_nil_r by congruence.
Qed.

(** Opening a database of the old layout, whose headers are in the height index, moves
    them to the fork-aware tables without loss: the best chain reads as the index did,
    each header is fork 0 of its height, the index keeps everything else and no header,
    bodies, metadata and peers are untouched, and the result is on disk. Opening it
    again changes nothing. *)
Theorem migration_correct t :
  header_forks t = ∅ -> best_chain t = ∅ -> (exists h, is_Some (height_index t !! (101, h))) ->
  let s := open t in
  (forall h, best_header_at h s = height_index t !! (101, h))
  /\ (forall h f, header_forks (tables s) !! (h, f) = if f =? 0 then height_index t !! (101, h) else None)
  /\ (forall ty h, height_index (tables s) !! (ty, h) = if ty =? 101 then None else height_index t !! (ty, h))
  /\ (forall h, read_header_at h s = match height_index t !! (101, h) with Some i => get 101 i s | None => None end)
  /\ primary (tables s) = primary t /\ chain_meta (tables s) = chain_meta t /\ peer_rows (tables s) = peer_rows t
  /\ durable s = tables s /\ tables (open (durable s)) = tables s
  /\ topmost (best_chain (tables s)) (best_header_tip s).
Proof.
  intros Hf Hb [h0 [i0 Hi0]] s. set (rows := range_of 101 (height_index t)).
  destruct (migrate_lookup rows t) as (H1 & H2 & H3 & H4 & H5 & H6). set (t' := foldl migrate_row t rows) in *.
  assert (Es : exists top, last rows = Some top /\ s = mk_redb t' t' [] (load_tips t) (Some top)).
  { subst s. unfold open, migrate_headers_if_needed. cbn [tables tips]. rewrite Hf, bool_decide_true by done.
    cbn [negb]. fold rows. destruct (last rows) as [top|] eqn:El; [by exists top|]. apply last_None in El.
    apply elem_of_range_of in Hi0. fold rows in Hi0. rewrite El in Hi0. by apply not_elem_of_nil in Hi0. }
  destruct Es as (top & El & ->).
  assert (Hbest : forall h, best_chain t' !! h = height_index t !! (101, h)).
  { intros h. rewrite H4. unfold rows. rewrite last_row_at, Hb, lookup_empty. by destruct (height_index t !! (101, h)). }
  assert (Hforks : forall h f, header_forks t' !! (h, f) = if f =? 0 then height_index t !! (101, h) else None).
  { intros h f. rewrite H5. unfold rows. rewrite last_row_at, Hf, lookup_empty.
    destruct (f =? 0); [|done]. by destruct (height_index t !! (101, h)). }
  unfold best_header_at, read_header_at, get, best_header_tip. cbn [tables durable header_tip].
  split_and!; try done.
  - intros ty h. rewrite H6. unfold rows. rewrite last_row_at.
    destruct (Z.eqb_spec ty 101) as [->|]; [|done]. by destruct (height_index t !! (101, h)) eqn:E.
  - intros h. by rewrite Hbest.
  - unfold open, migrate_headers_if_needed. cbn [tables]. rewrite bool_decide_false; [done|]. intros He.
    specialize (Hforks h0 0). rewrite He, lookup_empty in Hforks. cbn in Hforks. congruence.
  - destruct (last_row _ _ (range_of_sorted 101 (height_index t)) El) as [Hin Hmax]. destruct top as [h i].
    split; [rewrite Hbest; by apply elem_of_range_of|]. intros h' i'. rewrite Hbest. intros Hi'%elem_of_range_of.
    by apply Hmax in Hi'.
Qed.

(** ** A store with two blocks and a fork *)

Module Examples.
(** Ids start with the height. *)
Definition ex_height (ty : Z) (i : list Z) : Z := nth 0 i 0.

Definition chain_batch : list ModifierBatchEntry :=
  [mk_entry 101 [1; 10] 1 [11] (Some [5]); mk_entry 101 [2; 20] 2 [22] (Some [9])].
Definition body_batch : list ModifierBatchEntry :=
  [mk_entry 102 [1; 30] 1 [33] None; mk_entry 102 [2; 40] 2 [44] None; mk_entry 102 [2; 41] 0 [45] None].
Definition history : list store_op := [PutBatch chain_batch; PutBatch body_batch; PutHeader [2; 21] 2 1 [8] [23]].

Definition filled : RedbModifierStore := foldl run_store (open no_tables) history.

Ltac entry := split; [first [by left|right; by repeat constructor]|right; split; [done|by intros _ || done]].

Lemma filled_reached : store_reaches ex_height filled.
Proof.
  unfold filled, history. cbn [foldl]. repeat apply reaches_op; [apply reaches_fresh|..]; cbn [op_ok].
  - repeat (apply List.Forall_cons || apply List.Forall_nil); entry.
  - apply List.Forall_cons; [entry|]. apply List.Forall_cons; [entry|].
    apply List.Forall_cons; [|constructor]. split; [right; by repeat constructor|by left].
  - done.
Qed.

Lemma store_consistent_witness :
  tip 102 filled = Some (2, [2; 40]) /\ is_Some (get_id_at 102 2 filled) /\ is_Some (get 101 [2; 20] filled).
Proof.
  destruct (store_consistent ex_height filled filled_reached) as (H1 & _ & _ & H4 & _).
  split; [vm_compute; reflexivity|]. split.
  - specialize (H4 102 ltac:(discriminate)). unfold tip_at_top in H4. replace (tip 102 filled) with (Some (2, [2; 40])) in H4 by (vm_compute; reflexivity).
    apply H4.
  - apply (H1 101 2). vm_compute. reflexivity.
Defined.

(** A header above the tip, put under fork 1: the best chain has it, the tip only after
    the next start. *)
Lemma tip_stays_behind :
  let s := run_store filled (PutHeader [3; 31] 3 1 [9] [34]) in
  best_header_at 3 s = Some [3; 31] /\ best_header_tip s = Some (2, [2; 20])
  /\ best_header_tip (restart 0 s) = Some (3, [3; 31]).
Proof. vm_compute. auto. Qed.

Lemma filled_at h i : get_id_at 102 h filled = Some i -> ex_height 102 i = h.
Proof.
  pose proof (reaches_ok _ _ filled_reached) as Hok. revert Hok. generalize filled. intros s Hok Hi.
  by apply (index_stored _ _ (live_ok _ _ Hok) 102) in Hi as (_ & _ & ? & _).
Qed.

Lemma prune_correct_witness :
  let s' := (prune_below_height 2 [102] filled).2 in
  get_id_at 102 1 s' = None /\ get 102 [1; 30] s' = None /\ get 102 [2; 40] s' = Some [44].
Proof.
  pose proof (prune_correct ex_height filled 2 [102] filled_reached ltac:(done)) as H.
  destruct (prune_below_height 2 [102] filled) as [[n|e] s'] eqn:E; [|vm_compute in E; discriminate].
  destruct H as (_ & H1 & H2 & H3 & _). cbn [snd]. split; [|split].
  - rewrite H1. vm_compute. reflexivity.
  - apply (H2 102 1); [by left|done|vm_compute; reflexivity].
  - rewrite H3; [vm_compute; reflexivity|]. intros h _ Hlt Hi. apply filled_at in Hi. cbn in Hi. lia.
Defined.

Definition legacy : Tables :=
  with_primary (with_height_index no_tables {[(101, 1) := [1; 10]; (101, 2) := [2; 20]; (102, 1) := [1; 30]]})
    {[(101, [1; 10]) := [11]; (101, [2; 20]) := [22]; (102, [1; 30]) := [33]]}.

Lemma migration_correct_witness :
  let s := open legacy in
  best_header_at 2 s = Some [2; 20] /\ height_index (tables s) !! (102, 1) = Some [1; 30]
  /\ tables (open (durable s)) = tables s.
Proof.
  destruct (migration_correct legacy) as (H1 & _ & H3 & _ & _ & _ & _ & _ & H9 & _); [done|done| |].
  - exists 1. vm_compute. by eexists.
  - split; [rewrite H1; vm_compute; reflexivity|]. split; [rewrite H3; vm_compute; reflexivity|exact H9].
Defined.
End Examples.

End Store.
