(* ===== verification/PeerStore.v ===== *)
(** * Peers on disk

    src/src/peer_storage_adapter.rs: peer records as bytes and the storage the peer
    database writes through to, over the node's modifier store. The adapter meets what the
    database expects of a storage, so that peers survive a restart of the node. *)

From S2P Require Import Prelude Bytes Vlq Messages Handshake PeerDb Store.
Import Handshake PeerDb Store.

Module PeerStore.

(** ** Records as bytes *)

Definition le_bytes (n : nat) (z : Z) : list Z := reverse (be_bytes n z).
Definition from_le (l : list Z) : Z := from_be (reverse l).

Definition encode_bytes (b : list Z) : list Z :=
  let len := Z.min (Z.of_nat (length b)) U16_MAX in
  le_bytes 2 len ++ take (Z.to_nat len) b.

Definition encode_record (r : PeerRecord) : list Z :=
  let '(v0, v1, v2) := rec_version r in
  le_bytes 8 (last_seen_ms r) ++ encode_bytes (rec_agent r) ++ encode_bytes (rec_name r)
  ++ [v0; v1; v2; Z.min (Z.of_nat (length (rec_features r))) U8_MAX]
  ++ concat ((fun f : Z * list Z => f.1 :: encode_bytes f.2) <$> take 255 (rec_features r))
  ++ le_bytes 8 (last_handshake_ms r).

(** The [Cursor]: what is left to read. Errors are only logged. *)
Definition read_le (n : nat) (l : list Z) : option (Z * list Z) :=
  match read_exact n l with Some (b, l) => Some (from_le b, l) | None => None end.

Definition read_bytes (l : list Z) : option (list Z * list Z) :=
  match read_le 2 l with Some (len, l) => read_exact (Z.to_nat len) l | None => None end.

Definition read_str (l : list Z) : option (list Z * list Z) :=
  match read_bytes l with
  | Some (b, l) => if utf8_valid b then Some (b, l) else None
  | None => None
  end.

Fixpoint read_feature_rows (n : nat) (l : list Z) : option (list (Z * list Z) * list Z) :=
  match n with
  | O => Some ([], l)
  | S n' =>
      '(id, l) ← read_le 1 l;
      '(body, l) ← read_bytes l;
      '(rest, l) ← read_feature_rows n' l;
      Some ((id, body) :: rest, l)
  end.

Definition decode_record (address : SocketAddr) (bytes : list Z) : option PeerRecord :=
  '(seen, l) ← read_le 8 bytes;
  '(agent, l) ← read_str l;
  '(name, l) ← read_str l;
  '(v0, l) ← read_le 1 l;
  '(v1, l) ← read_le 1 l;
  '(v2, l) ← read_le 1 l;
  '(count, l) ← read_le 1 l;
  '(features, l) ← read_feature_rows (Z.to_nat count) l;
  handshake ← (match l with [] => Some 0 | _ => fst <$> read_le 8 l end);
  Some (mk_record address seen handshake agent name (v0, v1, v2) features).

(** ** The adapter *)

Definition adapter_load_all (s : RedbModifierStore) : result unit (list PeerRecord) :=
  Ok (omap (fun row : SocketAddr * list Z => decode_record row.1 row.2) (list_peers s)).

Definition adapter_put (r : PeerRecord) (s : RedbModifierStore) : result unit unit * RedbModifierStore :=
  (Ok tt, put_peer (rec_address r) (encode_record r) s).

Definition adapter_delete (addr : SocketAddr) (s : RedbModifierStore) : result unit unit * RedbModifierStore :=
  (Ok tt, delete_peer addr s).

#[global] Instance PeerStorageAdapter : PeerStorage RedbModifierStore := {|
  load_all := adapter_load_all;
  PeerDb.put := adapter_put;
  delete_row := adapter_delete
|}.

(** ** Round trips *)

Lemma le_bytes_length n z : length (le_bytes n z) = n.
Proof. unfold le_bytes. by rewrite length_reverse, be_bytes_length. Qed.

Lemma read_le_app n z r : 0 <= z < 256 ^ Z.of_nat n -> read_le n (le_bytes n z ++ r) = Some (z, r).
Proof.
  intros Hz. unfold read_le. rewrite (read_exact_app_n n) by apply le_bytes_length.
  unfold from_le, le_bytes. by rewrite reverse_involutive, from_be_be.
Qed.

Lemma read_le_byte b r : read_le 1 (b :: r) = Some (b, r).
Proof. done. Qed.

Definition short_bytes (b : list Z) : Prop := Z.of_nat (length b) <= U16_MAX.

Lemma read_encode_bytes b r : short_bytes b -> read_bytes (encode_bytes b ++ r) = Some (b, r).
Proof.
  intros Hb. unfold read_bytes, encode_bytes. rewrite Z.min_l, Nat2Z.id, firstn_all by done.
  rewrite <- app_assoc, read_le_app by (unfold short_bytes in Hb; int_unfold; lia).
  rewrite Nat2Z.id. apply read_exact_app.
Qed.

Lemma read_encode_str b r : short_bytes b -> utf8_valid b = true -> read_str (encode_bytes b ++ r) = Some (b, r).
Proof. intros Hb Hu. unfold read_str. by rewrite read_encode_bytes, Hu. Qed.

Lemma read_encode_features fs r :
  Forall (fun f : Z * list Z => short_bytes f.2) fs ->
  read_feature_rows (length fs) (concat ((fun f : Z * list Z => f.1 :: encode_bytes f.2) <$> fs) ++ r) = Some (fs, r).
Proof.
  induction 1 as [|[id b] fs Hf _ IH]; [done|]. cbn [length read_feature_rows fmap list_fmap concat fst snd] in *.
  cbn [app]. rewrite read_le_byte. cbn [mbind option_bind]. rewrite <- app_assoc, read_encode_bytes by done.
  cbn [mbind option_bind]. by rewrite IH.
Qed.

(** A record as the program has it: strings no longer than what a short string holds on
    the wire, and any features. *)
Definition row_ok (r : PeerRecord) : Prop :=
  addr_typed (rec_address r) /\ is_u64 (last_seen_ms r) /\ is_u64 (last_handshake_ms r)
  /\ Z.of_nat (length (rec_agent r)) <= U8_MAX /\ utf8_valid (rec_agent r) = true
  /\ Z.of_nat (length (rec_name r)) <= U8_MAX /\ utf8_valid (rec_name r) = true.

(** What its row keeps: 255 features, the first 65535 bytes of each. *)
Definition row_cut : nat := Z.to_nat U16_MAX.
Definition cut_feature (f : Z * list Z) : Z * list Z := (f.1, take row_cut f.2).
Definition row_of (r : PeerRecord) : PeerRecord :=
  mk_record (rec_address r) (last_seen_ms r) (last_handshake_ms r) (rec_agent r) (rec_name r) (rec_version r)
    (cut_feature <$> take 255 (rec_features r)).

Lemma row_cut_spec : Z.of_nat row_cut = U16_MAX.
Proof. unfold row_cut. by rewrite Z2Nat.id by (int_unfold; lia). Qed.

#[local] Opaque row_cut.

(** Nothing is cut off a record with small features. *)
Lemma row_of_small r :
  (length (rec_features r) <= 255)%nat -> Forall (fun f : Z * list Z => short_bytes f.2) (rec_features r) ->
  row_of r = r.
Proof.
  intros Hl Hf. destruct r as [addr seen hs ag nm v fs]. unfold row_of. cbn in *. f_equal.
  rewrite take_ge by done. clear Hl. induction Hf as [|[i b] fs Hb _ IH]; [done|]. cbn. rewrite IH. unfold cut_feature.
  cbn in *. rewrite take_ge; [done|]. unfold short_bytes in Hb. pose proof row_cut_spec. lia.
Qed.

Lemma row_of_again r : row_of (row_of r) = row_of r.
Proof.
  unfold row_of. cbn. f_equal. rewrite <- fmap_take, take_take, Nat.min_id, <- list_fmap_compose.
  apply list_fmap_ext. intros i [id b] _. unfold cut_feature. cbn [compose fst snd]. by rewrite take_take, Nat.min_id.
Qed.

Lemma encode_bytes_cut b : encode_bytes (take row_cut b) = encode_bytes b.
Proof.
  unfold encode_bytes. rewrite length_take, take_take.
  pose proof row_cut_spec.
  replace (Z.min (Z.of_nat (row_cut `min` length b)) U16_MAX) with (Z.min (Z.of_nat (length b)) U16_MAX) by lia.
  do 2 f_equal. lia.
Qed.

Lemma encode_row_of r : encode_record (row_of r) = encode_record r.
Proof.
  unfold encode_record, row_of. cbn. destruct (rec_version r) as [[v0 v1] v2].
  rewrite length_fmap, length_take. replace (Z.min (Z.of_nat (255 `min` length (rec_features r))) U8_MAX)
    with (Z.min (Z.of_nat (length (rec_features r))) U8_MAX) by (int_unfold; lia).
  rewrite <- fmap_take, take_take, Nat.min_id, <- list_fmap_compose.
  do 8 f_equal. f_equal. apply list_fmap_ext. intros i [id b] _. cbn. by rewrite encode_bytes_cut.
Qed.

Lemma short_name b : Z.of_nat (length b) <= U8_MAX -> short_bytes b.
Proof. unfold short_bytes. int_unfold. lia. Qed.

Lemma decode_small_record r :
  row_ok r -> (length (rec_features r) <= 255)%nat -> Forall (fun f : Z * list Z => short_bytes f.2) (rec_features r) ->
  decode_record (rec_address r) (encode_record r) = Some r.
Proof.
  intros (_ & Hs & Hh & Ha & Hua & Hn & Hun) Hl Hf. destruct r as [addr seen hs ag nm [[v0 v1] v2] fs].
  unfold decode_record, encode_record. cbn [rec_address last_seen_ms last_handshake_ms rec_agent rec_name
    rec_version rec_features] in *.
  rewrite read_le_app by (int_unfold; lia). cbn [mbind option_bind].
  rewrite read_encode_str by (done || by apply short_name). cbn [mbind option_bind].
  rewrite read_encode_str by (done || by apply short_name). cbn [mbind option_bind app].
  do 4 (rewrite read_le_byte; cbn [mbind option_bind]).
  rewrite Z.min_l by (int_unfold; lia). rewrite Nat2Z.id, take_ge by done.
  rewrite read_encode_features by done. cbn [mbind option_bind].
  pose proof (read_le_app 8 hs [] ltac:(int_unfold; lia)) as Hr. rewrite app_nil_r in Hr.
  destruct (le_bytes 8 hs) as [|b l] eqn:E; [by pose proof (le_bytes_length 8 hs) as Hlen; rewrite E in Hlen|].
  by rewrite Hr.
Qed.

Lemma row_of_ok r : row_ok r -> row_ok (row_of r).
Proof. done. Qed.

Lemma decode_encode_record r : row_ok r -> decode_record (rec_address r) (encode_record r) = Some (row_of r).
Proof.
  intros Hr. rewrite <- encode_row_of. change (rec_address r) with (rec_address (row_of r)).
  apply decode_small_record; [done|..]; cbn.
  - rewrite length_fmap, length_take. lia.
  - apply Forall_fmap, Forall_true. intros [id b]. unfold short_bytes. cbn. rewrite length_take. pose proof row_cut_spec. lia.
Qed.

(** A row from before the handshake stamp existed loads as hearsay. *)
Lemma decode_legacy_record r :
  row_ok r -> (length (rec_features r) <= 255)%nat -> Forall (fun f : Z * list Z => short_bytes f.2) (rec_features r) ->
  decode_record (rec_address r) (take (length (encode_record r) - 8) (encode_record r)) =
    Some (mk_record (rec_address r) (last_seen_ms r) 0 (rec_agent r) (rec_name r) (rec_version r) (rec_features r)).
Proof.
  intros (_ & Hs & Hh & Ha & Hua & Hn & Hun) Hl Hf. destruct r as [addr seen hs ag nm [[v0 v1] v2] fs].
  unfold encode_record. cbn [rec_address last_seen_ms last_handshake_ms rec_agent rec_name
    rec_version rec_features] in *.
  rewrite !app_assoc, length_app, le_bytes_length, Nat.add_sub, take_app_length, <- !app_assoc.
  unfold decode_record. rewrite read_le_app by (int_unfold; lia). cbn [mbind option_bind].
  rewrite read_encode_str by (done || by apply short_name). cbn [mbind option_bind].
  rewrite read_encode_str by (done || by apply short_name). cbn [mbind option_bind app].
  do 4 (rewrite read_le_byte; cbn [mbind option_bind]).
  rewrite Z.min_l by (int_unfold; lia). rewrite Nat2Z.id, take_ge by done.
  rewrite <- (app_nil_r (concat _)), read_encode_features by done. done.
Qed.

Lemma decode_encode_addr a : addr_typed a -> decode_addr (encode_addr a) = Some a.
Proof.
  intros [[Hp Hl] _]. destruct a as [[o|o] p]; cbn [ip port] in *; unfold encode_addr, decode_addr; cbn [ip port].
  - change ((4 :: o) ++ be_bytes 2 p) with (4 :: (o ++ be_bytes 2 p)). cbn [length].
    rewrite length_app, be_bytes_length, Hl. cbn [Nat.add Nat.eqb andb Z.eqb Pos.eqb].
    replace 4%nat with (length o). rewrite take_app_length, drop_app_length, from_be_be; [done|]. int_unfold. lia.
  - change ((6 :: o) ++ be_bytes 2 p) with (6 :: (o ++ be_bytes 2 p)). cbn [length].
    rewrite length_app, be_bytes_length, Hl. cbn [Nat.add Nat.eqb andb Z.eqb Pos.eqb].
    replace 16%nat with (length o). rewrite take_app_length, drop_app_length, from_be_be; [done|]. int_unfold. lia.
Qed.

Lemma encode_addr_inj a b : addr_typed a -> addr_typed b -> encode_addr a = encode_addr b -> a = b.
Proof. intros Ha%decode_encode_addr Hb%decode_encode_addr E. rewrite E in Ha. congruence. Qed.

(** ** The adapter meets the database's expectations *)

Definition adapter_list (s : RedbModifierStore) : list PeerRecord :=
  omap (fun row : SocketAddr * list Z => decode_record row.1 row.2) (list_peers s).

Definition peer_table (s : RedbModifierStore) : gmap SocketAddr PeerRecord :=
  list_to_map ((fun r => (rec_address r, r)) <$> adapter_list s).

(** Every row is one the adapter wrote, or could have written. *)
Definition peers_ok (s : RedbModifierStore) : Prop :=
  forall key bytes, peer_rows (tables s) !! key = Some bytes ->
    exists r, row_ok r /\ key = encode_addr (rec_address r) /\ decode_record (rec_address r) bytes = Some r.

Lemma decode_record_address a bytes r : decode_record a bytes = Some r -> rec_address r = a.
Proof.
  unfold decode_record. intros H. repeat (apply bind_Some in H as (? & _ & H); repeat case_match).
  all: by injection H as <-.
Qed.

Lemma elem_of_adapter_list s r :
  peers_ok s ->
  r ∈ adapter_list s <-> addr_typed (rec_address r)
    /\ exists bytes, peer_rows (tables s) !! encode_addr (rec_address r) = Some bytes
         /\ decode_record (rec_address r) bytes = Some r.
Proof.
  intros Hok. unfold adapter_list. rewrite list_elem_of_omap. unfold list_peers. split.
  - intros ([a b] & Hin & Hd). apply list_elem_of_omap in Hin as ([key bytes] & Hk%elem_of_map_to_list & Hf).
    cbn in Hf, Hd. destruct (Hok key bytes Hk) as (r' & Hr' & -> & Hd').
    rewrite decode_encode_addr in Hf by apply Hr'. injection Hf as <- <-.
    pose proof (decode_record_address _ _ _ Hd) as Ha. rewrite Ha. split; [apply Hr'|]. by exists bytes.
  - intros (Ha & bytes & Hk & Hd). exists (rec_address r, bytes). split; [|done].
    apply list_elem_of_omap. exists (encode_addr (rec_address r), bytes).
    split; [by apply elem_of_map_to_list|]. cbn. by rewrite decode_encode_addr.
Qed.

Lemma NoDup_omap_key {A B C} (f : A -> option B) (ka : A -> C) (kb : B -> C) l :
  (forall a b, a ∈ l -> f a = Some b -> kb b = ka a) -> NoDup (ka <$> l) -> NoDup (kb <$> omap f l).
Proof.
  induction l as [|a l IH]; intros Hk Hnd; [constructor|]. cbn in Hnd. apply NoDup_cons in Hnd as [Hn Hnd].
  cbn [omap list_omap]. assert (Hl : NoDup (kb <$> omap f l)) by (apply IH; [intros; apply Hk; [by right|done]|done]).
  destruct (f a) as [b|] eqn:E; [|done]. cbn. apply NoDup_cons. split; [|done].
  rewrite (Hk a b ltac:(by left) E). intros Hin. apply Hn.
  apply list_elem_of_fmap in Hin as (b' & Hb & (a' & Ha' & Hf)%list_elem_of_omap).
  rewrite Hb, (Hk a' b') by (by right || done). by apply list_elem_of_fmap_2.
Qed.

Lemma adapter_list_nodup s : peers_ok s -> NoDup (rec_address <$> adapter_list s).
Proof.
  intros Hok. unfold adapter_list, list_peers.
  apply (NoDup_omap_key _ fst).
  { intros [a b] r _ Hd. by apply decode_record_address in Hd. }
  apply (NoDup_fmap_1 encode_addr). rewrite <- list_fmap_compose.
  apply (NoDup_omap_key _ fst); [|apply NoDup_fst_map_to_list].
  intros [key bytes] [a b] Hin%elem_of_map_to_list Hd. cbn in Hd.
  destruct (Hok key bytes Hin) as (r & Hr & -> & _). rewrite decode_encode_addr in Hd by apply Hr.
  by injection Hd as <- <-.
Qed.

Lemma peer_table_lookup s a r :
  peers_ok s ->
  peer_table s !! a = Some r <-> addr_typed a
    /\ exists bytes, peer_rows (tables s) !! encode_addr a = Some bytes /\ decode_record a bytes = Some r.
Proof.
  intros Hok. unfold peer_table. rewrite <- elem_of_list_to_map.
  2:{ rewrite <- list_fmap_compose. by apply adapter_list_nodup. }
  rewrite list_elem_of_fmap. split.
  - intros (r' & [= -> ->] & Hin). by apply elem_of_adapter_list in Hin.
  - intros (Ha & bytes & Hk & Hd). pose proof (decode_record_address _ _ _ Hd) as He. exists r.
    split; [by rewrite He|]. apply elem_of_adapter_list; [done|]. rewrite He. eauto.
Qed.

Lemma put_peers_ok r s : row_ok r -> peers_ok s -> peers_ok (adapter_put r s).2.
Proof.
  intros Hr Hok key bytes. cbn. intros [[<- <-]|[_ Hk]]%lookup_insert_Some; [|by apply Hok].
  exists (row_of r). by rewrite <- decode_encode_record.
Qed.

Lemma delete_peers_ok a s : peers_ok s -> peers_ok (adapter_delete a s).2.
Proof. intros Hok key bytes. cbn. intros [_ Hk]%lookup_delete_Some. by apply Hok. Qed.

Lemma put_peer_table r s :
  row_ok r -> peers_ok s -> peer_table (adapter_put r s).2 = <[rec_address r := row_of r]> (peer_table s).
Proof.
  intros Hr Hok. apply map_eq. intros a. apply option_eq. intros q.
  rewrite peer_table_lookup by by apply put_peers_ok. cbn. destruct (decide (a = rec_address r)) as [->|Hne].
  - rewrite !lookup_insert_eq. split.
    + intros (_ & bytes & [= <-] & Hd). rewrite decode_encode_record in Hd by done. done.
    + intros [= <-]. split; [apply Hr|]. exists (encode_record r). by rewrite decode_encode_record.
  - rewrite (lookup_insert_ne (peer_table s)), peer_table_lookup by done.
    assert (He : addr_typed a -> encode_addr (rec_address r) <> encode_addr a).
    { intros Ha E. apply Hne. symmetry. apply encode_addr_inj; [apply Hr|done|done]. }
    split; intros (Ha & bytes & Hk & Hd); (split; [done|]; exists bytes);
      specialize (He ltac:(done)); [rewrite lookup_insert_ne in Hk by done|rewrite lookup_insert_ne by done]; done.
Qed.

Lemma delete_peer_table a s :
  addr_typed a -> peers_ok s -> peer_table (adapter_delete a s).2 = delete a (peer_table s).
Proof.
  intros Hty Hok. apply map_eq. intros b. apply option_eq. intros q.
  rewrite peer_table_lookup by by apply delete_peers_ok. cbn. destruct (decide (b = a)) as [->|Hne].
  - rewrite !lookup_delete_eq. split; [by intros (_ & bytes & ? & _)|done].
  - rewrite (lookup_delete_ne (peer_table s)), peer_table_lookup by done.
    assert (He : addr_typed b -> encode_addr a <> encode_addr b).
    { intros Hb E. apply Hne. symmetry. by apply encode_addr_inj. }
    split; intros (Hb & bytes & Hk & Hd); (split; [done|]; exists bytes);
      specialize (He ltac:(done)); [rewrite lookup_delete_ne in Hk by done|rewrite lookup_delete_ne by done]; done.
Qed.

#[global] Program Instance adapter_laws : StorageLaws RedbModifierStore := {|
  rows := peer_table;
  storable := row_ok;
  storable_addr := addr_typed;
  kept := row_of;
  storage_ok := peers_ok
|}.
Next Obligation. by intros r [? _]. Qed.
Next Obligation.
  intros r prior (Ha & Hs & Hh & Hr) (_ & Hs' & Hh' & _). unfold row_ok, merge_stamps. cbn.
  split; [done|]. split; [int_unfold; lia|]. split; [int_unfold; lia|]. done.
Qed.
Next Obligation. done. Qed.
Next Obligation. apply row_of_ok. Qed.
Next Obligation. apply row_of_again. Qed.
Next Obligation.
  intros s k r Hok (Ha & bytes & _ & Hd)%peer_table_lookup; [|done]. by apply decode_record_address in Hd.
Qed.
Next Obligation.
  intros s Hok. exists (adapter_list s). split; [done|]. unfold peer_table.
  rewrite map_to_list_to_map by (rewrite <- list_fmap_compose; by apply adapter_list_nodup).
  rewrite <- list_fmap_compose. apply reflexive_eq. symmetry. apply list_fmap_id.
Qed.
Next Obligation. intros r s Hok Hr. split; [by apply put_peers_ok|by apply put_peer_table]. Qed.
Next Obligation. intros a s Hok Ha. split; [by apply delete_peers_ok|by apply delete_peer_table]. Qed.

(** ** Restarting the node *)

















(** ** An example *)

Module Examples.




End Examples.

End PeerStore.
