(* ===== verification/AddressSanity.v ===== *)
(** * Which addresses may be gossiped

    Models p2p/src/protocol/address_sanity.rs and the interface selection of
    p2p/src/netif.rs, with the predicates of [std::net] they call, on the octets of
    an address. The classifier is proved to be membership in a table of address
    blocks. *)

From S2P Require Import Prelude Bytes Vlq Frame Messages Handshake.
Import Handshake.

Module AddressSanity.

(** The [i]th octet, and the [i]th 16-bit segment of an IPv6 address. *)
Definition oct (o : list Z) (i : nat) : Z := nth i o 0.
Definition seg (o : list Z) (i : nat) : Z := oct o (2 * i) * 256 + oct o (2 * i + 1).

(** ** Predicates of the standard library *)

Definition v4_is_loopback (o : list Z) : bool := oct o 0 =? 127.
Definition v4_is_link_local (o : list Z) : bool := (oct o 0 =? 169) && (oct o 1 =? 254).
Definition v4_is_multicast (o : list Z) : bool := (224 <=? oct o 0) && (oct o 0 <=? 239).
Definition v4_is_broadcast (o : list Z) : bool := bool_decide (o = [255; 255; 255; 255]).
Definition v4_is_unspecified (o : list Z) : bool := bool_decide (o = [0; 0; 0; 0]).
Definition v4_is_private (o : list Z) : bool :=
  (oct o 0 =? 10)
  || (oct o 0 =? 172) && ((16 <=? oct o 1) && (oct o 1 <=? 31))
  || (oct o 0 =? 192) && (oct o 1 =? 168).

Definition v6_is_loopback (o : list Z) : bool := bool_decide (o = replicate 15 0 ++ [1]).
Definition v6_is_unspecified (o : list Z) : bool := bool_decide (o = replicate 16 0).
Definition v6_is_multicast (o : list Z) : bool := Z.land (seg o 0) 65280 =? 65280.
Definition v6_is_ipv4_mapped (o : list Z) : bool :=
  bool_decide (take 12 o = replicate 10 0 ++ [255; 255]).

(** ** The classifier *)

Definition is_always_bogus_v4 (o : list Z) : bool :=
  (v4_is_loopback o || v4_is_link_local o || v4_is_multicast o || v4_is_broadcast o
   || v4_is_unspecified o)
  || (oct o 0 =? 198) && (Z.land (oct o 1) 254 =? 18)
  || (240 <=? oct o 0).

Definition is_mainnet_only_bogus_v4 (o : list Z) : bool :=
  v4_is_private o
  || (oct o 0 =? 100) && (Z.land (oct o 1) 192 =? 64)
  || ((oct o 0 =? 192) && (oct o 1 =? 0) && (oct o 2 =? 2)
      || (oct o 0 =? 198) && (oct o 1 =? 51) && (oct o 2 =? 100)
      || (oct o 0 =? 203) && (oct o 1 =? 0) && (oct o 2 =? 113)).

Definition is_always_bogus_v6 (o : list Z) : bool :=
  (v6_is_loopback o || v6_is_unspecified o || v6_is_multicast o)
  || v6_is_ipv4_mapped o
  || (Z.land (seg o 0) 65472 =? 65152).

Definition is_mainnet_only_bogus_v6 (o : list Z) : bool :=
  (Z.land (seg o 0) 65024 =? 64512) || (seg o 0 =? 8193) && (seg o 1 =? 3512).

Definition is_always_bogus (addr : SocketAddr) : bool :=
  match ip addr with
  | V4 o => is_always_bogus_v4 o
  | V6 o => is_always_bogus_v6 o
  end.

Definition is_mainnet_only_bogus (addr : SocketAddr) : bool :=
  match ip addr with
  | V4 o => is_mainnet_only_bogus_v4 o
  | V6 o => is_mainnet_only_bogus_v6 o
  end.

Definition is_bogus_address (addr : SocketAddr) (n : Network) : bool :=
  is_always_bogus addr || (bool_decide (n = Mainnet) && is_mainnet_only_bogus addr).

(** ** Our own IPv6 address *)

Definition IFA_F_UNSTABLE : Z := 97.
Definition IFA_F_MANAGETEMPADDR : Z := 256.

Definition is_global_unicast (o : list Z) : bool :=
  if v6_is_loopback o then false
  else if v6_is_unspecified o then false
  else if v6_is_multicast o then false
  else if Z.land (seg o 0) 65472 =? 65152 then false
  else if Z.land (seg o 0) 65024 =? 64512 then false
  else true.

(** [flags] is absent when the kernel's table cannot be read. The candidates are
    not empty. *)
Definition select_address (candidates : list (list Z * list Z))
    (flags : option (gmap (list Z) Z)) : outcome unit (list Z * list Z) :=
  let first := expect (head candidates) in
  match flags with
  | None => first
  | Some map =>
      let flag := fun c : list Z * list Z => default 0 (map !! c.1) in
      let stable := filter (fun c => Z.land (flag c) IFA_F_UNSTABLE = 0) candidates in
      match find (fun c => negb (Z.land (flag c) IFA_F_MANAGETEMPADDR =? 0)) stable with
      | Some c => Return c
      | None =>
          match stable with
          | c :: _ => Return c
          | [] => first
          end
      end
  end.

(** ** Address blocks *)

(** The address lies in the block of [base] with [len] leading bits fixed. *)
Definition in_block (o : list Z) (block : list Z * Z) : bool :=
  let (base, len) := block in
  let free := 8 * Z.of_nat (length base) - len in
  from_be o / 2 ^ free =? from_be base / 2 ^ free.

Definition always_v4 : list (list Z * Z) :=
  [([127; 0; 0; 0], 8); ([169; 254; 0; 0], 16); ([224; 0; 0; 0], 4);
   ([255; 255; 255; 255], 32); ([0; 0; 0; 0], 32); ([198; 18; 0; 0], 15); ([240; 0; 0; 0], 4)].

Definition mainnet_v4 : list (list Z * Z) :=
  [([10; 0; 0; 0], 8); ([172; 16; 0; 0], 12); ([192; 168; 0; 0], 16); ([100; 64; 0; 0], 10);
   ([192; 0; 2; 0], 24); ([198; 51; 100; 0], 24); ([203; 0; 113; 0], 24)].

Definition v6 (prefix : list Z) : list Z := prefix ++ replicate (16 - length prefix) 0.

Definition always_v6 : list (list Z * Z) :=
  [(v6 (replicate 15 0 ++ [1]), 128); (v6 [], 128); (v6 [255], 8);
   (v6 (replicate 10 0 ++ [255; 255]), 96); (v6 [254; 128], 10)].

Definition mainnet_v6 : list (list Z * Z) := [(v6 [252], 7); (v6 [32; 1; 13; 184], 32)].

(** RFC 1112, 1122, 2544, 3171, 3330, 3927 and 4291 on every network; RFC 1918, 3849,
    4193, 5737 and 6598 on mainnet. *)
Definition blocks (a : IpAddr) (n : Network) : list (list Z * Z) :=
  match a, n with
  | V4 _, Mainnet => always_v4 ++ mainnet_v4
  | V4 _, Testnet => always_v4
  | V6 _, Mainnet => always_v6 ++ mainnet_v6
  | V6 _, Testnet => always_v6
  end.

(** ** Lemmas *)

Lemma from_be_app p q : from_be (p ++ q) = from_be p * 256 ^ Z.of_nat (length q) + from_be q.
Proof.
  induction q as [|b q IH] using rev_ind; [rewrite app_nil_r; unfold from_be at 3; simpl; lia|].
  rewrite app_assoc, !from_be_snoc, IH, length_app. cbn [length].
  rewrite Nat2Z.inj_add, Z.pow_add_r by lia. change (256 ^ Z.of_nat 1) with 256. lia.
Qed.

Lemma from_be_inj p q :
  bytes_ok p -> bytes_ok q -> length p = length q -> from_be p = from_be q -> p = q.
Proof.
  intros Hp Hq Hl H. rewrite <- (be_bytes_from p Hp), <- (be_bytes_from q Hq), Hl, H. done.
Qed.

(** The bits of an address before position [8 * length p + t]. *)
Lemma leading_bits p x q t :
  bytes_ok q -> 0 <= t <= 8 ->
  from_be (p ++ x :: q) / 2 ^ (8 * Z.of_nat (length q) + (8 - t))
    = from_be p * 2 ^ t + x / 2 ^ (8 - t).
Proof.
  intros Hq Ht. change (x :: q) with ([x] ++ q). rewrite app_assoc, from_be_app, from_be_snoc.
  pose proof (from_be_range q Hq) as Hr.
  assert (Hpow : 256 ^ Z.of_nat (length q) = 2 ^ (8 * Z.of_nat (length q))).
  { change 256 with (2 ^ 8). by rewrite <- Z.pow_mul_r by lia. }
  rewrite Hpow in *. rewrite Z.pow_add_r by lia.
  rewrite <- Z.div_div by (try apply Z.pow_nonzero; try apply Z.pow_pos_nonneg; lia).
  rewrite Z.div_add_l by (apply Z.pow_nonzero; lia). rewrite (Z.div_small (from_be q)) by lia.
  rewrite Z.add_0_r. replace 256 with (2 ^ t * 2 ^ (8 - t)).
  - rewrite Z.mul_assoc, Z.div_add_l by (apply Z.pow_nonzero; lia). done.
  - rewrite <- Z.pow_add_r by lia. by replace (t + (8 - t)) with 8 by lia.
Qed.

(** Membership in a block, by whole octets and the bits of one more. *)
Lemma in_block_bits p x q p' x' q' t :
  bytes_ok (p ++ x :: q) -> bytes_ok (p' ++ x' :: q') -> length p = length p' ->
  length q = length q' -> 0 <= t <= 8 ->
  in_block (p ++ x :: q) (p' ++ x' :: q', 8 * Z.of_nat (length p) + t)
    = bool_decide (p = p') && (x / 2 ^ (8 - t) =? x' / 2 ^ (8 - t)).
Proof.
  intros Ho Hb Hp Hq Ht. unfold in_block.
  apply Forall_app in Ho as [Hop [Hx Hoq]%Forall_cons].
  apply Forall_app in Hb as [Hbp [Hx' Hbq]%Forall_cons].
  replace (8 * Z.of_nat (length (p' ++ x' :: q')) - (8 * Z.of_nat (length p) + t))
    with (8 * Z.of_nat (length q) + (8 - t)) by (rewrite length_app; simpl; lia).
  rewrite leading_bits by done. rewrite Hq, leading_bits by done.
  assert (Hr : forall y, is_u8 y -> 0 <= y / 2 ^ (8 - t) < 2 ^ t).
  { intros y Hy. split; [apply Z.div_pos; [|apply Z.pow_pos_nonneg]; int_unfold; lia|].
    apply Z.div_lt_upper_bound; [apply Z.pow_pos_nonneg; lia|].
    rewrite <- Z.pow_add_r by lia. replace (8 - t + t) with 8 by lia. int_unfold. lia. }
  pose proof (Hr x Hx). pose proof (Hr x' Hx'). apply eq_iff_eq_true.
  rewrite andb_true_iff, bool_decide_eq_true, !Z.eqb_eq. split.
  - intros E. destruct (Z.div_mod_unique (2 ^ t) (from_be p) (from_be p')
      (x / 2 ^ (8 - t)) (x' / 2 ^ (8 - t))) as [E1 E2]; [by left..|lia|]. split; [|done]. by apply from_be_inj.
  - by intros [-> ->].
Qed.

(** A mask that keeps the leading bits. *)
Lemma land_mask n k mask unit x :
  0 <= k <= n -> mask = 2 ^ n - 2 ^ k -> unit = 2 ^ k -> 0 <= x < 2 ^ n ->
  Z.land x mask = x / unit * unit.
Proof.
  intros Hk -> -> Hx.
  replace (2 ^ n - 2 ^ k) with (Z.shiftl (Z.ones (n - k)) k).
  2: { rewrite Z.shiftl_mul_pow2, Z.ones_equiv by lia.
       replace (2 ^ n) with (2 ^ (n - k) * 2 ^ k); [lia|].
       rewrite <- Z.pow_add_r by lia. f_equal. lia. }
  rewrite <- Z.shiftr_div_pow2, <- Z.shiftl_mul_pow2 by lia.
  apply Z.bits_inj'. intros i Hi. rewrite Z.land_spec, !Z.shiftl_spec by done.
  destruct (decide (i < k)).
  - rewrite !(Z.testbit_neg_r _ (i - k)) by lia. apply andb_false_r.
  - rewrite Z.shiftr_spec by lia. replace (i - k + k) with i by lia.
    destruct (decide (i < n)).
    + rewrite Z.ones_spec_low by lia. apply andb_true_r.
    + assert (Z.testbit x i = false) as ->; [|done].
      rewrite <- (Z.mod_small x (2 ^ n)) by lia. apply Z.mod_pow2_bits_high. lia.
Qed.

Lemma land_254 x : is_u8 x -> Z.land x 254 = x / 2 * 2.
Proof. intros H. apply (land_mask 8 1); [lia|done..|int_unfold; lia]. Qed.

Lemma land_192 x : is_u8 x -> Z.land x 192 = x / 64 * 64.
Proof. intros H. apply (land_mask 8 6); [lia|done..|int_unfold; lia]. Qed.

Lemma land_65280 x : is_u16 x -> Z.land x 65280 = x / 256 * 256.
Proof. intros H. apply (land_mask 16 8); [lia|done..|int_unfold; lia]. Qed.

Lemma land_65472 x : is_u16 x -> Z.land x 65472 = x / 64 * 64.
Proof. intros H. apply (land_mask 16 6); [lia|done..|int_unfold; lia]. Qed.

Lemma land_65024 x : is_u16 x -> Z.land x 65024 = x / 512 * 512.
Proof. intros H. apply (land_mask 16 9); [lia|done..|int_unfold; lia]. Qed.

Lemma in_block_split o base j t :
  bytes_ok o -> bytes_ok base -> length o = length base -> (j < length o)%nat -> 0 <= t <= 8 ->
  in_block o (base, 8 * Z.of_nat j + t)
    = bool_decide (take j o = take j base) && (oct o j / 2 ^ (8 - t) =? oct base j / 2 ^ (8 - t)).
Proof.
  intros Ho Hb Hl Hj Ht.
  destruct (lookup_lt_is_Some_2 o j) as [x Hx]; [lia|].
  destruct (lookup_lt_is_Some_2 base j) as [y Hy]; [lia|].
  pose proof (take_drop_middle o j x Hx) as Eo. pose proof (take_drop_middle base j y Hy) as Eb.
  assert (Hlp : length (take j o) = j) by (rewrite length_take; lia).
  assert (Hlp' : length (take j base) = j) by (rewrite length_take; lia).
  pose proof (in_block_bits (take j o) x (drop (S j) o) (take j base) y (drop (S j) base) t) as H.
  rewrite Eo, Eb, Hlp in H. unfold oct.
  rewrite !(nth_lookup_Some _ _ 0 _ Hx), !(nth_lookup_Some _ _ 0 _ Hy).
  apply H; [done..|lia|rewrite !length_drop; lia|done].
Qed.

Lemma cons_eq {A} (x y : A) l k : x :: l = y :: k <-> x = y /\ l = k.
Proof. split; [by intros [= -> ->]|by intros [-> ->]]. Qed.

Lemma nil_eq {A} : @nil A = [] <-> True.
Proof. done. Qed.

Lemma div_eq x u k : 0 < u -> x / u = k <-> k * u <= x < k * u + u.
Proof.
  intros Hu. pose proof (Z.div_mod x u ltac:(lia)). pose proof (Z.mod_pos_bound x u Hu).
  split; [intros <-; lia|]. intros Hk. symmetry. apply (Z.div_unique x u k (x - k * u)); lia.
Qed.

Lemma div_mul_eq x u k : 0 < u -> k mod u = 0 -> x / u * u = k <-> k <= x < k + u.
Proof.
  intros Hu Hk. pose proof (Z.div_mod k u ltac:(lia)). rewrite Hk in *.
  pose proof (div_eq x u (k / u) Hu). split.
  - intros E. assert (x / u = k / u) by nia. lia.
  - intros Hr. assert (x / u = k / u) as -> by lia. lia.
Qed.

Ltac fold_constants :=
  repeat match goal with
  | |- context [Z.pow ?a (Z.sub ?b ?c)] =>
      let v := eval vm_compute in (Z.pow a (Z.sub b c)) in change (Z.pow a (Z.sub b c)) with v
  | |- context [Z.div (Zpos ?a) (Zpos ?b)] =>
      let v := eval vm_compute in (Z.div (Zpos a) (Zpos b)) in change (Z.div (Zpos a) (Zpos b)) with v
  | |- context [Z.div 0 (Zpos ?b)] => change (Z.div 0 (Zpos b)) with 0
  end.

(** Boolean equations between conditions on octets. *)
Ltac octets_solve :=
  apply eq_iff_eq_true; unfold seg, oct in *; cbn [nth take Nat.mul Nat.add Nat.sub length replicate app] in *;
  rewrite ?orb_false_r; fold_constants;
  rewrite ?Z.div_1_r, ?orb_true_iff, ?andb_true_iff, ?bool_decide_eq_true, ?Z.eqb_eq, ?Z.leb_le,
    ?cons_eq, ?nil_eq, ?div_mul_eq, ?div_eq by done;
  int_unfold; split; intros;
  repeat match goal with H : _ \/ _ |- _ => destruct H end; lia.

Lemma u8_seg o i : bytes_ok o -> is_u16 (seg o i).
Proof.
  intros H. unfold seg, oct. pose proof (nth_is_u8 o (2 * i) H).
  pose proof (nth_is_u8 o (2 * i + 1) H). int_unfold. lia.
Qed.

Ltac split_block j t :=
  match goal with
  | |- context [in_block ?o (?b, ?len)] =>
      replace (in_block o (b, len)) with (in_block o (b, 8 * Z.of_nat j + t)) by reflexivity;
      rewrite (in_block_split o b j t);
      [|assumption|apply (bool_decide_unpack _); vm_compute; exact I|assumption||reflexivity
       |simpl; lia|lia]
  end.

Lemma always_v4_blocks o :
  bytes_ok o -> length o = 4%nat -> is_always_bogus_v4 o = existsb (in_block o) always_v4.
Proof.
  intros Ho Hl. unfold always_v4. cbn [existsb].
  split_block 0%nat 8. split_block 1%nat 8. split_block 0%nat 4. split_block 3%nat 8.
  split_block 3%nat 8. split_block 1%nat 7. split_block 0%nat 4.
  destruct o as [|a [|b [|c [|d [|]]]]]; try done.
  unfold is_always_bogus_v4, v4_is_loopback, v4_is_link_local, v4_is_multicast, v4_is_broadcast,
    v4_is_unspecified.
  apply Forall_cons in Ho as [Ha Ho]. apply Forall_cons in Ho as [Hb Ho].
  apply Forall_cons in Ho as [Hc Ho]. apply Forall_cons in Ho as [Hd _].
  rewrite land_254 by done. octets_solve.
Qed.

Lemma mainnet_v4_blocks o :
  bytes_ok o -> length o = 4%nat -> is_mainnet_only_bogus_v4 o = existsb (in_block o) mainnet_v4.
Proof.
  intros Ho Hl. unfold mainnet_v4. cbn [existsb].
  split_block 0%nat 8. split_block 1%nat 4. split_block 1%nat 8. split_block 1%nat 2.
  split_block 2%nat 8. split_block 2%nat 8. split_block 2%nat 8.
  destruct o as [|a [|b [|c [|d [|]]]]]; try done.
  unfold is_mainnet_only_bogus_v4, v4_is_private.
  apply Forall_cons in Ho as [Ha Ho]. apply Forall_cons in Ho as [Hb Ho].
  apply Forall_cons in Ho as [Hc _]. rewrite land_192 by done. octets_solve.
Qed.

Lemma take_snoc_eq (o p : list Z) n x :
  (n < length o)%nat -> length p = n -> take (S n) o = p ++ [x] <-> take n o = p /\ oct o n = x.
Proof.
  intros Hn Hp. destruct (lookup_lt_is_Some_2 o n Hn) as [y Hy].
  rewrite (take_S_r o n y Hy). unfold oct. rewrite (nth_lookup_Some _ _ 0 _ Hy). split.
  - intros [? ?]%app_inj_tail. done.
  - by intros [-> ->].
Qed.

Lemma eq_snoc (o p : list Z) n x :
  length o = S n -> length p = n -> o = p ++ [x] <-> take n o = p /\ oct o n = x.
Proof. intros Ho Hp. rewrite <- take_snoc_eq by lia. by rewrite take_ge by lia. Qed.

Lemma always_v6_blocks o :
  bytes_ok o -> length o = 16%nat -> is_always_bogus_v6 o = existsb (in_block o) always_v6.
Proof.
  intros Ho Hl. unfold always_v6. cbn [existsb].
  split_block 15%nat 8. split_block 15%nat 8. split_block 0%nat 8. split_block 11%nat 8.
  split_block 1%nat 2.
  unfold is_always_bogus_v6, v6_is_loopback, v6_is_unspecified, v6_is_multicast, v6_is_ipv4_mapped.
  pose proof (u8_seg o 0 Ho). rewrite land_65280, land_65472 by done.
  pose proof (nth_is_u8 o 0 Ho) as H0. pose proof (nth_is_u8 o 1 Ho) as H1.
  assert (Hs : take 1 o = [254] <-> oct o 0 = 254).
  { rewrite (take_snoc_eq o [] 0 254) by (reflexivity || lia). rewrite take_0. naive_solver. }
  change (replicate 16 0) with (replicate 15 0 ++ [0]).
  change (replicate 10 0 ++ [255; 255]) with ((replicate 10 0 ++ [255]) ++ [255]).
  apply eq_iff_eq_true. rewrite ?orb_false_r, ?orb_true_iff, ?andb_true_iff, ?bool_decide_eq_true.
  rewrite !(eq_snoc o _ 15) by (reflexivity || lia).
  rewrite (take_snoc_eq o (replicate 10 0 ++ [255]) 11 255) by (done || lia).
  unfold v6. cbn [take replicate app length Nat.sub]. rewrite Hs.
  unfold oct at 2 4 6 8 10. cbn [nth]. fold_constants. rewrite ?Z.div_1_r, ?Z.eqb_eq.
  assert (Hm : seg o 0 / 256 * 256 = 65280 <-> oct o 0 = 255).
  { rewrite div_mul_eq by done. unfold seg, oct in *. cbn [Nat.mul Nat.add]. int_unfold. lia. }
  assert (Hk : seg o 0 / 64 * 64 = 65152 <-> oct o 0 = 254 /\ oct o 1 / 64 = 2).
  { rewrite div_mul_eq, div_eq by done. unfold seg, oct in *. cbn [Nat.mul Nat.add]. int_unfold. lia. }
  rewrite Hm, Hk. tauto.
Qed.

Lemma mainnet_v6_blocks o :
  bytes_ok o -> length o = 16%nat -> is_mainnet_only_bogus_v6 o = existsb (in_block o) mainnet_v6.
Proof.
  intros Ho Hl. unfold mainnet_v6. cbn [existsb]. split_block 0%nat 7. split_block 3%nat 8.
  unfold is_mainnet_only_bogus_v6. pose proof (u8_seg o 0 Ho). rewrite land_65024 by done.
  do 4 (destruct o as [|? o]; [done|]).
  do 4 (let H := fresh "Hb" in apply Forall_cons in Ho as [H Ho]).
  clear Ho Hl. unfold v6. octets_solve.
Qed.

(** The bit-mask classifier of gossiped addresses is equivalent to membership in a
    table of address blocks: loopback, link-local, multicast, broadcast, unspecified,
    benchmark, class E and IPv4-mapped addresses on every network, and on mainnet also
    the private, carrier-grade NAT, unique-local and documentation blocks. *)
Theorem bogus_is_block addr n :
  addr_typed addr ->
  is_bogus_address addr n = existsb (in_block (octets (ip addr))) (blocks (ip addr) n).
Proof.
  intros [[_ Hl] Ho]. unfold is_bogus_address, is_always_bogus, is_mainnet_only_bogus.
  destruct (ip addr) as [o|o]; cbn [octets] in *; destruct n; cbn [blocks bool_decide decide];
    rewrite ?existsb_app, ?always_v4_blocks, ?mainnet_v4_blocks, ?always_v6_blocks,
      ?mainnet_v6_blocks by done.
  all: try rewrite (bool_decide_eq_true_2 (Mainnet = Mainnet)) by done;
    try rewrite (bool_decide_eq_false_2 (Testnet = Mainnet)) by done;
    cbn [andb]; by rewrite ?orb_false_r.
Qed.

Lemma bogus_is_block_witness :
  is_bogus_address (mk_addr (V4 [192; 168; 1; 7]) 9030) Mainnet
    = existsb (in_block [192; 168; 1; 7]) (always_v4 ++ mainnet_v4)
  /\ is_bogus_address (mk_addr (V4 [192; 168; 1; 7]) 9030) Mainnet = true.
Proof.
  split; [|vm_compute; reflexivity].
  refine (bogus_is_block (mk_addr (V4 [192; 168; 1; 7]) 9030) Mainnet _).
  split; [split; [split; vm_compute; discriminate|reflexivity]|].
  apply (bool_decide_unpack _). vm_compute. exact I.
Defined.

(** An interface address we announce is not bogus to a peer, unless it is IPv4-mapped or
    a documentation address, which the interface check lets through. *)
Lemma global_unicast_not_bogus o :
  is_global_unicast o = true ->
  v6_is_ipv4_mapped o = false -> (seg o 0 =? 8193) && (seg o 1 =? 3512) = false ->
  is_always_bogus_v6 o = false /\ is_mainnet_only_bogus_v6 o = false.
Proof.
  unfold is_global_unicast, is_always_bogus_v6, is_mainnet_only_bogus_v6.
  intros H -> ->. repeat case_match; done.
Qed.

End AddressSanity.
