(* ===== verification/Router.v ===== *)
(** * The message router

    Models p2p/src/routing/router.rs: what the node does with each message of a peer.
    The router keeps the registered peers, shares the peer database and the blacklist,
    answers gossip and modifier requests and hands received modifiers to validation.
    The clock is a function of how often it was read; the iteration orders of the
    hash maps and the local-serve hook are arguments. The traffic counters are left
    out. *)

From S2P Require Import Prelude Bytes Vlq Frame Messages Handshake PeerDb AddressSanity.
Import Vlq Frame Messages Handshake PeerDb AddressSanity.

Module Router.

Definition PEERS_PER_GOSSIP_DIVISOR : Z := 8.
Definition PEERS_PER_GOSSIP_MIN_CAP : Z := 16.
Definition MAX_SERVE_BATCH_BYTES : Z := 2048576.
Definition SERVE_ENTRY_OVERHEAD : Z := 37.
Definition SERVE_HEADER_OVERHEAD : Z := 3.

Definition is_block_related (modifier_type : Z) : bool :=
  (modifier_type =? 101) || (modifier_type =? 102) || (modifier_type =? 104)
  || (modifier_type =? 108).

Abbreviation modifier := (modifier_id * list Z)%type (only parsing).

Definition entry_size (m : modifier) : Z := SERVE_ENTRY_OVERHEAD + Z.of_nat (length m.2).

(** The loop of [chunk_served] with its open batch and that batch's size. *)
Fixpoint chunk_loop (batch : list modifier) (size : Z) (served : list modifier) :
    list (list modifier) :=
  match served with
  | [] => match batch with [] => [] | _ => [batch] end
  | m :: served' =>
      let entry := entry_size m in
      if negb (bool_decide (batch = [])) && (MAX_SERVE_BATCH_BYTES <? size + entry) then
        batch :: chunk_loop [m] (SERVE_HEADER_OVERHEAD + entry) served'
      else chunk_loop (batch ++ [m]) (size + entry) served'
  end.

Definition chunk_served (served : list modifier) : list (list modifier) :=
  chunk_loop [] SERVE_HEADER_OVERHEAD served.

Inductive Action :=
| Send (target : Z) (message : protocol_message)
| Validate (modifier_type : Z) (id : modifier_id) (data : list Z) (peer_id : Z).

Record PeerEntry := mk_peer {
  pe_direction : Direction;
  pe_mode : ProxyMode;
  pe_addr : SocketAddr;
  pe_url : option (list Z);
  pe_agent : option (list Z)
}.

Definition local_serve_fn : Type := Z -> modifier_id -> option (list Z).

Record Router (St : Type) := mk_router {
  peers : gmap Z PeerEntry;
  peer_db : PeerDb St;
  blacklist : gset SocketAddr;
  max_peer_spec_objects : Z;
  r_network : Network;
  filter_bogus_addresses : bool;
  local_serve : option local_serve_fn
}.
Arguments mk_router {_}. Arguments peers {_}. Arguments peer_db {_}. Arguments blacklist {_}.
Arguments max_peer_spec_objects {_}. Arguments r_network {_}.
Arguments filter_bogus_addresses {_}. Arguments local_serve {_}.

Inductive ProtocolEvent :=
| PeerConnected (peer_id : Z) (spec : PeerSpec) (direction : Direction) (addr : SocketAddr)
| PeerDisconnected (peer_id : Z)
| Message (peer_id : Z) (message : protocol_message).

Definition record_to_spec (r : PeerRecord) : PeerSpec :=
  let '(a, b, c) := rec_version r in
  mk_spec (rec_agent r) (mk_version a b c) (rec_name r) (Some (rec_address r))
    ((fun f => mk_feature f.1 f.2) <$> rec_features r).

(** The record of an address described by [spec]. *)
Definition spec_record (spec : PeerSpec) (addr : SocketAddr) (seen handshake : Z) : PeerRecord :=
  mk_record addr seen handshake (agent spec) (name spec)
    (major (version spec), minor (version spec), patch (version spec))
    ((fun f => (id f, fbody f)) <$> features spec).

Section Operations.
Context {St : Type} `{!PeerStorage St}.
Context (values : gmap SocketAddr PeerRecord -> list PeerRecord).

Definition with_db (r : Router St) (db : PeerDb St) : Router St :=
  mk_router (peers r) db (blacklist r) (max_peer_spec_objects r) (r_network r)
    (filter_bogus_addresses r) (local_serve r).

Definition with_peers (r : Router St) (ps : gmap Z PeerEntry) : Router St :=
  mk_router ps (peer_db r) (blacklist r) (max_peer_spec_objects r) (r_network r)
    (filter_bogus_addresses r) (local_serve r).

Definition ban (r : Router St) (addr : SocketAddr) : Router St :=
  mk_router (peers r) (peer_db r) ({[addr]} ∪ blacklist r) (max_peer_spec_objects r)
    (r_network r) (filter_bogus_addresses r) (local_serve r).

(** [Router::with_peer_db]. *)
Definition with_peer_db (db : PeerDb St) (bl : gset SocketAddr) (max_objects : Z) (n : Network)
    (filter_bogus : bool) : Router St :=
  mk_router ∅ db bl max_objects n filter_bogus None.

Definition set_local_serve (r : Router St) (serve : local_serve_fn) : Router St :=
  mk_router (peers r) (peer_db r) (blacklist r) (max_peer_spec_objects r) (r_network r)
    (filter_bogus_addresses r) (Some serve).

Definition record_in (rec : PeerRecord) (r : Router St) : Router St :=
  with_db r (record values (blacklist r) rec (peer_db r)).

Definition register_peer (peer_id : Z) (d : Direction) (m : ProxyMode) (addr : SocketAddr)
    (url agent_name : option (list Z)) (now : Z) (r : Router St) : Router St :=
  let r := with_peers r (<[peer_id := mk_peer d m addr url agent_name]> (peers r)) in
  if bool_decide (d = Outbound) && negb (bool_decide (addr ∈ blacklist r)) then
    record_in (mk_record addr now now (default [] agent_name) [] (0, 0, 0) []) r
  else r.

Definition is_addr_connected (addr : SocketAddr) (r : Router St) : bool :=
  existsb (fun e => bool_decide (pe_addr e = addr)) (map_to_list (peers r)).*2.

Definition peer_addr (peer_id : Z) (r : Router St) : option SocketAddr :=
  pe_addr <$> peers r !! peer_id.

(** The (address, observed) pairs of [record_peer_connected]. *)
Definition to_record (spec : PeerSpec) (d : Direction) (remote : SocketAddr) :
    list (SocketAddr * bool) :=
  let same_host := fun declared : SocketAddr => bool_decide (ip declared = ip remote) in
  match d with
  | Outbound =>
      (remote, true) ::
      match address spec with
      | Some declared =>
          if decide (declared = remote) then [] else [(declared, same_host declared)]
      | None => []
      end
  | Inbound =>
      match address spec with
      | Some declared => [(declared, same_host declared)]
      | None => []
      end
  end.

Definition record_peer_connected (spec : PeerSpec) (d : Direction) (remote : SocketAddr)
    (now : Z) (r : Router St) : Router St :=
  foldl (fun r '(addr, obs) =>
           if decide (addr ∈ blacklist r) then r
           else record_in (spec_record spec addr now (if obs : bool then now else 0)) r)
    r (to_record spec d remote).

Definition peers_to_send (r : Router St) : Z :=
  if PEERS_PER_GOSSIP_MIN_CAP <=? max_peer_spec_objects r then
    max_peer_spec_objects r / PEERS_PER_GOSSIP_DIVISOR
  else max_peer_spec_objects r.

Definition rejects (r : Router St) (addr : SocketAddr) : bool :=
  filter_bogus_addresses r && is_bogus_address addr (r_network r).

Definition connected_set (r : Router St) : gset SocketAddr :=
  list_to_set (pe_addr <$> (map_to_list (peers r)).*2).

Definition answer_get_peers (source_addr : SocketAddr) (r : Router St) : list PeerSpec :=
  let exclude := {[source_addr]} ∪ connected_set r in
  record_to_spec <$>
    filter (fun rec => rejects r (rec_address rec) = false)
      (observed values (blacklist r) (Z.to_nat (peers_to_send r)) exclude (peer_db r)).

(** The loop over the entries of a peer list; the clock is read once per entry. *)
Fixpoint ingest (clock : nat -> Z) (specs : list PeerSpec) (r : Router St) : Router St :=
  match specs with
  | [] => r
  | spec :: specs' =>
      match address spec with
      | None => ingest clock specs' r
      | Some addr =>
          if rejects r addr then ingest clock specs' r
          else if decide (addr ∈ blacklist r) then ingest clock specs' r
          else
            ingest (fun i => clock (S i)) specs'
              (record_in (spec_record spec addr (clock 0%nat) 0) r)
      end
  end.

Definition serve_request (source : Z) (modifier_type : Z) (ids : list modifier_id)
    (r : Router St) : list Action :=
  let served :=
    match local_serve r with
    | Some serve => omap (fun i => (fun data => (i, data)) <$> serve modifier_type i) ids
    | None => []
    end in
  (fun modifiers => Send source (ModifierResponse modifier_type modifiers)) <$> chunk_served served.

Definition route_message (clock : nat -> Z) (source : Z) (message : protocol_message)
    (r : Router St) : list Action * Router St :=
  match peers r !! source with
  | None => ([], r)
  | Some e =>
      match message with
      | Inv _ _ | SyncInfo _ | Unknown _ _ => ([], r)
      | ModifierRequest modifier_type ids =>
          if bool_decide (pe_mode e = Light) && is_block_related modifier_type then ([], r)
          else (serve_request source modifier_type ids r, r)
      | ModifierResponse modifier_type modifiers =>
          ((fun m : modifier => Validate modifier_type m.1 m.2 source) <$> modifiers, r)
      | GetPeers =>
          ([Send source (Peers (build_peers_body (answer_get_peers (pe_addr e) r)))], r)
      | Peers body =>
          match parse_peers_body body (max_peer_spec_objects r) with
          | Ok specs => ([], ingest clock specs r)
          | Err _ => ([], ban r (pe_addr e))
          end
      end
  end.

Definition handle_event (clock : nat -> Z) (event : ProtocolEvent) (r : Router St) :
    list Action * Router St :=
  match event with
  | PeerConnected _ spec d addr => ([], record_peer_connected spec d addr (clock 0%nat) r)
  | PeerDisconnected peer_id => ([], with_peers r (delete peer_id (peers r)))
  | Message peer_id message => route_message clock peer_id message r
  end.

Definition outbound_peers (r : Router St) : list Z :=
  (filter (fun p : Z * PeerEntry => pe_direction p.2 = Outbound) (map_to_list (peers r))).*1.

Definition inbound_peers (r : Router St) : list Z :=
  (filter (fun p : Z * PeerEntry => pe_direction p.2 = Inbound) (map_to_list (peers r))).*1.

Definition peer_count (r : Router St) : nat := size (peers r).
End Operations.

(** ** Serving modifiers *)

Definition batch_size (b : list modifier) : Z :=
  SERVE_HEADER_OVERHEAD + foldr (fun m acc => entry_size m + acc) 0 b.

Lemma batch_size_snoc b m : batch_size (b ++ [m]) = batch_size b + entry_size m.
Proof.
  unfold batch_size. rewrite foldr_app. cbn [foldr].
  assert (forall x, foldr (fun m acc => entry_size m + acc) x b
                    = foldr (fun m acc => entry_size m + acc) 0 b + x) as H.
  { intros x. induction b as [|c b IH]; cbn; [lia|]. rewrite IH. lia. }
  rewrite H. lia.
Qed.

(** A batch is full when the first modifier of the next one does not fit. *)
Fixpoint greedy (bs : list (list modifier)) : Prop :=
  match bs with
  | b :: (((m :: _) :: _) as bs') => MAX_SERVE_BATCH_BYTES < batch_size b + entry_size m /\ greedy bs'
  | _ => True
  end.

Definition batch_ok (b : list modifier) : Prop :=
  b <> [] /\ (length b = 1%nat \/ batch_size b <= MAX_SERVE_BATCH_BYTES).

Lemma chunk_loop_head batch size served :
  batch <> [] -> exists b bs, chunk_loop batch size served = b :: bs /\ head b = head batch.
Proof.
  revert batch size. induction served as [|m served IH]; intros batch size Hb; cbn.
  - destruct batch; [done|]. eauto.
  - case_match; [eauto|]. destruct (IH (batch ++ [m]) (size + entry_size m)) as (b & bs & -> & Hh).
    + by destruct batch.
    + exists b, bs. split; [done|]. rewrite Hh. by destruct batch.
Qed.

Lemma chunk_loop_spec served batch size :
  size = batch_size batch -> (batch = [] \/ batch_ok batch) ->
  let bs := chunk_loop batch size served in
  concat bs = batch ++ served /\ Forall batch_ok bs /\ greedy bs.
Proof.
  revert batch size. induction served as [|m served IH]; intros batch size Hs Hb bs; subst bs size; cbn.
  { destruct batch as [|a batch]; [done|]. destruct Hb as [|Hb]; [done|].
    cbn. rewrite !app_nil_r. split_and!; [done| |done]. constructor; [done|constructor]. }
  destruct (negb (bool_decide (batch = [])) && _) eqn:E.
  - apply andb_true_iff in E as [Hne%negb_true_iff Hlt%Z.ltb_lt].
    apply bool_decide_eq_false in Hne. destruct Hb as [|Hb]; [done|].
    destruct (IH [m] (SERVE_HEADER_OVERHEAD + entry_size m)) as (Hc & Hall & Hg).
    { unfold batch_size. cbn. lia. }
    { right. split; [done|]. by left. }
    destruct (chunk_loop_head [m] (SERVE_HEADER_OVERHEAD + entry_size m) served) as (b & bs & Eb & Hh);
      [done|].
    rewrite Eb in *. cbn [concat]. change (m :: served) with ([m] ++ served). rewrite <- Hc.
    split_and!; [done|by constructor|].
    cbn [greedy]. destruct b as [|m' b]; [done|]. injection Hh as ->. done.
  - destruct (IH (batch ++ [m]) (batch_size batch + entry_size m)) as (Hc & Hall & Hg).
    { by rewrite batch_size_snoc. }
    { right. split; [by destruct batch|]. rewrite batch_size_snoc, length_app.
      apply andb_false_iff in E as [E%negb_false_iff|E%Z.ltb_ge]; [|by right].
      apply bool_decide_eq_true in E as ->. by left. }
    by rewrite Hc, <- app_assoc.
Qed.

(** The size estimate covers the encoding. *)
Lemma write_vlq_short k v :
  (0 < k)%nat -> 0 <= v < 2 ^ (7 * Z.of_nat k) -> forall n, (length (write_vlq_loop n v) <= k)%nat.
Proof.
  revert v. induction k as [|k IH]; intros v Hk Hv n; [lia|]. destruct n as [|n]; [simpl; lia|].
  rewrite write_vlq_loop_S. case_match eqn:E; [simpl; lia|]. apply Z.eqb_neq in E.
  cbn [length]. destruct k as [|k].
  - change (2 ^ (7 * Z.of_nat 1)) with 128 in Hv. rewrite Z.div_small in E by lia. done.
  - apply le_n_S, IH; [lia|]. split; [apply Z.div_pos; lia|].
    apply Z.div_lt_upper_bound; [lia|].
    replace (7 * Z.of_nat (S (S k))) with (7 + 7 * Z.of_nat (S k)) in Hv by lia.
    rewrite Z.pow_add_r in Hv by lia. change (2 ^ 7) with 128 in Hv. lia.
Qed.

Lemma entry_length m : modifier_ok m -> Z.of_nat (length (encode_modifier m)) <= entry_size m.
Proof.
  intros [Hi Hd]. unfold entry_size, encode_modifier, write_vlq, SERVE_ENTRY_OVERHEAD.
  rewrite !length_app, Hi. unfold MAX_VLQ_LENGTH in Hd.
  pose proof (write_vlq_short 5 (Z.of_nat (length m.2)) ltac:(lia)
                ltac:(change (2 ^ (7 * Z.of_nat 5)) with 34359738368; lia) 10). lia.
Qed.

Lemma response_length t ms :
  Z.of_nat (length ms) <= MAX_INV_OBJECTS -> Forall modifier_ok ms ->
  Z.of_nat (length (encode_modifier_response_body t ms)) <= batch_size ms.
Proof.
  intros Hc Hms. unfold encode_modifier_response_body, write_vlq, MAX_INV_OBJECTS in *.
  pose proof (write_vlq_short 2 (Z.of_nat (length ms)) ltac:(lia)
                ltac:(change (2 ^ (7 * Z.of_nat 2)) with 16384; lia) 10) as H2.
  assert (Hb : Z.of_nat (length (concat (encode_modifier <$> ms)))
               <= foldr (fun m acc => entry_size m + acc) 0 ms).
  { clear Hc H2. induction Hms as [|m ms Hm _ IH]; [done|].
    change (concat (encode_modifier <$> m :: ms))
      with (encode_modifier m ++ concat (encode_modifier <$> ms)).
    cbn [foldr]. rewrite length_app. pose proof (entry_length m Hm). lia. }
  unfold batch_size, SERVE_HEADER_OVERHEAD. rewrite !length_app. cbn [length]. lia.
Qed.

Lemma response_roundtrip t ms :
  Z.of_nat (length ms) <= MAX_INV_OBJECTS -> Forall modifier_ok ms ->
  Z.of_nat (length (encode_modifier_response_body t ms)) <= U64_MAX ->
  from_frame (to_frame (ModifierResponse t ms)) = Ok (ModifierResponse t ms).
Proof.
  intros Hc Hok Hu.
  change (from_frame _) with
    (let? (t, ms) := parse_modifier_response_body (encode_modifier_response_body t ms) in
     @Ok msg_error _ (ModifierResponse t ms)).
  by rewrite parse_response_encode.
Qed.

Lemma batch_size_bound ms :
  Z.of_nat (length ms) <= MAX_INV_OBJECTS -> Forall modifier_ok ms -> batch_size ms <= U64_MAX.
Proof.
  intros Hc Hms. unfold MAX_INV_OBJECTS in Hc.
  assert (foldr (fun m acc => entry_size m + acc) 0 ms
          <= Z.of_nat (length ms) * (SERVE_ENTRY_OVERHEAD + MAX_VLQ_LENGTH)).
  { clear Hc. induction Hms as [|m ms [_ Hd] _ IH]; [done|]. cbn [foldr length].
    assert (entry_size m <= SERVE_ENTRY_OVERHEAD + MAX_VLQ_LENGTH) by (unfold entry_size; lia). lia. }
  unfold batch_size, SERVE_HEADER_OVERHEAD, SERVE_ENTRY_OVERHEAD, MAX_VLQ_LENGTH, U64_MAX in *. lia.
Qed.

(** What the hook has of the requested modifiers, in the order asked. *)
Definition hits {St} (r : Router St) (modifier_type : Z) (ids : list modifier_id) : list modifier :=
  omap (fun i => (fun data => (i, data)) <$> (local_serve r ≫= fun serve => serve modifier_type i)) ids.

Lemma serve_request_hits {St} (r : Router St) source t ids :
  serve_request source t ids r =
    (fun ms => Send source (ModifierResponse t ms)) <$> chunk_served (hits r t ids).
Proof.
  unfold serve_request, hits. destruct (local_serve r) as [serve|]; cbn; [done|].
  do 2 f_equal. induction ids; [done|]. done.
Qed.

Definition hook_ok {St} (r : Router St) : Prop :=
  forall serve t i data, local_serve r = Some serve -> serve t i = Some data ->
    Z.of_nat (length data) <= MAX_VLQ_LENGTH.

Lemma hits_ok {St} (r : Router St) t ids :
  hook_ok r -> Forall (fun i : modifier_id => length i = 32%nat) ids ->
  Forall modifier_ok (hits r t ids) /\ (length (hits r t ids) <= length ids)%nat.
Proof.
  intros Hh. induction 1 as [|i ids Hi _ [IH1 IH2]]; [by split; [constructor|]|].
  unfold hits in *. cbn [omap list_omap].
  destruct (local_serve r ≫= fun serve => serve t i) as [d|] eqn:E; cbn [fmap option_fmap option_map].
  - split; [|cbn [length]; lia]. constructor; [|done]. split; [done|].
    apply bind_Some in E as (serve & Hs & Hd). by apply (Hh serve t i).
  - split; [done|]. cbn [length]. lia.
Qed.

Lemma concat_sublist (bs : list (list modifier)) b :
  b ∈ bs -> (length b <= length (concat bs))%nat
  /\ forall P : modifier -> Prop, Forall P (concat bs) -> Forall P b.
Proof.
  intros Hb. apply list_elem_of_split in Hb as (l1 & l2 & ->). rewrite concat_app. cbn [concat].
  rewrite !length_app. split; [lia|]. intros P. rewrite !Forall_app. tauto.
Qed.

(** C29: A peer that requests modifiers is sent exactly those the node has, in the order
    asked, and nothing else is. The responses are non-empty, each is decoded by the
    requester to what was put in it, and each stays under the two-megabyte batch limit
    unless it carries a single modifier; a new response is started only when the next
    modifier does not fit. A light listener's block requests get no answer. *)
Theorem serve_correct {St} `{!PeerStorage St} values clock (r : Router St) source e t ids :
  peers r !! source = Some e -> hook_ok r ->
  Forall (fun i : modifier_id => length i = 32%nat) ids -> Z.of_nat (length ids) <= MAX_INV_OBJECTS ->
  let (actions, r') := handle_event values clock (Message source (ModifierRequest t ids)) r in
  r' = r /\
  if bool_decide (pe_mode e = Light) && is_block_related t then actions = []
  else exists batches,
    actions = (fun ms => Send source (ModifierResponse t ms)) <$> batches
    /\ concat batches = hits r t ids
    /\ greedy batches
    /\ Forall (fun ms => ms <> []
         /\ from_frame (to_frame (ModifierResponse t ms)) = Ok (ModifierResponse t ms)
         /\ (length ms = 1%nat
             \/ Z.of_nat (length (body (to_frame (ModifierResponse t ms)))) <= MAX_SERVE_BATCH_BYTES))
       batches.
Proof.
  intros He Hh Hi Hn. cbn. unfold route_message. rewrite He.
  destruct (_ && _); [done|]. split; [done|].
  destruct (hits_ok r t ids Hh Hi) as [Hok Hl].
  destruct (chunk_loop_spec (hits r t ids) [] SERVE_HEADER_OVERHEAD) as (Hc & Hall & Hg); [done|by left|].
  exists (chunk_served (hits r t ids)). split; [apply serve_request_hits|].
  split; [exact Hc|]. split; [exact Hg|]. apply Forall_forall. intros ms Hms.
  destruct (proj1 (Forall_forall _ _) Hall ms Hms) as [Hne Hsz].
  destruct (concat_sublist _ _ Hms) as [Hlen Hsub]. specialize (Hsub modifier_ok).
  unfold chunk_served in Hlen, Hsub. rewrite Hc in Hlen, Hsub. cbn [app] in Hlen, Hsub. specialize (Hsub Hok).
  assert (Hcnt : Z.of_nat (length ms) <= MAX_INV_OBJECTS) by lia.
  pose proof (response_length t ms Hcnt Hsub). pose proof (batch_size_bound ms Hcnt Hsub).
  split_and!; [done|apply response_roundtrip; [done..|lia]|].
  change (body (to_frame (ModifierResponse t ms))) with (encode_modifier_response_body t ms).
  destruct Hsz; [by left|]. right. by transitivity (batch_size ms).
Qed.

(** ** What the database can come to hold *)

Definition record_typed (rec : PeerRecord) : Prop := spec_typed (record_to_spec rec).

Lemma spec_record_typed s a seen hs :
  spec_typed s -> addr_typed a -> record_typed (spec_record s a seen hs).
Proof.
  intros (Ha & Hv & Hn & _ & Hl & Hf) Had. unfold record_typed, record_to_spec, spec_record, spec_typed.
  cbn. split_and!; try done.
  - by rewrite !length_fmap.
  - rewrite <- list_fmap_compose. apply Forall_fmap. eapply Forall_impl; [exact Hf|]. by intros [].
Qed.

Lemma merge_typed rec prior : record_typed rec -> record_typed (merge_stamps rec prior).
Proof. done. Qed.

(** [hosts] are the hosts a handshake was completed with. *)
Definition router_inv {St} (hosts : gset IpAddr) (r : Router St) : Prop :=
  db_wf (peer_db r)
  /\ map_Forall (fun _ rec => record_typed rec) (entries (peer_db r))
  /\ (forall k rec, entries (peer_db r) !! k = Some rec -> is_observed rec = true -> ip k ∈ hosts).

Lemma record_in_inv {St} `{!PeerStorage St} values hosts rec (r : Router St) :
  router_inv hosts r -> record_typed rec -> 0 <= last_handshake_ms rec ->
  (is_observed rec = true -> ip (rec_address rec) ∈ hosts) ->
  router_inv hosts (record_in values rec r).
Proof.
  intros (Hwf & Ht & Ho) Hrec Hs Hh. unfold record_in, router_inv. cbn [peer_db with_db].
  split; [by apply record_wf|].
  destruct (decide ((rec_address rec ∈ blacklist r) \/ (rec_address rec ∈ self_addresses (peer_db r))))
    as [Hd|Hd]; [by rewrite record_ignored|].
  rewrite record_entries by tauto.
  destruct (entries (peer_db r) !! rec_address rec) as [prior|] eqn:Ep.
  - split; [by apply map_Forall_insert_2|].
    intros k q [[<- <-]|[_ Hk]]%lookup_insert_Some Hq; [|by apply (Ho k q)].
    destruct (is_observed rec) eqn:E; [by apply Hh|]. apply (Ho _ _ Ep).
    unfold is_observed in *. cbn in Hq. apply Z.ltb_ge in E. apply Z.ltb_lt in Hq.
    apply Z.ltb_lt. lia.
  - split.
    + apply map_Forall_insert_2; [done|]. intros k q Hk%made_room_sub. by apply (Ht k).
    + intros k q [[<- <-]|[_ Hk%made_room_sub]]%lookup_insert_Some Hq; [by apply Hh|by apply (Ho k q)].
Qed.

Lemma inv_mono {St} hosts hosts' (r : Router St) :
  hosts ⊆ hosts' -> router_inv hosts r -> router_inv hosts' r.
Proof. intros Hs (Hwf & Ht & Ho). split_and!; [done..|]. intros k q Hk Hq. by apply Hs, (Ho k q). Qed.

Lemma to_record_host s d remote a obs :
  (a, obs) ∈ to_record s d remote -> (obs = true -> ip a = ip remote)
  /\ (a = remote \/ address s = Some a).
Proof.
  unfold to_record. destruct d.
  - intros [[= -> ->]|Hin]%elem_of_cons; [by auto|]. destruct (address s) as [b|].
    + case_decide; [by apply not_elem_of_nil in Hin|].
      apply list_elem_of_singleton in Hin as [= -> ->]. split; [|by auto].
      by intros ?%bool_decide_eq_true.
    + by apply not_elem_of_nil in Hin.
  - destruct (address s) as [b|]; [|by intros ?%not_elem_of_nil].
    intros [= -> ->]%list_elem_of_singleton. split; [|by auto]. by intros ?%bool_decide_eq_true.
Qed.

Lemma connected_inv {St} `{!PeerStorage St} values hosts s d remote now (r : Router St) :
  router_inv hosts r -> spec_typed s -> addr_typed remote -> 0 <= now -> (ip remote ∈ hosts) ->
  router_inv hosts (record_peer_connected values s d remote now r).
Proof.
  intros Hr Hs Hrem Hnow Hin. unfold record_peer_connected.
  assert (Hall : Forall (fun p : SocketAddr * bool => (p.2 = true -> ip p.1 = ip remote)
                           /\ addr_typed p.1) (to_record s d remote)).
  { apply Forall_forall. intros [a obs] Ha%to_record_host. destruct Ha as [Hi [->|Hd]]; [done|].
    split; [done|]. destruct Hs as (_ & _ & _ & Hsa & _). by rewrite Hd in Hsa. }
  revert r Hr. induction Hall as [|[a obs] l [Hi Ha] _ IH]; intros r Hr; [done|]. cbn [foldl].
  apply IH. case_decide; [done|]. apply record_in_inv; [done|by apply spec_record_typed|..].
  - cbn. destruct obs; lia.
  - cbn in *. destruct obs; [by rewrite Hi|done].
Qed.

Lemma ingest_inv {St} `{!PeerStorage St} values hosts specs clock (r : Router St) :
  router_inv hosts r -> Forall spec_typed specs -> router_inv hosts (ingest values clock specs r).
Proof.
  intros Hr Hs. revert clock r Hr. induction Hs as [|s specs Hs _ IH]; intros clock r Hr; [done|].
  cbn [ingest]. destruct (address s) as [a|] eqn:Ea; [|by apply IH].
  destruct (rejects r a); [by apply IH|]. case_decide; [by apply IH|].
  apply IH, record_in_inv; [done| |done|done]. apply spec_record_typed; [done|].
  destruct Hs as (_ & _ & _ & Hsa & _). by rewrite Ea in Hsa.
Qed.

(** ** Reachable routers *)

Inductive input :=
| Register (peer_id : Z) (d : Direction) (m : ProxyMode) (addr : SocketAddr)
    (url agent_name : option (list Z)) (now : Z)
| Event (clock : nat -> Z) (event : ProtocolEvent).

Definition run_input {St} `{!PeerStorage St} values (i : input) (r : Router St) : Router St :=
  match i with
  | Register peer_id d m addr url agent_name now =>
      register_peer values peer_id d m addr url agent_name now r
  | Event clock event => (handle_event values clock event r).2
  end.

(** Inputs carry what the handshake and frame readers return. *)
Definition input_ok (i : input) : Prop :=
  match i with
  | Register _ _ _ addr _ agent_name now =>
      addr_typed addr /\ from_option string_typed True agent_name /\ 0 <= now
  | Event clock (PeerConnected _ spec _ addr) =>
      spec_typed spec /\ addr_typed addr /\ 0 <= clock 0%nat
  | Event _ (Message _ (Peers body)) => bytes_ok body
  | Event _ _ => True
  end.

(** The host a handshake was completed with, if the input is a completed handshake. *)
Definition host_of (i : input) : gset IpAddr :=
  match i with
  | Register _ _ _ addr _ _ _ => {[ip addr]}
  | Event _ (PeerConnected _ _ _ addr) => {[ip addr]}
  | Event _ _ => ∅
  end.

Inductive reaches {St} `{!PeerStorage St} : Router St -> gset IpAddr -> Router St -> gset IpAddr -> Prop :=
| reaches_refl r hosts : reaches r hosts r hosts
| reaches_step r0 h0 r hosts values i :
    reaches r0 h0 r hosts -> enumerates values -> input_ok i ->
    reaches r0 h0 (run_input values i r) (host_of i ∪ hosts).

Lemma input_inv {St} `{!PeerStorage St} values i hosts (r : Router St) :
  input_ok i -> router_inv hosts r -> router_inv (host_of i ∪ hosts) (run_input values i r).
Proof.
  intros Hi Hr. apply (inv_mono hosts (host_of i ∪ hosts)) in Hr as Hr'; [|set_solver].
  destruct i as [pid d m addr url ag now|clock [pid spec d addr|pid|pid msg]]; cbn in *.
  - destruct Hi as (Ha & Hs & Hn). unfold register_peer.
    set (r1 := with_peers r _).
    assert (Hr1 : router_inv ({[ip addr]} ∪ hosts) r1) by exact Hr'.
    case_match; [|done]. apply record_in_inv; [done| |done|set_solver].
    assert (Hnil : string_typed []) by (split; [constructor|split; [done|simpl; lia]]).
    refine (conj _ (conj _ (conj _ (conj _ (conj _ _))))); cbn; try done; [|lia].
    by destruct ag.
  - destruct Hi as (Hs & Ha & Hc). apply connected_inv; try done. set_solver.
  - exact Hr'.
  - unfold route_message. destruct (peers r !! pid) as [e|]; [|done].
    destruct msg as [|body|t ids|t ids|t ms|body|c body]; try done; cbn.
    + destruct (parse_peers_body body _) as [specs|] eqn:Ep; cbn; [|exact Hr'].
      apply ingest_inv; [done|]. unfold parse_peers_body in Ep.
      destruct (take_vlq_length body) as [[cnt rest]|] eqn:Ev; cbn in Ep; [|done].
      case_match; [done|]. eapply yields_peer_list; [|exact Ep].
      by apply (yields_take_vlq_length _ _ _ Hi Ev).
    + by destruct (_ && _).
Qed.

Lemma reaches_inv {St} `{!PeerStorage St} (r0 r : Router St) h0 hosts :
  reaches r0 h0 r hosts -> router_inv h0 r0 -> router_inv hosts r.
Proof.
  induction 1 as [|r0 h0 r hosts values i _ IH _ Hi]; intros H0; [done|].
  apply input_inv; auto.
Qed.

(** ** Answers *)

Lemma peers_to_send_le {St} (r : Router St) :
  0 <= max_peer_spec_objects r -> 0 <= peers_to_send r <= max_peer_spec_objects r.
Proof.
  intros H. unfold peers_to_send, PEERS_PER_GOSSIP_DIVISOR. case_match; [|lia].
  split; [apply Z.div_pos; lia|]. apply Z.div_le_upper_bound; lia.
Qed.

Lemma connected_set_spec {St} (r : Router St) pid e :
  peers r !! pid = Some e -> pe_addr e ∈ connected_set r.
Proof.
  intros H. unfold connected_set. apply elem_of_list_to_set, list_elem_of_fmap_2.
  apply list_elem_of_fmap. exists (pid, e). split; [done|]. by apply elem_of_map_to_list.
Qed.

(** An address the node may vouch for to the peer at [source_addr]. *)
Definition vouchable {St} (r : Router St) (source_addr a : SocketAddr) : Prop :=
  (a ∉ blacklist r) /\ a <> source_addr /\ (forall pid e, peers r !! pid = Some e -> pe_addr e <> a).

Lemma eligible_vouchable {St} (r : Router St) src rec :
  eligible_observed (blacklist r) ({[src]} ∪ connected_set r) rec ->
  is_observed rec = true /\ vouchable r src (rec_address rec).
Proof.
  intros (Ho & Hex & Hbl). split; [done|]. split; [done|].
  apply not_elem_of_union in Hex as [Hne Hc]. split.
  - intros Ha. apply Hne. rewrite Ha. by apply elem_of_singleton.
  - intros pid e He Ha. apply Hc. rewrite <- Ha. by eapply connected_set_spec.
Qed.

(** C17: In every router reachable from its start, a [GetPeers] request is answered to the
    peer that asked and to no one else, with a list that the peer decodes to what was
    sent. Every address in it was observed: a handshake was completed with its host. None
    of them is banned, connected, the asker's own or, with filtering on, bogus. The list
    is without repetitions, by decreasing time of the last handshake, and has at most as
    many entries as the limit allows; and an entry that could be in it and is not is left
    out because at least as many entries as the limit allows have handshakes that are
    at least as recent. *)
Theorem get_peers_vouched {St} `{!PeerStorage St} (r0 r : Router St) h0 hosts values clock source e :
  reaches r0 h0 r hosts -> router_inv h0 r0 -> enumerates values ->
  peers r !! source = Some e -> 0 <= max_peer_spec_objects r <= MAX_VLQ_LENGTH ->
  exists recs,
    handle_event values clock (Message source GetPeers) r
      = ([Send source (Peers (build_peers_body (record_to_spec <$> recs)))], r)
    /\ parse_peers_body (build_peers_body (record_to_spec <$> recs)) (max_peer_spec_objects r)
         = Ok (record_to_spec <$> recs)
    /\ Z.of_nat (length recs) <= peers_to_send r
    /\ Forall (fun rec =>
          entries (peer_db r) !! rec_address rec = Some rec
          /\ is_observed rec = true /\ (ip (rec_address rec) ∈ hosts)
          /\ vouchable r (pe_addr e) (rec_address rec) /\ rejects r (rec_address rec) = false) recs
    /\ StronglySorted later_handshake recs /\ NoDup (rec_address <$> recs)
    /\ (forall k q, entries (peer_db r) !! k = Some q -> (q ∉ recs) ->
          eligible_observed (blacklist r) ({[pe_addr e]} ∪ connected_set r) q ->
          rejects r k = false ->
          Forall (fun rec => last_handshake_ms q <= last_handshake_ms rec) recs /\
          exists ahead, recs ⊆ ahead /\ NoDup (rec_address <$> ahead) /\ Z.of_nat (length ahead) = peers_to_send r /\
            Forall (fun rec => eligible_observed (blacklist r) ({[pe_addr e]} ∪ connected_set r) rec /\
              last_handshake_ms q <= last_handshake_ms rec /\ entries (peer_db r) !! rec_address rec = Some rec) ahead).
Proof.
  intros Hreach H0 Hv He Hmax. destruct (reaches_inv _ _ _ _ Hreach H0) as (Hwf & Ht & Ho).
  set (ex := {[pe_addr e]} ∪ connected_set r).
  set (obs := observed values (blacklist r) (Z.to_nat (peers_to_send r)) ex (peer_db r)).
  set (recs := filter (fun rec => rejects r (rec_address rec) = false) obs).
  pose proof (peers_to_send_le r ltac:(lia)) as Hps.
  assert (Hlen : Z.of_nat (length recs) <= peers_to_send r).
  { pose proof (length_filter (fun rec => rejects r (rec_address rec) = false) obs).
    subst obs. rewrite observed_length in H by done. subst recs. lia. }
  assert (Hall : forall rec, rec ∈ recs -> rejects r (rec_address rec) = false
            /\ eligible_observed (blacklist r) ex rec
            /\ entries (peer_db r) !! rec_address rec = Some rec).
  { intros rec [Hrej Hin]%list_elem_of_filter.
    apply observed_elem in Hin as [Hel [k Hk]]; [|done]. split_and!; [done|apply Hel..|].
    by destruct (Hwf _ _ Hk) as (-> & _). }
  assert (Hnd : NoDup (rec_address <$> obs)).
  { apply observed_nodup; [done|]. intros k rec Hk. by destruct (Hwf _ _ Hk) as (-> & _). }
  exists recs. split_and!; [cbn; unfold route_message; by rewrite He| |done| | | |].
  - rewrite <- (app_nil_r (build_peers_body _)). apply parse_build_peers.
    + apply Forall_fmap, Forall_forall. intros rec Hin. destruct (Hall rec Hin) as (_ & _ & Hk).
      by apply spec_typed_ok, (Ht _ _ Hk).
    + rewrite length_fmap. lia.
    + rewrite length_fmap. lia.
  - apply Forall_forall. intros rec Hin. destruct (Hall rec Hin) as (Hrej & Hel & Hk).
    destruct (eligible_vouchable r _ _ Hel) as [Hob Hvo].
    split_and!; try done; [by apply (Ho _ _ Hk)|apply Hvo..].
  - apply sorted_filter, observed_sorted.
  - eapply sublist_NoDup; [exact Hnd|]. apply fmap_sublist, sublist_filter.
  - intros k q Hk Hq Hel Hrej. assert (q ∉ obs) as Hno.
    { intros Hq'. apply Hq, list_elem_of_filter. split; [|done]. by destruct (Hwf _ _ Hk) as (-> & _). }
    assert (Hge : forall rec, rec ∈ obs -> last_handshake_ms q <= last_handshake_ms rec).
    { intros rec Hin. by eapply (observed_best values Hv _ _ _ _ rec k q Hk Hel). }
    assert (Hsub : recs ⊆ obs) by (by intros rec [_ Hin]%list_elem_of_filter).
    split; [apply Forall_forall; auto|]. exists obs. split_and!; [done|done| |].
    + subst obs. rewrite (observed_full values Hv _ _ _ _ k q Hk Hel Hno). lia.
    + apply Forall_forall. intros rec Hin. pose proof Hin as [Hel' [k' Hk']]%observed_elem; [|done].
      split_and!; [apply Hel'..|by apply Hge|]. by destruct (Hwf _ _ Hk') as (-> & _).
Qed.

(** A peer list that cannot be parsed gets its sender banned, whatever is in it, and
    changes nothing else: no entry of the list is recorded. A peer that is not
    registered is ignored. *)
Theorem malformed_peers_banned {St} `{!PeerStorage St} values clock (r : Router St) source body err :
  parse_peers_body body (max_peer_spec_objects r) = Err err ->
  handle_event values clock (Message source (Peers body)) r =
    match peers r !! source with
    | Some e => ([], ban r (pe_addr e))
    | None => ([], r)
    end
  /\ forall e (a : SocketAddr), peers r !! source = Some e ->
       a ∈ blacklist (handle_event values clock (Message source (Peers body)) r).2
         <-> a = pe_addr e \/ a ∈ blacklist r.
Proof.
  intros Hp. cbn. unfold route_message. rewrite Hp. split; [by destruct (peers r !! source)|].
  intros e a ->. cbn. set_solver.
Qed.

End Router.
