(* ===== verification/Node.v ===== *)
(** * The P2P node: peer queues, the event loop and connection limits

    Models p2p/src/node.rs where it holds state: the bounded write queue of a peer with
    its abort latch and its writer, the admission of inbound connections, the event loop
    that feeds the router and acts on its answers, what the reader of a peer makes of the
    bytes it receives, and the decisions of the outbound manager. Tasks are steps, taken in
    any order where the source runs them concurrently; sockets, timeouts and the start-up
    are left out. *)

From S2P Require Import Prelude Bytes Vlq Frame Messages Handshake PeerDb AddressSanity Router.
Import Vlq Frame Messages Handshake PeerDb AddressSanity Router.

Module Node.

Definition MAX_QUEUED_FRAMES : Z := 64.
Definition MAX_QUEUED_BYTES : Z := MAX_BODY_SIZE + 13.

Inductive DisconnectReason :=
| ConnectionClosed
| WriteFailed
| OutboundQueueFull
| Disconnected.

(** [counters::frame_wire_bytes]. *)
Definition frame_wire_bytes (f : frame) : Z :=
  match body f with
  | [] => 9
  | _ => 13 + Z.of_nat (length (body f))
  end.

(** A peer's queue with what [PeerLink] shares. [taken] is the frame its writer has
    received and not yet accounted for, [writing] the one it is writing; [writer_gone]
    is a closed channel. [written] records the frames that reached the socket, [torn] the
    frame whose write did not end well, with the number of its bytes that did. *)
Record PeerSender := mk_sender {
  queue : list frame;
  queued_bytes : Z;
  reason : option DisconnectReason;
  taken : option frame;
  writing : option frame;
  writer_gone : bool;
  written : list frame;
  torn : option (frame * nat)
}.

Definition sender_new : PeerSender := mk_sender [] 0 None None None false [] None.

Inductive SendError := UnknownPeer | ChannelClosed | QueueFull.

(** [PeerLink::abort]: the first reason stays. *)
Definition abort (d : DisconnectReason) (s : PeerSender) : PeerSender :=
  mk_sender (queue s) (queued_bytes s)
    (match reason s with Some d' => Some d' | None => Some d end)
    (taken s) (writing s) (writer_gone s) (written s) (torn s).

Definition count_bytes (n : Z) (s : PeerSender) : PeerSender :=
  mk_sender (queue s) (queued_bytes s + n) (reason s) (taken s) (writing s)
    (writer_gone s) (written s) (torn s).

Definition push (f : frame) (s : PeerSender) : PeerSender :=
  mk_sender (queue s ++ [f]) (queued_bytes s) (reason s) (taken s) (writing s)
    (writer_gone s) (written s) (torn s).

Definition enqueue (f : frame) (s : PeerSender) : result SendError unit * PeerSender :=
  match reason s with
  | Some _ => (Err ChannelClosed, s)
  | None =>
      let frame_bytes := frame_wire_bytes f in
      let before := queued_bytes s in
      let s := count_bytes frame_bytes s in
      if MAX_QUEUED_BYTES <? before + frame_bytes then (Err QueueFull, abort OutboundQueueFull s)
      else if writer_gone s then (Err ChannelClosed, abort WriteFailed s)
      else if MAX_QUEUED_FRAMES <=? Z.of_nat (length (queue s)) then
        (Err QueueFull, abort OutboundQueueFull s)
      else (Ok tt, push f s)
  end.

(** The writer task: receive a frame, release its bytes, write it. A failed write
    aborts the connection and ends the task. *)
Definition writer_recv (s : PeerSender) : option PeerSender :=
  match taken s, writing s, queue s with
  | None, None, f :: q =>
      if writer_gone s then None
      else Some (mk_sender q (queued_bytes s) (reason s) (Some f) None false (written s) (torn s))
  | _, _, _ => None
  end.

Definition writer_release (s : PeerSender) : option PeerSender :=
  match taken s with
  | None => None
  | Some f =>
      Some (mk_sender (queue s) (queued_bytes s - frame_wire_bytes f) (reason s) None (Some f)
              (writer_gone s) (written s) (torn s))
  end.

(** How [write_frame] ends: all of it is written, or an error after some of its bytes. *)
Inductive write_end := Wrote | WriteError (bytes : nat).

Definition writer_write (e : write_end) (s : PeerSender) : option PeerSender :=
  match writing s with
  | None => None
  | Some f =>
      match e with
      | Wrote =>
          Some (mk_sender (queue s) (queued_bytes s) (reason s) (taken s) None (writer_gone s)
                  (written s ++ [f]) (torn s))
      | WriteError n =>
          let s := abort WriteFailed s in
          Some (mk_sender (queue s) (queued_bytes s) (reason s) (taken s) None true (written s) (Some (f, n)))
      end
  end.

(** The teardown of an aborted connection cancels the writer, which waits for a frame or
    is in the middle of a write. *)
Definition writer_cancel (n : nat) (s : PeerSender) : option PeerSender :=
  match reason s, taken s with
  | Some _, None =>
      if writer_gone s then None
      else Some (mk_sender (queue s) (queued_bytes s) (reason s) None None true (written s)
                   ((fun f => (f, n)) <$> writing s))
  | _, _ => None
  end.

(** ** Admission of inbound connections *)

Definition reserve (admitted max_inbound : nat) : option nat :=
  if (admitted <? max_inbound)%nat then Some (S admitted) else None.

Definition release (admitted : nat) : nat := (admitted - 1)%nat.

(** ** The event loop *)

(** A bounded channel; [try_send] drops what does not fit. *)
Definition try_send {A} (capacity : nat) (x : A) (channel : list A) : list A :=
  if (length channel <? capacity)%nat then channel ++ [x] else channel.

Record NodeState (St : Type) := mk_node {
  router : Router St;
  senders : gmap Z PeerSender;
  subscriber : option (list ProtocolEvent);
  modifier_sink : list (Z * modifier_id * list Z * Z);
  sink_capacity : nat;
  last_incoming_ms : Z
}.
Arguments mk_node {_}. Arguments router {_}. Arguments senders {_}. Arguments subscriber {_}.
Arguments modifier_sink {_}. Arguments sink_capacity {_}. Arguments last_incoming_ms {_}.

Definition is_modifier_response (event : ProtocolEvent) : bool :=
  match event with
  | Message _ (ModifierResponse _ _) => true
  | _ => false
  end.

Definition send_frame (target : Z) (f : frame) (ss : gmap Z PeerSender) : gmap Z PeerSender :=
  match ss !! target with
  | Some s => <[target := (enqueue f s).2]> ss
  | None => ss
  end.

Definition sends_of (actions : list Action) : list (Z * frame) :=
  omap (fun a => match a with Send t m => Some (t, to_frame m) | Validate _ _ _ _ => None end) actions.

Definition deliveries_of (actions : list Action) : list (Z * modifier_id * list Z * Z) :=
  omap (fun a => match a with Validate t i d p => Some (t, i, d, p) | Send _ _ => None end) actions.

Definition event_step {St} `{!PeerStorage St} values (clock : nat -> Z) (now : Z)
    (event : ProtocolEvent) (n : NodeState St) : NodeState St :=
  let sub :=
    match subscriber n with
    | Some ch => Some (if is_modifier_response event then ch else try_send 256 event ch)
    | None => None
    end in
  let (actions, r) := handle_event values clock event (router n) in
  mk_node r
    (foldl (fun ss '(t, f) => send_frame t f ss) (senders n) (sends_of actions))
    sub
    (foldl (fun ch d => try_send (sink_capacity n) d ch) (modifier_sink n) (deliveries_of actions))
    (sink_capacity n) now.

(** ** Sending and disconnecting *)

Definition send_to {St} (peer : Z) (m : protocol_message) (n : NodeState St) :
    result SendError unit * NodeState St :=
  match senders n !! peer with
  | None => (Err UnknownPeer, n)
  | Some s =>
      let (res, s') := enqueue (to_frame m) s in
      (res, mk_node (router n) (<[peer := s']> (senders n)) (subscriber n) (modifier_sink n)
              (sink_capacity n) (last_incoming_ms n))
  end.

Definition broadcast {St} (m : protocol_message) (n : NodeState St) : NodeState St :=
  mk_node (router n) ((fun s => (enqueue (to_frame m) s).2) <$> senders n) (subscriber n)
    (modifier_sink n) (sink_capacity n) (last_incoming_ms n).

Definition disconnect_peer {St} (peer : Z) (n : NodeState St) : NodeState St :=
  mk_node (router n) (alter (abort Disconnected) peer (senders n)) (subscriber n)
    (modifier_sink n) (sink_capacity n) (last_incoming_ms n).

(** ** The reader of a peer *)

Section Reader.
Context (blake2b256 : list Z -> list Z).

(** The reader loop of [run_peer] on the bytes still to come: the events it sends. A
    message that does not parse is logged and skipped; the first failed read ends the
    connection. Each frame takes at least nine bytes, so a round per byte is enough. *)
Fixpoint reader_loop (rounds : nat) (magic : list Z) (peer_id peer_addr : Z) (tap : bool) (c : conn) :
    list ProtocolEvent * conn :=
  match rounds with
  | O => ([], c)
  | S rounds' =>
      match read_frame blake2b256 magic peer_addr tap c with
      | (Err _, c') => ([PeerDisconnected peer_id], c')
      | (Ok f, c') =>
          let (events, c'') := reader_loop rounds' magic peer_id peer_addr tap c' in
          match from_frame f with
          | Ok m => (Message peer_id m :: events, c'')
          | Err _ => (events, c'')
          end
      end
  end.

Definition run_reader (magic : list Z) (peer_id peer_addr : Z) (tap : bool) (c : conn) :
    list ProtocolEvent * conn :=
  reader_loop (S (length (incoming c))) magic peer_id peer_addr tap c.
End Reader.

(** ** The outbound manager *)

Definition OUTBOUND_FILL_INTERVAL : duration := from_secs 30.
Definition OUTBOUND_REDIAL_COOLDOWN : duration := from_secs 60.
Definition FLOOR_BACKOFF_INITIAL : duration := from_secs 5.
Definition FLOOR_BACKOFF_MAX : duration := from_secs 300.

Record OutboundManager := mk_outbound {
  floor_backoff : duration;
  cooldown : gmap SocketAddr instant
}.

Definition prune_cooldown (now : instant) (cd : gmap SocketAddr instant) : gmap SocketAddr instant :=
  filter (fun p => now < p.2) cd.

Definition pick_fill_candidate {St} (values : gmap SocketAddr PeerRecord -> list PeerRecord)
    (draw : nat) (r : Router St) (cd : gmap SocketAddr instant) : option SocketAddr :=
  let connected := pe_addr <$> (map_to_list (peers r)).*2 in
  let exclude := list_to_set connected ∪ dom cd in
  rec_address <$>
    dial_candidate values (blacklist r) exclude connected
      (fun rec => negb (rejects r (rec_address rec))) draw (peer_db r).

(** The floor phase: seeds are dialed in turn until enough peers are connected.
    [counts] is the number of outbound peers when each seed's turn comes. *)
Fixpoint floor_dials (min_peers : nat) (now : instant) (seeds : list SocketAddr) (counts : list nat)
    (cd : gmap SocketAddr instant) : list SocketAddr * gmap SocketAddr instant :=
  match seeds, counts with
  | addr :: seeds', current :: counts' =>
      if (min_peers <=? current)%nat then ([], cd)
      else
        let (dials, cd') :=
          floor_dials min_peers now seeds' counts' (<[addr := now + OUTBOUND_REDIAL_COOLDOWN]> cd) in
        (addr :: dials, cd')
  | _, _ => ([], cd)
  end.

(** One round of [outbound_manager]: the addresses dialed and the delay before the
    next round. *)
Definition outbound_round {St} (values : gmap SocketAddr PeerRecord -> list PeerRecord) (draw : nat)
    (seeds : list SocketAddr) (min_peers max_peers : nat) (now : instant) (counts : list nat)
    (r : Router St) (o : OutboundManager) : list SocketAddr * duration * OutboundManager :=
  let cd := prune_cooldown now (cooldown o) in
  let current_outbound := length (outbound_peers r) in
  if (current_outbound <? min_peers)%nat then
    let (dials, cd) := floor_dials min_peers now seeds counts cd in
    (dials, floor_backoff o,
     mk_outbound (Z.min (floor_backoff o * 2) FLOOR_BACKOFF_MAX) cd)
  else
    let dial :=
      if (current_outbound <? max_peers)%nat then pick_fill_candidate values draw r cd else None in
    match dial with
    | Some a =>
        ([a], OUTBOUND_FILL_INTERVAL,
         mk_outbound FLOOR_BACKOFF_INITIAL (<[a := now + OUTBOUND_REDIAL_COOLDOWN]> cd))
    | None => ([], OUTBOUND_FILL_INTERVAL, mk_outbound FLOOR_BACKOFF_INITIAL cd)
    end.

(** ** The queue of a peer *)

(** Everything that happens to a peer's queue, in any order. [accepted] collects the
    frames whose [enqueue] succeeded. *)
Inductive queue_step : PeerSender * list frame -> PeerSender * list frame -> Prop :=
| step_enqueue s acc f s' res :
    enqueue f s = (res, s') ->
    queue_step (s, acc) (s', match res with Ok _ => acc ++ [f] | Err _ => acc end)
| step_recv s acc s' : writer_recv s = Some s' -> queue_step (s, acc) (s', acc)
| step_release s acc s' : writer_release s = Some s' -> queue_step (s, acc) (s', acc)
| step_write s acc e s' : writer_write e s = Some s' -> queue_step (s, acc) (s', acc)
| step_cancel s acc n s' : writer_cancel n s = Some s' -> queue_step (s, acc) (s', acc)
| step_abort s acc d : queue_step (s, acc) (abort d s, acc).

Definition bytes_of (l : list frame) : Z := foldr (fun f n => frame_wire_bytes f + n) 0 l.

Definition in_hand (s : PeerSender) : list frame :=
  option_list (writing s) ++ option_list (taken s) ++ queue s.

Record queue_inv (p : PeerSender * list frame) : Prop := {
  inv_frames : Z.of_nat (length (queue p.1)) <= MAX_QUEUED_FRAMES;
  inv_bytes : bytes_of (option_list (taken p.1) ++ queue p.1) <= MAX_QUEUED_BYTES;
  inv_count : reason p.1 = None ->
    queued_bytes p.1 = bytes_of (option_list (taken p.1) ++ queue p.1);
  inv_alone : taken p.1 = None \/ writing p.1 = None;
  inv_gone : writer_gone p.1 = true -> reason p.1 <> None /\ taken p.1 = None /\ writing p.1 = None;
  inv_order : writer_gone p.1 = false -> p.2 = written p.1 ++ in_hand p.1;
  inv_torn : writer_gone p.1 = false -> torn p.1 = None;
  inv_prefix : exists lost, p.2 = written p.1 ++ option_list (fst <$> torn p.1) ++ lost
}.

Lemma frame_wire_bytes_pos f : 0 < frame_wire_bytes f.
Proof. unfold frame_wire_bytes. destruct (body f); lia. Qed.

Lemma bytes_of_app l k : bytes_of (l ++ k) = bytes_of l + bytes_of k.
Proof. unfold bytes_of. induction l as [|f l IH]; cbn; [done|]. rewrite IH. lia. Qed.

Lemma bytes_of_nonneg l : 0 <= bytes_of l.
Proof.
  induction l as [|f l IH]; cbn; [done|]. pose proof (frame_wire_bytes_pos f).
  fold (bytes_of l). lia.
Qed.

Lemma abort_inv d s acc : queue_inv (s, acc) -> queue_inv (abort d s, acc).
Proof.
  intros [H1 H2 H3 H4 H5 H6 H7 H8]. constructor; cbn in *; try done.
  - by destruct (reason s).
  - intros Hg. destruct (H5 Hg) as (Hr & ? & ?). by destruct (reason s).
Qed.

Lemma enqueue_inv f s acc :
  queue_inv (s, acc) ->
  let (res, s') := enqueue f s in
  queue_inv (s', match res with Ok _ => acc ++ [f] | Err _ => acc end).
Proof.
  intros Hinv. unfold enqueue. destruct (reason s) eqn:Er; [done|].
  assert (Hbad : forall d, queue_inv (abort d (count_bytes (frame_wire_bytes f) s), acc)).
  { intros d. destruct Hinv as [H1 H2 H3 H4 H5 H6 H7 H8]. constructor; cbn in *; try done.
    - by rewrite Er.
    - intros Hg. by destruct (H5 Hg) as [? _]. }
  destruct (MAX_QUEUED_BYTES <? _) eqn:Eb; [apply Hbad|]. cbn [writer_gone count_bytes queue].
  destruct (writer_gone s) eqn:Eg; [apply Hbad|].
  destruct (MAX_QUEUED_FRAMES <=? _) eqn:Ef; [apply Hbad|].
  apply Z.ltb_ge in Eb. apply Z.leb_gt in Ef.
  destruct Hinv as [H1 H2 H3 H4 H5 H6 H7 H8]. cbn in *. specialize (H3 Er). specialize (H6 Eg).
  constructor; cbn in *.
  - rewrite length_app. cbn. lia.
  - rewrite app_assoc, bytes_of_app. cbn. lia.
  - intros _. rewrite app_assoc, bytes_of_app. cbn. lia.
  - done.
  - by rewrite Eg.
  - intros _. rewrite H6. unfold in_hand. cbn. by rewrite <- !app_assoc.
  - done.
  - exists (in_hand s ++ [f]). rewrite H6, (H7 Eg). cbn. by rewrite app_assoc.
Qed.

Lemma queue_step_inv p p' : queue_step p p' -> queue_inv p -> queue_inv p'.
Proof.
  intros Hs Hinv. destruct Hs as [s acc f s' res E|s acc s' E|s acc s' E|s acc e s' E|s acc n s' E|s acc d].
  - pose proof (enqueue_inv f s acc Hinv) as H. by rewrite E in H.
  - unfold writer_recv in E.
    destruct (taken s) eqn:Et; [done|]. destruct (writing s) eqn:Ew; [done|].
    destruct (queue s) as [|f q] eqn:Eq; [done|]. destruct (writer_gone s) eqn:Eg; [done|].
    injection E as <-. destruct Hinv as [H1 H2 H3 H4 H5 H6 H7 H8]. cbn in *.
    constructor; cbn in *; rewrite ?Et, ?Ew, ?Eq in *; cbn in *; try done; [lia|by right| |by intros _; apply (H7 Eg)].
    intros _. rewrite (H6 Eg). unfold in_hand. by rewrite Et, Ew, Eq.
  - unfold writer_release in E. destruct (taken s) as [f|] eqn:Et; [|done]. injection E as <-.
    destruct Hinv as [H1 H2 H3 H4 H5 H6 H7 H8]. cbn in *. rewrite Et in *.
    destruct H4 as [|Hw]; [done|]. pose proof (frame_wire_bytes_pos f).
    constructor; cbn in *; try done; [fold (bytes_of (queue s)) in *; lia| |by left|..].
    + intros Hr. specialize (H3 Hr). fold (bytes_of (queue s)) in *. lia.
    + intros Hg. by destruct (H5 Hg) as (_ & ? & _).
    + intros Hg. rewrite (H6 Hg). unfold in_hand. by rewrite Et, Hw.
  - unfold writer_write in E. destruct (writing s) as [f|] eqn:Ew; [|done].
    destruct Hinv as [H1 H2 H3 H4 H5 H6 H7 H8]. cbn in *. destruct H4 as [Ht|]; [|congruence].
    assert (Hg : writer_gone s = false).
    { destruct (writer_gone s); [|done]. destruct (H5 eq_refl) as (_ & _ & Hn). congruence. }
    specialize (H6 Hg). unfold in_hand in H6. rewrite Ew, Ht in H6. cbn in H6.
    destruct e as [|n]; injection E as <-; constructor; cbn in *; rewrite ?Ht in *; try done; try by right.
    + by rewrite Hg.
    + intros _. unfold in_hand. cbn. by rewrite H6, <- app_assoc.
    + exists (queue s). rewrite H6, (H7 Hg). cbn. by rewrite <- app_assoc.
    + by destruct (reason s).
    + intros _. by destruct (reason s).
    + by exists (queue s).
  - unfold writer_cancel in E. destruct (reason s) eqn:Er; [|done]. destruct (taken s) eqn:Et; [done|].
    destruct (writer_gone s) eqn:Eg; [done|]. injection E as <-. destruct Hinv as [H1 H2 H3 H4 H5 H6 H7 H8]. cbn in *.
    specialize (H6 Eg). unfold in_hand in H6. rewrite Et in H6. rewrite Et in *.
    constructor; cbn in *; try done; [by left|]. exists (queue s). rewrite H6. by destruct (writing s).
  - by apply abort_inv.
Qed.

Lemma queue_reachable_inv p : rtc queue_step (sender_new, []) p -> queue_inv p.
Proof.
  intros H. remember (sender_new, []) as p0 eqn:E. assert (queue_inv p0) as H0.
  { subst. constructor; cbn; try done; [by left|by exists []]. }
  clear E. induction H as [|p q r Hs _ IH]; [done|]. by apply IH, (queue_step_inv p).
Qed.

(** Steps of the writer alone, with every write succeeding. *)
Inductive writer_step : PeerSender -> PeerSender -> Prop :=
| writer_does_recv s s' : writer_recv s = Some s' -> writer_step s s'
| writer_does_release s s' : writer_release s = Some s' -> writer_step s s'
| writer_does_write s s' : writer_write Wrote s = Some s' -> writer_step s s'.

Lemma drain_in_hand s :
  writer_gone s = false -> taken s = None \/ writing s = None ->
  exists s', rtc writer_step s s' /\ written s' = written s ++ in_hand s /\ in_hand s' = []
    /\ reason s' = reason s /\ torn s' = torn s.
Proof.
  intros Hg. remember (queue s) as q eqn:Eq. revert s Hg Eq.
  assert (Hq : forall q s, queue s = q -> writer_gone s = false -> taken s = None -> writing s = None ->
    exists s', rtc writer_step s s' /\ written s' = written s ++ q /\ in_hand s' = []
      /\ reason s' = reason s /\ torn s' = torn s).
  { clear q. induction q as [|f q IH]; intros s Eq Hg Ht Hw.
    { exists s. rewrite app_nil_r. unfold in_hand. by rewrite Ht, Hw, Eq. }
    destruct (IH (mk_sender q (queued_bytes s - frame_wire_bytes f) (reason s) None None false
                    (written s ++ [f]) (torn s))) as (s' & Hs & Hwr & ? & ? & ?); [done..|].
    exists s'. split; [|by rewrite Hwr; cbn; rewrite <- app_assoc].
    eapply rtc_l; [apply writer_does_recv; unfold writer_recv; by rewrite Ht, Hw, Eq, Hg|].
    eapply rtc_l; [by apply writer_does_release|].
    eapply rtc_l; [by apply writer_does_write|]. done. }
  assert (Hw' : forall s f, writing s = Some f -> taken s = None -> writer_gone s = false ->
    exists s', rtc writer_step s s' /\ written s' = written s ++ f :: queue s /\ in_hand s' = []
      /\ reason s' = reason s /\ torn s' = torn s).
  { intros s f Hw Ht Hg. destruct (Hq (queue s) (mk_sender (queue s) (queued_bytes s) (reason s)
      None None false (written s ++ [f]) (torn s))) as (s' & Hs & Hwr & ? & ? & ?); [done..|].
    exists s'. split; [|by rewrite Hwr; cbn; rewrite <- app_assoc].
    eapply rtc_l; [apply writer_does_write; unfold writer_write; by rewrite Hw, Ht, Hg|]. done. }
  intros s Hg _ Ha. unfold in_hand. destruct (taken s) as [f|] eqn:Et.
  - destruct Ha as [|Hw]; [done|]. rewrite Hw. cbn.
    destruct (Hw' (mk_sender (queue s) (queued_bytes s - frame_wire_bytes f) (reason s) None (Some f)
                     false (written s) (torn s)) f) as (s' & Hs & Hwr & ? & ? & ?); [done..|].
    exists s'. split; [|done].
    eapply rtc_l; [apply writer_does_release; unfold writer_release; by rewrite Et, Hg|]. done.
  - destruct (writing s) as [f|] eqn:Ew; cbn; [by apply Hw'|by apply Hq].
Qed.

(** C18: The write queue of a peer, under every interleaving of senders, writer and aborts.
    It never holds more than 64 frames or one maximum-size frame's worth of bytes. What
    reaches the socket is a prefix of what was accepted, in order; until the connection
    is aborted nothing is dropped, and a writer whose writes succeed gets all of it out.
    A frame is refused only when it would break a bound, the writer is gone or the
    connection is already aborted, and a refusal always aborts the connection; a legal
    frame is never refused by an idle queue. *)
Theorem peer_queue_correct s acc :
  rtc queue_step (sender_new, []) (s, acc) ->
  Z.of_nat (length (queue s)) <= MAX_QUEUED_FRAMES
  /\ bytes_of (queue s) <= MAX_QUEUED_BYTES
  /\ (exists lost, acc = written s ++ lost)
  /\ (reason s = None -> acc = written s ++ in_hand s
        /\ exists s', rtc writer_step s s' /\ written s' = acc /\ reason s' = None)
  /\ (forall f, match enqueue f s with
        | (Ok _, _) => reason s = None
        | (Err _, s') => reason s' <> None /\ (reason s = None ->
            MAX_QUEUED_BYTES < queued_bytes s + frame_wire_bytes f \/ writer_gone s = true
            \/ MAX_QUEUED_FRAMES <= Z.of_nat (length (queue s)))
        end)
  /\ (forall f, reason s = None -> in_hand s = [] -> Z.of_nat (length (body f)) <= MAX_BODY_SIZE ->
        (enqueue f s).1 = Ok tt).
Proof.
  intros [H1 H2 H3 H4 H5 H6 H7 H8]%queue_reachable_inv. cbn in *.
  assert (Hb : bytes_of (queue s) <= MAX_QUEUED_BYTES).
  { rewrite bytes_of_app in H2. pose proof (bytes_of_nonneg (option_list (taken s))). lia. }
  assert (Hng : reason s = None -> writer_gone s = false).
  { intros Hr. destruct (writer_gone s); [|done]. by destruct (H5 eq_refl) as [? _]. }
  split_and!; [done|done|destruct H8 as [lost E]; eauto| | |].
  - intros Hr. specialize (H6 (Hng Hr)). split; [done|].
    destruct (drain_in_hand s (Hng Hr) H4) as (s' & ? & Hw & _ & Hr' & _). exists s'.
    by rewrite Hw, Hr', H6.
  - intros f. unfold enqueue. destruct (reason s) eqn:Er; [by rewrite Er|].
    destruct (MAX_QUEUED_BYTES <? _) eqn:Eb; cbn; rewrite ?Er.
    { split; [done|]. intros _. left. by apply Z.ltb_lt. }
    destruct (writer_gone s); cbn; rewrite ?Er; [by auto|].
    destruct (MAX_QUEUED_FRAMES <=? _) eqn:Ef; cbn; rewrite ?Er; [|done].
    split; [done|]. intros _. right. right. by apply Z.leb_le.
  - intros f Hr Hh Hl. unfold in_hand in Hh. apply app_nil in Hh as [_ [Ht Hq]%app_nil].
    unfold enqueue. rewrite Hr, (H3 Hr), Ht, Hq. cbn [app bytes_of foldr count_bytes writer_gone queue].
    rewrite (proj2 (Z.ltb_ge _ _)), (Hng Hr), Hq; [done|].
    unfold MAX_QUEUED_BYTES, frame_wire_bytes. destruct (body f); cbn in *; lia.
Qed.

(** ** From a queue to the peer's event loop *)

Section Wire.
Context (blake2b256 : list Z -> list Z) (Hdigest : forall l, length (blake2b256 l) = 32%nat).
Context (magic : list Z) (Hmagic : length magic = 4%nat).

Definition wire (fs : list frame) : list Z := concat (encode blake2b256 magic <$> fs).

(** The bytes on the socket. *)
Definition socket (s : PeerSender) : list Z :=
  wire (written s) ++ match torn s with Some (f, n) => take n (encode blake2b256 magic f) | None => [] end.

Definition sendable (m : protocol_message) : Prop :=
  message_ok m /\ Z.of_nat (length (body (to_frame m))) <= MAX_BODY_SIZE.

Lemma wire_length fs : (length fs <= length (wire fs))%nat.
Proof.
  induction fs as [|f fs IH]; [done|]. unfold wire in *. cbn [fmap list_fmap concat length].
  rewrite length_app, encode_header, length_app, header_length by done. lia.
Qed.

(** What is read of the frames of some messages and the first bytes of another. *)
Lemma reader_loop_wire peer_id addr tap ms m n :
  Forall sendable ms -> sendable m -> (n < length (encode blake2b256 magic (to_frame m)))%nat ->
  forall rounds c, (length ms < rounds)%nat ->
  incoming c = wire (to_frame <$> ms) ++ take n (encode blake2b256 magic (to_frame m)) ->
  let (events, c') := reader_loop blake2b256 rounds magic peer_id addr tap c in
  events = (Message peer_id <$> ms) ++ [PeerDisconnected peer_id] /\ banned c' = banned c.
Proof.
  intros Hall [_ Hmb] Hn. induction Hall as [|m' ms [Hm Hb] _ IH]; intros rounds c Hr Hi;
    (destruct rounds as [|rounds]; [cbn in Hr; lia|]); cbn [reader_loop].
  - destruct (read_frame_torn blake2b256 Hdigest magic (to_frame m) n addr tap c Hmagic Hmb Hn Hi) as (c' & -> & Hc). done.
  - unfold wire in Hi. cbn [fmap list_fmap concat] in Hi. rewrite <- app_assoc in Hi.
    rewrite (read_frame_encode blake2b256 Hdigest magic (to_frame m') _ addr tap c Hmagic Hb Hi).
    set (c1 := capture _ _ _).
    assert (Hc1 : incoming c1 = wire (to_frame <$> ms) ++ take n (encode blake2b256 magic (to_frame m))
      /\ banned c1 = banned c) by (by destruct tap).
    specialize (IH rounds c1 ltac:(cbn in Hr; lia) (proj1 Hc1)).
    destruct (reader_loop _ _ _ _ _ _ c1) as [events c'']. rewrite message_roundtrip by done.
    destruct IH as [-> ->]. by destruct Hc1.
Qed.

Lemma sendable_get_peers : sendable GetPeers.
Proof. split; [done|]. cbn. unfold MAX_BODY_SIZE. lia. Qed.

Lemma run_reader_torn peer_id addr tap ms m n c :
  Forall sendable ms -> sendable m -> (n < length (encode blake2b256 magic (to_frame m)))%nat ->
  incoming c = wire (to_frame <$> ms) ++ take n (encode blake2b256 magic (to_frame m)) ->
  let (events, c') := run_reader blake2b256 magic peer_id addr tap c in
  events = (Message peer_id <$> ms) ++ [PeerDisconnected peer_id] /\ banned c' = banned c.
Proof.
  intros Hs Hm Hn Hi. apply (reader_loop_wire _ _ _ _ m n); [done..| |done].
  rewrite Hi, length_app. pose proof (wire_length (to_frame <$> ms)) as Hl. rewrite length_fmap in Hl. lia.
Qed.

Lemma run_reader_wire peer_id addr tap ms c :
  Forall sendable ms -> incoming c = wire (to_frame <$> ms) ->
  let (events, c') := run_reader blake2b256 magic peer_id addr tap c in
  events = (Message peer_id <$> ms) ++ [PeerDisconnected peer_id] /\ banned c' = banned c.
Proof.
  intros Hs Hi. apply (run_reader_torn _ _ _ _ GetPeers 0); [done|apply sendable_get_peers| |by rewrite Hi, app_nil_r].
  rewrite encode_header, length_app, header_length by done. lia.
Qed.

Lemma wire_app fs gs : wire (fs ++ gs) = wire fs ++ wire gs.
Proof. unfold wire. by rewrite fmap_app, concat_app. Qed.

Lemma wire_one f : wire [f] = encode blake2b256 magic f.
Proof. unfold wire. cbn. by rewrite app_nil_r. Qed.

(** Reading what a queue left on the socket. *)
Lemma socket_read ms s :
  Forall sendable ms -> queue_inv (s, to_frame <$> ms) ->
  exists k, (length (written s) <= k)%nat /\ forall peer_id addr tap c, incoming c = socket s ->
    let (events, c') := run_reader blake2b256 magic peer_id addr tap c in
    events = (Message peer_id <$> take k ms) ++ [PeerDisconnected peer_id] /\ banned c' = banned c.
Proof.
  intros Hs Hinv. destruct (inv_prefix _ Hinv) as [lost E]. cbn in E. unfold socket.
  assert (Ew : written s = to_frame <$> take (length (written s)) ms) by (by rewrite fmap_take, E, take_app_length).
  destruct (torn s) as [[f n]|]; cbn in E.
  2:{ exists (length (written s)). split; [done|]. intros peer_id addr tap c Hc.
      apply run_reader_wire; [by apply Forall_take|]. by rewrite Hc, app_nil_r, <- Ew. }
  assert (exists m, ms !! length (written s) = Some m /\ f = to_frame m) as (m & Hm & ->).
  { apply (f_equal (.!! length (written s))) in E. rewrite list_lookup_fmap, lookup_app_r, Nat.sub_diag in E by lia.
    cbn in E. apply fmap_Some in E as (m & ? & ?). eauto. }
  assert (Hsm : sendable m) by (rewrite Forall_forall in Hs; eapply Hs, list_elem_of_lookup_2, Hm).
  destruct (decide (n < length (encode blake2b256 magic (to_frame m)))%nat) as [Hn|Hn].
  - exists (length (written s)). split; [done|]. intros peer_id addr tap c Hc.
    apply (run_reader_torn _ _ _ _ m n); [by apply Forall_take|done..|]. by rewrite <- Ew.
  - exists (S (length (written s))). split; [lia|]. intros peer_id addr tap c Hc.
    apply run_reader_wire; [by apply Forall_take|].
    rewrite (take_S_r _ _ _ Hm), fmap_app, wire_app, <- Ew, Hc. f_equal.
    change (to_frame <$> [m]) with [to_frame m]. rewrite wire_one. apply take_ge. lia.
Qed.
End Wire.

(** C12: What one node queues for a peer is what the peer's event loop is handed. Whatever the
    interleaving of senders, writer and aborts, a frame cut short by a failed or cancelled
    write included, the bytes on the socket are read back as a prefix of the accepted
    messages, each as the event of that message and in the order of the sends, all of
    those whose write ended well among them, and nobody is banned; while the connection is
    not aborted, the writer can bring the whole sequence across. *)
Theorem messages_delivered blake2b256 magic ms s :
  (forall l, length (blake2b256 l) = 32%nat) -> length magic = 4%nat -> Forall sendable ms ->
  rtc queue_step (sender_new, []) (s, to_frame <$> ms) ->
  let received s k := forall peer_id addr tap c,
    incoming c = socket blake2b256 magic s ->
    let (events, c') := run_reader blake2b256 magic peer_id addr tap c in
    events = (Message peer_id <$> take k ms) ++ [PeerDisconnected peer_id] /\ banned c' = banned c in
  (exists k, (length (written s) <= k)%nat /\ received s k)
  /\ (reason s = None -> exists s', rtc writer_step s s' /\ received s' (length ms)).
Proof.
  intros Hd Hm Hs H%queue_reachable_inv received. split.
  - destruct (socket_read blake2b256 Hd magic Hm ms s Hs H) as (k & Hk & Hr). by exists k.
  - intros Hr. assert (Hg : writer_gone s = false).
    { destruct (writer_gone s) eqn:Eg; [|done]. by destruct (inv_gone _ H Eg) as [? _]. }
    destruct (drain_in_hand s Hg (inv_alone _ H)) as (s' & Hw & Hwr & _ & _ & Ht).
    exists s'. split; [done|]. intros peer_id addr tap c Hc. rewrite take_ge by done.
    apply run_reader_wire; [done..|]. rewrite Hc. unfold socket. rewrite Ht, (inv_torn _ H Hg : torn s = None), app_nil_r, Hwr.
    f_equal. symmetry. by apply (inv_order _ H).
Qed.

(** ** Isolation of peers in the event loop *)

Definition enqueue_all (fs : list frame) (s : PeerSender) : PeerSender :=
  foldl (fun s f => (enqueue f s).2) s fs.

(** What a message delivers to the validator: the modifiers of a response. *)
Definition delivered {St} (r : Router St) (source : Z) (m : protocol_message) :
    list (Z * modifier_id * list Z * Z) :=
  match peers r !! source, m with
  | Some _, ModifierResponse t ms => (fun p : modifier => (t, p.1, p.2, source)) <$> ms
  | _, _ => []
  end.

Lemma try_send_all {A} cap (xs ch : list A) :
  foldl (fun ch x => try_send cap x ch) ch xs = ch ++ take (cap - length ch) xs.
Proof.
  revert ch. induction xs as [|x xs IH]; intros ch; cbn; [by rewrite take_nil, app_nil_r|].
  rewrite IH. unfold try_send. destruct (length ch <? cap)%nat eqn:E.
  - apply Nat.ltb_lt in E. rewrite length_app, <- app_assoc. cbn.
    by replace (cap - length ch)%nat with (S (cap - (length ch + 1))) by lia.
  - apply Nat.ltb_ge in E. by replace (cap - length ch)%nat with 0%nat by lia.
Qed.

Lemma sends_to_one source fs (ss : gmap Z PeerSender) :
  let ss' := foldl (fun ss '(t, f) => send_frame t f ss) ss ((fun f => (source, f)) <$> fs) in
  ss' !! source = enqueue_all fs <$> ss !! source /\ forall p, p <> source -> ss' !! p = ss !! p.
Proof.
  revert ss. induction fs as [|f fs IH]; intros ss; cbn; [split; [by destruct (ss !! source)|done]|].
  destruct (IH (send_frame source f ss)) as [IH1 IH2].
  assert (Hf : send_frame source f ss !! source = enqueue_all [f] <$> ss !! source
               /\ forall p, p <> source -> send_frame source f ss !! p = ss !! p).
  { unfold send_frame. destruct (ss !! source) as [s|] eqn:E; cbn; [|done].
    split; [by rewrite lookup_insert_eq|]. intros p Hp. by rewrite lookup_insert_ne. }
  destruct Hf as [Hf1 Hf2]. split.
  - etransitivity; [exact IH1|]. rewrite Hf1. by destruct (ss !! source).
  - intros p Hp. etransitivity; [exact (IH2 p Hp)|]. by apply Hf2.
Qed.

Lemma ingest_peers {St} `{!PeerStorage St} values clock specs (r : Router St) :
  peers (ingest values clock specs r) = peers r.
Proof.
  revert clock r. induction specs as [|sp specs IH]; intros clock r; cbn; [done|].
  destruct (address sp); [|done]. case_match; [done|]. case_match; [done|]. by rewrite IH.
Qed.

Lemma route_actions {St} `{!PeerStorage St} values clock source m (r : Router St) :
  let (actions, r') := route_message values clock source m r in
  (exists fs, sends_of actions = (fun f => (source, f)) <$> fs)
  /\ deliveries_of actions = delivered r source m /\ peers r' = peers r.
Proof.
  unfold route_message, delivered. destruct (peers r !! source) as [e|]; [|by split; [exists []|]].
  destruct m as [|b|t ids|t ids|t ms|b|c b]; try (by split; [exists []|]).
  - split; [by eexists [_]|done].
  - destruct (parse_peers_body _ _); (split; [by exists []|]); [|done]. by rewrite ingest_peers.
  - destruct (_ && _); [by split; [exists []|]|]. unfold serve_request.
    set (served := match local_serve r with Some _ => _ | None => _ end). clearbody served.
    induction (chunk_served served) as [|b bs IH]; [by split; [exists []|]|].
    destruct IH as ((fs & Hf) & Hd & _). unfold sends_of, deliveries_of in *.
    split; [|split; [exact Hd|done]]. exists (to_frame (ModifierResponse t b) :: fs).
    cbn [fmap list_fmap omap list_omap]. f_equal. exact Hf.
  - split; [exists []|split; [|done]]; induction ms as [|p ms IH]; cbn in *; [done..|].
    unfold deliveries_of in IH. cbn in IH. by rewrite IH.
Qed.

(** C32: Peers are isolated in the event loop. A message only adds frames, in order, to the
    queue of the peer that sent it; the queues of all others and the peer table stay as
    they are. The modifiers of a response from a registered peer, and nothing else, go to
    the validator, in order and up to the capacity of its channel. Connections and
    disconnections send and deliver nothing. *)
Theorem event_isolated {St} `{!PeerStorage St} values clock now event (n : NodeState St) :
  let n' := event_step values clock now event n in
  match event with
  | Message source m =>
      (forall p, p <> source -> senders n' !! p = senders n !! p)
      /\ (exists fs, senders n' !! source = enqueue_all fs <$> senders n !! source)
      /\ peers (router n') = peers (router n)
      /\ modifier_sink n' = modifier_sink n ++
           take (sink_capacity n - length (modifier_sink n)) (delivered (router n) source m)
  | _ => senders n' = senders n /\ modifier_sink n' = modifier_sink n
  end.
Proof.
  intros n'. subst n'. unfold event_step. destruct event as [p sp d a|p|source m]; [done..|].
  cbn [handle_event]. pose proof (route_actions values clock source m (router n)) as H.
  destruct (route_message values clock source m (router n)) as [actions r'].
  destruct H as ((fs & Hf) & Hd & Hp). cbn [senders modifier_sink router].
  rewrite Hf, Hd, try_send_all. destruct (sends_to_one source fs (senders n)) as [H1 H2].
  split_and!; [exact H2|by exists fs|done|done].
Qed.

(** ** Dialing out *)

Lemma floor_dials_spec min_peers now seeds counts cd :
  let (dials, cd') := floor_dials min_peers now seeds counts cd in
  dials `prefix_of` seeds
  /\ (forall a, a ∈ dials -> cd' !! a = Some (now + OUTBOUND_REDIAL_COOLDOWN))
  /\ (forall a, a ∉ dials -> cd' !! a = cd !! a)
  /\ Forall (fun c => (c < min_peers)%nat) (take (length dials) counts).
Proof.
  revert counts cd. induction seeds as [|s seeds IH]; intros counts cd; cbn.
  { split_and!; [done| |done..]. intros a Ha. by apply not_elem_of_nil in Ha. }
  assert (Hnone : [] `prefix_of` s :: seeds) by apply prefix_nil.
  destruct counts as [|c counts]; [split_and!; [done| |done..]; intros a Ha; by apply not_elem_of_nil in Ha|].
  destruct (min_peers <=? c)%nat eqn:E; [split_and!; [done| |done..]; intros a Ha; by apply not_elem_of_nil in Ha|].
  apply Nat.leb_gt in E.
  specialize (IH counts (<[s := now + OUTBOUND_REDIAL_COOLDOWN]> cd)).
  destruct (floor_dials _ _ _ _ _) as [dials cd']. destruct IH as (H1 & H2 & H3 & H4). split_and!.
  - by apply prefix_cons.
  - intros a Ha. destruct (decide (a ∈ dials)) as [|Hn]; [auto|].
    apply elem_of_cons in Ha as [->|]; [|done]. by rewrite H3, lookup_insert_eq.
  - intros a [Hs Hn]%not_elem_of_cons. by rewrite H3, lookup_insert_ne.
  - cbn. by constructor.
Qed.

Lemma pick_fill_correct {St} values draw (r : Router St) cd a :
  enumerates values ->
  pick_fill_candidate values draw r cd = Some a ->
  (exists k rec, entries (peer_db r) !! k = Some rec /\ rec_address rec = a)
  /\ (a ∉ connected_set r) /\ (a ∉ blacklist r) /\ cd !! a = None /\ rejects r a = false.
Proof.
  intros Hv. unfold pick_fill_candidate. intros (rec & Hrec & ->)%fmap_Some_1.
  match type of Hrec with dial_candidate _ _ ?ex ?con ?el _ _ = _ =>
    pose proof (dial_candidate_correct values Hv (blacklist r) ex con el draw (peer_db r)) as H end.
  cbn zeta in H. rewrite Hrec in H. destruct H as ((k & Hk) & (Hx & Hb & He%negb_true_iff) & _).
  apply not_elem_of_union in Hx as [Hc Hd]. split_and!; [by eauto|done|done|by apply not_elem_of_dom|done].
Qed.

(** A round of the outbound manager. Below the floor it dials seeds in their order, each
    only while peers are still missing, and doubles the pause up to five minutes; above
    it, it dials at most one address, one the database knows that is not connected, not
    banned, not bogus and not dialed within the last minute. Every dial starts the
    cooldown of its address; other cooldowns stay until they run out. *)
Theorem outbound_round_correct {St} values draw seeds min_peers max_peers now counts (r : Router St) o :
  enumerates values -> FLOOR_BACKOFF_INITIAL <= floor_backoff o <= FLOOR_BACKOFF_MAX ->
  let '(dials, delay, o') := outbound_round values draw seeds min_peers max_peers now counts r o in
  FLOOR_BACKOFF_INITIAL <= floor_backoff o' <= FLOOR_BACKOFF_MAX
  /\ FLOOR_BACKOFF_INITIAL <= delay <= FLOOR_BACKOFF_MAX
  /\ (if (length (outbound_peers r) <? min_peers)%nat then
        dials `prefix_of` seeds /\ Forall (fun c => (c < min_peers)%nat) (take (length dials) counts)
        /\ delay = floor_backoff o
      else (length dials <= 1)%nat /\ forall a, a ∈ dials ->
        (length (outbound_peers r) < max_peers)%nat
        /\ (exists k rec, entries (peer_db r) !! k = Some rec /\ rec_address rec = a)
        /\ (a ∉ connected_set r) /\ (a ∉ blacklist r) /\ rejects r a = false
        /\ forall t, cooldown o !! a = Some t -> t <= now)
  /\ (forall a, a ∈ dials -> cooldown o' !! a = Some (now + OUTBOUND_REDIAL_COOLDOWN))
  /\ (forall a t, a ∉ dials -> cooldown o' !! a = Some t <-> cooldown o !! a = Some t /\ now < t).
Proof.
  intros Hv Hb. unfold outbound_round. set (cd := prune_cooldown now (cooldown o)).
  assert (Hcd : forall a t, cd !! a = Some t <-> cooldown o !! a = Some t /\ now < t)
    by (intros a t; apply map_lookup_filter_Some).
  change FLOOR_BACKOFF_INITIAL with 5000000000 in *. change FLOOR_BACKOFF_MAX with 300000000000 in *.
  change OUTBOUND_FILL_INTERVAL with 30000000000.
  destruct (_ <? min_peers)%nat.
  - pose proof (floor_dials_spec min_peers now seeds counts cd) as H.
    destruct (floor_dials _ _ _ _ _) as [dials cd']. destruct H as (H1 & H2 & H3 & H4).
    cbn [floor_backoff cooldown]. split_and!; [lia..|done|done|done|done|].
    intros a t Ha. by rewrite H3, Hcd.
  - destruct (if (_ <? max_peers)%nat then _ else _) as [a|] eqn:E; cbn [floor_backoff cooldown].
    + destruct (_ <? max_peers)%nat eqn:Em; [|done]. apply Nat.ltb_lt in Em.
      destruct (pick_fill_correct values draw r cd a Hv E) as (H1 & H2 & H3 & H4 & H5).
      split_and!; [lia..|cbn; lia| | |].
      * intros b ->%list_elem_of_singleton. split_and!; try done. intros t Ht.
        destruct (decide (now < t)) as [Hlt|]; [|lia].
        assert (cd !! a = Some t) by (by apply Hcd). congruence.
      * intros b ->%list_elem_of_singleton. by rewrite lookup_insert_eq.
      * intros b t Hn. rewrite lookup_insert_ne, Hcd; [done|]. intros ->. by apply Hn, list_elem_of_singleton.
    + split_and!; [lia..|cbn; lia| | |].
      * intros b Hin. by apply not_elem_of_nil in Hin.
      * intros b Hin. by apply not_elem_of_nil in Hin.
      * intros b t _. apply Hcd.
Qed.

(** ** Concrete queues *)

Module Examples.
Definition get_peers : frame := to_frame GetPeers.
Definition queued : PeerSender := mk_sender [get_peers] 9 None None None false [] None.
Definition halfway : PeerSender := mk_sender [] 9 None (Some get_peers) None false [] None.

Lemma halfway_reached : rtc queue_step (sender_new, []) (halfway, to_frame <$> [GetPeers]).
Proof.
  eapply rtc_l; [by apply (step_enqueue sender_new [] get_peers queued (Ok tt))|].
  eapply rtc_l; [by apply (step_recv queued _ halfway)|]. constructor.
Qed.

Lemma peer_queue_correct_witness :
  rtc queue_step (sender_new, []) (halfway, [get_peers])
  /\ bytes_of (queue halfway) <= MAX_QUEUED_BYTES
  /\ exists s', rtc writer_step halfway s' /\ written s' = [get_peers] /\ reason s' = None.
Proof.
  split; [exact halfway_reached|].
  destruct (peer_queue_correct halfway [get_peers] halfway_reached) as (_ & Hb & _ & H & _).
  split; [exact Hb|by apply H].
Defined.

Lemma messages_delivered_witness :
  let blake l := replicate 32 (Z.of_nat (length l)) in
  exists s', rtc writer_step halfway s' /\
    forall peer_id addr tap c, incoming c = socket blake [1; 0; 2; 4] s' ->
    let (events, c') := run_reader blake [1; 0; 2; 4] peer_id addr tap c in
    events = [Message peer_id GetPeers; PeerDisconnected peer_id] /\ banned c' = banned c.
Proof.
  intros blake.
  assert (Hs : Forall sendable [GetPeers]).
  { apply List.Forall_cons; [|constructor]. split; [exact I|vm_compute; discriminate]. }
  destruct (messages_delivered blake [1; 0; 2; 4] [GetPeers] halfway) as [_ H];
    [done|done|exact Hs|exact halfway_reached|]. by apply H.
Defined.
End Examples.

End Node.
