(* ===== verification/RouterExample.v ===== *)
(** * Concrete routers

    Witnesses for the theorems of Router.v, and the growth of a gossiped entry: a peer
    list may rewrite the features of an address the node has observed, at any size a
    frame can carry, and the node passes them on without looking at their size. *)

From S2P Require Import Prelude Bytes Vlq Frame Messages Handshake PeerDb AddressSanity Router Node.
Import Vlq Frame Messages Handshake PeerDb PeerDb.Examples AddressSanity Router Node.

Module RouterEx.

Definition tick (i : nat) : Z := 1000 + Z.of_nat i.

Definition empty_db : PeerDb MemoryPeerStorage := mk_db ∅ DEFAULT_CAP ∅ memory_new.

Definition start : Router MemoryPeerStorage := with_peer_db empty_db ∅ 64 Mainnet true.

Lemma start_inv : router_inv ∅ start.
Proof.
  split_and!; [intros k r Hk|intros k r Hk|intros k r Hk]; exfalso;
    exact (lookup_empty_Some (M := gmap SocketAddr) _ _ Hk).
Qed.

Definition addr_a : SocketAddr := at4 51 15 1 1.
Definition addr_b : SocketAddr := at4 94 130 2 2.
Definition addr_c : SocketAddr := at4 213 239 3 3.

Lemma at4_typed a b c d : is_u8 a -> is_u8 b -> is_u8 c -> is_u8 d -> addr_typed (at4 a b c d).
Proof.
  intros. split; [split; [split; vm_compute; discriminate|done]|].
  repeat (apply List.Forall_cons || apply List.Forall_nil); done.
Qed.

Ltac byte := split; vm_compute; discriminate.

(** Two peers we dialed, then lost, and one that dialed us. *)
Definition setup : list input :=
  [Register 1 Outbound Full addr_a None None 500; Register 2 Outbound Full addr_b None None 600;
   Register 3 Inbound Full addr_c None None 700;
   Event tick (PeerDisconnected 1); Event tick (PeerDisconnected 2)].

Definition run_all (inputs : list input) (r : Router MemoryPeerStorage) : Router MemoryPeerStorage :=
  foldl (fun r i => run_input enumerate i r) r inputs.

Lemma run_all_app l k r : run_all (l ++ k) r = run_all k (run_all l r).
Proof. apply foldl_app. Qed.

Definition hosts_of (inputs : list input) (hosts : gset IpAddr) : gset IpAddr :=
  foldl (fun h i => host_of i ∪ h) hosts inputs.

Lemma run_all_reaches inputs r0 h0 r h :
  reaches r0 h0 r h -> Forall input_ok inputs -> reaches r0 h0 (run_all inputs r) (hosts_of inputs h).
Proof.
  intros Hr Hok. revert r h Hr. induction Hok as [|i inputs Hi _ IH]; intros r h Hr; [done|].
  cbn. apply IH. apply reaches_step; [done|exact enumerate_ok|done].
Qed.

Lemma setup_ok : Forall input_ok setup.
Proof.
  repeat (apply List.Forall_cons || apply List.Forall_nil); try exact I;
    (split; [apply at4_typed; byte|split; [exact I|vm_compute; discriminate]]).
Qed.

Definition ready : Router MemoryPeerStorage := run_all setup start.

Lemma get_peers_vouched_witness :
  exists recs,
    handle_event enumerate tick (Message 3 GetPeers) ready
      = ([Send 3 (Peers (build_peers_body (record_to_spec <$> recs)))], ready) /\
    StronglySorted later_handshake recs.
Proof.
  destruct (get_peers_vouched start ready ∅ (hosts_of setup ∅) enumerate tick 3
              (mk_peer Inbound Full addr_c None None)) as (recs & H & _ & _ & _ & Hs & _).
  - exact (run_all_reaches setup start ∅ start ∅ (reaches_refl start ∅) setup_ok).
  - exact start_inv.
  - exact enumerate_ok.
  - vm_compute. reflexivity.
  - split; vm_compute; discriminate.
  - exists recs. split; [exact H|exact Hs].
Defined.

Definition hook : local_serve_fn :=
  fun t i => if (t =? 2) && bool_decide (head i = Some 7) then Some [1; 2; 3] else None.

Definition asked : list modifier_id := [replicate 32 7; replicate 32 8; 7 :: replicate 31 9].

Lemma serve_correct_witness :
  exists batches,
    (handle_event enumerate tick (Message 3 (ModifierRequest 2 asked)) (set_local_serve ready hook)).1
      = (fun ms => Send 3 (ModifierResponse 2 ms)) <$> batches
    /\ concat batches = [(replicate 32 7, [1; 2; 3]); (7 :: replicate 31 9, [1; 2; 3])].
Proof.
  assert (Hh : hook_ok (set_local_serve ready hook)).
  { intros serve t i data [= <-]. unfold hook. destruct (_ && _); [|discriminate].
    intros [= <-]. vm_compute. discriminate. }
  pose proof (serve_correct enumerate tick (set_local_serve ready hook) 3
    (mk_peer Inbound Full addr_c None None) 2 asked ltac:(vm_compute; reflexivity) Hh
    ltac:(repeat (apply List.Forall_cons || apply List.Forall_nil); reflexivity)
    ltac:(vm_compute; discriminate)) as H.
  destruct (handle_event enumerate tick (Message 3 (ModifierRequest 2 asked))
              (set_local_serve ready hook)) as [actions r'].
  destruct H as [_ H].
  replace (bool_decide _ && is_block_related 2) with false in H by (vm_compute; reflexivity).
  destruct H as (batches & -> & Hc & _). exists batches. split; [reflexivity|].
  etransitivity; [exact Hc|]. vm_compute. reflexivity.
Defined.

(** ** An entry that outgrows a frame *)

Section Growth.
Context (big : list Z).

Definition grown (a : SocketAddr) : PeerSpec :=
  mk_spec [] (mk_version 5 0 20) [] (Some a) [mk_feature 7 big].

Definition rumours : list input :=
  [Event tick (Message 3 (Peers (build_peers_body [grown addr_a])));
   Event tick (Message 3 (Peers (build_peers_body [grown addr_b])))].

Context (Hbytes : bytes_ok big) (Hbig : Z.of_nat (length big) <= MAX_VLQ_LENGTH).

Lemma grown_typed a : addr_typed a -> spec_typed (grown a).
Proof.
  intros Ha. assert (Hnil : string_typed []) by (split; [constructor|split; [done|simpl; lia]]).
  refine (conj _ (conj _ (conj _ (conj _ (conj _ _))))); cbn [agent version name address features];
    [done|split_and!; byte|done|exact Ha|simpl; lia|].
  apply List.Forall_cons; [|constructor]. split_and!; [byte|done|done].
Qed.

Lemma grown_parses a cap :
  addr_typed a -> 1 <= cap -> parse_peers_body (build_peers_body [grown a]) cap = Ok [grown a].
Proof.
  intros Ha Hc. rewrite <- (app_nil_r (build_peers_body _)). apply parse_build_peers.
  - apply List.Forall_cons; [|constructor]. by apply spec_typed_ok, grown_typed.
  - exact Hc.
  - vm_compute. discriminate.
Qed.

Lemma after_rumours :
  run_all rumours ready =
    ingest enumerate tick [grown addr_b] (ingest enumerate tick [grown addr_a] ready).
Proof.
  assert (Hstep : forall a r, addr_typed a -> peers r !! 3 = peers ready !! 3 ->
     max_peer_spec_objects r = 64 ->
     run_input enumerate (Event tick (Message 3 (Peers (build_peers_body [grown a])))) r
       = ingest enumerate tick [grown a] r).
  { intros a r Ha Hp Hm. unfold run_input, handle_event, route_message. rewrite Hp, Hm.
    rewrite grown_parses by (done || lia). reflexivity. }
  unfold run_all, rumours. cbn [foldl].
  rewrite (Hstep addr_a ready); [|apply at4_typed; byte|reflexivity|reflexivity].
  rewrite Hstep; [reflexivity|apply at4_typed; byte|vm_compute; reflexivity|vm_compute; reflexivity].
Qed.

Lemma grown_answer :
  (handle_event enumerate tick (Message 3 GetPeers) (run_all rumours ready)).1
    = [Send 3 (Peers (build_peers_body [grown addr_b; grown addr_a]))].
Proof. rewrite after_rumours. vm_compute. reflexivity. Qed.
End Growth.

Lemma grown_length big a :
  addr_ok a ->
  (length big <= length (serialize_peer_entry (grown big a)) <= length big + 60)%nat.
Proof.
  intros Ha. unfold serialize_peer_entry, grown. cbn [agent version name address features].
  change (concat (write_feature <$> [mk_feature 7 big])) with (write_feature (mk_feature 7 big) ++ []).
  rewrite app_nil_r. unfold write_short_string, write_feature. cbn [id fbody length].
  pose proof (declared_length (Some a) Ha). pose proof (write_vlq_length [7] (Z.of_nat (length big))).
  rewrite !length_app. cbn [length]. rewrite !length_app. cbn [length] in *. lia.
Qed.

Lemma grown_bytes big a : bytes_ok big -> addr_typed a -> bytes_ok (build_peers_body [grown big a]).
Proof.
  intros Hb [[Hp Hl] Ho]. unfold build_peers_body. apply Forall_app. split; [apply write_vlq_ok|].
  change (concat (serialize_peer_entry <$> [grown big a]))
    with (serialize_peer_entry (grown big a) ++ []).
  rewrite app_nil_r. unfold serialize_peer_entry, grown. cbn [agent version name address features].
  change (concat (write_feature <$> [mk_feature 7 big])) with (write_feature (mk_feature 7 big) ++ []).
  rewrite app_nil_r. unfold write_short_string, write_feature, write_declared_address. cbn [id fbody].
  rewrite !(write_vlq_app (_ :: _)). cbn [length app].
  assert (Hu : forall x, is_u8 (as_u8 x)).
  { intros x. unfold as_u8, is_u8, U8_MAX. pose proof (Z.mod_pos_bound x (2 ^ 8)). lia. }
  repeat (apply List.Forall_cons; [byte || apply Hu|]).
  apply Forall_app. split; [apply Forall_app; split; [done|apply write_vlq_ok]|].
  repeat (apply List.Forall_cons; [byte || apply Hu|]).
  apply Forall_app. split; [apply write_vlq_ok|done].
Qed.

Lemma peers_body_length specs :
  let n := length (concat (serialize_peer_entry <$> specs)) in
  (n <= length (build_peers_body specs) <= n + 10)%nat.
Proof.
  intros n. unfold build_peers_body. rewrite length_app.
  pose proof (write_vlq_length [] (Z.of_nat (length specs))) as H. cbn [length] in H. lia.
Qed.

(** The message of an input fits a frame. *)
Definition fits (i : input) : Prop :=
  match i with
  | Event _ (Message _ m) => Z.of_nat (length (body (to_frame m))) <= MAX_BODY_SIZE
  | _ => True
  end.

Lemma rumours_ok big : bytes_ok big -> Forall input_ok (setup ++ rumours big).
Proof.
  intros Hb. apply Forall_app. split; [exact setup_ok|].
  apply List.Forall_cons; [apply grown_bytes; [done|apply at4_typed; byte]|].
  apply List.Forall_cons; [apply grown_bytes; [done|apply at4_typed; byte]|constructor].
Qed.

Lemma rumours_fit big :
  Z.of_nat (length big) <= 9000000 -> Forall fits (setup ++ rumours big).
Proof.
  intros Hl. apply Forall_app. split.
  { repeat (apply List.Forall_cons || apply List.Forall_nil); exact I. }
  assert (H : forall a, addr_ok a -> Z.of_nat (length (build_peers_body [grown big a])) <= MAX_BODY_SIZE).
  { intros a Ha. pose proof (grown_length big a Ha). pose proof (peers_body_length [grown big a]) as Hp.
    cbn [fmap list_fmap concat] in Hp. rewrite app_nil_r in Hp. unfold MAX_BODY_SIZE. lia. }
  assert (Ha : forall a b c d, addr_ok (at4 a b c d)) by (intros; split; [split; vm_compute; discriminate|done]).
  apply List.Forall_cons; [apply (H addr_a), Ha|].
  apply List.Forall_cons; [apply (H addr_b), Ha|constructor].
Qed.

Lemma two_grown_length big :
  Z.of_nat (length big) * 2 <= Z.of_nat (length (build_peers_body [grown big addr_b; grown big addr_a])).
Proof.
  assert (Ha : forall x y z w, addr_ok (at4 x y z w))
    by (intros; split; [split; vm_compute; discriminate|done]).
  pose proof (grown_length big addr_a (Ha _ _ _ _)). pose proof (grown_length big addr_b (Ha _ _ _ _)).
  pose proof (peers_body_length [grown big addr_b; grown big addr_a]) as Hp.
  cbn [fmap list_fmap concat] in Hp. rewrite !length_app in Hp. cbn [length] in Hp. lia.
Qed.

Lemma big_body : exists big, bytes_ok big /\ Z.of_nat (length big) = 9000000.
Proof.
  exists (replicate (Z.to_nat 9000000) 0). split; [apply Forall_replicate; byte|].
  rewrite length_replicate, Z2Nat.id; [done|discriminate].
Qed.

(** An idle queue refuses a frame whose body is over the limit, and is aborted. *)
Lemma enqueue_oversized f s acc :
  queue_inv (s, acc) -> reason s = None -> in_hand s = [] ->
  MAX_BODY_SIZE < Z.of_nat (length (body f)) ->
  reason (enqueue f s).2 = Some OutboundQueueFull /\ queue (enqueue f s).2 = [].
Proof.
  intros Hq Hr Hh Hb. apply app_nil in Hh as [_ [Ht Hqe]%app_nil].
  pose proof (inv_count _ Hq Hr) as Hc. cbn in Hc. rewrite Ht, Hqe in Hc. cbn in Hc.
  unfold enqueue. rewrite Hr, Hc. rewrite (proj2 (Z.ltb_lt _ _)); [cbn; by rewrite Hr, Hqe|].
  unfold frame_wire_bytes, MAX_QUEUED_BYTES. destruct (body f); [|lia].
  cbn in Hb. unfold MAX_BODY_SIZE in Hb. lia.
Qed.

(** C37: A defect of gossip. From messages that each fit a frame, a peer can bring the node to
    answer [GetPeers] with more than a connection's queue may hold: a peer list
    overwrites the features of an address the node has observed, whatever their size,
    and the answer carries them. A peer that then asks, with nothing queued for it, is
    sent nothing and its connection is aborted as if it had stopped reading. *)
Theorem oversized_answer :
  exists inputs : list input,
    Forall input_ok inputs /\ Forall fits inputs
    /\ forall n acc s now,
         router n = run_all inputs start -> senders n !! 3 = Some s ->
         rtc queue_step (sender_new, []) (s, acc) -> reason s = None -> in_hand s = [] ->
         exists s', senders (event_step enumerate tick now (Message 3 GetPeers) n) !! 3 = Some s'
           /\ reason s' = Some OutboundQueueFull /\ queue s' = [].
Proof.
  destruct big_body as (big & Hb & Hl).
  exists (setup ++ rumours big). split; [by apply rumours_ok|]. split; [apply rumours_fit; lia|].
  intros n acc s now Hn Hs Hq%queue_reachable_inv Hr Hh.
  assert (Hn' : router n = run_all (rumours big) ready) by (unfold ready; by rewrite Hn, run_all_app). clear Hn.
  pose proof (grown_answer big Hb ltac:(unfold MAX_VLQ_LENGTH; lia)) as Ha.
  unfold event_step. rewrite Hn'. clear Hn'. generalize dependent (run_all (rumours big) ready).
  intros r0 Ha.
  destruct (handle_event _ _ _ _) as [actions r]. cbn [fst] in Ha. subst actions.
  set (answer := build_peers_body _). assert (Hbig : MAX_BODY_SIZE < Z.of_nat (length answer)).
  { unfold answer, MAX_BODY_SIZE. pose proof (two_grown_length big). lia. }
  clearbody answer. cbn [senders sends_of omap list_omap foldl]. unfold send_frame. rewrite Hs.
  rewrite lookup_insert_eq. eexists. split; [done|]. by apply (enqueue_oversized _ s acc).
Qed.

End RouterEx.
