(* ===== verification/ChainConfig.v ===== *)
(** * Chain configuration

    [chain/src/config.rs], [chain/src/state_type.rs] and the [VotingConfig] of
    [chain/src/voting.rs]: the network presets and the heights they switch at. *)

From S2P Require Import Prelude.

Module ChainConfig.

Inductive Network := Mainnet | Testnet.

#[global] Instance Network_eq_dec : EqDecision Network.
Proof. solve_decision. Defined.

(** [VotingConfig]. *)
Record VotingConfig := mk_voting {
  voting_length : Z;
  soft_fork_epochs : Z;
  activation_epochs : Z;
  version2_activation_height : Z;
}.

Definition voting_mainnet : VotingConfig := mk_voting 1024 32 32 417792.
Definition voting_testnet : VotingConfig := mk_voting 128 32 32 0.

(** [VotingConfig::soft_fork_approved]: the product is a [u64], the comparison an
    [i64] one. *)
Definition soft_fork_threshold (v : VotingConfig) : Z :=
  as_u64 (as_u64 (voting_length v * soft_fork_epochs v) * 9) / 10.

Definition soft_fork_approved (v : VotingConfig) (votes : Z) : bool :=
  as_i64 (soft_fork_threshold v) <? votes.

(** [VotingConfig::change_approved]. *)
Definition change_approved (v : VotingConfig) (votes : Z) : bool := voting_length v / 2 <? votes.

(** [ChainConfig]. *)
Record ChainConfig := mk_chain_config {
  network : Network;
  epoch_length : Z;
  block_interval_ms : Z;
  use_last_epochs : Z;
  initial_n_bits : Z;
  version2_activation_n_bits : option Z;
  genesis_id : option id32;
  max_time_drift_ms : Z;
  eip37_activation_height : option Z;
  eip37_epoch_length : option Z;
  voting : VotingConfig;
}.

Definition config_testnet : ChainConfig := {|
  network := Testnet;
  epoch_length := 128;
  block_interval_ms := 45000;
  use_last_epochs := 8;
  initial_n_bits := 16842752;
  version2_activation_n_bits := None;
  genesis_id := None;
  max_time_drift_ms := 10 * 45000;
  eip37_activation_height := None;
  eip37_epoch_length := None;
  voting := voting_testnet;
|}.

Definition config_mainnet : ChainConfig := {|
  network := Mainnet;
  epoch_length := 1024;
  block_interval_ms := 120000;
  use_last_epochs := 8;
  initial_n_bits := 100734821;
  version2_activation_n_bits := Some 107976917;
  genesis_id := Some 0xb0244dfc267baca974a4caee06120321562784303a8a688976ae56170e4d175b;
  max_time_drift_ms := 10 * 120000;
  eip37_activation_height := Some 844673;
  eip37_epoch_length := Some 128;
  voting := voting_mainnet;
|}.

(** [ChainConfig::epoch_length_at]. *)
Definition epoch_length_at (c : ChainConfig) (height : Z) : Z :=
  match eip37_activation_height c, eip37_epoch_length c with
  | Some activation, Some eip37_len =>
      if activation <=? height then eip37_len else epoch_length c
  | _, _ => epoch_length c
  end.

(** [ChainConfig::eip37_active]. *)
Definition eip37_active (c : ChainConfig) (height : Z) : bool :=
  match eip37_activation_height c with
  | Some h => h <=? height
  | None => false
  end.

(** [StateType]. *)
Inductive StateType := Utxo | Digest | Light.

Definition requires_proofs (s : StateType) : bool :=
  match s with Digest => true | _ => false end.

Definition downloads_block_bodies (s : StateType) : bool :=
  match s with Light => false | _ => true end.

(** Settings whose threshold arithmetic stays in range. *)
Definition voting_ok (v : VotingConfig) : Prop :=
  0 < voting_length v <= U32_MAX /\ 0 <= soft_fork_epochs v <= U32_MAX /\
  0 <= activation_epochs v <= U32_MAX /\
  voting_length v * soft_fork_epochs v * 9 <= U64_MAX.

Lemma soft_fork_approved_spec v votes :
  voting_ok v ->
  soft_fork_approved v votes = true <-> voting_length v * soft_fork_epochs v * 9 / 10 < votes.
Proof.
  intros (Hl & He & _ & Hm). unfold soft_fork_approved, soft_fork_threshold. rewrite Z.ltb_lt.
  rewrite (as_u64_small (voting_length v * soft_fork_epochs v)) by (int_unfold; nia).
  rewrite as_u64_small by (int_unfold; nia).
  assert (0 <= voting_length v * soft_fork_epochs v * 9 / 10 <= U64_MAX / 10).
  { split; [apply Z.div_pos; nia|apply Z.div_le_mono; lia]. }
  generalize dependent (voting_length v * soft_fork_epochs v * 9 / 10). intros t Ht.
  change (U64_MAX / 10) with 1844674407370955161 in Ht.
  unfold as_i64. rewrite Z.mod_small; lia.
Qed.

Lemma voting_mainnet_ok : voting_ok voting_mainnet.
Proof. unfold voting_ok, U32_MAX, U64_MAX. cbn. lia. Qed.

End ChainConfig.
