(* ===== verification/VotingCodec.v ===== *)
(** * Extension and voting payloads

    The codecs of [chain/src/voting.rs]: extension sections, the parameter table
    they carry, and the validation-settings update under key 124. The VLQ integers
    of [sigma_ser] and the encoding of one [RuleStatus] are external code, an
    interface ([SigmaIO]) with the round-trip laws that code documents. *)

From S2P Require Import Prelude Vlq Frame ChainConfig.
Import Vlq Frame ChainConfig.

(** ** The serialization interface *)

(** [WriteSigmaVlqExt], [ReadSigmaVlqExt] and [RuleStatus]'s sigma serialization.
    A reader returns what it leaves unread. *)
Class SigmaIO (RuleStatus : Type) := {
  put_u32 : Z -> list Z;
  get_u32 : list Z -> option (Z * list Z);
  put_u16 : Z -> list Z;
  get_u16 : list Z -> option (Z * list Z);
  sigma_serialize : RuleStatus -> option (list Z);
  sigma_parse : list Z -> option (RuleStatus * list Z);
}.

(** What the node relies on: each reader inverts its writer and stops where the
    writer stopped, and a count takes at least one byte. *)
Class SigmaIOLaws (RuleStatus : Type) `{SigmaIO RuleStatus} : Prop := {
  get_put_u32 : forall v r, is_u32 v -> get_u32 (put_u32 v ++ r) = Some (v, r);
  get_put_u16 : forall v r, is_u16 v -> get_u16 (put_u16 v ++ r) = Some (v, r);
  put_u32_nonempty : forall v, put_u32 v <> [];
  parse_serialize : forall s bs r, sigma_serialize s = Some bs -> sigma_parse (bs ++ r) = Some (s, r);
}.

(** ** Codecs *)

Module VotingCodec.

Inductive voting_error :=
  | ParamWrongLength (id len : Z)
  | RulesCount
  | RuleIdAt (i : Z)
  | MayNotBeDisabled (rule : Z)
  | StatusCount
  | StatusIdAt (i : Z)
  | StatusAt (i : Z)
  | StatusIdBelowFirst (rule_id i : Z)
  | StatusEncode (i : Z)
  | BodyTooShort (n : Z)
  | FieldCount
  | FieldHeaderAt (i : Z)
  | FieldTooLong (i n : Z)
  | FieldValueAt (i : Z)
  | VotingLengthZero
  | VotesCollectedAbsent (height : Z)
  | BlockVersionMissing
  | UnknownParameter (id : Z)
  | ParameterAbsent (id : Z)
  | HdrVotesNumber (n : Z)
  | HdrVotesDuplicates (v : Z)
  | HdrVotesContradictory (v : Z).

(** Vote and parameter ids. *)
Definition SOFT_FORK_VOTE : Z := 120.
Definition PARAM_VOTES_COUNT : Z := 2.
Definition ID_SUBBLOCKS_PER_BLOCK : Z := 9.
Definition ID_SOFT_FORK_VOTES_COLLECTED : Z := 121.
Definition ID_SOFT_FORK_STARTING_HEIGHT : Z := 122.
Definition ID_BLOCK_VERSION : Z := 123.
Definition ID_SOFT_FORK_DISABLING_RULES : Z := 124.

(** [ExtensionField]: a two-byte key and a value. *)
Definition extension_field : Type := (Z * Z) * list Z.

(** [i32::to_be_bytes] and [i32::from_be_bytes]. *)
Definition i32_to_be_bytes (v : Z) : list Z := to_be_bytes (as_u32 v).
Definition i32_from_be_bytes (l : list Z) : Z := as_i32 (from_be_bytes l).

(** [parse_parameters_from_kv]. *)
Fixpoint parse_parameters_from_kv (kv : list extension_field) (out : gmap Z Z)
    : result voting_error (gmap Z Z) :=
  match kv with
  | [] => Ok out
  | ((k0, k1), value) :: kv' =>
      if negb (k0 =? 0) then parse_parameters_from_kv kv' out
      else
        let id := as_i8 k1 in
        if id =? ID_SOFT_FORK_DISABLING_RULES then parse_parameters_from_kv kv' out
        else if negb (Z.of_nat (length value) =? 4)
        then Err (ParamWrongLength id (Z.of_nat (length value)))
        else parse_parameters_from_kv kv' (<[id := i32_from_be_bytes value]> out)
  end.

(** [extract_disabling_rules_from_kv]. *)
Fixpoint extract_disabling_rules_from_kv (kv : list extension_field) : list Z :=
  match kv with
  | [] => []
  | ((k0, k1), value) :: kv' =>
      if (k0 =? 0) && (as_i8 k1 =? ID_SOFT_FORK_DISABLING_RULES) then value
      else extract_disabling_rules_from_kv kv'
  end.

(** [sort_by_key] on the signed id. *)
Definition id_le (a b : Z * Z) : Prop := a.1 <= b.1.

#[global] Instance id_le_dec a b : Decision (id_le a b).
Proof. unfold id_le. apply _. Defined.

(** [pack_parameters_to_kv]: the entries sorted by signed id. *)
Definition pack_parameters_to_kv (params : gmap Z Z) : list extension_field :=
  (fun e : Z * Z => ((0, as_u8 e.1), i32_to_be_bytes e.2)) <$>
  merge_sort id_le
    (filter (fun e : Z * Z => e.1 <> ID_SOFT_FORK_DISABLING_RULES) (map_to_list params)).

(** [rule_may_not_be_disabled]: the known rules that are mandatory. *)
Definition rule_may_not_be_disabled (id : Z) : bool :=
  let between a b := (a <=? id) && (id <=? b) in
  between 100 109 || between 112 117 || (id =? 119) || (id =? 122)
  || (id =? 200) || (id =? 201) || between 203 211 || (id =? 213) || (id =? 214) || (id =? 216)
  || between 300 305 || (id =? 307)
  || (id =? 403)
  || (id =? 500) || (id =? 501).

(** [FIRST_RULE_ID] of sigma-rust. *)
Definition FIRST_RULE_ID : Z := 1000.

Section Codec.
Context {RuleStatus : Type} `{SigmaIO RuleStatus}.

(** [ValidationSettingsUpdate] and its [Default]. *)
Record ValidationSettingsUpdate := mk_update {
  rules : list Z;
  statuses : list (Z * RuleStatus);
}.

Definition update_default : ValidationSettingsUpdate := mk_update [] [].

(** A declared count, as the JVM's [getUInt().toInt]: 2^31 and above read nothing. *)
Definition wrap_count (raw : Z) : nat := if I32_MAX <? raw then 0%nat else Z.to_nat raw.

Fixpoint read_rules (n : nat) (i : Z) (l : list Z) : result voting_error (list Z * list Z) :=
  match n with
  | O => Ok ([], l)
  | S n' =>
      let? (rule, l) := ok_or (get_u16 l) (RuleIdAt i) in
      let? (rs, l) := read_rules n' (i + 1) l in
      Ok (rule :: rs, l)
  end.

Fixpoint read_statuses (n : nat) (i : Z) (l : list Z)
    : result voting_error (list (Z * RuleStatus) * list Z) :=
  match n with
  | O => Ok ([], l)
  | S n' =>
      let? (offset, l) := ok_or (get_u16 l) (StatusIdAt i) in
      let rule_id := as_i16 (as_u16 (offset + FIRST_RULE_ID)) in
      let? (status, l) := ok_or (sigma_parse l) (StatusAt i) in
      let? (rest, l) := read_statuses n' (i + 1) l in
      Ok ((rule_id, status) :: rest, l)
  end.

(** [parse_validation_settings_update]: bytes after the last entry are ignored. *)
Definition parse_validation_settings_update (bytes : list Z)
    : result voting_error ValidationSettingsUpdate :=
  match bytes with
  | [] => Ok update_default
  | _ =>
      let? (raw_count, l) := ok_or (get_u32 bytes) RulesCount in
      let? (rs, l) := read_rules (wrap_count raw_count) 0 l in
      match List.find rule_may_not_be_disabled rs with
      | Some rule => Err (MayNotBeDisabled rule)
      | None =>
          let? (raw_status_count, l) := ok_or (get_u32 l) StatusCount in
          let? (ss, _) := read_statuses (wrap_count raw_status_count) 0 l in
          Ok (mk_update rs ss)
      end
  end.

Fixpoint write_statuses (i : Z) (ss : list (Z * RuleStatus)) : result voting_error (list Z) :=
  match ss with
  | [] => Ok []
  | (rule_id, status) :: ss' =>
      let offset := rule_id - FIRST_RULE_ID in
      if (offset <? 0) || (U16_MAX <? offset) then Err (StatusIdBelowFirst rule_id i)
      else
        let? bs := ok_or (sigma_serialize status) (StatusEncode i) in
        let? rest := write_statuses (i + 1) ss' in
        Ok (put_u16 offset ++ bs ++ rest)
  end.

(** [encode_validation_settings_update]. *)
Definition encode_validation_settings_update (u : ValidationSettingsUpdate)
    : result voting_error (list Z) :=
  let? ss := write_statuses 0 (statuses u) in
  Ok (put_u32 (as_u32 (Z.of_nat (length (rules u)))) ++ concat (put_u16 <$> rules u) ++
      put_u32 (as_u32 (Z.of_nat (length (statuses u)))) ++ ss).

(** [encode_disabled_rules] and [default_proposed_update_bytes]. *)
Definition encode_disabled_rules (rs : list Z) : list Z :=
  put_u32 (as_u32 (Z.of_nat (length rs))) ++ concat (put_u16 <$> rs) ++ put_u32 0.

Definition default_proposed_update_bytes (_ : Network) : list Z := encode_disabled_rules [215; 409].

(** The fields of an extension body. *)
Fixpoint read_fields (n : nat) (i : Z) (l : list Z) : result voting_error (list extension_field) :=
  match n with
  | O => Ok []
  | S n' =>
      match l with
      | k0 :: k1 :: value_len :: l' =>
          if 64 <? value_len then Err (FieldTooLong i value_len)
          else
            let? (value, l'') := ok_or (read_exact (Z.to_nat value_len) l') (FieldValueAt i) in
            let? rest := read_fields n' (i + 1) l'' in
            Ok (((k0, k1), value) :: rest)
      | _ => Err (FieldHeaderAt i)
      end
  end.

(** [parse_extension_bytes]. *)
Definition parse_extension_bytes (bytes : list Z)
    : result voting_error (list Z * list extension_field) :=
  let? (header_id, l) := ok_or (read_exact 32 bytes) (BodyTooShort (Z.of_nat (length bytes))) in
  let? (field_count, l) := ok_or (get_u32 l) FieldCount in
  let? fields := read_fields (Z.to_nat field_count) 0 l in
  Ok (header_id, fields).

(** [pack_extension_bytes]. *)
Definition pack_field (f : extension_field) : list Z :=
  [f.1.1; f.1.2; as_u8 (Z.of_nat (length f.2))] ++ f.2.

Definition pack_extension_bytes (header_id : list Z) (fields : list extension_field) : list Z :=
  header_id ++ put_u32 (as_u32 (Z.of_nat (length fields))) ++ concat (pack_field <$> fields).

End Codec.
Arguments ValidationSettingsUpdate : clear implicits.

(** ** Settings updates *)

Section CodecLemmas.
Context {RuleStatus : Type} `{SigmaIOLaws RuleStatus}.

Lemma read_rules_put rs i r :
  Forall is_u16 rs -> read_rules (length rs) i (concat (put_u16 <$> rs) ++ r) = Ok (rs, r).
Proof.
  intros Hf. revert i. induction Hf as [|x rs Hx Hf IH]; intros i; [done|].
  cbn [length read_rules fmap list_fmap concat]. rewrite <- app_assoc, get_put_u16 by done.
  cbn [ok_or result_bind]. by rewrite IH.
Qed.

(** A status whose rule id is an [i16]. *)
Definition status_ok (s : Z * RuleStatus) : Prop := - 32768 <= s.1 <= 32767.

Lemma status_id_wrap offset :
  0 <= offset -> offset + FIRST_RULE_ID <= 32767 ->
  as_i16 (as_u16 (offset + FIRST_RULE_ID)) = offset + FIRST_RULE_ID.
Proof. intros. unfold FIRST_RULE_ID in *. int_solve. Qed.

Lemma read_write_statuses ss i j bs r :
  Forall status_ok ss -> write_statuses i ss = Ok bs ->
  read_statuses (length ss) j (bs ++ r) = Ok (ss, r).
Proof.
  intros Hf. revert i j bs. induction Hf as [|[id s] ss Hx Hf IH]; intros i j bs Hw; cbn in Hw.
  { by simplify_eq. }
  unfold status_ok in Hx. cbn in Hx.
  destruct (Z.ltb_spec (id - FIRST_RULE_ID) 0); [done|].
  destruct (Z.ltb_spec U16_MAX (id - FIRST_RULE_ID)); [done|]. cbn in Hw.
  destruct (sigma_serialize s) as [sb|] eqn:Es; [|done]. cbn in Hw.
  destruct (write_statuses (i + 1) ss) as [rest|] eqn:Er; [|done]. cbn in Hw. simplify_eq.
  cbn [length read_statuses]. rewrite <- !app_assoc.
  rewrite get_put_u16 by (unfold is_u16; lia). cbn [ok_or result_bind].
  rewrite status_id_wrap by (unfold FIRST_RULE_ID in *; lia).
  rewrite (parse_serialize _ _ _ Es). cbn [ok_or result_bind].
  rewrite (IH _ _ _ Er). cbn [result_bind].
  by replace (id - FIRST_RULE_ID + FIRST_RULE_ID) with id by lia.
Qed.

Lemma find_none_forall rs :
  Forall (fun r => rule_may_not_be_disabled r = false) rs ->
  List.find rule_may_not_be_disabled rs = None.
Proof. induction 1 as [|x rs Hx _ IH]; cbn; [done|]. by rewrite Hx. Qed.

Lemma wrap_count_length {A} (l : list A) :
  Z.of_nat (length l) <= I32_MAX -> wrap_count (as_u32 (Z.of_nat (length l))) = length l.
Proof.
  intros Hl. rewrite as_u32_small by (int_unfold; lia). unfold wrap_count.
  destruct (Z.ltb_spec I32_MAX (Z.of_nat (length l))); lia.
Qed.

(** An update the node may carry: disableable [u16] rules and [i16] status ids, in
    lists whose counts the wire format can express. *)
Record update_ok (u : ValidationSettingsUpdate RuleStatus) : Prop := {
  uo_rules : Forall is_u16 (rules u);
  uo_disableable : Forall (fun r => rule_may_not_be_disabled r = false) (rules u);
  uo_statuses : Forall status_ok (statuses u);
  uo_rules_len : Z.of_nat (length (rules u)) <= I32_MAX;
  uo_statuses_len : Z.of_nat (length (statuses u)) <= I32_MAX;
}.

Lemma parse_encode_update u bs garbage :
  update_ok u -> encode_validation_settings_update u = Ok bs ->
  parse_validation_settings_update (bs ++ garbage) = Ok u.
Proof.
  intros [Hr Hd Hs Hrl Hsl] He. destruct u as [rs ss]. cbn in *.
  unfold encode_validation_settings_update in He. cbn in He.
  destruct (write_statuses 0 ss) as [sb|] eqn:Ew; [|done]. cbn in He. simplify_eq.
  unfold parse_validation_settings_update.
  destruct ((put_u32 _ ++ _) ++ garbage) as [|b0 bytes] eqn:Eb.
  { apply app_nil in Eb as [Eb _]. apply app_nil in Eb as [Eb _]. by apply put_u32_nonempty in Eb. }
  rewrite <- Eb, <- !app_assoc. clear Eb b0 bytes.
  rewrite get_put_u32 by apply as_u32_range. cbn [ok_or result_bind].
  rewrite wrap_count_length, read_rules_put by done. cbn [result_bind].
  rewrite find_none_forall by done. rewrite get_put_u32 by apply as_u32_range. cbn [ok_or result_bind].
  rewrite wrap_count_length by done. by rewrite (read_write_statuses _ _ _ _ _ Hs Ew).
Qed.

(** A validation-settings update that can be encoded is parsed back from its
    encoding, whatever bytes follow it; and a rules-only encoding is the encoding
    of the update with those rules and no status. *)
Theorem settings_update_roundtrip u bs garbage :
  update_ok u -> encode_validation_settings_update u = Ok bs ->
  parse_validation_settings_update (bs ++ garbage) = Ok u /\
  encode_validation_settings_update (mk_update (rules u) []) = Ok (encode_disabled_rules (rules u)).
Proof.
  intros Hu He. split; [by apply parse_encode_update|].
  unfold encode_validation_settings_update, encode_disabled_rules. cbn. by rewrite app_nil_r.
Qed.

(** ** Extensions *)

(** A field of the wire format: byte keys and a value of at most 64 bytes. *)
Definition field_ok (f : extension_field) : Prop := (length f.2 <= 64)%nat.

Lemma read_pack_fields fields i :
  Forall field_ok fields ->
  read_fields (length fields) i (concat (pack_field <$> fields)) = Ok fields.
Proof.
  intros Hf. revert i. induction Hf as [|[[k0 k1] v] fields Hx Hf IH]; intros i; [done|].
  unfold field_ok in Hx. cbn [snd] in Hx. cbn [length fmap list_fmap concat].
  unfold pack_field at 1. cbn [fst snd]. rewrite <- app_assoc. cbn [app read_fields].
  assert (as_u8 (Z.of_nat (length v)) = Z.of_nat (length v)) as ->.
  { unfold as_u8. apply Z.mod_small. lia. }
  destruct (Z.ltb_spec 64 (Z.of_nat (length v))); [lia|].
  rewrite Nat2Z.id, read_exact_app. cbn [ok_or result_bind]. by rewrite IH.
Qed.

(** Unpacking a packed extension gives the header id and the fields back, for
    every list of fields whose values are within the 64 bytes the format allows. *)
Theorem extension_roundtrip header_id fields :
  length header_id = 32%nat -> Forall field_ok fields -> Z.of_nat (length fields) <= U32_MAX ->
  parse_extension_bytes (pack_extension_bytes header_id fields) = Ok (header_id, fields).
Proof.
  intros Hh Hf Hl. unfold parse_extension_bytes, pack_extension_bytes.
  rewrite read_exact_app_n by done. cbn [ok_or result_bind].
  rewrite get_put_u32 by apply as_u32_range. cbn [ok_or result_bind].
  rewrite as_u32_small by (int_unfold; lia). rewrite Nat2Z.id.
  by rewrite read_pack_fields.
Qed.

End CodecLemmas.

(** ** Parameter tables *)

Lemma i32_be_roundtrip v : is_i32 v -> i32_from_be_bytes (i32_to_be_bytes v) = v.
Proof.
  intros Hv. unfold i32_from_be_bytes, i32_to_be_bytes.
  rewrite from_to_be_bytes by apply as_u32_range. int_solve.
Qed.

Lemma i8_roundtrip v : -128 <= v <= 127 -> as_i8 (as_u8 v) = v.
Proof. intros. int_solve. Qed.

(** A table as the node holds it: [i8] ids and [i32] values. *)
Definition table_typed (params : gmap Z Z) : Prop :=
  forall id v, params !! id = Some v -> -128 <= id <= 127 /\ is_i32 v.

Lemma parse_pack_entries (es : list (Z * Z)) out :
  Forall (fun e => -128 <= e.1 <= 127 /\ is_i32 e.2 /\ e.1 <> ID_SOFT_FORK_DISABLING_RULES) es ->
  parse_parameters_from_kv ((fun e : Z * Z => ((0, as_u8 e.1), i32_to_be_bytes e.2)) <$> es) out =
  Ok (foldl (fun m e => <[e.1 := e.2]> m) out es).
Proof.
  intros Hf. revert out. induction Hf as [|[id v] es (Hid & Hv & Hne) Hf IH]; intros out; [done|].
  cbn [fst snd] in *. cbn [fmap list_fmap parse_parameters_from_kv fst snd]. cbn [Z.eqb negb].
  rewrite i8_roundtrip by done. rewrite (proj2 (Z.eqb_neq _ _) Hne).
  unfold i32_to_be_bytes at 1. rewrite to_be_bytes_length. cbn [Z.of_nat Z.eqb negb].
  change (negb _) with false. cbn iota. rewrite i32_be_roundtrip by done. by rewrite IH.
Qed.

(** Parsing a packed parameter table gives the table back, less the entry under
    key 124, which is not a parameter; and the packed fields are in ascending order
    of their ids, so every node packs a table to the same bytes. *)
Theorem parameters_roundtrip params :
  table_typed params ->
  parse_parameters_from_kv (pack_parameters_to_kv params) ∅ =
    Ok (delete ID_SOFT_FORK_DISABLING_RULES params) /\
  Sorted (fun f g : extension_field => as_i8 f.1.2 <= as_i8 g.1.2) (pack_parameters_to_kv params).
Proof.
  intros Ht. unfold pack_parameters_to_kv.
  set (fs := filter _ _). set (es := merge_sort _ fs).
  assert (Hp : es ≡ₚ fs) by apply merge_sort_Permutation.
  assert (Hes : forall e, e ∈ es <-> params !! e.1 = Some e.2 /\ e.1 <> ID_SOFT_FORK_DISABLING_RULES).
  { intros [id v]. rewrite Hp. unfold fs. rewrite list_elem_of_filter, elem_of_map_to_list. cbn. tauto. }
  assert (Hf : Forall (fun e : Z * Z => -128 <= e.1 <= 127 /\ is_i32 e.2 /\
      e.1 <> ID_SOFT_FORK_DISABLING_RULES) es).
  { apply Forall_forall. intros e [He Hne]%Hes. destruct (Ht _ _ He). done. }
  split.
  - rewrite parse_pack_entries by done. f_equal. apply map_eq. intros id.
    assert (Hnd : NoDup es.*1).
    { rewrite Hp. apply NoDup_fmap_fst; [|apply NoDup_filter, NoDup_map_to_list].
      intros x y1 y2. unfold fs. rewrite !list_elem_of_filter, !elem_of_map_to_list. intros [] [].
      congruence. }
    rewrite foldl_insert_lookup by done. rewrite lookup_empty.
    destruct (decide (id = ID_SOFT_FORK_DISABLING_RULES)) as [->|Hne].
    + rewrite lookup_delete_eq. rewrite not_elem_of_list_to_map_1; [done|].
      intros ([id v] & Heq & [_ Hne]%Hes)%list_elem_of_fmap. by symmetry in Heq.
    + rewrite lookup_delete_ne by done. destruct (params !! id) as [v|] eqn:Ev.
      * rewrite (elem_of_list_to_map_1 es id v); [done|done|]. by apply Hes.
      * rewrite not_elem_of_list_to_map_1; [done|].
        intros ([id' v] & Heq & [He _]%Hes)%list_elem_of_fmap. cbn in *. congruence.
  - assert (Hs : Sorted id_le es).
    { apply Sorted_merge_sort. intros x y. unfold id_le. lia. }
    clearbody es. clear -Hs Hf. induction Hs as [|e es Hs IH Hd]; [constructor|].
    inversion Hf as [|? ? (He & _) Hf']; subst. constructor; [by apply IH|].
    destruct Hd as [|e' es' Hle]; [constructor|]. constructor. cbn.
    inversion Hf' as [|? ? (He' & _) _]; subst. by rewrite !i8_roundtrip.
Qed.

(** ** An implementation of the interface

    The [u64] VLQ of [p2p/src/transport/vlq.rs] with a range check, and statuses of
    one byte: the interface's laws can all hold. *)

Definition get_checked (max : Z) (l : list Z) : option (Z * list Z) :=
  match read_vlq l with
  | Ok (v, r) => if v <=? max then Some (v, r) else None
  | Err _ => None
  end.

#[global] Instance vlq_io : SigmaIO Z := {
  put_u32 v := write_vlq [] v;
  get_u32 l := get_checked U32_MAX l;
  put_u16 v := write_vlq [] v;
  get_u16 l := get_checked U16_MAX l;
  sigma_serialize s := Some [s];
  sigma_parse l := match l with s :: r => Some (s, r) | [] => None end;
}.

#[global] Instance vlq_io_laws : SigmaIOLaws Z.
Proof.
  assert (Hget : forall max v r, max <= U64_MAX -> 0 <= v <= max ->
    get_checked max (write_vlq [] v ++ r) = Some (v, r)).
  { intros max v r Hm Hv. unfold get_checked. rewrite read_vlq_write by (unfold is_u64; lia).
    by rewrite (proj2 (Z.leb_le v max)) by lia. }
  split.
  - intros v r Hv. apply Hget; int_unfold; lia.
  - intros v r Hv. apply Hget; int_unfold; lia.
  - intros v E. change (write_vlq_loop 10 v = []) in E. pose proof (write_vlq_loop_length 10 v ltac:(lia)) as Hl.
    rewrite E in Hl. cbn in Hl. lia.
  - intros s bs r [= <-]. done.
Qed.

Lemma settings_update_roundtrip_witness :
  exists bs, encode_validation_settings_update (mk_update [215; 409] [(1007, 3)]) = Ok bs /\
    parse_validation_settings_update (bs ++ [255; 255]) = Ok (mk_update [215; 409] [(1007, 3)]).
Proof.
  eexists. split; [vm_compute; reflexivity|].
  apply (settings_update_roundtrip (mk_update [215; 409] [(1007, 3)]) _ [255; 255]).
  - split; cbn; repeat constructor; unfold is_u16, status_ok, U16_MAX; cbn; try lia;
      vm_compute; discriminate.
  - vm_compute. reflexivity.
Defined.

Lemma extension_roundtrip_witness :
  parse_extension_bytes (pack_extension_bytes (replicate 32 5) [((0, 1), [0; 0; 1; 2]); ((0, 124), [])])
  = Ok (replicate 32 5, [((0, 1), [0; 0; 1; 2]); ((0, 124), [])]).
Proof.
  apply (extension_roundtrip (RuleStatus := Z)).
  - reflexivity.
  - repeat constructor; unfold field_ok; cbn; lia.
  - unfold U32_MAX. cbn. lia.
Defined.

Lemma parameters_roundtrip_witness :
  parse_parameters_from_kv (pack_parameters_to_kv {[ 123 := 2; 3 := 524288; 124 := 0 ]}) ∅ =
  Ok (delete ID_SOFT_FORK_DISABLING_RULES {[ 123 := 2; 3 := 524288; 124 := 0 ]}).
Proof.
  apply (parameters_roundtrip {[ 123 := 2; 3 := 524288; 124 := 0 ]}).
  intros id v Hv. unfold is_i32, I32_MAX.
  apply lookup_insert_Some in Hv as [[<- <-]|[_ Hv]]; [lia|].
  apply lookup_insert_Some in Hv as [[<- <-]|[_ Hv]]; [lia|].
  apply lookup_singleton_Some in Hv as [<- <-]. lia.
Defined.

End VotingCodec.
