(* ===== verification/Voting.v ===== *)
(** * Soft-fork voting

    The state machine of [chain/src/voting.rs]: the tally of an epoch, the parameter
    table an epoch boundary must emit, and the vote checks on headers. A parameter
    table maps numeric parameter ids to [i32] values. *)

From S2P Require Import Prelude ChainConfig VotingCodec.
Import ChainConfig VotingCodec.

Module Voting.

(** ** Parameters *)

Definition StorageFeeFactor : Z := 1.
Definition MinValuePerByte : Z := 2.
Definition MaxBlockSize : Z := 3.
Definition MaxBlockCost : Z := 4.
Definition TokenAccessCost : Z := 5.
Definition InputCost : Z := 6.
Definition DataInputCost : Z := 7.
Definition OutputCost : Z := 8.
Definition SubblocksPerBlock : Z := ID_SUBBLOCKS_PER_BLOCK.
Definition SoftForkVotesCollected : Z := ID_SOFT_FORK_VOTES_COLLECTED.
Definition SoftForkStartingHeight : Z := ID_SOFT_FORK_STARTING_HEIGHT.
Definition BlockVersion : Z := ID_BLOCK_VERSION.

Abbreviation table := (gmap Z Z).

(** [id.unsigned_abs() as i8]. *)
Definition abs_i8 (id : Z) : Z := as_i8 (Z.abs id).

Definition parameter_step (id : Z) : option Z :=
  match abs_i8 id with
  | 1 => Some 25000
  | 2 => Some 10
  | 9 => Some 1
  | _ => None
  end.

Definition parameter_min (id : Z) : option Z :=
  match abs_i8 id with
  | 1 | 2 => Some 0
  | 3 | 4 => Some (16 * 1024)
  | 5 | 6 | 7 | 8 => Some 0
  | 9 => Some 2
  | _ => None
  end.

Definition parameter_max (id : Z) : option Z :=
  match abs_i8 id with
  | 1 => Some 2500000
  | 2 => Some 10000
  | 9 => Some 2048
  | 3 | 4 | 5 | 6 | 7 | 8 => Some (I32_MAX / 2)
  | _ => None
  end.

(** [ordinary_param]. *)
Definition ordinary_param (id : Z) : option Z :=
  match abs_i8 id with
  | 1 => Some StorageFeeFactor
  | 2 => Some MinValuePerByte
  | 3 => Some MaxBlockSize
  | 4 => Some MaxBlockCost
  | 5 => Some TokenAccessCost
  | 6 => Some InputCost
  | 7 => Some DataInputCost
  | 8 => Some OutputCost
  | 9 => Some SubblocksPerBlock
  | _ => None
  end.

Definition SUBBLOCKS_PER_BLOCK_DEFAULT : Z := 30.

(** [default_parameters]. *)
Definition default_parameters (n : Network) : table :=
  let block_version := match n with Mainnet => 1 | Testnet => 4 end in
  let params : table :=
    {[ BlockVersion := block_version; StorageFeeFactor := 1250000; MinValuePerByte := 360;
       MaxBlockSize := 524288; MaxBlockCost := 1000000; TokenAccessCost := 100;
       InputCost := 2000; DataInputCost := 100; OutputCost := 100 ]} in
  match n with
  | Testnet => <[SubblocksPerBlock := SUBBLOCKS_PER_BLOCK_DEFAULT]> params
  | Mainnet => params
  end.

(** ** The tally *)

Definition votes : Type := Z * Z * Z.
Definition slots (v : votes) : list Z := let '(a, b, c) := v in [a; b; c].

(** The inner loops: one slot increments every entry with its id. *)
Definition bump (tally : list (Z * Z)) (slot : Z) : list (Z * Z) :=
  if slot =? 0 then tally
  else (fun e : Z * Z => if e.1 =? as_i8 slot then (e.1, add_u32 e.2 1) else e) <$> tally.

(** [tally_votes_seeded]. *)
Definition tally_votes_seeded (window : list (Z * votes)) (boundary_height voting_length : Z)
    : list (Z * Z) :=
  match window with
  | [] => []
  | (seed_height, seed_votes) :: rest =>
      if bool_decide (checked_sub boundary_height voting_length = Some seed_height)
      then
        let seeded := (fun slot => (as_i8 slot, 1)) <$> filter (fun s => s <> 0) (slots seed_votes) in
        fold_left (fun tally e => fold_left bump (slots e.2) tally) rest seeded
      else []
  end.

(** ** The epoch boundary *)

(** [votes_in_prev_epoch]: the first entry for the soft-fork vote. *)
Definition votes_in_prev_epoch (tally : list (Z * Z)) : Z :=
  match List.find (fun e : Z * Z => e.1 =? SOFT_FORK_VOTE) tally with
  | Some (_, count) => count
  | None => 0
  end.

(** The lazy [votes]: forcing it without an entry 121 is an error. *)
Definition force_votes (boundary_height prev : Z) (collected : option Z) : result voting_error Z :=
  ok_or ((fun c => as_i32 (as_i32 prev + c)) <$> collected) (VotesCollectedAbsent boundary_height).

Definition clear_round (t : table) : table :=
  delete SoftForkVotesCollected (delete SoftForkStartingHeight t).

Definition start_round (boundary_height : Z) (t : table) : table :=
  <[SoftForkVotesCollected := 0]> (<[SoftForkStartingHeight := as_i32 boundary_height]> t).

(** A guard [h == at && test(force_votes()?)], which forces only at that height. *)
Definition at_height (h at_ : Z) (force : result voting_error Z) (test : Z -> bool)
    : result voting_error bool :=
  if h =? at_ then (let? v := force in Ok (test v)) else Ok false.

(** The [updateFork] part of [compute_boundary_parameters]: the table and whether the
    proposed update was activated. Every condition reads [current]. *)
Definition update_fork (voting : VotingConfig) (boundary_height : Z) (current : table)
    (tally : list (Z * Z)) (boundary_fork_vote : bool) : result voting_error (table * bool) :=
  let h := boundary_height in
  let l := voting_length voting in
  let ve := soft_fork_epochs voting in
  let ae := activation_epochs voting in
  match current !! SoftForkStartingHeight with
  | Some start =>
      let force := force_votes h (votes_in_prev_epoch tally) (current !! SoftForkVotesCollected) in
      let approved := soft_fork_approved voting in
      let mid_end := start + l * ve in
      let activation := start + l * (ve + ae) in
      let cleanup_fail := start + l * (ve + 1) in
      let cleanup_success := start + l * (ve + ae + 1) in
      let? success := at_height h cleanup_success force approved in
      let t1 := if success then clear_round current else current in
      let? failed := at_height h cleanup_fail force (fun v => negb (approved v)) in
      let t2 := if failed then clear_round t1 else t1 in
      let? restart :=
        (if boundary_fork_vote then
           if h =? cleanup_success then Ok true
           else at_height h cleanup_fail force (fun v => negb (approved v))
         else Ok false) in
      let t3 := if restart then start_round h t2 else t2 in
      let? t4 :=
        (if h <=? mid_end then
           let? v := force in Ok (<[SoftForkVotesCollected := v]> t3)
         else Ok t3) in
      let? activate := at_height h activation force approved in
      if activate then
        let? bv := ok_or (t4 !! BlockVersion) BlockVersionMissing in
        Ok (<[BlockVersion := as_i32 (bv + 1)]> t4, true)
      else Ok (t4, false)
  | None =>
      if boundary_fork_vote && (h mod l =? 0) then Ok (start_round h current, false)
      else Ok (current, false)
  end.

(** The forced version 2 of the mainnet hard fork. *)
Definition force_version2 (voting : VotingConfig) (boundary_height : Z) (t : table)
    : result voting_error table :=
  if boundary_height =? version2_activation_height voting then
    let? bv := ok_or (t !! BlockVersion) BlockVersionMissing in
    Ok (if bv =? 1 then <[BlockVersion := 2]> t else t)
  else Ok t.

(** One step of an ordinary parameter. *)
Definition step_value (signed_id current_value : Z) : Z :=
  let min := default 0 (parameter_min signed_id) in
  let max := default (I32_MAX / 2) (parameter_max signed_id) in
  let step := default (Z.max 1 (Z.quot current_value 100)) (parameter_step signed_id) in
  if 0 <? signed_id then
    if current_value <? max then add_i32 current_value step else current_value
  else
    if min <? current_value then sub_i32 current_value step else current_value.

(** The [updateParams] loop: values are read from the snapshot [base]. *)
Fixpoint update_params (voting : VotingConfig) (base : table) (tally : list (Z * Z)) (t : table)
    : result voting_error table :=
  match tally with
  | [] => Ok t
  | (signed_id, count) :: tally' =>
      if SOFT_FORK_VOTE <=? signed_id then update_params voting base tally' t
      else if negb (change_approved voting count) then update_params voting base tally' t
      else
        let? param := ok_or (ordinary_param signed_id) (UnknownParameter signed_id) in
        let? current_value := ok_or (base !! param) (ParameterAbsent signed_id) in
        update_params voting base tally' (<[param := step_value signed_id current_value]> t)
  end.

Section Boundary.
Context {RuleStatus : Type} `{SigmaIO RuleStatus}.

(** [compute_boundary_parameters]. *)
Definition compute_boundary_parameters (voting : VotingConfig) (boundary_height : Z)
    (current : table) (tally : list (Z * Z)) (boundary_fork_vote : bool)
    (proposed_update : list Z)
    : result voting_error (table * ValidationSettingsUpdate RuleStatus) :=
  let? parsed_update := parse_validation_settings_update proposed_update in
  if voting_length voting =? 0 then Err VotingLengthZero
  else
    let? (t1, activated) := update_fork voting boundary_height current tally boundary_fork_vote in
    let? t2 := force_version2 voting boundary_height t1 in
    let? t3 := update_params voting t2 tally t2 in
    let activated_update := if activated : bool then parsed_update else update_default in
    let bv_now := default (-1) (t3 !! BlockVersion) in
    let t4 :=
      if (bv_now =? 4) && negb (bool_decide (is_Some (t3 !! SubblocksPerBlock)))
         && negb (bool_decide (409 ∈ rules activated_update))
      then <[SubblocksPerBlock := SUBBLOCKS_PER_BLOCK_DEFAULT]> t3 else t3 in
    Ok (t4, activated_update).

End Boundary.

(** ** Header checks *)

(** [check_fork_vote]. *)
Definition check_fork_vote (voting : VotingConfig) (header_height : Z) (header_votes : votes)
    (current : table) : result voting_error bool :=
  if negb (bool_decide (SOFT_FORK_VOTE ∈ slots header_votes)) then Ok true
  else
    match current !! SoftForkStartingHeight with
    | None => Ok true
    | Some start =>
        let? collected := ok_or (current !! SoftForkVotesCollected)
                                (VotesCollectedAbsent header_height) in
        let approved := soft_fork_approved voting collected in
        let h := header_height in
        let l := voting_length voting in
        let finishing := start + l * soft_fork_epochs voting in
        let after_activation := finishing + l * (activation_epochs voting + 1) in
        if ((finishing <=? h) && (h <? finishing + l) && negb approved)
           || ((finishing <=? h) && (h <? after_activation) && approved)
        then Ok false else Ok true
    end.

(** The per-element loop of [check_header_votes]. *)
Fixpoint check_votes_loop (vs rest : list Z) : result voting_error unit :=
  match rest with
  | [] => Ok tt
  | v :: rest' =>
      if negb (length (filter (fun x => x = v) vs) =? 1)%nat then Err (HdrVotesDuplicates v)
      else if bool_decide (as_i8 (- v) ∈ vs) then Err (HdrVotesContradictory v)
      else check_votes_loop vs rest'
  end.

(** [check_header_votes]. *)
Definition check_header_votes (v : votes) : result voting_error unit :=
  let vs := as_i8 <$> filter (fun b => b <> 0) (slots v) in
  let votes_count := Z.of_nat (length (filter (fun x => x <> SOFT_FORK_VOTE) vs)) in
  if PARAM_VOTES_COUNT <? votes_count then Err (HdrVotesNumber votes_count)
  else check_votes_loop vs vs.

(** ** The tally counts votes for seeded ids *)

(** A slot that votes for [id], and the number of such slots. *)
Definition vote_is (id s : Z) : Prop := s <> 0 /\ as_i8 s = id.

#[global] Instance vote_is_dec id s : Decision (vote_is id s).
Proof. unfold vote_is. apply _. Defined.

Definition count_slots (id : Z) (ss : list Z) : nat := length (filter (vote_is id) ss).

Definition window_slots (window : list (Z * votes)) : list Z :=
  concat ((fun e => slots e.2) <$> window).

Lemma count_slots_cons id s ss :
  count_slots id (s :: ss) = ((if decide (vote_is id s) then 1 else 0) + count_slots id ss)%nat.
Proof. unfold count_slots. rewrite filter_cons. by case_decide. Qed.

Lemma bump_fold ss tally :
  (forall id n, (id, n) ∈ tally -> 0 <= n /\ n + Z.of_nat (length ss) <= U32_MAX) ->
  fold_left bump ss tally =
  (fun e : Z * Z => (e.1, e.2 + Z.of_nat (count_slots e.1 ss))) <$> tally.
Proof.
  revert tally. induction ss as [|s ss IH]; intros tally Hb; cbn [fold_left].
  - rewrite <- (list_fmap_id tally) at 1. apply list_fmap_ext. intros _ [id n] _. cbn. f_equal. lia.
  - assert (Hstep : bump tally s = (fun e : Z * Z =>
        (e.1, e.2 + Z.of_nat (if decide (vote_is e.1 s) then 1 else 0)%nat)) <$> tally).
    { unfold bump. destruct (Z.eqb_spec s 0) as [->|Hs].
      - rewrite <- (list_fmap_id tally) at 1. apply list_fmap_ext. intros _ [id n] _. cbn.
        rewrite decide_False by (unfold vote_is; naive_solver). f_equal. lia.
      - apply list_fmap_ext. intros i [id n] Hi. cbn. apply list_elem_of_lookup_2 in Hi.
        specialize (Hb _ _ Hi). cbn [length] in Hb.
        destruct (Z.eqb_spec id (as_i8 s)) as [->|Hne].
        + rewrite decide_True by done. unfold add_u32. rewrite as_u32_small by (unfold is_u32; lia).
          f_equal.
        + rewrite decide_False by (unfold vote_is; naive_solver). f_equal. lia. }
    rewrite Hstep, IH.
    + rewrite <- list_fmap_compose. apply list_fmap_ext. intros _ [id n] _. unfold compose. cbn [fst snd].
      rewrite count_slots_cons. f_equal. lia.
    + intros id n ([id' n'] & [= -> ->] & Hin)%list_elem_of_fmap. specialize (Hb _ _ Hin).
      cbn [length] in Hb. case_decide; lia.
Qed.

Lemma fold_window window tally :
  fold_left (fun t (e : Z * votes) => fold_left bump (slots e.2) t) window tally =
  fold_left bump (window_slots window) tally.
Proof.
  revert tally. induction window as [|[h v] window IH]; intros tally; [done|].
  unfold window_slots. cbn [fold_left fmap list_fmap concat snd]. by rewrite fold_left_app, IH.
Qed.

Lemma window_slots_length (window : list (Z * votes)) :
  length (window_slots window) = (3 * length window)%nat.
Proof.
  unfold window_slots. induction window as [|[h [[a b] c]] window IH]; [done|].
  cbn [fmap list_fmap concat snd slots length]. rewrite length_app, IH. cbn [length]. lia.
Qed.

(** The tally of an epoch that starts at the previous boundary has one entry for
    each non-zero slot of the boundary header, in slot order, and its count is one
    plus the number of later slots of the epoch that vote for the same signed id;
    any other window tallies nothing. *)
Theorem tally_correct seed_height seed rest T L :
  0 <= L -> 3 * Z.of_nat (length rest) < U32_MAX ->
  tally_votes_seeded ((seed_height, seed) :: rest) T L =
  if decide (L <= T /\ seed_height = T - L)
  then (fun s => (as_i8 s, 1 + Z.of_nat (count_slots (as_i8 s) (window_slots rest))))
       <$> filter (fun s => s <> 0) (slots seed)
  else [].
Proof.
  intros HL Hlen. cbn [tally_votes_seeded]. unfold checked_sub.
  case_bool_decide as Hc; case_decide as Hd; try done.
  - rewrite fold_window, bump_fold.
    + rewrite <- list_fmap_compose. done.
    + intros id n (s & [= -> ->] & _)%list_elem_of_fmap. rewrite window_slots_length. lia.
  - exfalso. apply Hd. destruct (Z.ltb_spec T L); [done|]. simplify_eq. lia.
  - exfalso. apply Hc. destruct Hd as [Hle ->]. by destruct (Z.ltb_spec T L); [lia|].
Qed.

Lemma tally_correct_witness :
  tally_votes_seeded [(1024, (1, 0, 120)); (1025, (1, 2, 0)); (1026, (0, 120, 1))] 2048 1024
  = [(1, 3); (120, 2)].
Proof.
  etransitivity; [apply (tally_correct 1024 (1, 0, 120) [(1025, (1, 2, 0)); (1026, (0, 120, 1))] 2048 1024)|].
  - lia.
  - unfold U32_MAX. cbn. lia.
  - vm_compute. reflexivity.
Defined.

(** ** The soft-fork round *)

(** The round a table records: its starting height and the votes collected. *)
Definition round_of (t : table) : option (Z * Z) :=
  match t !! SoftForkStartingHeight, t !! SoftForkVotesCollected with
  | Some s, Some c => Some (s, c)
  | _, _ => None
  end.

(** Entries 121 and 122 come and go together. *)
Definition coherent (t : table) : Prop :=
  is_Some (t !! SoftForkStartingHeight) <-> is_Some (t !! SoftForkVotesCollected).

(** What a boundary does to the round. *)
Definition fork_spec (v : VotingConfig) (h : Z) (fork_vote : bool) (prev : Z)
    (round : option (Z * Z)) : option (Z * Z) :=
  let l := voting_length v in
  match round with
  | None => if fork_vote && (h mod l =? 0) then Some (h, 0) else None
  | Some (start, c) =>
      let total := as_i32 (as_i32 prev + c) in
      let approved := soft_fork_approved v total in
      let cleanup_fail := start + l * (soft_fork_epochs v + 1) in
      let cleanup_success := start + l * (soft_fork_epochs v + activation_epochs v + 1) in
      if h <=? start + l * soft_fork_epochs v then Some (start, total)
      else if ((h =? cleanup_fail) && negb approved)
              || ((h =? cleanup_success) && (approved || fork_vote))
      then if fork_vote then Some (h, 0) else None
      else Some (start, c)
  end.

(** Whether a boundary activates the fork. *)
Definition activates (v : VotingConfig) (h prev : Z) (round : option (Z * Z)) : bool :=
  match round with
  | None => false
  | Some (start, c) =>
      (h =? start + voting_length v * (soft_fork_epochs v + activation_epochs v))
      && soft_fork_approved v (as_i32 (as_i32 prev + c))
  end.

Lemma round_of_start h t : round_of (start_round h t) = Some (as_i32 h, 0).
Proof.
  unfold round_of, start_round. by rewrite lookup_insert_ne, !lookup_insert_eq by done.
Qed.

Lemma start_round_lookup h t id :
  id <> SoftForkVotesCollected -> id <> SoftForkStartingHeight -> start_round h t !! id = t !! id.
Proof. intros. unfold start_round. by rewrite !lookup_insert_ne by done. Qed.

Lemma clear_round_lookup t id :
  id <> SoftForkVotesCollected -> id <> SoftForkStartingHeight -> clear_round t !! id = t !! id.
Proof. intros. unfold clear_round. by rewrite !lookup_delete_ne by done. Qed.

Lemma clear_round_empty t :
  clear_round t !! SoftForkStartingHeight = None /\ clear_round t !! SoftForkVotesCollected = None.
Proof.
  unfold clear_round. rewrite lookup_delete_eq, lookup_delete_ne by done.
  by rewrite lookup_delete_eq.
Qed.

Lemma at_height_Ok h a v test : at_height h a (Ok v) test = Ok ((h =? a) && test v).
Proof. unfold at_height. by destruct (h =? a). Qed.

Lemma coherent_round t :
  coherent t -> t !! SoftForkStartingHeight = None -> t !! SoftForkVotesCollected = None.
Proof.
  intros Hc Hs. destruct (t !! SoftForkVotesCollected) eqn:E; [|done].
  destruct (proj2 Hc) as [x Hx]; [eauto|]. congruence.
Qed.

(** What [update_fork] leaves in a table. *)
Record fork_result (v : VotingConfig) (h prev : Z) (fork_vote : bool) (bv : Z)
    (current t' : table) : Prop := {
  fr_round : round_of t' = fork_spec v h fork_vote prev (round_of current);
  fr_coherent : coherent t';
  fr_version : t' !! BlockVersion =
    Some (if activates v h prev (round_of current) then as_i32 (bv + 1) else bv);
  fr_other : forall id, id <> SoftForkVotesCollected -> id <> SoftForkStartingHeight ->
    id <> BlockVersion -> t' !! id = current !! id;
}.

Lemma round_of_Some t s c :
  t !! SoftForkStartingHeight = Some s -> t !! SoftForkVotesCollected = Some c ->
  round_of t = Some (s, c) /\ coherent t.
Proof. intros Hs Hc. unfold round_of, coherent. rewrite Hs, Hc. split; [done|]. split; eauto. Qed.

Lemma round_of_None t :
  t !! SoftForkStartingHeight = None -> t !! SoftForkVotesCollected = None ->
  round_of t = None /\ coherent t.
Proof.
  intros Hs Hc. unfold round_of, coherent. rewrite Hs, Hc. split; [done|].
  by split; intros [].
Qed.

(** Lookups in the tables the boundary builds. *)
Ltac table_simpl :=
  repeat (first
    [ rewrite lookup_insert_eq
    | rewrite lookup_insert_ne by done
    | rewrite start_round_lookup by done
    | rewrite clear_round_lookup by done ]).

(** The four states a boundary can leave. *)
Lemma table_after (current t3 : table) (activated : bool) bv r :
  round_of t3 = r -> coherent t3 -> t3 !! BlockVersion = Some bv ->
  (forall id, id <> SoftForkVotesCollected -> id <> SoftForkStartingHeight -> t3 !! id = current !! id) ->
  let t' := if activated then <[BlockVersion := as_i32 (bv + 1)]> t3 else t3 in
  round_of t' = r /\ coherent t' /\
  t' !! BlockVersion = Some (if activated then as_i32 (bv + 1) else bv) /\
  (forall id, id <> SoftForkVotesCollected -> id <> SoftForkStartingHeight -> id <> BlockVersion ->
    t' !! id = current !! id).
Proof.
  intros Hr Hco Hbv Hoth. destruct activated; [|by split_and!; eauto].
  unfold round_of, coherent in *. split_and!; table_simpl; try done.
  intros id H1 H2 H3. rewrite lookup_insert_ne by done. by apply Hoth.
Qed.

Lemma update_fork_idle v h current tally fork_vote bv :
  is_i32 h -> coherent current -> current !! SoftForkStartingHeight = None ->
  current !! BlockVersion = Some bv ->
  exists t', update_fork v h current tally fork_vote = Ok (t', false) /\
    fork_result v h (votes_in_prev_epoch tally) fork_vote bv current t'.
Proof.
  intros Hh Hco Hs Hbv. unfold update_fork. rewrite Hs.
  pose proof (coherent_round _ Hco Hs) as Hc. destruct (round_of_None _ Hs Hc) as [Hr _].
  destruct (fork_vote && (h mod voting_length v =? 0)) eqn:Ef; eexists; (split; [done|]).
  - split; rewrite ?Hr; cbn [fork_spec activates].
    + by rewrite round_of_start, Ef, as_i32_small.
    + unfold coherent, start_round. rewrite lookup_insert_ne by done. rewrite !lookup_insert_eq.
      split; eauto.
    + by rewrite start_round_lookup.
    + intros. by apply start_round_lookup.
  - split; rewrite ?Hr; cbn [fork_spec activates]; rewrite ?Ef; done.
Qed.

(** The tables a round can become, with what [table_after] asks of them. *)
Definition leaves (current t3 : table) (bv : Z) (r : option (Z * Z)) : Prop :=
  round_of t3 = r /\ coherent t3 /\ t3 !! BlockVersion = Some bv /\
  forall id, id <> SoftForkVotesCollected -> id <> SoftForkStartingHeight -> t3 !! id = current !! id.

Lemma leaves_cleared current bv :
  current !! BlockVersion = Some bv -> leaves current (clear_round current) bv None.
Proof.
  intros Hbv. destruct (clear_round_empty current) as [H1 H2].
  destruct (round_of_None _ H1 H2). split_and!; try done.
  - by rewrite clear_round_lookup.
  - intros. by apply clear_round_lookup.
Qed.

Lemma leaves_started current t bv h :
  is_i32 h -> current !! BlockVersion = Some bv ->
  (forall id, id <> SoftForkVotesCollected -> id <> SoftForkStartingHeight -> t !! id = current !! id) ->
  leaves current (start_round h t) bv (Some (h, 0)).
Proof.
  intros Hh Hbv Ht. split_and!.
  - by rewrite round_of_start, as_i32_small.
  - unfold coherent, start_round. rewrite lookup_insert_ne by done. rewrite !lookup_insert_eq.
    split; eauto.
  - by rewrite start_round_lookup, Ht.
  - intros. by rewrite start_round_lookup, Ht.
Qed.

Lemma leaves_counted current bv s n :
  current !! SoftForkStartingHeight = Some s -> current !! BlockVersion = Some bv ->
  leaves current (<[SoftForkVotesCollected := n]> current) bv (Some (s, n)).
Proof.
  intros Hs Hbv. destruct (round_of_Some (<[SoftForkVotesCollected := n]> current) s n) as [H1 H2].
  { by rewrite lookup_insert_ne. }
  { apply lookup_insert_eq. }
  split_and!; try done.
  - by rewrite lookup_insert_ne.
  - intros. by rewrite lookup_insert_ne.
Qed.

(** The end of [update_fork], from the table before activation. *)
Lemma activation_spec current t3 bv r (activate : bool) :
  leaves current t3 bv r ->
  exists t', (if activate then
      let? b := ok_or (t3 !! BlockVersion) BlockVersionMissing in
      Ok (<[BlockVersion := as_i32 (b + 1)]> t3, true)
    else Ok (t3, false)) = Ok (t', activate) /\
    round_of t' = r /\ coherent t' /\
    t' !! BlockVersion = Some (if activate then as_i32 (bv + 1) else bv) /\
    (forall id, id <> SoftForkVotesCollected -> id <> SoftForkStartingHeight -> id <> BlockVersion ->
      t' !! id = current !! id).
Proof.
  intros (H1 & H2 & H3 & H4). exists (if activate then <[BlockVersion := as_i32 (bv + 1)]> t3 else t3).
  split; [destruct activate; [by rewrite H3|done]|].
  by apply (table_after current t3 activate bv r).
Qed.

Lemma update_fork_round v h current tally fork_vote bv start c :
  is_i32 h -> 0 < voting_length v -> 0 <= soft_fork_epochs v -> 1 <= activation_epochs v ->
  current !! SoftForkStartingHeight = Some start -> current !! SoftForkVotesCollected = Some c ->
  current !! BlockVersion = Some bv ->
  exists t', update_fork v h current tally fork_vote =
      Ok (t', activates v h (votes_in_prev_epoch tally) (round_of current)) /\
    fork_result v h (votes_in_prev_epoch tally) fork_vote bv current t'.
Proof.
  intros Hh Hl Hve Hae Hs Hc Hbv. destruct (round_of_Some _ _ _ Hs Hc) as [Hr Hco].
  set (prev := votes_in_prev_epoch tally). set (total := as_i32 (as_i32 prev + c)).
  enough (exists t3, leaves current t3 bv (fork_spec v h fork_vote prev (Some (start, c))) /\
    update_fork v h current tally fork_vote =
    (if activates v h prev (Some (start, c)) then
      let? b := ok_or (t3 !! BlockVersion) BlockVersionMissing in
      Ok (<[BlockVersion := as_i32 (b + 1)]> t3, true)
    else Ok (t3, false))) as (t3 & Hlv & ->).
  { rewrite Hr. destruct (activation_spec _ _ _ _ (activates v h prev (Some (start, c))) Hlv)
      as (t' & -> & H1 & H2 & H3 & H4). exists t'. split; [done|]. split; by rewrite ?Hr. }
  unfold update_fork. rewrite Hs, Hc. fold prev.
  change (force_votes h prev (Some c)) with (Ok (E := voting_error) total).
  rewrite !at_height_Ok. cbn [result_bind fork_spec activates]. fold total.
  assert (Hlive : leaves current current bv (Some (start, c))) by (by split_and!).
  destruct (soft_fork_approved v total) eqn:Eap; rewrite ?andb_true_r, ?andb_false_r;
    cbn [orb negb andb].
  all: destruct (Z.leb_spec h (start + voting_length v * soft_fork_epochs v));
    destruct (Z.eqb_spec h (start + voting_length v * (soft_fork_epochs v + 1)));
    destruct (Z.eqb_spec h (start + voting_length v * (soft_fork_epochs v + activation_epochs v + 1)));
    try nia; destruct fork_vote; cbn [orb andb negb result_bind].
  all: eexists; (split; [|reflexivity]);
    first [ done | by apply leaves_counted | by apply leaves_cleared
          | apply leaves_started; [done|done|by intros; rewrite ?clear_round_lookup] ].
Qed.

Lemma update_fork_spec v h current tally fork_vote bv :
  is_i32 h -> 0 < voting_length v -> 0 <= soft_fork_epochs v -> 1 <= activation_epochs v ->
  coherent current -> current !! BlockVersion = Some bv ->
  exists t', update_fork v h current tally fork_vote =
      Ok (t', activates v h (votes_in_prev_epoch tally) (round_of current)) /\
    fork_result v h (votes_in_prev_epoch tally) fork_vote bv current t'.
Proof.
  intros Hh Hl Hve Hae Hco Hbv. destruct (current !! SoftForkStartingHeight) as [start|] eqn:Hs.
  - destruct (proj1 Hco) as [c Hc]; [eauto|]. by eapply update_fork_round.
  - destruct (round_of_None _ Hs (coherent_round _ Hco Hs)) as [Hr _]. rewrite Hr.
    by apply update_fork_idle.
Qed.

(** C14: The soft-fork part of a boundary refines a machine whose state is the round in
    progress: a round starts on a fork vote at a boundary, counts votes through its
    voting epochs, is dropped one epoch later if not approved, bumps the block
    version once at its activation height if approved, and is dropped (or restarted
    by a new fork vote) one epoch after that. A table whose entries 121 and 122
    agree never makes the boundary fail and still agrees after it, and every other
    parameter is untouched. *)
Theorem soft_fork_refines v h current tally fork_vote bv :
  is_i32 h -> 0 < voting_length v -> 0 <= soft_fork_epochs v -> 1 <= activation_epochs v ->
  coherent current -> current !! BlockVersion = Some bv ->
  exists t', update_fork v h current tally fork_vote =
      Ok (t', activates v h (votes_in_prev_epoch tally) (round_of current)) /\
    round_of t' = fork_spec v h fork_vote (votes_in_prev_epoch tally) (round_of current) /\
    coherent t' /\
    t' !! BlockVersion = Some (if activates v h (votes_in_prev_epoch tally) (round_of current)
                               then as_i32 (bv + 1) else bv) /\
    forall id, id <> SoftForkVotesCollected -> id <> SoftForkStartingHeight ->
      id <> BlockVersion -> t' !! id = current !! id.
Proof.
  intros. destruct (update_fork_spec v h current tally fork_vote bv) as (t' & E & []); try done.
  by exists t'.
Qed.

(** A round at its activation height with enough votes. *)
Definition ex_round : table :=
  {[ BlockVersion := 3; SoftForkStartingHeight := 1024; SoftForkVotesCollected := 30000 ]}.

Lemma soft_fork_refines_witness :
  exists t', update_fork voting_mainnet 66560 ex_round [] false = Ok (t', true) /\
    round_of t' = Some (1024, 30000) /\ t' !! BlockVersion = Some 4.
Proof.
  destruct (soft_fork_refines voting_mainnet 66560 ex_round [] false 3) as (t' & E & H1 & _ & H2 & _).
  - unfold is_i32, I32_MAX. lia.
  - cbn. lia.
  - cbn. lia.
  - cbn. lia.
  - split; intros _; vm_compute; eauto.
  - reflexivity.
  - exists t'. split; [exact E|]. split; [exact H1|exact H2].
Defined.

(** ** Parameter ranges *)

(** The values an ordinary parameter can reach from its launch value by votes: one
    step past the limits at most. *)
Definition param_lo (p : Z) : Z :=
  match p with
  | 1 => -24999 | 2 => -9 | 3 | 4 => 16222 | 9 => 2 | _ => 0
  end.

Definition param_hi (p : Z) : Z :=
  match p with
  | 1 => 2524999 | 2 => 10009 | 9 => 2048 | _ => 1084479240
  end.

Definition table_bounded (t : table) : Prop :=
  forall p x, 1 <= p <= 9 -> t !! p = Some x -> param_lo p <= x <= param_hi p.

Lemma ordinary_param_abs id p : ordinary_param id = Some p -> abs_i8 id = p /\ 1 <= p <= 9.
Proof.
  unfold ordinary_param. intros E.
  repeat (case_match; try discriminate; try (simplify_eq; split; [done|vm_compute; split; discriminate])).
Qed.

Lemma step_value_bounded id p x :
  ordinary_param id = Some p -> param_lo p <= x <= param_hi p ->
  param_lo p <= step_value id x <= param_hi p /\
  step_value id x =
    (let step := default (Z.max 1 (Z.quot x 100)) (parameter_step id) in
     if 0 <? id then if x <? default (I32_MAX / 2) (parameter_max id) then x + step else x
     else if default 0 (parameter_min id) <? x then x - step else x).
Proof.
  intros [Ha Hp]%ordinary_param_abs Hx. unfold step_value, parameter_step, parameter_max,
    parameter_min. rewrite Ha.
  assert (p = 1 \/ p = 2 \/ p = 3 \/ p = 4 \/ p = 5 \/ p = 6 \/ p = 7 \/ p = 8 \/ p = 9) as Hcase by lia.
  assert (Hq : 0 <= x -> Z.quot x 100 = x / 100) by (intros; by apply Z.quot_div_nonneg).
  change (I32_MAX / 2) with 1073741823.
  destruct Hcase as [->|[->|[->|[->|[->|[->|[->|[->| ->]]]]]]]]; cbn [param_lo param_hi] in *;
    cbv [default from_option Datatypes.id]; rewrite ?Hq by lia; change (16 * 1024) with 16384;
    destruct (0 <? _);
    (match goal with |- context [if ?a <? ?b then _ else _] => destruct (Z.ltb_spec a b) end);
    unfold add_i32, sub_i32;
    try (rewrite as_i32_small by (unfold is_i32, I32_MAX; Z.div_mod_to_equations; lia));
    (split; [Z.div_mod_to_equations; lia|done]).
Qed.

(** Every approved vote of the tally is for a parameter the table has. *)
Definition votes_known (v : VotingConfig) (t : table) (tally : list (Z * Z)) : Prop :=
  Forall (fun e : Z * Z => e.1 < SOFT_FORK_VOTE -> change_approved v e.2 = true ->
    exists p, ordinary_param e.1 = Some p /\ is_Some (t !! p)) tally.

Lemma update_params_spec v base tally t :
  votes_known v base tally -> table_bounded base -> table_bounded t ->
  exists t', update_params v base tally t = Ok t' /\ table_bounded t' /\
    forall id, ~ 1 <= id <= 9 -> t' !! id = t !! id.
Proof.
  intros Hk Hbase. revert t. induction Hk as [|[id n] tally Hv Hk IH]; intros t Ht; cbn [update_params].
  { by exists t. }
  destruct (Z.leb_spec SOFT_FORK_VOTE id); [by apply IH|].
  destruct (change_approved v n) eqn:Ea; cbn [negb]; [|by apply IH].
  destruct (Hv ltac:(done) Ea) as (p & Hp & [x Hx]). cbn [fst snd] in *. rewrite Hp. cbn [ok_or result_bind].
  rewrite Hx. cbn [ok_or result_bind]. destruct (ordinary_param_abs _ _ Hp) as [_ Hr].
  destruct (step_value_bounded id p x Hp (Hbase _ _ Hr Hx)) as [Hb _].
  destruct (IH (<[p := step_value id x]> t)) as (t' & -> & H1 & H2).
  { intros p' x' Hp' [[<- <-]|[_ Hx']]%lookup_insert_Some; [done|by apply Ht]. }
  exists t'. split_and!; [done..|]. intros id' Hid. rewrite H2 by done.
  apply lookup_insert_ne. lia.
Qed.

Lemma force_version2_spec v h t bv :
  t !! BlockVersion = Some bv ->
  exists t', force_version2 v h t = Ok t' /\
    t' !! BlockVersion =
      Some (if (h =? version2_activation_height v) && (bv =? 1) then 2 else bv) /\
    forall id, id <> BlockVersion -> t' !! id = t !! id.
Proof.
  intros Hbv. unfold force_version2. rewrite Hbv. cbn [ok_or result_bind].
  destruct (h =? _); [|by exists t]. destruct (bv =? 1); cbn [andb]; eexists; (split; [done|]).
  - rewrite lookup_insert_eq. split; [done|]. intros. by apply lookup_insert_ne.
  - by split.
Qed.

(** The block version after a boundary. *)
Definition version_after (v : VotingConfig) (h : Z) (activated : bool) (bv : Z) : Z :=
  let bv' := if activated then as_i32 (bv + 1) else bv in
  if (h =? version2_activation_height v) && (bv' =? 1) then 2 else bv'.

Lemma ordinary_not_reserved p :
  1 <= p <= 9 -> p <> SoftForkVotesCollected /\ p <> SoftForkStartingHeight /\ p <> BlockVersion.
Proof.
  unfold SoftForkVotesCollected, SoftForkStartingHeight, BlockVersion,
    ID_SOFT_FORK_VOTES_COLLECTED, ID_SOFT_FORK_STARTING_HEIGHT, ID_BLOCK_VERSION. lia.
Qed.

(** Tables that agree outside the ordinary parameters have the same round. *)
Lemma round_agree t t' :
  (forall id, ~ 1 <= id <= 9 -> id <> BlockVersion -> t' !! id = t !! id) ->
  round_of t' = round_of t /\ (coherent t -> coherent t').
Proof.
  intros He. unfold round_of, coherent. rewrite !He; [done|..]; vm_compute; intuition discriminate.
Qed.

Section BoundaryProps.
Context {RuleStatus : Type} `{SigmaIO RuleStatus}.

(** C15: An epoch boundary is total and safe on the tables the chain carries. If the
    proposed update parses, entries 121 and 122 agree, the block version is present
    and every approved vote names a parameter of the table, then the boundary
    computes a table: its round follows the soft-fork machine, its version changes
    only by activation or the forced version 2, the proposed update is activated
    exactly when the fork is, and every ordinary parameter stays within one step of
    its limits, so no step overflows an [i32]. *)
Theorem boundary_correct v h current tally fork_vote bytes parsed bv :
  is_i32 h -> 0 < voting_length v -> 0 <= soft_fork_epochs v -> 1 <= activation_epochs v ->
  parse_validation_settings_update bytes = Ok parsed ->
  coherent current -> current !! BlockVersion = Some bv ->
  table_bounded current -> votes_known v current tally ->
  let prev := votes_in_prev_epoch tally in
  let activated := activates v h prev (round_of current) in
  exists next, compute_boundary_parameters v h current tally fork_vote bytes =
      Ok (next, if activated then parsed else update_default) /\
    round_of next = fork_spec v h fork_vote prev (round_of current) /\ coherent next /\
    next !! BlockVersion = Some (version_after v h activated bv) /\ table_bounded next.
Proof.
  intros Hh Hl Hve Hae Hparse Hco Hbv Hbd Hk prev activated.
  unfold compute_boundary_parameters. rewrite Hparse. cbn [result_bind].
  destruct (Z.eqb_spec (voting_length v) 0); [lia|].
  destruct (update_fork_spec v h current tally fork_vote bv) as (t1 & -> & [Hr1 Hc1 Hv1 Ho1]); try done.
  cbn [result_bind]. destruct (force_version2_spec v h t1 _ Hv1) as (t2 & -> & Hv2 & Ho2).
  cbn [result_bind].
  assert (H12 : forall p, 1 <= p <= 9 -> t2 !! p = current !! p).
  { intros p Hp. destruct (ordinary_not_reserved p Hp) as (? & ? & ?). by rewrite Ho2, Ho1. }
  assert (Hbd2 : table_bounded t2) by (intros p x Hp; rewrite H12 by done; by apply Hbd).
  destruct (update_params_spec v t2 tally t2) as (t3 & -> & Hbd3 & Ho3); [|done|done|].
  { eapply Forall_impl; [exact Hk|]. intros e Hv H1 H2. destruct (Hv H1 H2) as (p & Hp & Hs).
    exists p. split; [done|]. rewrite H12; [done|]. by eapply ordinary_param_abs. }
  cbn [result_bind]. eexists. split; [reflexivity|].
  set (cond := _ && _ && _).
  set (t4 := if cond then _ else _).
  assert (Ho4 : forall id, ~ 1 <= id <= 9 -> t4 !! id = t2 !! id).
  { intros id Hid. unfold t4. destruct cond; [|by apply Ho3].
    rewrite lookup_insert_ne; [by apply Ho3|]. intros <-. apply Hid. vm_compute. split; discriminate. }
  destruct (round_agree t1 t4) as [Hr4 Hc4]; [intros; by rewrite Ho4, Ho2|].
  split_and!.
  - by rewrite Hr4.
  - by apply Hc4.
  - rewrite Ho4 by (vm_compute; intuition discriminate). exact Hv2.
  - unfold t4. destruct cond; [|done].
    intros p x Hp [[<- <-]|[_ Hx]]%lookup_insert_Some; [vm_compute; split; discriminate|by apply Hbd3].
Qed.

End BoundaryProps.

(** Mainnet's launch table, at the forced version 2. *)
Lemma boundary_correct_witness :
  exists next, compute_boundary_parameters (RuleStatus := Z) voting_mainnet 417792
      (default_parameters Mainnet) [(3, 600); (-2, 700); (120, 5)] true [] =
      Ok (next, update_default) /\
    round_of next = Some (417792, 0) /\ next !! BlockVersion = Some 2 /\ table_bounded next.
Proof.
  destruct (boundary_correct (RuleStatus := Z) voting_mainnet 417792 (default_parameters Mainnet)
    [(3, 600); (-2, 700); (120, 5)] true [] update_default 1) as (next & E & H1 & _ & H2 & H3).
  - unfold is_i32, I32_MAX. lia.
  - cbn. lia.
  - cbn. lia.
  - cbn. lia.
  - reflexivity.
  - split; intros [x Hx]; vm_compute in Hx; discriminate.
  - reflexivity.
  - intros p x Hp Hx.
    assert (p = 1 \/ p = 2 \/ p = 3 \/ p = 4 \/ p = 5 \/ p = 6 \/ p = 7 \/ p = 8 \/ p = 9) as Hcase by lia.
    destruct Hcase as [->|[->|[->|[->|[->|[->|[->|[->| ->]]]]]]]]; vm_compute in Hx; simplify_eq;
      vm_compute; split; discriminate.
  - constructor; [|constructor; [|constructor; [|constructor]]]; cbn [fst snd]; intros Hlt _.
    + exists 3. split; [reflexivity|vm_compute; eauto].
    + exists 2. split; [reflexivity|vm_compute; eauto].
    + vm_compute in Hlt. discriminate.
  - exists next. split; [exact E|]. split; [exact H1|]. split; [exact H2|exact H3].
Defined.

(** ** Header checks *)

Lemma count_one_NoDup (vs : list Z) :
  (forall v, v ∈ vs -> length (filter (fun x => x = v) vs) = 1%nat) <-> NoDup vs.
Proof.
  induction vs as [|a vs IH]; [split; [constructor|set_solver]|].
  assert (Hnot : forall v, v ∉ vs <-> length (filter (fun x => x = v) vs) = 0%nat).
  { intros v. rewrite length_zero_iff_nil. split.
    - intros Hv. destruct (filter _ vs) as [|x l] eqn:Ef; [done|].
      assert (Hin : x ∈ filter (fun x => x = v) vs) by (rewrite Ef; set_solver).
      apply list_elem_of_filter in Hin as [-> ?]. done.
    - intros Hf Hin. assert (Hin' : v ∈ filter (fun x => x = v) vs)
        by (by apply list_elem_of_filter). rewrite Hf in Hin'. set_solver. }
  rewrite NoDup_cons. split.
  - intros Hc. assert (Ha : a ∉ vs).
    { apply Hnot. specialize (Hc a ltac:(set_solver)). rewrite filter_cons_True in Hc by done.
      cbn in Hc. lia. }
    split; [done|]. apply IH. intros v Hv. specialize (Hc v ltac:(set_solver)).
    rewrite filter_cons_False in Hc; [done|]. by intros ->.
  - intros [Ha Hnd] v [->|Hv]%elem_of_cons.
    + rewrite filter_cons_True by done. cbn. f_equal. by apply Hnot.
    + rewrite filter_cons_False by (by intros ->). by apply IH.
Qed.

Lemma check_votes_loop_spec vs rest :
  check_votes_loop vs rest = Ok tt <->
  forall v, v ∈ rest -> length (filter (fun x => x = v) vs) = 1%nat /\ as_i8 (- v) ∉ vs.
Proof.
  induction rest as [|v rest IH]; cbn [check_votes_loop]; [split; [set_solver|done]|].
  destruct (Nat.eqb_spec (length (filter (fun x => x = v) vs)) 1) as [E|E]; cbn [negb].
  - case_bool_decide as Hn.
    + split; [done|]. intros Hall. by destruct (Hall v ltac:(set_solver)).
    + rewrite IH. split; [|set_solver]. intros Hall w [->|Hw]%elem_of_cons; [done|by apply Hall].
  - split; [done|]. intros Hall. by destruct (Hall v ltac:(set_solver)).
Qed.

(** A header's three vote bytes are accepted exactly when, read as signed ids with
    the zeros dropped, at most two of them are ordinary votes, no id occurs twice,
    and no id occurs together with its negation. *)
Theorem header_votes_correct v :
  let vs := as_i8 <$> filter (fun b => b <> 0) (slots v) in
  check_header_votes v = Ok tt <->
  (length (filter (fun x => x <> SOFT_FORK_VOTE) vs) <= 2)%nat /\ NoDup vs /\
  forall x, x ∈ vs -> as_i8 (- x) ∉ vs.
Proof.
  intros vs. unfold check_header_votes. fold vs. unfold PARAM_VOTES_COUNT.
  destruct (Z.ltb_spec 2 (Z.of_nat (length (filter (fun x => x <> SOFT_FORK_VOTE) vs)))).
  - split; [done|]. lia.
  - rewrite check_votes_loop_spec, <- count_one_NoDup. split.
    + intros Hall. split; [lia|]. split; intros x Hx; by apply Hall.
    + intros (_ & H1 & H2) x Hx. split; [by apply H1|by apply H2].
Qed.

(** ** The fork-vote gate *)

(** The height at which a round stops counting votes, and the length of the span
    after it in which fork votes are refused. *)
Definition finishing (v : VotingConfig) (start : Z) : Z :=
  start + voting_length v * soft_fork_epochs v.

Definition closed_span (v : VotingConfig) (collected : Z) : Z :=
  if soft_fork_approved v collected
  then voting_length v * (activation_epochs v + 1) else voting_length v.

Lemma check_fork_vote_round v h hv current start c :
  0 < voting_length v -> 0 <= activation_epochs v ->
  current !! SoftForkStartingHeight = Some start -> current !! SoftForkVotesCollected = Some c ->
  SOFT_FORK_VOTE ∈ slots hv ->
  check_fork_vote v h hv current =
  Ok (negb (bool_decide (finishing v start <= h < finishing v start + closed_span v c))).
Proof.
  intros Hl Hae Hs Hc Hin. unfold check_fork_vote, closed_span. rewrite bool_decide_true by done.
  cbn [negb]. rewrite Hs, Hc. cbn [ok_or result_bind]. fold (finishing v start).
  destruct (soft_fork_approved v c); cbn [negb]; rewrite ?andb_true_r, ?andb_false_r;
    cbn [orb]; rewrite ?orb_false_r;
    destruct (Z.leb_spec (finishing v start) h); cbn [andb];
    try (rewrite bool_decide_false by lia; done);
    match goal with |- context [h <? ?e] => destruct (Z.ltb_spec h e) end;
    (rewrite bool_decide_true by lia; done) || (rewrite bool_decide_false by lia; done).
Qed.

(** The fork-vote gate refuses a header exactly when it votes for the fork in the
    closed span of the round in progress: one epoch after the voting ends if the
    round was not approved, the whole activation and one more epoch if it was. A
    table with a start but no count is an error, at any height. *)
Theorem fork_gate_correct v h hv current :
  0 < voting_length v -> 0 <= activation_epochs v ->
  check_fork_vote v h hv current =
  if decide (SOFT_FORK_VOTE ∈ slots hv) then
    match current !! SoftForkStartingHeight, current !! SoftForkVotesCollected with
    | Some start, Some c =>
        Ok (negb (bool_decide (finishing v start <= h < finishing v start + closed_span v c)))
    | Some _, None => Err (VotesCollectedAbsent h)
    | None, _ => Ok true
    end
  else Ok true.
Proof.
  intros Hl Hae. case_decide as Hin.
  - destruct (current !! SoftForkStartingHeight) as [start|] eqn:Hs.
    + destruct (current !! SoftForkVotesCollected) as [c|] eqn:Hc.
      * by apply check_fork_vote_round.
      * unfold check_fork_vote. rewrite bool_decide_true by done. cbn. by rewrite Hs, Hc.
    + unfold check_fork_vote. rewrite bool_decide_true by done. cbn. by rewrite Hs.
  - unfold check_fork_vote. by rewrite bool_decide_false.
Qed.

Lemma fork_gate_correct_witness :
  check_fork_vote voting_mainnet 33793 (120, 0, 0) ex_round = Ok false.
Proof.
  etransitivity; [apply (fork_gate_correct voting_mainnet 33793 (120, 0, 0) ex_round)|].
  - cbn. lia.
  - cbn. lia.
  - vm_compute. reflexivity.
Defined.

(** A header slot is a byte. *)
Definition votes_typed (v : votes) : Prop := Forall is_u8 (slots v).

Lemma as_i8_fork s : is_u8 s -> as_i8 s = SOFT_FORK_VOTE -> s = SOFT_FORK_VOTE.
Proof. unfold SOFT_FORK_VOTE. int_unfold. intros. Z.div_mod_to_equations. lia. Qed.

(** Only seeded ids are ever tallied. *)
Lemma tally_ids window tally :
  (fold_left (fun t (e : Z * votes) => fold_left bump (slots e.2) t) window tally).*1 = tally.*1.
Proof.
  rewrite fold_window. generalize (window_slots window). intros ss. revert tally.
  induction ss as [|s ss IH]; intros tally; [done|]. cbn [fold_left]. rewrite IH. unfold bump.
  case_match; [done|]. rewrite <- list_fmap_compose. apply list_fmap_ext.
  intros _ [id n] _. cbn. by case_match.
Qed.

Lemma no_entry_no_votes tally : SOFT_FORK_VOTE ∉ tally.*1 -> votes_in_prev_epoch tally = 0.
Proof.
  intros Hn. unfold votes_in_prev_epoch. destruct (List.find _ tally) as [[id n]|] eqn:E; [|done].
  apply find_some in E as [Hin Hid]. apply list_elem_of_In in Hin. exfalso. apply Hn.
  apply list_elem_of_fmap. exists (id, n). split; [|done]. cbn in *. lia.
Qed.

(** The gate decides the round. If every header of an epoch passed the gate while
    the table recorded the round, and the epoch began inside the closed span, then
    the epoch's tally has no fork votes: at every boundary where the node decides to
    drop or to activate the round, the total is exactly the votes collected when
    the voting ended. *)
Theorem gate_decides_round v current start c T window :
  0 < voting_length v -> 0 <= activation_epochs v -> is_i32 c ->
  current !! SoftForkStartingHeight = Some start -> current !! SoftForkVotesCollected = Some c ->
  Forall (fun e : Z * votes => votes_typed e.2 /\ check_fork_vote v e.1 e.2 current = Ok true) window ->
  finishing v start <= T - voting_length v < finishing v start + closed_span v c ->
  let prev := votes_in_prev_epoch (tally_votes_seeded window T (voting_length v)) in
  prev = 0 /\ as_i32 (as_i32 prev + c) = c.
Proof.
  intros Hl Hae Hi Hs Hc Hgate Hspan prev. assert (Hprev : prev = 0).
  { unfold prev. destruct window as [|[h0 v0] rest]; [done|]. unfold tally_votes_seeded.
    case_bool_decide as Hseed; [|done]. apply no_entry_no_votes. rewrite tally_ids.
    inversion Hgate as [|? ? [Hty Hpass] _]; subst. cbn [fst snd] in *.
    assert (h0 = T - voting_length v) as ->.
    { unfold checked_sub in Hseed. destruct (T <? voting_length v); [done|]. by simplify_eq. }
    intros Hin. apply list_elem_of_fmap in Hin as (e & He & Hin).
    apply list_elem_of_fmap in Hin as (s & -> & Hin). cbn in He.
    apply list_elem_of_filter in Hin as [_ Hin].
    pose proof Hty as Hty'. unfold votes_typed in Hty'. rewrite Forall_forall in Hty'.
    assert (s = SOFT_FORK_VOTE) as -> by (apply as_i8_fork; [by apply Hty'|done]).
    rewrite (check_fork_vote_round v _ v0 current start c) in Hpass by done.
    rewrite bool_decide_true in Hpass by done. done. }
  split; [done|]. rewrite Hprev. change (as_i32 0) with 0. by rewrite Z.add_0_l, as_i32_small.
Qed.

Lemma gate_decides_round_witness :
  votes_in_prev_epoch (tally_votes_seeded [(33792, (0, 3, 0)); (33793, (3, 0, 0))] 34816 1024) = 0.
Proof.
  apply (gate_decides_round voting_mainnet ex_round 1024 30000 34816
    [(33792, (0, 3, 0)); (33793, (3, 0, 0))]).
  - cbn. lia.
  - cbn. lia.
  - unfold is_i32, I32_MAX. lia.
  - reflexivity.
  - reflexivity.
  - repeat constructor; cbn; unfold is_u8, U8_MAX; lia.
  - vm_compute. split; [discriminate|reflexivity].
Defined.

End Voting.
