(* ===== verification/Header.v ===== *)
(** * Headers

    [ergo_chain_types::Header], the fields the node's chain code reads. The id is the
    hash of the serialized header, computed by ergo_chain_types when it parses one,
    and is carried as a field. *)

From S2P Require Import Prelude.

Record Header := mk_header {
  version : Z;
  header_id : id32;
  parent_id : id32;
  ad_proofs_root : id32;
  transaction_root : id32;
  timestamp : Z;            (* u64, milliseconds *)
  n_bits : Z;               (* u32 *)
  height : Z;               (* u32 *)
  extension_root : id32;
  header_votes : Z * Z * Z;
}.

#[global] Instance Header_eq_dec : EqDecision Header.
Proof. solve_decision. Defined.

(** [u32::is_multiple_of]. *)
Definition is_multiple_of (a b : Z) : bool := if b =? 0 then a =? 0 else a mod b =? 0.

Lemma is_multiple_of_spec a b : 0 < b -> is_multiple_of a b = true <-> (b | a).
Proof.
  intros Hb. unfold is_multiple_of. destruct (Z.eqb_spec b 0); [lia|].
  rewrite Z.eqb_eq. by rewrite Z.mod_divide by lia.
Qed.
