(* ===== verification/Difficulty.v ===== *)
(** * Difficulty adjustment

    [chain/src/difficulty.rs]: the difficulty the next header must carry. The compact
    encoding of a difficulty belongs to ergo_chain_types and is a parameter. A
    [BigInt] is a [Z], its division truncates towards zero and panics on zero. *)

From S2P Require Import Prelude Header ChainConfig.
Import ChainConfig.

Module Difficulty.

Inductive difficulty_error := NoHeaders | TwoHeadersNeeded.

Definition PRECISION : Z := 1000000000.

(** [BigInt / BigInt]. *)
Definition div_big (a b : Z) : outcome difficulty_error Z :=
  if b =? 0 then Panic else Return (Z.quot a b).

(** [previous_heights_for_recalculation]. *)
Definition previous_heights_for_recalculation (height epoch_length use_last_epochs : Z) : list Z :=
  let offsets := seqZ 0 (use_last_epochs + 1) in
  let h1 := sub_u32 height 1 in
  if is_multiple_of h1 epoch_length && (1 <? epoch_length) then
    reverse (omap (fun i => checked_sub h1 (mul_u32 i epoch_length)) offsets)
  else if is_multiple_of h1 epoch_length && (mul_u32 epoch_length use_last_epochs <? height) then
    reverse ((fun i => sub_u32 h1 (mul_u32 i epoch_length)) <$> offsets)
  else [h1].

(** [cap_difficulty]. *)
Definition cap_difficulty (diff reference : Z) : Z :=
  let upper := Z.quot (reference * 3) 2 in
  let lower := Z.quot reference 2 in
  if upper <? diff then upper
  else if diff <? lower then lower
  else diff.

Definition sum_big (l : list Z) : Z := foldr Z.add 0 l.

(** [interpolate]. *)
Definition interpolate (data : list (Z * Z)) (epoch_length : Z) : outcome difficulty_error Z :=
  match data with
  | [(_, y)] => Return y
  | _ =>
      let n := Z.of_nat (length data) in
      let xy_sum := sum_big ((fun p => p.1 * p.2) <$> data) in
      let x_sum := sum_big data.*1 in
      let x2_sum := sum_big ((fun p => p.1 * p.1) <$> data) in
      let y_sum := sum_big data.*2 in
      let! b := div_big ((xy_sum * n - x_sum * y_sum) * PRECISION) (x2_sum * n - x_sum * x_sum) in
      let! a0 := div_big (y_sum * PRECISION - b * x_sum) n in
      let! a := div_big a0 PRECISION in
      let max_height := match data.*1 with [] => 0 | x :: xs => foldl Z.max x xs end in
      let! slope := div_big (b * (max_height + epoch_length)) PRECISION in
      Return (a + slope)
  end.

Section Codec.
Variable decode_compact_bits : Z -> Z.
Variable encode_compact_bits : Z -> Z.

(** [required_difficulty]. *)
Definition required_difficulty (h : Header) : Z := decode_compact_bits (n_bits h).

(** [normalize_to_n_bits]. *)
Definition normalize_to_n_bits (difficulty initial_n_bits : Z) : Z :=
  let n := as_u32 (encode_compact_bits difficulty) in
  if n =? 0 then initial_n_bits else n.

(** One data point of [calculate]: the difficulty the epoch that ends at [end_]
    would have needed to take its desired time. *)
Definition data_point (desired_ms : Z) (start end_ : Header) : outcome difficulty_error (Z * Z) :=
  let time_delta := as_i64 (as_i64 (timestamp end_) - as_i64 (timestamp start)) in
  let! diff := div_big (required_difficulty end_ * desired_ms) time_delta in
  Return (height end_, diff).

(** The [windows(2)] map. *)
Fixpoint data_points (desired_ms : Z) (headers : list Header) : outcome difficulty_error (list (Z * Z)) :=
  match headers with
  | start :: (end_ :: _) as rest =>
      let! p := data_point desired_ms start end_ in
      let! ps := data_points desired_ms rest in
      Return (p :: ps)
  | _ => Return []
  end.

(** [calculate]. *)
Definition calculate (headers : list Header) (epoch_length block_interval_ms initial_n_bits : Z)
    : outcome difficulty_error Z :=
  match head headers, last headers with
  | Some first_header, Some last_header =>
      let! uncompressed :=
        (if (length headers =? 1)%nat || (timestamp last_header <=? timestamp first_header)
         then Return (required_difficulty first_header)
         else
           let! data := data_points (block_interval_ms * epoch_length) headers in
           let! diff := interpolate data epoch_length in
           Return (if 1 <=? diff then diff else decode_compact_bits initial_n_bits)) in
      Return (normalize_to_n_bits uncompressed initial_n_bits)
  | _, _ => Fail NoHeaders
  end.

(** [bitcoin_calculate], on the last two headers; indexing fewer panics. *)
Definition bitcoin_calculate (headers : list Header) (epoch_length block_interval_ms : Z)
    : outcome difficulty_error Z :=
  match reverse headers with
  | end_ :: start :: _ =>
      let time_delta := as_i64 (as_i64 (timestamp end_) - as_i64 (timestamp start)) in
      div_big (required_difficulty end_ * (block_interval_ms * epoch_length)) time_delta
  | _ => Panic
  end.

(** [eip37_calculate]. *)
Definition eip37_calculate (headers : list Header) (epoch_length block_interval_ms initial_n_bits : Z)
    : outcome difficulty_error Z :=
  if (length headers <? 2)%nat then Fail TwoHeadersNeeded
  else
    match last headers with
    | None => Fail NoHeaders
    | Some last_header =>
        let last_diff := required_difficulty last_header in
        let! predictive_n_bits := calculate headers epoch_length block_interval_ms initial_n_bits in
        let predictive_diff := decode_compact_bits predictive_n_bits in
        let limited_predictive := cap_difficulty predictive_diff last_diff in
        let! classic_diff := bitcoin_calculate headers epoch_length block_interval_ms in
        let! avg := div_big (classic_diff + limited_predictive) 2 in
        let capped := cap_difficulty avg last_diff in
        Return (normalize_to_n_bits capped initial_n_bits)
    end.

(** The override of the two blocks around the Autolykos v2 activation. *)
Definition v2_override (config : ChainConfig) (parent : Header) : option Z :=
  let v2_height := version2_activation_height (voting config) in
  match version2_activation_n_bits config with
  | Some v2_n_bits =>
      if (0 <? v2_height) &&
         ((height parent =? v2_height) || (add_u32 (height parent) 1 =? v2_height))
      then Some v2_n_bits else None
  | None => None
  end.

(** The heights to look back at when the parent ends an epoch. *)
Definition recalculation_heights (config : ChainConfig) (parent : Header) : option (list Z) :=
  let next := add_u32 (height parent) 1 in
  let epoch_length := epoch_length_at config next in
  if is_multiple_of (height parent) epoch_length && (0 <? height parent)
  then Some (previous_heights_for_recalculation next epoch_length (use_last_epochs config))
  else None.

(** The recalculation from the headers found at those heights. *)
Definition recalculate (config : ChainConfig) (parent : Header) (headers : list Header)
    : outcome difficulty_error Z :=
  let next := add_u32 (height parent) 1 in
  let epoch_length := epoch_length_at config next in
  match headers with
  | [] => Return (initial_n_bits config)
  | _ =>
      if eip37_active config next
      then eip37_calculate headers epoch_length (block_interval_ms config) (initial_n_bits config)
      else calculate headers epoch_length (block_interval_ms config) (initial_n_bits config)
  end.

(** [expected_difficulty]; [header_at] is the chain's lookup by height. *)
Definition expected_difficulty (config : ChainConfig) (header_at : Z -> option Header)
    (parent : Header) : outcome difficulty_error Z :=
  match v2_override config parent with
  | Some v2_n_bits => Return v2_n_bits
  | None =>
      match recalculation_heights config parent with
      | Some heights => recalculate config parent (omap header_at heights)
      | None => Return (n_bits parent)
      end
  end.

End Codec.

(** ** Heights *)

Lemma previous_heights_spec h L use :
  1 <= h <= U32_MAX -> 0 < L -> 0 <= use -> use * L <= U32_MAX ->
  let hs := previous_heights_for_recalculation h L use in
  StronglySorted Z.lt hs /\ h - 1 ∈ hs /\ (forall x, x ∈ hs -> 0 <= x <= h - 1 /\ (L | h - 1 - x)).
Proof.
  intros Hh HL Hu Hm. unfold previous_heights_for_recalculation.
  assert (sub_u32 h 1 = h - 1) as ->.
  { unfold sub_u32. apply as_u32_small. unfold is_u32. lia. }
  assert (Hmul : forall i, 0 <= i <= use -> mul_u32 i L = i * L).
  { intros i Hi. unfold mul_u32. apply as_u32_small. unfold is_u32. nia. }
  assert (Hseq : forall i, i ∈ seqZ 0 (use + 1) -> 0 <= i <= use).
  { intros i Hi%elem_of_seqZ. lia. }
  destruct (is_multiple_of (h - 1) L && (1 <? L)) eqn:E1;
    [|destruct (is_multiple_of (h - 1) L && (mul_u32 L use <? h)) eqn:E2].
  - split_and!.
    + apply StronglySorted_reverse.
      apply (StronglySorted_omap (fun x y => x < y /\ 0 <= x /\ y <= use)).
      * intros x y fx fy (Hlt & H0 & Hy) Ex Ey. rewrite Hmul in Ex, Ey by lia.
        unfold checked_sub in *. repeat case_match; simplify_eq. nia.
      * pose proof (seqZ_sorted 0 (use + 1)) as Hs.
        assert (Hall : Forall (fun i => 0 <= i <= use) (seqZ 0 (use + 1)))
          by (apply Forall_forall; apply Hseq).
        induction Hs as [|x l Hs IH Hx]; [constructor|]. inversion Hall as [|? ? Hx0 Hl0]; subst.
        constructor; [apply IH; [set_solver|done]|]. apply Forall_forall. intros y Hy.
        rewrite Forall_forall in Hx, Hl0. specialize (Hx y Hy). specialize (Hl0 y Hy). lia.
    + apply elem_of_reverse, list_elem_of_omap. exists 0. split; [apply elem_of_seqZ; lia|].
      rewrite Hmul by lia. unfold checked_sub. destruct (Z.ltb_spec (h - 1) (0 * L)); [lia|].
      f_equal. lia.
    + intros x (i & Hi%Hseq & Ex)%elem_of_reverse%list_elem_of_omap. rewrite Hmul in Ex by lia.
      unfold checked_sub in Ex. destruct (Z.ltb_spec (h - 1) (i * L)); [done|]. simplify_eq.
      split; [nia|]. exists i. lia.
  - assert (L = 1) as ->.
    { apply andb_false_iff in E1. apply andb_true_iff in E2 as [E2 _]. rewrite E2 in E1.
      destruct E1 as [|E1]; [done|]. apply Z.ltb_ge in E1. lia. }
    assert (Hlt : use < h).
    { apply andb_true_iff in E2 as [_ E2%Z.ltb_lt]. unfold mul_u32 in E2.
      rewrite as_u32_small in E2 by (unfold is_u32; lia). lia. }
    assert (Hsub : forall i, 0 <= i <= use -> sub_u32 (h - 1) (mul_u32 i 1) = h - 1 - i).
    { intros i Hi. rewrite Hmul by lia. unfold sub_u32.
      rewrite as_u32_small; [lia|unfold is_u32; lia]. }
    assert ((fun i => sub_u32 (h - 1) (mul_u32 i 1)) <$> seqZ 0 (use + 1) =
            (fun i => h - 1 - i) <$> seqZ 0 (use + 1)) as ->.
    { apply list_fmap_ext. intros k i Hi. apply Hsub, Hseq. by eapply list_elem_of_lookup_2. }
    split_and!.
    + apply StronglySorted_reverse. pose proof (seqZ_sorted 0 (use + 1)) as Hs. clear -Hs.
      induction Hs as [|x l Hs IH Hx]; [constructor|]. cbn. constructor; [done|].
      apply Forall_fmap. eapply Forall_impl; [exact Hx|]. intros y Hy. cbn. lia.
    + apply elem_of_reverse, list_elem_of_fmap. exists 0. split; [lia|]. apply elem_of_seqZ. lia.
    + intros x (i & -> & Hi%Hseq)%elem_of_reverse%list_elem_of_fmap. split; [lia|]. exists i. lia.
  - split_and!; [repeat constructor|set_solver|]. intros x ->%list_elem_of_singleton.
    split; [lia|]. exists 0. lia.
Qed.

(** ** Regression *)

(** The variance term: [n * sum x^2 - (sum x)^2]. *)
Definition spread (xs : list Z) : Z :=
  sum_big ((fun x => x * x) <$> xs) * Z.of_nat (length xs) - sum_big xs * sum_big xs.

Lemma spread_cons x xs :
  spread (x :: xs) = spread xs + sum_big ((fun y => (x - y) * (x - y)) <$> xs).
Proof.
  unfold spread. cbn [fmap list_fmap sum_big foldr length].
  assert (E : sum_big ((fun y => (x - y) * (x - y)) <$> xs) =
    Z.of_nat (length xs) * (x * x) - 2 * x * sum_big xs + sum_big ((fun y => y * y) <$> xs)).
  { induction xs as [|y xs IH]; [cbn; lia|]. cbn [fmap list_fmap sum_big foldr length] in *.
    fold (sum_big ((fun y => (x - y) * (x - y)) <$> xs)) in *. fold (sum_big xs) in *.
    fold (sum_big ((fun y => y * y) <$> xs)) in *. rewrite IH. lia. }
  fold (sum_big ((fun x => x * x) <$> xs)). fold (sum_big xs).
  change (foldr Z.add 0 ((fun y => (x - y) * (x - y)) <$> xs))
    with (sum_big ((fun y => (x - y) * (x - y)) <$> xs)). rewrite E. lia.
Qed.

Lemma sum_squares_nonneg (f : Z -> Z) xs : 0 <= sum_big ((fun y => f y * f y) <$> xs).
Proof.
  induction xs as [|y xs IH]; [done|].
  change (0 <= f y * f y + sum_big ((fun y => f y * f y) <$> xs)).
  pose proof (Z.square_nonneg (f y)). lia.
Qed.

Lemma spread_nonneg xs : 0 <= spread xs.
Proof.
  induction xs as [|x xs IH]; [done|]. rewrite spread_cons.
  pose proof (sum_squares_nonneg (fun y => x - y) xs). lia.
Qed.

(** Distinct heights make the regression's denominator positive. *)
Lemma spread_pos xs : StronglySorted Z.lt xs -> (2 <= length xs)%nat -> 0 < spread xs.
Proof.
  intros Hs Hl. destruct Hs as [|x xs Hs Hx]; [cbn in Hl; lia|].
  destruct xs as [|y xs]; [cbn in Hl; lia|]. rewrite spread_cons.
  pose proof (spread_nonneg (y :: xs)). inversion Hx; subst.
  pose proof (sum_squares_nonneg (fun y => x - y) xs) as Hq.
  change (sum_big ((fun y => (x - y) * (x - y)) <$> y :: xs)) with
    ((x - y) * (x - y) + sum_big ((fun y => (x - y) * (x - y)) <$> xs)). cbn beta in Hq. nia.
Qed.

Lemma div_big_ok a b : b <> 0 -> div_big a b = Return (Z.quot a b).
Proof. intros Hb. unfold div_big. by destruct (Z.eqb_spec b 0). Qed.

Lemma sum_sq_fst (data : list (Z * Z)) :
  sum_big ((fun p => p.1 * p.1) <$> data) = sum_big ((fun x => x * x) <$> data.*1).
Proof. by rewrite <- list_fmap_compose. Qed.

Lemma interpolate_total data L :
  data <> [] -> StronglySorted Z.lt data.*1 -> exists d, interpolate data L = Return d.
Proof.
  intros Hne Hs. destruct data as [|[x y] [|p data]]; [done|by exists y|].
  unfold interpolate. set (l := (x, y) :: p :: data) in *.
  assert (Hsp : sum_big ((fun p => p.1 * p.1) <$> l) * Z.of_nat (length l) -
      sum_big l.*1 * sum_big l.*1 <> 0).
  { rewrite sum_sq_fst. pose proof (spread_pos l.*1 Hs) as Hp. unfold spread in Hp.
    rewrite length_fmap in Hp. assert ((2 <= length l)%nat) by (cbn; lia). specialize (Hp H). lia. }
  rewrite div_big_ok by done. cbn [outcome_bind].
  rewrite div_big_ok by (cbn [length l]; lia). cbn [outcome_bind].
  rewrite !div_big_ok by done. cbn [outcome_bind]. eauto.
Qed.

Lemma sum_const (data : list (Z * Z)) d :
  Forall (fun p => p.2 = d) data ->
  sum_big ((fun p => p.1 * p.2) <$> data) = sum_big data.*1 * d /\
  sum_big data.*2 = Z.of_nat (length data) * d.
Proof.
  induction 1 as [|[x y] data Hy _ [IH1 IH2]]; [split; cbn; lia|]. cbn in Hy. subst y.
  change (x * d + sum_big ((fun p => p.1 * p.2) <$> data) = (x + sum_big data.*1) * d /\
    d + sum_big data.*2 = Z.of_nat (S (length data)) * d). rewrite IH1, IH2. lia.
Qed.

(** Equal difficulties are a fixed point of the regression. *)
Lemma interpolate_constant data L d :
  data <> [] -> StronglySorted Z.lt data.*1 -> Forall (fun p => p.2 = d) data ->
  interpolate data L = Return d.
Proof.
  intros Hne Hs Hd. destruct data as [|[x y] [|p data]]; [done|inversion Hd; subst; done|].
  unfold interpolate. set (l := (x, y) :: p :: data) in *.
  assert (Hsp : sum_big ((fun p => p.1 * p.1) <$> l) * Z.of_nat (length l) -
      sum_big l.*1 * sum_big l.*1 <> 0).
  { rewrite sum_sq_fst. pose proof (spread_pos l.*1 Hs) as Hp. unfold spread in Hp.
    rewrite length_fmap in Hp. assert ((2 <= length l)%nat) by (cbn; lia). specialize (Hp H). lia. }
  destruct (sum_const l d Hd) as [-> ->]. assert (Hn : Z.of_nat (length l) <> 0) by (cbn; lia).
  rewrite div_big_ok by done. cbn [outcome_bind].
  replace ((sum_big l.*1 * d * Z.of_nat (length l) -
    sum_big l.*1 * (Z.of_nat (length l) * d)) * PRECISION) with 0 by lia.
  rewrite Z.quot_0_l by done. rewrite div_big_ok by done. cbn [outcome_bind].
  replace (Z.of_nat (length l) * d * PRECISION - 0 * sum_big l.*1)
    with (d * PRECISION * Z.of_nat (length l)) by lia.
  rewrite Z.quot_mul by done. rewrite div_big_ok by done. cbn [outcome_bind].
  rewrite Z.quot_mul by done. rewrite Z.mul_0_l, div_big_ok by done. cbn [outcome_bind].
  rewrite Z.quot_0_l by done. f_equal. lia.
Qed.

(** ** Calculation on a chain's headers *)

(** Headers in chain order: heights and timestamps increase. *)
Definition ascending (hs : list Header) : Prop :=
  StronglySorted (fun a b => height a < height b /\ timestamp a < timestamp b) hs /\
  Forall (fun h => is_u64 (timestamp h)) hs.

(** Distinct [u64] timestamps have a non-zero [i64] difference, even wrapped. *)
Lemma time_delta_nonzero s e :
  is_u64 s -> is_u64 e -> s <> e -> as_i64 (as_i64 e - as_i64 s) <> 0.
Proof. int_unfold. intros. Z.div_mod_to_equations. lia. Qed.

Lemma ascending_cons h hs :
  ascending (h :: hs) -> ascending hs /\ is_u64 (timestamp h) /\
  Forall (fun b => height h < height b /\ timestamp h < timestamp b) hs.
Proof.
  intros [Hs Hf]. inversion Hs; subst. inversion Hf; subst. by split_and!.
Qed.

Section Chain.
Variable decode_compact_bits : Z -> Z.
Variable encode_compact_bits : Z -> Z.
Local Abbreviation calculate := (calculate decode_compact_bits encode_compact_bits).
Local Abbreviation eip37_calculate := (eip37_calculate decode_compact_bits encode_compact_bits).
Local Abbreviation data_points := (data_points decode_compact_bits).

Lemma data_points_cons2 desired s e hs :
  data_points desired (s :: e :: hs) =
  let! p := data_point decode_compact_bits desired s e in
  let! ps := data_points desired (e :: hs) in
  Return (p :: ps).
Proof. done. Qed.

Lemma data_points_total desired hs :
  ascending hs ->
  exists data, data_points desired hs = Return data /\ data.*1 = height <$> tail hs.
Proof.
  intros Ha. induction hs as [|s hs IH]; [by exists []|].
  destruct (ascending_cons _ _ Ha) as (Ha' & Hs & Hf). destruct hs as [|e hs]; [by exists []|].
  destruct (ascending_cons _ _ Ha') as (_ & He & _). inversion Hf as [|? ? [_ Hlt] _]; subst.
  destruct (IH Ha') as (data & E & Hd). rewrite data_points_cons2. unfold data_point.
  rewrite div_big_ok by (apply time_delta_nonzero; [done|done|lia]). cbn [outcome_bind].
  rewrite E. cbn [outcome_bind]. eexists. split; [done|].
  cbn [fmap list_fmap fst tail]. f_equal. exact Hd.
Qed.

Lemma ascending_heights hs : ascending hs -> StronglySorted Z.lt (height <$> tail hs).
Proof.
  intros [Hs _]. destruct Hs as [|h hs Hs _]; [constructor|]. cbn [tail].
  induction Hs as [|h' hs Hs IH Hf]; [constructor|]. cbn. constructor; [done|].
  apply Forall_fmap. eapply Forall_impl; [exact Hf|]. by intros x [].
Qed.

Lemma calculate_total hs L interval initial :
  ascending hs -> hs <> [] -> exists n, calculate hs L interval initial = Return n.
Proof.
  intros Ha Hne. unfold Difficulty.calculate. destruct hs as [|h hs]; [done|]. cbn [head].
  destruct (last (h :: hs)) as [l|] eqn:El; [|by apply last_None in El].
  destruct ((length (h :: hs) =? 1)%nat || (timestamp l <=? timestamp h)) eqn:Ec.
  { cbn [outcome_bind]. eauto. }
  destruct (data_points_total (interval * L) _ Ha) as (data & -> & Hd). cbn [outcome_bind].
  destruct (interpolate_total data L) as [d ->].
  - intros ->. cbn in Hd. destruct hs; [done|]. cbn in Hd. done.
  - rewrite Hd. by apply ascending_heights.
  - cbn [outcome_bind]. eauto.
Qed.

Lemma bitcoin_total hs L interval :
  ascending hs -> (2 <= length hs)%nat ->
  exists d, bitcoin_calculate decode_compact_bits hs L interval = Return d.
Proof.
  intros [Hs Hf] Hl. unfold bitcoin_calculate.
  destruct (reverse hs) as [|e [|s r]] eqn:Er.
  - apply (f_equal length) in Er. rewrite length_reverse in Er. cbn in Er. lia.
  - apply (f_equal length) in Er. rewrite length_reverse in Er. cbn in Er. lia.
  - assert (Hhs : hs = reverse r ++ [s; e]).
    { rewrite <- (reverse_involutive hs), Er. by rewrite !reverse_cons, <- app_assoc. }
    rewrite Hhs in Hs, Hf. apply Forall_app in Hf as [_ Hf]. inversion Hf as [|? ? Hs1 Hf2]; subst.
    inversion Hf2 as [|? ? He1 _]; subst.
    assert (Hlt : timestamp s < timestamp e).
    { clear -Hs. induction (reverse r) as [|x l IH]; cbn in Hs.
      - inversion Hs as [|? ? _ Hx]; subst. inversion Hx as [|? ? [_ ?] _]; subst. done.
      - inversion Hs; subst. by apply IH. }
    rewrite div_big_ok by (apply time_delta_nonzero; [done|done|lia]). eauto.
Qed.

Lemma eip37_total hs L interval initial :
  ascending hs -> (2 <= length hs)%nat -> exists n, eip37_calculate hs L interval initial = Return n.
Proof.
  intros Ha Hl. unfold Difficulty.eip37_calculate. destruct (Nat.ltb_spec (length hs) 2); [lia|].
  destruct (last hs) as [l|] eqn:El; [|apply last_None in El; subst; cbn in Hl; lia].
  destruct (calculate_total hs L interval initial Ha) as [n ->]; [by intros ->; cbn in Hl; lia|].
  cbn [outcome_bind]. destruct (bitcoin_total hs L interval Ha Hl) as [d ->]. cbn [outcome_bind].
  rewrite div_big_ok by done. cbn [outcome_bind]. eauto.
Qed.

(** ** Never a panic *)

(** A lookup by height over a chain: each header is at its height, and timestamps
    increase with it. *)
Definition chain_ordered (header_at : Z -> option Header) : Prop :=
  (forall h hd, header_at h = Some hd -> height hd = h /\ is_u64 (timestamp hd)) /\
  (forall h1 h2 hd1 hd2, h1 < h2 -> header_at h1 = Some hd1 -> header_at h2 = Some hd2 ->
     timestamp hd1 < timestamp hd2).

(** Epoch lengths are positive and the look-back stays within a [u32]. *)
Definition config_ok (c : ChainConfig) : Prop :=
  0 <= use_last_epochs c /\
  forall h, 0 < epoch_length_at c h /\ use_last_epochs c * epoch_length_at c h <= U32_MAX.

Lemma omap_ascending header_at hs :
  chain_ordered header_at -> StronglySorted Z.lt hs -> ascending (omap header_at hs).
Proof.
  intros [H1 H2] Hs. split.
  - eapply StronglySorted_omap; [|exact Hs]. intros x y a b Hlt Ea Eb.
    destruct (H1 _ _ Ea) as [-> _], (H1 _ _ Eb) as [-> _]. eauto.
  - apply Forall_forall. intros a (x & _ & Ex)%list_elem_of_omap. by destruct (H1 _ _ Ex).
Qed.

(** C28: On a chain whose timestamps increase, the difficulty of the next header is
    always computed: no regression or classic step divides by zero or indexes past
    its headers. The only error is the EIP-37 rule's, when fewer than two of the
    headers it looks back at are available. *)
Theorem expected_difficulty_total config header_at parent :
  chain_ordered header_at -> config_ok config -> 0 <= height parent < U32_MAX ->
  match expected_difficulty decode_compact_bits encode_compact_bits config header_at parent with
  | Return _ => True
  | Fail e => e = TwoHeadersNeeded /\ eip37_active config (height parent + 1) = true
  | Panic => False
  end.
Proof.
  intros Hch [Hu Hcfg] Hp. unfold expected_difficulty.
  destruct (v2_override config parent); [done|]. unfold recalculation_heights, recalculate.
  assert (add_u32 (height parent) 1 = height parent + 1) as ->.
  { unfold add_u32. apply as_u32_small. unfold is_u32. lia. }
  destruct (Hcfg (height parent + 1)) as [HL Hm].
  set (L := epoch_length_at config (height parent + 1)) in *.
  destruct (is_multiple_of (height parent) L && (0 <? height parent)); [|done].
  destruct (previous_heights_spec (height parent + 1) L (use_last_epochs config)) as (Hs & _ & _);
    [lia..|].
  pose proof (omap_ascending header_at _ Hch Hs) as Ha. cbv zeta.
  destruct (omap header_at _) as [|h hs] eqn:Eo; [done|].
  destruct (eip37_active config (height parent + 1)) eqn:Ee.
  - destruct (decide (2 <= length (h :: hs))%nat).
    + by destruct (eip37_total (h :: hs) L (block_interval_ms config) (initial_n_bits config) Ha)
        as [n ->].
    + unfold Difficulty.eip37_calculate. destruct (Nat.ltb_spec (length (h :: hs)) 2); [done|lia].
  - by destruct (calculate_total (h :: hs) L (block_interval_ms config) (initial_n_bits config) Ha)
      as [n ->].
Qed.

(** ** A chain on schedule *)

(** Consecutive epochs of equal difficulty that each took their desired time. *)
Fixpoint on_schedule (desired nb : Z) (hs : list Header) : Prop :=
  match hs with
  | s :: (e :: _) as rest =>
      n_bits e = nb /\ timestamp e = timestamp s + desired /\ height s < height e /\
      on_schedule desired nb rest
  | _ => True
  end.

Lemma on_schedule_data desired nb hs :
  0 < desired -> Forall (fun h => 0 <= timestamp h <= I64_MAX) hs -> on_schedule desired nb hs ->
  exists data, data_points desired hs = Return data /\ data.*1 = height <$> tail hs /\
    Forall (fun p => p.2 = decode_compact_bits nb) data /\ StronglySorted Z.lt data.*1.
Proof.
  intros Hd Hf Hs. induction hs as [|s hs IH]; [exists []; split_and!; constructor|].
  inversion Hf as [|? ? Hs0 Hf']; subst. destruct hs as [|e hs]; [exists []; split_and!; constructor|].
  destruct Hs as (Hnb & Ht & Hh & Hs). destruct (IH Hf' Hs) as (data & E & Hd1 & Hd2 & Hd3).
  rewrite data_points_cons2. unfold data_point. inversion Hf' as [|? ? He0 _]; subst.
  assert (as_i64 (as_i64 (timestamp e) - as_i64 (timestamp s)) = desired) as ->.
  { rewrite Ht in *. int_unfold. Z.div_mod_to_equations. lia. }
  rewrite div_big_ok by lia. cbn [outcome_bind]. rewrite E. cbn [outcome_bind].
  rewrite Z.quot_mul by lia. eexists. split; [done|]. cbn [fmap list_fmap fst tail]. split_and!.
  - f_equal. exact Hd1.
  - by constructor.
  - constructor; [done|]. rewrite Hd1. destruct hs as [|e2 hs]; [constructor|]. cbn [tail fmap list_fmap].
    destruct Hs as (_ & _ & Hlt & Hs). rewrite Hd1 in Hd3. cbn [tail fmap list_fmap] in Hd3.
    inversion Hd3 as [|? ? Hd4 Hd5]; subst. constructor; [done|].
    eapply Forall_impl; [exact Hd5|]. cbn. lia.
Qed.

(** The last two headers of such a list. *)
Lemma on_schedule_last desired nb hs first rest :
  hs = first :: rest -> rest <> [] ->
  Forall (fun h => 0 <= timestamp h <= I64_MAX) hs -> on_schedule desired nb hs ->
  exists l s r, last hs = Some l /\ reverse hs = l :: s :: r /\ n_bits l = nb /\
    timestamp l = timestamp s + desired /\ 0 <= timestamp s <= I64_MAX /\
    0 <= timestamp l <= I64_MAX.
Proof.
  revert first hs. induction rest as [|e rest IH]; intros first hs -> Hne Hts Hs; [done|].
  destruct Hs as (Hnb & Ht & _ & Hs). inversion Hts as [|? ? H1 Hts']; subst.
  destruct rest as [|e2 rest].
  - inversion Hts' as [|? ? H2 _]; subst. exists e, first, []. split_and!; try done; try lia.
  - destruct (IH e _ eq_refl ltac:(done) Hts' Hs) as (l & s & r & H3 & H4 & H5).
    exists l, s, (r ++ [first]). split; [exact H3|]. split; [|exact H5].
    by rewrite reverse_cons, H4.
Qed.

(** A chain on schedule keeps its difficulty: if the look-back headers all carry
    the compact difficulty [nb] and every epoch took exactly the desired time, then
    both the regression and the EIP-37 rule answer [nb] again. *)
Theorem on_schedule_stable hs L interval initial nb first rest :
  hs = first :: rest -> rest <> [] ->
  0 < interval * L -> n_bits first = nb ->
  Forall (fun h => 0 <= timestamp h <= I64_MAX) hs -> on_schedule (interval * L) nb hs ->
  1 <= decode_compact_bits nb -> encode_compact_bits (decode_compact_bits nb) = nb ->
  is_u32 nb -> nb <> 0 ->
  calculate hs L interval initial = Return nb /\ eip37_calculate hs L interval initial = Return nb.
Proof.
  intros Hhs Hrest Hdes Hfirst Hts Hs Hdec Hrt Hu Hnz. set (d := decode_compact_bits nb) in *.
  assert (Hnorm : normalize_to_n_bits encode_compact_bits d initial = nb).
  { unfold normalize_to_n_bits. rewrite Hrt, as_u32_small by done. by destruct (Z.eqb_spec nb 0). }
  assert (Hcalc : calculate hs L interval initial = Return nb).
  { unfold Difficulty.calculate. rewrite Hhs. cbn [head].
    destruct (last (first :: rest)) as [l|] eqn:El; [|by apply last_None in El].
    rewrite <- Hhs. destruct (_ || _); cbn [outcome_bind].
    - unfold required_difficulty. rewrite Hfirst. fold d. by rewrite Hnorm.
    - destruct (on_schedule_data _ _ _ Hdes Hts Hs) as (data & -> & Hd1 & Hd2 & Hd3).
      cbn [outcome_bind]. rewrite (interpolate_constant data L d); [| |done|done].
      + cbn [outcome_bind]. destruct (Z.leb_spec 1 d); [|lia]. by rewrite Hnorm.
      + intros ->. rewrite Hhs in Hd1. cbn in Hd1. by destruct rest. }
  split; [done|]. unfold Difficulty.eip37_calculate.
  destruct (Nat.ltb_spec (length hs) 2) as [Hlt|_].
  { rewrite Hhs in Hlt. destruct rest; [done|]. cbn in Hlt. lia. }
  destruct (on_schedule_last _ _ _ _ _ Hhs Hrest Hts Hs) as
    (l & s & r & -> & Hrev & Hnl & Htl & Hs0 & Hl0). rewrite Hcalc. cbn [outcome_bind].
  unfold bitcoin_calculate. rewrite Hrev.
  assert (as_i64 (as_i64 (timestamp l) - as_i64 (timestamp s)) = interval * L) as ->.
  { rewrite Htl in *. int_unfold. Z.div_mod_to_equations. lia. }
  unfold required_difficulty. rewrite Hnl. fold d. rewrite div_big_ok by lia. cbn [outcome_bind].
  rewrite Z.quot_mul by lia.
  assert (Hcap : cap_difficulty d d = d).
  { unfold cap_difficulty. rewrite !Z.quot_div_nonneg by lia.
    destruct (Z.ltb_spec (d * 3 / 2) d); [Z.div_mod_to_equations; lia|].
    destruct (Z.ltb_spec d (d / 2)); [Z.div_mod_to_equations; lia|done]. }
  rewrite Hcap, div_big_ok by done. cbn [outcome_bind].
  replace (d + d) with (d * 2) by lia. rewrite Z.quot_mul by done. by rewrite Hcap, Hnorm.
Qed.

Lemma cap_range diff reference :
  0 <= reference -> reference / 2 <= cap_difficulty diff reference <= reference * 3 / 2.
Proof.
  intros Hr. unfold cap_difficulty. rewrite !Z.quot_div_nonneg by lia.
  destruct (Z.ltb_spec (reference * 3 / 2) diff); [Z.div_mod_to_equations; lia|].
  destruct (Z.ltb_spec diff (reference / 2)); [Z.div_mod_to_equations; lia|lia].
Qed.

(** One EIP-37 adjustment moves the difficulty by at most half: whatever the
    headers' timestamps, the answer encodes a difficulty between one half and three
    halves of the last header's. *)
Theorem eip37_damped hs L interval initial n l :
  last hs = Some l -> 0 <= required_difficulty decode_compact_bits l ->
  eip37_calculate hs L interval initial = Return n ->
  exists d, n = normalize_to_n_bits encode_compact_bits d initial /\
    required_difficulty decode_compact_bits l / 2 <= d
      <= required_difficulty decode_compact_bits l * 3 / 2.
Proof.
  intros Hl Hr He. unfold Difficulty.eip37_calculate in He. rewrite Hl in He.
  destruct (length hs <? 2)%nat; [done|].
  destruct (calculate hs L interval initial); [|done..]. cbn [outcome_bind] in He.
  destruct (bitcoin_calculate _ _ _ _); [|done..]. cbn [outcome_bind] in He.
  rewrite div_big_ok in He by done. cbn [outcome_bind] in He. simplify_eq.
  eexists. split; [done|]. by apply cap_range.
Qed.

End Chain.

(** ** Concrete chains *)

(** A header every epoch of 128 blocks, 45 seconds a block, at difficulty 1000. *)
Definition ex_header (h : Z) : Header := mk_header 4 h 0 0 0 (45000 * h) 1000 h 0 (0, 0, 0).
Definition ex_chain (h : Z) : option Header :=
  if (0 <? h) && (h <? 2000) then Some (ex_header h) else None.

Lemma expected_difficulty_total_witness :
  expected_difficulty (fun x => x) (fun x => x) config_testnet ex_chain (ex_header 1024) = Return 1000
  /\ match expected_difficulty (fun x => x) (fun x => x) config_testnet ex_chain (ex_header 1024) with
     | Return _ => True
     | Fail e => e = TwoHeadersNeeded /\ eip37_active config_testnet 1025 = true
     | Panic => False
     end.
Proof.
  split; [vm_compute; reflexivity|].
  apply (expected_difficulty_total (fun x => x) (fun x => x) config_testnet
    ex_chain (ex_header 1024)).
  - unfold ex_chain. split.
    + intros h hd. destruct (Z.ltb_spec 0 h); [|done]. destruct (Z.ltb_spec h 2000); [|done].
      intros [= <-]. split; [done|]. unfold is_u64, U64_MAX. cbn [ex_header timestamp]. lia.
    + intros h1 h2 hd1 hd2 Hlt. repeat case_match; try done. intros [= <-] [= <-].
      cbn [ex_header timestamp]. lia.
  - split; [vm_compute; discriminate|]. intros h. cbn. unfold U32_MAX. lia.
  - cbn. unfold U32_MAX. lia.
Defined.

Definition ex_headers : list Header := ex_header <$> [128; 256; 384].

Lemma on_schedule_stable_witness :
  calculate (fun x => x) (fun x => x) ex_headers 128 45000 7 = Return 1000 /\
  eip37_calculate (fun x => x) (fun x => x) ex_headers 128 45000 7 = Return 1000.
Proof.
  apply (on_schedule_stable (fun x => x) (fun x => x) ex_headers 128 45000 7 1000 (ex_header 128)
    (ex_header <$> [256; 384])).
  - reflexivity.
  - discriminate.
  - lia.
  - reflexivity.
  - repeat constructor; cbn; unfold I64_MAX; lia.
  - cbn. lia.
  - lia.
  - reflexivity.
  - unfold is_u32, U32_MAX. lia.
  - lia.
Defined.

Lemma eip37_damped_witness :
  exists d, 1000 = normalize_to_n_bits (fun x => x) d 7 /\ 1000 / 2 <= d <= 1000 * 3 / 2.
Proof.
  apply (eip37_damped (fun x => x) (fun x => x) ex_headers 128 45000 7 1000 (ex_header 384)).
  - reflexivity.
  - vm_compute. discriminate.
  - vm_compute. reflexivity.
Defined.

End Difficulty.
