(* ===== verification/Pow.v ===== *)
(** * Proof of work

    src/chain/src/pow.rs: the Autolykos target of a header's compact difficulty and the
    check of its hit. The Autolykos scheme of ergo_chain_types is the interface
    [PowScheme]. *)

From S2P Require Import Prelude Header.

(** [autolykos_pow_scheme]: the compact encoding of difficulties, the order of the
    group, and the hit of a header, [None] where computing it is an error. *)
Class PowScheme := {
  decode_compact_bits : Z -> Z;
  encode_compact_bits : Z -> Z;
  order_bigint : Z;
  pow_hit : Header -> option Z;
}.

Module Pow.

Inductive pow_error := PowCompute | PowInvalid (hit target : Z).

Section Pow.
Context `{PowScheme}.

(** [pow_target]: dividing a [BigInt] by zero panics. *)
Definition pow_target (n_bits : Z) : outcome pow_error Z :=
  let d := decode_compact_bits n_bits in
  if d =? 0 then Panic else Return (Z.quot order_bigint d).

Definition verify_pow (header : Header) : outcome pow_error unit :=
  match pow_hit header with
  | None => Fail PowCompute
  | Some hit =>
      let! target := pow_target (n_bits header) in
      if hit <? target then Return tt else Fail (PowInvalid hit target)
  end.

End Pow.

(** ** The check, on every branch *)

Section Props.
Context `{PowScheme}.

(** C34: for a header whose difficulty [d] is positive the check passes exactly when the
    hit computes and [(hit + 1) * d <= q], that is when the hit is strictly below
    [q / d]; a header whose compact difficulty is negative never passes; and a header
    whose compact difficulty decodes to zero panics instead of being rejected as soon
    as its hit computes. *)
Theorem verify_pow_correct h :
  0 < order_bigint -> (forall hit, pow_hit h = Some hit -> 0 <= hit) ->
  let d := decode_compact_bits (n_bits h) in
  (0 < d ->
     verify_pow h = Return tt <-> exists hit, pow_hit h = Some hit /\ (hit + 1) * d <= order_bigint) /\
  (d < 0 -> verify_pow h <> Return tt /\ verify_pow h <> Panic) /\
  (d = 0 -> is_Some (pow_hit h) <-> verify_pow h = Panic).
Proof.
  intros Hq Hh d. unfold verify_pow, pow_target. fold d.
  destruct (pow_hit h) as [hit|]; [specialize (Hh hit eq_refl)|clear Hh];
    (split_and!; intros Hd; destruct (Z.eqb_spec d 0); try lia; cbn).
  - rewrite Z.quot_div_nonneg by lia. destruct (Z.ltb_spec hit (order_bigint / d)).
    + split; [|done]. intros _. exists hit. split; [done|].
      pose proof (Z.mul_div_le order_bigint d ltac:(lia)). nia.
    + split; [done|]. intros (? & [= <-] & Hle).
      assert (hit + 1 <= order_bigint / d) by (apply Z.div_le_lower_bound; lia). lia.
  - assert (Z.quot order_bigint d <= 0).
    { replace d with (- (- d)) by lia. rewrite Z.quot_opp_r by lia.
      pose proof (Z.quot_pos order_bigint (- d)). lia. }
    destruct (Z.ltb_spec hit (Z.quot order_bigint d)); [lia|done].
  - split; [done|]. eauto.
  - split; [done|]. naive_solver.
  - done.
  - split; [|done]. by intros [].
Qed.

End Props.

(** A toy scheme whose compact form is the difficulty itself. *)
#[local] Instance toy_pow : PowScheme := {
  decode_compact_bits b := b;
  encode_compact_bits d := d;
  order_bigint := 1000;
  pow_hit h := Some (timestamp h mod 7);
}.

Definition ex_pow_header (bits : Z) : Header := mk_header 2 7 6 0 0 38 bits 10 0 (0, 0, 0).

Lemma verify_pow_correct_witness :
  (verify_pow (ex_pow_header 250) = Return tt <->
     exists hit, pow_hit (ex_pow_header 250) = Some hit /\ (hit + 1) * 250 <= 1000) /\
  (is_Some (pow_hit (ex_pow_header 0)) <-> verify_pow (ex_pow_header 0) = Panic).
Proof.
  destruct (verify_pow_correct (ex_pow_header 250)) as (H1 & _ & _);
    [reflexivity|intros ? [= <-]; vm_compute; discriminate|].
  destruct (verify_pow_correct (ex_pow_header 0)) as (_ & _ & H2);
    [reflexivity|intros ? [= <-]; vm_compute; discriminate|].
  split; [by apply H1|by apply H2].
Defined.

End Pow.
