(* ===== verification/HeaderStore.v ===== *)
(** * The lazy header store

    [LazyHeaderStore] of src/chain/src/cache.rs: two LRU caches, one of headers and
    one of cumulative scores, each over an optional loader that reads the node's
    persistent store. The [lru] crate is an interface, [LruCache], with its documented
    behaviour as [LruLaws]; [AssocLru] is an instance of both. *)

From S2P Require Import Prelude Header.

(** ** The LRU cache interface *)

(** [lru::LruCache]: a key is a height. [lru_get] also moves the entry to the front. *)
Class LruCache (C : Type -> Type) := {
  lru_new : forall {V}, Z -> C V;
  lru_get : forall {V}, Z -> C V -> option V * C V;
  lru_peek : forall {V}, Z -> C V -> option V;
  lru_put : forall {V}, Z -> V -> C V -> C V;
  lru_pop : forall {V}, Z -> C V -> C V;
  lru_clear : forall {V}, C V -> C V;
  lru_resize : forall {V}, Z -> C V -> C V;
  lru_len : forall {V}, C V -> Z;
}.

(** What the crate documents: a put makes its key resident and may evict another key,
    a resize may evict, and nothing else changes what a key holds. *)
Class LruLaws (C : Type -> Type) `{LruCache C} : Prop := {
  peek_new : forall V n k, lru_peek k (lru_new (V := V) n) = None;
  get_peek : forall V k (c : C V), (lru_get k c).1 = lru_peek k c;
  peek_get : forall V k k' (c : C V), lru_peek k' (lru_get k c).2 = lru_peek k' c;
  peek_put_eq : forall V k (v : V) c, lru_peek k (lru_put k v c) = Some v;
  peek_put_ne : forall V k k' (v w : V) c,
    k' <> k -> lru_peek k' (lru_put k v c) = Some w -> lru_peek k' c = Some w;
  peek_pop_eq : forall V k (c : C V), lru_peek k (lru_pop k c) = None;
  peek_pop_ne : forall V k k' (c : C V), k' <> k -> lru_peek k' (lru_pop k c) = lru_peek k' c;
  peek_clear : forall V k (c : C V), lru_peek k (lru_clear c) = None;
  peek_resize : forall V n k (c : C V) w, lru_peek k (lru_resize n c) = Some w -> lru_peek k c = Some w;
}.

(** ** The store *)

Module HeaderStore.

Definition DEFAULT_CACHE_CAPACITY : Z := 16384.

Section Store.
Context {C : Type -> Type} `{LruCache C}.

Record LazyHeaderStore := mk_store {
  headers : C Header;
  scores : C Z;
  header_loader : option (Z -> option Header);
  score_loader : option (Z -> option Z);
}.

Definition with_capacity (capacity : Z) : LazyHeaderStore :=
  mk_store (lru_new capacity) (lru_new capacity) None None.

Definition with_default_capacity : LazyHeaderStore := with_capacity DEFAULT_CACHE_CAPACITY.

Definition resize (capacity : Z) (s : LazyHeaderStore) : LazyHeaderStore :=
  mk_store (lru_resize capacity (headers s)) (lru_resize capacity (scores s))
           (header_loader s) (score_loader s).

Definition set_header_loader (loader : Z -> option Header) (s : LazyHeaderStore) : LazyHeaderStore :=
  mk_store (headers s) (scores s) (Some loader) (score_loader s).

Definition set_score_loader (loader : Z -> option Z) (s : LazyHeaderStore) : LazyHeaderStore :=
  mk_store (headers s) (scores s) (header_loader s) (Some loader).

Definition has_header_loader (s : LazyHeaderStore) : bool := bool_decide (is_Some (header_loader s)).
Definition has_score_loader (s : LazyHeaderStore) : bool := bool_decide (is_Some (score_loader s)).

(** The cache first, then the loader, whose answer is cached. *)
Definition get_cached {V} (loader : option (Z -> option V)) (height : Z) (cache : C V)
    : option V * C V :=
  match lru_get height cache with
  | (Some v, cache') => (Some v, cache')
  | (None, cache') =>
      match loader with
      | None => (None, cache')
      | Some load =>
          match load height with
          | None => (None, cache')
          | Some v => (Some v, lru_put height v cache')
          end
      end
  end.

Definition get_header (height : Z) (s : LazyHeaderStore) : option Header * LazyHeaderStore :=
  let '(r, cache) := get_cached (header_loader s) height (headers s) in
  (r, mk_store cache (scores s) (header_loader s) (score_loader s)).

Definition get_score (height : Z) (s : LazyHeaderStore) : option Z * LazyHeaderStore :=
  let '(r, cache) := get_cached (score_loader s) height (scores s) in
  (r, mk_store (headers s) cache (header_loader s) (score_loader s)).

Definition put (height : Z) (header : Header) (score : Z) (s : LazyHeaderStore) : LazyHeaderStore :=
  mk_store (lru_put height header (headers s)) (lru_put height score (scores s))
           (header_loader s) (score_loader s).

Definition evict (height : Z) (s : LazyHeaderStore) : LazyHeaderStore :=
  mk_store (lru_pop height (headers s)) (lru_pop height (scores s))
           (header_loader s) (score_loader s).

Definition clear (s : LazyHeaderStore) : LazyHeaderStore :=
  mk_store (lru_clear (headers s)) (lru_clear (scores s)) (header_loader s) (score_loader s).

End Store.
Arguments LazyHeaderStore : clear implicits.

(** ** What a read returns and leaves behind *)

Section Laws.
Context {C : Type -> Type} `{LruLaws C}.

(** What a read of a height answers. *)
Definition resolve {V} (loader : option (Z -> option V)) (cache : C V) (k : Z) : option V :=
  match lru_peek k cache with
  | Some v => Some v
  | None => match loader with Some load => load k | None => None end
  end.

(** After a read every resident entry was resident before or is what the loader has. *)
Lemma get_cached_spec {V} (loader : option (Z -> option V)) k cache :
  let '(r, cache') := get_cached loader k cache in
  r = resolve loader cache k /\
  (forall v, r = Some v -> lru_peek k cache' = Some v) /\
  (forall k' v, lru_peek k' cache' = Some v ->
     lru_peek k' cache = Some v \/ exists load, loader = Some load /\ load k' = Some v).
Proof.
  unfold get_cached, resolve. pose proof (get_peek V k cache) as Hg.
  assert (forall k', lru_peek k' (lru_get k cache).2 = lru_peek k' cache) as Hp
    by (intros; apply peek_get).
  destruct (lru_get k cache) as [[v|] cache']; cbn in Hg, Hp; rewrite <- Hg.
  { split_and!; [done| |]; [intros ? [= <-]|intros k' w]; rewrite Hp; auto. }
  destruct loader as [load|]; [destruct (load k) as [v|] eqn:El|];
    (split_and!; [done|try done..]).
  - intros ? [= <-]. apply peek_put_eq.
  - intros k' w Hw. destruct (decide (k' = k)) as [->|Hne].
    + rewrite peek_put_eq in Hw. simplify_eq. right. eauto.
    + left. rewrite <- Hp. by eapply peek_put_ne.
  - intros k' w. rewrite Hp. auto.
  - intros k' w. rewrite Hp. auto.
Qed.

End Laws.
End HeaderStore.

(** ** An instance *)

(** Entries from the most recently used; the capacity is [S extra]. *)
Record assoc_lru (V : Type) := mk_assoc { extra : nat; entries : list (Z * V) }.
Arguments mk_assoc {V}.
Arguments extra {V}.
Arguments entries {V}.

Module AssocLru.

Fixpoint find {V} (k : Z) (l : list (Z * V)) : option V :=
  match l with
  | [] => None
  | (k', v) :: l' => if k =? k' then Some v else find k l'
  end.

Definition drop_key {V} (k : Z) (l : list (Z * V)) : list (Z * V) := filter (fun e => e.1 <> k) l.

#[export] Instance assoc_cache : LruCache assoc_lru := {
  lru_new V n := mk_assoc (Z.to_nat (n - 1)) [];
  lru_get V k c :=
    match find k (entries c) with
    | Some v => (Some v, mk_assoc (extra c) ((k, v) :: drop_key k (entries c)))
    | None => (None, c)
    end;
  lru_peek V k c := find k (entries c);
  lru_put V k v c := mk_assoc (extra c) (take (S (extra c)) ((k, v) :: drop_key k (entries c)));
  lru_pop V k c := mk_assoc (extra c) (drop_key k (entries c));
  lru_clear V c := mk_assoc (extra c) [];
  lru_resize V n c := mk_assoc (Z.to_nat (n - 1)) (take (S (Z.to_nat (n - 1))) (entries c));
  lru_len V c := Z.of_nat (length (entries c));
}.

Lemma find_drop_key {V} k k' (l : list (Z * V)) :
  find k' (drop_key k l) = if decide (k' = k) then None else find k' l.
Proof.
  unfold drop_key. induction l as [|[k1 v] l IH]; [by case_decide|].
  rewrite filter_cons. cbn [fst find]. destruct (decide (k1 <> k)); cbn [find]; rewrite IH;
    destruct (Z.eqb_spec k' k1); case_decide; naive_solver.
Qed.

Lemma find_take {V} n k (l : list (Z * V)) v : find k (take n l) = Some v -> find k l = Some v.
Proof.
  revert n. induction l as [|[k1 w] l IH]; intros [|n]; cbn; try done.
  destruct (k =? k1); [done|]. apply IH.
Qed.

#[export] Instance assoc_laws : LruLaws assoc_lru.
Proof.
  split; intros *; cbn.
  - done.
  - by destruct (find k (entries c)).
  - destruct (find k (entries c)) eqn:E; [|done]. cbn. rewrite find_drop_key.
    destruct (Z.eqb_spec k' k) as [->|]; [done|]. by case_decide.
  - by rewrite Z.eqb_refl.
  - intros Hne. destruct (Z.eqb_spec k' k); [done|]. intros Hw%find_take.
    rewrite find_drop_key in Hw. by case_decide.
  - rewrite find_drop_key. by case_decide.
  - intros Hne. rewrite find_drop_key. by case_decide.
  - done.
  - apply find_take.
Qed.

End AssocLru.
