(* ===== verification/HeaderChain.v ===== *)
(** * The header chain

    [HeaderChain] of src/chain/src/chain.rs: the best chain as an index from header id
    to height over the lazy header store. Operations are actions on the chain's state
    with three outcomes (a value, a [ChainError], a panic); a read through the store is
    such an action too, because it moves cache entries. Arithmetic is the release
    build's: it wraps, and the debug assertions of [push_header] and [pop_header] are
    not there. The clock and the loaders are arguments and fields. *)

From S2P Require Import Prelude Frame ChainConfig VotingCodec Voting Header Difficulty Pow HeaderStore.
Import ChainConfig VotingCodec Voting Difficulty Pow HeaderStore.

Module HeaderChain.

(** ** Errors and results *)

Inductive reorg_error :=
  | ChainTooShort
  | AlternativeHeight (alternative tip : Z)
  | AlternativeParent
  | ContinuationParent
  | EmptyBranch
  | EmptyChain
  | BelowFloor (fork_point floor : Z)
  | NotInChain (fork_point : Z)
  | ForkPointUnavailable (fork_point : Z)
  | BranchNotConnected
  | HeaderUnavailable (height : Z)
  | ScoreUnavailable (height : Z).

Inductive parameters_error :=
  | LoaderNotSet
  | ExtensionMissing (height : Z)
  | BoundaryHeaderMissing (height : Z)
  | ExtensionIdMismatch (height : Z)
  | BoundaryIsZero
  | VotingLengthIsZero
  | EpochEndOverflows (height : Z)
  | HeaderMissing (height : Z)
  | ForkVoteProhibited (height : Z).

Inductive inconsistency := Unresolvable | MisFiled (says : Z) | MappedTo (height : Z) | NotIndexed.

Inductive ChainError :=
  | PowError (e : pow_error)
  | ParentNotFound (parent : id32)
  | NonSequentialHeight (expected got : Z)
  | TimestampNotIncreasing (parent_ts got : Z)
  | TimestampTooFarInFuture (timestamp max_allowed : Z)
  | WrongDifficulty (height expected got : Z)
  | InvalidGenesisParent (got : id32)
  | InvalidGenesisHeight (got : Z)
  | GenesisIdMismatch (expected got : id32)
  | DifficultyCalc (e : difficulty_error)
  | Reorg (e : reorg_error)
  | VotingError (e : voting_error)
  | ParametersError (e : parameters_error)
  | ChainNotEmpty
  | BrokenParentLink (height : Z) (child_id expected_parent found_parent : id32)
  | IndexInconsistency (height : Z) (detail : inconsistency).

Inductive RestoreError := NonContiguousHeights (expected got : Z) | DuplicateHeight (height : Z).

Inductive AppendResult := Extended | Forked (fork_height : Z).

Record InstalledHeader := mk_installed {
  installed_id : id32;
  installed_height : Z;
  score_be : list Z;
}.

(** [BigUint::to_bytes_be]: the fewest bytes, at least one. *)
Definition to_bytes_be (n : Z) : list Z :=
  (fun i => (n / 256 ^ i) mod 256) <$> reverse (seqZ 0 (Z.log2 n / 8 + 1)).

(** [ordinary_param] of chain.rs: the ids one to eight. *)
Definition ordinary_param_1_8 (signed_id : Z) : option Z :=
  let id := abs_i8 signed_id in if (1 <=? id) && (id <=? 8) then Some id else None.

(** [hashbrown_buckets]: the buckets of a hash table that reports [capacity]. *)
Definition USIZE_MAX : Z := U64_MAX.

Definition checked_next_power_of_two (n : Z) : option Z :=
  let p := 2 ^ Z.log2_up n in if p <=? USIZE_MAX then Some p else None.

Definition hashbrown_buckets (capacity : Z) : Z :=
  if capacity =? 0 then 0
  else
    let unrounded :=
      if capacity <? 8 then capacity + 1
      else Z.min ((capacity + 6) / 7 * 8) USIZE_MAX in
    default USIZE_MAX (checked_next_power_of_two unrounded).

Definition genesis_parent_id : id32 := 0.

(** ** State *)

Section Chain.
Context {C : Type -> Type} `{LruCache C} `{PowScheme} {RuleStatus : Type} `{SigmaIO RuleStatus}.

(** [header_difficulty]: a negative difficulty counts as zero. *)
Definition header_difficulty (h : Header) : Z := Z.max 0 (decode_compact_bits (n_bits h)).

Record HeaderChain := mk_chain {
  config : ChainConfig;
  base_height : option Z;
  by_id : gmap id32 Z;
  active_parameters : table;
  active_proposed_update_bytes : list Z;
  extension_loader : option (Z -> option (list Z));
  light_client_mode : bool;
  lazy : LazyHeaderStore C;
}.

Definition with_lazy (c : HeaderChain) (s : LazyHeaderStore C) : HeaderChain :=
  mk_chain (config c) (base_height c) (by_id c) (active_parameters c)
    (active_proposed_update_bytes c) (extension_loader c) (light_client_mode c) s.

Definition with_index (c : HeaderChain) (base : option Z) (ids : gmap id32 Z) : HeaderChain :=
  mk_chain (config c) base ids (active_parameters c)
    (active_proposed_update_bytes c) (extension_loader c) (light_client_mode c) (lazy c).

Definition with_light_mode (c : HeaderChain) (light : bool) : HeaderChain :=
  mk_chain (config c) (base_height c) (by_id c) (active_parameters c)
    (active_proposed_update_bytes c) (extension_loader c) light (lazy c).

Definition with_parameters (c : HeaderChain) (params : table) (update : list Z) : HeaderChain :=
  mk_chain (config c) (base_height c) (by_id c) params update
    (extension_loader c) (light_client_mode c) (lazy c).

(** ** Actions *)

Definition M (A : Type) : Type := HeaderChain -> outcome ChainError A * HeaderChain.

Definition ret {A} (a : A) : M A := fun c => (Return a, c).
Definition fail {A} (e : ChainError) : M A := fun c => (Fail e, c).
Definition panic {A} : M A := fun c => (Panic, c).
Definition gets {A} (f : HeaderChain -> A) : M A := fun c => (Return (f c), c).
Definition modify (f : HeaderChain -> HeaderChain) : M unit := fun c => (Return tt, f c).

Definition bind {A B} (m : M A) (k : A -> M B) : M B := fun c =>
  match m c with
  | (Return a, c') => k a c'
  | (Fail e, c') => (Fail e, c')
  | (Panic, c') => (Panic, c')
  end.

(** [if let Err(e) = m]: the error as a value. *)
Definition catch {A} (m : M A) : M (result ChainError A) := fun c =>
  match m c with
  | (Return a, c') => (Return (Ok a), c')
  | (Fail e, c') => (Return (Err e), c')
  | (Panic, c') => (Panic, c')
  end.

Definition lift {E A} (inject : E -> ChainError) (o : outcome E A) : M A :=
  match o with
  | Return a => ret a
  | Fail e => fail (inject e)
  | Panic => panic
  end.

Definition some_or {A} (o : option A) (e : ChainError) : M A :=
  match o with Some a => ret a | None => fail e end.

(** [expect] and [unwrap]. *)
Definition expect_some {A} (o : option A) : M A :=
  match o with Some a => ret a | None => panic end.

Definition ensure (b : bool) (e : ChainError) : M unit := if b then ret tt else fail e.

Local Notation "'let*' x ':=' m 'in' k" := (bind m (fun x => k))
  (at level 10, x pattern, m at level 100, k at level 200).
Local Notation "m ';;' k" := (bind m (fun _ => k)) (at level 100, right associativity).

(** ** Construction *)

Definition new (cfg : ChainConfig) : HeaderChain :=
  mk_chain cfg None ∅ (default_parameters (network cfg))
    (default_proposed_update_bytes (RuleStatus := RuleStatus) (network cfg))
    None false with_default_capacity.

(** The loop of [restore]: the index and the height of the last entry. *)
Fixpoint restore_entries (entries : list (Z * id32)) (base prev : option Z) (ids : gmap id32 Z)
    : result RestoreError (option Z * gmap id32 Z) :=
  match entries with
  | [] => Ok (base, ids)
  | (height, id) :: entries' =>
      let? base' :=
        match prev with
        | None => Ok (Some height)
        | Some p =>
            let expected := add_u32 p 1 in
            if height =? expected then Ok base else Err (NonContiguousHeights expected height)
        end in
      if bool_decide (is_Some (ids !! id)) then Err (DuplicateHeight height)
      else restore_entries entries' base' (Some height) (<[id := height]> ids)
  end.

Definition restore (cfg : ChainConfig) (entries : list (Z * id32)) : result RestoreError HeaderChain :=
  let? (base, ids) := restore_entries entries None None ∅ in
  Ok (mk_chain cfg base ids (default_parameters (network cfg))
        (default_proposed_update_bytes (RuleStatus := RuleStatus) (network cfg))
        None (1 <? default 1 base) with_default_capacity).

(** ** Queries *)

Definition len (c : HeaderChain) : Z := Z.of_nat (size (by_id c)).
Definition is_empty (c : HeaderChain) : bool := bool_decide (by_id c = ∅).

(** [height]: zero on an empty chain. *)
Definition chain_height (c : HeaderChain) : Z :=
  match base_height c with
  | Some base => if is_empty c then 0 else sub_u32 (add_u32 base (as_u32 (len c))) 1
  | None => 0
  end.

Definition contains (id : id32) (c : HeaderChain) : bool := bool_decide (is_Some (by_id c !! id)).
Definition height_of (id : id32) (c : HeaderChain) : option Z := by_id c !! id.

(** [self.lazy.get_header] and [self.lazy.get_score]. *)
Definition lazy_header (k : Z) : M (option Header) := fun c =>
  let '(r, s) := get_header k (lazy c) in (Return r, with_lazy c s).
Definition lazy_score (k : Z) : M (option Z) := fun c =>
  let '(r, s) := get_score k (lazy c) in (Return r, with_lazy c s).

(** Whether a height is in the chain's range. *)
Definition in_range (k : Z) (c : HeaderChain) : bool :=
  match base_height c with
  | None => false
  | Some base => negb ((k <? base) || (chain_height c <? k))
  end.

Definition header_at (k : Z) : M (option Header) :=
  let* inside := gets (in_range k) in
  if inside : bool then
    let* r := lazy_header k in
    match r with
    | None => ret None
    | Some h =>
        let* ids := gets by_id in
        ret (if bool_decide (ids !! header_id h = Some k) then Some h else None)
    end
  else ret None.

Definition score_at (k : Z) : M (option Z) :=
  let* inside := gets (in_range k) in
  if inside : bool then lazy_score k else ret None.

Definition tip : M Header :=
  let* empty := gets is_empty in
  if empty : bool then panic
  else
    let* k := gets chain_height in
    let* r := header_at k in
    expect_some r.

Definition cumulative_score : M Z :=
  let* empty := gets is_empty in
  if empty : bool then ret 0
  else
    let* k := gets chain_height in
    let* r := score_at k in
    ret (default 0 r).

(** [filter_map] of [header_at] over a list of heights. *)
Fixpoint headers_at (ks : list Z) : M (list Header) :=
  match ks with
  | [] => ret []
  | k :: ks' =>
      let* r := header_at k in
      let* rest := headers_at ks' in
      ret (match r with Some h => h :: rest | None => rest end)
  end.

Definition headers_from (k count : Z) : M (list Header) :=
  let* empty := gets is_empty in
  if (count =? 0) || empty then ret []
  else
    let* tip_height := gets chain_height in
    let* base := gets base_height in
    match base with
    | None => ret []
    | Some b =>
        if (tip_height <? k) || (k <? b) then ret []
        else
          let span := tip_height - k + 1 in
          headers_at ((fun i => add_u32 k (as_u32 i)) <$> seqZ 0 (Z.min count span))
    end.

Definition is_epoch_boundary (k : Z) (c : HeaderChain) : bool :=
  (0 <? k) && is_multiple_of k (voting_length (voting (config c))).

Definition reorg_floor (c : HeaderChain) : Z := default 1 (base_height c).

(** ** Wiring *)

Definition chain_set_header_loader (f : Z -> option Header) (c : HeaderChain) : HeaderChain :=
  with_lazy c (set_header_loader f (lazy c)).
Definition chain_set_score_loader (f : Z -> option Z) (c : HeaderChain) : HeaderChain :=
  with_lazy c (set_score_loader f (lazy c)).
Definition set_extension_loader (f : Z -> option (list Z)) (c : HeaderChain) : HeaderChain :=
  mk_chain (config c) (base_height c) (by_id c) (active_parameters c)
    (active_proposed_update_bytes c) (Some f) (light_client_mode c) (lazy c).
Definition set_cache_capacity (capacity : Z) (c : HeaderChain) : HeaderChain :=
  with_lazy c (resize capacity (lazy c)).
Definition apply_epoch_boundary_parameters (params : table) (update : list Z) (c : HeaderChain)
    : HeaderChain := with_parameters c params update.

(** ** Validation *)

(** [expected_difficulty] against the chain, its lookups through the store. *)
Definition chain_expected_difficulty (parent : Header) : M Z :=
  let* cfg := gets config in
  match v2_override cfg parent with
  | Some v2_n_bits => ret v2_n_bits
  | None =>
      match recalculation_heights cfg parent with
      | Some heights =>
          let* headers := headers_at heights in
          lift DifficultyCalc
            (recalculate decode_compact_bits encode_compact_bits cfg parent headers)
      | None => ret (n_bits parent)
      end
  end.

Definition validate_genesis (h : Header) : M unit :=
  let* cfg := gets config in
  ensure (parent_id h =? genesis_parent_id) (InvalidGenesisParent (parent_id h));;
  ensure (height h =? 1) (InvalidGenesisHeight (height h));;
  ensure (n_bits h =? initial_n_bits cfg)
    (WrongDifficulty (height h) (initial_n_bits cfg) (n_bits h));;
  lift PowError (verify_pow h);;
  match genesis_id cfg with
  | Some expected => ensure (header_id h =? expected) (GenesisIdMismatch expected (header_id h))
  | None => ret tt
  end.

Definition check_fork_vote_gate (h : Header) : M unit :=
  let* cfg := gets config in
  let* params := gets active_parameters in
  let* allowed := lift VotingError
    (of_result (check_fork_vote (voting cfg) (height h) (header_votes h) params)) in
  ensure allowed (ParametersError (ForkVoteProhibited (height h))).

(** The timestamp is above the parent's and at most the drift ahead of the clock. *)
Definition check_timestamp (now : Z) (parent h : Header) : M unit :=
  let* cfg := gets config in
  ensure (timestamp parent <? timestamp h)
    (TimestampNotIncreasing (timestamp parent) (timestamp h));;
  let max_allowed := add_u64 now (max_time_drift_ms cfg) in
  ensure (timestamp h <=? max_allowed) (TimestampTooFarInFuture (timestamp h) max_allowed).

Definition check_difficulty (parent h : Header) : M unit :=
  let* expected := chain_expected_difficulty parent in
  ensure (n_bits h =? expected) (WrongDifficulty (height h) expected (n_bits h)).

Definition check_votes (h : Header) : M unit :=
  lift VotingError (of_result (check_header_votes (header_votes h)));;
  check_fork_vote_gate h.

(** [validate_child]: a light client skips the difficulty check. *)
Definition validate_child (now : Z) (h : Header) : M unit :=
  let* t := tip in
  ensure (parent_id h =? header_id t) (ParentNotFound (parent_id h));;
  ensure (height h =? add_u32 (height t) 1) (NonSequentialHeight (add_u32 (height t) 1) (height h));;
  check_timestamp now t h;;
  let* light := gets light_client_mode in
  (if light : bool then ret tt else check_difficulty t h);;
  lift PowError (verify_pow h);;
  check_votes h.

(** [validate_reorg_header], against the current tip. *)
Definition validate_reorg_header (now : Z) (h : Header) (pow : bool) : M unit :=
  let* t := tip in
  check_timestamp now t h;;
  check_difficulty t h;;
  (if pow then lift PowError (verify_pow h) else ret tt);;
  check_votes h.

(** ** Mutation *)

Definition put_header (h : Header) (score : Z) : M unit :=
  modify (fun c => with_lazy c (put (height h) h score (lazy c))).
Definition index_header (h : Header) : M unit :=
  modify (fun c => with_index c (base_height c) (<[header_id h := height h]> (by_id c))).

Definition push_header (h : Header) : M unit :=
  let* base := gets base_height in
  let* parent_score :=
    match base with
    | None => modify (fun c => with_index c (Some (height h)) (by_id c));; ret 0
    | Some _ => let* r := score_at (sub_u32 (height h) 1) in expect_some r
    end in
  put_header h (parent_score + header_difficulty h);;
  index_header h.

Definition pop_header : M (option (Header * Z)) :=
  let* empty := gets is_empty in
  if empty : bool then ret None
  else
    let* tip_height := gets chain_height in
    let* r := header_at tip_height in
    let* h := expect_some r in
    let* s := score_at tip_height in
    modify (fun c => with_index c (base_height c) (delete (header_id h) (by_id c)));;
    modify (fun c => with_lazy c (evict tip_height (lazy c)));;
    modify (fun c => if is_empty c then with_index c None (by_id c) else c);;
    ret (Some (h, default 0 s)).

Definition restore_header (h : Header) (score : Z) : M unit :=
  let* base := gets base_height in
  (match base with
   | None => modify (fun c => with_index c (Some (height h)) (by_id c))
   | Some _ => ret tt
   end);;
  index_header h;;
  put_header h score.

Definition try_append (now : Z) (h : Header) : M AppendResult :=
  let* empty := gets is_empty in
  if empty : bool then
    validate_genesis h;;
    push_header h;;
    ret Extended
  else
    let* t := tip in
    if parent_id h =? header_id t then
      validate_child now h;;
      push_header h;;
      ret Extended
    else
      let* ids := gets by_id in
      match ids !! parent_id h with
      | Some parent_height =>
          ensure (height h =? add_u32 parent_height 1)
            (NonSequentialHeight (add_u32 parent_height 1) (height h));;
          ret (Forked parent_height)
      | None => fail (ParentNotFound (parent_id h))
      end.

(** ** Reorganization *)

Definition try_reorg (now1 now2 : Z) (alternative_tip continuation : Header) (pow : bool) : M id32 :=
  let* n := gets len in
  ensure (2 <=? n) (Reorg ChainTooShort);;
  let* tip_height := gets chain_height in
  let* t := tip in
  ensure (height alternative_tip =? tip_height)
    (Reorg (AlternativeHeight (height alternative_tip) tip_height));;
  ensure (parent_id alternative_tip =? parent_id t) (Reorg AlternativeParent);;
  ensure (parent_id continuation =? header_id alternative_tip) (Reorg ContinuationParent);;
  let expected := add_u32 (height alternative_tip) 1 in
  ensure (height continuation =? expected) (NonSequentialHeight expected (height continuation));;
  let* popped := pop_header in
  let* (old_tip, old_score) := expect_some popped in
  let* r := catch (validate_reorg_header now1 alternative_tip pow) in
  match r with
  | Err e => restore_header old_tip old_score;; fail e
  | Ok _ =>
      push_header alternative_tip;;
      let* r2 := catch (validate_reorg_header now2 continuation pow) in
      match r2 with
      | Err e =>
          let* popped2 := pop_header in
          expect_some popped2;;
          restore_header old_tip old_score;;
          fail e
      | Ok _ => push_header continuation;; ret (header_id old_tip)
      end
  end.

(** The headers and scores at the given heights, for the rollback. *)
Fixpoint save_heights (ks : list Z) : M (list (Header * Z)) :=
  match ks with
  | [] => ret []
  | k :: ks' =>
      let* r := header_at k in
      let* h := some_or r (Reorg (HeaderUnavailable k)) in
      let* r' := score_at k in
      let* s := some_or r' (Reorg (ScoreUnavailable k)) in
      let* rest := save_heights ks' in
      ret ((h, s) :: rest)
  end.

Fixpoint drain (saved : list (Header * Z)) : M unit :=
  match saved with
  | [] => ret tt
  | (h, _) :: saved' =>
      modify (fun c => with_index c (base_height c) (delete (header_id h) (by_id c)));;
      modify (fun c => with_lazy c (evict (height h) (lazy c)));;
      drain saved'
  end.

(** The branch loop: header [i] of the branch at height [fork + 1 + i]. *)
Fixpoint apply_branch (clock : Z -> Z) (fork_point i : Z) (pow : bool) (branch : list Header) : M unit :=
  match branch with
  | [] => ret tt
  | h :: branch' =>
      (if 0 <? i then
         let* t := tip in
         ensure (parent_id h =? header_id t) (ParentNotFound (parent_id h))
       else ret tt);;
      let expected := add_u32 (add_u32 fork_point 1) (as_u32 i) in
      ensure (height h =? expected) (NonSequentialHeight expected (height h));;
      validate_reorg_header (clock i) h pow;;
      push_header h;;
      apply_branch clock fork_point (i + 1) pow branch'
  end.

(** [while self.height() > fork_point { self.pop_header(); }]. *)
Fixpoint rewind (fuel : nat) (fork_point : Z) : M unit :=
  match fuel with
  | O => ret tt
  | S fuel' =>
      let* k := gets chain_height in
      if fork_point <? k then pop_header;; rewind fuel' fork_point else ret tt
  end.

Fixpoint reinstate (saved : list (Header * Z)) : M unit :=
  match saved with
  | [] => ret tt
  | (h, s) :: saved' => index_header h;; put_header h s;; reinstate saved'
  end.

(** The checks of [try_reorg_deep] before anything is changed, and what they save. *)
Definition reorg_prepare (fork_point : Z) (new_branch : list Header) : M (list (Header * Z)) :=
  match new_branch with
  | [] => fail (Reorg EmptyBranch)
  | first :: _ =>
      let* empty := gets is_empty in
      ensure (negb empty) (Reorg EmptyChain);;
      let* floor := gets reorg_floor in
      ensure (floor <=? fork_point) (Reorg (BelowFloor fork_point floor));;
      let* base := gets base_height in
      let* base := expect_some base in
      let* tip_height := gets chain_height in
      ensure (negb ((fork_point <? base) || (tip_height <? fork_point))) (Reorg (NotInChain fork_point));;
      let* r := header_at fork_point in
      let* fork_header := some_or r (Reorg (ForkPointUnavailable fork_point)) in
      ensure (parent_id first =? header_id fork_header) (Reorg BranchNotConnected);;
      let first_height := add_u32 fork_point 1 in
      save_heights (seqZ first_height (tip_height - first_height + 1))
  end.

Definition try_reorg_deep (clock : Z -> Z) (fork_point : Z) (new_branch : list Header) (pow : bool)
    : M (list id32) :=
  let* saved := reorg_prepare fork_point new_branch in
  drain saved;;
  let* r := catch (apply_branch clock fork_point 0 pow new_branch) in
  match r with
  | Err e =>
      rewind (length new_branch) fork_point;;
      reinstate saved;;
      fail e
  | Ok _ => ret (header_id <$> saved.*1)
  end.

(** ** Light-client install *)

Definition rollback_install : M unit :=
  modify (fun c =>
    with_lazy (with_light_mode (with_index c None ∅) false) (clear (lazy c))).

(** The walk over the suffix's tail; a failure rolls the whole install back. *)
Fixpoint install_tail (tail : list Header) (pow : bool) : M (list InstalledHeader) :=
  match tail with
  | [] => ret []
  | h :: tail' =>
      let* t := tip in
      if negb (parent_id h =? header_id t) then
        rollback_install;; fail (ParentNotFound (parent_id h))
      else if negb (height h =? add_u32 (height t) 1) then
        rollback_install;; fail (NonSequentialHeight (add_u32 (height t) 1) (height h))
      else
        let* r := catch (if pow then lift PowError (verify_pow h) else ret tt) in
        match r with
        | Err e => rollback_install;; fail e
        | Ok _ =>
            push_header h;;
            let* s := score_at (height h) in
            let* score := expect_some s in
            let* rest := install_tail tail' pow in
            ret (mk_installed (header_id h) (height h) (to_bytes_be score) :: rest)
        end
  end.

Definition install_from_nipopow_proof (suffix_head : Header) (suffix_tail : list Header) (pow : bool)
    : M (list InstalledHeader) :=
  let* empty := gets is_empty in
  ensure empty ChainNotEmpty;;
  (if pow then lift PowError (verify_pow suffix_head) else ret tt);;
  modify (fun c => with_index c (Some (height suffix_head)) (by_id c));;
  index_header suffix_head;;
  put_header suffix_head 0;;
  modify (fun c => with_light_mode c true);;
  let* rest := install_tail suffix_tail pow in
  ret (mk_installed (header_id suffix_head) (height suffix_head) (to_bytes_be 0) :: rest).

(** ** Linkage *)

Definition load_for_linkage_walk (k : Z) : M Header :=
  let* r := lazy_header k in
  let* h := some_or r (IndexInconsistency k Unresolvable) in
  ensure (height h =? k) (IndexInconsistency k (MisFiled (height h)));;
  let* ids := gets by_id in
  match ids !! header_id h with
  | Some mapped => ensure (mapped =? k) (IndexInconsistency k (MappedTo mapped));; ret h
  | None => fail (IndexInconsistency k NotIndexed)
  end.

(** The walk from [child], which is at height [k], down [links] links. *)
Fixpoint linkage_walk (links : nat) (k : Z) (child : Header) : M unit :=
  match links with
  | O => ret tt
  | S links' =>
      let* parent := load_for_linkage_walk (sub_u32 k 1) in
      ensure (parent_id child =? header_id parent)
        (BrokenParentLink k (header_id child) (parent_id child) (header_id parent));;
      linkage_walk links' (sub_u32 k 1) parent
  end.

Definition verify_best_chain_linkage (max_depth : option Z) : M unit :=
  let* base := gets base_height in
  match base with
  | None => ret tt
  | Some b =>
      let* tip_height := gets chain_height in
      if tip_height <=? b then ret tt
      else
        let links := tip_height - b in
        let checked_links := match max_depth with Some d => Z.min links d | None => links end in
        if checked_links =? 0 then ret tt
        else
          let* child := load_for_linkage_walk tip_height in
          linkage_walk (Z.to_nat checked_links) tip_height child
  end.

(** ** Voted parameters *)

(** The table entries a boundary extension overrides the defaults with. The source goes
    over a hash map, in no particular order. *)
Definition override_parameter (id value : Z) (t : table) : table :=
  match ordinary_param_1_8 id with
  | Some p => <[p := value]> t
  | None =>
      if id =? ID_SUBBLOCKS_PER_BLOCK then <[SubblocksPerBlock := value]> t
      else if id =? ID_BLOCK_VERSION then <[BlockVersion := value]> t
      else if id =? ID_SOFT_FORK_VOTES_COLLECTED then <[SoftForkVotesCollected := value]> t
      else if id =? ID_SOFT_FORK_STARTING_HEIGHT then <[SoftForkStartingHeight := value]> t
      else t
  end.

Definition recompute_active_parameters_from_storage (target_height : Z) : M unit :=
  let* cfg := gets config in
  let voting_len := voting_length (voting cfg) in
  if target_height <? voting_len then ret tt
  else if voting_len =? 0 then panic
  else
    let boundary_height := mul_u32 (target_height / voting_len) voting_len in
    if boundary_height =? 0 then ret tt
    else
      let* loader := gets extension_loader in
      let* load := some_or loader (ParametersError LoaderNotSet) in
      let* bytes := some_or (load boundary_height) (ParametersError (ExtensionMissing boundary_height)) in
      let* (id_bytes, fields) := lift VotingError (of_result (parse_extension_bytes bytes)) in
      let* r := header_at boundary_height in
      let* expected := some_or r (ParametersError (BoundaryHeaderMissing boundary_height)) in
      ensure (Frame.from_be_bytes id_bytes =? header_id expected)
        (ParametersError (ExtensionIdMismatch boundary_height));;
      let* parsed := lift VotingError (of_result (parse_parameters_from_kv fields ∅)) in
      let new_params := map_fold override_parameter (default_parameters (network cfg)) parsed in
      let extracted := extract_disabling_rules_from_kv fields in
      let proposed_update :=
        match extracted with
        | [] => default_proposed_update_bytes (RuleStatus := RuleStatus) (network cfg)
        | _ => extracted
        end in
      modify (fun c => with_parameters c new_params proposed_update).

(** The votes of the headers at the given heights. *)
Fixpoint vote_window (ks : list Z) : M (list (Z * votes)) :=
  match ks with
  | [] => ret []
  | k :: ks' =>
      let* r := header_at k in
      let* h := some_or r (ParametersError (HeaderMissing k)) in
      let* rest := vote_window ks' in
      ret ((k, header_votes h) :: rest)
  end.

Definition tally_just_ended_epoch (boundary : Z) : M (list (Z * Z)) :=
  let* cfg := gets config in
  let voting_len := voting_length (voting cfg) in
  let start := Z.max (sat_sub boundary voting_len) 1 in
  let* end_ := some_or (checked_sub boundary 1) (ParametersError BoundaryIsZero) in
  if end_ <? start then ret []
  else
    let* window := vote_window (seqZ start (end_ - start + 1)) in
    ret (tally_votes_seeded window boundary voting_len).

Definition count_votes_in_epoch (epoch_end_height : Z) : M (list (Z * Z)) :=
  let* cfg := gets config in
  let voting_len := voting_length (voting cfg) in
  ensure (negb (voting_len =? 0)) (ParametersError VotingLengthIsZero);;
  let* boundary := some_or (checked_add_u32 epoch_end_height 1)
                           (ParametersError (EpochEndOverflows epoch_end_height)) in
  let start := Z.max (sat_sub boundary voting_len) 1 in
  if epoch_end_height <? start then ret []
  else
    let* window := vote_window (seqZ start (epoch_end_height - start + 1)) in
    ret (tally_votes_seeded window boundary voting_len).

(** An update that does not parse is replaced by the empty one. *)
Definition normalized_update (block_proposed_update : list Z) : list Z :=
  if is_ok (parse_validation_settings_update (RuleStatus := RuleStatus) block_proposed_update)
  then block_proposed_update
  else encode_disabled_rules (RuleStatus := RuleStatus) [].

Definition compute_boundary_parameters_at (boundary : Z) (block_proposed_update : list Z)
    (boundary_fork_vote : bool) : M (table * ValidationSettingsUpdate RuleStatus) :=
  let* tally := tally_just_ended_epoch boundary in
  let* cfg := gets config in
  let* params := gets active_parameters in
  lift VotingError
    (of_result (compute_boundary_parameters (voting cfg) boundary params tally boundary_fork_vote
                  (normalized_update block_proposed_update))).

Definition has_fork_vote (v : votes) : bool := bool_decide (SOFT_FORK_VOTE ∈ slots v).

Definition compute_expected_parameters (boundary : Z) (block_proposed_update : list Z) : M table :=
  let* r := header_at boundary in
  let fork_vote := match r with Some h => has_fork_vote (header_votes h) | None => false end in
  let* (params, _) := compute_boundary_parameters_at boundary block_proposed_update fork_vote in
  ret params.

Definition compute_expected_parameters_for_candidate (boundary : Z) (block_proposed_update : list Z)
    (candidate_votes : votes) : M (table * ValidationSettingsUpdate RuleStatus) :=
  compute_boundary_parameters_at boundary block_proposed_update (has_fork_vote candidate_votes).

End Chain.
Arguments HeaderChain : clear implicits.
Arguments M : clear implicits.

(** The bucket count is recovered from the capacity a table reports: seven eighths of
    its buckets, or all but one in a table of four or eight. *)
Lemma hashbrown_buckets_inverts k :
  4 <= k <= 63 -> hashbrown_buckets (2 ^ k / 8 * 7) = 2 ^ k.
Proof.
  intros Hk. assert (2 ^ k = 2 ^ (k - 3) * 8) as Hp.
  { replace 8 with (2 ^ 3) by done. rewrite <- Z.pow_add_r by lia. f_equal. lia. }
  assert (2 ^ 1 <= 2 ^ (k - 3)) as Hlo by (apply Z.pow_le_mono_r; lia).
  assert (2 ^ k <= 2 ^ 63) as Hhi by (apply Z.pow_le_mono_r; lia).
  unfold hashbrown_buckets, checked_next_power_of_two, USIZE_MAX, U64_MAX.
  assert (2 ^ k / 8 * 7 = 2 ^ (k - 3) * 7) as -> by (rewrite Hp, Z.div_mul by lia; done).
  set (q := 2 ^ (k - 3)) in *. destruct (Z.eqb_spec (q * 7) 0); [lia|].
  destruct (Z.ltb_spec (q * 7) 8); [lia|].
  assert ((q * 7 + 6) / 7 = q) as -> by (symmetry; apply (Z.div_unique _ _ _ 6); lia).
  rewrite Z.min_l by lia. rewrite <- Hp, Z.log2_up_pow2 by lia.
  by destruct (Z.leb_spec (2 ^ k) 18446744073709551615); [|lia].
Qed.

Lemma hashbrown_buckets_small : hashbrown_buckets 3 = 4 /\ hashbrown_buckets 7 = 8 /\ hashbrown_buckets 0 = 0.
Proof. done. Qed.

End HeaderChain.
