(* ===== verification/HeaderChainInv.v ===== *)
(** * The header chain: what its operations do to the list of accepted headers

    The abstract state of [HeaderChain] is the list of headers of the best chain, from
    the base to the tip. [repr] relates it to the index and the lazy store, and the
    theorems say what each operation of chain.rs does to the list. Reads only move
    cache entries ([read_le]), so they keep the list.

    A header's id is the hash of its bytes. What the chain relies on is stated through
    [preimage], a partial inverse of the hash: a header is [genuine] when its id names
    it, and the loaders and the peers' parsed headers are genuine. *)

From S2P Require Import Prelude ChainConfig VotingCodec Voting Header Difficulty Pow HeaderStore HeaderChain.
Import ChainConfig VotingCodec Voting Difficulty Pow HeaderStore HeaderChain.

Module HeaderChainInv.

Create HintDb chain.

(** ** Linked lists of headers *)

Definition linked (hs : list Header) : Prop :=
  forall i a b, hs !! i = Some a -> hs !! S i = Some b ->
    parent_id b = header_id a /\ height b = height a + 1.

Lemma linked_snoc hs x :
  linked (hs ++ [x]) <->
  linked hs /\ (forall t, last hs = Some t -> parent_id x = header_id t /\ height x = height t + 1).
Proof.
  split.
  - intros Hl. split.
    + intros i a b Ha Hb. apply (Hl i); by apply lookup_app_l_Some.
    + intros t Ht. rewrite last_lookup in Ht. apply (Hl (pred (length hs))).
      * by apply lookup_app_l_Some.
      * pose proof (lookup_lt_Some _ _ _ Ht).
        replace (S (pred (length hs))) with (length hs) by lia. by apply list_lookup_middle.
  - intros [Hl Ht] i a b Ha Hb.
    apply lookup_app_Some in Hb as [Hb|[Hge Hb]].
    + apply (Hl i); [|done]. pose proof (lookup_lt_Some _ _ _ Hb).
      rewrite lookup_app_l in Ha by lia. done.
    + apply list_lookup_singleton_Some in Hb as [Hi <-].
      rewrite lookup_app_l in Ha by lia. apply Ht. rewrite last_lookup.
      by replace (pred (length hs)) with i by lia.
Qed.

Lemma linked_take n hs : linked hs -> linked (take n hs).
Proof. intros Hl i a b Ha Hb. apply lookup_take_Some in Ha as [Ha _], Hb as [Hb _]. by apply (Hl i). Qed.

Lemma linked_nil : linked [].
Proof. intros i a b Ha. by rewrite lookup_nil in Ha. Qed.

(** Heights grow by one from the head. *)
Lemma linked_height hs x0 i x :
  linked hs -> hs !! 0%nat = Some x0 -> hs !! i = Some x -> height x = height x0 + Z.of_nat i.
Proof.
  intros Hl H0. revert x. induction i as [|i IH]; intros x Hx; [simplify_eq; lia|].
  destruct (lookup_lt_is_Some_2 hs i) as [y Hy]; [apply lookup_lt_Some in Hx; lia|].
  destruct (Hl i y x Hy Hx) as [_ ->]. rewrite (IH y Hy). lia.
Qed.

Lemma linked_unique hs x y : linked hs -> x ∈ hs -> y ∈ hs -> height x = height y -> x = y.
Proof.
  intros Hl [i Hi]%list_elem_of_lookup [j Hj]%list_elem_of_lookup Heq.
  destruct (lookup_lt_is_Some_2 hs 0) as [x0 H0]; [apply lookup_lt_Some in Hi; lia|].
  rewrite (linked_height _ _ _ _ Hl H0 Hi), (linked_height _ _ _ _ Hl H0 Hj) in Heq.
  assert (i = j) as -> by lia. by simplify_eq.
Qed.

(** The last header is the highest. *)
Lemma linked_last hs t x : linked hs -> last hs = Some t -> x ∈ hs -> height x <= height t.
Proof.
  intros Hl Ht [i Hi]%list_elem_of_lookup. rewrite last_lookup in Ht.
  pose proof (lookup_lt_Some _ _ _ Hi).
  destruct (lookup_lt_is_Some_2 hs 0) as [x0 H0]; [lia|].
  rewrite (linked_height _ _ _ _ Hl H0 Hi), (linked_height _ _ _ _ Hl H0 Ht). lia.
Qed.

(** ** The index of a list *)

Definition ids (hs : list Header) : list id32 := header_id <$> hs.

Definition index (hs : list Header) : gmap id32 Z :=
  list_to_map ((fun x => (header_id x, height x)) <$> hs).

Lemma index_keys hs : ((fun x => (header_id x, height x)) <$> hs).*1 = ids hs.
Proof. unfold ids. rewrite <- list_fmap_compose. done. Qed.

Lemma index_lookup hs id k :
  NoDup (ids hs) -> index hs !! id = Some k <-> exists x, x ∈ hs /\ header_id x = id /\ height x = k.
Proof.
  intros Hn. unfold index. rewrite <- elem_of_list_to_map by by rewrite index_keys.
  rewrite list_elem_of_fmap. naive_solver.
Qed.

Lemma index_lookup_None hs id : index hs !! id = None <-> id ∉ ids hs.
Proof. unfold index. rewrite <- index_keys. symmetry. apply not_elem_of_list_to_map. Qed.

Lemma index_snoc hs x : header_id x ∉ ids hs -> index (hs ++ [x]) = <[header_id x := height x]> (index hs).
Proof. intros Hx. unfold index. rewrite fmap_app. cbn. apply list_to_map_snoc. by rewrite index_keys. Qed.

Lemma index_delete hs1 x hs2 :
  NoDup (ids (hs1 ++ x :: hs2)) -> delete (header_id x) (index (hs1 ++ x :: hs2)) = index (hs1 ++ hs2).
Proof.
  intros Hn. unfold index, ids in *. rewrite !fmap_app, fmap_cons in *.
  rewrite (list_to_map_proper _ ((header_id x, height x) ::
     ((fun x => (header_id x, height x)) <$> hs1) ++ ((fun x => (header_id x, height x)) <$> hs2))).
  - rewrite list_to_map_cons. apply delete_insert_id. apply not_elem_of_list_to_map.
    rewrite fmap_app, <- !list_fmap_compose. cbn.
    apply NoDup_app in Hn as (_ & Hd & [Hx _]%NoDup_cons).
    rewrite elem_of_app. intros [Hi|Hi]; [|done]. apply (Hd _ Hi). left.
  - rewrite fmap_app, fmap_cons, <- !list_fmap_compose. done.
  - by rewrite Permutation_middle.
Qed.

Lemma index_size hs : NoDup (ids hs) -> size (index hs) = length hs.
Proof. intros Hn. unfold index. rewrite map_size_list_to_map by by rewrite index_keys. by rewrite length_fmap. Qed.

Lemma index_empty hs : index hs = ∅ <-> hs = [].
Proof.
  split; [|by intros ->]. destruct hs as [|x hs]; [done|]. intros He.
  pose proof (index_lookup_None (x :: hs) (header_id x)) as [Hn _].
  exfalso. apply Hn; [by rewrite He|]. left.
Qed.


(** ** Reads *)

Section Chain.
Context {C : Type -> Type} `{LruLaws C} `{PowScheme} {RuleStatus : Type} `{SigmaIO RuleStatus}.
Implicit Types c : HeaderChain C.

(** Only the header cache moved, and every entry of it was there or is the loader's. *)
Definition read_le c c' : Prop :=
  exists cache,
    c' = with_lazy c (mk_store cache (scores (lazy c)) (header_loader (lazy c)) (score_loader (lazy c))) /\
    forall k x, lru_peek k cache = Some x ->
      lru_peek k (headers (lazy c)) = Some x \/ exists f, header_loader (lazy c) = Some f /\ f k = Some x.

#[global] Instance read_le_refl : Reflexive read_le.
Proof. intros [? ? ? ? ? ? ? [? ? ? ?]]. eexists. split; [reflexivity|]. cbn. auto. Qed.

#[global] Instance read_le_trans : Transitive read_le.
Proof.
  intros c c1 c2 (k1 & -> & H1') (k2 & -> & H2'). exists k2. split; [done|]. cbn in *.
  intros k x Hx. apply H2' in Hx as [Hx|]; [|auto]. by apply H1'.
Qed.

Definition reads {A} (m : M C A) : Prop := forall c, read_le c (m c).2.

Lemma reads_ret {A} (a : A) : reads (ret a).
Proof. by intros c. Qed.
Lemma reads_fail {A} e : reads (fail (A := A) e).
Proof. by intros c. Qed.
Lemma reads_panic {A} : reads (panic (A := A)).
Proof. by intros c. Qed.
Lemma reads_gets {A} (f : HeaderChain C -> A) : reads (gets f).
Proof. by intros c. Qed.

Lemma reads_bind {A B} (m : M C A) (k : A -> M C B) : reads m -> (forall a, reads (k a)) -> reads (bind m k).
Proof.
  intros Hm Hk c. unfold bind. specialize (Hm c). destruct (m c) as [[a|e|] c']; cbn in *; try done.
  etrans; [done|]. apply Hk.
Qed.

Lemma reads_lift {E A} (i : E -> ChainError) (o : outcome E A) : reads (lift i o).
Proof. destruct o; intros c; done. Qed.
Lemma reads_some_or {A} (o : option A) e : reads (some_or o e).
Proof. destruct o; intros c; done. Qed.
Lemma reads_expect {A} (o : option A) : reads (expect_some o).
Proof. destruct o; intros c; done. Qed.
Lemma reads_ensure b e : reads (ensure b e).
Proof. destruct b; intros c; done. Qed.
Lemma reads_catch {A} (m : M C A) : reads m -> reads (catch m).
Proof. intros Hm c. unfold catch. specialize (Hm c). by destruct (m c) as [[a|e|] c']. Qed.

Lemma reads_lazy_header k : reads (lazy_header k).
Proof.
  intros c. unfold lazy_header, get_header.
  pose proof (get_cached_spec (header_loader (lazy c)) k (headers (lazy c))) as Hg.
  destruct (get_cached _ _ _) as [r cache]. destruct Hg as (_ & _ & Hg). cbn. exists cache. eauto.
Qed.

End Chain.

#[export] Hint Resolve reads_ret reads_fail reads_panic reads_gets reads_bind reads_lift reads_some_or
  reads_expect reads_ensure reads_catch reads_lazy_header : chain.

(** Proves [reads m] by the shape of [m]. *)
Ltac reads_tac :=
  repeat (intros; first
    [ solve [eauto 2 with chain nocore]
    | apply reads_bind
    | case_match
    | match goal with |- reads (let _ := _ in _) => cbv zeta end ]).

Section Reads.
Context {C : Type -> Type} `{LruLaws C} `{PowScheme} {RuleStatus : Type} `{SigmaIO RuleStatus}.
Implicit Types c : HeaderChain C.

Lemma reads_header_at k : reads (header_at (C := C) k).
Proof. unfold header_at. reads_tac. Qed.
#[local] Hint Resolve reads_header_at : chain.

Lemma reads_tip : reads (tip (C := C)).
Proof. unfold tip. reads_tac. Qed.
#[local] Hint Resolve reads_tip : chain.

Lemma reads_headers_at ks : reads (headers_at (C := C) ks).
Proof. induction ks as [|k ks IH]; cbn; reads_tac. Qed.
#[local] Hint Resolve reads_headers_at : chain.

Lemma reads_check_difficulty t h : reads (check_difficulty (C := C) t h).
Proof. unfold check_difficulty, chain_expected_difficulty. reads_tac. Qed.
#[local] Hint Resolve reads_check_difficulty : chain.

Lemma reads_check_timestamp now t h : reads (check_timestamp (C := C) now t h).
Proof. unfold check_timestamp. reads_tac. Qed.
#[local] Hint Resolve reads_check_timestamp : chain.

Lemma reads_check_votes h : reads (check_votes (C := C) h).
Proof. unfold check_votes, check_fork_vote_gate. reads_tac. Qed.
#[local] Hint Resolve reads_check_votes : chain.

Lemma reads_validate_genesis h : reads (validate_genesis (C := C) h).
Proof. unfold validate_genesis. reads_tac. Qed.

Lemma reads_validate_child now h : reads (validate_child (C := C) now h).
Proof. unfold validate_child. reads_tac. Qed.

Lemma reads_validate_reorg_header now h pow : reads (validate_reorg_header (C := C) now h pow).
Proof. unfold validate_reorg_header. reads_tac. Qed.

End Reads.

#[export] Hint Resolve reads_header_at reads_tip reads_headers_at reads_check_difficulty
  reads_check_timestamp reads_check_votes reads_validate_genesis reads_validate_child
  reads_validate_reorg_header : chain.


(** ** The representation *)

Section Repr.
Context {C : Type -> Type} `{LruLaws C} `{PowScheme} {RuleStatus : Type} `{SigmaIO RuleStatus}.
Variable preimage : id32 -> option Header.
Implicit Types c : HeaderChain C.

Definition genuine (h : Header) : Prop := preimage (header_id h) = Some h.

Lemma genuine_inj a b : genuine a -> genuine b -> header_id a = header_id b -> a = b.
Proof. unfold genuine. intros Ha Hb Heq. rewrite Heq in Ha. congruence. Qed.

(** The chain [c] holds the headers [hs], from the base to the tip. *)
Record repr (hs : list Header) c : Prop := {
  repr_base : base_height c = height <$> head hs;
  repr_index : by_id c = index hs;
  repr_nodup : NoDup (ids hs);
  repr_linked : linked hs;
  repr_u32 : Forall (fun x => is_u32 (height x)) hs;
  repr_genuine : Forall genuine hs;
  repr_cache : forall k x, lru_peek k (headers (lazy c)) = Some x -> genuine x;
  repr_loader : forall f k x, header_loader (lazy c) = Some f -> f k = Some x -> genuine x;
}.

Lemma repr_read hs c c' : read_le c c' -> repr hs c -> repr hs c'.
Proof.
  intros (cache & -> & Hc) []. split; cbn; try done.
  intros k x Hx. apply Hc in Hx as [Hx|(f & Hf & Hx)]; eauto.
Qed.

Lemma reads_repr {A} (m : M C A) hs c : reads m -> repr hs c -> repr hs (m c).2.
Proof. intros Hm. apply repr_read. apply Hm. Qed.

Lemma is_empty_repr hs c : repr hs c -> is_empty c = bool_decide (hs = []).
Proof. intros Hr. unfold is_empty. rewrite (repr_index _ _ Hr). apply bool_decide_ext, index_empty. Qed.

Lemma repr_head_last hs c t :
  repr hs c -> last hs = Some t ->
  exists b, base_height c = Some b /\ is_u32 b /\ height t = b + Z.of_nat (length hs) - 1.
Proof.
  intros Hr Ht. rewrite last_lookup in Ht. pose proof (lookup_lt_Some _ _ _ Ht).
  destruct hs as [|x0 hs]; [done|]. exists (height x0). rewrite (repr_base _ _ Hr).
  pose proof (repr_u32 _ _ Hr) as Hf.
  split_and!; [done|by apply Forall_cons in Hf as [? _]|].
  rewrite (linked_height _ x0 _ _ (repr_linked _ _ Hr) eq_refl Ht). cbn in *. lia.
Qed.

Lemma chain_height_repr hs c t : repr hs c -> last hs = Some t -> chain_height c = height t.
Proof.
  intros Hr Ht. destruct (repr_head_last _ _ _ Hr Ht) as (b & Hb & Hu & Hh).
  pose proof (repr_u32 _ _ Hr) as Hall. rewrite Forall_forall in Hall.
  specialize (Hall t (last_Some_elem_of _ _ Ht)).
  unfold chain_height. rewrite Hb, (is_empty_repr _ _ Hr). rewrite bool_decide_false by by intros ->.
  unfold sub_u32, add_u32, as_u32, len. rewrite (repr_index _ _ Hr), index_size by apply Hr.
  rewrite Zplus_mod_idemp_r, Zminus_mod_idemp_l, <- Hh.
  apply as_u32_small. done.
Qed.

Lemma chain_height_nil c : repr [] c -> chain_height c = 0.
Proof. intros Hr. unfold chain_height. by rewrite (repr_base _ _ Hr). Qed.

Lemma in_range_repr hs c k : repr hs c -> in_range k c = true <-> exists x, x ∈ hs /\ height x = k.
Proof.
  intros Hr. unfold in_range. destruct (last hs) as [t|] eqn:Et.
  - destruct (repr_head_last _ _ _ Hr Et) as (b & Hb & _ & Hh).
    rewrite Hb, (chain_height_repr _ _ _ Hr Et), negb_true_iff, orb_false_iff, !Z.ltb_ge.
    destruct hs as [|x0 hs]; [done|]. pose proof (repr_base _ _ Hr) as Hb'. cbn in Hb'. simplify_eq.
    split.
    + intros [Hlo Hhi]. set (i := Z.to_nat (k - height x0)).
      destruct (lookup_lt_is_Some_2 (x0 :: hs) i) as [x Hx]; [lia|].
      exists x. split; [by eapply list_elem_of_lookup_2|].
      rewrite (linked_height _ x0 _ _ (repr_linked _ _ Hr) eq_refl Hx). lia.
    + intros (x & [i Hi]%list_elem_of_lookup & <-). pose proof (lookup_lt_Some _ _ _ Hi).
      rewrite (linked_height _ x0 _ _ (repr_linked _ _ Hr) eq_refl Hi). lia.
  - apply last_None in Et as ->. rewrite (repr_base _ _ Hr). cbn. split; [done|].
    by intros (x & Hx%not_elem_of_nil & _).
Qed.

(** What [header_at] answers. *)
Lemma header_at_value k c :
  (header_at k c).1 =
    Return (if in_range k c then
              match resolve (header_loader (lazy c)) (headers (lazy c)) k with
              | Some h => if bool_decide (by_id c !! header_id h = Some k) then Some h else None
              | None => None
              end
            else None).
Proof.
  unfold header_at, bind, gets. cbn. destruct (in_range k c); [|done].
  unfold lazy_header, get_header.
  pose proof (get_cached_spec (header_loader (lazy c)) k (headers (lazy c))) as Hg.
  destruct (get_cached _ _ _) as [r cache]. destruct Hg as (-> & _ & _).
  by destruct (resolve _ _ k).
Qed.

Lemma resolve_genuine hs c k x :
  repr hs c -> resolve (header_loader (lazy c)) (headers (lazy c)) k = Some x -> genuine x.
Proof.
  intros Hr. unfold resolve. destruct (lru_peek k _) eqn:E.
  - intros [= <-]. by eapply (repr_cache _ _ Hr).
  - destruct (header_loader _) as [f|] eqn:Ef; [|done]. by apply (repr_loader _ _ Hr).
Qed.

(** A header the chain serves is the accepted one. *)
Lemma header_at_sound hs c k x :
  repr hs c -> (header_at k c).1 = Return (Some x) -> x ∈ hs /\ height x = k.
Proof.
  intros Hr. rewrite header_at_value. intros [= Hx].
  destruct (in_range k c); [|done]. destruct (resolve _ _ k) as [h|] eqn:Eh; [|done].
  case_bool_decide as Hi; [|done]. injection Hx as <-.
  rewrite (repr_index _ _ Hr), index_lookup in Hi by apply Hr. destruct Hi as (y & Hy & Hid & <-).
  pose proof (repr_genuine _ _ Hr) as Hg. rewrite Forall_forall in Hg.
  assert (y = h) as -> by (apply genuine_inj; [by apply Hg|by eapply resolve_genuine|done]). done.
Qed.

(** A resident header of the chain is served. *)
Lemma header_at_resident hs c x :
  repr hs c -> x ∈ hs -> resolve (header_loader (lazy c)) (headers (lazy c)) (height x) = Some x ->
  (header_at (height x) c).1 = Return (Some x).
Proof.
  intros Hr Hx Hres. rewrite header_at_value, Hres.
  rewrite (proj2 (in_range_repr hs c (height x) Hr)) by eauto.
  rewrite bool_decide_true; [done|]. rewrite (repr_index _ _ Hr). apply index_lookup; [apply Hr|eauto].
Qed.

(** ** Outcomes of actions *)

(** What holds of the outcome of [m] in [c]. *)
Definition wp {A} (m : M C A) (Q : outcome ChainError A -> HeaderChain C -> Prop) c : Prop :=
  Q (m c).1 (m c).2.

Lemma wp_bind {A B} (m : M C A) (k : A -> M C B) Q c :
  wp m (fun o c' => match o with
                    | Return a => wp (k a) Q c'
                    | Fail e => Q (Fail e) c'
                    | Panic => Q Panic c'
                    end) c -> wp (bind m k) Q c.
Proof. unfold wp, bind. by destruct (m c) as [[a|e|] c']. Qed.

Lemma wp_catch {A} (m : M C A) Q c :
  wp m (fun o c' => match o with
                    | Return a => Q (Return (Ok a)) c'
                    | Fail e => Q (Return (Err e)) c'
                    | Panic => Q Panic c'
                    end) c -> wp (catch m) Q c.
Proof. unfold wp, catch. by destruct (m c) as [[a|e|] c']. Qed.

(** The settings of the chain that no chain operation changes. *)
Definition same_settings c c' : Prop :=
  config c' = config c /\ active_parameters c' = active_parameters c /\
  active_proposed_update_bytes c' = active_proposed_update_bytes c /\
  extension_loader c' = extension_loader c /\ light_client_mode c' = light_client_mode c /\
  header_loader (lazy c') = header_loader (lazy c) /\ score_loader (lazy c') = score_loader (lazy c).

#[global] Instance frame_refl : Reflexive same_settings.
Proof. done. Qed.

#[global] Instance frame_trans : Transitive same_settings.
Proof. unfold same_settings. intros c1 c2 c3. naive_solver congruence. Qed.

Lemma read_le_frame c c' : read_le c c' -> same_settings c c'.
Proof. by intros (? & -> & _). Qed.

(** A read: the headers stay, and only the header cache moves. *)
Lemma wp_reads {A} (m : M C A) hs Q c :
  reads m -> repr hs c ->
  (forall o c', m c = (o, c') -> read_le c c' -> repr hs c' -> same_settings c c' -> Q o c') -> wp m Q c.
Proof.
  intros Hm Hr HQ. unfold wp. pose proof (Hm c) as Hle. destruct (m c) as [o c'] eqn:E. cbn in *.
  apply HQ; [done..|by eapply repr_read|by apply read_le_frame].
Qed.

(** A read of a score. *)
Lemma wp_score_at k hs Q c :
  repr hs c ->
  (forall r c', (r = if in_range k c then resolve (score_loader (lazy c)) (scores (lazy c)) k else None) ->
     repr hs c' -> same_settings c c' -> by_id c' = by_id c -> base_height c' = base_height c ->
     headers (lazy c') = headers (lazy c) ->
     (forall s, r = Some s -> lru_peek k (scores (lazy c')) = Some s) -> Q (Return r) c') ->
  wp (score_at k) Q c.
Proof.
  intros Hr HQ. unfold score_at. apply wp_bind. unfold wp, gets. cbn.
  destruct (in_range k c); [|by apply HQ].
  unfold lazy_score, get_score.
  pose proof (get_cached_spec (score_loader (lazy c)) k (scores (lazy c))) as Hg.
  destruct (get_cached _ _ _) as [r cache]. destruct Hg as (-> & Hg & _). cbn.
  apply HQ; try done. by destruct Hr; split.
Qed.

(** ** Push and pop *)

Lemma fresh_id hs h :
  linked hs -> Forall genuine hs -> genuine h ->
  (forall t, last hs = Some t -> height t < height h) -> header_id h ∉ ids hs.
Proof.
  intros Hl Hg Hh Hlt [x [Hid Hx]]%list_elem_of_fmap. rewrite Forall_forall in Hg.
  assert (x = h) as -> by (apply genuine_inj; [by apply Hg|done|done]).
  destruct (last hs) as [t|] eqn:Et.
  - specialize (Hlt t eq_refl). pose proof (linked_last _ _ _ Hl Et Hx). lia.
  - apply last_None in Et as ->. by apply not_elem_of_nil in Hx.
Qed.

Definition extends (hs : list Header) (h : Header) : Prop :=
  forall t, last hs = Some t -> parent_id h = header_id t /\ height h = height t + 1.

(** Indexing and caching a header that extends the list. *)
Lemma repr_snoc hs c h base s :
  repr hs c -> genuine h -> is_u32 (height h) -> extends hs h ->
  base = height <$> head (hs ++ [h]) ->
  repr (hs ++ [h]) (with_lazy (with_index c base (<[header_id h := height h]> (by_id c)))
                              (put (height h) h s (lazy c))).
Proof.
  intros Hr Hg Hu He ->.
  assert (header_id h ∉ ids hs) as Hf.
  { apply fresh_id; [apply Hr..|done|]. intros t Ht. destruct (He t Ht). lia. }
  split; cbn.
  - done.
  - by rewrite index_snoc, (repr_index _ _ Hr).
  - unfold ids. rewrite fmap_app. apply NoDup_app. split_and!; [apply Hr| |by apply NoDup_singleton].
    intros x Hx. cbn. rewrite list_elem_of_singleton. by intros ->.
  - apply linked_snoc. split; [apply Hr|done].
  - apply Forall_app. split; [apply Hr|by apply Forall_singleton].
  - apply Forall_app. split; [apply Hr|by apply Forall_singleton].
  - intros k x Hx. destruct (decide (k = height h)) as [->|Hne].
    + rewrite peek_put_eq in Hx. by simplify_eq.
    + eapply (repr_cache _ _ Hr). by eapply peek_put_ne.
  - apply Hr.
Qed.

(** The score a push gives a header: its parent's plus its own difficulty. *)
Definition parent_score (hs : list Header) c : option Z :=
  match last hs with
  | None => Some 0
  | Some t => resolve (score_loader (lazy c)) (scores (lazy c)) (height t)
  end.

Lemma wp_push hs c h Q :
  repr hs c -> genuine h -> is_u32 (height h) -> extends hs h ->
  (forall s c', parent_score hs c = Some s -> repr (hs ++ [h]) c' -> same_settings c c' ->
     lru_peek (height h) (headers (lazy c')) = Some h ->
     lru_peek (height h) (scores (lazy c')) = Some (s + header_difficulty h) -> Q (Return tt) c') ->
  (forall c', parent_score hs c = None -> Q Panic c') ->
  wp (push_header h) Q c.
Proof.
  intros Hr Hg Hu He HQ HP. unfold push_header. apply wp_bind. unfold wp at 1, gets. cbn.
  unfold parent_score in *. destruct (last hs) as [t|] eqn:Et.
  - destruct (repr_head_last _ _ _ Hr Et) as (b & Hb & _ & _). rewrite Hb.
    assert (sub_u32 (height h) 1 = height t) as ->.
    { destruct (He t Et) as [_ ->]. unfold sub_u32. rewrite Z.add_simpl_r. apply as_u32_small.
      pose proof (repr_u32 _ _ Hr) as Hall. rewrite Forall_forall in Hall.
      by apply Hall, last_Some_elem_of. }
    apply wp_bind, wp_bind. apply (wp_score_at _ hs); [done|].
    rewrite (proj2 (in_range_repr hs c (height t) Hr)) by eauto using last_Some_elem_of.
    intros r c' -> Hr' Hf Hi Hb' Hh _. destruct (resolve _ _ _) as [s|]; [|by apply HP].
    unfold wp, bind, ret, put_header, index_header, modify. cbn.
    eapply HQ; cbn; [done| |done|by rewrite peek_put_eq..].
    apply (repr_snoc hs c' h _ _ Hr'); [done..|].
    change (base_height c' = height <$> head (hs ++ [h])). rewrite (repr_base _ _ Hr'). by destruct hs.
  - apply last_None in Et as ->. rewrite (repr_base _ _ Hr). cbn.
    unfold wp, bind, ret, put_header, index_header, modify. cbn.
    eapply HQ; cbn; [done| |done|by rewrite peek_put_eq..].
    by apply (repr_snoc [] c h _ _ Hr).
Qed.

Lemma peek_pop_sub {V} k k' (cache : C V) x : lru_peek k' (lru_pop k cache) = Some x -> lru_peek k' cache = Some x.
Proof.
  destruct (decide (k' = k)) as [->|]; [by rewrite peek_pop_eq|]. by rewrite peek_pop_ne.
Qed.

(** Dropping a header of the list from the index and the caches. *)
Lemma repr_drop hs1 x hs2 c base k :
  repr (hs1 ++ x :: hs2) c -> linked (hs1 ++ hs2) -> base = height <$> head (hs1 ++ hs2) ->
  repr (hs1 ++ hs2) (with_lazy (with_index c base (delete (header_id x) (by_id c)))
                               (evict k (lazy c))).
Proof.
  intros Hr Hl ->. split; cbn.
  - done.
  - rewrite (repr_index _ _ Hr). apply index_delete, Hr.
  - pose proof (repr_nodup _ _ Hr) as Hn. unfold ids in *. rewrite fmap_app in *. cbn in Hn.
    rewrite <- Permutation_middle in Hn. by apply NoDup_cons in Hn as [_ ?].
  - done.
  - pose proof (repr_u32 _ _ Hr) as Hu. rewrite Forall_app, Forall_cons in Hu. apply Forall_app. naive_solver.
  - pose proof (repr_genuine _ _ Hr) as Hg. rewrite Forall_app, Forall_cons in Hg. apply Forall_app. naive_solver.
  - intros k' y Hy%peek_pop_sub. by eapply (repr_cache _ _ Hr).
  - apply Hr.
Qed.

(** ** Inverting a successful action *)

Lemma bind_inv {A B} (m : M C A) (k : A -> M C B) c b c2 :
  bind m k c = (Return b, c2) -> exists a c1, m c = (Return a, c1) /\ k a c1 = (Return b, c2).
Proof. unfold bind. destruct (m c) as [[a|e|] c1]; naive_solver. Qed.

Lemma ensure_inv b e c u c' : ensure b e c = (Return u, c') -> b = true /\ c' = c.
Proof. destruct b; unfold ensure, ret, fail; naive_solver. Qed.

Lemma lift_inv {E A} (i : E -> ChainError) (o : outcome E A) c a c' :
  lift i o c = (Return a, c') -> o = Return a /\ c' = c.
Proof. destruct o; unfold lift, ret, fail, panic; naive_solver. Qed.

Lemma gets_inv {A} (f : HeaderChain C -> A) c a c' : gets f c = (Return a, c') -> a = f c /\ c' = c.
Proof. unfold gets. naive_solver. Qed.

Lemma expect_inv {A} (o : option A) c a c' : expect_some o c = (Return a, c') -> o = Some a /\ c' = c.
Proof. destruct o; unfold expect_some, ret, panic; naive_solver. Qed.

Lemma some_or_inv {A} (o : option A) e c a c' : some_or o e c = (Return a, c') -> o = Some a /\ c' = c.
Proof. destruct o; unfold some_or, ret, fail; naive_solver. Qed.

Lemma of_result_inv {E A} (r : result E A) a : of_result r = Return a -> r = Ok a.
Proof. destruct r; naive_solver. Qed.

Lemma reads_le {A} (m : M C A) c o c' : reads m -> m c = (o, c') -> read_le c c'.
Proof. intros Hm E. specialize (Hm c). by rewrite E in Hm. Qed.

End Repr.


(** Takes a successful action apart. *)
Ltac minv H :=
  repeat lazymatch type of H with
  | bind _ _ _ = (Return _, _) =>
      let Hm := fresh "Hm" in apply bind_inv in H as (? & ? & Hm & H); minv Hm
  | ensure _ _ _ = (Return _, _) => apply ensure_inv in H as [H ?]
  | lift _ _ _ = (Return _, _) => apply lift_inv in H as [H ?]
  | gets _ _ = (Return _, _) => apply gets_inv in H as [? ?]
  | expect_some _ _ = (Return _, _) => apply expect_inv in H as [H ?]
  | some_or _ _ _ = (Return _, _) => apply some_or_inv in H as [H ?]
  | of_result _ = Return _ => apply of_result_inv in H
  end; simplify_eq.

(** ** Appending *)

Section Append.
Context {C : Type -> Type} `{LruLaws C} `{PowScheme} {RuleStatus : Type} `{SigmaIO RuleStatus}.
Variable preimage : id32 -> option Header.
Implicit Types c : HeaderChain C.
Local Abbreviation repr := (repr preimage).
Local Abbreviation genuine := (genuine preimage).

(** The header of the list at a height. *)
Definition header_with_height (hs : list Header) (k : Z) : option Header :=
  snd <$> list_find (fun x => height x = k) hs.

Lemma header_with_height_Some hs x : linked hs -> x ∈ hs -> header_with_height hs (height x) = Some x.
Proof.
  intros Hl Hx. unfold header_with_height.
  destruct (list_find_elem_of (fun y => height y = height x) hs x Hx eq_refl) as [[i y] Hf].
  rewrite Hf. cbn. apply list_find_Some in Hf as (Hi & Hy & _). f_equal.
  by apply (linked_unique hs); [|eapply list_elem_of_lookup_2| |].
Qed.

Lemma header_with_height_None hs k : (forall x, x ∈ hs -> height x <> k) -> header_with_height hs k = None.
Proof.
  intros Hx. unfold header_with_height. destruct (list_find _ hs) as [[i y]|] eqn:Hf; [|done].
  apply list_find_Some in Hf as (Hi & Hy & _). exfalso.
  by apply (Hx y); [eapply list_elem_of_lookup_2|].
Qed.

(** The loader has the whole chain, and no cached header contradicts it. *)
Definition served (hs : list Header) c : Prop :=
  exists f, header_loader (lazy c) = Some f /\
    forall x, x ∈ hs -> f (height x) = Some x /\
      (forall y, lru_peek (height x) (headers (lazy c)) = Some y -> y = x).

Lemma served_read hs c c' : read_le c c' -> served hs c -> served hs c'.
Proof.
  intros (cache & -> & Hc) (f & Hf & Hs). exists f. split; [done|]. intros x Hx.
  destruct (Hs x Hx) as [Hfx Hp]. split; [done|]. cbn. intros y [Hy|(g & Hg & Hy)]%Hc; [by apply Hp|].
  congruence.
Qed.

Lemma header_at_served hs c k : repr hs c -> served hs c -> (header_at k c).1 = Return (header_with_height hs k).
Proof.
  intros Hr (f & Hf & Hs). destruct (in_range k c) eqn:E.
  - apply (in_range_repr _ hs _ _ Hr) in E as (x & Hx & <-). rewrite (header_with_height_Some _ _ (repr_linked _ _ _ Hr) Hx).
    apply (header_at_resident preimage hs); [done..|]. destruct (Hs x Hx) as [Hfx Hp].
    unfold resolve. destruct (lru_peek _ _) as [y|]; [by rewrite (Hp y eq_refl)|by rewrite Hf].
  - rewrite header_at_value, E, header_with_height_None; [done|]. intros x Hx Hk.
    by rewrite (proj2 (in_range_repr _ hs c k Hr)) in E by eauto.
Qed.

Lemma headers_at_served hs ks c : repr hs c -> served hs c ->
  (headers_at ks c).1 = Return (omap (header_with_height hs) ks).
Proof.
  revert c. induction ks as [|k ks IH]; intros c Hr Hs; [done|]. cbn [headers_at omap].
  unfold bind at 1. pose proof (header_at_served hs c k Hr Hs) as Hh.
  destruct (header_at k c) as [r c1] eqn:E. cbn in Hh. subst r.
  pose proof (reads_le _ _ _ _ (reads_header_at k) E) as Hle.
  specialize (IH c1 (repr_read _ _ _ _ Hle Hr) (served_read _ _ _ Hle Hs)).
  unfold bind. destruct (headers_at ks c1) as [rs c2]. cbn in IH. subst rs. cbn.
  by destruct (header_with_height hs k).
Qed.

(** The header has the difficulty the chain's headers ask for, where they can be read. *)
Definition difficulty_ok (hs : list Header) c (t h : Header) : Prop :=
  served hs c ->
  expected_difficulty decode_compact_bits encode_compact_bits (config c) (header_with_height hs) t =
    Return (n_bits h).

Lemma check_difficulty_inv hs c t h u c' :
  repr hs c -> check_difficulty t h c = (Return u, c') -> difficulty_ok hs c t h.
Proof.
  intros Hr Hd Hs. unfold check_difficulty in Hd. minv Hd. apply Z.eqb_eq in Hd. rewrite Hd.
  unfold chain_expected_difficulty in Hm. apply bind_inv in Hm as (cfg & c2 & Hg & Hm).
  apply gets_inv in Hg as [-> ->]. unfold expected_difficulty.
  destruct (v2_override (config c) t); [by injection Hm as <- _|].
  destruct (recalculation_heights (config c) t) as [ks|]; [|by injection Hm as <- _].
  apply bind_inv in Hm as (seen & c3 & Hks & Hm). apply lift_inv in Hm as [Hm _].
  pose proof (headers_at_served hs ks c Hr Hs) as Hseen. rewrite Hks in Hseen.
  injection Hseen as ->. done.
Qed.

(** What a header has to satisfy to follow [t]. *)
Record header_ok (now : Z) c (t h : Header) : Prop := {
  ok_timestamp : timestamp t < timestamp h <= add_u64 now (max_time_drift_ms (config c));
  ok_votes : check_header_votes (header_votes h) = Ok tt;
  ok_gate : check_fork_vote (voting (config c)) (height h) (header_votes h) (active_parameters c) = Ok true;
}.

Record child_ok (now : Z) (hs : list Header) c (t h : Header) : Prop := {
  child_parent : parent_id h = header_id t;
  child_height : height h = add_u32 (height t) 1;
  child_header : header_ok now c t h;
  child_pow : verify_pow h = Return tt;
  child_difficulty : light_client_mode c = false -> difficulty_ok hs c t h;
}.

Lemma check_timestamp_inv now t h c u c' :
  check_timestamp now t h c = (Return u, c') ->
  timestamp t < timestamp h <= add_u64 now (max_time_drift_ms (config c)) /\ c' = c.
Proof. unfold check_timestamp. cbv zeta. intros Hm. minv Hm. rewrite Z.ltb_lt, Z.leb_le in *. auto. Qed.

Lemma check_votes_inv h c u c' :
  check_votes h c = (Return u, c') ->
  check_header_votes (header_votes h) = Ok tt /\
  check_fork_vote (voting (config c)) (height h) (header_votes h) (active_parameters c) = Ok true.
Proof. unfold check_votes, check_fork_vote_gate. intros Hm. minv Hm. destruct x. split; [|subst]; done. Qed.

Lemma tip_inv hs c t c' : repr hs c -> tip c = (Return t, c') -> last hs = Some t.
Proof.
  intros Hr Ht. unfold tip in Ht. apply bind_inv in Ht as (e & c0 & He & Ht).
  apply gets_inv in He as [-> ->]. rewrite (is_empty_repr _ _ _ Hr) in Ht.
  case_bool_decide as Hn; [done|]. minv Ht.
  destruct (last hs) as [t'|] eqn:El; [|by apply last_None in El].
  assert (t ∈ hs /\ height t = chain_height c) as [Hin Hh].
  { apply (header_at_sound preimage hs c); [done|by rewrite Hm]. }
  rewrite (chain_height_repr _ _ _ _ Hr El) in Hh. f_equal.
  by apply (linked_unique hs); [apply Hr|apply last_Some_elem_of| |].
Qed.

Lemma validate_child_inv now hs c t h u c' :
  repr hs c -> last hs = Some t -> validate_child now h c = (Return u, c') -> child_ok now hs c t h.
Proof.
  intros Hr El Hv. unfold validate_child in Hv. apply bind_inv in Hv as (t' & c1 & Ht & Hv).
  pose proof (tip_inv _ _ _ _ Hr Ht) as El'. rewrite El in El'. injection El' as <-.
  pose proof (reads_le _ _ _ _ reads_tip Ht) as Hle1.
  pose proof (repr_read _ _ _ _ Hle1 Hr) as Hr1.
  apply bind_inv in Hv as (? & ? & Hp & Hv). minv Hp.
  apply bind_inv in Hv as (? & ? & Hh & Hv). minv Hh.
  apply bind_inv in Hv as (? & ? & Hts & Hv). apply check_timestamp_inv in Hts as [Hts ->].
  apply bind_inv in Hv as (light & ? & Hl & Hv). apply gets_inv in Hl as [-> ->].
  apply bind_inv in Hv as (? & c2 & Hd & Hv).
  assert (read_le c1 c2) as Hle2.
  { eapply reads_le; [|exact Hd]. destruct (light_client_mode c1); eauto with chain. }
  apply bind_inv in Hv as (u' & ? & Hpow & Hv). apply lift_inv in Hpow as [Hpow ->]. destruct u'.
  apply check_votes_inv in Hv as [Hvotes Hgate].
  destruct Hle2 as (cache2 & -> & _). pose proof Hle1 as (cache1 & Hc1 & _). subst c1. cbn in *.
  split; [lia|lia|by split|done|]. intros Hlight. rewrite Hlight in Hd.
  apply (check_difficulty_inv hs _ _ _ _ _ Hr1) in Hd. intros Hs. apply Hd.
  by eapply served_read.
Qed.

(** What the first header of a chain has to satisfy. *)
Record genesis_ok c (h : Header) : Prop := {
  genesis_parent : parent_id h = genesis_parent_id;
  genesis_height : height h = 1;
  genesis_bits : n_bits h = initial_n_bits (config c);
  genesis_pow : verify_pow h = Return tt;
  genesis_id_ok : forall id, genesis_id (config c) = Some id -> header_id h = id;
}.

Lemma validate_genesis_inv c h u c' : validate_genesis h c = (Return u, c') -> genesis_ok c h.
Proof.
  unfold validate_genesis. intros Hv.
  apply bind_inv in Hv as (? & ? & Hg & Hv). apply gets_inv in Hg as [-> ->].
  apply bind_inv in Hv as (? & ? & Hp & Hv). minv Hp.
  apply bind_inv in Hv as (? & ? & Hh & Hv). minv Hh.
  apply bind_inv in Hv as (? & ? & Hb & Hv). minv Hb.
  apply bind_inv in Hv as ([] & ? & Hpow & Hv). minv Hpow.
  split; [lia..|done|]. intros id Hid. rewrite Hid in Hv. minv Hv. lia.
Qed.

(** The tip is resident after a push, so it can be read back. *)
Lemma tip_resident hs c t :
  repr hs c -> last hs = Some t -> lru_peek (height t) (headers (lazy c)) = Some t -> (tip c).1 = Return t.
Proof.
  intros Hr El Hp. unfold tip, bind, gets. cbv beta iota. rewrite (is_empty_repr _ _ _ Hr).
  rewrite bool_decide_false by (by intros ->). rewrite (chain_height_repr _ _ _ _ Hr El).
  assert ((header_at (height t) c).1 = Return (Some t)) as Hh.
  { apply (header_at_resident preimage hs); [done|by apply last_Some_elem_of|].
    unfold resolve. by rewrite Hp. }
  destruct (header_at (height t) c) as [o c']. cbn in Hh. by subst o.
Qed.

(** The chain got one header longer. *)
Record extended_by (hs : list Header) c (h : Header) c' : Prop := {
  ext_repr : repr (hs ++ [h]) c';
  ext_frame : same_settings c c';
  ext_tip : (tip c').1 = Return h;
  ext_score : exists s, parent_score hs c = Some s /\
                lru_peek (height h) (scores (lazy c')) = Some (s + header_difficulty h);
}.

Lemma wp_push_extended hs c c1 h (Q : outcome ChainError unit -> HeaderChain C -> Prop) :
  repr hs c -> read_le c c1 -> genuine h -> is_u32 (height h) -> extends hs h ->
  (forall c', extended_by hs c h c' -> Q (Return tt) c') ->
  (forall c', parent_score hs c = None -> Q Panic c') ->
  wp (push_header h) Q c1.
Proof.
  intros Hr Hle Hg Hu He HQ HP.
  assert (parent_score hs c1 = parent_score hs c) as Hps by (destruct Hle as (? & -> & _); done).
  apply (wp_push preimage hs); [by eapply repr_read|done..| |].
  - intros s c' Hs Hr' Hf Hh Hsc. apply HQ. split.
    + done.
    + etrans; [by apply read_le_frame|done].
    + eapply tip_resident; [done| |done]. by rewrite last_snoc.
    + exists s. by rewrite <- Hps.
  - intros c' Hn. apply HP. by rewrite <- Hps.
Qed.

(** [try_append] on every outcome. *)
Definition append_post (now : Z) (hs : list Header) c (h : Header)
    (o : outcome ChainError AppendResult) c' : Prop :=
  match o with
  | Return Extended =>
      extended_by hs c h c' /\
      match last hs with None => genesis_ok c h | Some t => child_ok now hs c t h end
  | Return (Forked k) =>
      repr hs c' /\ same_settings c c' /\
      exists p, p ∈ hs /\ last hs <> Some p /\ parent_id h = header_id p /\ height p = k /\
                height h = add_u32 k 1
  | Fail e => repr hs c' /\ same_settings c c'
  | Panic => True
  end.

Lemma append_spec now hs c h :
  repr hs c -> genuine h -> is_u32 (height h) ->
  (forall t, last hs = Some t -> height t < U32_MAX) ->
  append_post now hs c h (try_append now h c).1 (try_append now h c).2.
Proof.
  intros Hr Hg Hu Hmax. change (wp (try_append now h) (append_post now hs c h) c).
  unfold try_append. apply wp_bind. unfold wp at 1, gets. cbn [fst snd].
  rewrite (is_empty_repr _ _ _ Hr). case_bool_decide as Hn.
  - subst hs. apply wp_bind, (wp_reads preimage _ []); [eauto with chain|done|].
    intros [[]|e|] c1 Hv Hle Hr1 Hf; [|by split|done]. apply validate_genesis_inv in Hv.
    apply wp_bind, (wp_push_extended [] c); [done..| |by intros].
    intros c' He. by split.
  - apply wp_bind, (wp_reads preimage _ hs); [eauto with chain|done|].
    intros [t|e|] c1 Ht Hle Hr1 Hf; [|by split|done].
    pose proof (tip_inv _ _ _ _ Hr Ht) as El. destruct (Z.eqb_spec (parent_id h) (header_id t)) as [Hp|Hp].
    + apply wp_bind, (wp_reads preimage _ hs); [eauto with chain|done|].
      intros [u|e|] c2 Hv Hle2 Hr2 Hf2; [|split; [done|by etrans]|done].
      apply (validate_child_inv now hs _ t) in Hv; [|done..].
      assert (child_ok now hs c t h) as Hok.
      { pose proof Hle as (cache & -> & _). destruct Hv as [? ? [] ? Hd]. split; [done..|].
        intros Hl Hs. apply (Hd Hl). by apply (served_read hs c). }
      assert (height h = height t + 1) as Hh.
      { rewrite (child_height _ _ _ _ _ Hok). specialize (Hmax t El). unfold add_u32.
        apply as_u32_small. pose proof (repr_u32 _ _ _ Hr) as Hall. rewrite Forall_forall in Hall.
        specialize (Hall t (last_Some_elem_of _ _ El)). int_unfold. lia. }
      apply wp_bind, (wp_push_extended hs c); [done|by etrans|done|done| | |by intros].
      * intros t' Ht'. rewrite El in Ht'. by injection Ht' as <-.
      * intros c' He. unfold wp. cbn. by rewrite El.
    + apply wp_bind. unfold wp at 1. cbn. rewrite (repr_index _ _ _ Hr1).
      destruct (index hs !! parent_id h) as [k|] eqn:Ek; [|by split].
      apply index_lookup in Ek as (p & Hin & Hid & Hk); [|apply Hr].
      unfold wp, bind, ensure. destruct (Z.eqb_spec (height h) (add_u32 k 1)); cbn; [|by split].
      split_and!; [done..|]. exists p. split_and!; [done| |done..].
      intros Hl. rewrite El in Hl. injection Hl as <-. done.
Qed.

(** C1: [try_append] of a genuine header to the chain [hs] extends the chain by exactly
    that header, and only when it passed every genesis or child check against the tip,
    with the tip's cumulative score plus its own difficulty as its score and the new
    tip resident; or answers [Forked] at the height of the parent, which is a header
    below the tip; or fails; in the last two cases the chain is what it was. *)
Theorem try_append_correct now hs c h :
  repr hs c -> genuine h -> is_u32 (height h) ->
  (forall t, last hs = Some t -> height t < U32_MAX) ->
  append_post now hs c h (try_append now h c).1 (try_append now h c).2.
Proof. apply append_spec. Qed.

End Append.


(** ** Reorganizing *)

Section Reorg.
Context {C : Type -> Type} `{LruLaws C} `{PowScheme} {RuleStatus : Type} `{SigmaIO RuleStatus}.
Variable preimage : id32 -> option Header.
Implicit Types c : HeaderChain C.
Local Abbreviation repr := (repr preimage).
Local Abbreviation genuine := (genuine preimage).

Lemma wp_gets {A} (f : HeaderChain C -> A) Q c : Q (Return (f c)) c -> wp (gets f) Q c.
Proof. done. Qed.

Lemma wp_ensure b e Q c :
  (b = true -> Q (Return tt) c) -> (b = false -> Q (Fail e) c) -> wp (ensure b e) Q c.
Proof. unfold wp, ensure. destruct b; auto. Qed.

Lemma wp_some_or {A} (r : option A) e Q c :
  (forall a, r = Some a -> Q (Return a) c) -> (r = None -> Q (Fail e) c) -> wp (some_or r e) Q c.
Proof. intros HS HN. destruct r; [by apply HS|by apply HN]. Qed.

Lemma wp_header_at k hs Q c :
  repr hs c ->
  (forall r c', (forall x, r = Some x -> x ∈ hs /\ height x = k) ->
     read_le c c' -> repr hs c' -> same_settings c c' -> Q (Return r) c') ->
  wp (header_at k) Q c.
Proof.
  intros Hr HQ. apply (wp_reads preimage _ hs); [eauto with chain|done|]. intros o c' E Hle Hr' Hf.
  pose proof (header_at_value k c) as Hv. rewrite E in Hv. cbn in Hv. subst o. apply HQ; [|done..].
  intros x Hx. apply (header_at_sound preimage hs c); [done|]. by rewrite E, Hx.
Qed.

(** The saved headers are the accepted ones at their heights; nothing changes. *)
Lemma wp_save_heights ks hs Q c :
  repr hs c ->
  (forall saved c', Forall2 (fun k p => p.1 ∈ hs /\ height p.1 = k) ks saved ->
     repr hs c' -> same_settings c c' -> Q (Return saved) c') ->
  (forall e c', repr hs c' -> same_settings c c' -> Q (Fail e) c') ->
  wp (save_heights ks) Q c.
Proof.
  revert c Q. induction ks as [|k ks IH]; intros c Q Hr HQ HF; cbn [save_heights].
  { apply HQ; [constructor|done..]. }
  apply wp_bind, (wp_header_at _ hs); [done|]. intros r c1 Hx _ Hr1 Hf1.
  apply wp_bind, wp_some_or; [|by intros; apply HF]. intros h ->.
  apply wp_bind, (wp_score_at preimage _ hs); [done|]. intros r' c2 _ Hr2 Hf2 _ _ _ _.
  assert (same_settings c c2) as Hf by (by etrans).
  apply wp_bind, wp_some_or; [|by intros; apply HF]. intros s ->.
  apply wp_bind, IH; [done| |].
  - intros saved c3 Hsaved Hr3 Hf3. apply HQ; [|done|by etrans]. constructor; [by apply Hx|done].
  - intros e c3 Hr3 Hf3. apply HF; [done|by etrans].
Qed.

Lemma saved_is hs post ks saved :
  linked hs -> (forall x, x ∈ post -> x ∈ hs) -> ks = height <$> post ->
  Forall2 (fun k (p : Header * Z) => p.1 ∈ hs /\ height p.1 = k) ks saved -> saved.*1 = post.
Proof.
  intros Hl Hin -> HF. rewrite Forall2_fmap_l in HF.
  revert Hin HF. induction post as [|x post IH] in saved |- *; intros Hin HF; inversion HF; subst; cbn.
  - done.
  - f_equal; [|apply IH; [|done]; intros; apply Hin; by right].
    apply (linked_unique hs); [done|naive_solver|apply Hin; left|naive_solver].
Qed.

(** A linked list splits at any of its headers. *)
Lemma split_at (hs : list Header) x : x ∈ hs -> exists pre post, hs = pre ++ post /\ last pre = Some x.
Proof.
  intros (pre & post & ->)%list_elem_of_split. exists (pre ++ [x]), post.
  by rewrite <- app_assoc, last_snoc.
Qed.

Lemma linked_suffix_heights pre post x :
  linked (pre ++ post) -> last pre = Some x ->
  height <$> post = seqZ (height x + 1) (Z.of_nat (length post)).
Proof.
  intros Hl Hx. apply list_eq. intros i. rewrite list_lookup_fmap.
  destruct (post !! i) as [y|] eqn:Ey; cbn.
  - pose proof (lookup_lt_Some _ _ _ Ey). symmetry. rewrite lookup_seqZ.
    split; [|lia]. rewrite last_lookup in Hx. pose proof (lookup_lt_Some _ _ _ Hx).
    assert ((pre ++ post) !! 0%nat = pre !! 0%nat) as H0' by (apply lookup_app_l; lia).
    destruct (lookup_lt_is_Some_2 pre 0) as [x0 Hx0]; [lia|]. rewrite Hx0 in H0'.
    rewrite (linked_height _ _ (pred (length pre)) x Hl H0'), (linked_height _ _ (length pre + i) y Hl H0').
    + lia.
    + rewrite lookup_app_r by lia. by replace (length pre + i - length pre)%nat with i by lia.
    + by rewrite lookup_app_l by lia.
  - symmetry. apply lookup_seqZ_ge. apply lookup_ge_None in Ey. lia.
Qed.

(** Draining takes the saved headers out of the index. *)
Lemma drain_spec saved pre c :
  by_id c = index (pre ++ saved.*1) -> NoDup (ids (pre ++ saved.*1)) ->
  exists c', drain saved c = (Return tt, c') /\ by_id c' = index pre /\
    base_height c' = base_height c /\ same_settings c c' /\
    (forall k x, lru_peek k (headers (lazy c')) = Some x -> lru_peek k (headers (lazy c)) = Some x).
Proof.
  revert c. induction saved as [|[h s] saved IH]; intros c Hi Hn; cbn in Hi, Hn.
  { rewrite app_nil_r in Hi. exists c. by split_and!. }
  set (c1 := with_lazy (with_index c (base_height c) (delete (header_id h) (by_id c)))
                       (evict (height h) (lazy c))).
  destruct (IH c1) as (c' & Hd & Hi' & Hb & Hf & Hc).
  - cbn. rewrite Hi. by apply index_delete.
  - unfold ids in *. rewrite fmap_app in *. cbn in Hn. rewrite <- Permutation_middle in Hn.
    by apply NoDup_cons in Hn as [_ ?].
  - exists c'. split_and!; [exact Hd|done|done|done|]. intros k x Hx%Hc. by apply (peek_pop_sub (height h)).
Qed.

Lemma repr_drain saved pre c :
  pre <> [] -> repr (pre ++ saved.*1) c ->
  exists c', drain saved c = (Return tt, c') /\ repr pre c' /\ same_settings c c'.
Proof.
  intros Hne Hr. destruct (drain_spec saved pre c) as (c' & Hd & Hi & Hb & Hf & Hc); [apply Hr..|].
  exists c'. split_and!; [done| |done]. pose proof Hf as (_ & _ & _ & _ & _ & Hl & _). split.
  - rewrite Hb, (repr_base _ _ _ Hr). by destruct pre.
  - done.
  - pose proof (repr_nodup _ _ _ Hr) as Hn. unfold ids in *. rewrite fmap_app in Hn.
    by apply NoDup_app in Hn as (? & _).
  - rewrite <- (take_app_length pre saved.*1). by apply linked_take, (repr_linked _ _ _ Hr).
  - pose proof (repr_u32 _ _ _ Hr) as Hu. by apply Forall_app in Hu as [? _].
  - pose proof (repr_genuine _ _ _ Hr) as Hg. by apply Forall_app in Hg as [? _].
  - intros k x Hx%Hc. by eapply (repr_cache _ _ _ Hr).
  - intros f k x. rewrite Hl. by apply (repr_loader _ _ _ Hr).
Qed.

(** A pop takes the tip off, when it can be read. *)
Lemma wp_pop hs t Q c :
  repr (hs ++ [t]) c ->
  (forall s c', repr hs c' -> same_settings c c' -> Q (Return (Some (t, s))) c') ->
  (forall c', Q Panic c') ->
  wp pop_header Q c.
Proof.
  intros Hr HQ HP. unfold pop_header. apply wp_bind, wp_gets. rewrite (is_empty_repr _ _ _ Hr).
  rewrite bool_decide_false by (by destruct hs). apply wp_bind, wp_gets.
  rewrite (chain_height_repr _ _ _ t Hr) by by rewrite last_snoc.
  apply wp_bind, (wp_header_at _ (hs ++ [t])); [done|]. intros r c1 Hx _ Hr1 Hf1.
  apply wp_bind. destruct r as [x|]; [|apply HP]. destruct (Hx x eq_refl) as [Hin Hh].
  assert (x = t) as ->.
  { apply (linked_unique (hs ++ [t])); [apply Hr|done|apply elem_of_app; right; left|done]. }
  unfold wp at 1. cbn [expect_some ret fst snd].
  apply wp_bind, (wp_score_at preimage _ (hs ++ [t])); [done|]. intros s c2 _ Hr2 Hf2 _ _ _ _.
  pose proof (repr_linked _ _ _ Hr2) as [Hl _]%linked_snoc.
  pose proof (repr_drop _ hs t [] c2 (height <$> head hs) (height t) Hr2) as Hd.
  rewrite app_nil_r in Hd. specialize (Hd Hl eq_refl).
  unfold wp, bind, modify, ret. cbn [fst snd].
  match goal with |- Q _ (if is_empty ?x then _ else _) =>
    set (c3 := x); assert (is_empty c3 = bool_decide (hs = [])) as -> end.
  { unfold is_empty, c3. apply bool_decide_ext. cbn.
    rewrite <- (index_empty hs), <- (repr_index _ _ _ Hd). done. }
  case_bool_decide as Hn.
  - apply HQ; [|by etrans]. subst hs. exact Hd.
  - apply HQ; [|by etrans]. unfold c3. pose proof (repr_base _ _ _ Hr2) as Hb.
    replace (height <$> head hs) with (base_height c2) in Hd by (rewrite Hb; by destruct hs).
    exact Hd.
Qed.

(** The [while] loop takes off everything above the fork point. *)
Lemma wp_rewind fuel pre added fork Q c :
  repr (pre ++ added) c -> (length added <= fuel)%nat ->
  (forall t, last pre = Some t -> height t = fork) -> pre <> [] ->
  (forall c', repr pre c' -> same_settings c c' -> Q (Return tt) c') ->
  (forall c', Q Panic c') ->
  wp (rewind fuel fork) Q c.
Proof.
  intros Hr Hlen Hfork Hne HQ HP. revert added c Q Hr Hlen HQ HP.
  induction fuel as [|fuel IH]; intros added c Q Hr Hlen HQ HP; cbn [rewind].
  { destruct added; [|cbn in Hlen; lia]. rewrite app_nil_r in Hr. by apply HQ. }
  apply wp_bind, wp_gets. destruct (last pre) as [t0|] eqn:Et0; [|by apply last_None in Et0].
  destruct added as [|t added _] using rev_ind.
  - rewrite app_nil_r in Hr. rewrite (chain_height_repr _ _ _ _ Hr Et0), (Hfork t0 eq_refl).
    rewrite Z.ltb_irrefl. by apply HQ.
  - rewrite app_assoc in Hr. rewrite (chain_height_repr _ _ _ t Hr) by by rewrite last_snoc.
    assert (fork < height t) as Hlt.
    { assert (last (pre ++ added ++ [t]) = Some t) as Hl by by rewrite app_assoc, last_snoc.
      pose proof (repr_linked _ _ _ Hr) as Hk. rewrite <- app_assoc in Hk.
      pose proof (linked_suffix_heights pre (added ++ [t]) t0 Hk Et0) as Hs.
      rewrite fmap_app in Hs. cbn in Hs.
      assert (height t ∈ height <$> added ++ [t]) as Hin
        by (rewrite fmap_app; apply elem_of_app; right; left).
      rewrite fmap_app in Hin. cbn in Hin. rewrite Hs in Hin. apply elem_of_seqZ in Hin.
      rewrite <- (Hfork t0 eq_refl). lia. }
    destruct (Z.ltb_spec fork (height t)); [|lia].
    apply wp_bind, (wp_pop (pre ++ added) t); [done| |done]. intros s c1 Hr1 Hf1.
    apply (IH added); [done| | |done].
    + rewrite length_app in Hlen. cbn in Hlen. lia.
    + intros c2 Hr2 Hf2. apply HQ; [done|by etrans].
Qed.

(** Reinstating the saved headers puts them back on the list. *)
Lemma wp_reinstate saved pre Q c :
  repr pre c -> pre <> [] -> linked (pre ++ saved.*1) ->
  Forall genuine saved.*1 -> Forall (fun x => is_u32 (height x)) saved.*1 ->
  (forall c', repr (pre ++ saved.*1) c' -> same_settings c c' -> Q (Return tt) c') ->
  wp (reinstate saved) Q c.
Proof.
  revert pre c Q. induction saved as [|[h s] saved IH]; intros pre c Q Hr Hne Hl Hg Hu HQ; cbn in *.
  { apply HQ; [|done]. by rewrite app_nil_r. }
  apply Forall_cons in Hg as [Hg Hgs], Hu as [Hu Hus].
  assert (linked ((pre ++ [h]) ++ saved.*1)) as Hl' by (by rewrite <- app_assoc).
  assert (extends pre h) as He.
  { pose proof (linked_take (length (pre ++ [h])) _ Hl') as Ht. rewrite take_app_length in Ht.
    by apply linked_snoc in Ht as [_ ?]. }
  assert (base_height c = height <$> head (pre ++ [h])) as Hb
    by (rewrite (repr_base _ _ _ Hr); by destruct pre).
  pose proof (repr_snoc preimage pre c h _ s Hr Hg Hu He Hb) as Hr'.
  unfold wp, bind, index_header, put_header, modify. cbn [fst snd].
  apply (IH (pre ++ [h])); [exact Hr'|by destruct pre|done..|].
  intros c' Hc' Hf. rewrite <- app_assoc in Hc'. apply HQ; [exact Hc'|exact Hf].
Qed.


(** The difficulty a header needs, from those of the chain's headers that the store
    could serve at the heights looked back at. *)
Definition difficulty_seen (hs : list Header) (cfg : ChainConfig) (t : Header) (bits : Z) : Prop :=
  match v2_override cfg t, recalculation_heights cfg t with
  | Some v2_n_bits, _ => bits = v2_n_bits
  | None, None => bits = n_bits t
  | None, Some ks =>
      exists seen, (height <$> seen) `sublist_of` ks /\ (forall x, x ∈ seen -> x ∈ hs) /\
        recalculate decode_compact_bits encode_compact_bits cfg t seen = Return bits
  end.

Lemma headers_at_seen hs ks c seen c' :
  repr hs c -> headers_at ks c = (Return seen, c') ->
  (height <$> seen) `sublist_of` ks /\ (forall x, x ∈ seen -> x ∈ hs).
Proof.
  revert c seen c'. induction ks as [|k ks IH]; intros c seen c' Hr Hs; cbn [headers_at] in Hs.
  { injection Hs as <- _. split; [done|]. by intros x ?%not_elem_of_nil. }
  apply bind_inv in Hs as (r & c1 & Hk & Hs). apply bind_inv in Hs as (rest & c2 & Hks & Hs).
  pose proof (reads_le _ _ _ _ (reads_header_at k) Hk) as Hle.
  destruct (IH c1 rest c2 (repr_read _ _ _ _ Hle Hr) Hks) as [Hsub Hin].
  injection Hs as <- _. destruct r as [x|]; [|split; [by apply sublist_cons|done]].
  destruct (header_at_sound preimage hs c k x Hr) as [Hx Hh]; [by rewrite Hk|]. split.
  - cbn. rewrite Hh. by apply sublist_skip.
  - intros y [->|Hy]%elem_of_cons; auto.
Qed.

Lemma check_difficulty_seen hs c t h u c' :
  repr hs c -> check_difficulty t h c = (Return u, c') -> difficulty_seen hs (config c) t (n_bits h).
Proof.
  intros Hr Hd. unfold check_difficulty in Hd. minv Hd. apply Z.eqb_eq in Hd. rewrite Hd.
  unfold chain_expected_difficulty in Hm. apply bind_inv in Hm as (cfg & c2 & Hg & Hm).
  apply gets_inv in Hg as [-> ->]. unfold difficulty_seen.
  destruct (v2_override (config c) t); [by injection Hm as <- _|].
  destruct (recalculation_heights (config c) t) as [ks|]; [|by injection Hm as <- _].
  apply bind_inv in Hm as (seen & c3 & Hks & Hm). apply lift_inv in Hm as [Hm _].
  exists seen. destruct (headers_at_seen hs ks c seen c3 Hr Hks). by split_and!.
Qed.

(** What a header of the new branch has to satisfy after [t]. *)
Record reorg_ok (now : Z) (pow : bool) (hs : list Header) c (t h : Header) : Prop := {
  reorg_header : header_ok now c t h;
  reorg_pow : pow = true -> verify_pow h = Return tt;
  reorg_difficulty : difficulty_seen hs (config c) t (n_bits h);
}.

Lemma validate_reorg_inv now pow hs c t h u c' :
  repr hs c -> last hs = Some t -> validate_reorg_header now h pow c = (Return u, c') ->
  reorg_ok now pow hs c t h.
Proof.
  intros Hr El Hv. unfold validate_reorg_header in Hv. apply bind_inv in Hv as (t' & c1 & Ht & Hv).
  pose proof (tip_inv preimage _ _ _ _ Hr Ht) as El'. rewrite El in El'. injection El' as <-.
  pose proof (reads_le _ _ _ _ reads_tip Ht) as Hle1.
  pose proof (repr_read _ _ _ _ Hle1 Hr) as Hr1.
  apply bind_inv in Hv as (? & ? & Hts & Hv). apply check_timestamp_inv in Hts as [Hts ->].
  apply bind_inv in Hv as (? & c2 & Hd & Hv).
  pose proof (reads_le _ _ _ _ (reads_check_difficulty t h) Hd) as (cache2 & Hc2 & _).
  apply (check_difficulty_seen hs) in Hd; [|done].
  apply bind_inv in Hv as ([] & c3 & Hpow & Hv).
  assert ((pow = true -> verify_pow h = Return tt) /\ c3 = c2) as [Hpow' ->].
  { destruct pow; [apply lift_inv in Hpow; naive_solver|]. injection Hpow as <-. done. }
  apply check_votes_inv in Hv as [Hvotes Hgate].
  destruct Hle1 as (cache1 & -> & _). subst c2. cbn in *. by split.
Qed.

(** Each header of the branch follows the one before it and passed its checks. *)
Fixpoint branch_valid (clock : Z -> Z) (pow : bool) c (hs : list Header) (i : Z) (branch : list Header)
    : Prop :=
  match branch with
  | [] => True
  | h :: branch' =>
      (exists t, last hs = Some t /\ parent_id h = header_id t /\ height h = height t + 1 /\
                 reorg_ok (clock i) pow hs c t h) /\
      branch_valid clock pow c (hs ++ [h]) (i + 1) branch'
  end.

Lemma reorg_ok_frame now pow hs c c1 t h : same_settings c c1 -> reorg_ok now pow hs c1 t h -> reorg_ok now pow hs c t h.
Proof.
  intros (Hc & Hp & _) [[Ht Hv Hg] Hw Hd]. rewrite Hc in *. rewrite Hp in *. by split.
Qed.

Lemma branch_valid_frame clock pow c c1 hs i branch :
  same_settings c c1 -> branch_valid clock pow c1 hs i branch -> branch_valid clock pow c hs i branch.
Proof.
  intros Hf. revert hs i. induction branch as [|h branch IH]; intros hs i; cbn; [done|].
  intros [(t & ? & ? & ? & Hok) Hb]. split; [|by apply IH].
  exists t. split_and!; [done..|by eapply reorg_ok_frame].
Qed.

(** The branch loop pushes the headers that pass, up to the first that does not. *)
Lemma wp_apply_branch clock pow fork branch i hs t Q c :
  repr hs c -> last hs = Some t -> height t = fork + i -> 0 <= i -> is_u32 fork ->
  fork + i + Z.of_nat (length branch) <= U32_MAX ->
  (forall h, head branch = Some h -> i = 0 -> parent_id h = header_id t) ->
  Forall genuine branch ->
  (forall c', repr (hs ++ branch) c' -> same_settings c c' -> branch_valid clock pow c hs i branch ->
     Q (Return tt) c') ->
  (forall e n c', (n < length branch)%nat -> repr (hs ++ take n branch) c' -> same_settings c c' -> Q (Fail e) c') ->
  (forall c', Q Panic c') ->
  wp (apply_branch clock fork i pow branch) Q c.
Proof.
  revert i hs t c Q. induction branch as [|h branch IH];
    intros i hs t c Q Hr El Hh Hi Hu Hmax Hfirst Hg HQ HF HP; cbn [apply_branch].
  { apply HQ; [by rewrite app_nil_r|done..]. }
  apply Forall_cons in Hg as [Hgh Hg]. cbn in Hmax.
  assert (forall e c', repr hs c' -> same_settings c c' -> Q (Fail e) c') as HF0.
  { intros e c' Hr' Hf'. apply (HF e 0%nat); [cbn; lia|by rewrite app_nil_r|done]. }
  apply wp_bind, (wp_reads preimage _ hs); [destruct (0 <? i); reads_tac|done|].
  intros o c1 Hlink Hle1 Hr1 Hf1.
  destruct o as [[]|e|]; [|by apply HF0|by apply HP].
  assert (parent_id h = header_id t) as Hparent.
  { destruct (Z.ltb_spec 0 i).
    - apply bind_inv in Hlink as (t' & c2 & Ht & Hl). apply (tip_inv preimage hs) in Ht; [|done].
      rewrite El in Ht. injection Ht as <-. minv Hl. lia.
    - apply (Hfirst h); [done|lia]. }
  assert (add_u32 (add_u32 fork 1) (as_u32 i) = height t + 1) as ->.
  { unfold add_u32. rewrite (as_u32_small (fork + 1)), (as_u32_small i), as_u32_small; int_unfold; lia. }
  apply wp_bind, wp_ensure; [|by intros; apply HF0]. intros Hheight%Z.eqb_eq.
  apply wp_bind, (wp_reads preimage _ hs); [eauto with chain|done|]. intros o c2 Hv Hle2 Hr2 Hf2.
  assert (same_settings c c2) as Hf by (by etrans).
  destruct o as [[]|e|]; [|by apply HF0|by apply HP].
  apply (validate_reorg_inv _ _ hs _ t) in Hv; [|done..].
  apply wp_bind, (wp_push preimage hs); [done..|int_unfold; lia| | |by intros; apply HP].
  { intros t' Ht'. rewrite El in Ht'. by injection Ht' as <-. }
  intros s c3 _ Hr3 Hf3 _ _. apply (IH (i + 1) (hs ++ [h]) h); clear IH.
  - done.
  - by rewrite last_snoc.
  - lia.
  - lia.
  - done.
  - lia.
  - lia.
  - done.
  - intros c4 Hr4 Hf4 Hb. rewrite <- app_assoc in Hr4. apply HQ; [done|by do 2 (etrans; [done|])|].
    split; [|eapply branch_valid_frame; [|done]; by etrans].
    exists t. split_and!; [done..|]. by apply (reorg_ok_frame _ _ _ c c1).
  - intros e n c4 Hn Hr4 Hf4. apply (HF e (S n)); [cbn; lia| |by do 2 (etrans; [done|])].
    by rewrite <- app_assoc in Hr4.
  - done.
Qed.


(** What the checks before a deep reorganization establish; they change nothing. *)
Lemma wp_reorg_prepare fork branch hs Q c :
  repr hs c -> fork < U32_MAX ->
  (forall saved c' pre post t, hs = pre ++ post -> last pre = Some t -> height t = fork ->
     (forall h, head branch = Some h -> parent_id h = header_id t) -> branch <> [] ->
     saved.*1 = post -> repr hs c' -> same_settings c c' -> Q (Return saved) c') ->
  (forall e c', repr hs c' -> same_settings c c' -> Q (Fail e) c') ->
  wp (reorg_prepare fork branch) Q c.
Proof.
  intros Hr Hfork HQ HF. unfold reorg_prepare. destruct branch as [|first branch']; [by apply HF|].
  apply wp_bind, wp_gets. rewrite (is_empty_repr _ _ _ Hr).
  apply wp_bind, wp_ensure; [|by intros; apply HF]. intros Hne%negb_true_iff%bool_decide_eq_false.
  destruct (last hs) as [t|] eqn:El; [|by apply last_None in El].
  destruct (repr_head_last _ _ _ _ Hr El) as (b & Hb & Hbu & _).
  apply wp_bind, wp_gets, wp_bind, wp_ensure; [|by intros; apply HF]. intros _.
  apply wp_bind, wp_gets. rewrite Hb. apply wp_bind. unfold wp at 1. cbn [expect_some ret fst snd].
  apply wp_bind, wp_gets, wp_bind, wp_ensure; [|by intros; apply HF].
  rewrite (chain_height_repr _ _ _ _ Hr El), negb_true_iff, orb_false_iff, !Z.ltb_ge. intros [Hlo Hhi].
  apply wp_bind, (wp_header_at _ hs); [done|]. intros r c1 Hx _ Hr1 Hf1.
  apply wp_bind, wp_some_or; [|by intros; apply HF]. intros x ->. destruct (Hx x eq_refl) as [Hin Hh].
  apply wp_bind, wp_ensure; [|by intros; apply HF]. intros Hparent%Z.eqb_eq.
  destruct (split_at hs x Hin) as (pre & post & -> & Hpre).
  pose proof (linked_suffix_heights pre post x (repr_linked _ _ _ Hr) Hpre) as Hks.
  cbv zeta. assert (add_u32 fork 1 = height x + 1) as ->.
  { unfold add_u32. rewrite as_u32_small; int_unfold; lia. }
  assert (height t = height x + Z.of_nat (length post)) as Ht.
  { apply last_app_Some in El as [El|[->%last_None El]]; [|cbn; simplify_eq; lia].
    rewrite last_lookup in El. pose proof (lookup_lt_Some _ _ _ El).
    assert ((height <$> post) !! pred (length post) = Some (height t)) as Hk
      by by rewrite list_lookup_fmap, El.
    rewrite Hks in Hk. apply lookup_seqZ in Hk. lia. }
  replace (height t - (height x + 1) + 1) with (Z.of_nat (length post)) by lia. rewrite <- Hks.
  apply (wp_save_heights _ (pre ++ post)); [done| |].
  - intros saved c2 Hsaved Hr2 Hf2. apply (HQ saved c2 pre post x); [done..| |done| |done|by etrans].
    + by intros h [= <-].
    + eapply saved_is; [apply Hr| |reflexivity|done]. intros y Hy. apply elem_of_app. by right.
  - intros e c2 Hr2 Hf2. apply HF; [done|by etrans].
Qed.

(** A deep reorganization on every outcome. *)
Definition reorg_post (clock : Z -> Z) (fork : Z) (branch : list Header) (pow : bool)
    (hs : list Header) c (o : outcome ChainError (list id32)) c' : Prop :=
  match o with
  | Return demoted =>
      exists pre post t, hs = pre ++ post /\ last pre = Some t /\ height t = fork /\
        repr (pre ++ branch) c' /\ same_settings c c' /\ demoted = ids post /\
        branch <> [] /\ branch_valid clock pow c pre 0 branch
  | Fail e => repr hs c' /\ same_settings c c'
  | Panic => True
  end.

Lemma reorg_deep_spec clock fork branch pow hs c :
  repr hs c -> is_u32 fork -> fork + Z.of_nat (length branch) <= U32_MAX ->
  Forall genuine branch -> fork < U32_MAX ->
  reorg_post clock fork branch pow hs c
    (try_reorg_deep clock fork branch pow c).1 (try_reorg_deep clock fork branch pow c).2.
Proof.
  intros Hr Hu Hmax Hg Hlt.
  change (wp (try_reorg_deep clock fork branch pow) (reorg_post clock fork branch pow hs c) c).
  unfold try_reorg_deep. apply wp_bind, (wp_reorg_prepare _ _ hs); [done..| |by split].
  intros saved c1 pre post t -> Hpre Hfork Hfirst Hne Hsaved Hr1 Hf1. subst post.
  assert (pre <> []) as Hpne by (by intros ->).
  destruct (repr_drain saved pre c1 Hpne Hr1) as (c2 & Hd & Hr2 & Hf2).
  apply wp_bind. unfold wp at 1. rewrite Hd. cbn [fst snd].
  apply wp_bind, wp_catch.
  apply (wp_apply_branch _ _ _ _ _ pre t); [done|done|lia|lia|done|lia| |done| | |done].
  { intros h Hh _. by apply Hfirst. }
  - intros c3 Hr3 Hf3 Hb. exists pre, saved.*1, t.
    assert (same_settings c c2) as Hfc by (by etrans).
    split_and!; [done..|by etrans|done|done|]. by apply (branch_valid_frame _ _ c c2).
  - intros e n c3 Hn Hr3 Hf3.
    apply wp_bind, (wp_rewind _ pre (take n branch)); [done| | |done| |done].
    + rewrite length_take. lia.
    + intros t' Ht'. rewrite Hpre in Ht'. by injection Ht' as <-.
    + intros c4 Hr4 Hf4.
      pose proof (repr_genuine _ _ _ Hr) as [_ Hgs]%Forall_app.
      pose proof (repr_u32 _ _ _ Hr) as [_ Hus]%Forall_app.
      apply wp_bind, (wp_reinstate saved pre); [done|done|apply Hr|done|done|].
      intros c5 Hr5 Hf5. split; [done|]. by do 4 (etrans; [done|]).
Qed.

(** C6: [try_reorg_deep] either replaces everything above the fork point by the whole
    new branch, each header of which linked to the one before it and passed its checks,
    and returns the ids it demoted, in order; or fails, at whatever point of the
    branch, and leaves the best chain exactly as it was. *)
Theorem try_reorg_deep_correct clock fork branch pow hs c :
  repr hs c -> is_u32 fork -> fork + Z.of_nat (length branch) <= U32_MAX ->
  Forall genuine branch -> fork < U32_MAX ->
  reorg_post clock fork branch pow hs c
    (try_reorg_deep clock fork branch pow c).1 (try_reorg_deep clock fork branch pow c).2.
Proof. apply reorg_deep_spec. Qed.

End Reorg.

End HeaderChainInv.
