(* ===== verification/HeaderChainOps.v ===== *)
(** * The header chain: restoring, verifying, installing, one-deep reorganization

    The operations of chain.rs that build a chain from outside (the store's index, a
    NiPoPoW proof), the linkage check that has to follow a restore, and [try_reorg],
    against the representation of HeaderChainInv. *)

From S2P Require Import Prelude ChainConfig VotingCodec Voting Header Difficulty Pow HeaderStore.
From S2P Require Import HeaderChain HeaderChainInv.
Import ChainConfig VotingCodec Voting Difficulty Pow HeaderStore HeaderChain HeaderChainInv.

Module HeaderChainOps.

(** ** Restoring *)

Section Restore.
Context {C : Type -> Type} `{LruLaws C} {RuleStatus : Type} `{SigmaIO RuleStatus}.

(** Each entry of the store's index is one height above the one before it. *)
Definition contiguous (es : list (Z * id32)) : Prop :=
  forall i a b, es !! i = Some a -> es !! S i = Some b -> b.1 = add_u32 a.1 1.

Lemma contiguous_snoc es e :
  contiguous es -> (forall p, last es = Some p -> e.1 = add_u32 p.1 1) -> contiguous (es ++ [e]).
Proof.
  intros Hc Hl i a b Ha [Hb|[Hge Hb]]%lookup_app_Some.
  - pose proof (lookup_lt_Some _ _ _ Hb). rewrite lookup_app_l in Ha by lia. by apply (Hc i).
  - apply list_lookup_singleton_Some in Hb as [Hi <-]. rewrite lookup_app_l in Ha by lia.
    apply Hl. rewrite last_lookup. by replace (pred (length es)) with i by lia.
Qed.

Lemma contiguous_height es f i e :
  contiguous es -> is_u32 f.1 -> es !! 0%nat = Some f -> es !! i = Some e ->
  e.1 = as_u32 (f.1 + Z.of_nat i).
Proof.
  intros Hc Hu H0'. revert e. induction i as [|i IH]; intros e He.
  { simplify_eq. by rewrite Z.add_0_r, as_u32_small. }
  destruct (lookup_lt_is_Some_2 es i) as [y Hy]; [apply lookup_lt_Some in He; lia|].
  rewrite (Hc i y e Hy He), (IH y Hy). unfold add_u32, as_u32. rewrite Zplus_mod_idemp_l. f_equal. lia.
Qed.

Definition swap (e : Z * id32) : id32 * Z := (e.2, e.1).
Definition entry_index (es : list (Z * id32)) : gmap id32 Z := list_to_map (swap <$> es).

Lemma entry_keys es : (swap <$> es).*1 = es.*2.
Proof. rewrite <- list_fmap_compose. done. Qed.

(** What the restore of an index answers: the chain of a contiguous index without
    repeated ids, or the first entry that breaks it. *)
Definition restore_post (es : list (Z * id32)) (r : result RestoreError (option Z * gmap id32 Z)) : Prop :=
  match r with
  | Ok (base, ids) =>
      contiguous es /\ NoDup es.*2 /\ base = fst <$> head es /\ ids = entry_index es
  | Err (NonContiguousHeights expected got) =>
      exists pre p id post, es = pre ++ [p; (got, id)] ++ post /\ contiguous (pre ++ [p]) /\
        NoDup (pre ++ [p]).*2 /\ expected = add_u32 p.1 1 /\ got <> expected
  | Err (DuplicateHeight got) =>
      exists pre id post, es = pre ++ (got, id) :: post /\ contiguous (pre ++ [(got, id)]) /\
        NoDup pre.*2 /\ id ∈ pre.*2
  end.

Lemma restore_entries_spec pre es :
  contiguous pre -> NoDup pre.*2 ->
  restore_post (pre ++ es)
    (restore_entries es (fst <$> head pre) (fst <$> last pre) (entry_index pre)).
Proof.
  revert pre. induction es as [|[k id] es IH]; intros pre Hc Hn; cbn [restore_entries].
  { rewrite app_nil_r. by split_and!. }
  assert (forall q, last pre = Some q -> k = add_u32 q.1 1 -> contiguous (pre ++ [(k, id)])) as Hsn.
  { intros q Hq Hk. apply contiguous_snoc; [done|]. intros q' Hq'. rewrite Hq in Hq'. by simplify_eq. }
  destruct (last pre) as [q|] eqn:Eq; cbn.
  - destruct (Z.eqb_spec k (add_u32 q.1 1)) as [Hk|Hk]; cbn.
    + case_bool_decide as Hid.
      * exists pre, id, es. split_and!; [done|by eapply Hsn|done|].
        destruct Hid as [k' Hk']. apply elem_of_list_to_map_2 in Hk'.
        rewrite <- entry_keys. by apply (list_elem_of_fmap_2 fst) in Hk'.
      * specialize (IH (pre ++ [(k, id)])).
        rewrite <- app_assoc in IH. cbn in IH. rewrite last_snoc in IH. cbn in IH.
        assert (id ∉ pre.*2) as Hf.
        { rewrite <- entry_keys. apply not_elem_of_list_to_map. by apply eq_None_not_Some. }
        replace (fst <$> head (pre ++ [(k, id)])) with (fst <$> head pre) in IH by (by destruct pre).
        unfold entry_index in IH. rewrite (fmap_app swap) in IH.
        change (swap <$> [(k, id)]) with [(id, k)] in IH.
        rewrite list_to_map_snoc in IH by by rewrite entry_keys. apply IH; [by eapply Hsn|].
        rewrite fmap_app. apply NoDup_app. split_and!; [done| |by apply NoDup_singleton].
        intros x Hx. cbn. rewrite list_elem_of_singleton. by intros ->.
    + apply last_Some in Eq as [pre' ->]. exists pre', q, id, es. split_and!; try done.
      by rewrite <- app_assoc.
  - apply last_None in Eq as ->. cbn. rewrite bool_decide_false by (by intros [? ?]).
    apply (IH [(k, id)]); [|by apply NoDup_singleton].
    intros i a b Ha Hb. apply lookup_lt_Some in Hb. cbn in Hb. lia.
Qed.

(** [restore] accepts an index exactly when its heights go up by one and its ids
    are distinct, and the chain it returns has that index, the first height as its
    base, the last one as its height, and light mode exactly when it starts above
    height one. Otherwise it reports the first entry out of line: a height that does
    not follow, a repeated height included, is [NonContiguousHeights], and
    [DuplicateHeight] only ever reports a repeated id. *)
Theorem restore_correct cfg es :
  Forall (fun e => is_u32 e.1) es ->
  match restore (C := C) (RuleStatus := RuleStatus) cfg es with
  | Ok c =>
      restore_post es (Ok (base_height c, by_id c)) /\ len c = Z.of_nat (length es) /\
      chain_height c = default 0 (fst <$> last es) /\
      light_client_mode c = (1 <? default 1 (fst <$> head es))
  | Err e => restore_post es (Err e)
  end.
Proof.
  intros Hu. unfold restore. pose proof (restore_entries_spec [] es) as Hs. cbn in Hs.
  change (entry_index []) with (∅ : gmap id32 Z) in Hs.
  destruct (restore_entries es None None ∅) as [[base ids]|e]; cbn.
  - destruct Hs as (Hc & Hn & -> & ->); [by intros ? ? ? ?|constructor|].
    assert (size (entry_index es) = length es) as Hsz.
    { unfold entry_index. rewrite map_size_list_to_map by by rewrite entry_keys. by rewrite length_fmap. }
    split_and!; try done; [by unfold len; cbn; rewrite Hsz|].
    unfold chain_height, is_empty, len. cbn. rewrite Hsz.
    destruct (last es) as [e|] eqn:Ee; [|by apply last_None in Ee as ->].
    destruct es as [|f es]; [done|]. cbn [head fmap option_fmap option_map].
    rewrite bool_decide_false.
    + apply Forall_cons in Hu as [Hu _]. rewrite last_lookup in Ee.
      rewrite (contiguous_height _ f _ e Hc Hu eq_refl Ee). cbn [length pred].
      unfold sub_u32, add_u32, as_u32. rewrite Zplus_mod_idemp_r, Zminus_mod_idemp_l. cbn [default from_option id]. f_equal. lia.
    + intros He. rewrite He, map_size_empty in Hsz. done.
  - apply Hs; [by intros ? ? ? ?|constructor].
Qed.

End Restore.

(** ** Verifying the linkage of a restored chain *)

Section Linkage.
Context {C : Type -> Type} `{LruLaws C} `{PowScheme} {RuleStatus : Type} `{SigmaIO RuleStatus}.
Variable preimage : id32 -> option Header.
Implicit Types c : HeaderChain C.
Local Abbreviation repr := (repr preimage).
Local Abbreviation genuine := (genuine preimage).

(** What a restored and wired chain satisfies: a range of heights of the size of the
    index, and genuine headers behind the loader and in the cache. *)
Record wired (b n : Z) c : Prop := {
  wired_base : base_height c = Some b;
  wired_size : len c = n;
  wired_range : 0 < n /\ 0 <= b /\ b + n - 1 <= U32_MAX;
  wired_cache : forall k x, lru_peek k (headers (lazy c)) = Some x -> genuine x;
  wired_loader : forall f k x, header_loader (lazy c) = Some f -> f k = Some x -> genuine x;
}.

Lemma wired_read b n c c' : read_le c c' -> wired b n c -> wired b n c'.
Proof.
  intros (cache & -> & Hc) []. split; cbn; try done.
  intros k x Hx. apply Hc in Hx as [Hx|(f & Hf & Hx)]; eauto.
Qed.

Lemma wired_height b n c : wired b n c -> chain_height c = b + n - 1.
Proof.
  intros Hw. pose proof (wired_range _ _ _ Hw). unfold chain_height. rewrite (wired_base _ _ _ Hw).
  assert (is_empty c = false) as ->.
  { apply bool_decide_eq_false. intros He. pose proof (wired_size _ _ _ Hw) as Hs.
    unfold len in Hs. rewrite He, map_size_empty in Hs. lia. }
  rewrite (wired_size _ _ _ Hw). unfold sub_u32, add_u32, as_u32.
  rewrite Zplus_mod_idemp_r, Zminus_mod_idemp_l. apply as_u32_small. int_unfold. lia.
Qed.

Lemma reads_load k : reads (load_for_linkage_walk (C := C) k).
Proof. unfold load_for_linkage_walk. reads_tac. Qed.

Lemma reads_walk n k x : reads (linkage_walk (C := C) n k x).
Proof. revert k x. induction n as [|n IH]; intros; cbn [linkage_walk]; reads_tac; apply reads_load. Qed.

Lemma reads_verify d : reads (verify_best_chain_linkage (C := C) d).
Proof.
  unfold verify_best_chain_linkage. reads_tac; first [apply reads_load|apply reads_walk].
Qed.

(** A header the walk loads is filed, indexed and genuine. *)
Definition filed c (x : Header) : Prop := by_id c !! header_id x = Some (height x) /\ genuine x.

Lemma load_inv b n c k x c' :
  wired b n c -> load_for_linkage_walk k c = (Return x, c') -> height x = k /\ filed c x.
Proof.
  intros Hw Hl. unfold load_for_linkage_walk in Hl.
  apply bind_inv in Hl as (r & c1 & Hr & Hl). apply bind_inv in Hl as (y & ? & Hy & Hl). minv Hy.
  apply bind_inv in Hl as (? & ? & Hh & Hl). minv Hh. apply Z.eqb_eq in Hh.
  apply bind_inv in Hl as (ids & ? & Hg & Hl). apply gets_inv in Hg as [-> ->].
  assert (by_id c1 = by_id c) as Hi by by destruct (reads_le _ _ _ _ (reads_lazy_header k) Hr) as (? & -> & _).
  assert (genuine y) as Hgen.
  { unfold lazy_header, get_header in Hr.
    pose proof (get_cached_spec (header_loader (lazy c)) k (headers (lazy c))) as Hs.
    destruct (get_cached _ _ _) as [r cache]. destruct Hs as (-> & _ & _). injection Hr as Hr _.
    unfold resolve in Hr. destruct (lru_peek k _) eqn:E.
    - simplify_eq. by eapply (wired_cache _ _ _ Hw).
    - destruct (header_loader _) as [f|] eqn:Ef; [|done]. by eapply (wired_loader _ _ _ Hw). }
  rewrite Hi in Hl. destruct (by_id c !! header_id y) as [m|] eqn:Em; [|done].
  apply bind_inv in Hl as (? & ? & Hm & Hl). minv Hm. injection Hl as <- <-.
  apply Z.eqb_eq in Hm. split; [done|]. split; [|done]. rewrite Em. f_equal. lia.
Qed.

(** The walk down from a filed header finds a linked run of filed headers. *)
Lemma walk_inv b n m k x c u c' :
  wired b n c -> height x = k -> b + Z.of_nat m <= k -> k <= U32_MAX -> linkage_walk m k x c = (Return u, c') ->
  exists hs, length hs = m /\ linked (hs ++ [x]) /\ Forall (filed c) hs.
Proof.
  revert k x c. induction m as [|m IH]; intros k x c Hw Hx Hk Hmax Hwalk; cbn [linkage_walk] in Hwalk.
  { exists []. split_and!; [done| |done]. apply (linked_snoc [] x). split; [apply linked_nil|done]. }
  pose proof (wired_range _ _ _ Hw).
  assert (sub_u32 k 1 = k - 1) as Hsub.
  { unfold sub_u32. apply as_u32_small. int_unfold. lia. }
  rewrite Hsub in Hwalk. apply bind_inv in Hwalk as (y & c1 & Hl & Hwalk).
  pose proof (reads_le _ _ _ _ (reads_load (k - 1)) Hl) as Hle.
  destruct (load_inv _ _ _ _ _ _ Hw Hl) as [Hy Hfy].
  apply bind_inv in Hwalk as (? & ? & He & Hwalk). minv He. apply Z.eqb_eq in He.
  destruct (IH (height x - 1) y c1) as (hs & Hlen & Hlink & Hall);
    [by eapply wired_read|done|lia|lia|done|].
  exists (hs ++ [y]). split_and!.
  - rewrite length_app. cbn. lia.
  - apply linked_snoc. split; [done|]. intros t Ht. rewrite last_snoc in Ht. simplify_eq. lia.
  - apply Forall_app. split; [|by apply Forall_singleton].
    eapply Forall_impl; [done|]. destruct Hle as (? & -> & _). done.
Qed.

(** A linked run of filed headers as long as the index is the whole chain. *)
Lemma filed_repr b n c hs t :
  wired b n c -> linked hs -> Forall (filed c) hs -> Z.of_nat (length hs) = n ->
  last hs = Some t -> height t = b + n - 1 -> repr hs c.
Proof.
  intros Hw Hl Hall Hlen Ht Hh. rewrite Forall_forall in Hall.
  pose proof (wired_range _ _ _ Hw) as Hrange. rewrite last_lookup in Ht.
  destruct hs as [|x0 hs']; [cbn in Hlen; lia|]. set (hs := x0 :: hs') in *.
  assert (height x0 = b) as Hb.
  { pose proof (linked_height hs x0 _ t Hl eq_refl Ht). unfold hs in *. cbn in *. lia. }
  assert (NoDup (ids hs)) as Hn.
  { apply NoDup_fmap_2_strong.
    - intros x y Hx Hy Heq. apply (genuine_inj preimage); [apply Hall..|]; done.
    - apply NoDup_alt. intros i j x Hi Hj.
      pose proof (linked_height hs x0 i x Hl eq_refl Hi). pose proof (linked_height hs x0 j x Hl eq_refl Hj). lia. }
  split; try done.
  - rewrite (wired_base _ _ _ Hw). cbn. by rewrite Hb.
  - symmetry. apply map_subseteq_size_eq.
    + apply map_subseteq_spec. intros id k (x & Hx & <- & <-)%index_lookup; [|done]. by apply Hall.
    + rewrite index_size by done. pose proof (wired_size _ _ _ Hw) as Hs. unfold len in Hs. lia.
  - apply Forall_forall. intros x [i Hi]%list_elem_of_lookup. pose proof (lookup_lt_Some _ _ _ Hi).
    rewrite (linked_height hs x0 i x Hl eq_refl Hi). int_unfold. lia.
  - apply Forall_forall. intros x Hx. by apply Hall.
  - apply (wired_cache _ _ _ Hw).
  - apply (wired_loader _ _ _ Hw).
Qed.

Lemma load_served hs c x :
  repr hs c -> served hs c -> x ∈ hs -> (load_for_linkage_walk (height x) c).1 = Return x.
Proof.
  intros Hr (f & Hf & Hs) Hx. destruct (Hs x Hx) as [Hfx Hp]. unfold load_for_linkage_walk, bind at 1.
  unfold lazy_header, get_header.
  pose proof (get_cached_spec (header_loader (lazy c)) (height x) (headers (lazy c))) as Hg.
  destruct (get_cached _ _ _) as [r cache]. destruct Hg as (-> & _ & _).
  assert (resolve (header_loader (lazy c)) (headers (lazy c)) (height x) = Some x) as ->.
  { unfold resolve. destruct (lru_peek _ _) as [y|]; [by rewrite (Hp y eq_refl)|by rewrite Hf]. }
  unfold bind, gets, ensure, some_or, ret. cbv beta iota. rewrite Z.eqb_refl. cbv beta iota.
  change (by_id (with_lazy c _)) with (by_id c). rewrite (repr_index _ _ _ Hr).
  rewrite (proj2 (index_lookup hs (header_id x) (height x) (repr_nodup _ _ _ Hr))) by eauto.
  by rewrite Z.eqb_refl.
Qed.

(** A header above the base has its parent on the list. *)
Lemma parent_in hs x b :
  linked hs -> x ∈ hs -> height <$> head hs = Some b -> b < height x ->
  exists y, y ∈ hs /\ height y = height x - 1 /\ parent_id x = header_id y.
Proof.
  intros Hl [i Hi]%list_elem_of_lookup Hb Hlt. destruct hs as [|x0 hs]; [done|]. injection Hb as <-.
  pose proof (linked_height _ x0 _ _ Hl eq_refl Hi). destruct i as [|i]; [cbn in *; lia|].
  destruct (lookup_lt_is_Some_2 (x0 :: hs) i) as [y Hy]; [apply lookup_lt_Some in Hi; lia|].
  exists y. destruct (Hl i y x Hy Hi). split_and!; [by eapply list_elem_of_lookup_2|lia|done].
Qed.

Lemma walk_served hs b m x c :
  repr hs c -> served hs c -> x ∈ hs -> base_height c = Some b -> b + Z.of_nat m <= height x ->
  (linkage_walk m (height x) x c).1 = Return tt.
Proof.
  revert x c. induction m as [|m IH]; intros x c Hr Hs Hx Hb Hm; [done|]. cbn [linkage_walk].
  pose proof (repr_u32 _ _ _ Hr) as Hu. rewrite Forall_forall in Hu.
  rewrite (repr_base _ _ _ Hr) in Hb.
  destruct (parent_in hs x b (repr_linked _ _ _ Hr) Hx Hb ltac:(lia)) as (y & Hy & Hh & Hp).
  assert (sub_u32 (height x) 1 = height y) as ->.
  { unfold sub_u32. rewrite <- Hh. apply as_u32_small. by apply Hu. }
  unfold bind at 1. pose proof (load_served hs c y Hr Hs Hy) as Hl.
  destruct (load_for_linkage_walk (height y) c) as [r c1] eqn:E. cbn in Hl. subst r.
  pose proof (reads_le _ _ _ _ (reads_load (height y)) E) as Hle.
  unfold bind, ensure. rewrite Hp, Z.eqb_refl. cbn [ret].
  apply IH; [by eapply repr_read|by eapply served_read|done| |lia].
  destruct Hle as (? & -> & _). cbn. by rewrite (repr_base _ _ _ Hr).
Qed.

(** The walk, to any depth, passes on a chain the store serves. *)
Lemma linkage_served d hs c : repr hs c -> served hs c -> (verify_best_chain_linkage d c).1 = Return tt.
Proof.
  intros Hr Hs. unfold verify_best_chain_linkage, bind at 1, gets. rewrite (repr_base _ _ _ Hr).
  destruct (last hs) as [t|] eqn:Et; [|by apply last_None in Et as ->].
  destruct (repr_head_last _ _ _ _ Hr Et) as (b & Hb & _ & Hh). rewrite (repr_base _ _ _ Hr) in Hb. rewrite Hb.
  unfold bind at 1. rewrite (chain_height_repr _ _ _ _ Hr Et).
  destruct (Z.leb_spec (height t) b); [done|]. cbv zeta.
  set (links := match d with Some d => Z.min (height t - b) d | None => height t - b end).
  destruct (Z.eqb_spec links 0); [done|].
  unfold bind. pose proof (load_served hs c t Hr Hs (last_Some_elem_of _ _ Et)) as Hl.
  destruct (load_for_linkage_walk (height t) c) as [r c1] eqn:E. cbn in Hl. subst r.
  pose proof (reads_le _ _ _ _ (reads_load (height t)) E) as Hle.
  apply (walk_served hs b); [by eapply repr_read|by eapply served_read|by apply last_Some_elem_of| |].
  - destruct Hle as (? & -> & _). by rewrite <- Hb, <- (repr_base _ _ _ Hr).
  - unfold links in *. destruct d; lia.
Qed.

(** after a restore, if the full linkage walk of a chain of at least two headers
    passes, the index is that of a linked list of genuine headers, and the chain
    represents it: from there on the theorems of the chain's operations apply.
    Conversely the walk, to any depth, passes on every chain that represents a linked
    list whose headers the store serves. *)
Theorem linkage_check_correct b n c :
  wired b n c -> 1 < n ->
  (forall c', verify_best_chain_linkage None c = (Return tt, c') -> exists hs, repr hs c') /\
  (forall d hs, repr hs c -> served hs c -> (verify_best_chain_linkage d c).1 = Return tt).
Proof.
  intros Hw Hn. pose proof (wired_range _ _ _ Hw) as Hrange. split.
  - intros c' Hv. pose proof (reads_le _ _ _ _ (reads_verify None) Hv) as Hle.
    unfold verify_best_chain_linkage, bind at 1, gets in Hv. rewrite (wired_base _ _ _ Hw) in Hv.
    apply bind_inv in Hv as (? & ? & Hg & Hv). injection Hg as <- <-.
    rewrite (wired_height _ _ _ Hw) in Hv.
    destruct (Z.leb_spec (b + n - 1) b); [lia|]. destruct (Z.eqb_spec (b + n - 1 - b) 0); [lia|].
    apply bind_inv in Hv as (x & c1 & Hl & Hv).
    pose proof (reads_le _ _ _ _ (reads_load (b + n - 1)) Hl) as Hle1.
    destruct (load_inv _ _ _ _ _ _ Hw Hl) as [Hx Hfx].
    destruct (walk_inv b n (Z.to_nat (b + n - 1 - b)) (b + n - 1) _ _ _ _ (wired_read _ _ _ _ Hle1 Hw) Hx ltac:(lia) ltac:(lia) Hv)
      as (hs & Hlen & Hlink & Hall).
    exists (hs ++ [x]). apply (repr_read _ _ c); [done|].
    apply (filed_repr b n c _ x); [done..| |rewrite length_app; cbn; lia|by rewrite last_snoc|done].
    apply Forall_app. split; [|by apply Forall_singleton].
    eapply Forall_impl; [done|]. by destruct Hle1 as (? & -> & _).
  - intros d hs. apply linkage_served.
Qed.

End Linkage.


(** ** One-deep reorganization *)

Section OneDeep.
Context {C : Type -> Type} `{LruLaws C} `{PowScheme} {RuleStatus : Type} `{SigmaIO RuleStatus}.
Variable preimage : id32 -> option Header.
Implicit Types c : HeaderChain C.
Local Abbreviation repr := (repr preimage).
Local Abbreviation genuine := (genuine preimage).

Lemma wp_restore_header hs h s Q c :
  repr hs c -> hs <> [] -> genuine h -> is_u32 (height h) -> extends hs h ->
  (forall c', repr (hs ++ [h]) c' -> same_settings c c' -> Q (Return tt) c') ->
  wp (restore_header h s) Q c.
Proof.
  intros Hr Hne Hg Hu He HQ. unfold restore_header. apply wp_bind, wp_gets.
  assert (base_height c = height <$> head (hs ++ [h])) as Hb
    by (rewrite (repr_base _ _ _ Hr); by destruct hs).
  pose proof (repr_snoc preimage hs c h _ s Hr Hg Hu He Hb) as Hr'.
  assert (is_Some (base_height c)) as [b Hb'] by (rewrite (repr_base _ _ _ Hr); by destruct hs).
  rewrite Hb'. unfold wp, bind, ret, index_header, put_header, modify. cbn [fst snd].
  apply HQ; [|done]. exact Hr'.
Qed.

Definition one_deep_post (now1 now2 : Z) (alt cont : Header) (pow : bool) (hs : list Header) c
    (o : outcome ChainError id32) c' : Prop :=
  match o with
  | Return old =>
      exists pre p t, hs = pre ++ [t] /\ last pre = Some p /\ old = header_id t /\
        repr (pre ++ [alt; cont]) c' /\ same_settings c c' /\
        height alt = height t /\ reorg_ok now1 pow pre c p alt /\
        reorg_ok now2 pow (pre ++ [alt]) c alt cont
  | Fail e => repr hs c' /\ same_settings c c'
  | Panic => True
  end.

Lemma one_deep_spec now1 now2 alt cont pow hs c :
  repr hs c -> genuine alt -> genuine cont -> is_u32 (height cont) ->
  (forall t, last hs = Some t -> height t < U32_MAX) ->
  one_deep_post now1 now2 alt cont pow hs c
    (try_reorg now1 now2 alt cont pow c).1 (try_reorg now1 now2 alt cont pow c).2.
Proof.
  intros Hr Hga Hgc Huc Hmax.
  change (wp (try_reorg now1 now2 alt cont pow) (one_deep_post now1 now2 alt cont pow hs c) c).
  assert (forall e, one_deep_post now1 now2 alt cont pow hs c (Fail e) c) as HF0 by (by split).
  unfold try_reorg. apply wp_bind, wp_gets, wp_bind, wp_ensure; [|done]. intros Hlen%Z.leb_le.
  unfold len in Hlen. rewrite (repr_index _ _ _ Hr), index_size in Hlen by apply Hr.
  apply wp_bind, wp_gets, wp_bind, (wp_reads preimage _ hs); [eauto with chain|done|].
  intros [t|e|] c1 Ht Hle1 Hr1 Hf1; [|by split|done].
  apply (tip_inv preimage hs) in Ht; [|done]. rewrite (chain_height_repr _ _ _ _ Hr Ht).
  pose proof Ht as [pre ->]%last_Some.
  destruct (last pre) as [p|] eqn:Ep; [|apply last_None in Ep as ->; cbn in Hlen; lia].
  pose proof (repr_linked _ _ _ Hr) as [Hlp Hpt]%linked_snoc. destruct (Hpt p Ep) as [Hpar Hhp].
  pose proof (repr_u32 _ _ _ Hr) as [_ [Hut _]%Forall_cons]%Forall_app.
  pose proof (repr_genuine _ _ _ Hr) as [_ [Hgt _]%Forall_cons]%Forall_app.
  specialize (Hmax t Ht).
  apply wp_bind, wp_ensure; [intros Hah%Z.eqb_eq|by split].
  apply wp_bind, wp_ensure; [intros Hap%Z.eqb_eq|by split].
  apply wp_bind, wp_ensure; [intros Hcp%Z.eqb_eq|by split].
  apply wp_bind, wp_ensure; [intros Hch%Z.eqb_eq|by split].
  assert (height cont = height t + 1) as Hhc.
  { rewrite Hch, Hah. unfold add_u32. apply as_u32_small. int_unfold. lia. }
  apply wp_bind, (wp_pop preimage pre t); [done| |done]. intros s c2 Hr2 Hf2.
  assert (same_settings c c2) as Hfc2 by (by etrans).
  assert (pre <> []) as Hpne by (by intros ->).
  assert (extends pre t) as Hext by (intros q Hq; rewrite Ep in Hq; by injection Hq as <-).
  assert (extends pre alt) as Hexta.
  { intros q Hq. rewrite Ep in Hq. injection Hq as <-. split; [congruence|lia]. }
  apply wp_bind. unfold wp at 1. cbn [expect_some ret fst snd].
  apply wp_bind, wp_catch, (wp_reads preimage _ pre); [eauto with chain|done|].
  intros o c3 Hv Hle3 Hr3 Hf3. assert (same_settings c c3) as Hfc3 by (by etrans).
  destruct o as [u|e|]; [|apply wp_bind, (wp_restore_header pre);
    [done..|]; intros c4 Hr4 Hf4; split; [done|by etrans]|done].
  apply (validate_reorg_inv preimage _ _ pre _ p) in Hv; [|done..].
  apply wp_bind, (wp_push preimage pre); [done|done|int_unfold; lia|done| |done].
  intros s' c4 _ Hr4 Hf4 _ _. assert (same_settings c c4) as Hfc4 by (by etrans).
  apply wp_bind, wp_catch, (wp_reads preimage _ (pre ++ [alt])); [eauto with chain|done|].
  intros o c5 Hv2 Hle5 Hr5 Hf5. assert (same_settings c c5) as Hfc5 by (by etrans).
  destruct o as [u'|e|]; [| |done].
  - apply (validate_reorg_inv preimage _ _ (pre ++ [alt]) _ alt) in Hv2; [|done|by rewrite last_snoc].
    apply wp_bind, (wp_push preimage (pre ++ [alt])); [done..| | |done].
    { intros q Hq. rewrite last_snoc in Hq. injection Hq as <-. split; [congruence|lia]. }
    intros s6 c6 _ Hr6 Hf6 _ _. exists pre, p, t. rewrite <- app_assoc in Hr6.
    split_and!; [done..|by etrans|done|by apply (reorg_ok_frame _ _ _ c c2)|by apply (reorg_ok_frame _ _ _ c c4)].
  - apply wp_bind, (wp_pop preimage pre alt); [done| |done]. intros s6 c6 Hr6 Hf6.
    apply wp_bind. unfold wp at 1. cbn [expect_some ret fst snd].
    apply wp_bind, (wp_restore_header pre); [done..|]. intros c7 Hr7 Hf7. split; [done|].
    by do 2 (etrans; [done|]).
Qed.

(** [try_reorg] either replaces the tip by the alternative and its continuation,
    both of which passed their checks and link to what is below them, and returns the
    old tip's id; or fails and leaves the best chain exactly as it was, also when it is
    the continuation that does not pass. *)
Theorem try_reorg_correct now1 now2 alt cont pow hs c :
  repr hs c -> genuine alt -> genuine cont -> is_u32 (height cont) ->
  (forall t, last hs = Some t -> height t < U32_MAX) ->
  one_deep_post now1 now2 alt cont pow hs c
    (try_reorg now1 now2 alt cont pow c).1 (try_reorg now1 now2 alt cont pow c).2.
Proof. apply one_deep_spec. Qed.

End OneDeep.


(** ** Installing a proof's suffix *)

Section Install.
Context {C : Type -> Type} `{LruLaws C} `{PowScheme} {RuleStatus : Type} `{SigmaIO RuleStatus}.
Variable preimage : id32 -> option Header.
Implicit Types c : HeaderChain C.
Local Abbreviation repr := (repr preimage).
Local Abbreviation genuine := (genuine preimage).

(** The records returned for the tail, with the scores above [score]. *)
Fixpoint installed_from (score : Z) (tail : list Header) : list InstalledHeader :=
  match tail with
  | [] => []
  | h :: tail' =>
      let s := score + header_difficulty h in
      mk_installed (header_id h) (height h) (to_bytes_be s) :: installed_from s tail'
  end.

(** The tip and its score are in the caches. *)
Definition tip_cached (t : Header) (s : Z) c : Prop :=
  lru_peek (height t) (headers (lazy c)) = Some t /\ lru_peek (height t) (scores (lazy c)) = Some s.

Definition passes_pow (pow : bool) (h : Header) : Prop := pow = true -> verify_pow h = Return tt.

Lemma wp_pow (pow : bool) h hs Q c :
  repr hs c ->
  (passes_pow pow h -> Q (Return tt) c) ->
  (forall e, Q (Fail e) c) ->
  (pow = true -> verify_pow h = Panic -> Q Panic c) ->
  wp (if pow then lift PowError (verify_pow h) else ret tt) Q c.
Proof.
  intros _ HQ HF HP. unfold wp, passes_pow in *. destruct pow; [|by apply HQ].
  destruct (verify_pow h) as [[]|e|]; cbn; auto.
Qed.

Lemma repr_rollback hs c :
  repr hs c -> wp rollback_install (fun o c' => o = Return tt /\ repr [] c' /\
                                                same_settings (with_light_mode c false) c') c.
Proof.
  intros Hr. unfold rollback_install, wp, modify. cbn [fst snd]. split_and!; [done| |done].
  split; cbn; try done.
  - constructor.
  - intros k x. by rewrite peek_clear.
  - apply (repr_loader _ _ _ Hr).
Qed.

Lemma wp_rollback {A} hs e (Q : outcome ChainError A -> HeaderChain C -> Prop) c :
  repr hs c ->
  (forall c', repr [] c' -> same_settings (with_light_mode c false) c' -> Q (Fail e) c') ->
  wp (bind rollback_install (fun _ => fail e)) Q c.
Proof.
  intros Hr HQ. apply wp_bind. pose proof (repr_rollback hs c Hr) as (Ho & Hr' & Hf).
  unfold wp at 1. rewrite Ho. by apply HQ.
Qed.

Lemma frame_light c c' l : same_settings c c' -> same_settings (with_light_mode c l) (with_light_mode c' l).
Proof. unfold same_settings. cbn. naive_solver. Qed.

Lemma wp_install_tail tail pow hs t s (Q : outcome ChainError (list InstalledHeader) -> _ -> Prop) c :
  repr hs c -> last hs = Some t -> tip_cached t s c -> Forall genuine tail ->
  height t < U32_MAX -> Forall (fun h => 0 <= height h < U32_MAX) tail ->
  (forall c', repr (hs ++ tail) c' -> same_settings c c' -> Forall (passes_pow pow) tail ->
     Q (Return (installed_from s tail)) c') ->
  (forall e c', repr [] c' -> same_settings (with_light_mode c false) c' -> Q (Fail e) c') ->
  (forall h c', h ∈ tail -> pow = true -> verify_pow h = Panic -> Q Panic c') ->
  wp (install_tail tail pow) Q c.
Proof.
  revert hs t s c Q. induction tail as [|h tail IH]; intros hs t s c Q Hr El [Hh Hs] Hg Hmax Hu HQ HF HP;
    cbn [install_tail]; [apply HQ; [by rewrite app_nil_r|done..]|].
  apply Forall_cons in Hg as [Hgh Hg], Hu as [Huh Hu]. cbn beta in Huh.
  pose proof (repr_u32 _ _ _ Hr) as Hut. rewrite Forall_forall in Hut.
  specialize (Hut t (last_Some_elem_of _ _ El)).
  assert (add_u32 (height t) 1 = height t + 1) as Hadd.
  { unfold add_u32. apply as_u32_small. int_unfold. lia. }
  apply wp_bind, (wp_reads preimage _ hs); [eauto with chain|done|]. intros o c1 Ht Hle Hr1 Hf1.
  assert (o = Return t) as ->.
  { pose proof (tip_resident preimage hs c t Hr El Hh) as Htip. by rewrite Ht in Htip. }
  assert (forall e, wp (bind rollback_install (fun _ => fail e)) Q c1) as Hrb.
  { intros e. apply (wp_rollback hs); [done|]. intros c' Hr' Hf'. apply HF; [done|].
    etrans; [by apply frame_light|done]. }
  destruct (Z.eqb_spec (parent_id h) (header_id t)) as [Hp|]; [cbn [negb]|apply Hrb].
  rewrite Hadd. destruct (Z.eqb_spec (height h) (height t + 1)) as [Hhh|]; [cbn [negb]|apply Hrb].
  apply wp_bind, wp_catch, (wp_pow _ _ hs); [done| |done|].
  2: { intros Hpow Hv. apply (HP h); [left|done..]. }
  intros Hpow. apply wp_bind, (wp_push preimage hs); [done|done|int_unfold; lia| | |].
  { intros t' Ht'. rewrite El in Ht'. by injection Ht' as <-. }
  2: { unfold parent_score, resolve. rewrite El. destruct Hle as (? & -> & _). cbn. by rewrite Hs. }
  intros s1 c2 Hs1 Hr2 Hf2 Hh2 Hsc2.
  assert (s1 = s) as ->.
  { unfold parent_score, resolve in Hs1. rewrite El in Hs1. destruct Hle as (? & -> & _).
    cbn in Hs1. rewrite Hs in Hs1. by injection Hs1. }
  apply wp_bind, (wp_score_at preimage _ (hs ++ [h])); [done|]. intros r c3 Hr' Hr3 Hf3 _ _ Hh3 Hs3.
  rewrite (proj2 (in_range_repr _ (hs ++ [h]) c2 (height h) Hr2)) in Hr'
    by (exists h; split; [apply elem_of_app; right; left|done]).
  unfold resolve in Hr'. rewrite Hsc2 in Hr'. subst r.
  apply wp_bind. unfold wp at 1. cbn [expect_some ret fst snd].
  assert (same_settings c c3) as Hf by (etrans; [done|]; by etrans).
  apply wp_bind, (IH (hs ++ [h]) h (s + header_difficulty h)); clear IH;
    [done|by rewrite last_snoc| |done|lia|done| | |].
  - split; [by rewrite Hh3|by apply Hs3].
  - intros c4 Hr4 Hf4 Hall. rewrite <- app_assoc in Hr4. apply HQ; [done|by etrans|by constructor].
  - intros e c4 Hr4 Hf4. apply HF; [done|]. etrans; [by apply frame_light|done].
  - intros h' c4 Hin. apply HP. by right.
Qed.

Definition install_post (head_ : Header) (tail : list Header) (pow : bool) (hs : list Header) c
    (o : outcome ChainError (list InstalledHeader)) c' : Prop :=
  match o with
  | Return installed =>
      hs = [] /\ repr (head_ :: tail) c' /\ same_settings (with_light_mode c true) c' /\
      Forall (passes_pow pow) (head_ :: tail) /\
      installed = mk_installed (header_id head_) (height head_) [0] :: installed_from 0 tail
  | Fail e => repr hs c' /\ same_settings c c' /\ (hs <> [] -> e = ChainNotEmpty)
  | Panic => pow = true /\ exists h, h ∈ head_ :: tail /\ verify_pow h = Panic
  end.

Lemma install_spec head_ tail pow hs c :
  repr hs c -> light_client_mode c = false -> Forall genuine (head_ :: tail) ->
  Forall (fun h => 0 <= height h < U32_MAX) (head_ :: tail) ->
  install_post head_ tail pow hs c
    (install_from_nipopow_proof head_ tail pow c).1 (install_from_nipopow_proof head_ tail pow c).2.
Proof.
  intros Hr Hl [Hgh Hg]%Forall_cons [Huh Hu]%Forall_cons. cbn beta in Huh.
  change (wp (install_from_nipopow_proof head_ tail pow) (install_post head_ tail pow hs c) c).
  unfold install_from_nipopow_proof. apply wp_bind, wp_gets. rewrite (is_empty_repr _ _ _ Hr).
  apply wp_bind, wp_ensure; [intros ->%bool_decide_eq_true|by split].
  apply wp_bind, (wp_pow _ _ []); [done| |done|].
  2: { intros Hpow Hv. split; [done|]. exists head_. split; [left|done]. }
  intros Hpow. unfold wp, bind at 1 2 3 4, modify, index_header, put_header, modify.
  match goal with |- install_post _ _ _ _ _ (bind _ _ ?c0).1 _ => set (c1 := c0) end.
  assert (same_settings (with_light_mode c true) c1) as Hf1 by done.
  assert (repr [head_] c1) as Hr1.
  { apply (repr_snoc preimage [] (with_light_mode c true) head_ (Some (height head_)) 0);
      [|done|int_unfold; lia|done|done]. destruct Hr; by split. }
  match goal with |- install_post _ _ _ _ _ (?m c1).1 _ =>
    change (wp m (install_post head_ tail pow [] c) c1) end.
  apply wp_bind, (wp_install_tail tail pow [head_] head_ 0); [done|done| |done|lia|done| | |].
  - split; cbn; by rewrite peek_put_eq.
  - intros c2 Hr2 Hf2 Hall. split_and!; [done|done|by etrans|by constructor|done].
  - intros e c2 Hr2 Hf2. split_and!; [done| |done].
    destruct Hf2 as (? & ? & ? & ? & Hl2 & ? & ?). split_and!; [done..| |done|done]. by rewrite Hl2, Hl.
  - intros h c2 Hin Hp Hv. split; [done|]. exists h. split; [by right|done].
Qed.

(** installing a proof's suffix into an empty full chain makes exactly the suffix the
    chain, in order, turns light mode on, and returns each header with the difficulty
    accumulated above the head, whose score is zero; every header passed the
    proof-of-work check when it was asked for. Any failure, before or in the middle of
    the tail, leaves the chain as it was, and a chain with headers is refused. The only
    way to panic is the check of a header of zero difficulty. *)
Theorem install_correct head_ tail pow hs c :
  repr hs c -> light_client_mode c = false -> Forall genuine (head_ :: tail) ->
  Forall (fun h => 0 <= height h < U32_MAX) (head_ :: tail) ->
  install_post head_ tail pow hs c
    (install_from_nipopow_proof head_ tail pow c).1 (install_from_nipopow_proof head_ tail pow c).2.
Proof. apply install_spec. Qed.

End Install.

End HeaderChainOps.
