(* ===== verification/HeaderChainReach.v ===== *)
(** * The header chain: reachable states and examples

    The chain's operations as a step relation, from a new chain on; every reachable
    chain represents a linked list of genuine headers. Then what a divergent loader
    leaves in the cache, and the example chain the other files' theorems are applied
    to. *)

From S2P Require Import Prelude ChainConfig VotingCodec Voting Header Difficulty Pow HeaderStore.
From S2P Require Import HeaderChain HeaderChainInv HeaderChainOps.
Import ChainConfig VotingCodec Voting Difficulty Pow HeaderStore HeaderChain HeaderChainInv HeaderChainOps.

Module HeaderChainReach.

Section Reach.
Context {C : Type -> Type} `{LruLaws C} `{PowScheme} {RuleStatus : Type} `{SigmaIO RuleStatus}.
Variable preimage : id32 -> option Header.
Implicit Types c : HeaderChain C.
Local Abbreviation repr := (repr preimage).
Local Abbreviation genuine := (genuine preimage).

Lemma repr_new cfg : repr [] (new (C := C) (RuleStatus := RuleStatus) cfg).
Proof.
  split; cbn; [done|done|constructor|apply linked_nil|done|done| |done].
  intros k x. by rewrite peek_new.
Qed.

(** ** Actions that keep the headers *)

Definition keeps {A} (m : M C A) : Prop := forall hs c, repr hs c -> repr hs (m c).2.

Lemma keeps_reads {A} (m : M C A) : reads m -> keeps m.
Proof. intros Hm hs c. by apply reads_repr. Qed.

Lemma keeps_bind {A B} (m : M C A) (k : A -> M C B) : keeps m -> (forall a, keeps (k a)) -> keeps (bind m k).
Proof.
  intros Hm Hk hs c Hr. unfold bind. specialize (Hm hs c Hr). destruct (m c) as [[a|e|] c']; [|done..].
  by apply Hk.
Qed.

Lemma keeps_score_at k : keeps (score_at k).
Proof. intros hs c Hr. by apply (wp_score_at preimage k hs (fun _ c' => repr hs c')). Qed.

Lemma keeps_recompute target :
  keeps (recompute_active_parameters_from_storage (RuleStatus := RuleStatus) target).
Proof.
  unfold recompute_active_parameters_from_storage.
  repeat (intros; first
    [ apply keeps_reads; solve [eauto 2 with chain nocore]
    | apply keeps_bind | case_match
    | match goal with |- keeps (let _ := _ in _) => cbv zeta end ]).
  all: intros hs c []; by split.
Qed.

(** ** Steps *)

Inductive step c : HeaderChain C -> Prop :=
  | step_append now h o c' :
      genuine h -> is_u32 (height h) -> chain_height c < U32_MAX ->
      try_append now h c = (o, c') -> o <> Panic -> step c c'
  | step_reorg now1 now2 alt cont pow o c' :
      genuine alt -> genuine cont -> is_u32 (height cont) -> chain_height c < U32_MAX ->
      try_reorg now1 now2 alt cont pow c = (o, c') -> o <> Panic -> step c c'
  | step_reorg_deep clock fork branch pow o c' :
      Forall genuine branch -> is_u32 fork -> fork < U32_MAX ->
      fork + Z.of_nat (length branch) <= U32_MAX ->
      try_reorg_deep clock fork branch pow c = (o, c') -> o <> Panic -> step c c'
  | step_install head_ tail pow o c' :
      light_client_mode c = false -> Forall genuine (head_ :: tail) ->
      Forall (fun h => 0 <= height h < U32_MAX) (head_ :: tail) ->
      install_from_nipopow_proof head_ tail pow c = (o, c') -> o <> Panic -> step c c'
  | step_header_at k : step c (header_at k c).2
  | step_headers_from k n : step c (headers_from k n c).2
  | step_score_at k : step c (score_at k c).2
  | step_verify d : step c (verify_best_chain_linkage d c).2
  | step_recompute target :
      step c (recompute_active_parameters_from_storage (RuleStatus := RuleStatus) target c).2
  | step_parameters params update : step c (apply_epoch_boundary_parameters params update c)
  | step_header_loader f :
      (forall k x, f k = Some x -> genuine x) -> step c (chain_set_header_loader f c)
  | step_score_loader f : step c (chain_set_score_loader f c)
  | step_extension_loader f : step c (set_extension_loader f c)
  | step_capacity n : step c (set_cache_capacity n c).

Lemma reads_headers_from k n : reads (headers_from (C := C) k n).
Proof. unfold headers_from. reads_tac. Qed.

Lemma repr_room hs c t : repr hs c -> chain_height c < U32_MAX -> last hs = Some t -> height t < U32_MAX.
Proof. intros Hr Hc Ht. by rewrite (chain_height_repr _ _ _ _ Hr Ht) in Hc. Qed.

Lemma step_repr c c' : step c c' -> forall hs, repr hs c -> exists hs', repr hs' c'.
Proof.
  destruct 1 as [now h o c' Hg Hu Hmax E Ho|now1 now2 alt cont pow o c' Ha Hc Hu Hmax E Ho
    |clock fork branch pow o c' Hg Hf Hf' Hmax E Ho|head_ tail pow o c' Hl Hg Hu E Ho
    |k|k n|k|d|target|params update|f Hf|f|f|n]; intros hs Hr.
  - pose proof (append_spec preimage now hs c h Hr Hg Hu (fun t => repr_room hs c t Hr Hmax)) as Hp.
    rewrite E in Hp. destruct o as [[|k]|e|]; [|naive_solver..].
    destruct Hp as [Hp _]. eexists. apply (ext_repr _ _ _ _ _ Hp).
  - pose proof (one_deep_spec preimage now1 now2 alt cont pow hs c Hr Ha Hc Hu
      (fun t => repr_room hs c t Hr Hmax)) as Hp.
    rewrite E in Hp. destruct o; naive_solver.
  - pose proof (reorg_deep_spec preimage clock fork branch pow hs c Hr Hf Hmax Hg Hf') as Hp.
    rewrite E in Hp. destruct o; naive_solver.
  - pose proof (install_spec preimage head_ tail pow hs c Hr Hl Hg Hu) as Hp.
    rewrite E in Hp. destruct o; naive_solver.
  - exists hs. apply reads_repr; [eauto with chain|done].
  - exists hs. apply reads_repr; [apply reads_headers_from|done].
  - exists hs. by apply keeps_score_at.
  - exists hs. apply reads_repr; [apply reads_verify|done].
  - exists hs. by apply keeps_recompute.
  - exists hs. by destruct Hr; split.
  - exists hs. destruct Hr; split; cbn; try done. naive_solver.
  - exists hs. by destruct Hr; split.
  - exists hs. by destruct Hr; split.
  - exists hs. destruct Hr as [? ? ? ? ? ? Hc ?]; split; cbn; try done.
    intros k x Hx%peek_resize. by eapply Hc.
Qed.

Definition reachable (cfg : ChainConfig) c : Prop := rtc step (new (RuleStatus := RuleStatus) cfg) c.

(** C9: whatever sequence of appends, reorganizations, installs, queries, parameter
    updates and loader changes a chain went through, it represents a list of headers
    that goes up by one height at a time, each header naming the one below it as its
    parent, with no id twice, whose index is exactly the chain's and whose first height
    is the chain's base; and it serves a header at a height only if that is the header
    of the list there. *)
Theorem reachable_chain cfg c :
  reachable cfg c ->
  exists hs, repr hs c /\
    (forall k x, (header_at k c).1 = Return (Some x) -> header_with_height hs k = Some x).
Proof.
  intros Hreach. assert (exists hs, repr hs c) as [hs Hr].
  { unfold reachable in Hreach. pose proof (repr_new cfg) as H0'.
    assert (exists hs, repr hs (new (C := C) (RuleStatus := RuleStatus) cfg)) as Hex by eauto.
    clear H0'. induction Hreach as [|c1 c2 c3 Hs _ IH]; [done|]. apply IH.
    destruct Hex as [hs Hr]. by eapply step_repr. }
  exists hs. split; [done|]. intros k x Hx. destruct (header_at_sound preimage hs c k x Hr Hx) as [Hin <-].
  by apply header_with_height_Some; [apply Hr|].
Qed.

(** ** A divergent loader *)

(** A header the loader serves at a height the chain did not accept it at is not
    returned, but it stays in the cache: the height keeps reading as absent after the
    loader is replaced, whatever the new loader has there. *)
Theorem divergent_read_cached k c f x :
  in_range k c = true -> lru_peek k (headers (lazy c)) = None ->
  header_loader (lazy c) = Some f -> f k = Some x -> by_id c !! header_id x <> Some k ->
  (header_at k c).1 = Return None /\
  forall g, (header_at k (chain_set_header_loader g (header_at k c).2)).1 = Return None.
Proof.
  intros Hin Hmiss Hf Hx Hid.
  assert ((header_at k c).1 = Return None) as Hnone.
  { rewrite header_at_value, Hin. unfold resolve. rewrite Hmiss, Hf, Hx. by rewrite bool_decide_false. }
  split; [done|]. intros g. rewrite header_at_value.
  assert (exists cache, (header_at k c).2 = with_lazy c (mk_store cache (scores (lazy c))
            (header_loader (lazy c)) (score_loader (lazy c))) /\ lru_peek k cache = Some x) as (cache & -> & Hp).
  { unfold header_at, bind at 1, gets. rewrite Hin. unfold bind at 1, lazy_header, get_header.
    pose proof (get_cached_spec (header_loader (lazy c)) k (headers (lazy c))) as Hg.
    destruct (get_cached _ _ _) as [r cache]. destruct Hg as (Hr & Hp & _).
    assert (r = Some x) as -> by (rewrite Hr; unfold resolve; by rewrite Hmiss, Hf).
    exists cache. split; [done|by apply Hp]. }
  cbn. unfold resolve. rewrite Hp, bool_decide_false by done. by destruct (in_range _ _).
Qed.

End Reach.


(** ** An example chain *)

Module Examples.
Import AssocLru.

(** A scheme whose compact form is the difficulty itself. *)
#[local] Instance ex_pow : PowScheme := {
  decode_compact_bits b := b;
  encode_compact_bits d := d;
  order_bigint := 10 ^ 30;
  pow_hit h := Some (timestamp h mod 7);
}.

Definition ex_header (id parent ts k : Z) : Header := mk_header 2 id parent 0 0 ts 16842752 k 0 (0, 0, 0).

Definition g1 : Header := ex_header 11 0 1000 1.
Definition h2 : Header := ex_header 12 11 46000 2.
Definition h3 : Header := ex_header 13 12 91000 3.
Definition a2 : Header := ex_header 22 11 47000 2.
Definition a3 : Header := ex_header 23 22 92000 3.
Definition a3_early : Header := ex_header 24 22 46500 3.

Definition ex_preimage (id : id32) : option Header :=
  snd <$> list_find (fun h => header_id h = id) [g1; h2; h3; a2; a3; a3_early].

Local Abbreviation chain := (HeaderChain assoc_lru).
Local Abbreviation fresh := (new (C := assoc_lru) (RuleStatus := Z) config_testnet).

Definition ex_now : Z := 1000000.
Definition chain1 : chain := (try_append ex_now g1 fresh).2.
Definition chain2 : chain := (try_append ex_now h2 chain1).2.
Definition chain3 : chain := (try_append ex_now h3 chain2).2.

Lemma ex_fresh : repr ex_preimage [] fresh.
Proof. apply repr_new. Qed.

Lemma ex_append hs c h :
  repr ex_preimage hs c -> genuine ex_preimage h -> is_u32 (height h) -> chain_height c < U32_MAX ->
  (try_append ex_now h c).1 = Return Extended -> repr ex_preimage (hs ++ [h]) (try_append ex_now h c).2.
Proof.
  intros Hr Hg Hu Hmax Ho.
  pose proof (append_spec ex_preimage ex_now hs c h Hr Hg Hu (fun t => repr_room ex_preimage hs c t Hr Hmax)) as Hp.
  rewrite Ho in Hp. apply Hp.
Qed.

Lemma ex_chain1 : repr ex_preimage [g1] chain1.
Proof. apply (ex_append []); [apply ex_fresh|done|done|done|]. by vm_compute. Qed.

Lemma ex_chain2 : repr ex_preimage [g1; h2] chain2.
Proof. apply (ex_append [g1]); [apply ex_chain1|done|done|by vm_compute|]. by vm_compute. Qed.

Lemma ex_chain3 : repr ex_preimage [g1; h2; h3] chain3.
Proof. apply (ex_append [g1; h2]); [apply ex_chain2|done|done|by vm_compute|]. by vm_compute. Qed.

Lemma try_append_correct_witness :
  (try_append ex_now h2 chain1).1 = Return Extended /\
  append_post ex_preimage ex_now [g1] chain1 h2 (try_append ex_now h2 chain1).1 (try_append ex_now h2 chain1).2 /\
  (try_append ex_now a2 chain2).1 = Return (Forked 1) /\
  append_post ex_preimage ex_now [g1; h2] chain2 a2 (try_append ex_now a2 chain2).1 (try_append ex_now a2 chain2).2.
Proof.
  split_and!; [by vm_compute| |by vm_compute|].
  - apply try_append_correct; [apply ex_chain1|done|done|]. by intros t [= <-].
  - apply try_append_correct; [apply ex_chain2|done|done|]. by intros t [= <-].
Defined.

Definition ex_clock (_ : Z) : Z := ex_now.

Lemma try_reorg_deep_correct_witness :
  (try_reorg_deep ex_clock 1 [a2; a3] true chain3).1 = Return [12; 13] /\
  reorg_post ex_preimage ex_clock 1 [a2; a3] true [g1; h2; h3] chain3
    (try_reorg_deep ex_clock 1 [a2; a3] true chain3).1 (try_reorg_deep ex_clock 1 [a2; a3] true chain3).2 /\
  (try_reorg_deep ex_clock 1 [a2; a3_early] true chain3).1 = Fail (TimestampNotIncreasing 47000 46500) /\
  reorg_post ex_preimage ex_clock 1 [a2; a3_early] true [g1; h2; h3] chain3
    (try_reorg_deep ex_clock 1 [a2; a3_early] true chain3).1
    (try_reorg_deep ex_clock 1 [a2; a3_early] true chain3).2.
Proof.
  split_and!; [by vm_compute| |by vm_compute|].
  - apply try_reorg_deep_correct; [apply ex_chain3|done|done| |done]. by repeat constructor.
  - apply try_reorg_deep_correct; [apply ex_chain3|done|done| |done]. by repeat constructor.
Defined.

Lemma try_reorg_correct_witness :
  (try_reorg ex_now ex_now a2 a3 true chain2).1 = Return 12 /\
  one_deep_post ex_preimage ex_now ex_now a2 a3 true [g1; h2] chain2
    (try_reorg ex_now ex_now a2 a3 true chain2).1 (try_reorg ex_now ex_now a2 a3 true chain2).2 /\
  (try_reorg ex_now ex_now a2 a3_early true chain2).1 = Fail (TimestampNotIncreasing 47000 46500) /\
  one_deep_post ex_preimage ex_now ex_now a2 a3_early true [g1; h2] chain2
    (try_reorg ex_now ex_now a2 a3_early true chain2).1 (try_reorg ex_now ex_now a2 a3_early true chain2).2.
Proof.
  split_and!; [by vm_compute| |by vm_compute|].
  - apply try_reorg_correct; [apply ex_chain2|done|done|done|]. by intros t [= <-].
  - apply try_reorg_correct; [apply ex_chain2|done|done|done|]. by intros t [= <-].
Defined.

(** A repeated height is reported as a gap, a repeated id as a repeated height. *)
Lemma restore_correct_witness :
  (exists c, restore (C := assoc_lru) (RuleStatus := Z) config_testnet [(1, 11); (2, 12)] = Ok c /\
     chain_height c = 2) /\
  restore (C := assoc_lru) (RuleStatus := Z) config_testnet [(1, 11); (1, 12)] = Err (NonContiguousHeights 2 1) /\
  restore_post [(1, 11); (1, 12)] (Err (NonContiguousHeights 2 1)) /\
  restore_post [(1, 11); (2, 11)] (Err (DuplicateHeight 2)).
Proof.
  split_and!.
  - pose proof (restore_correct (C := assoc_lru) (RuleStatus := Z) config_testnet [(1, 11); (2, 12)]
      ltac:(by repeat constructor)) as Hc.
    eexists. split; [reflexivity|]. apply Hc.
  - reflexivity.
  - apply (restore_correct (C := assoc_lru) (RuleStatus := Z) config_testnet [(1, 11); (1, 12)]).
    by repeat constructor.
  - apply (restore_correct (C := assoc_lru) (RuleStatus := Z) config_testnet [(1, 11); (2, 11)]).
    by repeat constructor.
Defined.

(** The example chain as the store's index would restore it, over its loader. *)
Definition ex_loader (k : Z) : option Header := header_with_height [g1; h2; h3] k.
Definition restored : chain :=
  match restore (RuleStatus := Z) config_testnet [(1, 11); (2, 12); (3, 13)] with
  | Ok c => chain_set_header_loader ex_loader c
  | Err _ => fresh
  end.

Lemma ex_loader_genuine k x : ex_loader k = Some x -> genuine ex_preimage x.
Proof.
  unfold ex_loader, header_with_height. destruct (list_find _ _) as [[i y]|] eqn:E; [|done]. intros [= <-].
  apply list_find_Some in E as (E%list_elem_of_lookup_2 & _).
  by repeat (apply elem_of_cons in E as [->|E]; [by vm_compute|]); apply not_elem_of_nil in E.
Qed.

Lemma ex_wired : wired ex_preimage 1 3 restored.
Proof.
  split; [done|done|done|done|]. intros f k x [= <-]. apply ex_loader_genuine.
Qed.

Lemma ex_restored : repr ex_preimage [g1; h2; h3] restored.
Proof.
  apply (filed_repr ex_preimage 1 3 restored _ h3); [apply ex_wired| |by repeat constructor|done..].
  intros i a b Ha Hb. by destruct i as [|[|[|i]]]; cbn in Ha, Hb; simplify_eq.
Qed.

Lemma ex_served : served [g1; h2; h3] restored.
Proof.
  exists ex_loader. split; [done|]. intros x Hx.
  by repeat (apply elem_of_cons in Hx as [->|Hx]; [by vm_compute|]); apply not_elem_of_nil in Hx.
Qed.

Lemma linkage_check_correct_witness :
  (exists hs, repr ex_preimage hs (verify_best_chain_linkage None restored).2) /\
  (verify_best_chain_linkage (Some 1) restored).1 = Return tt.
Proof.
  destruct (linkage_check_correct ex_preimage 1 3 restored ex_wired) as [Hsound Hcomplete]; [lia|].
  split.
  - apply Hsound. by vm_compute.
  - apply (Hcomplete (Some 1) [g1; h2; h3]); [apply ex_restored|apply ex_served].
Defined.

Lemma install_correct_witness :
  (install_from_nipopow_proof h2 [h3] true fresh).1 =
    Return [mk_installed 12 2 [0]; mk_installed 13 3 [1; 1; 0; 0]] /\
  install_post ex_preimage h2 [h3] true [] fresh
    (install_from_nipopow_proof h2 [h3] true fresh).1 (install_from_nipopow_proof h2 [h3] true fresh).2 /\
  (install_from_nipopow_proof g1 [h3] true fresh).1 = Fail (ParentNotFound 12) /\
  install_post ex_preimage g1 [h3] true [] fresh
    (install_from_nipopow_proof g1 [h3] true fresh).1 (install_from_nipopow_proof g1 [h3] true fresh).2.
Proof.
  split_and!; [by vm_compute| |by vm_compute|].
  - apply install_correct; [apply ex_fresh|done| |]; by repeat constructor.
  - apply install_correct; [apply ex_fresh|done| |]; by repeat constructor.
Defined.

Lemma reachable_chain_witness :
  exists hs, repr ex_preimage hs chain2 /\
    (forall k x, (header_at k chain2).1 = Return (Some x) -> header_with_height hs k = Some x).
Proof.
  apply (reachable_chain (RuleStatus := Z) ex_preimage config_testnet chain2).
  apply (rtc_l _ _ chain1); [|apply rtc_once].
  - apply (step_append ex_preimage fresh ex_now g1 (Return Extended)); [done|done|done| |done].
    apply injective_projections; [by vm_compute|done].
  - apply (step_append ex_preimage chain1 ex_now h2 (Return Extended)); [done|done|by vm_compute| |done].
    apply injective_projections; [by vm_compute|done].
Defined.

(** A stale row at height two is cached and hides the accepted header. *)
Definition stale_loader (k : Z) : option Header := if k =? 2 then Some a2 else ex_loader k.

Lemma divergent_read_cached_witness :
  let c := chain_set_header_loader stale_loader restored in
  (header_at 2 c).1 = Return None /\
  (header_at 2 (chain_set_header_loader ex_loader (header_at 2 c).2)).1 = Return None /\
  (header_at 2 restored).1 = Return (Some h2).
Proof.
  intros c. destruct (divergent_read_cached 2 c stale_loader a2) as [Hn Hg];
    [done|done|done|done|by vm_compute|].
  split_and!; [done|apply Hg|by vm_compute].
Defined.

End Examples.

End HeaderChainReach.
