(* ===== verification/Sections.v ===== *)
(** * Block sections

    src/chain/src/section.rs: the modifier ids a header gives its three sections, and
    the id recomputed from the bytes of a delivered section. Blake2b256, the Merkle
    tree and the transaction parser are the interface [SectionIO]; the VLQ readers are
    those of [SigmaIO]. *)

From S2P Require Import Prelude Bytes Frame ChainConfig VotingCodec Header.
Import ChainConfig VotingCodec.

(** [blake2b256_hash], [MerkleTree::root_hash_special] of the leaves, and the
    transactions of ergo-lib: a parser that leaves the rest unread, the id, the proofs
    of the inputs. *)
Class SectionIO (Tx : Type) := {
  blake2b256 : list Z -> list Z;
  merkle_root : list (list Z) -> list Z;
  tx_parse : list Z -> option (Tx * list Z);
  tx_id : Tx -> list Z;
  tx_proofs : Tx -> list (list Z);
}.

Module Sections.

Definition HEADER_TYPE_ID : Z := 101.
Definition BLOCK_TRANSACTIONS_TYPE_ID : Z := 102.
Definition AD_PROOFS_TYPE_ID : Z := 104.
Definition EXTENSION_TYPE_ID : Z := 108.
Definition TRANSACTION_TYPE_ID : Z := 2.
Definition BLOCK_VERSION_SENTINEL : Z := 10000000.

Inductive section_error :=
  | ShortHeaderId
  | BadVlq
  | VersionTooLarge (version : Z)
  | NoTransactions
  | BadTransaction (i : Z)
  | ShortProof
  | ShortField (i : Z)
  | NotASection (type_id : Z)
  | Trailing (n : Z).

Record SectionIdentity := mk_identity { body_header_id : list Z; identity : list Z }.

Section Ids.
Context {Tx RuleStatus : Type} `{SectionIO Tx} `{SigmaIO RuleStatus}.

Definition section_id (type_id : Z) (header_id digest : list Z) : list Z :=
  blake2b256 (type_id :: header_id ++ digest).

Definition section_ids (h : Header) : list (Z * list Z) :=
  [ (BLOCK_TRANSACTIONS_TYPE_ID,
     section_id BLOCK_TRANSACTIONS_TYPE_ID (id_bytes (header_id h)) (id_bytes (transaction_root h)));
    (AD_PROOFS_TYPE_ID,
     section_id AD_PROOFS_TYPE_ID (id_bytes (header_id h)) (id_bytes (ad_proofs_root h)));
    (EXTENSION_TYPE_ID,
     section_id EXTENSION_TYPE_ID (id_bytes (header_id h)) (id_bytes (extension_root h))) ].

Definition required_section_ids (h : Header) (state_type : StateType) : list (Z * list Z) :=
  match state_type with
  | Light => []
  | Digest => section_ids h
  | Utxo => filter (fun s => s.1 <> AD_PROOFS_TYPE_ID) (section_ids h)
  end.

(** [witness_id]: the hash of the proofs without its first byte. *)
Definition witness_id (tx : Tx) : list Z := drop 1 (blake2b256 (concat (tx_proofs tx))).

Definition transactions_root (txs : list Tx) (block_version : Z) : list Z :=
  let with_witnesses := negb (block_version =? 1) in
  merkle_root ((tx_id <$> txs) ++ (if with_witnesses then witness_id <$> txs else [])).

Definition section_extension_root (fields : list extension_field) : list Z :=
  merkle_root ((fun f => 2 :: f.1.1 :: f.1.2 :: f.2) <$> fields).

Definition ad_proofs_digest (proof_bytes : list Z) : list Z := blake2b256 proof_bytes.

(** [SectionBody::transactions]. *)
Fixpoint body_transactions (n : nat) (i : Z) (l : list Z) : result section_error (list Tx * list Z) :=
  match n with
  | O => Ok ([], l)
  | S n' =>
      let? (tx, l') := ok_or (tx_parse l) (BadTransaction i) in
      let? (txs, l'') := body_transactions n' (i + 1) l' in
      Ok (tx :: txs, l'')
  end.

(** The fields of an extension body. *)
Fixpoint body_fields (n : nat) (i : Z) (l : list Z)
    : result section_error (list extension_field * list Z) :=
  match n with
  | O => Ok ([], l)
  | S n' =>
      match l with
      | k0 :: k1 :: len :: l' =>
          let? (value, l'') := ok_or (read_exact (Z.to_nat len) l') (ShortField i) in
          let? (fields, rest) := body_fields n' (i + 1) l'' in
          Ok (((k0, k1), value) :: fields, rest)
      | _ => Err (ShortField i)
      end
  end.

Definition transactions_digest (l : list Z) : result section_error (list Z * list Z) :=
  let? (ver_or_count, l) := ok_or (get_u32 l) BadVlq in
  let? (block_version, count, l) :=
    (if BLOCK_VERSION_SENTINEL <? ver_or_count then
       let version := ver_or_count - BLOCK_VERSION_SENTINEL in
       if U8_MAX <? version then Err (VersionTooLarge version)
       else
         let? (count, l) := ok_or (get_u32 l) BadVlq in
         Ok (version, count, l)
     else Ok (1, ver_or_count, l)) in
  if count =? 0 then Err NoTransactions
  else
    let? (txs, l) := body_transactions (Z.to_nat count) 0 l in
    Ok (transactions_root txs block_version, l).

Definition proofs_digest (l : list Z) : result section_error (list Z * list Z) :=
  let? (size, l) := ok_or (get_u32 l) BadVlq in
  let? (proof, l) := ok_or (read_exact (Z.to_nat size) l) ShortProof in
  Ok (ad_proofs_digest proof, l).

Definition extension_digest (l : list Z) : result section_error (list Z * list Z) :=
  let? (count, l) := ok_or (get_u16 l) BadVlq in
  let? (fields, l) := body_fields (Z.to_nat count) 0 l in
  Ok (section_extension_root fields, l).

(** [section_id_from_body]. *)
Definition section_id_from_body (type_id : Z) (body : list Z) : result section_error SectionIdentity :=
  let? (header_id, l) := ok_or (read_exact 32 body) ShortHeaderId in
  let? (digest, l) :=
    (if type_id =? BLOCK_TRANSACTIONS_TYPE_ID then transactions_digest l
     else if type_id =? AD_PROOFS_TYPE_ID then proofs_digest l
     else if type_id =? EXTENSION_TYPE_ID then extension_digest l
     else Err (NotASection type_id)) in
  match l with
  | [] => Ok (mk_identity header_id (section_id type_id header_id digest))
  | _ => Err (Trailing (Z.of_nat (length l)))
  end.

End Ids.

(** ** The check of a delivered body *)

Section Props.
Context {Tx RuleStatus : Type} `{SectionIO Tx} `{SigmaIO RuleStatus}.

Definition is_id (z : Z) : Prop := 0 <= z < 256 ^ 32.

Lemma id_bytes_inj a b : is_id a -> is_id b -> id_bytes a = id_bytes b -> a = b.
Proof. apply (be_bytes_inj 32). Qed.

Lemma id_bytes_length z : length (id_bytes z) = 32%nat.
Proof. apply be_bytes_length. Qed.

(** The digest of a section's payload, and what is left unread. *)
Definition payload_digest (type_id : Z) (l : list Z) : result section_error (list Z * list Z) :=
  if type_id =? BLOCK_TRANSACTIONS_TYPE_ID then transactions_digest l
  else if type_id =? AD_PROOFS_TYPE_ID then proofs_digest l
  else if type_id =? EXTENSION_TYPE_ID then extension_digest l
  else Err (NotASection type_id).

(** The root of the header that commits to a section. *)
Definition section_root (type_id : Z) (h : Header) : id32 :=
  if type_id =? BLOCK_TRANSACTIONS_TYPE_ID then transaction_root h
  else if type_id =? AD_PROOFS_TYPE_ID then ad_proofs_root h
  else extension_root h.

Lemma from_body_inv type_id body ident :
  section_id_from_body type_id body = Ok ident ->
  exists payload digest, body = body_header_id ident ++ payload /\
    length (body_header_id ident) = 32%nat /\ payload_digest type_id payload = Ok (digest, []) /\
    identity ident = section_id type_id (body_header_id ident) digest.
Proof.
  unfold section_id_from_body. destruct (read_exact 32 body) as [[hid l]|] eqn:Er; [|done]. cbn [ok_or result_bind].
  fold (payload_digest type_id l). apply read_exact_Some in Er as [-> Hlen].
  destruct (payload_digest type_id l) as [[digest rest]|e] eqn:Ed; [|done]. cbn.
  destruct rest; [|done]. intros [= <-]. cbn. exists l, digest. by split_and!.
Qed.

Lemma section_ids_elem type_id id h :
  (type_id, id) ∈ section_ids h ->
  id = section_id type_id (id_bytes (header_id h)) (id_bytes (section_root type_id h)).
Proof.
  unfold section_ids. rewrite !elem_of_cons, elem_of_nil. intros [E|[E|[E|[]]]]; by simplify_eq.
Qed.

Lemma from_body_parsed type_id hid payload digest :
  length hid = 32%nat -> payload_digest type_id payload = Ok (digest, []) ->
  section_id_from_body type_id (hid ++ payload) = Ok (mk_identity hid (section_id type_id hid digest)).
Proof.
  intros Hlen Hd. unfold section_id_from_body. rewrite (read_exact_app_n 32) by done. cbn [ok_or result_bind].
  fold (payload_digest type_id payload). by rewrite Hd.
Qed.

Lemma elem_of_section_ids type_id h :
  type_id ∈ (section_ids h).*1 ->
  (type_id, section_id type_id (id_bytes (header_id h)) (id_bytes (section_root type_id h))) ∈ section_ids h.
Proof.
  unfold section_ids, section_root. cbn [fmap list_fmap fst].
  rewrite !elem_of_cons, elem_of_nil. intros [->|[->|[->|[]]]]; auto.
Qed.

(** The body is what the header commits to. *)
Definition committed (type_id : Z) (body : list Z) (h : Header) : Prop :=
  exists payload, body = id_bytes (header_id h) ++ payload /\
    payload_digest type_id payload = Ok (id_bytes (section_root type_id h), []).

(** The body parses as a section of some other header id or content, and the string its
    id hashes collides with the one the header's section id hashes. *)
Definition colliding (type_id : Z) (body : list Z) (h : Header) : Prop :=
  exists hid payload digest, body = hid ++ payload /\ length hid = 32%nat /\
    payload_digest type_id payload = Ok (digest, []) /\
    let mine := type_id :: hid ++ digest in
    let theirs := type_id :: id_bytes (header_id h) ++ id_bytes (section_root type_id h) in
    mine <> theirs /\ blake2b256 mine = blake2b256 theirs.

Lemma committed_not_colliding type_id body h : committed type_id body h -> ~ colliding type_id body h.
Proof.
  intros (payload & -> & Hd) (hid & payload' & digest & E & Hl & Hd' & Hne & _). apply Hne.
  apply app_inj_1 in E as [<- <-]; [|by rewrite Hl, id_bytes_length]. rewrite Hd in Hd'. by injection Hd' as <-.
Qed.

(** a delivered body passes the check against a header, its recomputed id being the
    id the header gives a section of that type, exactly when the body is the header's
    id followed by a payload that parses to its last byte and whose digest is the root
    the header commits to, unless the body itself exhibits a collision of Blake2b256 on
    the two strings compared. So no other bytes are stored under a header's section id,
    whatever label a peer put on them. *)
Theorem section_check_exact type_id body h :
  type_id ∈ (section_ids h).*1 ->
  (exists ident, section_id_from_body type_id body = Ok ident /\ (type_id, identity ident) ∈ section_ids h) <->
  committed type_id body h \/ colliding type_id body h.
Proof.
  intros Ht. split.
  - intros (ident & Hok & Hin%section_ids_elem).
    destruct (from_body_inv _ _ _ Hok) as (payload & digest & -> & Hlen & Hd & Hid).
    rewrite Hid in Hin. unfold section_id in Hin.
    destruct (decide (type_id :: body_header_id ident ++ digest =
                      type_id :: id_bytes (header_id h) ++ id_bytes (section_root type_id h))) as [E|Hne].
    + apply (f_equal tail) in E. cbn [tail] in E.
      apply app_inj_1 in E as [-> ->]; [|by rewrite Hlen, id_bytes_length]. left. by exists payload.
    + right. exists (body_header_id ident), payload, digest. by split_and!.
  - intros [(payload & -> & Hd)|(hid & payload & digest & -> & Hlen & Hd & _ & Hh)].
    + rewrite (from_body_parsed _ _ _ _ (id_bytes_length _) Hd). eexists. split; [done|].
      by apply elem_of_section_ids.
    + rewrite (from_body_parsed _ _ _ _ Hlen Hd). eexists. split; [done|]. cbn [identity].
      unfold section_id. rewrite Hh. by apply elem_of_section_ids.
Qed.

(** ** Bodies as they are written *)

Definition field_bytes (f : extension_field) : list Z :=
  f.1.1 :: f.1.2 :: Z.of_nat (length f.2) :: f.2.

Lemma body_fields_concat fields i r :
  body_fields (length fields) i (concat (field_bytes <$> fields) ++ r) = Ok (fields, r).
Proof.
  revert i. induction fields as [|[[k0 k1] v] fields IH]; intros i; [done|].
  cbn [length body_fields fmap list_fmap concat field_bytes fst snd app].
  rewrite Nat2Z.id, <- app_assoc, read_exact_app. cbn [ok_or result_bind]. by rewrite IH.
Qed.

(** An extension body parses back to its fields. *)
Lemma extension_digest_encoded `{!SigmaIOLaws RuleStatus} fields :
  Z.of_nat (length fields) <= U16_MAX ->
  extension_digest (put_u16 (Z.of_nat (length fields)) ++ concat (field_bytes <$> fields)) =
    Ok (section_extension_root fields, []).
Proof.
  intros Hn. unfold extension_digest. rewrite get_put_u16 by (int_unfold; lia). cbn [ok_or result_bind].
  rewrite Nat2Z.id. pose proof (body_fields_concat fields 0 []) as Hf. rewrite app_nil_r in Hf.
  by rewrite Hf.
Qed.

(** A proofs body parses back to its bytes. *)
Lemma proofs_digest_encoded `{!SigmaIOLaws RuleStatus} proof :
  Z.of_nat (length proof) <= U32_MAX ->
  proofs_digest (put_u32 (Z.of_nat (length proof)) ++ proof) = Ok (ad_proofs_digest proof, []).
Proof.
  intros Hn. unfold proofs_digest. rewrite get_put_u32 by (int_unfold; lia). cbn [ok_or result_bind].
  rewrite Nat2Z.id. pose proof (read_exact_app proof []) as Hr. rewrite app_nil_r in Hr. by rewrite Hr.
Qed.

(** What each kind of node downloads for a header. *)
Lemma required_sections h s :
  (required_section_ids h s).*1 =
    match s with
    | Light => []
    | Digest => [BLOCK_TRANSACTIONS_TYPE_ID; AD_PROOFS_TYPE_ID; EXTENSION_TYPE_ID]
    | Utxo => [BLOCK_TRANSACTIONS_TYPE_ID; EXTENSION_TYPE_ID]
    end.
Proof. by destruct s. Qed.

End Props.

(** ** An instance *)

(** A hash that keeps its whole input, behind 31 zeros, and trivial transactions. *)
#[local] Instance toy_sections : SectionIO Z := {
  blake2b256 l := replicate 31 0 ++ [Zpos (encode l)];
  merkle_root ls := replicate 31 0 ++ [Z.of_nat (length ls)];
  tx_parse l := match l with x :: r => Some (x, r) | [] => None end;
  tx_id x := [x];
  tx_proofs x := [];
}.

Definition ex_section_header : Header := mk_header 2 7 6 0 0 38 1000 10 2 (0, 0, 0).
Definition ex_body : list Z := id_bytes 7 ++ [2] ++ [0; 1; 2; 5; 6] ++ [0; 2; 1; 9].

Lemma section_check_exact_witness :
  (exists ident, section_id_from_body EXTENSION_TYPE_ID ex_body = Ok ident /\
     (EXTENSION_TYPE_ID, identity ident) ∈ section_ids ex_section_header) /\
  ~ committed EXTENSION_TYPE_ID (ex_body ++ [0]) ex_section_header.
Proof.
  split.
  - apply (section_check_exact EXTENSION_TYPE_ID ex_body ex_section_header).
    + by right; right; left.
    + left. eexists. split; [reflexivity|]. reflexivity.
  - intros Hc.
    destruct (proj2 (section_check_exact EXTENSION_TYPE_ID (ex_body ++ [0]) ex_section_header
                       ltac:(by right; right; left)) (or_introl Hc)) as (ident & Hok & _).
    vm_compute in Hok. discriminate.
Defined.

End Sections.
