(* ===== verification/SyncInfo.v ===== *)
(** * Sync info messages and the header tracker

    src/chain/src/sync_info.rs: the message a node describes its chain with, built from
    the chain at fixed offsets below the tip, and its parser for both versions; and
    src/chain/src/tracker.rs, the best header seen. The serialization of a header is the
    interface [HeaderIO]. *)

From S2P Require Import Prelude ChainConfig VotingCodec Voting Header Difficulty Pow HeaderStore.
From S2P Require Import HeaderChain HeaderChainInv HeaderChainReach.
Import ChainConfig VotingCodec HeaderStore HeaderChain HeaderChainInv HeaderChainReach.

(** [Header::scorex_serialize_bytes] and [scorex_parse_bytes]. *)
Class HeaderIO := {
  header_serialize : Header -> option (list Z);
  header_parse : list Z -> option Header;
}.

Class HeaderIOLaws `{HeaderIO} : Prop :=
  header_parse_serialize : forall h bs, header_serialize h = Some bs -> header_parse bs = Some h.

Module SyncInfo.

Definition SYNC_OFFSETS : list Z := [0; 16; 128; 512].
Definition MAX_V1_HEADER_IDS : Z := 1001.
Definition MAX_V2_HEADERS : Z := 50.
Definition MAX_V2_HEADER_SIZE : Z := 1000.
Definition V2_MODE_BYTE : Z := 255.

Inductive SyncInfo := V1 (header_ids : list (list Z)) | V2 (headers : list Header).

Inductive sync_error :=
  | EmptyBody
  | BadCount
  | TooManyIds (count : Z)
  | TruncatedIds
  | MissingMode
  | WrongMode (mode : Z)
  | MissingCount
  | TooManyHeaders (count : Z)
  | HeaderSize (i : Z)
  | HeaderTooLarge (i size : Z)
  | HeaderTruncated (i : Z)
  | HeaderUnparsable.

Section Build.
Context {C : Type -> Type} `{LruCache C} `{HeaderIO} {RuleStatus : Type} `{SigmaIO RuleStatus}.

Local Notation "'let*' x ':=' m 'in' k" := (bind m (fun x => k))
  (at level 10, x pattern, m at level 100, k at level 200).

(** The heights of the offsets that are not below the base. *)
Definition sync_targets (tip_height base_height : Z) : list Z :=
  omap (fun offset =>
    match checked_sub tip_height offset with
    | Some h => if base_height <=? h then Some h else None
    | None => None
    end) SYNC_OFFSETS.

(** The serialized headers of the message; a header that does not serialize panics. *)
Fixpoint serialize_all (hs : list Header) : option (list Z) :=
  match hs with
  | [] => Some []
  | h :: hs' =>
      match header_serialize h, serialize_all hs' with
      | Some bs, Some rest => Some (put_u16 (as_u16 (Z.of_nat (length bs))) ++ bs ++ rest)
      | _, _ => None
      end
  end.

Definition build_sync_info : M C (list Z) :=
  let preamble := put_u16 0 ++ [V2_MODE_BYTE] in
  let* empty := gets is_empty in
  if empty : bool then ret (preamble ++ [0])
  else
    let* tip_height := gets chain_height in
    let* n := gets len in
    let* r := header_at (sub_u32 tip_height (sub_u32 (as_u32 n) 1)) in
    let base_height := match r with Some h => height h | None => 1 end in
    let* selected := headers_at (sync_targets tip_height base_height) in
    let* bodies := expect_some (serialize_all selected) in
    ret (preamble ++ [as_u8 (Z.of_nat (length selected))] ++ bodies).

End Build.

Section Parse.
Context `{HeaderIO} {RuleStatus : Type} `{SigmaIO RuleStatus}.

Fixpoint read_header_ids (n : nat) (l : list Z) : result sync_error (list (list Z)) :=
  match n with
  | O => Ok []
  | S n' =>
      let? (id, l') := ok_or (read_exact 32 l) TruncatedIds in
      let? ids := read_header_ids n' l' in
      Ok (id :: ids)
  end.

Definition parse_v1 (count : Z) (l : list Z) : result sync_error SyncInfo :=
  if MAX_V1_HEADER_IDS <? count then Err (TooManyIds count)
  else
    let? ids := read_header_ids (Z.to_nat count) l in
    Ok (V1 ids).

Fixpoint read_headers (n : nat) (i : Z) (l : list Z) : result sync_error (list Header) :=
  match n with
  | O => Ok []
  | S n' =>
      let? (size, l) := ok_or (get_u16 l) (HeaderSize i) in
      if MAX_V2_HEADER_SIZE <? size then Err (HeaderTooLarge i size)
      else
        let? (bytes, l) := ok_or (read_exact (Z.to_nat size) l) (HeaderTruncated i) in
        let? h := ok_or (header_parse bytes) HeaderUnparsable in
        let? hs := read_headers n' (i + 1) l in
        Ok (h :: hs)
  end.

Definition parse_v2 (l : list Z) : result sync_error SyncInfo :=
  match l with
  | [] => Err MissingMode
  | mode :: l =>
      if negb (mode =? V2_MODE_BYTE) then Err (WrongMode mode)
      else
        match l with
        | [] => Err MissingCount
        | count :: l =>
            if MAX_V2_HEADERS <? count then Err (TooManyHeaders count)
            else
              let? hs := read_headers (Z.to_nat count) 0 l in
              Ok (V2 hs)
        end
  end.

Definition parse_sync_info (body : list Z) : result sync_error SyncInfo :=
  match body with
  | [] => Err EmptyBody
  | _ =>
      let? (count, l) := ok_or (get_u16 body) BadCount in
      if 0 <? count then parse_v1 count l else parse_v2 l
  end.

End Parse.

(** ** The tracker *)

Record TrackedTip := mk_tip { tracked_height : Z; tracked_id : id32 }.

(** [HeaderTracker]: its one field. *)
Definition HeaderTracker : Type := option TrackedTip.
Definition tracker_new : HeaderTracker := None.

Definition observe (h : Header) (t : HeaderTracker) : HeaderTracker :=
  let dominated := match t with None => true | Some tip => tracked_height tip <? height h end in
  if dominated then Some (mk_tip (height h) (header_id h)) else t.

Definition best_height (t : HeaderTracker) : option Z := tracked_height <$> t.
Definition best_header_id (t : HeaderTracker) : option id32 := tracked_id <$> t.

(** The tracker holds the first of the highest headers it was shown. *)
Lemma tracker_best (hs : list Header) h0 :
  exists i x, (h0 :: hs) !! i = Some x /\
    foldl (fun t h => observe h t) tracker_new (h0 :: hs) = Some (mk_tip (height x) (header_id x)) /\
    (forall j y, (h0 :: hs) !! j = Some y -> height y <= height x /\ ((j < i)%nat -> height y < height x)).
Proof.
  induction hs as [|h hs IH] using rev_ind.
  { exists 0%nat, h0. split_and!; [done..|]. intros [|j] y Hy; cbn in Hy; simplify_eq. lia. }
  destruct IH as (i & x & Hi & Hf & Hmax). rewrite app_comm_cons, foldl_app, Hf. cbn [foldl].
  unfold observe. cbn [tracked_height].
  pose proof (lookup_lt_Some _ _ _ Hi). destruct (Z.ltb_spec (height x) (height h)) as [Hlt|Hge].
  - exists (length (h0 :: hs)), h. split_and!; [by apply list_lookup_middle|done|].
    intros j y [Hy|[Hj Hy]]%lookup_app_Some.
    + destruct (Hmax j y Hy). lia.
    + apply list_lookup_singleton_Some in Hy as [? <-]. lia.
  - exists i, x. split_and!; [by apply lookup_app_l_Some|done|].
    intros j y [Hy|[Hj Hy]]%lookup_app_Some; [by apply Hmax|].
    apply list_lookup_singleton_Some in Hy as [? <-]. lia.
Qed.


(** ** Building and parsing *)

Section Props.
Context {C : Type -> Type} `{LruLaws C} `{HeaderIOLaws} {RuleStatus : Type} `{SigmaIOLaws RuleStatus}.
Variable preimage : id32 -> option Header.
Implicit Types c : HeaderChain C.

(** The parser's caps: at most 1001 ids of 32 bytes, or at most 50 headers. *)
Lemma read_ids_bounds n l ids : read_header_ids n l = Ok ids -> length ids = n /\ Forall (fun id => length id = 32%nat) ids.
Proof.
  revert l ids. induction n as [|n IH]; intros l ids; cbn; [by intros [= <-]|].
  destruct (read_exact 32 l) as [[id l']|] eqn:Er; [|done]. cbn.
  destruct (read_header_ids n l') as [ids'|] eqn:Ei; [|done]. cbn. intros [= <-].
  apply read_exact_Some in Er as [_ Hlen]. destruct (IH _ _ Ei). split; [cbn; lia|by constructor].
Qed.

Lemma read_headers_bounds n i l hs : read_headers n i l = Ok hs -> length hs = n.
Proof.
  revert i l hs. induction n as [|n IH]; intros i l hs; cbn; [by intros [= <-]|].
  destruct (get_u16 l) as [[size l1]|]; [|done]. cbn. destruct (_ <? size); [done|].
  destruct (read_exact _ l1) as [[bytes l2]|]; [|done]. cbn. destruct (header_parse bytes); [|done]. cbn.
  destruct (read_headers n _ l2) as [hs'|] eqn:E; [|done]. cbn. intros [= <-]. cbn. f_equal. by eapply IH.
Qed.

Lemma parse_sync_info_bounds body info :
  parse_sync_info body = Ok info ->
  match info with
  | V1 ids => 0 < Z.of_nat (length ids) <= MAX_V1_HEADER_IDS /\ Forall (fun id => length id = 32%nat) ids
  | V2 hs => Z.of_nat (length hs) <= MAX_V2_HEADERS
  end.
Proof.
  unfold parse_sync_info. destruct body as [|b body]; [done|].
  destruct (get_u16 (b :: body)) as [[count l]|]; [|done]. cbn [ok_or result_bind].
  destruct (Z.ltb_spec 0 count).
  - unfold parse_v1. destruct (Z.ltb_spec MAX_V1_HEADER_IDS count); [done|].
    destruct (read_header_ids _ l) as [ids|] eqn:E; [|done]. cbn. intros [= <-].
    destruct (read_ids_bounds _ _ _ E) as [Hl ?]. split; [|done]. lia.
  - unfold parse_v2. destruct l as [|mode l]; [done|]. destruct (negb _); [done|].
    destruct l as [|n l]; [done|]. destruct (Z.ltb_spec MAX_V2_HEADERS n); [done|].
    destruct (read_headers _ _ l) as [hs|] eqn:E; [|done]. cbn. intros [= <-].
    apply read_headers_bounds in E. unfold MAX_V2_HEADERS in *. lia.
Qed.

(** A header's bytes fit the message. *)
Definition fits (h : Header) : Prop :=
  exists bs, header_serialize h = Some bs /\ Z.of_nat (length bs) <= MAX_V2_HEADER_SIZE.

Lemma read_serialized hs i :
  Forall fits hs ->
  exists bodies, serialize_all hs = Some bodies /\ read_headers (length hs) i bodies = Ok hs.
Proof.
  intros Hf. revert i. induction Hf as [|h hs (bs & Hs & Hlen) _ IH]; intros i; [by exists []|].
  destruct (IH (i + 1)) as (rest & Hr & Hread). unfold MAX_V2_HEADER_SIZE in Hlen.
  cbn [serialize_all]. rewrite Hs, Hr. eexists. split; [done|]. cbn [length read_headers].
  assert (as_u16 (Z.of_nat (length bs)) = Z.of_nat (length bs)) as ->.
  { unfold as_u16. apply Z.mod_small. lia. }
  rewrite get_put_u16 by (int_unfold; lia). cbn [ok_or result_bind].
  destruct (Z.ltb_spec MAX_V2_HEADER_SIZE (Z.of_nat (length bs))); [unfold MAX_V2_HEADER_SIZE in *; lia|].
  rewrite Nat2Z.id, read_exact_app. cbn [ok_or result_bind].
  rewrite (header_parse_serialize _ _ Hs). cbn [ok_or result_bind]. by rewrite Hread.
Qed.

(** The headers at the offsets below the tip. *)
Definition sync_headers (hs : list Header) : list Header :=
  match last hs with
  | None => []
  | Some t => omap (fun offset => header_with_height hs (height t - offset)) SYNC_OFFSETS
  end.

Lemma targets_found hs t b :
  linked hs -> last hs = Some t -> height <$> head hs = Some b -> 0 <= b ->
  omap (header_with_height hs) (sync_targets (height t) b) = sync_headers hs.
Proof.
  intros Hl Ht Hb Hpos. unfold sync_targets, sync_headers. rewrite Ht.
  induction SYNC_OFFSETS as [|o os IH]; [done|]. cbn [omap list_omap].
  assert (height t - o < b -> header_with_height hs (height t - o) = None) as Hlow.
  { intros Hlt. apply header_with_height_None. intros x [i Hi]%list_elem_of_lookup Hx.
    destruct hs as [|x0 hs]; [done|]. injection Hb as <-.
    rewrite (linked_height _ x0 _ _ Hl eq_refl Hi) in Hx. lia. }
  unfold checked_sub at 1. destruct (Z.ltb_spec (height t) o); [by rewrite Hlow by lia|].
  destruct (Z.leb_spec b (height t - o)); [|by rewrite Hlow by lia].
  cbn [omap list_omap]. by rewrite IH.
Qed.

Lemma sync_headers_in hs x : linked hs -> x ∈ sync_headers hs -> x ∈ hs.
Proof.
  intros Hl. unfold sync_headers. destruct (last hs) as [t|]; [|by intros ?%not_elem_of_nil].
  rewrite list_elem_of_omap. intros (o & _ & Hx). unfold header_with_height in Hx.
  destruct (list_find _ hs) as [[i y]|] eqn:E; [|done]. injection Hx as <-.
  apply list_find_Some in E as (Hi & _). by eapply list_elem_of_lookup_2.
Qed.

Lemma sync_headers_length hs : Z.of_nat (length (sync_headers hs)) <= 4.
Proof. unfold sync_headers. destruct (last hs); [|done]. cbn. by repeat case_match; cbn. Qed.

(** What the parser makes of a message with the builder's preamble. *)
Lemma parse_built n bodies :
  parse_sync_info ((put_u16 0 ++ [V2_MODE_BYTE]) ++ n :: bodies) =
    if MAX_V2_HEADERS <? n then Err (TooManyHeaders n)
    else let? hs := read_headers (Z.to_nat n) 0 bodies in Ok (V2 hs).
Proof.
  unfold parse_sync_info. rewrite <- app_assoc. destruct (put_u16 0 ++ _) as [|x xs] eqn:E.
  - by apply app_nil in E as [_ ?].
  - by rewrite <- E, get_put_u16 by done.
Qed.

(** the sync info a node builds from a chain whose headers it can read, and
    serialize within the size limit, is always built and parses back, as a version 2
    message, to the headers at the offsets 0, 16, 128 and 512 below the tip that the
    chain has, highest first. *)
Theorem sync_info_roundtrip hs c :
  repr preimage hs c -> served hs c -> Forall fits hs ->
  exists buf c', build_sync_info c = (Return buf, c') /\ parse_sync_info buf = Ok (V2 (sync_headers hs)).
Proof.
  intros Hr Hs Hfit.
  unfold build_sync_info, bind at 1, gets at 1. rewrite (is_empty_repr _ _ _ Hr).
  case_bool_decide as Hn; [subst hs; eexists _, _; split; [done|]; by rewrite parse_built|].
  destruct (last hs) as [t|] eqn:Et; [|by apply last_None in Et].
  destruct (repr_head_last _ _ _ _ Hr Et) as (b & Hb & Hu & Hh).
  unfold bind at 1, gets at 1. rewrite (chain_height_repr _ _ _ _ Hr Et). unfold bind at 1, gets at 1.
  assert (sub_u32 (height t) (sub_u32 (as_u32 (len c)) 1) = b) as ->.
  { unfold sub_u32, as_u32, len. rewrite (repr_index _ _ _ Hr), index_size by apply Hr.
    rewrite Zminus_mod_idemp_l, Zminus_mod_idemp_r.
    replace (height t - (Z.of_nat (length hs) - 1)) with b by lia. by apply as_u32_small. }
  destruct hs as [|x0 hs']; [done|]. set (hs := x0 :: hs') in *.
  assert (b = height x0) as -> by (pose proof (repr_base _ _ _ Hr) as Hb'; rewrite Hb in Hb'; by injection Hb').
  unfold bind at 1. pose proof (header_at_served preimage hs c (height x0) Hr Hs) as Hx0.
  rewrite (header_with_height_Some hs x0 (repr_linked _ _ _ Hr)) in Hx0 by left.
  destruct (header_at (height x0) c) as [r c1] eqn:E1. cbn [fst] in Hx0. subst r. cbn [fmap option_fmap option_map].
  pose proof (reads_le _ _ _ _ (reads_header_at (height x0)) E1) as Hle.
  unfold bind at 1.
  pose proof (headers_at_served preimage hs (sync_targets (height t) (height x0)) c1
    (repr_read _ _ _ _ Hle Hr) (served_read _ _ _ Hle Hs)) as Hsel.
  destruct (headers_at _ c1) as [r c2]. cbn [fst] in Hsel. subst r.
  rewrite (targets_found hs t (height x0)); [|apply Hr|done|done|int_unfold; lia].
  destruct (read_serialized (sync_headers hs) 0) as (bodies & Hbod & Hread).
  { apply Forall_forall. intros x Hx. rewrite Forall_forall in Hfit. by apply Hfit, sync_headers_in; [apply Hr|]. }
  unfold bind at 1. rewrite Hbod. cbn [expect_some ret]. eexists _, _. split; [reflexivity|].
  pose proof (sync_headers_length hs) as Hlen.
  cbn [app]. rewrite parse_built. unfold as_u8. rewrite Z.mod_small by lia.
  destruct (Z.ltb_spec MAX_V2_HEADERS (Z.of_nat (length (sync_headers hs)))); [unfold MAX_V2_HEADERS in *; lia|].
  rewrite Nat2Z.id. by rewrite Hread.
Qed.

End Props.


(** ** An example *)

Module Examples.
Import HeaderChainReach.Examples AssocLru.

(** Headers serialized as the list of their fields. *)
#[local] Instance field_io : HeaderIO := {
  header_serialize h :=
    let '(v0, v1, v2) := header_votes h in
    Some [version h; header_id h; parent_id h; ad_proofs_root h; transaction_root h; timestamp h;
          n_bits h; height h; extension_root h; v0; v1; v2];
  header_parse l :=
    match l with
    | [v; i; p; a; t; ts; nb; k; e; v0; v1; v2] => Some (mk_header v i p a t ts nb k e (v0, v1, v2))
    | _ => None
    end;
}.

#[local] Instance field_io_laws : HeaderIOLaws.
Proof. intros [v i p a t ts nb k e [[v0 v1] v2]] bs [= <-]. done. Qed.

Lemma sync_info_roundtrip_witness :
  exists buf c', build_sync_info restored = (Return buf, c') /\
    parse_sync_info buf = Ok (V2 (sync_headers [g1; h2; h3])).
Proof.
  apply (sync_info_roundtrip ex_preimage).
  - apply ex_restored.
  - apply ex_served.
  - repeat constructor; by eexists.
Defined.

End Examples.

End SyncInfo.
