(* ===== verification/ChainStore.v ===== *)
(** * The header chain over the modifier store

    What src/src/main.rs sets up between the two when the node starts: the loaders
    through which the chain reads headers, scores and extensions back from the store,
    the one-time backfill of the cumulative scores, and the restart itself, which
    rebuilds the chain from BEST_CHAIN. *)

From S2P Require Import Prelude Bytes Frame ChainConfig VotingCodec Voting Header Difficulty Pow HeaderStore.
From S2P Require Import Sections SyncInfo Messages Handshake Store HeaderChain HeaderChainInv HeaderChainOps.
Import ChainConfig VotingCodec Voting Difficulty Pow Sections Store HeaderStore HeaderChain HeaderChainInv HeaderChainOps.

Module ChainStore.

Inductive BootError :=
  | HeaderMissing (height : Z)
  | HeaderUnreadable (height : Z)
  | BadNBits (height : Z)
  | StoreFailed (e : StoreError)
  | RestoreFailed (e : RestoreError).

(** [b"scores_migrated_v1"]. *)
Definition SCORES_MIGRATED : list Z := [115; 99; 111; 114; 101; 115; 95; 109; 105; 103; 114; 97; 116; 101; 100; 95; 118; 49].
Definition CHUNK_SIZE : Z := 50000.
Definition LINKAGE_CHECK_DEPTH : Z := 4096.

Section Boot.
Context {C : Type -> Type} `{LruCache C} `{PowScheme} {Tx RuleStatus : Type} `{SigmaIO RuleStatus, SectionIO Tx} `{HeaderIO}.

(** ** The loaders *)

Definition load_header (s : RedbModifierStore) (height : Z) : option Header :=
  match read_header_at height s with
  | Some bytes => header_parse bytes
  | None => None
  end.

(** An empty or missing score is no score. *)
Definition load_score (s : RedbModifierStore) (height : Z) : option Z :=
  match best_header_at height s with
  | None => None
  | Some id =>
      match header_score id s with
      | Some (b :: bytes) => Some (from_be (b :: bytes))
      | _ => None
      end
  end.

Definition load_extension (s : RedbModifierStore) (height : Z) : option (list Z) :=
  match best_header_at height s with
  | None => None
  | Some id =>
      match Store.get HEADER_TYPE_ID id s with
      | None => None
      | Some bytes =>
          match header_parse bytes with
          | None => None
          | Some h =>
              match find (fun e : Z * list Z => e.1 =? EXTENSION_TYPE_ID) (section_ids h) with
              | None => None
              | Some e => Store.get EXTENSION_TYPE_ID e.2 s
              end
          end
      end
  end.

(** The loaders hold the store itself: what they answer is what it holds at the time of
    the call, so the chain is wired anew to each state of the store. *)
Definition wire (s : RedbModifierStore) (c : HeaderChain C) : HeaderChain C :=
  chain_set_score_loader (load_score s)
    (chain_set_header_loader (load_header s) (set_extension_loader (load_extension s) c)).

(** ** The scores of an old store *)

(** One header of the walk: its score from the one before. *)
Definition backfill_score (i height prev difficulty : Z) : Z :=
  if (i =? 0) && (height =? 1) then difficulty
  else if i =? 0 then 0
  else prev + difficulty.

Fixpoint backfill (total i prev : Z) (batch : list (list Z * list Z)) (entries : list (Z * list Z))
    (s : RedbModifierStore) : result BootError unit * RedbModifierStore :=
  match entries with
  | [] => (Ok tt, s)
  | (height, id) :: entries' =>
      match Store.get HEADER_TYPE_ID id s with
      | None => (Err (HeaderMissing height), s)
      | Some data =>
          match header_parse data with
          | None => (Err (HeaderUnreadable height), s)
          | Some h =>
              let difficulty := decode_compact_bits (n_bits h) in
              if difficulty <? 0 then (Err (BadNBits height), s)
              else
                let score := backfill_score i height prev difficulty in
                let batch := batch ++ [(id, to_bytes_be score)] in
                if (CHUNK_SIZE <=? Z.of_nat (length batch)) || (i + 1 =? total) then
                  match put_header_score_batch batch s with
                  | (Err e, s') => (Err (StoreFailed e), s')
                  | (Ok _, s') => backfill total (i + 1) score [] entries' s'
                  end
                else backfill total (i + 1) score batch entries' s
          end
      end
  end.

Definition migrate_scores (s : RedbModifierStore) : result BootError unit * RedbModifierStore :=
  match chain_meta_get SCORES_MIGRATED s with
  | Some _ => (Ok tt, s)
  | None =>
      let entries := best_chain_entries s in
      let total := Z.of_nat (length entries) in
      let '(r, s) :=
        if 0 <? total then
          match backfill total 0 0 [] entries s with
          | (Err e, s') => (Err e, s')
          | (Ok _, s') => (Ok tt, Store.flush s')
          end
        else (Ok tt, s) in
      match r with
      | Err e => (Err e, s)
      | Ok _ => (Ok tt, Store.flush (chain_meta_put SCORES_MIGRATED [1] s))
      end
  end.

(** ** Starting *)

(** [HeaderChain::restore] from BEST_CHAIN. *)
Definition restore_chain (cfg : ChainConfig) (s : RedbModifierStore) : result RestoreError (HeaderChain C) :=
  restore (RuleStatus := RuleStatus) cfg ((fun e : Z * list Z => (e.1, from_be e.2)) <$> best_chain_entries s).

(** The start of the node on the tables of its file, up to the chain: the linkage check
    only reports. *)
Definition boot (cfg : ChainConfig) (file : Tables) : outcome BootError (HeaderChain C) * RedbModifierStore :=
  match migrate_scores (Store.open file) with
  | (Err e, s) => (Fail e, s)
  | (Ok _, s) =>
      match restore_chain cfg s with
      | Err e => (Fail (RestoreFailed e), s)
      | Ok c =>
          match verify_best_chain_linkage (Some LINKAGE_CHECK_DEPTH) (wire s c) with
          | (Panic, _) => (Panic, s)
          | (_, c') => (Return c', s)
          end
      end
  end.

End Boot.

(** ** Scores as bytes *)

Lemma seqZ_succ n : reverse (seqZ 0 (Z.of_nat (S n))) = (Z.succ <$> reverse (seqZ 0 (Z.of_nat n))) ++ [0].
Proof.
  rewrite Nat2Z.inj_succ, (seqZ_cons 0 (Z.succ (Z.of_nat n))) by lia. rewrite reverse_cons. f_equal.
  rewrite fmap_reverse. f_equal. rewrite Z.pred_succ.
  apply list_eq. intros i. rewrite list_lookup_fmap.
  destruct (decide (i < n)%nat) as [Hi|Hi].
  - rewrite !lookup_seqZ_lt by lia. cbn. f_equal. lia.
  - rewrite !lookup_seqZ_ge by lia. done.
Qed.

Lemma digits_be n z :
  (fun i => (z / 256 ^ i) mod 256) <$> reverse (seqZ 0 (Z.of_nat n)) = be_bytes n z.
Proof.
  revert z. induction n as [|n IH]; intros z; [done|].
  rewrite seqZ_succ, fmap_app. 
  change (be_bytes (S n) z) with (be_bytes n (z / 256) ++ [z mod 256]). rewrite <- IH, <- list_fmap_compose.
  apply (f_equal2 app); [|cbn; by rewrite Z.div_1_r]. apply list_fmap_ext. intros ? i Hi. cbn.
  apply list_elem_of_lookup_2, elem_of_reverse, elem_of_seqZ in Hi.
  rewrite Z.pow_succ_r by lia. by rewrite Z.div_div by lia.
Qed.

Lemma to_bytes_be_length n : 0 <= n -> (0 < length (to_bytes_be n))%nat.
Proof.
  intros Hn. unfold to_bytes_be. rewrite length_fmap, length_reverse, length_seqZ.
  pose proof (Z.log2_nonneg n). pose proof (Z.div_pos (Z.log2 n) 8). lia.
Qed.

Lemma from_to_bytes_be n : 0 <= n -> from_be (to_bytes_be n) = n.
Proof.
  intros Hn. unfold to_bytes_be. pose proof (Z.log2_nonneg n) as Hl.
  pose proof (Z.div_pos (Z.log2 n) 8 Hl ltac:(lia)) as Hd.
  rewrite <- (Z2Nat.id (Z.log2 n / 8 + 1)) by lia. rewrite digits_be. apply from_be_be.
  rewrite Z2Nat.id by lia. split; [done|].
  destruct (decide (n = 0)) as [->|]; [done|].
  change 256 with (2 ^ 8). rewrite <- Z.pow_mul_r by lia.
  apply Z.log2_lt_pow2; [lia|]. pose proof (Z.mul_succ_div_gt (Z.log2 n) 8). lia.
Qed.

(** ** What the store holds of a chain *)

Definition row (x : Header) : Z * list Z := (height x, id_bytes (header_id x)).

Lemma sorted_rows_unique {A} (m : gmap Z A) l :
  StronglySorted (fun a b : Z * A => a.1 < b.1) l -> (forall k v, m !! k = Some v <-> (k, v) ∈ l) ->
  sorted_rows m = l.
Proof.
  intros Hl Hm.
  assert (NoDup l.*1) as Hn.
  { clear Hm. induction Hl as [|a l Hl IH Ha]; [constructor|]. cbn. apply NoDup_cons. split; [|done].
    intros (b & Hb & Hin)%list_elem_of_fmap. rewrite Forall_forall in Ha. specialize (Ha b Hin). lia. }
  assert (sorted_rows m ≡ₚ l) as Hp.
  { unfold sorted_rows. rewrite merge_sort_Permutation. apply NoDup_Permutation.
    - apply NoDup_map_to_list.
    - by eapply NoDup_fmap_1.
    - intros [k v]. by rewrite elem_of_map_to_list. }
  refine (StronglySorted_unique_strong row_le _ _ _ (sorted_rows_sorted m) _ Hp).
  - intros [k v] [k' v'] Hk Hk' H1 H2. unfold row_le in H1, H2. cbn in H1, H2.
    assert (k' = k) as -> by lia. apply elem_of_sorted_rows in Hk. apply Hm in Hk'. congruence.
  - clear Hm Hn Hp. induction Hl as [|a l Hl IH Ha]; constructor; [done|].
    eapply Forall_impl; [done|]. unfold row_le. cbn. lia.
Qed.

Lemma linked_sorted hs : linked hs -> StronglySorted (fun a b : Z * list Z => a.1 < b.1) (row <$> hs).
Proof.
  induction hs as [|x hs IH]; intros Hl; cbn; constructor.
  - apply IH. intros i a b Ha Hb. exact (Hl (S i) a b Ha Hb).
  - apply Forall_fmap, Forall_forall. intros y [i Hi]%list_elem_of_lookup. cbn.
    rewrite (linked_height (x :: hs) x (S i) y Hl eq_refl Hi). lia.
Qed.

(** The cumulative scores of a chain: a chain that starts above height one counts from
    its first header. *)
Fixpoint sums (prev : Z) (ds : list Z) : list Z :=
  match ds with
  | [] => []
  | d :: ds' => prev + d :: sums (prev + d) ds'
  end.

Section Holds.
Context `{PowScheme} `{HeaderIO}.

Definition cumulative (hs : list Header) : list Z :=
  match hs with
  | [] => []
  | x :: hs' =>
      let first := if height x =? 1 then header_difficulty x else 0 in
      first :: sums first (header_difficulty <$> hs')
  end.

Definition body_stored (t : Tables) (x : Header) : Prop :=
  exists raw, primary t !! (101, id_bytes (header_id x)) = Some raw /\ header_parse raw = Some x.

(** The tables have every header of the chain under its height, with its body. *)
Record holds (hs : list Header) (t : Tables) : Prop := {
  holds_best : forall x, x ∈ hs -> best_chain t !! height x = Some (id_bytes (header_id x));
  holds_body : forall x, x ∈ hs -> body_stored t x;
}.

(** BEST_CHAIN has nothing else. *)
Definition nothing_else (hs : list Header) (t : Tables) : Prop :=
  forall k i, best_chain t !! k = Some i -> exists x, x ∈ hs /\ height x = k.

Definition scores_hold (hs : list Header) (t : Tables) : Prop :=
  forall i x sc, hs !! i = Some x -> cumulative hs !! i = Some sc ->
    header_scores t !! id_bytes (header_id x) = Some (to_bytes_be sc).

Lemma entries_of hs s :
  linked hs -> holds hs (tables s) -> nothing_else hs (tables s) -> best_chain_entries s = row <$> hs.
Proof.
  intros Hl Hh Hn. apply sorted_rows_unique; [by apply linked_sorted|]. intros k v. split.
  - intros Hk. destruct (Hn k v Hk) as (x & Hx & <-). rewrite (holds_best _ _ Hh x Hx) in Hk.
    injection Hk as <-. by apply (list_elem_of_fmap_2 row).
  - intros (x & Heq & Hx)%list_elem_of_fmap. injection Heq as -> ->. by apply (holds_best _ _ Hh).
Qed.

Lemma load_header_holds hs s x : holds hs (tables s) -> x ∈ hs -> load_header s (height x) = Some x.
Proof.
  intros Hh Hx. unfold load_header, read_header_at. rewrite (holds_best _ _ Hh x Hx).
  by destruct (holds_body _ _ Hh x Hx) as (raw & -> & ->).
Qed.

Lemma load_score_bytes s k i sc :
  best_chain (tables s) !! k = Some i -> header_scores (tables s) !! i = Some (to_bytes_be sc) -> 0 <= sc ->
  load_score s k = Some sc.
Proof.
  intros Hb Hs Hz. unfold load_score, best_header_at, header_score. rewrite Hb, Hs.
  pose proof (to_bytes_be_length sc Hz). pose proof (from_to_bytes_be sc Hz) as Hf.
  destruct (to_bytes_be sc); [cbn in *; lia|by rewrite Hf].
Qed.

(** ** The backfill *)

(** The rows the walk writes. *)
Fixpoint score_rows (i prev : Z) (hs : list Header) : list (list Z * list Z) :=
  match hs with
  | [] => []
  | x :: hs' =>
      let score := backfill_score i (height x) prev (header_difficulty x) in
      (id_bytes (header_id x), to_bytes_be score) :: score_rows (i + 1) score hs'
  end.

Lemma score_rows_keys i prev hs : (score_rows i prev hs).*1 = (fun x => id_bytes (header_id x)) <$> hs.
Proof. revert i prev. induction hs as [|x hs IH]; intros; [done|]. cbn. f_equal. apply IH. Qed.

Lemma score_rows_sums i prev hs :
  0 < i -> (score_rows i prev hs).*2 = to_bytes_be <$> sums prev (header_difficulty <$> hs).
Proof.
  revert i prev. induction hs as [|x hs IH]; intros i prev Hi; [done|]. cbn.
  assert (backfill_score i (height x) prev (header_difficulty x) = prev + header_difficulty x) as ->.
  { unfold backfill_score. by rewrite (proj2 (Z.eqb_neq i 0)) by lia. }
  f_equal. apply IH. lia.
Qed.

Lemma score_rows_cumulative hs : (score_rows 0 0 hs).*2 = to_bytes_be <$> cumulative hs.
Proof.
  destruct hs as [|x hs]; [done|]. cbn -[Z.add]. unfold backfill_score. cbn -[Z.add].
  rewrite score_rows_sums by lia. by destruct (height x =? 1).
Qed.

Definition put_scores (rows : list (list Z * list Z)) (t : Tables) : Tables :=
  with_header_scores t (foldl (fun m e => <[e.1 := e.2]> m) (header_scores t) rows).

Lemma put_scores_app a b t : put_scores b (put_scores a t) = put_scores (a ++ b) t.
Proof. unfold put_scores. cbn. by rewrite foldl_app. Qed.

Lemma put_scores_nil t : put_scores [] t = t.
Proof. by destruct t. Qed.

Definition known (s : RedbModifierStore) (i : list Z) : Prop := is_Some (primary (tables s) !! (101, i)).

Lemma score_batch_known rows s :
  Forall (known s) rows.*1 -> put_header_score_batch rows s = (Ok tt, commit s (put_scores rows (tables s))).
Proof.
  intros Hk. unfold put_header_score_batch. destruct (find _ rows) as [e|] eqn:E; [|done].
  apply find_some in E as [Hin%list_elem_of_In He%bool_decide_eq_true]. rewrite Forall_forall in Hk.
  destruct (Hk e.1) as [raw Hraw]; [by apply list_elem_of_fmap_2|]. congruence.
Qed.

Lemma backfill_spec hs total i prev batch s :
  i + Z.of_nat (length hs) = total -> (hs = [] -> batch = []) -> Forall (known s) batch.*1 ->
  Forall (fun x => body_stored (tables s) x /\ 0 <= decode_compact_bits (n_bits x)) hs ->
  exists s', backfill total i prev batch (row <$> hs) s = (Ok tt, s')
    /\ tables s' = put_scores (batch ++ score_rows i prev hs) (tables s).
Proof.
  revert i prev batch s. induction hs as [|x hs IH]; intros i prev batch s Ht Hb Hk Hall.
  { rewrite (Hb eq_refl). exists s. cbn. by rewrite put_scores_nil. }
  apply Forall_cons in Hall as [[(raw & Hraw & Hparse) Hd] Hall].
  cbn [fmap list_fmap row backfill score_rows]. unfold Store.get, HEADER_TYPE_ID. rewrite Hraw, Hparse.
  rewrite (proj2 (Z.ltb_ge _ _)) by done.
  assert (header_difficulty x = decode_compact_bits (n_bits x)) as Ed by (unfold header_difficulty; lia).
  rewrite <- Ed. set (sc := backfill_score _ _ _ _).
  set (batch' := batch ++ [(id_bytes (header_id x), to_bytes_be sc)]).
  assert (batch ++ (id_bytes (header_id x), to_bytes_be sc) :: score_rows (i + 1) sc hs
          = batch' ++ score_rows (i + 1) sc hs) as ->. { unfold batch'. by rewrite <- app_assoc. }
  assert (Forall (known s) batch'.*1) as Hk'.
  { unfold batch'. rewrite fmap_app. apply Forall_app. split; [done|]. apply Forall_singleton. by exists raw. }
  cbn [length] in Ht. destruct (_ || _) eqn:E.
  - rewrite score_batch_known by done.
    destruct (IH (i + 1) sc [] (commit s (put_scores batch' (tables s)))) as (s' & -> & Es); [lia|done|constructor|done|].
    exists s'. split; [done|]. rewrite Es. cbn [commit tables app]. by rewrite put_scores_app.
  - apply IH; [lia| |done|done]. intros ->. apply orb_false_iff in E as [_ E%Z.eqb_neq]. cbn in Ht. lia.
Qed.

End Holds.

(** ** Restarting *)

Section Restart.
Context {C : Type -> Type} `{LruLaws C} `{PowScheme} {Tx RuleStatus : Type} `{SigmaIO RuleStatus, SectionIO Tx} `{HeaderIO}.
Variable preimage : id32 -> option Header.
Local Abbreviation genuine := (genuine preimage).
Local Abbreviation repr := (repr preimage).
Implicit Types c : HeaderChain C.

(** A header's id is a hash of its bytes: two parsed headers with one id are one header. *)
Hypothesis parse_genuine : forall raw x, header_parse raw = Some x -> genuine x.

(** A list of headers as the chain accepts them. *)
Record sound_chain (hs : list Header) : Prop := {
  sound_linked : linked hs;
  sound_u32 : Forall (fun x => is_u32 (height x)) hs;
  sound_ids : Forall (fun x => is_id (header_id x)) hs;
  sound_genuine : Forall genuine hs;
  sound_difficulty : Forall (fun x => 0 <= decode_compact_bits (n_bits x)) hs;
}.

Lemma sound_nodup hs : sound_chain hs -> NoDup (ids hs).
Proof.
  intros Hs. pose proof (sound_genuine _ Hs) as Hg. rewrite Forall_forall in Hg. apply NoDup_fmap_2_strong.
  - intros x y Hx Hy. apply (genuine_inj preimage); by apply Hg.
  - destruct hs as [|x0 hs']; [constructor|]. apply NoDup_alt. intros i j x Hi Hj.
    pose proof (linked_height _ x0 i x (sound_linked _ Hs) eq_refl Hi).
    pose proof (linked_height _ x0 j x (sound_linked _ Hs) eq_refl Hj). lia.
Qed.

Lemma sound_keys hs : sound_chain hs -> NoDup ((fun x => id_bytes (header_id x)) <$> hs).
Proof.
  intros Hs. rewrite (list_fmap_compose header_id id_bytes). apply NoDup_fmap_2_strong; [|by apply sound_nodup].
  intros a b (x & -> & Hx)%list_elem_of_fmap (y & -> & Hy)%list_elem_of_fmap. pose proof (sound_ids _ Hs) as Hi.
  rewrite Forall_forall in Hi. apply id_bytes_inj; by apply Hi.
Qed.

Lemma sums_nonneg prev ds sc : 0 <= prev -> Forall (fun d => 0 <= d) ds -> sc ∈ sums prev ds -> 0 <= sc.
Proof.
  intros Hp Hd. revert prev Hp. induction Hd as [|d ds Hd _ IH]; intros prev Hp; cbn.
  - by intros ?%not_elem_of_nil.
  - intros [->|Hin]%elem_of_cons; [lia|]. apply (IH (prev + d)); [lia|done].
Qed.

Lemma cumulative_nonneg hs sc : sc ∈ cumulative hs -> 0 <= sc.
Proof.
  destruct hs as [|x hs]; cbn; [by intros ?%not_elem_of_nil|].
  set (first := if height x =? 1 then _ else _).
  assert (0 <= first) by (unfold first, header_difficulty; case_match; lia).
  intros [->|Hin]%elem_of_cons; [done|]. refine (sums_nonneg first _ sc _ _ Hin); [done|].
  apply Forall_fmap, Forall_forall. intros y _. unfold header_difficulty. cbn. lia.
Qed.

Lemma put_scores_hold hs t : sound_chain hs -> scores_hold hs (put_scores (score_rows 0 0 hs) t).
Proof.
  intros Hs i x sc Hi Hsc. cbn. rewrite foldl_insert_lookup by (rewrite score_rows_keys; by apply sound_keys).
  assert (score_rows 0 0 hs !! i = Some (id_bytes (header_id x), to_bytes_be sc)) as Hrow.
  { pose proof (score_rows_keys 0 0 hs) as Hk. pose proof (score_rows_cumulative hs) as Hc.
    apply (f_equal (.!! i)) in Hk. apply (f_equal (.!! i)) in Hc.
    rewrite !list_lookup_fmap, Hi in Hk. rewrite !list_lookup_fmap, Hsc in Hc.
    destruct (score_rows 0 0 hs !! i) as [[a b]|]; cbn in Hk, Hc; [congruence|done]. }
  rewrite (elem_of_list_to_map_1 _ (id_bytes (header_id x)) (to_bytes_be sc)); [done| |].
  - rewrite score_rows_keys. by apply sound_keys.
  - by apply list_elem_of_lookup_2 in Hrow.
Qed.

(** The tables other than the scores and the sentinel. *)
Definition same_rows (t t' : Tables) : Prop :=
  primary t' = primary t /\ best_chain t' = best_chain t /\ header_forks t' = header_forks t /\
  height_index t' = height_index t /\ peer_rows t' = peer_rows t.

Lemma same_rows_holds hs t t' : same_rows t t' -> holds hs t -> holds hs t'.
Proof.
  intros (Hp & Hb & _) []. split; [by rewrite Hb|]. unfold body_stored. by rewrite Hp.
Qed.

Lemma same_rows_else hs t t' : same_rows t t' -> nothing_else hs t -> nothing_else hs t'.
Proof. intros (_ & Hb & _). unfold nothing_else. by rewrite Hb. Qed.

Lemma migrate_spec hs s :
  sound_chain hs -> holds hs (tables s) -> nothing_else hs (tables s) ->
  chain_meta_get SCORES_MIGRATED s = None \/ scores_hold hs (tables s) ->
  exists s', migrate_scores s = (Ok tt, s') /\ same_rows (tables s) (tables s') /\ scores_hold hs (tables s').
Proof.
  intros Hs Hh Hn Hsc. unfold migrate_scores. rewrite (entries_of hs) by (done || apply Hs). rewrite length_fmap.
  destruct (chain_meta_get _ _) eqn:Em; [destruct Hsc as [?|Hsc]; [done|]; by exists s|].
  destruct hs as [|x hs']; [cbn; by eexists|]. set (hs := x :: hs') in *.
  rewrite (proj2 (Z.ltb_lt 0 _)) by (cbn; lia).
  destruct (backfill_spec hs (Z.of_nat (length hs)) 0 0 [] s) as (s' & -> & Es); [done|done|constructor|..].
  2:{ eexists. split; [reflexivity|]. cbn. rewrite Es. split; [done|]. by apply put_scores_hold. }
  pose proof (sound_difficulty _ Hs) as Hd. rewrite Forall_forall in Hd. apply Forall_forall.
  intros y Hy. split; [by apply Hh|by apply Hd].
Qed.

Lemma id_of_bytes x : is_id x -> from_be (id_bytes x) = x.
Proof. intros Hx. unfold id_bytes. apply (from_be_be 32). exact Hx. Qed.

Definition index_rows (hs : list Header) : list (Z * id32) := (fun x => (height x, header_id x)) <$> hs.

Lemma restore_rows hs :
  sound_chain hs -> restore_entries (index_rows hs) None None ∅ = Ok (height <$> head hs, index hs).
Proof.
  intros Hs. set (es := index_rows hs).
  assert (es.*2 = ids hs) as Ekeys by (unfold es, index_rows; by rewrite <- list_fmap_compose).
  pose proof (restore_entries_spec [] es ltac:(by intros ? ? ?) ltac:(constructor)) as Hr. cbn in Hr.
  change (entry_index []) with (∅ : gmap id32 Z) in Hr.
  destruct (restore_entries es None None ∅) as [[base index_]|[e g|g]]; cbn in Hr.
  - destruct Hr as (_ & _ & -> & ->). do 2 f_equal.
    + unfold es. by destruct hs.
    + unfold es, entry_index, index, index_rows. by rewrite <- list_fmap_compose.
  - destruct Hr as (pre & q & id & post & Ees & _ & _ & -> & Hne). exfalso. apply Hne.
    assert (es !! length pre = Some q /\ es !! S (length pre) = Some (g, id)) as [H1' H2'].
    { rewrite Ees. split; [by rewrite list_lookup_middle|].
      rewrite lookup_app_r by lia. by replace (S (length pre) - length pre)%nat with 1%nat by lia. }
    unfold es, index_rows in H1', H2'. apply list_lookup_fmap_Some in H1' as (x & -> & Hx).
    apply list_lookup_fmap_Some in H2' as (y & Ey & Hy). injection Ey as -> _.
    destruct (sound_linked _ Hs _ _ _ Hx Hy) as [_ Hxy]. cbn. unfold add_u32. rewrite <- Hxy.
    symmetry. apply as_u32_small. pose proof (sound_u32 _ Hs) as Hu. rewrite Forall_forall in Hu.
    apply Hu. by eapply list_elem_of_lookup_2.
  - destruct Hr as (pre & id & post & Ees & _ & _ & Hin). exfalso.
    pose proof (sound_nodup _ Hs) as Hnd. rewrite <- Ekeys, Ees, fmap_app in Hnd.
    apply NoDup_app in Hnd as (_ & Hd & _). apply (Hd _ Hin). cbn. by left.
Qed.

Lemma restore_spec cfg hs s :
  sound_chain hs -> holds hs (tables s) -> nothing_else hs (tables s) ->
  exists c, restore_chain (RuleStatus := RuleStatus) cfg s = Ok c /\ repr hs (wire (Tx := Tx) s c) /\
    lazy c = with_default_capacity /\
    light_client_mode c = (1 <? default 1 (height <$> head hs)) /\ config c = cfg.
Proof.
  intros Hs Hh Hn. unfold restore_chain. rewrite (entries_of hs) by (done || apply Hs).
  rewrite <- list_fmap_compose.
  assert ((fun e : Z * list Z => (e.1, from_be e.2)) ∘ row <$> hs = index_rows hs) as ->.
  { apply list_fmap_ext. intros ? x Hx%list_elem_of_lookup_2. unfold row, compose. cbn [fst snd]. f_equal.
    apply id_of_bytes. pose proof (sound_ids _ Hs) as Hi. rewrite Forall_forall in Hi. by apply Hi. }
  unfold restore. rewrite restore_rows by done. cbn [result_bind].
  eexists. split; [reflexivity|]. split; [|done].
  split; cbn [base_height by_id wire chain_set_score_loader chain_set_header_loader set_extension_loader with_lazy
    lazy headers header_loader set_score_loader set_header_loader with_default_capacity with_capacity]; try apply Hs.
  - done.
  - done.
  - by apply sound_nodup.
  - intros k x. by rewrite peek_new.
  - intros f k x [= <-]. unfold load_header. destruct (read_header_at k s); [|done]. apply parse_genuine.
Qed.

Lemma open_plain t :
  (forall k, height_index t !! (101, k) = None) ->
  Store.open t = mk_redb t t [] (load_tips t) (load_best_header_tip t).
Proof.
  intros Hk. unfold Store.open, migrate_headers_if_needed. cbn [tables].
  destruct (negb _); [done|]. destruct (range_of 101 (height_index t)) as [|[k i] l] eqn:E; [done|].
  exfalso. assert (height_index t !! (101, k) = Some i) as Hi by (apply elem_of_range_of; rewrite E; by left).
  by rewrite Hk in Hi.
Qed.

Lemma wire_served hs s c :
  holds hs (tables s) -> lazy c = with_default_capacity -> served hs (wire (Tx := Tx) s c).
Proof.
  intros Hh Hc. eexists. split; [reflexivity|]. intros x Hx. split; [by apply (load_header_holds hs)|].
  intros y. cbn. rewrite Hc. cbn. by rewrite peek_new.
Qed.

(** C20: A restart recovers the chain. When BEST_CHAIN holds exactly the headers of a
    chain and their bodies, the node that starts on the file ends with that chain, every
    header of it served by the store, no section and no peer lost; and every header's
    score is the cumulative difficulty up to it, read back from the store if it was
    there, computed by the backfill otherwise. *)
Theorem boot_correct cfg hs file :
  sound_chain hs -> holds hs file -> nothing_else hs file ->
  (forall k, height_index file !! (101, k) = None) ->
  chain_meta file !! SCORES_MIGRATED = None \/ scores_hold hs file ->
  exists c s, boot (Tx := Tx) (RuleStatus := RuleStatus) cfg file = (Return c, s) /\
    repr hs c /\ served hs c /\ same_rows file (tables s) /\ scores_hold hs (tables s) /\
    (forall i x sc, hs !! i = Some x -> cumulative hs !! i = Some sc ->
       (score_at (height x) c).1 = Return (Some sc)) /\
    light_client_mode c = (1 <? default 1 (height <$> head hs)).
Proof.
  intros Hs Hh Hn Hk Hm. unfold boot. rewrite open_plain by done. set (s0 := mk_redb _ _ _ _ _).
  destruct (migrate_spec hs s0 Hs Hh Hn Hm) as (s & -> & Hrows & Hsc).
  pose proof (same_rows_holds _ _ _ Hrows Hh) as Hh'. pose proof (same_rows_else _ _ _ Hrows Hn) as Hn'.
  destruct (restore_spec cfg hs s Hs Hh' Hn') as (c & -> & Hr & Hc & Hl & _).
  pose proof (wire_served hs s c Hh' Hc) as Hserved.
  pose proof (linkage_served preimage (Some LINKAGE_CHECK_DEPTH) hs _ Hr Hserved) as Hv.
  pose proof (reads_verify (Some LINKAGE_CHECK_DEPTH) (wire (Tx := Tx) s c)) as Hle.
  destruct (verify_best_chain_linkage _ _) as [o c']. cbn in Hv, Hle. subst o.
  pose proof (repr_read _ _ _ _ Hle Hr) as Hr'.
  exists c', s. split_and!; [done|done|by eapply served_read|done|done| |].
  - intros i x sc Hi Hcum. change (wp (score_at (height x)) (fun o _ => o = Return (Some sc)) c').
    apply (wp_score_at preimage _ hs); [done|]. intros r c2 -> _ _ _ _ _ _. do 2 f_equal.
    rewrite (proj2 (in_range_repr _ _ _ (height x) Hr')) by eauto using list_elem_of_lookup_2.
    destruct Hle as (cache & -> & _). cbn. rewrite Hc. cbn. unfold resolve. rewrite peek_new.
    apply (load_score_bytes _ _ (id_bytes (header_id x))); [apply Hh'; by eapply list_elem_of_lookup_2|by eapply Hsc|].
    apply (cumulative_nonneg hs). by eapply list_elem_of_lookup_2.
  - by destruct Hle as (cache & -> & _).
Qed.

(** ** A gap in BEST_CHAIN *)

Lemma backfill_best total i prev batch es s :
  best_chain (tables (backfill total i prev batch es s).2) = best_chain (tables s).
Proof.
  revert i prev batch s. induction es as [|[k id] es IH]; intros; [done|]. cbn [backfill].
  repeat (case_match; try done); try apply IH; simplify_eq;
    match goal with Hp : put_header_score_batch _ _ = (_, ?s') |- _ =>
      assert (best_chain (tables s') = best_chain (tables s)) as Hb
        by (unfold put_header_score_batch in Hp; destruct (find _ _); by simplify_eq)
    end; [rewrite IH|]; done.
Qed.

Lemma migrate_best s : best_chain (tables (migrate_scores s).2) = best_chain (tables s).
Proof.
  unfold migrate_scores. destruct (chain_meta_get _ _); [done|].
  destruct (0 <? _); [|done].
  pose proof (backfill_best (Z.of_nat (length (best_chain_entries s))) 0 0 [] (best_chain_entries s) s) as Hb.
  destruct (backfill _ _ _ _ _ _) as [[u|e] s']; cbn in *; done.
Qed.

Lemma sorted_rows_lookup {A} (l : list (Z * A)) j a b :
  StronglySorted row_le l -> l !! j = Some a -> l !! S j = Some b -> a.1 <= b.1.
Proof.
  intros Hs. revert j. induction Hs as [|x l Hs IH Hx]; intros [|j]; cbn; try done; [|apply IH].
  intros [= ->] Hb%list_elem_of_lookup_2. rewrite Forall_forall in Hx. by apply Hx.
Qed.

(** A contiguous index has no gap. *)
Lemma restore_no_gap cfg s c k1 k2 i1 i2 :
  (forall k i, best_chain (tables s) !! k = Some i -> is_u32 k) ->
  best_chain (tables s) !! k1 = Some i1 -> best_chain (tables s) !! k2 = Some i2 -> k1 < k2 ->
  restore_chain (RuleStatus := RuleStatus) (C := C) cfg s = Ok c -> is_Some (best_chain (tables s) !! (k2 - 1)).
Proof.
  intros Hu Hk1 Hk2 Hlt. unfold restore_chain, restore, best_chain_entries. set (rows := sorted_rows _).
  pose proof (sorted_rows_sorted (best_chain (tables s))) as Hsort. fold rows in Hsort.
  assert (forall k i, (k, i) ∈ rows <-> best_chain (tables s) !! k = Some i) as Hrows by (intros; apply elem_of_sorted_rows).
  set (es := _ <$> rows).
  pose proof (restore_entries_spec [] es ltac:(by intros ? ? ?) ltac:(constructor)) as Hr. cbn in Hr.
  change (entry_index []) with (∅ : gmap id32 Z) in Hr.
  destruct (restore_entries es None None ∅) as [[base index_]|]; [|done]. destruct Hr as (Hc & _). intros _.
  apply Hrows, list_elem_of_lookup in Hk2 as [j Hj]. destruct j as [|j].
  { exfalso. apply Hrows in Hk1. destruct rows as [|r rows']; [done|]. injection Hj as ->.
    apply StronglySorted_inv in Hsort as [_ Hall]. apply elem_of_cons in Hk1 as [Heq|Hin]; [simplify_eq; lia|].
    rewrite Forall_forall in Hall. specialize (Hall _ Hin). unfold row_le in Hall. cbn in Hall. lia. }
  destruct (lookup_lt_is_Some_2 rows j) as [[k i] Hy]; [apply lookup_lt_Some in Hj; lia|].
  pose proof (sorted_rows_lookup _ j _ _ Hsort Hy Hj) as Hord. cbn in Hord.
  pose proof (Hc j (k, from_be i) (k2, from_be i2)) as Hstep. cbn in Hstep.
  assert (k2 = add_u32 k 1) as E.
  { apply Hstep; unfold es; rewrite list_lookup_fmap; [by rewrite Hy|by rewrite Hj]. }
  apply list_elem_of_lookup_2, Hrows in Hy. pose proof (Hu _ _ Hy) as Hk. exists i.
  assert (k = k2 - 1); [|by subst k]. unfold add_u32, as_u32 in E. revert Hk. int_unfold. intros Hk.
  destruct (decide (k = U32_MAX)); int_unfold; [|rewrite Z.mod_small in E; lia].
  subst k. rewrite Z.mod_same in E by lia. lia.
Qed.

(** A gap in BEST_CHAIN, a row above a missing height that has rows below it, keeps
    the node from starting, at every start on that file. *)
Theorem boot_gap cfg file k1 k2 i1 i2 :
  (forall k, height_index file !! (101, k) = None) ->
  (forall k i, best_chain file !! k = Some i -> is_u32 k) ->
  best_chain file !! k1 = Some i1 -> best_chain file !! k2 = Some i2 -> k1 < k2 ->
  best_chain file !! (k2 - 1) = None ->
  exists e, (boot (C := C) (Tx := Tx) (RuleStatus := RuleStatus) cfg file).1 = Fail e.
Proof.
  intros Hk Hu H1' H2' Hlt Hgap. unfold boot. rewrite open_plain by done. set (s0 := mk_redb _ _ _ _ _).
  pose proof (migrate_best s0) as Hb. destruct (migrate_scores s0) as [[u|e] s]; [|by eexists]. cbn in Hb.
  destruct (restore_chain cfg s) as [c|e] eqn:Er; [|by eexists]. exfalso.
  change (best_chain (tables s) = best_chain file) in Hb. rewrite <- Hb in Hu, H1', H2', Hgap.
  destruct (restore_no_gap cfg s c k1 k2 i1 i2 Hu H1' H2' Hlt Er) as [i Hi]. congruence.
Qed.

End Restart.
End ChainStore.
