(* ===== verification/Pipeline.v ===== *)
(** * The modifier pipeline

    [ValidationPipeline] of src/src/pipeline.rs: it takes batches of raw modifiers from
    the network, parses headers, checks their proof of work and chains them, keeps
    headers whose parent is unknown in a bounded buffer, stores forks, carries out deep
    reorganizations, writes the store, and binds block sections to their ids before it
    stores them. The pipeline's state holds the chain and the store; what it sends to
    the sync machine, the progress channel and the mempool is appended to lists. Three of
    the channels are bounded and written with [try_send]: [room n] says whether the [n]-th
    such message finds its channel with a place free, and one that does not is lost. The
    clock is read once per step: the [n]-th reading is [clock n] milliseconds, and
    [instant n] on the monotonic clock. A panic is [None]. *)

From S2P Require Import Prelude Bytes Frame ChainConfig VotingCodec Voting Header Difficulty Pow HeaderStore.
From S2P Require Import Sections SyncInfo Messages Handshake MempoolTypes Mempool Store HeaderChain HeaderChainInv ChainStore.
Import ChainConfig VotingCodec Voting Difficulty Pow Sections SyncInfo Store HeaderStore HeaderChain ChainStore.

(** The calls of [lru::LruCache] the pipeline's buffer makes beside those of [LruCache]:
    [push], which returns the entry it displaced, the old value of the key or the least
    recently used entry of a full cache, and [iter]. A key is a block id. *)
Class LruPush (C : Type -> Type) := {
  lru_push : forall {V}, Z -> V -> C V -> option (Z * V) * C V;
  lru_iter : forall {V}, C V -> list (Z * V);
}.

Module Pipeline.

Definition BUFFER_CAPACITY : Z := 8192.
Definition MAX_PARENT_REQUESTS : Z := 3.
(** Sixty seconds, in milliseconds. *)
Definition PARENT_REQUEST_TTL : Z := 60000.
Definition FORK_WALK_STEPS : nat := 1000.

(** ** Outstanding parent requests *)

(** [ParentRequests]: the ids asked for and when. *)
Abbreviation ParentRequests := (gmap id32 Z).

(** [now.saturating_duration_since(at)]. *)
Definition saturating_since (now at_ : Z) : Z := Z.max 0 (now - at_).

Definition live_requests (now : Z) (r : gmap id32 Z) : gmap id32 Z :=
  filter (fun e : id32 * Z => saturating_since now e.2 < PARENT_REQUEST_TTL) r.

Definition should_request (parent : id32) (now : Z) (r : ParentRequests) : bool * ParentRequests :=
  let r := live_requests now r in
  if bool_decide (is_Some (r !! parent)) || (MAX_PARENT_REQUESTS <=? Z.of_nat (size r)) then (false, r)
  else (true, <[parent := now]> r).

Definition resolved (id : id32) (r : ParentRequests) : ParentRequests := delete id r.

(** ** Messages *)

Inductive DeliveryControl :=
  | NeedModifier (type_id : Z) (id : list Z)
  | ReorgTo (fork_point old_tip new_tip : Z).

Inductive DeliveryData := Received (ids : list (list Z)) | Evicted (ids : list (list Z)).

(** [ModifierBatchItem]: the type, the id it was delivered under, the bytes, the peer. *)
Record ModifierBatchItem := mk_item {
  i_type : Z;
  i_id : list Z;
  i_data : list Z;
  i_peer : option Z;
}.

(** A header with the bytes it came in. *)
Definition RawHeader : Type := Header * list Z.

(** The height of the fork point and the branch above it, upwards. *)
Definition ForkBranch : Type := Z * list RawHeader.

(** ** State *)

Section Pipeline.
Context {C : Type -> Type} `{LruCache C} `{LruPush C} `{PowScheme} {Tx RuleStatus : Type}.
Context `{SigmaIO RuleStatus, SectionIO Tx} `{HeaderIO}.
Variable clock : Z -> Z.
Variable instant : Z -> Z.
Variable room : Z -> bool.

Record Pipeline := mk_pipeline {
  chain : HeaderChain C;
  store : RedbModifierStore;
  tracker : HeaderTracker;
  buffer : C RawHeader;
  reorg_requested : ParentRequests;
  forwards : bool;                           (* [tx_sender] is set *)
  ticks : Z;
  offers : Z;                                (* messages offered with [try_send] *)
  control : list DeliveryControl;
  data : list DeliveryData;
  progress : list Z;
  to_mempool : list (list Z * list Z);
}.

Definition with_chain (p : Pipeline) (c : HeaderChain C) : Pipeline :=
  mk_pipeline c (store p) (tracker p) (buffer p) (reorg_requested p) (forwards p) (ticks p) (offers p)
    (control p) (data p) (progress p) (to_mempool p).
Definition with_store (p : Pipeline) (s : RedbModifierStore) : Pipeline :=
  mk_pipeline (chain p) s (tracker p) (buffer p) (reorg_requested p) (forwards p) (ticks p) (offers p)
    (control p) (data p) (progress p) (to_mempool p).
Definition with_tracker (p : Pipeline) (t : HeaderTracker) : Pipeline :=
  mk_pipeline (chain p) (store p) t (buffer p) (reorg_requested p) (forwards p) (ticks p) (offers p)
    (control p) (data p) (progress p) (to_mempool p).
Definition with_buffer (p : Pipeline) (b : C RawHeader) : Pipeline :=
  mk_pipeline (chain p) (store p) (tracker p) b (reorg_requested p) (forwards p) (ticks p) (offers p)
    (control p) (data p) (progress p) (to_mempool p).
Definition with_requests (p : Pipeline) (r : ParentRequests) : Pipeline :=
  mk_pipeline (chain p) (store p) (tracker p) (buffer p) r (forwards p) (ticks p) (offers p)
    (control p) (data p) (progress p) (to_mempool p).
Definition tick (p : Pipeline) : Pipeline :=
  mk_pipeline (chain p) (store p) (tracker p) (buffer p) (reorg_requested p) (forwards p) (ticks p + 1) (offers p)
    (control p) (data p) (progress p) (to_mempool p).
Definition send_control (m : DeliveryControl) (p : Pipeline) : Pipeline :=
  mk_pipeline (chain p) (store p) (tracker p) (buffer p) (reorg_requested p) (forwards p) (ticks p) (offers p)
    (control p ++ [m]) (data p) (progress p) (to_mempool p).
(** [try_send]: the channel with the message, or without. *)
Definition offer {A} (p : Pipeline) (m : A) (queue : list A) : list A :=
  if room (offers p) then queue ++ [m] else queue.

Definition send_data (m : DeliveryData) (p : Pipeline) : Pipeline :=
  mk_pipeline (chain p) (store p) (tracker p) (buffer p) (reorg_requested p) (forwards p) (ticks p) (offers p + 1)
    (control p) (offer p m (data p)) (progress p) (to_mempool p).
Definition send_progress (h : Z) (p : Pipeline) : Pipeline :=
  mk_pipeline (chain p) (store p) (tracker p) (buffer p) (reorg_requested p) (forwards p) (ticks p) (offers p + 1)
    (control p) (data p) (offer p h (progress p)) (to_mempool p).
Definition forward_tx (id bytes : list Z) (p : Pipeline) : Pipeline :=
  mk_pipeline (chain p) (store p) (tracker p) (buffer p) (reorg_requested p) (forwards p) (ticks p) (offers p + 1)
    (control p) (data p) (progress p) (offer p (id, bytes) (to_mempool p)).

(** [ValidationPipeline::new], with the channels empty. *)
Definition new_pipeline (c : HeaderChain C) (s : RedbModifierStore) : Pipeline :=
  mk_pipeline c s tracker_new (lru_new BUFFER_CAPACITY) ∅ false 0 0 [] [] [] [].

Definition set_tx_sender (p : Pipeline) : Pipeline :=
  mk_pipeline (chain p) (store p) (tracker p) (buffer p) (reorg_requested p) true (ticks p) (offers p)
    (control p) (data p) (progress p) (to_mempool p).

(** ** Calls to the chain *)

(** A chain operation, its loaders reading the store as it is now. *)
Definition on_chain {A} (m : M C A) (p : Pipeline) : option (result ChainError A * Pipeline) :=
  match m (wire (Tx := Tx) (store p) (chain p)) with
  | (Return a, c) => Some (Ok a, with_chain p c)
  | (Fail e, c) => Some (Err e, with_chain p c)
  | (Panic, _) => None
  end.

(** A read whose missing value the code unwraps. *)
Definition expect_chain {A} (m : M C (option A)) (p : Pipeline) : option (A * Pipeline) :=
  match on_chain m p with
  | Some (Ok (Some a), p) => Some (a, p)
  | _ => None
  end.

Definition query_chain {A} (m : M C A) (p : Pipeline) : option (A * Pipeline) :=
  match on_chain m p with
  | Some (Ok a, p) => Some (a, p)
  | _ => None
  end.

(** ** Forks *)

(** The walk of [assemble_fork_branch]: down from [first] through stored headers to one
    whose parent is in the chain. *)
Fixpoint fork_walk (fuel : nat) (first : RawHeader) (rest : list RawHeader) (p : Pipeline)
    : option (option ForkBranch * Pipeline) :=
  match fuel with
  | O => Some (None, p)
  | S fuel' =>
      let parent := parent_id first.1 in
      if HeaderChain.contains parent (chain p) then
        let fork_point := sub_u32 (height first.1) 1 in
        match query_chain (header_at fork_point) p with
        | None => None
        | Some (r, p) =>
            Some (if bool_decide (header_id <$> r = Some parent) then Some (fork_point, first :: rest) else None, p)
        end
      else
        match Store.get HEADER_TYPE_ID (id_bytes parent) (store p) with
        | None => Some (None, p)
        | Some bytes =>
            match header_parse bytes with
            | None => Some (None, p)
            | Some h => fork_walk fuel' (h, bytes) (first :: rest) p
            end
        end
  end.

Definition assemble_fork_branch (tip : RawHeader) (p : Pipeline) : option (option ForkBranch * Pipeline) :=
  fork_walk FORK_WALK_STEPS tip [] p.

(** The next free fork number of a height. *)
Definition next_fork (k : Z) (s : RedbModifierStore) : Z :=
  match last (header_ids_at_height k s) with
  | Some (_, f) => add_u32 f 1
  | None => 1
  end.

Definition put_fork (id : list Z) (k : Z) (score raw : list Z) (p : Pipeline) : Pipeline :=
  with_store p (Store.put_header id k (next_fork k (store p)) score raw (store p)).

(** ** A batch *)

Record Batch := mk_batch {
  store_entries : list ModifierBatchEntry;
  evicted_ids : list (list Z);
  pending_reorg : option ForkBranch;
}.

Definition empty_batch : Batch := mk_batch [] [] None.

Definition push_entry (e : ModifierBatchEntry) (b : Batch) : Batch :=
  mk_batch (store_entries b ++ [e]) (evicted_ids b) (pending_reorg b).
Definition push_evicted (id : list Z) (b : Batch) : Batch :=
  mk_batch (store_entries b) (evicted_ids b ++ [id]) (pending_reorg b).
Definition set_pending (f : ForkBranch) (b : Batch) : Batch :=
  mk_batch (store_entries b) (evicted_ids b) (Some f).

Definition header_entry (h : Header) (raw : list Z) (score : Z) : ModifierBatchEntry :=
  mk_entry HEADER_TYPE_ID (id_bytes (header_id h)) (height h) raw (Some (to_bytes_be score)).

(** What follows a header the chain took: its request is settled and its row queued. *)
Definition chained (h : Header) (raw : list Z) (p : Pipeline) (b : Batch) : option (Pipeline * Batch) :=
  let p := with_requests p (resolved (header_id h) (reorg_requested p)) in
  match expect_chain (score_at (height h)) p with
  | None => None
  | Some (score, p) => Some (p, push_entry (header_entry h raw score) b)
  end.

(** The children of a chained header that wait in the buffer, one after the other. *)
Fixpoint drain_buffer (fuel : nat) (next_parent : id32) (p : Pipeline) (b : Batch) : option (Pipeline * Batch) :=
  match fuel with
  | O => Some (p, b)
  | S fuel' =>
      match lru_peek next_parent (buffer p) with
      | None => Some (p, b)
      | Some (h, raw) =>
          let p := with_buffer p (lru_pop next_parent (buffer p)) in
          match on_chain (try_append (clock (ticks p)) h) (tick p) with
          | None => None
          | Some (Ok Extended, p) =>
              match chained h raw p b with
              | None => None
              | Some (p, b) => drain_buffer fuel' (header_id h) (with_tracker p (observe h (tracker p))) b
              end
          | Some (_, p) => Some (p, b)
          end
      end
  end.

Definition on_extended (h : Header) (raw : list Z) (p : Pipeline) (b : Batch) : option (Pipeline * Batch) :=
  match chained h raw p b with
  | None => None
  | Some (p, b) => drain_buffer (length (lru_iter (buffer p))) (header_id h) p b
  end.

(** A header whose parent is in the chain below the tip. *)
Definition on_forked (h : Header) (raw : list Z) (fork_height : Z) (p : Pipeline) (b : Batch)
    : option (Pipeline * Batch) :=
  let p := with_requests p (resolved (header_id h) (reorg_requested p)) in
  match query_chain (score_at fork_height) p with
  | None => None
  | Some (parent_score, p) =>
      let fork_score := default 0 parent_score + header_difficulty h in
      let p := put_fork (id_bytes (header_id h)) (height h) (to_bytes_be fork_score) raw p in
      match query_chain cumulative_score p with
      | None => None
      | Some (best_score, p) =>
          Some (p, if (best_score <? fork_score) && bool_decide (pending_reorg b = None)
                   then set_pending (fork_height, [(h, raw)]) b else b)
      end
  end.

Definition buffer_header (h : Header) (raw : list Z) (p : Pipeline) (b : Batch) : Pipeline * Batch :=
  let '(evicted, cache) := lru_push (parent_id h) (h, raw) (buffer p) in
  (with_buffer p cache,
   match evicted with
   | Some (_, (old, _)) => push_evicted (id_bytes (header_id old)) b
   | None => b
   end).

(** A header whose parent is not in the chain: a fork's next header when the store has
    the parent's score, else an orphan. *)
Definition on_orphan (h : Header) (raw : list Z) (p : Pipeline) (b : Batch) : option (Pipeline * Batch) :=
  match header_score (id_bytes (parent_id h)) (store p) with
  | Some (x :: bytes) =>
      let fork_score := from_be (x :: bytes) + header_difficulty h in
      let p := put_fork (id_bytes (header_id h)) (height h) (to_bytes_be fork_score) raw p in
      match query_chain cumulative_score p with
      | None => None
      | Some (best_score, p) =>
          if (best_score <? fork_score) && bool_decide (pending_reorg b = None) then
            match assemble_fork_branch (h, raw) p with
            | None => None
            | Some (Some branch, p) => Some (p, set_pending branch b)
            | Some (None, p) => Some (p, b)
            end
          else Some (p, b)
      end
  | _ =>
      let '(ask, requests) := should_request (parent_id h) (instant (ticks p)) (reorg_requested p) in
      let p := tick (with_requests p requests) in
      let p := if ask : bool then send_control (NeedModifier HEADER_TYPE_ID (id_bytes (parent_id h))) p else p in
      Some (buffer_header h raw p b)
  end.

(** One header of the batch. *)
Definition step_header (st : Pipeline * Batch) (hr : RawHeader) : option (Pipeline * Batch) :=
  let '(p, b) := st in
  let '(h, raw) := hr in
  if HeaderChain.contains (header_id h) (chain p) then Some (p, b)
  else
    let p := with_tracker p (observe h (tracker p)) in
    match on_chain (try_append (clock (ticks p)) h) (tick p) with
    | None => None
    | Some (Ok Extended, p) => on_extended h raw p b
    | Some (Ok (Forked fork_height), p) => on_forked h raw fork_height p b
    | Some (Err (ParentNotFound _), p) => on_orphan h raw p b
    | Some (Err (InvalidGenesisParent _), p) | Some (Err (InvalidGenesisHeight _), p) =>
        Some (buffer_header h raw p b)
    | Some (Err _, p) => Some (p, b)
    end.

Fixpoint step_headers (hrs : list RawHeader) (st : Pipeline * Batch) : option (Pipeline * Batch) :=
  match hrs with
  | [] => Some st
  | hr :: hrs' =>
      match step_header st hr with
      | None => None
      | Some st => step_headers hrs' st
      end
  end.

(** ** The pending reorganization *)

Fixpoint branch_entries (branch : list RawHeader) (p : Pipeline) : option (list ModifierBatchEntry * Pipeline) :=
  match branch with
  | [] => Some ([], p)
  | (h, raw) :: branch' =>
      match expect_chain (score_at (height h)) p with
      | None => None
      | Some (score, p) =>
          match branch_entries branch' p with
          | None => None
          | Some (es, p) => Some (header_entry h raw score :: es, p)
          end
      end
  end.

Definition skip_ticks (n : Z) (p : Pipeline) : Pipeline :=
  mk_pipeline (chain p) (store p) (tracker p) (buffer p) (reorg_requested p) (forwards p) (ticks p + n) (offers p)
    (control p) (data p) (progress p) (to_mempool p).

(** What follows a reorganization that succeeded: the new branch is written to the best
    chain of the store and the sync machine is told. *)
Definition reorg_done (fork_point old_tip : Z) (branch : list RawHeader) (p : Pipeline)
    : option (option Z * Pipeline) :=
  let new_tip := chain_height (chain p) in
  match query_chain tip p with
  | None => None
  | Some (_, p) =>
      match branch_entries branch p with
      | None => None
      | Some (entries, p) =>
          let p := with_store p (put_batch entries (store p)).2 in
          Some (Some fork_point, send_control (ReorgTo fork_point old_tip new_tip) p)
      end
  end.

(** The fork point of the reorganization that took place, if one did. *)
Definition execute_reorg (pending : option ForkBranch) (p : Pipeline) : option (option Z * Pipeline) :=
  match pending with
  | None => Some (None, p)
  | Some (fork_point, branch) =>
      let old_tip := chain_height (chain p) in
      match query_chain tip p with
      | None => None
      | Some (_, p) =>
          let first := ticks p in
          let p := skip_ticks (Z.of_nat (length branch)) p in
          match on_chain (try_reorg_deep (fun i => clock (first + i)) fork_point branch.*1 true) p with
          | None => None
          | Some (Err _, p) => Some (None, p)
          | Some (Ok _, p) => reorg_done fork_point old_tip branch p
          end
      end
  end.

(** ** After the headers *)

(** Buffered headers at or below the tip are stale. *)
Definition purge_buffer (p : Pipeline) : Pipeline :=
  let stale := filter (fun e : Z * RawHeader => height e.2.1 <= chain_height (chain p)) (lru_iter (buffer p)) in
  with_buffer p (foldl (fun c k => lru_pop k c) (buffer p) stale.*1).

Definition store_demoted (p : Pipeline) (e : ModifierBatchEntry) : Pipeline :=
  put_fork (e_id e) (e_height e) (default [] (e_score e)) (e_data e) p.

(** The rows of the batch: those above the fork point of a reorganization are on the
    branch it demoted. *)
Definition persist (reorged : option Z) (entries : list ModifierBatchEntry) (p : Pipeline) : Pipeline :=
  let '(best, p) :=
    match reorged with
    | None => (entries, p)
    | Some fork_point =>
        (filter (fun e => e_height e <= fork_point) entries,
         foldl store_demoted p (filter (fun e => ~ (e_height e <= fork_point)) entries))
    end in
  match best with
  | [] => p
  | _ => with_store p (put_batch best (store p)).2
  end.

(** Parsing and proof of work. *)
Fixpoint parse_headers (raws : list (list Z)) : option (list RawHeader) :=
  match raws with
  | [] => Some []
  | bytes :: raws' =>
      match header_parse bytes with
      | None => parse_headers raws'
      | Some h =>
          match verify_pow h with
          | Panic => None
          | Fail _ => parse_headers raws'
          | Return _ => cons (h, bytes) <$> parse_headers raws'
          end
      end
  end.

Definition by_height (a b : RawHeader) : Prop := height a.1 <= height b.1.

#[global] Instance by_height_dec : RelDecision by_height.
Proof. intros a b. unfold by_height. apply _. Defined.

(** The headers that parsed and have their proof of work, one batch. *)
Definition chain_headers (hrs : list RawHeader) (p : Pipeline) : option Pipeline :=
  let height_before := chain_height (chain p) in
  match step_headers (stable_sort by_height hrs) (p, empty_batch) with
  | None => None
  | Some (p, b) =>
      match execute_reorg (pending_reorg b) p with
      | None => None
      | Some (reorged, p) =>
          let height_after := chain_height (chain p) in
          let p := persist reorged (store_entries b) (purge_buffer p) in
          let p := match evicted_ids b with [] => p | ids => send_data (Evicted ids) p end in
          Some (if height_before <? height_after then send_progress height_after p else p)
      end
  end.

(** [process_headers]: the ids of the headers it accepts. *)
Definition process_headers (raws : list (list Z)) (p : Pipeline) : option (list (list Z) * Pipeline) :=
  match parse_headers raws with
  | None => None
  | Some [] => Some ([], p)
  | Some hrs =>
      match chain_headers hrs p with
      | None => None
      | Some p => Some ((fun hr : RawHeader => id_bytes (header_id hr.1)) <$> hrs, p)
      end
  end.

(** ** Sections *)

(** A section binds when its bytes hash to the id it came under and its header is known. *)
Definition bind_section (p : Pipeline) (item : ModifierBatchItem) : option ModifierBatchEntry :=
  match section_id_from_body (RuleStatus := RuleStatus) (Tx := Tx) (i_type item) (i_data item) with
  | Err _ => None
  | Ok ident =>
      if decide (identity ident = i_id item) then
        match height_of (from_be (body_header_id ident)) (chain p) with
        | Some k => Some (mk_entry (i_type item) (i_id item) k (i_data item) None)
        | None =>
            if Store.contains HEADER_TYPE_ID (body_header_id ident) (store p)
            then Some (mk_entry (i_type item) (i_id item) 0 (i_data item) None)
            else None
        end
      else None
  end.

Definition bind_and_store_sections (items : list ModifierBatchItem) (p : Pipeline) : list (list Z) * Pipeline :=
  match omap (bind_section p) items with
  | [] => ([], p)
  | entries =>
      match put_batch entries (store p) with
      | (Ok _, s) => (e_id <$> entries, with_store p s)
      | (Err _, s) => ([], with_store p s)
      end
  end.

(** ** The batch *)

Definition is_header (item : ModifierBatchItem) : bool := i_type item =? HEADER_TYPE_ID.
Definition is_transaction (item : ModifierBatchItem) : bool :=
  (i_type item =? TRANSACTION_TYPE_ID) && negb (bool_decide (i_data item = [])).
Definition is_section (item : ModifierBatchItem) : bool :=
  negb (is_header item) && negb (is_transaction item) && negb (bool_decide (i_data item = [])).

Definition forward (p : Pipeline) (item : ModifierBatchItem) : Pipeline :=
  if is_transaction item && negb (is_header item) then
    if Mempool.MAX_TRANSACTION_SIZE <? Z.of_nat (length (i_data item)) then p
    else if forwards p then forward_tx (i_id item) (i_data item) p else p
  else p.

Definition process_batch (batch : list ModifierBatchItem) (p : Pipeline) : option Pipeline :=
  let p := foldl forward p batch in
  match process_headers (i_data <$> filter (fun i => is_header i = true) batch) p with
  | None => None
  | Some (accepted, p) =>
      let '(stored, p) := bind_and_store_sections (filter (fun i => is_section i = true) batch) p in
      Some (match accepted ++ stored with
            | [] => p
            | ids => send_data (Received ids) p
            end)
  end.

(** [run]: the batches the channel yields. *)
Fixpoint run (batches : list (list ModifierBatchItem)) (p : Pipeline) : option Pipeline :=
  match batches with
  | [] => Some p
  | batch :: batches' =>
      match process_batch batch p with
      | None => None
      | Some p => run batches' p
      end
  end.

End Pipeline.
End Pipeline.
