(* ===== verification/PipelineInv.v ===== *)
(** * The modifier pipeline: the chain and the store stay in step

    The invariant of [ValidationPipeline] between batches: the chain represents a linked
    list of headers, and the store has each of them in BEST_CHAIN under its height, with
    a body that parses to it and a score, so that the chain's loaders serve the whole
    chain. During a batch the rows of the new headers are still queued. *)

From S2P Require Import Prelude Bytes Frame ChainConfig VotingCodec Voting Header Difficulty Pow HeaderStore.
From S2P Require Import Sections SyncInfo Messages Handshake MempoolTypes Mempool Store HeaderChain HeaderChainInv HeaderChainOps HeaderChainReach.
From S2P Require Import ChainStore Pipeline.
Import ChainConfig VotingCodec Voting Difficulty Pow Sections SyncInfo Store HeaderStore HeaderChain.
Import HeaderChainInv HeaderChainOps HeaderChainReach ChainStore Pipeline.

(** What the crate documents of [push] and [iter]. *)
Class LruPushLaws (C : Type -> Type) `{LruCache C, !LruPush C} : Prop := {
  push_new : forall V k (v : V) (c : C V), lru_peek k (lru_push k v c).2 = Some v;
  push_keeps : forall V k k' (v w : V) (c : C V),
    k' <> k -> lru_peek k' (lru_push k v c).2 = Some w -> lru_peek k' c = Some w;
  push_lost : forall V k k' (v w : V) (c : C V),
    lru_peek k' c = Some w -> lru_peek k' (lru_push k v c).2 = None \/ k' = k ->
    (lru_push k v c).1 = Some (k', w);
  push_displaced : forall V k k' (v w : V) (c : C V),
    (lru_push k v c).1 = Some (k', w) -> lru_peek k' c = Some w;
  iter_peek : forall V k (v : V) (c : C V), (k, v) ∈ lru_iter c <-> lru_peek k c = Some v;
  iter_keys : forall V (c : C V), NoDup (lru_iter c).*1;
}.

Module PipelineInv.

(** ** Batches of one answer *)

Lemma latest_none {A} (says : ModifierBatchEntry -> option A) es old :
  (forall e, e ∈ es -> says e = None) -> latest says es old = old.
Proof.
  intros Hall. unfold latest. destruct (last (omap says es)) as [b|] eqn:El; [|done].
  apply last_Some_elem_of, list_elem_of_omap in El as (e & He & Hb). rewrite Hall in Hb; done.
Qed.

Lemma latest_cases {A} (says : ModifierBatchEntry -> option A) es old a :
  latest says es old = Some a -> (exists e, e ∈ es /\ says e = Some a) \/ old = Some a.
Proof.
  unfold latest. destruct (last (omap says es)) as [b|] eqn:El; [|by right].
  intros [= ->]. left. apply last_Some_elem_of, list_elem_of_omap in El as (e & He & Hb). eauto.
Qed.

Lemma put_batch_tables es s : Forall scored es -> tables (put_batch es s).2 = foldl put_entry (tables s) es.
Proof. intros Hs%scored_spec. unfold put_batch. by rewrite Hs. Qed.

Lemma entries_primary es t ty i : primary (foldl put_entry t es) !! (ty, i) = latest (data_of ty i) es (primary t !! (ty, i)).
Proof.
  apply (fold_latest (fun t => primary t !! (ty, i)) _ (fun _ => True)); [|by apply Forall_forall].
  intros t' e _. apply put_entry_primary.
Qed.

Lemma entries_best es t k :
  Forall scored es -> best_chain (foldl put_entry t es) !! k = latest (id_of 101 k) es (best_chain t !! k).
Proof.
  intros Hs. apply (fold_latest (fun t => best_chain t !! k) _ scored); [|done].
  intros t' e. apply put_entry_best.
Qed.

Lemma entries_scores es t i :
  Forall scored es -> header_scores (foldl put_entry t es) !! i = latest (score_of i) es (header_scores t !! i).
Proof.
  intros Hs. apply (fold_latest (fun t => header_scores t !! i) _ scored); [|done].
  intros t' e. apply put_entry_scores.
Qed.

(** ** Parent requests *)

(** A history of the requests: questions with their instant, and arrivals. *)
Inductive request_op := Ask (id : id32) (now : Z) | Arrived (id : id32).

(** The outstanding requests, the questions that were sent, the arrivals. *)
Definition run_request (st : ParentRequests * nat * nat) (op : request_op) : ParentRequests * nat * nat :=
  let '(r, sent, arrived) := st in
  match op with
  | Ask id now => let '(ask, r) := should_request id now r in (r, if ask : bool then S sent else sent, arrived)
  | Arrived id => (resolved id r, sent, S arrived)
  end.

Definition asked_within (t : Z) (op : request_op) : Prop :=
  match op with Ask _ now => t <= now < t + PARENT_REQUEST_TTL | Arrived _ => True end.

(** The requests made since [t]. *)
Definition since (t : Z) (r : gmap id32 Z) : nat := size (filter (fun e : id32 * Z => t <= e.2) r).

Lemma lookup_live now r id at_ :
  live_requests now r !! id = Some at_ <-> r !! id = Some at_ /\ saturating_since now at_ < PARENT_REQUEST_TTL.
Proof. apply (map_lookup_filter_Some (M := gmap id32)). Qed.

Lemma live_size now r : (size (live_requests now r) <= size r)%nat.
Proof. apply map_subseteq_size, map_filter_subseteq. Qed.

Lemma since_size t r : (since t r <= size r)%nat.
Proof. apply map_subseteq_size, map_filter_subseteq. Qed.

Lemma since_live t now (r : gmap id32 Z) : now < t + PARENT_REQUEST_TTL -> since t (live_requests now r) = since t r.
Proof.
  intros Hnow. unfold since. f_equal. apply map_eq. intros id. apply option_eq. intros at_.
  rewrite !(map_lookup_filter_Some (M := gmap id32)), lookup_live. cbn. unfold saturating_since, PARENT_REQUEST_TTL in *.
  split; [naive_solver|]. intros [? ?]. split_and!; try done. lia.
Qed.

Lemma since_delete t (r : gmap id32 Z) (id : id32) : (since t r <= S (since t (delete id r)))%nat.
Proof.
  unfold since. rewrite (map_filter_delete (M := gmap id32)). destruct (filter (fun e : id32 * Z => t <= e.2) r !! id) as [v|] eqn:E.
  - rewrite map_size_delete_Some by eauto. lia.
  - rewrite delete_id by done. lia.
Qed.

(** One question. *)
Lemma should_request_spec id now r :
  let '(ask, r') := should_request id now r in
  (ask = true <-> live_requests now r !! id = None /\ (size (live_requests now r) < 3)%nat) /\
  r' = (if ask then <[id := now]> (live_requests now r) else live_requests now r).
Proof.
  unfold should_request, MAX_PARENT_REQUESTS. destruct (_ || _) eqn:E.
  - split; [|done]. split; [done|]. intros [Hn Hs]. apply orb_true_iff in E as [E|E].
    + apply bool_decide_eq_true in E. rewrite Hn in E. by destruct E.
    + apply Z.leb_le in E. lia.
  - split; [|done]. split; [|done]. intros _. apply orb_false_iff in E as [E1 E2].
    apply bool_decide_eq_false, eq_None_not_Some in E1. apply Z.leb_gt in E2. split; [done|lia].
Qed.

Lemma requests_step t op r n a r' n' a' k :
  (size r <= 3)%nat -> asked_within t op -> (n <= k + since t r + a)%nat ->
  run_request (r, n, a) op = (r', n', a') ->
  (size r' <= 3)%nat /\ (n' <= k + since t r' + a')%nat.
Proof.
  intros Hs Hw Hn. destruct op as [id now|id]; cbn.
  - pose proof (should_request_spec id now r) as Hspec. destruct (should_request id now r) as [ask r1].
    destruct Hspec as [Hask ->]. intros [= <- <- <-]. pose proof (live_size now r). cbn in Hw.
    destruct ask.
    + destruct (proj1 Hask eq_refl) as [Hnone Hlt]. rewrite map_size_insert_None by done. split; [lia|].
      assert (since t (<[id := now]> (live_requests now r)) = S (since t r)) as ->; [|lia].
      rewrite <- (since_live t now r) by lia. unfold since. rewrite (map_filter_insert_True (M := gmap id32)) by (cbn; lia).
      rewrite map_size_insert_None; [done|]. apply (map_lookup_filter_None (M := gmap id32)). by left.
    + rewrite since_live by lia. split; lia.
  - intros [= <- <- <-]. unfold resolved. pose proof (since_delete t r id).
    split; [|lia]. pose proof (map_subseteq_size _ _ (delete_subseteq r id)). lia.
Qed.

(** C38: Requests for missing parents are bounded and are never stuck. From any state with
    at most three outstanding there are never more; within any sixty seconds at most
    three more are sent than parents arrive, whatever headers come in; and once the
    outstanding ones are sixty seconds old the next question is sent. *)
Theorem requests_bounded t ops r :
  (size r <= 3)%nat -> Forall (asked_within t) ops ->
  let '(r', sent, arrived) := foldl run_request (r, 0%nat, 0%nat) ops in
  (size r' <= 3)%nat /\ (sent <= 3 + arrived)%nat /\
  (forall id now, (forall k at_, r' !! k = Some at_ -> at_ + PARENT_REQUEST_TTL <= now) ->
     should_request id now r' = (true, {[id := now]})).
Proof.
  intros Hs Hw.
  assert (forall n a k, (n <= k + since t r + a)%nat ->
    let '(r', n', a') := foldl run_request (r, n, a) ops in (size r' <= 3)%nat /\ (n' <= k + since t r' + a')%nat) as Hrun.
  { clear -Hs Hw. revert r Hs. induction Hw as [|op ops Ho _ IH]; intros r Hs n a k Hn; [done|]. cbn [foldl].
    destruct (run_request (r, n, a) op) as [[r1 n1] a1] eqn:E.
    destruct (requests_step t op r n a r1 n1 a1 k Hs Ho Hn E) as [Hs1 Hn1]. by apply IH. }
  specialize (Hrun 0%nat 0%nat 0%nat ltac:(lia)).
  destruct (foldl run_request (r, 0%nat, 0%nat) ops) as [[r' n'] a']. destruct Hrun as [Hs' Hn'].
  pose proof (since_size t r'). split_and!; [done|lia|]. intros id now Hold.
  assert (live_requests now r' = ∅) as El.
  { apply map_empty. intros k. apply eq_None_not_Some. intros [at_ [Hk Hlt]%lookup_live].
    specialize (Hold k at_ Hk). unfold saturating_since, PARENT_REQUEST_TTL in *. lia. }
  unfold should_request. rewrite El. rewrite bool_decide_false by (rewrite lookup_empty; by intros [? ?]).
  by rewrite map_size_empty.
Qed.

Section Inv.
Context {C : Type -> Type} `{LruLaws C} `{!LruPush C} `{!LruPushLaws C} `{PowScheme} {Tx RuleStatus : Type}.
Context `{SigmaIO RuleStatus, SectionIO Tx} `{HeaderIO}.
Variable clock : Z -> Z.
Variable instant : Z -> Z.
Variable room : Z -> bool.
Variable preimage : id32 -> option Header.
Local Abbreviation genuine := (genuine preimage).
Local Abbreviation repr := (repr preimage).
Local Abbreviation keeps := (keeps preimage).
Local Abbreviation Pipeline := (Pipeline (C := C)).
Local Abbreviation on_chain := (on_chain (C := C) (Tx := Tx)).

(** The fields of a parsed header have their types, and the id is the header's. *)
Hypothesis parse_typed : forall raw x,
  header_parse raw = Some x -> genuine x /\ is_u32 (height x) /\ is_id (header_id x).

(** Away from the end of the height's range. *)
Definition fits (x : Header) : Prop := height x + 1000 <= U32_MAX.

(** The chain a batch starts with, and the headers it can be about. *)
Variable start : list Header.
Variable origin : Header -> Prop.

(** A chain that begins as [start] does, or with a genesis header if that is empty. *)
Definition rooted (l : list Header) : Prop :=
  match head start with
  | Some g => head l = Some g
  | None => forall x, head l = Some x -> height x = 1
  end.

(** No chain of such headers comes near the end of the height's range. *)
Hypothesis low : forall l, linked l -> rooted l -> Forall origin l -> Forall fits l.

Definition sent (raw : list Z) (x : Header) : Prop := header_parse raw = Some x /\ origin x.

(** Every stored header parses and is under its own id. *)
Definition bodies_ok (t : Tables) : Prop :=
  forall i raw, primary t !! (101, i) = Some raw -> exists x, sent raw x /\ i = id_bytes (header_id x).
Definition buffer_ok (b : C RawHeader) : Prop := forall k x raw, lru_peek k b = Some (x, raw) -> sent raw x.

Definition in_store (t : Tables) (x : Header) : Prop :=
  best_chain t !! height x = Some (id_bytes (header_id x)) /\ body_stored t x /\
  is_Some (header_scores t !! id_bytes (header_id x)).
Definition queued (es : list ModifierBatchEntry) (x : Header) : Prop :=
  exists raw sc, header_entry x raw sc ∈ es /\ sent raw x.

Record branch_ok (fork : Z) (branch : list RawHeader) : Prop := {
  branch_sent : Forall (fun hr : RawHeader => sent hr.2 hr.1) branch;
  branch_short : (length branch <= 1000)%nat;
  branch_fork : 0 <= fork /\ fork + 1000 <= U32_MAX;
}.

(** The pipeline in the middle of a batch. *)
Record mid (hs : list Header) (p : Pipeline) (b : Batch) : Prop := {
  mid_repr : repr hs (chain p);
  mid_heights : Forall (fun x => 0 < height x /\ fits x /\ origin x) hs;
  mid_rooted : rooted hs;
  mid_rows : forall x, x ∈ hs -> in_store (tables (store p)) x \/ queued (store_entries b) x;
  mid_entries : forall e, e ∈ store_entries b -> exists x raw sc, e = header_entry x raw sc /\ sent raw x /\ x ∈ hs;
  mid_bodies : bodies_ok (tables (store p));
  mid_buffer : buffer_ok (buffer p);
  mid_pending : forall fork branch, pending_reorg b = Some (fork, branch) -> branch_ok fork branch;
}.

Definition settled (hs : list Header) (p : Pipeline) : Prop := mid hs p empty_batch.

(** ** Calls to the chain *)

Lemma repr_wire hs s c : repr hs c -> repr hs (wire (Tx := Tx) s c).
Proof.
  intros []. split; cbn; try done. intros f k x [= <-]. unfold load_header.
  destruct (read_header_at k s); [|done]. intros Hp. by apply parse_typed in Hp as (? & _).
Qed.

Lemma on_chain_inv {A} (m : M C A) p r p' :
  on_chain m p = Some (r, p') ->
  m (wire (Tx := Tx) (store p) (chain p)) = (match r with Ok a => Return a | Err e => Fail e end, chain p') /\
  p' = with_chain p (chain p').
Proof.
  unfold Pipeline.on_chain. destruct (m _) as [[a|e|] c]; [|intros [= <- <-]..|done]; [intros [= <- <-]|]; done.
Qed.

Lemma mid_chain hs p b c : mid hs p b -> repr hs c -> mid hs (with_chain p c) b.
Proof. by intros [] Hr; split. Qed.

Lemma on_chain_keeps {A} (m : M C A) hs p b r p' :
  keeps m -> mid hs p b -> on_chain m p = Some (r, p') -> mid hs p' b /\ p' = with_chain p (chain p').
Proof.
  intros Hk Hm Ho%on_chain_inv. destruct Ho as [Ho ->]. split; [|done]. apply mid_chain; [done|]. cbn.
  pose proof (Hk hs _ (repr_wire hs (store p) _ (mid_repr _ _ _ Hm))) as Hr. by rewrite Ho in Hr.
Qed.

Lemma query_chain_keeps {A} (m : M C A) hs p b a p' :
  keeps m -> mid hs p b -> query_chain (Tx := Tx) m p = Some (a, p') -> mid hs p' b /\ p' = with_chain p (chain p').
Proof.
  intros Hk Hm. unfold query_chain. destruct (Pipeline.on_chain m p) as [[[a'|e] q]|] eqn:E; [|done..].
  intros [= <- <-]. by apply (on_chain_keeps m hs p b (Ok a')).
Qed.

Lemma expect_chain_keeps {A} (m : M C (option A)) hs p b a p' :
  keeps m -> mid hs p b -> expect_chain (Tx := Tx) m p = Some (a, p') -> mid hs p' b /\ p' = with_chain p (chain p').
Proof.
  intros Hk Hm. unfold expect_chain. destruct (Pipeline.on_chain m p) as [[[[a'|]|e] q]|] eqn:E; [|done..].
  intros [= <- <-]. by apply (on_chain_keeps m hs p b (Ok (Some a'))).
Qed.

Lemma keeps_cumulative : keeps (cumulative_score (C := C)).
Proof.
  unfold cumulative_score. apply keeps_bind; [apply keeps_reads, reads_gets|]. intros [].
  - apply keeps_reads, reads_ret.
  - apply keeps_bind; [apply keeps_reads, reads_gets|]. intros k. apply keeps_bind; [apply keeps_score_at|].
    intros r. apply keeps_reads, reads_ret.
Qed.

(** ** One header *)

Lemma genuine_of raw x : sent raw x -> genuine x /\ is_u32 (height x) /\ is_id (header_id x).
Proof. intros [Hp _]. by apply (parse_typed raw). Qed.

Lemma mid_top hs p b t : mid hs p b -> last hs = Some t -> height t < U32_MAX.
Proof.
  intros Hm Ht%last_Some_elem_of. pose proof (mid_heights _ _ _ Hm) as Hh. rewrite Forall_forall in Hh.
  destruct (Hh t Ht) as (_ & Hf & _). unfold fits in Hf. lia.
Qed.

Lemma rooted_app hs hs' : hs <> [] -> rooted hs -> rooted (hs ++ hs').
Proof. by destruct hs. Qed.

Lemma origin_all hs p b : mid hs p b -> Forall origin hs.
Proof. intros Hm. eapply Forall_impl; [exact (mid_heights _ _ _ Hm)|]. by intros x (_ & _ & ?). Qed.

(** What a header offered to the chain leaves behind. *)
Lemma append_mid now hs p b h raw r p' :
  mid hs p b -> sent raw h -> on_chain (try_append now h) p = Some (r, p') ->
  p' = with_chain p (chain p') /\
  match r with
  | Ok Extended => repr (hs ++ [h]) (chain p') /\ (0 < height h /\ fits h) /\ rooted (hs ++ [h])
  | Ok (Forked k) => mid hs p' b /\ 0 <= k /\ k + 1000 <= U32_MAX
  | Err _ => mid hs p' b
  end.
Proof.
  intros Hm Hs Ho%on_chain_inv. destruct Ho as [Ho ->]. split; [done|]. cbn [chain with_chain].
  destruct (genuine_of _ _ Hs) as (Hg & Hu & _).
  pose proof (append_spec preimage now hs _ h (repr_wire hs (store p) _ (mid_repr _ _ _ Hm)) Hg Hu
    (fun t => mid_top hs p b t Hm)) as Ha.
  rewrite Ho in Ha. cbn [fst snd] in Ha. pose proof (mid_heights _ _ _ Hm) as Hh. rewrite Forall_forall in Hh.
  destruct r as [[|k]|e]; cbn in Ha.
  - destruct Ha as [He Hok]. pose proof (ext_repr _ _ _ _ _ He) as Hr. split; [done|].
    assert (rooted (hs ++ [h])) as Hroot.
    { pose proof (mid_rooted _ _ _ Hm) as Hroot. destruct hs as [|x hs']; [|done]. unfold rooted in *.
      destruct (head start); [done|]. intros x [= <-]. exact (genesis_height _ _ Hok). }
    assert (fits h) as Hfit.
    { assert (Forall origin (hs ++ [h])) as Ho'
        by (apply Forall_app; split; [by eapply origin_all|apply Forall_singleton, Hs]).
      pose proof (low _ (repr_linked _ _ _ Hr) Hroot Ho') as Hall. rewrite Forall_forall in Hall.
      apply Hall, elem_of_app. right. by apply list_elem_of_singleton. }
    split; [|done]. split; [|done].
    destruct (last hs) as [t|] eqn:Et; [|by rewrite (genesis_height _ _ Hok)].
    rewrite (child_height _ _ _ _ _ Hok). destruct (Hh t) as (Ht & Hf & _); [by apply last_Some_elem_of|].
    unfold add_u32. rewrite as_u32_small; [lia|]. unfold fits in Hf. int_unfold. lia.
  - destruct Ha as (Hr & _ & x & Hx & _ & _ & <- & _). split; [by apply mid_chain|].
    destruct (Hh x Hx) as (? & Hf & _). unfold fits in Hf. lia.
  - destruct Ha as [Hr _]. by apply mid_chain.
Qed.

(** Fields the invariant does not read. *)
Lemma mid_requests hs p b r : mid hs p b -> mid hs (with_requests p r) b.
Proof. by intros []; split. Qed.
Lemma mid_tracker hs p b t : mid hs p b -> mid hs (with_tracker p t) b.
Proof. by intros []; split. Qed.
Lemma mid_tick hs p b : mid hs p b -> mid hs (tick p) b.
Proof. by intros []; split. Qed.
Lemma mid_control hs p b m : mid hs p b -> mid hs (send_control m p) b.
Proof. by intros []; split. Qed.

Lemma mid_push hs p b h raw sc c :
  mid hs p b -> sent raw h -> 0 < height h /\ fits h -> rooted (hs ++ [h]) -> repr (hs ++ [h]) c ->
  mid (hs ++ [h]) (with_chain p c) (push_entry (header_entry h raw sc) b).
Proof.
  intros Hm Hs Hh Hroot Hr. pose proof Hm as []. split; cbn [chain store buffer with_chain push_entry store_entries pending_reorg]; try done.
  - apply Forall_app. split; [done|]. apply Forall_singleton. split_and!; [apply Hh|apply Hh|apply Hs].
  - intros x [Hx|Hx]%elem_of_app.
    + destruct (mid_rows0 x Hx) as [?|(raw' & sc' & Hin & ?)]; [by left|]. right. exists raw', sc'.
      split; [|done]. apply elem_of_app. by left.
    + apply list_elem_of_singleton in Hx as ->. right. exists raw, sc. split; [|done].
      apply elem_of_app. right. by apply list_elem_of_singleton.
  - intros e [He|He]%elem_of_app.
    + destruct (mid_entries0 e He) as (x & raw' & sc' & ? & ? & ?). exists x, raw', sc'.
      split_and!; [done..|]. apply elem_of_app. by left.
    + apply list_elem_of_singleton in He as ->. exists h, raw, sc. split_and!; [done..|].
      apply elem_of_app. right. by apply list_elem_of_singleton.
Qed.

(** The chain grew, and only requests for parents were sent. *)
Definition is_need (m : DeliveryControl) : Prop := exists ty id, m = NeedModifier ty id.
Definition grown (hs : list Header) (p : Pipeline) (hs' : list Header) (p' : Pipeline) : Prop :=
  exists added needs, hs' = hs ++ added /\ control p' = control p ++ needs /\ Forall is_need needs.

Lemma grown_same hs p p' : control p' = control p -> grown hs p hs p'.
Proof. intros Hc. exists [], []. by rewrite Hc, !app_nil_r. Qed.

Lemma grown_trans hs p hs1 p1 hs2 p2 : grown hs p hs1 p1 -> grown hs1 p1 hs2 p2 -> grown hs p hs2 p2.
Proof.
  intros (a & n & -> & Hc & Hn) (a' & n' & -> & Hc' & Hn'). exists (a ++ a'), (n ++ n').
  rewrite Hc', Hc, !app_assoc. split_and!; [done..|]. by apply Forall_app.
Qed.

Lemma chained_mid hs p b h raw c p' b' :
  mid hs p b -> sent raw h -> 0 < height h /\ fits h -> rooted (hs ++ [h]) -> repr (hs ++ [h]) c ->
  chained (Tx := Tx) h raw (with_chain p c) b = Some (p', b') ->
  mid (hs ++ [h]) p' b' /\ control p' = control p.
Proof.
  intros Hm Hs Hh Hroot Hr. unfold chained, expect_chain.
  set (q := with_requests _ _). destruct (Pipeline.on_chain _ q) as [[[[sc|]|e] q']|] eqn:E; [|done..].
  intros [= <- <-]. apply on_chain_inv in E as [E ->]. split; [|done].
  assert (repr (hs ++ [h]) (chain q')) as Hr'.
  { pose proof (keeps_score_at preimage (height h) _ _ (repr_wire _ (store q) c Hr)) as Hk.
    change (chain q) with c in E. by rewrite E in Hk. }
  change (with_chain q (chain q')) with (with_chain (with_requests p (reorg_requested q)) (chain q')).
  apply mid_push; [by apply mid_requests|done..].
Qed.

Lemma drain_mid fuel k hs p b p' b' :
  mid hs p b -> drain_buffer (Tx := Tx) clock fuel k p b = Some (p', b') ->
  exists hs', mid hs' p' b' /\ grown hs p hs' p'.
Proof.
  revert k hs p b. induction fuel as [|fuel IH]; intros k hs p b Hm; cbn [drain_buffer].
  { intros [= <- <-]. exists hs. split; [done|by apply grown_same]. }
  destruct (lru_peek k _) as [[h raw]|] eqn:Ek.
  2: { intros [= <- <-]. exists hs. split; [done|by apply grown_same]. }
  set (q := with_buffer p _).
  assert (mid hs (tick q) b) as Hq.
  { destruct Hm. split; try done. intros k' x raw' Hx. apply (mid_buffer0 k'). exact (peek_pop_sub k k' (buffer p) _ Hx). }
  pose proof (mid_buffer _ _ _ Hm k h raw Ek) as Hs.
  destruct (Pipeline.on_chain _ (tick q)) as [[r q']|] eqn:E; [|done].
  pose proof (append_mid _ _ _ _ _ _ _ _ Hq Hs E) as [Eq Hr]. rewrite Eq in *. cbn [chain with_chain] in Hr.
  destruct r as [[|fork]|e]; cycle 1.
  { intros [= <- <-]. exists hs. split; [apply Hr|by apply grown_same]. }
  { intros [= <- <-]. exists hs. split; [done|by apply grown_same]. }
  destruct (chained _ _ _ b) as [[q2 b2]|] eqn:Ec; [|done]. intros Hd.
  destruct (chained_mid _ _ _ _ _ _ _ _ Hq Hs (proj1 (proj2 Hr)) (proj2 (proj2 Hr)) (proj1 Hr) Ec) as [Hm2 Hc2].
  destruct (IH _ _ _ _ (mid_tracker _ _ _ _ Hm2) Hd) as (hs' & Hm' & Hg). exists hs'. split; [done|].
  eapply grown_trans; [|exact Hg]. exists [h], []. by rewrite app_nil_r.
Qed.

(** Every round of the drain takes an entry out of the buffer, so that as many rounds as
    the buffer has entries always come to the end. *)
Lemma pop_shorter {V} k (v : V) (c : C V) :
  lru_peek k c = Some v -> (length (lru_iter (lru_pop k c)) < length (lru_iter c))%nat.
Proof.
  intros Hk. rewrite <- (length_fmap fst (lru_iter c)), <- (length_fmap fst (lru_iter (lru_pop k c))).
  change (length (k :: (lru_iter (lru_pop k c)).*1) <= length (lru_iter c).*1)%nat.
  apply submseteq_length, NoDup_submseteq.
  - apply NoDup_cons. split; [|apply iter_keys]. intros ([k' w] & -> & Hin)%list_elem_of_fmap.
    apply iter_peek in Hin. cbn in Hin. by rewrite peek_pop_eq in Hin.
  - intros k' [->|Hin]%elem_of_cons; [apply list_elem_of_fmap; exists (k, v); by rewrite iter_peek|].
    apply list_elem_of_fmap in Hin as ([k0 w] & -> & Hin%iter_peek). cbn.
    assert (k0 <> k) by (intros ->; by rewrite peek_pop_eq in Hin). rewrite peek_pop_ne in Hin by done.
    apply list_elem_of_fmap. exists (k0, w). by rewrite iter_peek.
Qed.

Lemma chained_buffer h raw p b p' b' : chained (Tx := Tx) h raw p b = Some (p', b') -> buffer p' = buffer p.
Proof.
  unfold chained, expect_chain. destruct (Pipeline.on_chain _ _) as [[[[sc|]|e] q']|] eqn:E; [|done..].
  intros [= <- _]. by apply on_chain_inv in E as [_ ->].
Qed.

Lemma drain_enough fuel fuel' k p b :
  (length (lru_iter (buffer p)) <= fuel)%nat -> (fuel <= fuel')%nat ->
  drain_buffer (Tx := Tx) clock fuel' k p b = drain_buffer (Tx := Tx) clock fuel k p b.
Proof.
  revert fuel' k p b. induction fuel as [|fuel IH]; intros fuel' k p b Hlen Hle.
  - destruct fuel' as [|fuel']; [done|]. cbn [drain_buffer]. destruct (lru_peek k _) as [v|] eqn:Ek; [|done].
    apply iter_peek in Ek. destruct (lru_iter _); [by apply not_elem_of_nil in Ek|]. cbn in Hlen. lia.
  - destruct fuel' as [|fuel']; [lia|]. cbn [drain_buffer].
    destruct (lru_peek k _) as [[h raw]|] eqn:Ek; [|done]. pose proof (pop_shorter _ _ _ Ek).
    destruct (Pipeline.on_chain _ _) as [[[[|]|] q]|] eqn:E; try done.
    apply on_chain_inv in E as [_ Eq]. destruct (chained _ _ _ _) as [[q2 b2]|] eqn:Ec; [|done].
    apply chained_buffer in Ec. rewrite Eq in Ec. apply IH; [|lia]. cbn. rewrite Ec. cbn. unfold RawHeader in *. lia.
Qed.

(** ** Forks *)

Lemma sent_unique raw raw' x y :
  sent raw x -> sent raw' y -> id_bytes (header_id x) = id_bytes (header_id y) -> x = y.
Proof.
  intros (Hx & _ & Hix)%genuine_of (Hy & _ & Hiy)%genuine_of He. apply (genuine_inj preimage); [done..|].
  by apply id_bytes_inj.
Qed.

(** A body written under its own id takes none away. *)
Lemma body_insert t x raw h m :
  bodies_ok t -> sent raw h -> primary m = <[(101, id_bytes (header_id h)) := raw]> (primary t) ->
  body_stored t x -> body_stored m x.
Proof.
  intros Hb Hs Hm (r & Hr & Hp). unfold body_stored. rewrite Hm.
  destruct (decide (id_bytes (header_id h) = id_bytes (header_id x))) as [He|Hne].
  - exists raw. rewrite He, lookup_insert_eq. split; [done|].
    destruct (Hb _ _ Hr) as (y & Hy & Hi). assert (y = x) as -> by (destruct Hy; congruence).
    rewrite (sent_unique raw r h x Hs Hy He) in Hs. apply Hs.
  - exists r. rewrite lookup_insert_ne by congruence. done.
Qed.

Lemma bodies_insert t raw h m :
  bodies_ok t -> sent raw h -> primary m = <[(101, id_bytes (header_id h)) := raw]> (primary t) -> bodies_ok m.
Proof.
  intros Hb Hs Hm i r. rewrite Hm.
  destruct (decide (id_bytes (header_id h) = i)) as [<-|Hne].
  - rewrite lookup_insert_eq. intros [= <-]. eauto.
  - rewrite lookup_insert_ne by congruence. apply Hb.
Qed.

(** A fork header leaves what is stored: its best-chain slot is taken only when empty. *)
Lemma put_fork_store (p : Pipeline) h raw k score :
  bodies_ok (tables (store p)) -> sent raw h ->
  let p' := put_fork (id_bytes (header_id h)) k score raw p in
  bodies_ok (tables (store p')) /\ (forall x, in_store (tables (store p)) x -> in_store (tables (store p')) x).
Proof.
  intros Hb Hs. cbv zeta. unfold put_fork, Store.put_header. set (t := tables (store p)) in *. cbv zeta.
  set (t' := match _ !! k with Some _ => _ | None => _ end).
  assert (primary t' = <[(101, id_bytes (header_id h)) := raw]> (primary t)) as Ep.
  { unfold t'. by destruct (_ !! k). }
  assert (forall k' i, best_chain t !! k' = Some i -> best_chain t' !! k' = Some i) as Eb.
  { intros k' i Hi. unfold t'. cbn. destruct (best_chain t !! k) eqn:Ek; cbn; [done|].
    rewrite lookup_insert_ne; [done|]. congruence. }
  assert (forall i, is_Some (header_scores t !! i) -> is_Some (header_scores t' !! i)) as Esc.
  { intros i Hi. assert (header_scores t' = <[id_bytes (header_id h) := score]> (header_scores t)) as ->
      by (unfold t'; by destruct (_ !! k)).
    destruct (decide (id_bytes (header_id h) = i)) as [<-|]; [by rewrite lookup_insert_eq|by rewrite lookup_insert_ne]. }
  cbn [store with_store tables]. split; [by apply (bodies_insert t raw h)|].
  intros x (Hbest & Hbody & Hscore). split; [by apply Eb|]. split; [by apply (body_insert t x raw h)|by apply Esc].
Qed.

Lemma put_fork_mid hs p b h raw k score :
  mid hs p b -> sent raw h -> mid hs (put_fork (id_bytes (header_id h)) k score raw p) b.
Proof.
  intros Hm Hs. pose proof Hm as []. destruct (put_fork_store p h raw k score mid_bodies0 Hs) as [Hb Hin].
  split; try done. intros x Hx. destruct (mid_rows0 x Hx) as [?|]; [|by right]. left. by apply Hin.
Qed.

Lemma fork_walk_mid fuel first rest hs p b r p' :
  mid hs p b -> Forall (fun hr : RawHeader => sent hr.2 hr.1) (first :: rest) ->
  (length rest + fuel <= 1000)%nat ->
  fork_walk (Tx := Tx) fuel first rest p = Some (r, p') ->
  mid hs p' b /\ control p' = control p /\ (forall fork branch, r = Some (fork, branch) -> branch_ok fork branch).
Proof.
  revert first rest p. induction fuel as [|fuel IH]; intros first rest p Hm Hall Hlen; cbn [fork_walk].
  { intros [= <- <-]. done. }
  destruct (contains _ _) eqn:Ec.
  - destruct (query_chain _ p) as [[a q]|] eqn:E; [|done]. intros [= <- <-].
    pose proof (query_chain_keeps _ _ _ _ _ _ (keeps_reads preimage _ (reads_header_at _)) Hm E) as [Hq Eq].
    split; [done|]. split; [by rewrite Eq|]. intros fork branch Hr. case_bool_decide as Ha; [|done].
    injection Hr as <- <-. destruct a as [x|]; [|done].
    assert (x ∈ hs /\ height x = sub_u32 (height first.1) 1) as [Hx Hk].
    { unfold query_chain in E. destruct (Pipeline.on_chain _ p) as [[[o|e] q']|] eqn:E'; [|done..].
      injection E as -> ->. apply on_chain_inv in E' as [E' _].
      refine (header_at_sound preimage hs _ _ x (repr_wire _ (store p) _ (mid_repr _ _ _ Hm)) _). by rewrite E'. }
    rewrite <- Hk. pose proof (mid_heights _ _ _ Hm) as Hh. rewrite Forall_forall in Hh.
    destruct (Hh x Hx) as (? & Hf & _). unfold fits in Hf. split; [done|cbn; lia|lia].
  - destruct (Store.get _ _ _) as [bytes|] eqn:Eg; [|intros [= <- <-]; done].
    destruct (header_parse bytes) as [h|] eqn:Ep; [|intros [= <- <-]; done].
    intros Hw. apply (IH _ _ _ Hm) in Hw; [done| |cbn; lia]. constructor; [|done]. cbn.
    destruct (mid_bodies _ _ _ Hm _ _ Eg) as (y & [Hy Hf] & _). split; [done|]. congruence.
Qed.

(** The branch ends with what the walk came from. *)
Lemma fork_walk_suffix fuel first rest p r p' :
  fork_walk (Tx := Tx) fuel first rest p = Some (r, p') ->
  store p' = store p /\ (forall fork branch, r = Some (fork, branch) -> (first :: rest) `suffix_of` branch).
Proof.
  revert first rest p. induction fuel as [|fuel IH]; intros first rest p; cbn [fork_walk]; [by intros [= <- <-]|].
  destruct (contains _ _).
  - unfold query_chain. destruct (Pipeline.on_chain _ p) as [[[a|e] q]|] eqn:E; [|done..]. intros [= <- <-].
    apply on_chain_inv in E as [_ ->]. split; [done|]. intros fork branch. case_bool_decide; [|done]. by intros [= <- <-].
  - destruct (Store.get _ _ _) as [bytes|]; [|by intros [= <- <-]].
    destruct (header_parse bytes) as [h|]; [|by intros [= <- <-]]. intros Hw%IH. destruct Hw as [? Hw].
    split; [done|]. intros fork branch Hr. by eapply suffix_cons_l, Hw.
Qed.

Lemma mid_set_pending hs p b fork branch : mid hs p b -> branch_ok fork branch -> mid hs p (set_pending (fork, branch) b).
Proof. intros [] Hb. split; try done. cbn. by intros ? ? [= <- <-]. Qed.

Lemma buffer_mid hs p b h raw p' b' :
  mid hs p b -> sent raw h -> buffer_header h raw p b = (p', b') -> mid hs p' b' /\ control p' = control p.
Proof.
  intros Hm Hs. unfold buffer_header. destruct (lru_push _ _ _) as [ev cache] eqn:E. intros [= <- <-].
  split; [|done]. destruct Hm. split; cbn [chain store buffer with_buffer]; try (by destruct ev as [[? [? ?]]|]).
  intros k x r Hk. destruct (decide (k = parent_id h)) as [->|Hne].
  - pose proof (push_new _ (parent_id h) (h, raw) (buffer p)) as Hp. rewrite E in Hp. cbn in Hp.
    rewrite Hp in Hk. by injection Hk as <- <-.
  - apply (mid_buffer0 k). apply (push_keeps _ (parent_id h) k (h, raw)); [done|]. by rewrite E.
Qed.

Lemma forked_mid hs p b h raw k p' b' :
  mid hs p b -> sent raw h -> 0 <= k -> k + 1000 <= U32_MAX ->
  on_forked (Tx := Tx) h raw k p b = Some (p', b') -> mid hs p' b' /\ control p' = control p.
Proof.
  intros Hm Hs Hk Hk'. unfold on_forked. set (q := with_requests p _).
  assert (mid hs q b) as Hq by (by apply mid_requests).
  destruct (query_chain (score_at k) q) as [[ps q1]|] eqn:E1; [|done].
  apply (query_chain_keeps _ _ _ _ _ _ (keeps_score_at preimage k) Hq) in E1 as [Hq1 Eq1].
  set (q2 := put_fork _ _ _ _ q1).
  assert (mid hs q2 b) as Hq2 by (by apply put_fork_mid).
  destruct (query_chain cumulative_score q2) as [[best q3]|] eqn:E3; [|done].
  apply (query_chain_keeps _ _ _ _ _ _ keeps_cumulative Hq2) in E3 as [Hq3 Eq3].
  intros [= <- <-]. split; [|by rewrite Eq3; unfold q2; cbn; rewrite Eq1].
  destruct (_ && _); [|done]. apply mid_set_pending; [done|].
  split; [by apply Forall_singleton|cbn; lia|lia].
Qed.

Lemma orphan_mid hs p b h raw p' b' :
  mid hs p b -> sent raw h -> on_orphan (Tx := Tx) instant h raw p b = Some (p', b') ->
  mid hs p' b' /\ grown hs p hs p'.
Proof.
  intros Hm Hs. unfold on_orphan.
  assert (forall q : Pipeline, mid hs q b -> grown hs p hs q ->
    Some (buffer_header h raw q b) = Some (p', b') -> mid hs p' b' /\ grown hs p hs p') as Hbuf.
  { intros q Hq Hg [= Eb]. apply (buffer_mid _ _ _ _ _ _ _ Hq Hs) in Eb as [? Ec]. split; [done|].
    eapply grown_trans; [exact Hg|by apply grown_same]. }
  assert (forall r : bool * ParentRequests,
    Some (buffer_header h raw (let p := tick (with_requests p r.2) in
      if r.1 then send_control (NeedModifier HEADER_TYPE_ID (id_bytes (parent_id h))) p else p) b) = Some (p', b') ->
    mid hs p' b' /\ grown hs p hs p') as Hask.
  { intros [ask r]. cbn [fst snd]. assert (mid hs (tick (with_requests p r)) b) by (by apply mid_tick, mid_requests).
    destruct ask; apply Hbuf; try done.
    - by apply mid_control.
    - exists [], [NeedModifier HEADER_TYPE_ID (id_bytes (parent_id h))]. rewrite app_nil_r. split_and!; [done..|].
      apply Forall_singleton. by eexists _, _.
    - by apply grown_same. }
  destruct (header_score _ _) as [[|x bytes]|]; try (destruct (should_request _ _ _) as [ask r]; exact (Hask (ask, r))).
  set (q := put_fork _ _ _ _ p). assert (mid hs q b) as Hq by (by apply put_fork_mid).
  destruct (query_chain cumulative_score q) as [[best q1]|] eqn:E1; [|done].
  apply (query_chain_keeps _ _ _ _ _ _ keeps_cumulative Hq) in E1 as [Hq1 Eq1].
  assert (control q1 = control p) as Ec by (by rewrite Eq1).
  destruct (_ && _); [|intros [= <- <-]; split; [done|by apply grown_same]].
  unfold assemble_fork_branch. destruct (fork_walk _ _ _ q1) as [[r q2]|] eqn:Ew; [|done].
  apply (fork_walk_mid _ _ _ hs _ b) in Ew as (Hq2 & Ec2 & Hbr); [|done|by apply Forall_singleton|unfold FORK_WALK_STEPS; cbn [length]; lia].
  assert (grown hs p hs q2) by (apply grown_same; congruence).
  destruct r as [[fork branch]|]; intros [= <- <-]; split; try done.
  apply mid_set_pending; [done|by apply Hbr].
Qed.

Lemma step_mid hs p b h raw p' b' :
  mid hs p b -> sent raw h -> step_header (Tx := Tx) clock instant (p, b) (h, raw) = Some (p', b') ->
  exists hs', mid hs' p' b' /\ grown hs p hs' p'.
Proof.
  intros Hm Hs. unfold step_header. destruct (contains _ _).
  { intros [= <- <-]. exists hs. split; [done|by apply grown_same]. }
  set (q := tick (with_tracker p _)). assert (mid hs q b) as Hq by (by apply mid_tick, mid_tracker).
  destruct (Pipeline.on_chain _ q) as [[r q1]|] eqn:E; [|done].
  pose proof (append_mid _ _ _ _ _ _ _ _ Hq Hs E) as [Eq Hr]. rewrite Eq in *. cbn [chain with_chain] in Hr.
  assert (forall q2, mid hs (with_chain q (chain q1)) b -> buffer_header h raw (with_chain q (chain q1)) b = q2 ->
    Some q2 = Some (p', b') -> exists hs', mid hs' p' b' /\ grown hs p hs' p') as Hbuf.
  { intros q2 Hq1 Eb [= ->]. exists hs. apply (buffer_mid _ _ _ _ _ _ _ Hq1 Hs) in Eb as [? Ec].
    split; [done|by apply grown_same]. }
  destruct r as [[|k]|e].
  - unfold on_extended. destruct (chained _ _ _ b) as [[q2 b2]|] eqn:Ec; [|done]. intros Hd.
    destruct (chained_mid _ _ _ _ _ _ _ _ Hq Hs (proj1 (proj2 Hr)) (proj2 (proj2 Hr)) (proj1 Hr) Ec) as [Hm2 Hc2].
    destruct (drain_mid _ _ _ _ _ _ _ Hm2 Hd) as (hs' & Hm' & Hg). exists hs'. split; [done|].
    eapply grown_trans; [|exact Hg]. exists [h], []. by rewrite app_nil_r.
  - destruct Hr as (Hr & Hk & Hk'). intros Hf. exists hs.
    apply (forked_mid _ _ _ _ _ _ _ _ Hr Hs Hk Hk') in Hf as [? Hc]. split; [done|by apply grown_same].
  - destruct e; try (intros [= <- <-]; exists hs; split; [done|by apply grown_same]);
      try (by eapply Hbuf).
    intros Hf. exists hs. apply (orphan_mid _ _ _ _ _ _ _ Hr Hs) in Hf as [? Hg].
    split; [done|]. eapply grown_trans; [|exact Hg]. by apply grown_same.
Qed.

Lemma steps_mid hrs hs p b p' b' :
  mid hs p b -> Forall (fun hr : RawHeader => sent hr.2 hr.1) hrs ->
  step_headers (Tx := Tx) clock instant hrs (p, b) = Some (p', b') -> exists hs', mid hs' p' b' /\ grown hs p hs' p'.
Proof.
  intros Hm Hall. revert hs p b Hm. induction Hall as [|[h raw] hrs Hs _ IH]; intros hs p b Hm; cbn [step_headers].
  { intros [= <- <-]. exists hs. split; [done|by apply grown_same]. }
  destruct (step_header _ _ _ _) as [[q b1]|] eqn:E; [|done]. intros Hd.
  destruct (step_mid _ _ _ _ _ _ _ Hm Hs E) as (hs1 & Hm1 & Hg1).
  destruct (IH _ _ _ Hm1 Hd) as (hs' & Hm' & Hg'). exists hs'. split; [done|by eapply grown_trans].
Qed.

(** ** Writing the rows *)

Definition entries_in (es : list ModifierBatchEntry) (hs : list Header) : Prop :=
  forall e, e ∈ es -> exists x raw sc, e = header_entry x raw sc /\ sent raw x /\ x ∈ hs.

Lemma entries_scored es hs : entries_in es hs -> Forall scored es.
Proof. intros Hes. apply Forall_forall. intros e (x & raw & sc & -> & _)%Hes _. by eexists. Qed.

Lemma latest_prop {A} (says : ModifierBatchEntry -> option A) (P : A -> Prop) es old :
  (forall e b, e ∈ es -> says e = Some b -> P b) ->
  (exists a, old = Some a /\ P a) \/ (exists e, e ∈ es /\ is_Some (says e)) ->
  exists a, latest says es old = Some a /\ P a.
Proof.
  intros Hall Hsome. unfold latest. destruct (last (omap says es)) as [b|] eqn:El.
  - apply last_Some_elem_of, list_elem_of_omap in El as (e & He & Hb). eauto.
  - destruct Hsome as [|(e & He & [b Hb])]; [done|]. apply last_None in El.
    assert (b ∈ omap says es) as Hin by (apply list_elem_of_omap; eauto).
    rewrite El in Hin. by apply not_elem_of_nil in Hin.
Qed.

(** A batch of rows of the chain [hs] leaves every row of it that was stored or queued. *)
Lemma put_rows es hs s :
  linked hs -> Forall (fun x => 0 < height x) hs -> entries_in es hs -> bodies_ok (tables s) ->
  bodies_ok (tables (put_batch es s).2) /\
  (forall x, x ∈ hs -> in_store (tables s) x \/ queued es x -> in_store (tables (put_batch es s).2) x).
Proof.
  intros Hl Hpos Hes Hb. rewrite Forall_forall in Hpos.
  rewrite put_batch_tables by (by eapply entries_scored). split.
  - intros i raw. rewrite entries_primary. intros [(e & He & Hd)|Hold]%latest_cases; [|by apply Hb].
    destruct (Hes e He) as (x & raw' & sc & -> & Hs & _). unfold data_of in Hd. case_bool_decide as Hc; [|done].
    injection Hd as <-. exists x. split; [done|]. by destruct Hc.
  - intros x Hx Hrow. split; [|split].
    + rewrite entries_best by (by eapply entries_scored).
      destruct (latest_prop (id_of 101 (height x)) (eq (id_bytes (header_id x))) es (best_chain (tables s) !! height x))
        as (a & -> & ->); [| |done].
      * intros e i He Hid. destruct (Hes e He) as (y & raw & sc & -> & _ & Hy). unfold id_of in Hid.
        case_bool_decide as Hc; [|done]. injection Hid as <-. destruct Hc as (_ & Hh & _).
        by rewrite (linked_unique hs x y Hl Hx Hy).
      * destruct Hrow as [[Hbest _]|(raw & sc & Hin & _)]; [left; eauto|]. right. eexists. split; [exact Hin|].
        unfold id_of. rewrite bool_decide_true by (cbn; auto). by eexists.
    + destruct (latest_prop (data_of 101 (id_bytes (header_id x))) (fun r => header_parse r = Some x) es
        (primary (tables s) !! (101, id_bytes (header_id x)))) as (r & Hr & Hp).
      * intros e r He Hd. destruct (Hes e He) as (y & raw & sc & -> & Hs & Hy). unfold data_of in Hd.
        case_bool_decide as Hc; [|done]. injection Hd as <-. destruct Hc as [_ Hc]. cbn in Hc.
        destruct Hrow as [(_ & (r0 & Hr0 & Hp0) & _)|(raw0 & sc0 & _ & Hs0)].
        -- destruct (Hb _ _ Hr0) as (z & Hz & _). assert (z = x) as -> by (destruct Hz; congruence).
           rewrite <- (sent_unique raw r0 y x Hs Hz Hc). apply Hs.
        -- rewrite <- (sent_unique raw raw0 y x Hs Hs0 Hc). apply Hs.
      * destruct Hrow as [(_ & (r0 & Hr0 & Hp0) & _)|(raw & sc & Hin & _)]; [left; eauto|]. right. eexists. split; [exact Hin|].
        unfold data_of. rewrite bool_decide_true by (cbn; auto). by eexists.
      * exists r. by rewrite entries_primary.
    + rewrite entries_scores by (by eapply entries_scored).
      destruct (latest_prop (score_of (id_bytes (header_id x))) (fun _ => True) es
        (header_scores (tables s) !! id_bytes (header_id x))) as (a & -> & _); [done| |by eexists].
      destruct Hrow as [(_ & _ & [sc Hsc])|(raw & sc & Hin & _)]; [left; eauto|]. right. eexists. split; [exact Hin|].
      unfold score_of. rewrite bool_decide_true by (cbn; auto). by eexists.
Qed.

(** ** The reorganization *)

Lemma on_chain_repr {A} (m : M C A) hs p r p' :
  keeps m -> repr hs (chain p) -> on_chain m p = Some (r, p') -> repr hs (chain p') /\ p' = with_chain p (chain p').
Proof.
  intros Hk Hr Ho%on_chain_inv. destruct Ho as [Ho ->]. split; [|done]. cbn.
  pose proof (Hk hs _ (repr_wire hs (store p) _ Hr)) as Hr'. by rewrite Ho in Hr'.
Qed.

Lemma branch_entries_spec hs branch p es p' :
  repr hs (chain p) -> branch_entries (Tx := Tx) branch p = Some (es, p') ->
  repr hs (chain p') /\ p' = with_chain p (chain p') /\
  (forall e, e ∈ es -> exists x raw sc, e = header_entry x raw sc /\ (x, raw) ∈ branch) /\
  (forall x raw, (x, raw) ∈ branch -> exists sc, header_entry x raw sc ∈ es).
Proof.
  revert p es. induction branch as [|[h raw] branch IH]; intros p es Hr; cbn [branch_entries].
  { intros [= <- <-]. split_and!; [done|by destruct p|by intros e ?%not_elem_of_nil|by intros x r ?%not_elem_of_nil]. }
  unfold expect_chain. destruct (Pipeline.on_chain _ p) as [[[[sc|]|e] q]|] eqn:E; [|done..].
  apply (on_chain_repr _ hs) in E as [Hq Eq]; [|apply keeps_score_at|done].
  destruct (branch_entries branch q) as [[es' q']|] eqn:E'; [|done]. intros [= <- <-].
  destruct (IH _ _ Hq E') as (Hq' & Eq' & Hin & Hout). split_and!; [done|by rewrite Eq', Eq| |].
  - intros e [->|He]%elem_of_cons; [exists h, raw, sc; split; [done|by left]|].
    destruct (Hin e He) as (x & r & s & -> & Hx). exists x, r, s. split; [done|by right].
  - intros x r [[= -> ->]|Hx]%elem_of_cons; [exists sc; by left|].
    destruct (Hout x r Hx) as [s Hs]. exists s. by right.
Qed.

(** Everything after a prefix is above its last header. *)
Lemma above_prefix pre post t x : linked (pre ++ post) -> last pre = Some t -> x ∈ post -> height t < height x.
Proof.
  intros Hl Ht [j Hj]%list_elem_of_lookup. rewrite last_lookup in Ht. pose proof (lookup_lt_Some _ _ _ Ht) as Hlt.
  destruct pre as [|x0 pre']; [done|]. set (pre := x0 :: pre') in *.
  assert ((pre ++ post) !! pred (length pre) = Some t) as H1' by (by rewrite lookup_app_l).
  assert ((pre ++ post) !! (length pre + j)%nat = Some x) as H2'.
  { rewrite lookup_app_r by lia. by replace (length pre + j - length pre)%nat with j by lia. }
  rewrite (linked_height _ x0 _ _ Hl eq_refl H1'), (linked_height _ x0 _ _ Hl eq_refl H2'). lia.
Qed.

Lemma height_of_repr hs c c' : repr hs c -> repr hs c' -> chain_height c = chain_height c'.
Proof.
  intros Hr Hr'. destruct (last hs) as [t|] eqn:Et.
  - by rewrite (chain_height_repr _ _ _ _ Hr Et), (chain_height_repr _ _ _ _ Hr' Et).
  - apply last_None in Et as ->. by rewrite (chain_height_nil _ _ Hr), (chain_height_nil _ _ Hr').
Qed.

(** The state after a reorganization: the old part may still be queued, the new branch
    is stored. *)
Record reorged (es : list ModifierBatchEntry) (hs : list Header) (fork : Z) (pre branch : list Header) (p : Pipeline) : Prop := {
  re_prefix : exists post t, hs = pre ++ post /\ last pre = Some t /\ height t = fork;
  re_branch : branch <> [];
  re_repr : repr (pre ++ branch) (chain p);
  re_heights : Forall (fun x => 0 < height x /\ fits x /\ origin x) (pre ++ branch);
  re_rooted : rooted (pre ++ branch);
  re_rows : forall x, x ∈ pre -> in_store (tables (store p)) x \/ queued es x;
  re_stored : forall x, x ∈ branch -> in_store (tables (store p)) x;
  re_bodies : bodies_ok (tables (store p));
  re_buffer : buffer_ok (buffer p);
}.

Lemma reorg_done_spec hs p b fork old pre post t branch p' r c :
  mid hs p b -> branch_ok fork branch -> hs = pre ++ post -> last pre = Some t -> height t = fork ->
  branch <> [] -> repr (pre ++ branch.*1) c ->
  reorg_done (Tx := Tx) fork old branch (with_chain p c) = Some (r, p') ->
  r = Some fork /\ reorged (store_entries b) hs fork pre branch.*1 p' /\
  control p' = control p ++ [ReorgTo fork old (chain_height c)] /\ chain_height (chain p') = chain_height c.
Proof.
  intros Hm Hbr Ehs Ht Hfork Hne Hr. unfold reorg_done, query_chain.
  destruct (Pipeline.on_chain tip _) as [[[t'|e] q]|] eqn:E; [|done..].
  apply (on_chain_repr _ (pre ++ branch.*1)) in E as [Hq Eq]; [|apply keeps_reads, reads_tip|done].
  destruct (branch_entries branch q) as [[es q']|] eqn:Ee; [|done]. intros [= <- <-].
  apply (branch_entries_spec (pre ++ branch.*1)) in Ee as (Hq' & Eq' & Hin & Hout); [|done].
  pose proof (branch_sent _ _ Hbr) as Hsent. rewrite Forall_forall in Hsent.
  assert (store q' = store p) as Es by (by rewrite Eq', Eq).
  pose proof (mid_heights _ _ _ Hm) as Hh. rewrite Ehs in Hh. apply Forall_app in Hh as [Hh _].
  assert (rooted (pre ++ branch.*1)) as Hroot.
  { pose proof (mid_rooted _ _ _ Hm) as Hroot. rewrite Ehs in Hroot. by destruct pre. }
  assert (Forall (fun x => 0 < height x /\ fits x /\ origin x) (pre ++ branch.*1)) as Hall.
  { assert (Forall origin (pre ++ branch.*1)) as Horigin.
    { apply Forall_app. split; [eapply Forall_impl; [exact Hh|]; by intros x (_ & _ & ?)|].
      apply Forall_fmap, Forall_forall. intros [x raw] Hx. apply (Hsent _ Hx). }
    pose proof (low _ (repr_linked _ _ _ Hr) Hroot Horigin) as Hlow. rewrite Forall_forall in Hlow, Horigin, Hh.
    apply Forall_forall. intros x Hx. split; [|split; [by apply Hlow|by apply Horigin]].
    apply elem_of_app in Hx as [Hx|Hx]; [by apply Hh|].
    destruct (Hh t) as [Hpt _]; [by apply last_Some_elem_of|].
    enough (height t < height x) by lia. exact (above_prefix _ _ _ _ (repr_linked _ _ _ Hr) Ht Hx). }
  destruct (put_rows es (pre ++ branch.*1) (store p)) as [Hb Hrows]; [apply Hr| | |apply Hm|].
  { eapply Forall_impl; [exact Hall|]. by intros x [? _]. }
  { intros e (x & raw & sc & -> & Hx)%Hin. exists x, raw, sc. split_and!; [done|by apply (Hsent _ Hx)|].
    apply elem_of_app. right. by apply (list_elem_of_fmap_2 fst) in Hx. }
  split; [done|]. split; [|split].
  2: { cbn [control send_control with_store]. by rewrite Eq', Eq. }
  2: { by apply (height_of_repr (pre ++ branch.*1)). }
  split; cbn [chain store buffer with_store send_control tables]; try done; rewrite ?Es.
  - by exists post, t.
  - by intros ->%fmap_nil_inv.
  - intros x Hx. destruct (mid_rows _ _ _ Hm x) as [?|?]; [rewrite Ehs; apply elem_of_app; by left| |by right].
    left. apply Hrows; [apply elem_of_app; by left|by left].
  - intros x Hx. apply list_elem_of_fmap in Hx as ([x' raw] & -> & Hx). apply Hrows.
    + apply elem_of_app. right. by apply (list_elem_of_fmap_2 fst) in Hx.
    + right. destruct (Hout _ _ Hx) as [sc Hsc]. exists raw, sc. split; [done|by apply (Hsent _ Hx)].
  - done.
  - rewrite Eq', Eq. apply Hm.
Qed.

Lemma execute_reorg_spec hs p b r p' :
  mid hs p b -> execute_reorg (Tx := Tx) clock (pending_reorg b) p = Some (r, p') ->
  match r with
  | None => mid hs p' b /\ control p' = control p
  | Some fork => exists pre raws branch, pending_reorg b = Some (fork, raws) /\ branch = raws.*1 /\
      reorged (store_entries b) hs fork pre branch p' /\
      control p' = control p ++ [ReorgTo fork (chain_height (chain p)) (chain_height (chain p'))]
  end.
Proof.
  intros Hm. unfold execute_reorg. destruct (pending_reorg b) as [[fork branch]|] eqn:Ep.
  2: { intros [= <- <-]. done. }
  pose proof (mid_pending _ _ _ Hm fork branch Ep) as Hbr.
  destruct (query_chain tip p) as [[t q]|] eqn:Et; [|done].
  apply (query_chain_keeps _ _ _ _ _ _ (keeps_reads preimage _ reads_tip) Hm) in Et as [Hq Eq].
  set (q1 := skip_ticks _ q). assert (mid hs q1 b) as Hq1 by (by destruct Hq; split).
  destruct (Pipeline.on_chain _ q1) as [[o q2]|] eqn:Eo; [|done].
  apply on_chain_inv in Eo as [Eo Eq2]. destruct (branch_fork _ _ Hbr) as [Hf0 Hf1].
  assert (fork + Z.of_nat (length branch.*1) <= U32_MAX) as Hlen.
  { rewrite length_fmap. pose proof (branch_short _ _ Hbr). unfold RawHeader in *. lia. }
  assert (Forall genuine branch.*1) as Hgen.
  { apply Forall_fmap, (Forall_impl _ _ _ (branch_sent _ _ Hbr)). intros [y raw] Hy. by apply genuine_of in Hy as (? & _). }
  pose proof (reorg_deep_spec preimage (fun i => clock (ticks q + i)) fork branch.*1 true hs _
    (repr_wire hs (store q1) _ (mid_repr _ _ _ Hq1)) ltac:(int_unfold; lia) Hlen Hgen ltac:(lia)) as Hr.
  rewrite Eo in Hr. cbn [fst snd] in Hr.
  assert (control q1 = control p) as Ec by (unfold q1; cbn; by rewrite Eq).
  destruct o as [demoted|e]; cbn in Hr.
  - destruct Hr as (pre & post & x & Ehs & Ht & Hx & Hr & _ & _ & Hne & _).
    rewrite Eq2. intros Hd.
    destruct (reorg_done_spec hs q1 b fork (chain_height (chain p)) pre post x branch p' r (chain q2) Hq1 Hbr Ehs Ht Hx) as (-> & Hre & Hc & Hk);
      [by intros ->|done|exact Hd|].
    exists pre, branch, branch.*1. split_and!; [done..|]. by rewrite Hc, Ec, Hk.
  - intros [= <- <-]. rewrite Eq2. split; [|by cbn; rewrite <- Ec].
    apply mid_chain; [done|]. apply Hr.
Qed.

(** ** The end of a batch *)

Lemma purge_buffer_ok (p : Pipeline) : buffer_ok (buffer p) -> buffer_ok (buffer (purge_buffer p)).
Proof.
  intros Hb. unfold purge_buffer. cbv zeta. cbn [buffer with_buffer]. set (ks := fmap fst _). clearbody ks.
  revert Hb. generalize (buffer p) as cache. induction ks as [|k ks IH]; intros cache Hb; [done|]. cbn [foldl].
  apply IH. intros k' x raw Hx. apply (Hb k'). exact (peek_pop_sub k k' cache _ Hx).
Qed.

Lemma demoted_store es hs (p : Pipeline) :
  entries_in es hs -> bodies_ok (tables (store p)) ->
  let p' := foldl store_demoted p es in
  bodies_ok (tables (store p')) /\ (forall x, in_store (tables (store p)) x -> in_store (tables (store p')) x) /\
  chain p' = chain p /\ buffer p' = buffer p /\ control p' = control p.
Proof.
  revert p. induction es as [|e es IH]; intros p Hes Hb; [done|]. cbn [foldl].
  destruct (Hes e) as (x & raw & sc & -> & Hs & _); [by left|].
  change (store_demoted p (header_entry x raw sc)) with (put_fork (id_bytes (header_id x)) (height x) (to_bytes_be sc) raw p).
  destruct (put_fork_store p x raw (height x) (to_bytes_be sc) Hb Hs) as [Hb' Hin'].
  set (q := put_fork _ _ _ _ p) in *.
  destruct (IH q) as (Hb2 & Hin2 & Hc & Hbuf & Hctl); [intros e He; apply Hes; by right|done|].
  split_and!; [done|by intros y Hy%Hin'; apply Hin2|done..].
Qed.

(** The last write of a batch, of rows of the chain. *)
Lemma put_best_spec hs es (p : Pipeline) :
  repr hs (chain p) -> Forall (fun x => 0 < height x /\ fits x /\ origin x) hs -> rooted hs -> entries_in es hs ->
  bodies_ok (tables (store p)) -> buffer_ok (buffer p) ->
  (forall x, x ∈ hs -> in_store (tables (store p)) x \/ queued es x) ->
  let p' := match es with [] => p | _ => with_store p (put_batch es (store p)).2 end in
  settled hs p' /\ chain p' = chain p /\ control p' = control p.
Proof.
  intros Hr Hh Hroot Hes Hb Hbuf Hrows.
  assert (forall q : Pipeline, chain q = chain p -> buffer q = buffer p -> bodies_ok (tables (store q)) ->
    (forall x, x ∈ hs -> in_store (tables (store q)) x) -> settled hs q) as Hsync.
  { intros q Ec Eb Hbq Hin. split; rewrite ?Ec, ?Eb; try done; [by left; apply Hin|by intros e ?%not_elem_of_nil]. }
  destruct (put_rows es hs (store p)) as [Hb' Hin']; [apply Hr| |done|done|].
  { eapply Forall_impl; [exact Hh|]. by intros x [? _]. }
  destruct es as [|e es']; cbv zeta.
  - split; [|done]. apply Hsync; try done. intros x Hx.
    destruct (Hrows x Hx) as [?|(? & ? & Hin & _)]; [done|by apply not_elem_of_nil in Hin].
  - split; [|done]. apply Hsync; try done. intros x Hx. apply Hin'; [done|by apply Hrows].
Qed.

Lemma linked_prefix pre post : linked (pre ++ post) -> linked pre.
Proof. intros Hl i a b Ha Hb. apply (Hl i); by apply lookup_app_l_Some. Qed.

Lemma persist_none hs p b : mid hs p b -> 
  let p' := persist None (store_entries b) (purge_buffer p) in
  settled hs p' /\ chain p' = chain p /\ control p' = control p.
Proof.
  intros []. unfold persist. apply (put_best_spec hs (store_entries b) (purge_buffer p)); try done.
  by apply purge_buffer_ok.
Qed.

Lemma persist_reorged hs p es fork pre branch :
  entries_in es hs -> linked hs -> reorged es hs fork pre branch p ->
  let p' := persist (Some fork) es (purge_buffer p) in
  settled (pre ++ branch) p' /\ chain p' = chain p /\ control p' = control p.
Proof.
  intros Hes Hl []. destruct re_prefix0 as (post & t & -> & Ht & Hfork). unfold persist. cbv zeta.
  set (best := filter _ es). set (below := filter _ es).
  assert (entries_in below (pre ++ post)) as Hlow by (intros e [_ He]%list_elem_of_filter; by apply Hes).
  destruct (demoted_store below _ (purge_buffer p) Hlow re_bodies0) as (Hb & Hin & Hc & Hbuf & Hctl).
  set (q := foldl store_demoted (purge_buffer p) below) in *.
  assert (entries_in best (pre ++ branch)) as Hbest.
  { intros e [He Hin']%list_elem_of_filter. destruct (Hes e Hin') as (x & raw & sc & -> & Hs & Hx).
    exists x, raw, sc. split_and!; [done..|]. apply elem_of_app. left. apply elem_of_app in Hx as [|Hx]; [done|].
    exfalso. pose proof (above_prefix _ _ _ _ Hl Ht Hx). cbn in He. lia. }
  destruct (put_best_spec (pre ++ branch) best q) as (Hs & Hc' & Hctl'); rewrite ?Hc, ?Hbuf; try done.
  - by apply purge_buffer_ok.
  - intros x [Hx|Hx]%elem_of_app; [|left; by apply Hin, re_stored0].
    destruct (re_rows0 x Hx) as [?|(raw & sc & Hq & Hs)]; [left; by apply Hin|]. right. exists raw, sc.
    split; [|done]. apply list_elem_of_filter. split; [|done]. cbn. rewrite <- Hfork.
    exact (linked_last pre t x (linked_prefix _ _ Hl) Ht Hx).
  - by rewrite Hc', Hctl', Hc, Hctl.
Qed.

(** ** A batch *)

Lemma parse_headers_spec raws hrs :
  parse_headers raws = Some hrs ->
  Forall (fun hr : RawHeader => header_parse hr.2 = Some hr.1 /\ verify_pow hr.1 = Return tt /\ hr.2 ∈ raws) hrs.
Proof.
  revert hrs. induction raws as [|bytes raws IH]; intros hrs; cbn [parse_headers]; [by intros [= <-]|].
  assert (forall l, parse_headers raws = Some l ->
    Forall (fun hr : RawHeader => header_parse hr.2 = Some hr.1 /\ verify_pow hr.1 = Return tt /\ hr.2 ∈ bytes :: raws) l) as Hl.
  { intros l Hp%IH. eapply Forall_impl; [exact Hp|]. intros hr (? & ? & ?). split_and!; [done..|by right]. }
  destruct (header_parse bytes) as [h|] eqn:Eh; [|apply Hl].
  destruct (verify_pow h) as [[]|e|] eqn:Ev; [|apply Hl|done].
  destruct (parse_headers raws) as [l|] eqn:El; [|done]. cbn. intros [= <-]. constructor; [|by apply Hl].
  split_and!; [done..|by left].
Qed.

(** How a batch changes the chain, and what the sync machine is told: the chain grows;
    then at most one reorganization replaces what is above a header of it, announced
    last with its fork point and both tips. *)
Definition batch_change (hs : list Header) (p : Pipeline) (hs' : list Header) (p' : Pipeline) : Prop :=
  exists added needs notice, Forall is_need needs /\ control p' = control p ++ needs ++ notice /\
    ((hs' = hs ++ added /\ notice = []) \/
     (exists pre post branch t old new, hs ++ added = pre ++ post /\ hs' = pre ++ branch /\ branch <> [] /\
        last pre = Some t /\ last (hs ++ added) = Some old /\ last hs' = Some new /\
        notice = [ReorgTo (height t) (height old) (height new)])).

Lemma batch_change_same hs p p' : control p' = control p -> batch_change hs p hs p'.
Proof. intros Hc. exists [], [], []. rewrite Hc, !app_nil_r. split_and!; [done..|by left]. Qed.

Lemma last_nonempty {A} (l k : list A) : k <> [] -> is_Some (last (l ++ k)).
Proof.
  intros Hk. destruct (last (l ++ k)) eqn:E; [by eexists|]. apply last_None, app_nil in E as [_ ->]. done.
Qed.

Lemma chain_headers_spec hs p hrs p' :
  settled hs p -> Forall (fun hr : RawHeader => sent hr.2 hr.1) hrs ->
  chain_headers (Tx := Tx) clock instant room hrs p = Some p' ->
  exists hs', settled hs' p' /\ batch_change hs p hs' p'.
Proof.
  intros Hm Hall. unfold chain_headers.
  destruct (step_headers _ _ _ _) as [[q b]|] eqn:Es; [|done].
  apply (steps_mid _ hs p empty_batch) in Es as (hs1 & Hm1 & added & needs & -> & Hc1 & Hn); [|done|].
  2: { by rewrite (stable_sort_Permutation by_height hrs). }
  destruct (execute_reorg _ _ q) as [[r q1]|] eqn:Er; [|done]. cbv zeta.
  assert (forall k (q2 : Pipeline), let q3 := match evicted_ids b with [] => q2 | ids => send_data room (Evicted ids) q2 end in
    let q4 := if k <? chain_height (chain q1) then send_progress room (chain_height (chain q1)) q3 else q3 in
    (forall hs2, settled hs2 q2 -> settled hs2 q4) /\ control q4 = control q2) as Hlast.
  { intros k q2. cbv zeta. split; [intros hs2 []|]; destruct (evicted_ids b), (k <? _); by try split. }
  apply (execute_reorg_spec (hs ++ added)) in Er; [|done]. destruct r as [fork|].
  - destruct Er as (pre & raws & branch & _ & _ & Hre & Hc). intros [= <-].
    destruct (persist_reorged (hs ++ added) q1 (store_entries b) fork pre branch) as (Hs & Hch & Hctl);
      [exact (mid_entries _ _ _ Hm1)|apply (mid_repr _ _ _ Hm1)|done|].
    destruct (Hlast (chain_height (chain p)) (persist (Some fork) (store_entries b) (purge_buffer q1))) as [Hl Hlc].
    exists (pre ++ branch). split; [by apply Hl|].
    destruct (re_prefix _ _ _ _ _ _ Hre) as (post & t & Epre & Ht & <-).
    assert (last (hs ++ added) <> None) as Hne.
    { rewrite last_None, Epre. intros [-> _]%app_nil. done. }
    destruct (last (hs ++ added)) as [old|] eqn:Eold; [|done].
    destruct (last_nonempty pre branch (re_branch _ _ _ _ _ _ Hre)) as [new Enew].
    exists added, needs, [ReorgTo (height t) (height old) (height new)].
    split_and!; [done| |right; exists pre, post, branch, t, old, new; split_and!; try done; apply Hre].
    rewrite Hlc, Hctl, Hc, Hc1, <- app_assoc. do 2 f_equal.
    by rewrite (chain_height_repr _ _ _ _ (mid_repr _ _ _ Hm1) Eold), (chain_height_repr _ _ _ _ (re_repr _ _ _ _ _ _ Hre) Enew).
  - destruct Er as [Hq1 Hc]. intros [= <-].
    destruct (persist_none (hs ++ added) q1 b Hq1) as (Hs & Hch & Hctl).
    destruct (Hlast (chain_height (chain p)) (persist None (store_entries b) (purge_buffer q1))) as [Hl Hlc].
    exists (hs ++ added). split; [by apply Hl|]. exists added, needs, [].
    split_and!; [done|by rewrite Hlc, Hctl, Hc, Hc1, app_nil_r|by left].
Qed.

(** ** Sections *)

Lemma bind_section_type (p : Pipeline) item e : bind_section (Tx := Tx) (RuleStatus := RuleStatus) p item = Some e -> e_type e <> 101.
Proof.
  unfold bind_section. destruct (section_id_from_body _ _) as [ident|] eqn:Es; [|done].
  apply from_body_inv in Es as (payload & digest & _ & _ & Hd & _).
  assert (i_type item <> 101) as Ht by (intros E; by rewrite E in Hd).
  repeat case_match; try done; by intros [= <-].
Qed.

Lemma put_sections_rows es s :
  Forall (fun e => e_type e <> 101) es ->
  (forall i, primary (tables (put_batch es s).2) !! (101, i) = primary (tables s) !! (101, i)) /\
  (forall k, best_chain (tables (put_batch es s).2) !! k = best_chain (tables s) !! k) /\
  (forall i, header_scores (tables (put_batch es s).2) !! i = header_scores (tables s) !! i).
Proof.
  intros Ht. rewrite Forall_forall in Ht.
  assert (Forall scored es) as Hs by (apply Forall_forall; intros e He%Ht Ht101; done).
  rewrite put_batch_tables by done. split; [|split].
  - intros i. rewrite entries_primary. apply latest_none. intros e He%Ht. unfold data_of.
    rewrite bool_decide_false; [done|]. naive_solver.
  - intros k. rewrite entries_best by done. apply latest_none. intros e He%Ht. unfold id_of.
    rewrite bool_decide_false; [done|]. naive_solver.
  - intros i. rewrite entries_scores by done. apply latest_none. intros e He%Ht. unfold score_of.
    rewrite bool_decide_false; [done|]. naive_solver.
Qed.

Lemma sync_tables hs p s :
  settled hs p -> (forall i, primary (tables s) !! (101, i) = primary (tables (store p)) !! (101, i)) ->
  (forall k, best_chain (tables s) !! k = best_chain (tables (store p)) !! k) ->
  (forall i, header_scores (tables s) !! i = header_scores (tables (store p)) !! i) -> settled hs (with_store p s).
Proof.
  intros [] Hp Hb Hsc. split; try done.
  - intros x Hx. destruct (mid_rows0 x Hx) as [(? & ? & ?)|?]; [left|by right]. unfold in_store, body_stored.
    cbn. by rewrite Hp, Hb, Hsc.
  - intros i raw. cbn. rewrite Hp. apply mid_bodies0.
Qed.

Lemma bind_store_spec hs p items ids p' :
  settled hs p -> bind_and_store_sections (Tx := Tx) (RuleStatus := RuleStatus) items p = (ids, p') ->
  settled hs p' /\ control p' = control p.
Proof.
  intros Hm. unfold bind_and_store_sections. destruct (omap _ items) as [|e es] eqn:Eo; [by intros [= <- <-]|].
  assert (Forall (fun e => e_type e <> 101) (e :: es)) as Ht.
  { rewrite <- Eo. apply Forall_forall. intros e' (item & _ & He)%list_elem_of_omap. by eapply bind_section_type. }
  destruct (put_sections_rows (e :: es) (store p) Ht) as (Hp & Hb & Hsc).
  destruct (put_batch (e :: es) (store p)) as [[u|err] s]; cbn [snd] in Hp, Hb, Hsc; intros [= <- <-];
    (split; [by apply sync_tables|done]).
Qed.

(** The headers of a batch. *)
Definition delivered_headers (batch : list ModifierBatchItem) : list (list Z) :=
  i_data <$> filter (fun i => is_header i = true) batch.

Lemma forward_settled hs (p : Pipeline) batch : settled hs p -> settled hs (foldl (forward room) p batch).
Proof.
  revert p. induction batch as [|i batch IH]; intros p Hm; [done|]. cbn [foldl]. apply IH. unfold forward.
  repeat case_match; try done. by destruct Hm; split.
Qed.

Lemma forward_control (p : Pipeline) batch : control (foldl (forward room) p batch) = control p.
Proof.
  revert p. induction batch as [|i batch IH]; intros p; [done|]. cbn [foldl]. rewrite IH. unfold forward.
  by repeat case_match.
Qed.

Lemma process_headers_settled hs p raws accepted p' :
  settled hs p -> (forall raw x, raw ∈ raws -> header_parse raw = Some x -> origin x) ->
  process_headers (Tx := Tx) clock instant room raws p = Some (accepted, p') ->
  exists hs', settled hs' p' /\ batch_change hs p hs' p'.
Proof.
  intros Hm Ho Eh. unfold process_headers in Eh. destruct (parse_headers _) as [hrs|] eqn:Ep; [|done].
  apply parse_headers_spec in Ep. destruct hrs as [|hr hrs].
  { injection Eh as <- <-. exists hs. split; [done|by apply batch_change_same]. }
  destruct (chain_headers _ _ _ _ p) as [q1|] eqn:Ec; [|done]. injection Eh as <- <-.
  apply (chain_headers_spec hs p) in Ec; [done|done|].
  eapply Forall_impl; [exact Ep|]. intros [x raw] (Hx & _ & Hin). split; [done|by apply (Ho raw)].
Qed.

Lemma batch_settled hs p batch p' :
  settled hs p -> (forall raw x, raw ∈ delivered_headers batch -> header_parse raw = Some x -> origin x) ->
  process_batch (Tx := Tx) (RuleStatus := RuleStatus) clock instant room batch p = Some p' ->
  exists hs', settled hs' p' /\ batch_change hs p hs' p'.
Proof.
  intros Hm Ho. unfold process_batch. set (q := foldl (forward room) p batch).
  assert (settled hs q) as Hq by (by apply forward_settled).
  fold (delivered_headers batch). destruct (process_headers _ _ _ _ q) as [[accepted q1]|] eqn:Eh; [|done].
  destruct (bind_and_store_sections _ q1) as [stored q2] eqn:Eb. intros [= <-].
  destruct (process_headers_settled hs q _ _ _ Hq Ho Eh) as (hs' & Hq1 & Hch).
  destruct (bind_store_spec hs' q1 _ _ _ Hq1 Eb) as [Hq2 Hc2].
  assert (forall q3 : Pipeline, chain q3 = chain q2 -> store q3 = store q2 -> buffer q3 = buffer q2 -> settled hs' q3) as Hs.
  { intros q3 E1 E2 E3. destruct Hq2. split; by rewrite ?E1, ?E2, ?E3. }
  exists hs'. split; [apply Hs; by destruct (accepted ++ stored)|].
  destruct Hch as (added & needs & notice & Hn & Hc & Hcase). exists added, needs, notice. split_and!; [done| |done].
  rewrite <- (forward_control p batch). fold q. rewrite <- Hc, <- Hc2. by destruct (accepted ++ stored).
Qed.

Lemma settled_row hs p x : settled hs p -> x ∈ hs -> in_store (tables (store p)) x.
Proof.
  intros Hm Hx. destruct (mid_rows _ _ _ Hm x Hx) as [?|(? & ? & Hin & _)]; [done|by apply not_elem_of_nil in Hin].
Qed.

(** ** What the header phase leaves alone *)

(** Only header rows are written, none is lost, and neither the mempool nor the delivery
    tracker hears of it. *)
Record quiet (p p' : Pipeline) : Prop := {
  quiet_sections : forall ty i, ty <> 101 -> primary (tables (store p')) !! (ty, i) = primary (tables (store p)) !! (ty, i);
  quiet_headers : forall i, is_Some (primary (tables (store p)) !! (101, i)) -> is_Some (primary (tables (store p')) !! (101, i));
  quiet_data : data p' = data p;
  quiet_mempool : to_mempool p' = to_mempool p;
}.

#[local] Instance quiet_refl : Reflexive quiet.
Proof. by split. Qed.

#[local] Instance quiet_trans : Transitive quiet.
Proof.
  intros a b c [S1 H1' D1 M1] [S2 H2' D2 M2]. split; [|auto|congruence|congruence].
  intros ty i Hty. by rewrite S2, S1.
Qed.

Lemma quiet_same p p' : store p' = store p -> data p' = data p -> to_mempool p' = to_mempool p -> quiet p p'.
Proof. intros Es Ed Em. split; rewrite ?Es; done. Qed.

Lemma quiet_on_chain {A} (m : M C A) p r p' : on_chain m p = Some (r, p') -> quiet p p'.
Proof. intros [_ ->]%on_chain_inv. by apply quiet_same. Qed.

Lemma quiet_read {A} (m : M C A) p a p' : query_chain (Tx := Tx) m p = Some (a, p') -> quiet p p'.
Proof.
  unfold query_chain. destruct (Pipeline.on_chain m p) as [[[a'|e] q]|] eqn:E; [|done..].
  intros [= <- <-]. by eapply quiet_on_chain.
Qed.

Lemma quiet_expect {A} (m : M C (option A)) p a p' : expect_chain (Tx := Tx) m p = Some (a, p') -> quiet p p'.
Proof.
  unfold expect_chain. destruct (Pipeline.on_chain m p) as [[[[a'|]|e] q]|] eqn:E; [|done..].
  intros [= <- <-]. by eapply quiet_on_chain.
Qed.

Lemma quiet_put_fork p id k score raw : quiet p (put_fork id k score raw p).
Proof.
  unfold put_fork, Store.put_header. set (t := tables (store p)). cbv zeta. set (t' := match _ !! k with Some _ => _ | None => _ end).
  assert (primary t' = <[(101, id) := raw]> (primary t)) as Ep by (unfold t'; by destruct (_ !! k)).
  split; cbn [store with_store tables]; try done; rewrite ?Ep.
  - intros ty i Hty. rewrite lookup_insert_ne; [done|congruence].
  - intros i Hi. destruct (decide (id = i)) as [->|]; [by rewrite lookup_insert_eq|].
    by rewrite lookup_insert_ne by congruence.
Qed.

Lemma quiet_put_batch p es :
  Forall (fun e => e_type e = 101 /\ is_Some (e_score e)) es -> quiet p (with_store p (put_batch es (store p)).2).
Proof.
  intros Hes. rewrite Forall_forall in Hes.
  assert (Forall scored es) as Hs by (apply Forall_forall; intros e He _; by apply Hes).
  split; try done; cbn [store with_store]; rewrite put_batch_tables by done.
  - intros ty i Hty. rewrite entries_primary. apply latest_none. intros e He. unfold data_of.
    rewrite bool_decide_false; [done|]. intros [He' _]. apply Hty. rewrite <- He'. by apply Hes.
  - intros i [r Hr]. rewrite entries_primary, Hr. unfold latest. by destruct (last _).
Qed.

Lemma header_entries_scored es (hrs : list RawHeader) :
  (forall e, e ∈ es -> exists x raw sc, e = header_entry x raw sc /\ (x, raw) ∈ hrs) ->
  Forall (fun e => e_type e = 101 /\ is_Some (e_score e)) es.
Proof. intros Hes. apply Forall_forall. intros e (x & raw & sc & -> & _)%Hes. by split. Qed.

Lemma quiet_chained h raw p b p' b' : chained (Tx := Tx) h raw p b = Some (p', b') -> quiet p p'.
Proof.
  unfold chained. destruct (expect_chain _ _) as [[sc q]|] eqn:E; [|done]. intros [= <- _].
  apply quiet_expect in E. etrans; [|exact E]. by apply quiet_same.
Qed.

Lemma quiet_drain fuel k p b p' b' : drain_buffer (Tx := Tx) clock fuel k p b = Some (p', b') -> quiet p p'.
Proof.
  revert k p b. induction fuel as [|fuel IH]; intros k p b; cbn [drain_buffer]; [by intros [= <- _]|].
  destruct (lru_peek k _) as [[h raw]|]; [|by intros [= <- _]].
  set (q := tick (with_buffer p _)). assert (quiet p q) as Hq by (by apply quiet_same).
  destruct (Pipeline.on_chain _ q) as [[r q1]|] eqn:E; [|done]. apply quiet_on_chain in E.
  assert (quiet p q1) as Hq1 by (by etrans). destruct r as [[|]|]; try (by intros [= <- _]).
  destruct (chained _ _ q1 b) as [[q2 b2]|] eqn:Ec; [|done]. apply quiet_chained in Ec. intros Hd%IH.
  transitivity q1; [done|]. transitivity q2; [done|]. etrans; [|exact Hd]. by apply quiet_same.
Qed.

Lemma quiet_walk fuel first rest p r p' : fork_walk (Tx := Tx) fuel first rest p = Some (r, p') -> quiet p p'.
Proof.
  revert first rest. induction fuel as [|fuel IH]; intros first rest; cbn [fork_walk]; [by intros [= _ <-]|].
  destruct (contains _ _).
  - destruct (query_chain _ p) as [[a q]|] eqn:E; [|done]. intros [= _ <-]. by eapply quiet_read.
  - destruct (Store.get _ _ _); [|by intros [= _ <-]]. destruct (header_parse _); [|by intros [= _ <-]]. apply IH.
Qed.

Lemma quiet_buffer h raw p b : quiet p (buffer_header h raw p b).1.
Proof. unfold buffer_header. destruct (lru_push _ _ _). by apply quiet_same. Qed.

Lemma quiet_forked h raw k p b p' b' : on_forked (Tx := Tx) h raw k p b = Some (p', b') -> quiet p p'.
Proof.
  unfold on_forked. set (q := with_requests p _). assert (quiet p q) by (by apply quiet_same).
  destruct (query_chain (score_at k) q) as [[ps q1]|] eqn:E1; [|done]. apply quiet_read in E1.
  destruct (query_chain cumulative_score _) as [[best q2]|] eqn:E2; [|done]. apply quiet_read in E2.
  intros [= <- _]. transitivity q; [done|]. transitivity q1; [done|]. etrans; [apply quiet_put_fork|exact E2].
Qed.

Lemma quiet_orphan h raw p b p' b' : on_orphan (Tx := Tx) instant h raw p b = Some (p', b') -> quiet p p'.
Proof.
  unfold on_orphan.
  assert (forall q : Pipeline, quiet p q -> Some (buffer_header h raw q b) = Some (p', b') -> quiet p p') as Hbuf.
  { intros q Hq [= Eb]. etrans; [exact Hq|]. change p' with (p', b').1. rewrite <- Eb. apply quiet_buffer. }
  destruct (header_score _ _) as [[|x bytes]|];
    try (destruct (should_request _ _ _) as [[] r]; apply Hbuf; by apply quiet_same).
  destruct (query_chain cumulative_score _) as [[best q1]|] eqn:E1; [|done]. apply quiet_read in E1.
  assert (quiet p q1) as Hq1 by (etrans; [apply quiet_put_fork|exact E1]).
  destruct (_ && _); [|by intros [= <- _]]. unfold assemble_fork_branch.
  destruct (fork_walk _ _ _ q1) as [[[br|] q2]|] eqn:Ew; try done; apply quiet_walk in Ew; intros [= <- _]; by etrans.
Qed.

Lemma quiet_steps_headers hrs p b p' b' :
  step_headers (Tx := Tx) clock instant hrs (p, b) = Some (p', b') -> quiet p p'.
Proof.
  revert p b. induction hrs as [|[h raw] hrs IH]; intros p b; cbn [step_headers]; [by intros [= <- _]|].
  destruct (step_header _ _ _ _) as [[q b1]|] eqn:E; [|done]. intros Hd%IH. etrans; [|exact Hd]. clear Hd IH.
  unfold step_header in E. destruct (contains _ _); [by injection E as <- _|].
  set (q0 := tick (with_tracker p _)) in E. assert (quiet p q0) by (by apply quiet_same).
  destruct (Pipeline.on_chain _ q0) as [[r q1]|] eqn:Eo; [|done]. apply quiet_on_chain in Eo.
  assert (quiet p q1) as Hq1 by (by etrans). etrans; [exact Hq1|]. clear Hq1 Eo.
  assert (Some (buffer_header h raw q1 b) = Some (q, b1) -> quiet q1 q) as Hbuf.
  { intros [= Eb]. change q with (q, b1).1. rewrite <- Eb. apply quiet_buffer. }
  destruct r as [[|k]|e]; [|by eapply quiet_forked|destruct e; try (by injection E as <- _); try (by apply Hbuf); by eapply quiet_orphan].
  unfold on_extended in E. destruct (chained _ _ q1 b) as [[q2 b2]|] eqn:Ec; [|done].
  apply quiet_chained in Ec. apply quiet_drain in E. by etrans.
Qed.

Lemma quiet_branch_entries branch p es p' :
  branch_entries (Tx := Tx) branch p = Some (es, p') ->
  quiet p p' /\ Forall (fun e => e_type e = 101 /\ is_Some (e_score e)) es.
Proof.
  revert p es p'. induction branch as [|[h raw] branch IH]; intros p es p'; cbn [branch_entries]; [by intros [= <- <-]|].
  destruct (expect_chain _ p) as [[sc q]|] eqn:E; [|done]. apply quiet_expect in E.
  destruct (branch_entries branch q) as [[es' q']|] eqn:E'; [|done]. apply IH in E' as [? ?].
  intros [= <- <-]. split; [by etrans|]. by constructor.
Qed.

Lemma quiet_execute_reorg pending p r p' : execute_reorg (Tx := Tx) clock pending p = Some (r, p') -> quiet p p'.
Proof.
  unfold execute_reorg. destruct pending as [[fork branch]|]; [|by intros [= _ <-]].
  destruct (query_chain tip p) as [[t q]|] eqn:Et; [|done]. apply quiet_read in Et.
  set (q1 := skip_ticks _ q). assert (quiet p q1) by (etrans; [exact Et|by apply quiet_same]).
  destruct (Pipeline.on_chain _ q1) as [[[ids|e] q2]|] eqn:Eo; [|apply quiet_on_chain in Eo; intros [= _ <-]; by etrans|done].
  apply quiet_on_chain in Eo. unfold reorg_done.
  destruct (query_chain tip q2) as [[t' q3]|] eqn:E3; [|done]. apply quiet_read in E3.
  destruct (branch_entries branch q3) as [[es q4]|] eqn:E4; [|done]. apply quiet_branch_entries in E4 as [E4 Hes].
  intros [= _ <-]. do 4 (etrans; [eassumption|]). etrans; [by apply quiet_put_batch|]. by apply quiet_same.
Qed.

Lemma quiet_demoted es p : quiet p (foldl store_demoted p es).
Proof.
  revert p. induction es as [|e es IH]; intros p; [done|]. cbn [foldl]. etrans; [|apply IH]. apply quiet_put_fork.
Qed.

Lemma quiet_persist r es p :
  Forall (fun e => e_type e = 101 /\ is_Some (e_score e)) es -> quiet p (persist r es p).
Proof.
  intros Hes.
  assert (forall best (q : Pipeline), (forall e, e ∈ best -> e ∈ es) ->
    quiet q (match best with [] => q | _ => with_store q (put_batch best (store q)).2 end)) as Hput.
  { intros [|e best] q Hin; [done|]. apply quiet_put_batch. rewrite Forall_forall in Hes |- *. eauto. }
  unfold persist. destruct r as [fork|]; [|by apply Hput].
  etrans; [apply quiet_demoted|]. apply Hput. by intros e [_ He]%list_elem_of_filter.
Qed.

Lemma chain_headers_quiet hs p hrs p' :
  settled hs p -> Forall (fun hr : RawHeader => sent hr.2 hr.1) hrs ->
  chain_headers (Tx := Tx) clock instant room hrs p = Some p' ->
  exists q evicted, quiet p q /\ store p' = store q /\ to_mempool p' = to_mempool p /\
    data p' = data p ++ evicted /\ (evicted = [] \/ exists ids, evicted = [Evicted ids]).
Proof.
  intros Hm Hall. unfold chain_headers.
  destruct (step_headers _ _ _ _) as [[q b]|] eqn:Es; [|done].
  pose proof (quiet_steps_headers _ _ _ _ _ Es) as Hq.
  apply (steps_mid _ hs p empty_batch) in Es as (hs1 & Hm1 & _); [|done|].
  2: { by rewrite (stable_sort_Permutation by_height hrs). }
  destruct (execute_reorg _ _ q) as [[r q1]|] eqn:Er; [|done]. apply quiet_execute_reorg in Er. cbv zeta.
  set (q2 := persist r (store_entries b) (purge_buffer q1)).
  assert (quiet p q2) as Hq2.
  { etrans; [exact Hq|]. etrans; [exact Er|]. transitivity (purge_buffer q1); [by apply quiet_same|].
    apply quiet_persist. apply Forall_forall. intros e (x & raw & sc & -> & _)%(mid_entries _ _ _ Hm1). by split. }
  intros [= <-]. exists q2, (match evicted_ids b with [] => [] | ids => if room (offers q2) then [Evicted ids] else [] end).
  destruct Hq2. split; [done|]. destruct (evicted_ids b), (_ <? _), (room (offers q2)) eqn:Er'; cbn; unfold offer;
    rewrite ?Er', ?app_nil_r; split_and!; eauto; congruence.
Qed.

(** ** Sections *)

Local Abbreviation from_body := (section_id_from_body (RuleStatus := RuleStatus) (Tx := Tx)).

(** Every stored section is under the id its bytes hash to, and its header is stored. *)
Definition sections_ok (t : Tables) : Prop :=
  forall ty i d, ty <> 101 -> primary t !! (ty, i) = Some d ->
    exists ident, from_body ty d = Ok ident /\ identity ident = i /\
      is_Some (primary t !! (101, body_header_id ident)).

Lemma bind_section_inv hs p item e :
  settled hs p -> bytes_ok (i_data item) -> bind_section (Tx := Tx) (RuleStatus := RuleStatus) p item = Some e ->
  e_type e = i_type item /\ e_id e = i_id item /\ e_data e = i_data item /\ e_score e = None /\
  exists ident, from_body (i_type item) (i_data item) = Ok ident /\ identity ident = i_id item /\
    is_Some (primary (tables (store p)) !! (101, body_header_id ident)).
Proof.
  intros Hm Hbytes. unfold bind_section. destruct (section_id_from_body _ _) as [ident|] eqn:Es; [|done].
  destruct (decide _) as [Hid|]; [|done].
  destruct (height_of _ _) as [k|] eqn:Ek.
  - intros [= <-]. split_and!; try done. exists ident. split_and!; [done..|].
    unfold height_of in Ek. rewrite (repr_index _ _ _ (mid_repr _ _ _ Hm)) in Ek.
    apply index_lookup in Ek as (x & Hx & Hxid & _); [|apply (mid_repr _ _ _ Hm)].
    destruct (mid_rows _ _ _ Hm x Hx) as [(_ & (raw & Hraw & _) & _)|(? & ? & Hin & _)]; [|by apply not_elem_of_nil in Hin].
    apply from_body_inv in Es as (payload & digest & Eb & Hlen & _).
    rewrite Hxid in Hraw. unfold id_bytes in Hraw. rewrite <- Hlen, be_bytes_from in Hraw; [by eexists|].
    rewrite Eb in Hbytes. by apply Forall_app in Hbytes as [? _].
  - destruct (Store.contains _ _ _) eqn:Ec; [|done]. intros [= <-]. split_and!; try done.
    exists ident. split_and!; [done..|]. by apply bool_decide_eq_true in Ec.
Qed.

Lemma bind_store_eq items (p : Pipeline) :
  let es := omap (bind_section (Tx := Tx) (RuleStatus := RuleStatus) p) items in
  Forall (fun e => e_type e <> 101) es ->
  bind_and_store_sections (Tx := Tx) (RuleStatus := RuleStatus) items p =
    (e_id <$> es, match es with [] => p | _ => with_store p (put_batch es (store p)).2 end).
Proof.
  intros es Ht. unfold bind_and_store_sections. fold es.
  assert (put_batch es (store p) = (Ok tt, (put_batch es (store p)).2)) as Eput.
  { unfold put_batch. rewrite (proj2 (scored_spec es)); [done|]. rewrite Forall_forall in Ht |- *.
    intros e He%Ht Ht101. done. }
  destruct es; [done|]. by rewrite Eput.
Qed.

(** What binding and storing sections does to a store whose sections are in order. *)
Lemma bind_store_sections hs p items ids p' :
  settled hs p -> sections_ok (tables (store p)) -> Forall (fun i => bytes_ok (i_data i)) items ->
  bind_and_store_sections (Tx := Tx) (RuleStatus := RuleStatus) items p = (ids, p') ->
  sections_ok (tables (store p')) /\ data p' = data p /\
  (forall id, id ∈ ids <-> exists item e, item ∈ items /\ bind_section (Tx := Tx) (RuleStatus := RuleStatus) p item = Some e /\ i_id item = id) /\
  (forall item e, item ∈ items -> bind_section (Tx := Tx) (RuleStatus := RuleStatus) p item = Some e ->
     is_Some (primary (tables (store p')) !! (i_type item, i_id item))).
Proof.
  intros Hm Hok Hbytes. rewrite Forall_forall in Hbytes.
  set (es := omap (bind_section (Tx := Tx) (RuleStatus := RuleStatus) p) items).
  assert (forall e, e ∈ es -> exists item, item ∈ items /\ bind_section (Tx := Tx) (RuleStatus := RuleStatus) p item = Some e) as Hes
    by (intros e (item & ? & ?)%list_elem_of_omap; eauto).
  assert (forall item e, item ∈ items -> bind_section (Tx := Tx) (RuleStatus := RuleStatus) p item = Some e -> e ∈ es) as Hes'
    by (intros item e ? ?; apply list_elem_of_omap; eauto).
  assert (Forall (fun e => e_type e <> 101) es) as Ht.
  { apply Forall_forall. intros e (item & _ & He)%Hes. by eapply bind_section_type. }
  destruct (put_sections_rows es (store p) Ht) as [Hp _].
  rewrite bind_store_eq by exact Ht. fold es. intros [= <- <-].
  assert (tables (store (match es with [] => p | _ => with_store p (put_batch es (store p)).2 end))
          = foldl put_entry (tables (store p)) es) as Et.
  { destruct es; [done|]. cbn [store with_store]. rewrite put_batch_tables; [done|].
    apply Forall_forall. rewrite Forall_forall in Ht. intros e' He'%Ht Ht101. done. }
  rewrite Et. split_and!.
  - intros ty i d Hty. rewrite entries_primary. intros [(e & He & Hd)|Hold]%latest_cases.
    + destruct (Hes e He) as (item & Hin & Hb).
      destruct (bind_section_inv _ _ _ _ Hm (Hbytes _ Hin) Hb) as (E1 & E2 & E3 & _ & ident & Hbody & Hid & Hhdr).
      unfold data_of in Hd. case_bool_decide as Hc; [|done]. injection Hd as <-. destruct Hc as [<- <-].
      exists ident. rewrite E1, E2, E3. split_and!; [done..|]. rewrite <- Et. destruct es; [done|]. cbn. by rewrite Hp.
    + destruct (Hok ty i d Hty Hold) as (ident & ? & ? & Hhdr). exists ident. split_and!; [done..|].
      rewrite <- Et. destruct es; [done|]. cbn. by rewrite Hp.
  - by destruct es.
  - intros id. rewrite list_elem_of_fmap. split.
    + intros (e & -> & He). destruct (Hes e He) as (item & Hin & Hb). exists item, e. split_and!; [done..|].
      by destruct (bind_section_inv _ _ _ _ Hm (Hbytes _ Hin) Hb) as (_ & -> & _).
    + intros (item & e & Hin & Hb & <-). exists e. split; [|by eapply Hes'].
      by destruct (bind_section_inv _ _ _ _ Hm (Hbytes _ Hin) Hb) as (_ & -> & _).
  - intros item e Hin Hb. rewrite entries_primary.
    destruct (bind_section_inv _ _ _ _ Hm (Hbytes _ Hin) Hb) as (E1 & E2 & _).
    destruct (latest_prop (data_of (i_type item) (i_id item)) (fun _ => True) es
      (primary (tables (store p)) !! (i_type item, i_id item))) as (a & -> & _); [done| |by eexists].
    right. exists e. split; [by eapply Hes'|]. unfold data_of. rewrite bool_decide_true by done. by eexists.
Qed.

Lemma parse_headers_complete raws hrs :
  parse_headers raws = Some hrs ->
  forall raw x, raw ∈ raws -> header_parse raw = Some x -> verify_pow x = Return tt -> (x, raw) ∈ hrs.
Proof.
  revert hrs. induction raws as [|bytes raws IH]; intros hrs; cbn [parse_headers]; [by intros _ raw x ?%not_elem_of_nil|].
  intros Hp raw x [->|Hin]%elem_of_cons Hx Hv.
  - rewrite Hx, Hv in Hp. destruct (parse_headers raws); [|done]. injection Hp as <-. by left.
  - destruct (header_parse bytes) as [h|]; [|by apply (IH hrs)].
    destruct (verify_pow h) as [u|e|]; [|by apply (IH hrs)|done].
    destruct (parse_headers raws) as [l|]; [|done]. injection Hp as <-. right. by apply (IH l).
Qed.

Lemma forward_same (p : Pipeline) batch :
  store (foldl (forward room) p batch) = store p /\ data (foldl (forward room) p batch) = data p.
Proof.
  revert p. induction batch as [|i batch IH]; intros p; [done|]. cbn [foldl]. destruct (IH (forward room p i)) as [-> ->].
  unfold forward. by repeat case_match.
Qed.

(** The header phase of a batch. *)
Lemma process_headers_spec hs p batch accepted p' :
  settled hs p -> sections_ok (tables (store p)) ->
  (forall raw x, raw ∈ delivered_headers batch -> header_parse raw = Some x -> origin x) ->
  process_headers (Tx := Tx) clock instant room (delivered_headers batch) p = Some (accepted, p') ->
  (exists hs', settled hs' p') /\ sections_ok (tables (store p')) /\
  (forall i, is_Some (primary (tables (store p)) !! (101, i)) -> is_Some (primary (tables (store p')) !! (101, i))) /\
  (exists evicted, data p' = data p ++ evicted /\ (evicted = [] \/ exists ids, evicted = [Evicted ids])) /\
  (forall id, id ∈ accepted <-> exists raw x, raw ∈ delivered_headers batch /\ header_parse raw = Some x /\
     verify_pow x = Return tt /\ id = id_bytes (header_id x)).
Proof.
  intros Hm Hok Hfit. unfold process_headers. destruct (parse_headers _) as [hrs|] eqn:Ep; [|done].
  pose proof (parse_headers_spec _ _ Ep) as Hall. rewrite Forall_forall in Hall.
  pose proof (parse_headers_complete _ _ Ep) as Hcomp.
  assert (forall id, id ∈ (fun hr : RawHeader => id_bytes (header_id hr.1)) <$> hrs <->
    exists raw x, raw ∈ delivered_headers batch /\ header_parse raw = Some x /\
     verify_pow x = Return tt /\ id = id_bytes (header_id x)) as Hacc.
  { intros id. rewrite list_elem_of_fmap. split.
    - intros ([x raw] & -> & Hx). destruct (Hall _ Hx) as (? & ? & ?). by exists raw, x.
    - intros (raw & x & Hin & Hx & Hv & ->). exists (x, raw). split; [done|by apply Hcomp]. }
  destruct hrs as [|hr hrs].
  { intros [= <- <-]. split_and!; [eauto|done|done|exists []; rewrite app_nil_r; eauto|done]. }
  destruct (chain_headers _ _ _ _ p) as [q|] eqn:Ec; [|done]. intros [= <- <-].
  assert (Forall (fun hr : RawHeader => sent hr.2 hr.1) (hr :: hrs)) as Hsent.
  { apply Forall_forall. intros [x raw] Hx. destruct (Hall _ Hx) as (? & _ & ?). split; [done|by apply (Hfit raw)]. }
  destruct (chain_headers_spec hs p _ _ Hm Hsent Ec) as (hs' & Hs' & _).
  destruct (chain_headers_quiet hs p _ _ Hm Hsent Ec) as (q0 & evicted & [Q1 Q2 _ _] & Es & _ & Ed & Hev).
  split_and!; [eauto| |by rewrite Es|eauto|done].
  rewrite Es. intros ty i d Hty. rewrite Q1 by done. intros Hd.
  destruct (Hok ty i d Hty Hd) as (ident & ? & ? & Hhdr). exists ident. split_and!; [done..|by apply Q2].
Qed.

(** The sections of a batch. *)
Lemma batch_sections hs p batch p' :
  settled hs p -> sections_ok (tables (store p)) ->
  (forall raw x, raw ∈ delivered_headers batch -> header_parse raw = Some x -> origin x) ->
  Forall (fun i => bytes_ok (i_data i)) batch ->
  process_batch (Tx := Tx) (RuleStatus := RuleStatus) clock instant room batch p = Some p' ->
  sections_ok (tables (store p')) /\
  exists evicted ids, data p' = data p ++ evicted ++
      (if decide (ids = []) then [] else if room (offers p' - 1) then [Received ids] else []) /\
    (evicted = [] \/ exists lost, evicted = [Evicted lost]) /\
    (forall raw x, raw ∈ delivered_headers batch -> header_parse raw = Some x -> verify_pow x = Return tt ->
       id_bytes (header_id x) ∈ ids) /\
    (forall id, id ∈ ids ->
       (exists raw x, raw ∈ delivered_headers batch /\ header_parse raw = Some x /\ verify_pow x = Return tt /\
          id = id_bytes (header_id x)) \/
       (exists item, item ∈ batch /\ is_section item = true /\ i_id item = id /\
          is_Some (Store.get (i_type item) id (store p')))) /\
    (forall item ident, item ∈ batch -> is_section item = true ->
       from_body (i_type item) (i_data item) = Ok ident -> identity ident = i_id item ->
       is_Some (Store.get HEADER_TYPE_ID (body_header_id ident) (store p)) ->
       i_id item ∈ ids /\ is_Some (Store.get (i_type item) (i_id item) (store p'))).
Proof.
  intros Hm Hok Hfit Hbytes. unfold process_batch. set (q := foldl (forward room) p batch).
  assert (settled hs q) as Hq by (by apply forward_settled).
  assert (store q = store p /\ data q = data p) as [Es Ed] by apply forward_same.
  fold (delivered_headers batch). destruct (process_headers _ _ _ _ q) as [[accepted q1]|] eqn:Eh; [|done].
  destruct (bind_and_store_sections _ q1) as [stored q2] eqn:Eb. intros [= <-].
  apply (process_headers_spec hs) in Eh as ((hs' & Hq1) & Hok1 & Hkeep & (evicted & Ed1 & Hev) & Hacc); [|done|by rewrite Es|done].
  assert (Forall (fun i => bytes_ok (i_data i)) (filter (fun i => is_section i = true) batch)) as Hb'.
  { rewrite Forall_forall in Hbytes |- *. intros i [_ Hi]%list_elem_of_filter. by apply Hbytes. }
  destruct (bind_store_sections hs' q1 _ _ _ Hq1 Hok1 Hb' Eb) as (Hok2 & Ed2 & Hids & Hstored).
  set (p' := match accepted ++ stored with [] => q2 | _ => _ end).
  assert (store p' = store q2) as Ep by (unfold p'; by destruct (accepted ++ stored)).
  rewrite Ep. split; [done|]. exists evicted, (accepted ++ stored). split_and!; [|done|..].
  - rewrite app_assoc, <- Ed, <- Ed1, <- Ed2. unfold p'. destruct (accepted ++ stored) eqn:Ea; [by rewrite app_nil_r|].
    cbn [decide]. cbn -[decide]. rewrite decide_False by done. rewrite Z.add_simpl_r. unfold offer.
    destruct (room _); [done|by rewrite app_nil_r].
  - intros raw x Hin Hx Hv. apply elem_of_app. left. apply Hacc. by exists raw, x.
  - intros id [Hid|Hid]%elem_of_app; [left; by apply Hacc|]. right.
    apply Hids in Hid as (item & e & [His Hin]%list_elem_of_filter & Hbind & <-). exists item. split_and!; [done..|].
    apply (Hstored item e); [by apply list_elem_of_filter|done].
  - intros item ident Hin His Hbody Hid Hhdr. unfold Store.get in Hhdr. rewrite <- Es in Hhdr. apply Hkeep in Hhdr.
    assert (exists e, bind_section (Tx := Tx) (RuleStatus := RuleStatus) q1 item = Some e) as [e He].
    { unfold bind_section. rewrite Hbody, decide_True by done. destruct (height_of _ _); [by eexists|].
      unfold Store.contains. rewrite bool_decide_true by done. by eexists. }
    assert (item ∈ filter (fun i => is_section i = true) batch) by (by apply list_elem_of_filter).
    split; [|by eapply Hstored]. apply elem_of_app. right. apply Hids. by exists item, e.
Qed.

End Inv.

(** ** Between batches *)

Section Batches.
Context {C : Type -> Type} `{LruLaws C} `{!LruPush C} `{!LruPushLaws C} `{PowScheme} {Tx RuleStatus : Type}.
Context `{SigmaIO RuleStatus, SectionIO Tx} `{HeaderIO}.
Variable clock : Z -> Z.
Variable instant : Z -> Z.
Variable room : Z -> bool.
Variable preimage : id32 -> option Header.
Local Abbreviation Pipeline := (Pipeline (C := C)).
Hypothesis parse_typed : forall raw x,
  header_parse raw = Some x -> genuine preimage x /\ is_u32 (height x) /\ is_id (header_id x).

(** The chain represents [hs] and the store has every header of it. *)
Definition in_sync (hs : list Header) (p : Pipeline) : Prop := settled preimage hs (fun _ => True) hs p.

(** The headers a batch can be about: those of the chain, those it delivers, those that
    wait in the buffer and those stored before. *)
Definition at_hand (hs : list Header) (p : Pipeline) (batch : list ModifierBatchItem) (x : Header) : Prop :=
  x ∈ hs
  \/ (exists raw, raw ∈ delivered_headers batch /\ header_parse raw = Some x)
  \/ (exists k raw, lru_peek k (buffer p) = Some (x, raw))
  \/ (exists i raw, Store.get HEADER_TYPE_ID i (store p) = Some raw /\ header_parse raw = Some x).

(** No linked chain of them that begins as the node's does comes within a thousand of the
    largest height. A header may claim any height it likes. *)
Definition heights_left (hs : list Header) (p : Pipeline) (batch : list ModifierBatchItem) : Prop :=
  forall l, linked l -> rooted hs l -> Forall (at_hand hs p batch) l -> Forall fits l.

Lemma settle hs p batch : in_sync hs p -> settled preimage hs (at_hand hs p batch) hs p.
Proof.
  intros []. split; try done.
  - rewrite Forall_forall in mid_heights0 |- *. intros x Hx. destruct (mid_heights0 x Hx) as (? & ? & _).
    split_and!; [done..|by left].
  - intros x Hx. destruct (mid_rows0 x Hx) as [?|(? & ? & Hin & _)]; [by left|by apply not_elem_of_nil in Hin].
  - by intros e ?%not_elem_of_nil.
  - intros i raw Hi. destruct (mid_bodies0 i raw Hi) as (x & [Hx _] & ?). exists x. split; [|done].
    split; [done|]. do 3 right. by exists i, raw.
  - intros k x raw Hk. destruct (mid_buffer0 k x raw Hk) as [Hx _]. split; [done|]. do 2 right. left. by exists k, raw.
Qed.

Lemma unsettle start origin hs p : settled preimage start origin hs p -> in_sync hs p.
Proof.
  intros []. split; try done.
  - eapply Forall_impl; [exact mid_heights0|]. by intros x (? & ? & _).
  - unfold rooted. by destruct (head hs).
  - intros x Hx. destruct (mid_rows0 x Hx) as [?|(? & ? & Hin & _)]; [by left|by apply not_elem_of_nil in Hin].
  - by intros e ?%not_elem_of_nil.
  - intros i raw Hi. destruct (mid_bodies0 i raw Hi) as (x & [Hx _] & ?). by exists x.
  - intros k x raw Hk. by destruct (mid_buffer0 k x raw Hk).
Qed.

Lemma batch_step hs p batch p' :
  in_sync hs p -> heights_left hs p batch ->
  process_batch (Tx := Tx) (RuleStatus := RuleStatus) clock instant room batch p = Some p' ->
  exists hs', settled preimage hs (at_hand hs p batch) hs' p' /\ batch_change hs p hs' p'.
Proof.
  intros Hm Hlow. apply (batch_settled clock instant room preimage parse_typed hs (at_hand hs p batch) Hlow);
    [by apply settle|]. intros raw x Hin Hp. right. left. by exists raw.
Qed.

(** C11: The chain and its store stay in step. Before and after every batch of modifiers,
    whatever they are, the chain represents a linked list of headers and BEST_CHAIN has
    each of them under its height, with a body that parses to it and a score, so that at
    every height of the chain the loaders serve its header. Every header of the new chain
    was on the old one, came in the batch, waited in the buffer or was stored. A batch
    extends the chain and then replaces what is above one of its headers at most once;
    exactly then the sync machine is told, with the fork point and the tips, and it is
    told nothing else but which parents are missing. *)
Theorem pipeline_in_sync hs p batch p' :
  in_sync hs p -> heights_left hs p batch ->
  process_batch (Tx := Tx) (RuleStatus := RuleStatus) clock instant room batch p = Some p' ->
  exists hs', in_sync hs' p' /\ batch_change hs p hs' p' /\ Forall (at_hand hs p batch) hs' /\
    (forall x, x ∈ hs' -> load_header (store p') (height x) = Some x /\
       is_Some (header_score (id_bytes (header_id x)) (store p'))).
Proof.
  intros Hm Hlow Hb. destruct (batch_step hs p batch p' Hm Hlow Hb) as (hs' & Hs & Hch).
  exists hs'. split_and!; [by eapply unsettle|done|by eapply origin_all|].
  intros x Hx. destruct (settled_row _ _ _ _ _ _ Hs Hx) as (Hbest & (raw & Hraw & Hp) & Hsc). split; [|done].
  unfold load_header, read_header_at. by rewrite Hbest, Hraw.
Qed.

(** C19: Only sections that belong to a known header get into the store. After every batch
    each stored section is under the id its bytes hash to, and the header its body names
    is stored. What the batch reports to the delivery tracker, in one message that is lost
    when the channel is full, is exactly what was accepted: a header when it parses and
    has its proof of work, a section when it bound, and then it is in the store; a section
    whose header was known before the batch and whose bytes hash to the id it came under
    always binds. *)
Theorem sections_bound hs p batch p' :
  in_sync hs p -> sections_ok (Tx := Tx) (RuleStatus := RuleStatus) (tables (store p)) -> heights_left hs p batch ->
  Forall (fun i => bytes_ok (i_data i)) batch ->
  process_batch (Tx := Tx) (RuleStatus := RuleStatus) clock instant room batch p = Some p' ->
  sections_ok (Tx := Tx) (RuleStatus := RuleStatus) (tables (store p')) /\
  exists evicted ids, data p' = data p ++ evicted ++
      (if decide (ids = []) then [] else if room (offers p' - 1) then [Received ids] else []) /\
    (evicted = [] \/ exists lost, evicted = [Evicted lost]) /\
    (forall raw x, raw ∈ delivered_headers batch -> header_parse raw = Some x -> verify_pow x = Return tt ->
       id_bytes (header_id x) ∈ ids) /\
    (forall id, id ∈ ids ->
       (exists raw x, raw ∈ delivered_headers batch /\ header_parse raw = Some x /\ verify_pow x = Return tt /\
          id = id_bytes (header_id x)) \/
       (exists item, item ∈ batch /\ is_section item = true /\ i_id item = id /\
          is_Some (Store.get (i_type item) id (store p')))) /\
    (forall item ident, item ∈ batch -> is_section item = true ->
       section_id_from_body (RuleStatus := RuleStatus) (Tx := Tx) (i_type item) (i_data item) = Ok ident ->
       identity ident = i_id item -> is_Some (Store.get HEADER_TYPE_ID (body_header_id ident) (store p)) ->
       i_id item ∈ ids /\ is_Some (Store.get (i_type item) (i_id item) (store p'))).
Proof.
  intros Hm Hok Hlow Hbytes Hb.
  apply (batch_sections clock instant room preimage parse_typed hs (at_hand hs p batch) Hlow hs p batch p'); try done.
  - by apply settle.
  - intros raw x Hin Hp. right. left. by exists raw.
Qed.

End Batches.
End PipelineInv.
