(* ===== verification/PipelineForks.v ===== *)
(** * The modifier pipeline: what a fork header does to the best chain of the store

    [on_orphan] writes a header whose parent is a stored fork header under the height the
    header claims, and [Store.put_header] makes it the best-chain row of that height if
    there is none. Nothing has compared the height with the parent's. *)

From S2P Require Import Prelude Bytes Frame ChainConfig VotingCodec Voting Header Difficulty Pow HeaderStore.
From S2P Require Import Sections SyncInfo Messages Handshake MempoolTypes Mempool Store HeaderChain HeaderChainInv HeaderChainOps HeaderChainReach.
From S2P Require Import ChainStore Pipeline PipelineInv.
Import ChainConfig VotingCodec Voting Difficulty Pow Sections SyncInfo Store HeaderStore HeaderChain.
Import HeaderChainInv HeaderChainOps HeaderChainReach ChainStore Pipeline PipelineInv.

Module PipelineForks.

Section Forks.
Context {C : Type -> Type} `{LruLaws C} `{!LruPush C} `{!LruPushLaws C} `{PowScheme} {Tx RuleStatus : Type}.
Context `{SigmaIO RuleStatus, SectionIO Tx} `{HeaderIO}.
Variable clock : Z -> Z.
Variable instant : Z -> Z.
Variable room : Z -> bool.
Variable preimage : id32 -> option Header.
Local Abbreviation Pipeline := (Pipeline (C := C)).
Local Abbreviation on_chain := (on_chain (C := C) (Tx := Tx)).
Hypothesis parse_typed : forall raw x,
  header_parse raw = Some x -> genuine preimage x /\ is_u32 (height x) /\ is_id (header_id x).

(** A header with an unknown parent, offered to a chain that can read its tip. *)
Lemma append_orphan now h (c : HeaderChain C) t :
  is_empty c = false -> (tip c).1 = Return t -> parent_id h <> header_id t -> by_id c !! parent_id h = None ->
  (try_append now h c).1 = Fail (ParentNotFound (parent_id h)).
Proof.
  intros He Ht Hp Hn. pose proof (reads_tip c) as (cache & Hc & _). unfold try_append, bind, gets. rewrite He. cbv beta iota.
  destruct (tip c) as [o c1]. cbn in Ht, Hc. rewrite Ht. cbv beta iota. rewrite (proj2 (Z.eqb_neq _ _) Hp). cbv beta iota.
  rewrite Hc. cbn. by rewrite Hn.
Qed.

(** The fork header: it parses and has the proof of work it claims, its parent is stored with a score but is not on the chain,
    and its height is not the one after its parent's and leaves a gap above the tip. *)
Record gap_header (hs : list Header) (p : Pipeline) (t y h : Header) (raw yraw : list Z) : Prop := {
  gap_parse : header_parse raw = Some h /\ verify_pow h = Return tt;
  gap_tip : last hs = Some t /\ (tip (wire (Tx := Tx) (store p) (chain p))).1 = Return t;
  gap_parent : parent_id h ∉ ids hs;
  gap_body : Store.get HEADER_TYPE_ID (id_bytes (parent_id h)) (store p) = Some yraw /\ header_parse yraw = Some y;
  gap_score : exists x bytes, header_score (id_bytes (parent_id h)) (store p) = Some (x :: bytes);
  gap_height : height h <> height y + 1 /\ height t < height h;
  gap_rows : best_header_at (height h) (store p) = None /\ best_header_at (height h - 1) (store p) = None;
}.

Section Step.
Variable start : list Header.
Variable origin : Header -> Prop.
Local Abbreviation mid := (mid preimage start origin).
Hypothesis low : forall l, linked l -> rooted start l -> Forall origin l -> Forall fits l.

Lemma not_contained hs id (c : HeaderChain C) : repr preimage hs c -> id ∉ ids hs -> contains id c = false.
Proof.
  intros Hr Hn. unfold contains. rewrite (repr_index _ _ _ Hr), (proj2 (index_lookup_None hs id) Hn).
  by apply bool_decide_eq_false, is_Some_None.
Qed.

(** The body a walk finds for the parent of a header that was just stored. *)
Lemma parent_body (p : Pipeline) h raw yraw y sc :
  header_parse raw = Some h -> Store.get HEADER_TYPE_ID (id_bytes (parent_id h)) (store p) = Some yraw ->
  header_parse yraw = Some y -> height h <> height y + 1 ->
  exists r' y', Store.get HEADER_TYPE_ID (id_bytes (parent_id h))
      (store (put_fork (id_bytes (header_id h)) (height h) sc raw p)) = Some r' /\
    header_parse r' = Some y' /\ height h <> height y' + 1.
Proof.
  intros Hh Hy Hp Hne. unfold Store.get, put_fork, Store.put_header. cbv zeta. cbn [store with_store tables].
  set (t := match _ !! height h with Some _ => _ | None => _ end).
  assert (primary t = <[(101, id_bytes (header_id h)) := raw]> (primary (tables (store p)))) as ->
    by (unfold t; by destruct (_ !! height h)).
  destruct (decide (id_bytes (header_id h) = id_bytes (parent_id h))) as [<-|Hid].
  - exists raw, h. rewrite lookup_insert_eq. split_and!; [done..|lia].
  - exists yraw, y. rewrite lookup_insert_ne by congruence. done.
Qed.

(** A header whose parent is stored with a score, but is not on the chain. *)
Lemma orphan_row hs p b h raw yraw y x bytes p' b' :
  mid hs p b -> sent origin raw h -> parent_id h ∉ ids hs ->
  Store.get HEADER_TYPE_ID (id_bytes (parent_id h)) (store p) = Some yraw -> header_parse yraw = Some y ->
  height h <> height y + 1 -> header_score (id_bytes (parent_id h)) (store p) = Some (x :: bytes) ->
  on_orphan (Tx := Tx) instant h raw p b = Some (p', b') ->
  (exists sc, store p' = store (put_fork (id_bytes (header_id h)) (height h) sc raw p)) /\
  store_entries b' = store_entries b /\ evicted_ids b' = evicted_ids b /\
  (pending_reorg b' = pending_reorg b \/
   exists fork branch y' r', pending_reorg b' = Some (fork, branch) /\
     [(y', r'); (h, raw)] `suffix_of` branch /\ height h <> height y' + 1).
Proof.
  intros Hm Hs Hpar Hy Hpy Hne Hsc. unfold on_orphan. rewrite Hsc. set (sc := to_bytes_be _).
  set (q := put_fork _ _ _ _ p). assert (mid hs q b) as Hq by (by apply put_fork_mid).
  destruct (parent_body p h raw yraw y sc (proj1 Hs) Hy Hpy Hne) as (r' & y' & Hr' & Hpy' & Hne').
  fold q in Hr'. destruct (query_chain cumulative_score q) as [[best q1]|] eqn:E1; [|done].
  apply (query_chain_keeps preimage parse_typed start origin _ _ _ _ _ _ (keeps_cumulative preimage) Hq) in E1 as [Hq1 Eq1].
  assert (store q1 = store q) as Es1 by (by rewrite Eq1).
  destruct (_ && _); [|intros [= <- <-]; split_and!; [by exists sc|done|done|by left]].
  unfold assemble_fork_branch. assert (exists n, FORK_WALK_STEPS = S n) as [n ->] by (by exists 999%nat). cbn [fork_walk fst].
  rewrite (not_contained hs) by (done || apply Hq1). rewrite Es1, Hr', Hpy'.
  destruct (fork_walk n _ _ q1) as [[r q2]|] eqn:Ew; [|done].
  apply fork_walk_suffix in Ew as [Es2 Hsuf].
  destruct r as [[fork branch]|]; intros [= <- <-]; (split_and!; [exists sc; by rewrite Es2, Es1|done|done|]); [|by left].
  right. exists fork, branch, y', r'. split_and!; [done|by apply (Hsuf fork)|done].
Qed.

Lemma execute_reorg_store pending (p p' : Pipeline) :
  execute_reorg (Tx := Tx) clock pending p = Some (None, p') -> store p' = store p.
Proof.
  unfold execute_reorg. destruct pending as [[fork branch]|]; [|by intros [= <-]].
  unfold query_chain. destruct (Pipeline.on_chain tip p) as [[[t|e] q]|] eqn:Et; [|done..].
  apply on_chain_inv in Et as [_ Eq]. destruct (Pipeline.on_chain _ (skip_ticks _ q)) as [[[u|e] q2]|] eqn:Eo; [| |done].
  - unfold reorg_done. destruct (query_chain tip q2) as [[t' q3]|]; [|done]. by destruct (branch_entries branch q3) as [[es q4]|].
  - intros [= <-]. apply on_chain_inv in Eo as [_ ->]. cbn. by rewrite Eq.
Qed.

(** The end of a linked chain. *)
Lemma linked_end pre (l : list RawHeader) y r h raw :
  linked (pre ++ l.*1) -> [(y, r); (h, raw)] `suffix_of` l -> height h = height y + 1.
Proof.
  intros Hl [l' ->]. rewrite fmap_app, app_assoc in Hl. cbn in Hl.
  apply (Hl (length (pre ++ l'.*1)) y h); rewrite lookup_app_r by lia; [by rewrite Nat.sub_diag|].
  by replace (S (length (pre ++ l'.*1)) - length (pre ++ l'.*1))%nat with 1%nat by lia.
Qed.

Lemma gap_step hs p t y h raw yraw p' b' :
  mid hs p empty_batch -> origin h -> gap_header hs p t y h raw yraw ->
  step_header (Tx := Tx) clock instant (p, empty_batch) (h, raw) = Some (p', b') ->
  mid hs p' b' /\ (exists sc, store p' = store (put_fork (id_bytes (header_id h)) (height h) sc raw p)) /\
  store_entries b' = [] /\ evicted_ids b' = [] /\
  (pending_reorg b' = None \/
   exists fork branch y' r', pending_reorg b' = Some (fork, branch) /\
     [(y', r'); (h, raw)] `suffix_of` branch /\ height h <> height y' + 1).
Proof.
  intros Hm Ho [[Hh _] [Hlast Ht] Hpar [Hy Hpy] (x & bytes & Hsc) [Hne Hlt] _]. pose proof (mid_repr _ _ _ _ _ _ Hm) as Hr.
  assert (sent origin raw h) as Hs by done. unfold step_header. rewrite (not_contained hs); [|done|].
  2: { intros (x' & Hid & Hx')%list_elem_of_fmap. destruct (genuine_of preimage parse_typed origin _ _ Hs) as (Hg & _).
    pose proof (repr_genuine _ _ _ Hr) as Hgs. rewrite Forall_forall in Hgs.
    rewrite (genuine_inj preimage h x' Hg (Hgs x' Hx') Hid) in Hlt.
    pose proof (linked_last hs t x' (repr_linked _ _ _ Hr) Hlast Hx'). lia. }
  set (q := tick (with_tracker p _)). assert (mid hs q empty_batch) as Hq by (by apply mid_tick, mid_tracker).
  destruct (Pipeline.on_chain _ q) as [[r q1]|] eqn:E; [|done].
  pose proof (append_mid preimage parse_typed start origin low _ _ _ _ _ _ _ _ Hq Hs E) as [Eq Hr1].
  apply on_chain_inv in E as [E _]. pose proof (append_orphan (clock (ticks (with_tracker p (observe h (tracker p))))) h (wire (Tx := Tx) (store p) (chain p)) t) as Ha.
  change (wire (store q) (chain q)) with (wire (Tx := Tx) (store p) (chain p)) in E. rewrite E in Ha. cbn [fst] in Ha.
  pose proof (repr_wire preimage parse_typed hs (store p) _ Hr : repr preimage hs (wire (Tx := Tx) (store p) (chain p))) as Hw.
  specialize (Ha ltac:(rewrite (is_empty_repr _ _ _ Hw); apply bool_decide_eq_false; by intros ->) Ht).
  assert (parent_id h <> header_id t) as Hpt.
  { intros Heq. apply Hpar. rewrite Heq. apply list_elem_of_fmap_2. by apply last_Some_elem_of. }
  specialize (Ha Hpt ltac:(rewrite (repr_index _ _ _ Hw); by apply index_lookup_None)).
  assert (r = Err (ParentNotFound (parent_id h))) as -> by (destruct r; congruence).
  clear Ha. assert (store q1 = store p) as Es by (by rewrite Eq).
  intros Hor. destruct (orphan_mid instant preimage parse_typed start origin hs q1 empty_batch h raw p' b' Hr1 Hs Hor) as [Hm' _].
  split; [done|]. rewrite <- Es in Hy, Hsc.
  destruct (orphan_row hs q1 empty_batch h raw yraw y x bytes p' b' Hr1 Hs Hpar Hy Hpy Hne Hsc Hor) as ([sc Hst] & H1' & H2' & H3').
  split_and!; [|done|done|done]. exists sc. rewrite Hst. unfold put_fork. cbn [store with_store]. by rewrite Es.
Qed.

Lemma gap_headers hs p t y h raw yraw p' :
  mid hs p empty_batch -> origin h -> gap_header hs p t y h raw yraw ->
  chain_headers (Tx := Tx) clock instant room [(h, raw)] p = Some p' ->
  mid hs p' empty_batch /\ exists sc, store p' = store (put_fork (id_bytes (header_id h)) (height h) sc raw p).
Proof.
  intros Hm Ho Hgap. unfold chain_headers. change (stable_sort by_height [(h, raw)]) with [(h, raw)]. cbn [step_headers].
  destruct (step_header _ _ _ _) as [[q b]|] eqn:Es; [|done].
  destruct (gap_step hs p t y h raw yraw q b Hm Ho Hgap Es) as (Hq & [sc Hst] & Hes & Hev & Hpend).
  destruct (execute_reorg _ _ q) as [[r q1]|] eqn:Er; [|done]. cbv zeta. rewrite Hes, Hev.
  pose proof (execute_reorg_spec clock preimage parse_typed start origin low hs q b r q1 Hq Er) as Hspec.
  destruct r as [fork|].
  { exfalso. destruct Hspec as (pre & raws & branch & Hp & -> & Hre & _). destruct Hpend as [Hn|(f & l & y' & r' & Hl & Hsuf & Hne)]; [congruence|].
    rewrite Hp in Hl. injection Hl as <- <-. apply Hne. eapply linked_end; [|exact Hsuf].
    exact (repr_linked _ _ _ (re_repr _ _ _ _ _ _ _ _ _ Hre)). }
  destruct Hspec as [Hq1 _]. apply execute_reorg_store in Er.
  destruct (persist_none preimage parse_typed start origin hs q1 b Hq1) as (Hs & _). rewrite Hes in Hs.
  intros [= <-]. split.
  - destruct Hs. destruct (_ <? _); by split.
  - exists sc. rewrite <- Hst, <- Er. by destruct (_ <? _).
Qed.
End Step.

Lemma gap_batch hs p t y h raw yraw i peer p' :
  let batch := [mk_item HEADER_TYPE_ID i raw peer] in
  in_sync preimage hs p -> heights_left hs p batch -> gap_header hs p t y h raw yraw ->
  process_batch (Tx := Tx) (RuleStatus := RuleStatus) clock instant room batch p = Some p' ->
  in_sync preimage hs p' /\ exists sc, store p' = store (put_fork (id_bytes (header_id h)) (height h) sc raw p).
Proof.
  intros batch Hm Hlow Hgap. destruct (gap_parse _ _ _ _ _ _ _ Hgap) as [Hh Hv].
  assert (at_hand hs p batch h) as Ho by (right; left; exists raw; split; [by left|done]).
  pose proof (settle preimage hs p batch Hm) as Hset.
  assert (process_headers (Tx := Tx) clock instant room [raw] p =
    match chain_headers (Tx := Tx) clock instant room [(h, raw)] p with
    | Some q => Some ([id_bytes (header_id h)], q) | None => None end) as Eh.
  { unfold process_headers. cbn [parse_headers]. by rewrite Hh, Hv. }
  unfold process_batch. change (foldl (forward room) p batch) with p.
  change (i_data <$> filter (fun i => is_header i = true) batch) with [raw]. rewrite Eh.
  change (filter (fun i => is_section i = true) batch) with (@nil ModifierBatchItem).
  destruct (chain_headers _ _ _ _ p) as [q|] eqn:Ec; [|done]. cbn. intros [= <-].
  destruct (gap_headers hs (at_hand hs p batch) Hlow hs p t y h raw yraw q Hset Ho Hgap Ec) as [Hs Hst].
  apply unsettle in Hs. split; [|exact Hst]. destruct Hs. by split.
Qed.

(** C39: A header that is not on the chain can keep the node from ever starting again.
    Let the pipeline be in step with its store, and let a header arrive that has the proof
    of work for the difficulty it states, whose parent is a stored fork header, and which
    claims a height that is not the one after its parent's and leaves a gap in BEST_CHAIN
    above the tip. The chain stays as it is, but the header is now the row of BEST_CHAIN
    at the height it claims, and every start on what is then stored fails. *)
Theorem poisoned_restart hs p t y h raw yraw i peer p' :
  in_sync preimage hs p -> heights_left hs p [mk_item HEADER_TYPE_ID i raw peer] ->
  gap_header hs p t y h raw yraw ->
  (forall k, height_index (tables (store p)) !! (101, k) = None) ->
  (forall k id, best_header_at k (store p) = Some id -> is_u32 k) ->
  process_batch (Tx := Tx) (RuleStatus := RuleStatus) clock instant room [mk_item HEADER_TYPE_ID i raw peer] p = Some p' ->
  in_sync preimage hs p' /\ best_header_at (height h) (store p') = Some (id_bytes (header_id h)) /\
  forall cfg, exists e, (boot (C := C) (Tx := Tx) (RuleStatus := RuleStatus) cfg (tables (store p'))).1 = Fail e.
Proof.
  intros Hm Hlow Hgap Hidx Hu Hp. destruct (gap_batch hs p t y h raw yraw i peer p' Hm Hlow Hgap Hp) as [Hm' [sc Hst]].
  destruct Hgap as [[Hh _] [Hlast _] _ _ _ [_ Hlt] [Hnone Hbelow]]. unfold best_header_at in *.
  assert (best_chain (tables (store p')) = <[height h := id_bytes (header_id h)]> (best_chain (tables (store p)))) as Eb.
  { rewrite Hst. unfold put_fork, Store.put_header. cbn. by rewrite Hnone. }
  assert (height_index (tables (store p')) = height_index (tables (store p))) as Ei.
  { rewrite Hst. unfold put_fork, Store.put_header. cbn. by rewrite Hnone. }
  split; [done|]. rewrite Eb, lookup_insert_eq. split; [done|]. intros cfg.
  destruct (settled_row _ _ _ _ _ _ (settle preimage hs p [] Hm) (last_Some_elem_of _ _ Hlast)) as [Ht _].
  apply (boot_gap cfg _ (height t) (height h) (id_bytes (header_id t)) (id_bytes (header_id h))).
  - by rewrite Ei.
  - rewrite Eb. intros k id [[<- _]|[_ Hk]]%lookup_insert_Some; [by apply (parse_typed raw)|by eapply Hu].
  - by rewrite Eb, lookup_insert_ne by lia.
  - by rewrite Eb, lookup_insert_eq.
  - done.
  - by rewrite Eb, lookup_insert_ne by lia.
Qed.

End Forks.
End PipelineForks.
