(* ===== verification/PipelineExample.v ===== *)
(** * The modifier pipeline: examples

    A cache that never fills as an instance of the caches, headers that are looked up by
    a one-byte name, and the runs that witness the theorems of the pipeline and of the
    restart. One run shows what the pipeline does to its chain and to the best chain of its
    store when fork headers come in an unlucky order. *)

From S2P Require Import Prelude Bytes Frame ChainConfig VotingCodec Voting Header Difficulty Pow HeaderStore.
From S2P Require Import Sections SyncInfo Messages Handshake MempoolTypes Mempool Store HeaderChain HeaderChainInv HeaderChainOps HeaderChainReach.
From S2P Require Import ChainStore Pipeline PipelineInv PipelineForks.
Import ChainConfig VotingCodec Voting Difficulty Pow Sections SyncInfo Store HeaderStore HeaderChain.
Import HeaderChainInv HeaderChainOps HeaderChainReach ChainStore Pipeline PipelineInv PipelineForks.

Module PipelineEx.

(** ** A cache that never fills *)

#[local] Instance map_cache : LruCache (gmap Z) := {
  lru_new V _ := ∅;
  lru_get V k c := (c !! k, c);
  lru_peek V k c := c !! k;
  lru_put V k v c := <[k := v]> c;
  lru_pop V k c := delete k c;
  lru_clear V _ := ∅;
  lru_resize V _ c := c;
  lru_len V c := Z.of_nat (size c);
}.

#[local] Instance map_laws : LruLaws (gmap Z).
Proof.
  split; intros *; cbn; try done.
  - apply lookup_insert_eq.
  - intros Hne. by rewrite lookup_insert_ne.
  - apply lookup_delete_eq.
  - intros Hne. by rewrite lookup_delete_ne.
Qed.

#[local] Instance map_push : LruPush (gmap Z) := {
  lru_push V k v c := ((fun w => (k, w)) <$> c !! k, <[k := v]> c);
  lru_iter V c := map_to_list c;
}.

#[local] Instance map_push_laws : LruPushLaws (gmap Z).
Proof.
  split; intros *; cbn.
  - apply lookup_insert_eq.
  - intros Hne. by rewrite lookup_insert_ne.
  - intros Hw [Hn| ->]; [|by rewrite Hw]. destruct (decide (k' = k)) as [->|Hne].
    + by rewrite lookup_insert_eq in Hn.
    + rewrite lookup_insert_ne in Hn by done. congruence.
  - destruct (c !! k) eqn:E; cbn; [|done]. by intros [= <- <-].
  - apply elem_of_map_to_list.
  - apply NoDup_fst_map_to_list.
Qed.

(** ** Headers *)

(** A scheme whose compact form is the difficulty itself. *)
#[local] Instance ex_pow : PowScheme := {
  decode_compact_bits b := b;
  encode_compact_bits d := d;
  order_bigint := 10 ^ 30;
  pow_hit h := Some (timestamp h mod 7);
}.

Definition ex_header (id parent ts k : Z) : Header := mk_header 2 id parent 0 0 ts 16842752 k 0 (0, 0, 0).

(** The chain [g1 h2 h3 h4 h5], a fork [a2 a3 a4] of it, and a header far above [a2]. *)
Definition g1 : Header := ex_header 11 0 1000 1.
Definition h2 : Header := ex_header 12 11 46000 2.
Definition h3 : Header := ex_header 13 12 91000 3.
Definition h4 : Header := ex_header 14 13 136000 4.
Definition h5 : Header := ex_header 15 14 181000 5.
Definition a2 : Header := ex_header 22 11 47000 2.
Definition a3 : Header := ex_header 23 22 92000 3.
Definition a4 : Header := ex_header 24 23 137000 4.
Definition far : Header := ex_header 33 22 138000 100.
(** Its compact difficulty is zero. *)
Definition zero : Header := mk_header 2 44 13 0 0 136000 0 4 0 (0, 0, 0).

Definition all_headers : list Header := [g1; h2; h3; h4; h5; a2; a3; a4; far; zero].
Definition ex_preimage (id : id32) : option Header := snd <$> list_find (fun h => header_id h = id) all_headers.

#[local] Instance name_io : HeaderIO := {
  header_serialize h := Some [header_id h];
  header_parse l := match l with [id] => ex_preimage id | _ => None end;
}.

Lemma ex_typed raw x :
  header_parse raw = Some x ->
  (genuine ex_preimage x /\ is_u32 (height x) /\ is_id (header_id x)) /\ fits x /\ 0 <= decode_compact_bits (n_bits x).
Proof.
  destruct raw as [|id [|? ?]]; cbn [header_parse name_io]; [done| |done]. intros Hp. pose proof Hp as Hfind.
  unfold ex_preimage in Hp. destruct (list_find _ _) as [[i y]|] eqn:E; [|done]. injection Hp as ->.
  apply list_find_Some in E as (Hi & Hid & _).
  assert (Forall (fun x => is_u32 (height x) /\ is_id (header_id x) /\ fits x /\ 0 <= n_bits x) all_headers) as Hall.
  { repeat constructor; vm_compute; done. }
  rewrite Forall_forall in Hall. destruct (Hall x) as (? & ? & ? & ?); [by eapply list_elem_of_lookup_2|].
  split_and!; try done. unfold genuine. by rewrite Hid.
Qed.

Lemma ex_parse raw x :
  header_parse raw = Some x -> genuine ex_preimage x /\ is_u32 (height x) /\ is_id (header_id x).
Proof. intros Hp%ex_typed. apply Hp. Qed.

(** A hash that keeps its whole input, behind 31 zeros. *)
#[local] Instance ex_sections : SectionIO Z := {
  blake2b256 l := replicate 31 0 ++ [Zpos (encode l)];
  merkle_root ls := replicate 31 0 ++ [Z.of_nat (length ls)];
  tx_parse l := match l with x :: r => Some (x, r) | [] => None end;
  tx_id x := [x];
  tx_proofs x := [];
}.

(** ** Runs *)

Local Abbreviation pipeline := (Pipeline (C := gmap Z)).
Definition ex_clock (_ : Z) : Z := 1000000.
Definition ex_instant (n : Z) : Z := n.
(** Every fourth message finds its channel full. *)
Definition ex_room (n : Z) : bool := negb (n mod 4 =? 3).

Definition feed (batch : list ModifierBatchItem) (p : pipeline) : option pipeline :=
  process_batch (Tx := Z) (RuleStatus := Z) ex_clock ex_instant ex_room batch p.

Definition named (id : Z) : ModifierBatchItem := mk_item HEADER_TYPE_ID (id_bytes id) [id] None.

Definition start : pipeline := new_pipeline (new (RuleStatus := Z) config_testnet) (Store.open no_tables).

Definition run_batch (batch : list ModifierBatchItem) (p : pipeline) : pipeline := default start (feed batch p).

Lemma run_batch_runs batch p :
  match feed batch p with Some _ => true | None => false end = true -> feed batch p = Some (run_batch batch p).
Proof. unfold run_batch. by destruct (feed batch p). Qed.

Ltac runs := apply run_batch_runs; vm_compute; reflexivity.

Definition after (ids : list Z) (p : pipeline) : pipeline := run_batch (named <$> ids) p.

(** The chain of three headers, then with the fork [a2 a3] stored beside it. *)
Definition three : pipeline := after [11; 12; 13] start.
Definition forked : pipeline := after [22; 23] three.

Lemma start_in_sync : in_sync ex_preimage [] start.
Proof.
  split; cbn; try done.
  - apply repr_new.
  - by intros x ?%not_elem_of_nil.
  - by intros e ?%not_elem_of_nil.
Qed.

(** All headers of the example are low. *)
Lemma ex_left hs (p : pipeline) batch : in_sync ex_preimage hs p -> heights_left hs p batch.
Proof.
  intros Hm l _ _ Hl. apply (Forall_impl _ _ _ Hl). intros x [Hx|[(raw & _ & Hp)|[(k & raw & Hk)|(i & raw & _ & Hp)]]].
  - pose proof (mid_heights _ _ _ _ _ _ Hm) as Hh. rewrite Forall_forall in Hh. by apply Hh.
  - apply ex_typed in Hp. apply Hp.
  - destruct (mid_buffer _ _ _ _ _ _ Hm k x raw Hk) as [Hp _]. apply ex_typed in Hp. apply Hp.
  - apply ex_typed in Hp. apply Hp.
Qed.

Lemma feed_in_sync hs p batch p' :
  in_sync ex_preimage hs p -> feed batch p = Some p' -> exists hs', in_sync ex_preimage hs' p'.
Proof.
  intros Hm Hf. destruct (batch_step ex_clock ex_instant ex_room ex_preimage ex_parse hs p batch p' Hm (ex_left _ _ _ Hm) Hf)
    as (hs' & Hs & _). exists hs'. by eapply unsettle.
Qed.

Lemma pipeline_in_sync_witness :
  feed (named <$> [13; 11; 12]) start = Some (after [13; 11; 12] start) /\
  exists hs, in_sync ex_preimage hs (after [13; 11; 12] start) /\
    batch_change [] start hs (after [13; 11; 12] start) /\
    Forall (at_hand [] start (named <$> [13; 11; 12])) hs /\
    (forall x, x ∈ hs -> load_header (store (after [13; 11; 12] start)) (height x) = Some x /\
       is_Some (header_score (id_bytes (header_id x)) (store (after [13; 11; 12] start)))).
Proof.
  assert (feed (named <$> [13; 11; 12]) start = Some (after [13; 11; 12] start)) as E by runs.
  split; [exact E|].
  exact (pipeline_in_sync ex_clock ex_instant ex_room ex_preimage ex_parse [] start _ _ start_in_sync (ex_left _ _ _ start_in_sync) E).
Defined.

(** A header and, in the same batch, an extension of it. *)
Definition ext_body : list Z := id_bytes 11 ++ [2] ++ [0; 1; 2; 5; 6] ++ [0; 2; 1; 9].

Definition ext_id : list Z :=
  match section_id_from_body (RuleStatus := Z) (Tx := Z) EXTENSION_TYPE_ID ext_body with Ok ident => identity ident | Err _ => [] end.

Definition with_section : list ModifierBatchItem := [mk_item EXTENSION_TYPE_ID ext_id ext_body None; named 11].

Lemma sections_bound_witness :
  feed with_section start = Some (run_batch with_section start) /\
  sections_ok (Tx := Z) (RuleStatus := Z) (tables (store (run_batch with_section start))) /\
  Store.get EXTENSION_TYPE_ID ext_id (store (run_batch with_section start)) = Some ext_body.
Proof.
  assert (feed with_section start = Some (run_batch with_section start)) as E by runs.
  split; [exact E|]. split; [|vm_compute; reflexivity].
  refine (proj1 (sections_bound ex_clock ex_instant ex_room ex_preimage ex_parse [] start _ _ start_in_sync _ (ex_left _ _ _ start_in_sync) _ E)).
  - by intros ty i d _ ?.
  - repeat constructor; vm_compute; done.
Defined.

(** Three parents are asked for, one of them arrives, and a fourth is asked for. *)
Definition ex_asked : list request_op := [Ask 1 0; Ask 2 10; Ask 1 20; Ask 3 30; Ask 4 40; Arrived 2; Ask 4 50].

Lemma requests_bounded_witness :
  let '(r, sent, arrived) := foldl run_request (∅, 0%nat, 0%nat) ex_asked in
  (sent = 4 /\ arrived = 1)%nat /\ (size r <= 3)%nat /\ should_request 9 60050 r = (true, {[9 := 60050]}).
Proof.
  pose proof (requests_bounded 0 ex_asked ∅ ltac:(rewrite map_size_empty; lia) ltac:(repeat constructor; vm_compute; done)) as Hr.
  destruct Hr as (Hs & _ & Hlive). split; [by vm_compute|]. split; [exact Hs|]. apply Hlive.
  apply map_Forall_to_list. vm_compute. repeat constructor; done.
Defined.

(** ** Fork headers in the store's best chain *)

Definition poisoned : pipeline := after [33] (after [22] three).

Definition restarts (p : pipeline) : outcome BootError (HeaderChain (gmap Z)) :=
  (boot (Tx := Z) (RuleStatus := Z) config_testnet (tables (store p))).1.

(** The restart on the store of the chain [g1 h2 h3]. *)
Lemma three_rows k i : best_chain (tables (store three)) !! k = Some i -> exists x, x ∈ [g1; h2; h3] /\ height x = k.
Proof.
  revert k i. apply map_Forall_to_list.
  assert (Forall (fun e : Z * list Z => 1 <= e.1 <= 3) (map_to_list (best_chain (tables (store three))))) as Hall
    by (vm_compute; repeat constructor; done).
  apply (Forall_impl _ _ _ Hall). clear Hall. intros [k i] Hk. cbn in *.
  assert (k = 1 \/ k = 2 \/ k = 3) as [->|[->| ->]] by lia; clear Hk; [exists g1|exists h2|exists h3];
    (split; [|reflexivity]); repeat constructor.
Qed.

Lemma three_sound : sound_chain ex_preimage [g1; h2; h3].
Proof.
  split; [|by repeat (apply Forall_cons; split; [vm_compute|])..].
  intros [|[|[|]]] a b Ha Hb; cbn in Ha, Hb; simplify_eq; by split.
Qed.

Lemma three_holds : holds [g1; h2; h3] (tables (store three)).
Proof.
  split; apply Forall_forall; repeat constructor; try (vm_compute; reflexivity);
    (eexists; split; vm_compute; reflexivity).
Qed.

Lemma three_plain : height_index (tables (store three)) = ∅.
Proof. vm_compute. reflexivity. Qed.

Lemma boot_correct_witness :
  exists c s, boot (Tx := Z) (RuleStatus := Z) config_testnet (tables (store three)) = (Return c, s) /\
    repr ex_preimage [g1; h2; h3] c /\ (score_at 3 c).1 = Return (Some (3 * 16842752)).
Proof.
  destruct (boot_correct ex_preimage (fun raw x Hp => proj1 (ex_parse raw x Hp)) config_testnet [g1; h2; h3]
    (tables (store three))) as (c & s & Hb & Hr & _ & _ & _ & Hsc & _).
  - exact three_sound.
  - exact three_holds.
  - exact three_rows.
  - intros k. rewrite three_plain. apply lookup_empty.
  - left. vm_compute. reflexivity.
  - exists c, s. split_and!; [exact Hb|exact Hr|]. by apply (Hsc 2%nat h3).
Defined.

(** The chain [g1 h2 h3] is sent [a2], a fork of it, and then [far], which claims height
    100 with [a2] as its parent. *)
Lemma far_gap hs :
  in_sync ex_preimage hs (after [22] three) -> gap_header (Tx := Z) hs (after [22] three) h3 a2 far [33] [22].
Proof.
  intros Hm. pose proof (mid_repr _ _ _ _ _ _ Hm) as Hr.
  assert ((tip (wire (Tx := Z) (store (after [22] three)) (chain (after [22] three)))).1 = Return h3) as Ht by (vm_compute; reflexivity).
  assert (by_id (chain (after [22] three)) !! 22 = None) as Hn by (vm_compute; reflexivity).
  assert (best_header_at 100 (store (after [22] three)) = None /\ best_header_at 99 (store (after [22] three)) = None) as Hrows
    by (split; vm_compute; reflexivity).
  assert (Store.get HEADER_TYPE_ID (id_bytes 22) (store (after [22] three)) = Some [22]) as Hb by (vm_compute; reflexivity).
  assert (exists x bytes, header_score (id_bytes 22) (store (after [22] three)) = Some (x :: bytes)) as Hsc
    by (eexists _, _; vm_compute; reflexivity).
  revert Hr Ht Hn Hrows Hb Hsc. generalize (after [22] three). clear Hm. intros q Hr Ht Hn Hrows Hb Hsc. split.
  - split; vm_compute; reflexivity.
  - split; [|exact Ht]. destruct (tip _) as [o c'] eqn:E. cbn in Ht. rewrite Ht in E.
    exact (tip_inv _ _ _ _ _ (repr_wire ex_preimage ex_parse hs (store q) _ Hr) E).
  - change (parent_id far) with 22. rewrite (repr_index _ _ _ Hr) in Hn. by apply index_lookup_None.
  - split; [exact Hb|vm_compute; reflexivity].
  - exact Hsc.
  - split; vm_compute; [discriminate|reflexivity].
  - exact Hrows.
Qed.

Lemma far_rows k id : best_header_at k (store (after [22] three)) = Some id -> is_u32 k.
Proof.
  unfold best_header_at. revert k id. apply map_Forall_to_list.
  assert (forallb (fun e : Z * list Z => (0 <=? e.1) && (e.1 <=? U32_MAX)) (map_to_list (best_chain (tables (store (after [22] three))))) = true)
    as Hall by (vm_compute; reflexivity).
  revert Hall. generalize (map_to_list (best_chain (tables (store (after [22] three))))). intros l Hall. apply Forall_forall.
  intros [k id] Hin. rewrite forallb_forall in Hall. apply list_elem_of_In, Hall, andb_true_iff in Hin as [H1' H2'].
  cbn in *. apply Z.leb_le in H1', H2'. by split.
Qed.

Lemma far_plain : height_index (tables (store (after [22] three))) = ∅.
Proof. vm_compute. reflexivity. Qed.

Lemma poisoned_restart_witness :
  best_header_at 100 (store poisoned) = Some (id_bytes 33) /\
  forall cfg, exists e, (boot (C := gmap Z) (Tx := Z) (RuleStatus := Z) cfg (tables (store poisoned))).1 = Fail e.
Proof.
  assert (feed (named <$> [11; 12; 13]) start = Some three) as E1 by runs.
  assert (feed (named <$> [22]) three = Some (after [22] three)) as E2 by runs.
  assert (feed (named <$> [33]) (after [22] three) = Some poisoned) as E3 by runs.
  destruct (feed_in_sync _ _ _ _ start_in_sync E1) as (hs1 & Hm1). destruct (feed_in_sync _ _ _ _ Hm1 E2) as (hs & Hm).
  destruct (poisoned_restart ex_clock ex_instant ex_room ex_preimage ex_parse hs (after [22] three) h3 a2 far [33] [22]
    (id_bytes 33) None poisoned Hm (ex_left _ _ _ Hm) (far_gap hs Hm)) as (_ & Hrow & Hboot).
  - intros k. rewrite far_plain. apply lookup_empty.
  - exact far_rows.
  - exact E3.
  - split; [exact Hrow|exact Hboot].
Defined.

(** ** A reorganization decided too early *)

Definition extended : pipeline := after [14; 15] forked.
Definition worse : pipeline := after [24; 14; 15] forked.

(** A batch can leave the node on a chain with less work than it had. With [a2 a3]
    stored beside [g1 h2 h3], a batch with [a4], [h4] and [h5] first finds that the fork
    with [a4] is heavier than [g1 h2 h3], then chains [h4] and [h5], and then, without
    another look at the scores, reorganizes to the fork; without [a4] in the batch the
    chain is heavier. The row of [h5] stays in BEST_CHAIN above the new tip, so that a
    restart comes up with a chain of height five that is not linked. *)
Theorem reorg_to_less_work :
  feed (named <$> [24; 14; 15]) forked = Some worse /\ feed (named <$> [14; 15]) forked = Some extended /\
  by_id (chain worse) = index [g1; a2; a3; a4] /\ by_id (chain extended) = index [g1; h2; h3; h4; h5] /\
  (cumulative_score (chain worse)).1 = Return (4 * 16842752) /\
  (cumulative_score (chain extended)).1 = Return (5 * 16842752) /\
  best_header_at 5 (store worse) = Some (id_bytes (header_id h5)) /\
  match restarts worse with
  | Return c => chain_height c = 5 /\ (verify_best_chain_linkage None c).1 = Fail (BrokenParentLink 5 15 14 24)
  | _ => False
  end.
Proof.
  split; [runs|]. split; [runs|].
  split_and!; vm_compute; try reflexivity. split; reflexivity.
Qed.

(** One header stops the pipeline. A header whose compact difficulty decodes to zero
    panics in the proof-of-work check, which is the first thing done with it, and the
    task that owns the pipeline ends. *)
Theorem zero_difficulty_panics : feed (named <$> [44]) three = None /\ n_bits zero = 0.
Proof. split; vm_compute; reflexivity. Qed.

End PipelineEx.
