(* ===== verification/Delivery.v ===== *)
(** * The delivery tracker

    [DeliveryTracker] of src/sync/src/delivery.rs: the modifier requests in flight, their
    timeouts and retries. Instants are arguments; the hash map is gone over in some
    order, which the theorems do not depend on. *)

From S2P Require Import Prelude Sections.

Module Delivery.

Import Sections.

Definition DEFAULT_TIMEOUT : duration := from_secs 10.
Definition DEFAULT_MAX_CHECKS : Z := 100.

Definition forgotten_when_undelivered (type_id : Z) : bool := type_id =? TRANSACTION_TYPE_ID.

Record PendingRequest := mk_request {
  req_peer : Z;
  req_type_id : Z;
  requested_at : instant;
  checks : Z;
}.

Record RetryAction := mk_retry { retry_id : id32; retry_type_id : Z; failed_peer : Z }.

Record CheckResult := mk_result {
  retries : list RetryAction;
  fresh : list id32;
  abandoned : list id32;
  forgotten : list id32;
}.

Record DeliveryTracker := mk_tracker {
  pending : gmap id32 PendingRequest;
  evicted : list id32;
  timeout : duration;
  max_checks : Z;
}.

Definition with_config (t : duration) (m : Z) : DeliveryTracker := mk_tracker ∅ [] t m.
Definition delivery_new : DeliveryTracker := with_config DEFAULT_TIMEOUT DEFAULT_MAX_CHECKS.

Definition with_pending (d : DeliveryTracker) (p : gmap id32 PendingRequest) : DeliveryTracker :=
  mk_tracker p (evicted d) (timeout d) (max_checks d).

Definition mark_requested (now : instant) (ids : list id32) (peer type_id : Z) (d : DeliveryTracker)
    : DeliveryTracker :=
  with_pending d (foldl (fun p id => <[id := mk_request peer type_id now 0]> p) (pending d) ids).

(** [mark_retried]: an id that is not pending is skipped. *)
Definition mark_retried (ids : list id32) (peer : Z) (d : DeliveryTracker) : DeliveryTracker :=
  with_pending d
    (foldl (fun p id =>
       alter (fun r => mk_request peer (req_type_id r) (requested_at r) (checks r)) id p) (pending d) ids).

Definition mark_received (id : id32) (d : DeliveryTracker) : bool * DeliveryTracker :=
  (bool_decide (is_Some (pending d !! id)), with_pending d (delete id (pending d))).

Definition schedule_rerequest (ids : list id32) (d : DeliveryTracker) : DeliveryTracker :=
  mk_tracker (foldl (fun p id => delete id p) (pending d) ids) (evicted d ++ ids) (timeout d) (max_checks d).

(** What a check does with one request. *)
Inductive verdict := Waiting | Forget | Abandon | Retry (again : PendingRequest).

Definition judge (now : instant) (d : DeliveryTracker) (r : PendingRequest) : verdict :=
  if timeout d <=? duration_since now (requested_at r) then
    if forgotten_when_undelivered (req_type_id r) then Forget
    else
      let n := add_u32 (checks r) 1 in
      if max_checks d <=? n then Abandon
      else Retry (mk_request (req_peer r) (req_type_id r) now n)
  else Waiting.

(** The state of the loop of [check_timeouts]: the map and the three lists. *)
Definition check_one (now : instant) (d : DeliveryTracker) (id : id32) (r : PendingRequest)
    (acc : gmap id32 PendingRequest * list RetryAction * list id32 * list id32)
    : gmap id32 PendingRequest * list RetryAction * list id32 * list id32 :=
  let '(p, rs, ab, fg) := acc in
  match judge now d r with
  | Waiting => (p, rs, ab, fg)
  | Forget => (delete id p, rs, ab, fg ++ [id])
  | Abandon => (delete id p, rs, ab ++ [id], fg)
  | Retry again => (<[id := again]> p, rs ++ [mk_retry id (req_type_id r) (req_peer r)], ab, fg)
  end.

Definition check_timeouts (now : instant) (d : DeliveryTracker) : CheckResult * DeliveryTracker :=
  let '(p, rs, ab, fg) := map_fold (check_one now d) (pending d, [], [], []) (pending d) in
  (mk_result rs (evicted d) ab fg, mk_tracker p [] (timeout d) (max_checks d)).

(** [purge_peer]: the orphaned ids by type. *)
Definition orphan (id : id32) (r : PendingRequest) (m : gmap Z (list id32)) : gmap Z (list id32) :=
  if forgotten_when_undelivered (req_type_id r) then m
  else <[req_type_id r := default [] (m !! req_type_id r) ++ [id]]> m.

Definition purge_peer (peer : Z) (d : DeliveryTracker) : gmap Z (list id32) * DeliveryTracker :=
  let gone := filter (fun e : id32 * PendingRequest => req_peer e.2 = peer) (pending d) in
  (map_fold orphan ∅ gone,
   with_pending d (filter (fun e : id32 * PendingRequest => req_peer e.2 <> peer) (pending d))).

Definition is_pending (id : id32) (d : DeliveryTracker) : bool := bool_decide (is_Some (pending d !! id)).
Definition purge_all (d : DeliveryTracker) : DeliveryTracker := with_pending d ∅.
Definition pending_count (d : DeliveryTracker) : Z := Z.of_nat (size (pending d)).
Definition evicted_count (d : DeliveryTracker) : Z := Z.of_nat (length (evicted d)).

(** ** A check accounts for every request *)

(** The fate of the request under an id. *)
Definition after_check (now : instant) (d : DeliveryTracker) (id : id32) : option PendingRequest :=
  r ← pending d !! id;
  match judge now d r with
  | Waiting => Some r
  | Retry again => Some again
  | _ => None
  end.

(** The entries a list has for the requests of [m] that satisfy [P]. *)
Definition collected {B} (P : PendingRequest -> Prop) (key : B -> id32)
    (make : id32 -> PendingRequest -> B) (m : gmap id32 PendingRequest) (l : list B) : Prop :=
  NoDup (key <$> l) /\
  (forall b, b ∈ l <-> exists x, m !! key b = Some x /\ P x /\ b = make (key b) x).

(** Going over one more request adds it to a list exactly when it belongs there. *)
Lemma collected_in {B} P (key : B -> id32) make m l i r :
  (forall i x, key (make i x) = i) -> m !! i = None -> P r ->
  collected P key make m l -> collected P key make (<[i := r]> m) (l ++ [make i r]).
Proof.
  intros Hkey Hi HP [Hn Hl]. split.
  - rewrite fmap_app. apply NoDup_app. split_and!; [done| |apply NoDup_singleton].
    intros j (b & -> & Hb)%list_elem_of_fmap. cbn. rewrite Hkey, list_elem_of_singleton.
    apply Hl in Hb as (x & Hx & _). intros Heq. congruence.
  - intros b. rewrite elem_of_app, list_elem_of_singleton. destruct (decide (key b = i)) as [Hb|Hb].
    + assert (b ∉ l) as Hbl by (intros (x & Hx & _)%Hl; congruence).
      rewrite Hb, lookup_insert_eq. split; [|naive_solver]. intros [?| ->]; [done|]. by exists r.
    + rewrite lookup_insert_ne by congruence. rewrite <- Hl. split; [|auto].
      intros [?| ->]; [done|]. by rewrite Hkey in Hb.
Qed.

Lemma collected_out {B} P (key : B -> id32) make m l i r :
  m !! i = None -> ~ P r -> collected P key make m l -> collected P key make (<[i := r]> m) l.
Proof.
  intros Hi HP [Hn Hl]. split; [done|]. intros b. rewrite Hl. destruct (decide (key b = i)) as [->|Hb].
  - rewrite lookup_insert_eq. split; [intros (x & Hx & _); congruence|naive_solver].
  - by rewrite lookup_insert_ne by congruence.
Qed.

Definition retried (now : instant) (d : DeliveryTracker) (r : PendingRequest) : Prop :=
  match judge now d r with Retry _ => True | _ => False end.
Definition action_of (id : id32) (r : PendingRequest) : RetryAction := mk_retry id (req_type_id r) (req_peer r).

(** What the loop has done once it has gone over the requests of [m]. *)
Record checked (now : instant) (d : DeliveryTracker) (m p : gmap id32 PendingRequest)
    (rs : list RetryAction) (ab fg : list id32) : Prop := {
  checked_map : forall id,
    p !! id = match m !! id with Some _ => after_check now d id | None => pending d !! id end;
  checked_retries : collected (retried now d) retry_id action_of m rs;
  checked_abandoned : collected (fun r => judge now d r = Abandon) (fun i => i) (fun i _ => i) m ab;
  checked_forgotten : collected (fun r => judge now d r = Forget) (fun i => i) (fun i _ => i) m fg;
}.

Lemma check_loop now d m :
  m ⊆ pending d ->
  let '(p, rs, ab, fg) := map_fold (check_one now d) (pending d, [], [], []) m in
  checked now d m p rs ab fg.
Proof.
  revert m. apply (map_fold_weak_ind (fun acc m => m ⊆ pending d ->
    let '(p, rs, ab, fg) := acc in checked now d m p rs ab fg)).
  { intros _. split; [by intros ?|..]; (split; [constructor|]); intros a;
      (split; [by intros ?%not_elem_of_nil|]); intros (? & Hm & _); by rewrite lookup_empty in Hm. }
  intros i r m [[[p rs] ab] fg] Hi IH Hsub.
  assert (pending d !! i = Some r) as Hr by (eapply lookup_weaken; [apply lookup_insert_eq|done]).
  destruct IH as [Hp Hrs Hab Hfg]; [etrans; [by apply insert_subseteq|done]|].
  assert (forall q : gmap id32 PendingRequest,
    (forall j, j <> i -> q !! j = p !! j) -> q !! i = after_check now d i -> forall j,
      q !! j = match <[i := r]> m !! j with Some _ => after_check now d j | None => pending d !! j end) as Hmap.
  { intros q Hne Heq j. destruct (decide (j = i)) as [->|]; [by rewrite lookup_insert_eq|].
    by rewrite lookup_insert_ne, Hne, Hp by done. }
  assert (after_check now d i = match judge now d r with Waiting => Some r | Retry again => Some again | _ => None end)
    as Hafter by (unfold after_check; by rewrite Hr).
  unfold check_one. destruct (judge now d r) as [| | |again] eqn:Ej;
    (split; [apply Hmap|first [by apply collected_out; [done|unfold retried; rewrite Ej; naive_solver|done]
                              |by apply (collected_in _ _ (fun i _ => i))
                              |by apply (collected_in _ _ action_of); [done|done|unfold retried; rewrite Ej|]]..]).
  all: rewrite ?Hafter; intros; rewrite ?lookup_delete_eq, ?lookup_insert_eq; try done.
  all: first [by rewrite lookup_delete_ne|by rewrite lookup_insert_ne|by rewrite Hp, Hi, Hr].
Qed.

(** ** What a check reports *)

(** Attempt counters that have not reached the top of their type. *)
Definition tracker_ok (d : DeliveryTracker) : Prop :=
  map_Forall (fun _ r => 0 <= checks r < U32_MAX) (pending d).

Definition timed_out (now : instant) (d : DeliveryTracker) (r : PendingRequest) : Prop :=
  timeout d <= duration_since now (requested_at r).

#[global] Instance timed_out_dec now d r : Decision (timed_out now d r).
Proof. unfold timed_out. apply _. Defined.

Lemma judge_spec now d r :
  0 <= checks r < U32_MAX ->
  judge now d r =
    if decide (timed_out now d r) then
      if decide (req_type_id r = TRANSACTION_TYPE_ID) then Forget
      else if decide (max_checks d <= checks r + 1) then Abandon
      else Retry (mk_request (req_peer r) (req_type_id r) now (checks r + 1))
    else Waiting.
Proof.
  intros Hc. unfold judge, forgotten_when_undelivered, timed_out.
  assert (add_u32 (checks r) 1 = checks r + 1) as ->.
  { unfold add_u32. apply as_u32_small. int_unfold. lia. }
  repeat case_decide; destruct (Z.leb_spec (timeout d) (duration_since now (requested_at r))); try lia; try done.
  all: destruct (Z.eqb_spec (req_type_id r) TRANSACTION_TYPE_ID); try done.
  all: by destruct (Z.leb_spec (max_checks d) (checks r + 1)); try lia.
Qed.

(** The requests a check reports: those that timed out, sorted by what becomes of them. *)
Definition reports (now : instant) (d : DeliveryTracker) (res : CheckResult) : Prop :=
  (forall a, a ∈ retries res <-> exists r, pending d !! retry_id a = Some r /\
     (timed_out now d r /\ req_type_id r <> TRANSACTION_TYPE_ID /\ checks r + 1 < max_checks d) /\
     a = action_of (retry_id a) r) /\
  (forall i, i ∈ abandoned res <-> exists r, pending d !! i = Some r /\
     timed_out now d r /\ req_type_id r <> TRANSACTION_TYPE_ID /\ max_checks d <= checks r + 1) /\
  (forall i, i ∈ forgotten res <-> exists r, pending d !! i = Some r /\
     timed_out now d r /\ req_type_id r = TRANSACTION_TYPE_ID) /\
  NoDup (retry_id <$> retries res) /\ NoDup (abandoned res) /\ NoDup (forgotten res).

Lemma check_timeouts_spec now d :
  let '(res, d') := check_timeouts now d in
  checked now d (pending d) (pending d') (retries res) (abandoned res) (forgotten res) /\
  fresh res = evicted d /\ evicted d' = [] /\ timeout d' = timeout d /\ max_checks d' = max_checks d.
Proof.
  unfold check_timeouts. pose proof (check_loop now d (pending d) ltac:(done)) as Hc.
  destruct (map_fold _ _ _) as [[[p rs] ab] fg]. done.
Qed.

(** a timeout check reports each request that timed out exactly once: a transaction
    as forgotten, anything else for a retry while it has attempts left and as abandoned
    when it has not; it hands over every modifier queued for a fresh request; and
    afterwards the tracker holds exactly the requests that did not time out, as they
    were, and those to be retried, with one attempt more and the clock restarted. *)
Theorem check_timeouts_correct now d :
  tracker_ok d ->
  let '(res, d') := check_timeouts now d in
  reports now d res /\ fresh res = evicted d /\ evicted d' = [] /\
  (forall i, pending d' !! i =
     match pending d !! i with
     | None => None
     | Some r =>
         if decide (timed_out now d r) then
           if decide (req_type_id r <> TRANSACTION_TYPE_ID /\ checks r + 1 < max_checks d)
           then Some (mk_request (req_peer r) (req_type_id r) now (checks r + 1)) else None
         else Some r
     end).
Proof.
  intros Hok. pose proof (check_timeouts_spec now d) as Hs.
  destruct (check_timeouts now d) as [res d'].
  destruct Hs as ([Hp [Hn1 Hrs] [Hn2 Hab] [Hn3 Hfg]] & Hfr & Hev & _). split_and!; [|done..|].
  - split_and!; [| | |done|by rewrite list_fmap_id in Hn2|by rewrite list_fmap_id in Hn3].
    + intros a. rewrite Hrs. split; intros (r & Hr & Hj & Ha); exists r; split_and!; try done;
        pose proof (Hok _ _ Hr) as Hc; unfold retried in *; rewrite judge_spec in * by done;
        repeat case_decide; naive_solver lia.
    + intros i. rewrite Hab. split; intros (r & Hr & Hj); exists r; pose proof (Hok _ _ Hr) as Hc;
        rewrite judge_spec in * by done; repeat case_decide; naive_solver lia.
    + intros i. rewrite Hfg. split; intros (r & Hr & Hj); exists r; pose proof (Hok _ _ Hr) as Hc;
        rewrite judge_spec in * by done; repeat case_decide; naive_solver lia.
  - intros i. rewrite Hp. unfold after_check. destruct (pending d !! i) as [r|] eqn:Er; [|done]. cbn.
    pose proof (Hok _ _ Er) as Hc. rewrite judge_spec by done. repeat case_decide; naive_solver lia.
Qed.

(** ** Retries are bounded *)

Inductive op :=
  | Requested (now : instant) (ids : list id32) (peer type_id : Z)
  | Retried (ids : list id32) (peer : Z)
  | Received (id : id32)
  | Rerequest (ids : list id32)
  | Checked (now : instant)
  | PurgePeer (peer : Z)
  | PurgeAll.

(** The tracker after an operation, and the retries it asked for. *)
Definition delivery_op (d : DeliveryTracker) (o : op) : list RetryAction * DeliveryTracker :=
  match o with
  | Requested now ids peer type_id => ([], mark_requested now ids peer type_id d)
  | Retried ids peer => ([], mark_retried ids peer d)
  | Received id => ([], (mark_received id d).2)
  | Rerequest ids => ([], schedule_rerequest ids d)
  | Checked now => let '(res, d') := check_timeouts now d in (retries res, d')
  | PurgePeer peer => ([], (purge_peer peer d).2)
  | PurgeAll => ([], purge_all d)
  end.

(** How often the operations ask for a retry of [id]. *)
Fixpoint retry_count (id : id32) (d : DeliveryTracker) (ops : list op) : Z :=
  match ops with
  | [] => 0
  | o :: ops' =>
      let '(rs, d') := delivery_op d o in
      Z.of_nat (length (filter (fun a => retry_id a = id) rs)) + retry_count id d' ops'
  end.

(** The operation does not request [id] anew. *)
Definition leaves_alone (id : id32) (o : op) : Prop :=
  match o with Requested _ ids _ _ => id ∉ ids | _ => True end.

(** The retries a request still has. *)
Definition budget (id : id32) (d : DeliveryTracker) : Z :=
  match pending d !! id with
  | Some r => Z.max 0 (max_checks d - 1 - checks r)
  | None => 0
  end.

Lemma fold_delete_lookup (p : gmap id32 PendingRequest) ids id :
  foldl (fun p i => delete i p) p ids !! id = if decide (id ∈ ids) then None else p !! id.
Proof.
  revert p. induction ids as [|i ids IH]; intros p; cbn; [by rewrite decide_False by apply not_elem_of_nil|].
  rewrite IH. destruct (decide (id = i)) as [->|Hne].
  - rewrite lookup_delete_eq. repeat case_decide; try done; exfalso; set_solver.
  - rewrite lookup_delete_ne by done. repeat case_decide; try done; exfalso; set_solver.
Qed.

Lemma fold_request_lookup (p : gmap id32 PendingRequest) ids r id :
  foldl (fun p i => <[i := r]> p) p ids !! id = if decide (id ∈ ids) then Some r else p !! id.
Proof.
  revert p. induction ids as [|i ids IH]; intros p; cbn; [by rewrite decide_False by apply not_elem_of_nil|].
  rewrite IH. destruct (decide (id = i)) as [->|Hne].
  - rewrite lookup_insert_eq. repeat case_decide; try done; exfalso; set_solver.
  - rewrite lookup_insert_ne by done. repeat case_decide; try done; exfalso; set_solver.
Qed.

Lemma fold_retry_lookup (p : gmap id32 PendingRequest) ids peer id :
  checks <$> foldl (fun p i =>
    alter (fun r => mk_request peer (req_type_id r) (requested_at r) (checks r)) i p) p ids !! id =
  checks <$> p !! id.
Proof.
  revert p. induction ids as [|i ids IH]; intros p; cbn; [done|]. rewrite IH.
  destruct (decide (id = i)) as [->|]; [|by rewrite lookup_alter_ne].
  rewrite lookup_alter_eq. by destruct (p !! i).
Qed.

Lemma budget_le id d d' :
  max_checks d' = max_checks d ->
  (forall r', pending d' !! id = Some r' -> exists r, pending d !! id = Some r /\ checks r <= checks r') ->
  0 <= budget id d' <= budget id d.
Proof.
  intros Hm Hp. unfold budget. rewrite Hm. destruct (pending d' !! id) as [r'|].
  - destruct (Hp r' eq_refl) as (r & -> & Hle). lia.
  - destruct (pending d !! id); lia.
Qed.

Lemma tracker_ok_sub d d' :
  (forall i r', pending d' !! i = Some r' -> exists j r, pending d !! j = Some r /\ checks r = checks r') ->
  tracker_ok d -> tracker_ok d'.
Proof. intros Hs Hok i r' Hr'. destruct (Hs i r' Hr') as (j & r & Hr & <-). by apply (Hok j). Qed.

Lemma count_zero (rs : list RetryAction) id :
  (forall a, a ∈ rs -> retry_id a <> id) -> length (filter (fun a => retry_id a = id) rs) = 0%nat.
Proof.
  induction rs as [|a rs IH]; intros Hn; [done|]. rewrite filter_cons_False by (apply Hn; left).
  apply IH. intros b Hb. apply Hn. by right.
Qed.

Lemma count_le (rs : list RetryAction) id :
  NoDup (retry_id <$> rs) -> (length (filter (fun a => retry_id a = id) rs) <= 1)%nat.
Proof.
  induction rs as [|a rs IH]; cbn [fmap list_fmap]; intros Hn; [cbn; lia|].
  apply NoDup_cons in Hn as [Ha Hn]. rewrite filter_cons. case_decide as Heq; [|by apply IH].
  cbn [length]. rewrite count_zero; [lia|]. intros b Hb Hid. apply Ha. rewrite Heq, <- Hid.
  by apply list_elem_of_fmap_2.
Qed.

(** A retry costs the request one of the retries it has left. *)
Lemma check_budget now id d :
  tracker_ok d -> max_checks d <= U32_MAX ->
  let '(rs, d') := delivery_op d (Checked now) in
  tracker_ok d' /\ max_checks d' = max_checks d /\
  Z.of_nat (length (filter (fun a => retry_id a = id) rs)) + budget id d' <= budget id d.
Proof.
  intros Hok Hmax. cbn. pose proof (check_timeouts_spec now d) as Hs.
  destruct (check_timeouts now d) as [res d'].
  destruct Hs as ([Hp [Hn Hrs] _ _] & _ & _ & _ & Hm). split_and!; [|done|].
  - intros i r' Hr'. rewrite Hp in Hr'. unfold after_check in Hr'.
    destruct (pending d !! i) as [r|] eqn:Er; [|done]. cbn in Hr'. pose proof (Hok _ _ Er) as Hc.
    rewrite judge_spec in Hr' by done. repeat case_decide; simplify_eq; [|done]. cbn in *. lia.
  - unfold budget. rewrite Hm, Hp. unfold after_check.
    assert (forall r, pending d !! id = Some r -> ~ retried now d r ->
      length (filter (fun a => retry_id a = id) (retries res)) = 0%nat) as Hz.
    { intros r Hr Hnot. apply count_zero. intros a (r' & Hr' & Hret & _)%Hrs Heq. congruence. }
    destruct (pending d !! id) as [r|] eqn:Er; cbn.
    + pose proof (Hok _ _ Er) as Hc. cbn in Hc. pose proof (count_le (retries res) id Hn) as Hle.
      specialize (Hz r eq_refl). unfold retried in Hz. rewrite judge_spec in * by done.
      repeat case_decide; cbn in *; try (rewrite Hz by tauto); lia.
    + rewrite count_zero; [lia|]. intros a (r' & Hr' & _)%Hrs Heq. congruence.
Qed.

(** Every other operation that leaves the request alone does not add to its retries. *)
Lemma op_budget id d o :
  tracker_ok d -> max_checks d <= U32_MAX -> leaves_alone id o ->
  let '(rs, d') := delivery_op d o in
  tracker_ok d' /\ max_checks d' = max_checks d /\
  Z.of_nat (length (filter (fun a => retry_id a = id) rs)) + budget id d' <= budget id d.
Proof.
  intros Hok Hmax Hl.
  assert (forall d', max_checks d' = max_checks d ->
    (forall i r', pending d' !! i = Some r' -> exists r, pending d !! i = Some r /\ checks r = checks r') ->
    tracker_ok d' /\ max_checks d' = max_checks d /\ 0 + budget id d' <= budget id d) as Hsub.
  { intros d' Hm Hp. split_and!; [|done|].
    - eapply tracker_ok_sub; [|done]. intros i r' Hr'. destruct (Hp i r' Hr') as (r & ? & ?). eauto.
    - apply budget_le; [done|]. intros r' Hr'. destruct (Hp id r' Hr') as (r & ? & ?). eauto with lia. }
  destruct o as [now ids peer type_id|ids peer|i|ids|now|peer|]; cbn [delivery_op];
    [..|by apply check_budget| |].
  - split_and!; [|done|].
    + intros i r'. cbn. rewrite fold_request_lookup. case_decide; [intros [= <-]; cbn; int_unfold; lia|apply Hok].
    + apply budget_le; [done|]. intros r'. cbn. rewrite fold_request_lookup, decide_False by done. eauto with lia.
  - apply Hsub; [done|]. intros i r' Hr'. cbn in Hr'. pose proof (fold_retry_lookup (pending d) ids peer i) as Hf.
    rewrite Hr' in Hf. destruct (pending d !! i) as [r|]; [|done]. injection Hf as Hf. eauto.
  - apply Hsub; [done|]. intros j r' Hr'. cbn in Hr'. apply lookup_delete_Some in Hr' as [_ Hr']. eauto.
  - apply Hsub; [done|]. intros j r'. cbn. rewrite fold_delete_lookup. case_decide; [done|]. eauto.
  - apply Hsub; [done|]. intros j r'. cbn. rewrite map_lookup_filter_Some. intros [? _]. eauto.
  - apply Hsub; [done|]. intros j r'. cbn. by rewrite lookup_empty.
Qed.

(** whatever happens to a tracker, a modifier that is not requested anew is handed
    out for a retry at most [max_checks - 1] times, less the attempts it has already
    used, and never once it is no longer pending. *)
Theorem retries_bounded id d ops :
  tracker_ok d -> max_checks d <= U32_MAX -> Forall (leaves_alone id) ops ->
  retry_count id d ops <= budget id d.
Proof.
  revert d. induction ops as [|o ops IH]; intros d Hok Hmax Hall; cbn [retry_count].
  { unfold budget. destruct (pending d !! id); lia. }
  apply Forall_cons in Hall as [Ho Hall]. pose proof (op_budget id d o Hok Hmax Ho) as Hb.
  destruct (delivery_op d o) as [rs d']. destruct Hb as (Hok' & Hm & Hle).
  specialize (IH d' Hok' ltac:(by rewrite Hm) Hall). lia.
Qed.

(** ** Examples *)

Definition ex_tracker : DeliveryTracker :=
  mark_requested 0 [7] 1 101 (mark_requested 0 [8] 1 2 (with_config (from_secs 10) 3)).

Lemma ex_tracker_ok : tracker_ok ex_tracker.
Proof. by apply map_Forall_to_list; repeat constructor; vm_compute. Qed.

Lemma check_timeouts_correct_witness :
  let '(res, d') := check_timeouts (from_secs 10) ex_tracker in
  reports (from_secs 10) ex_tracker res /\ forgotten res = [8] /\
  retries res = [mk_retry 7 101 1] /\ pending d' !! 7 = Some (mk_request 1 101 (from_secs 10) 1).
Proof.
  pose proof (check_timeouts_correct (from_secs 10) ex_tracker ex_tracker_ok) as Hc.
  destruct (check_timeouts (from_secs 10) ex_tracker) as [res d'] eqn:E. vm_compute in E. injection E as <- <-.
  destruct Hc as (Hr & _). by split_and!.
Defined.

(** Three timeouts of a tracker with three checks: two retries, then abandoned. *)
Definition ex_checks : list op := [Checked (from_secs 10); Retried [7] 2; Checked (from_secs 20);
                                   Checked (from_secs 30); Checked (from_secs 40)].

Lemma retries_bounded_witness :
  retry_count 7 ex_tracker ex_checks <= budget 7 ex_tracker /\
  retry_count 7 ex_tracker ex_checks = 2 /\ budget 7 ex_tracker = 2.
Proof.
  split_and!; [|by vm_compute..].
  apply (retries_bounded 7 ex_tracker ex_checks); [apply ex_tracker_ok|done|by repeat constructor].
Defined.

End Delivery.
