(* ===== verification/SyncPolicies.v ===== *)
(** * Small policies of the sync machine

    The validation-sweep backoff of src/sync/src/sweep_backoff.rs, the body retention of
    src/sync/src/retention.rs and the catch-up report of src/sync/src/catchup_progress.rs.
    Logging is left out; that an event is emitted is part of the results. *)

From S2P Require Import Prelude.

Module SyncPolicies.

(** ** Sweep backoff *)

Definition BASE_DELAY : duration := from_secs 1.
Definition MAX_DELAY : duration := from_secs 300.
Definition STUCK_THRESHOLD : Z := 5.

Record Armed := mk_armed {
  frontier : Z;
  consecutive : Z;
  next_allowed : instant;
  stuck_emitted : bool;
}.

(** [SweepBackoff]: its one field. *)
Definition SweepBackoff : Type := option Armed.
Definition backoff_idle : SweepBackoff := None.

Record Stall := mk_stall { attempt : Z; delay : duration; stuck_fired : bool }.

(** [u64::checked_shl]: [None] from 64 on; bits shifted out are lost. *)
Definition checked_shl_u64 (x shift : Z) : option Z :=
  if shift <? 64 then Some (as_u64 (Z.shiftl x shift)) else None.

Definition delay_for (n : Z) : duration :=
  let shift := Z.min (sat_sub n 1) 32 in
  let base_ms := as_u64 (as_millis BASE_DELAY) in
  let ms := default U64_MAX (checked_shl_u64 base_ms shift) in
  Z.min (from_millis ms) MAX_DELAY.

Definition should_defer (applied_tip : Z) (now : instant) (b : SweepBackoff) : bool :=
  match b with
  | Some a => (frontier a =? applied_tip) && (now <? next_allowed a)
  | None => false
  end.

(** [record]: the state, the stall to log, and whether [validation_stuck] was emitted
    is [stuck_fired] of the stall. *)
Definition record (before after : Z) (now : instant) (b : SweepBackoff) : option Stall * SweepBackoff :=
  if before <? after then (None, None)
  else
    let '(n, emitted) :=
      match b with
      | Some a => if frontier a =? before then (add_u32 (consecutive a) 1, stuck_emitted a) else (1, false)
      | None => (1, false)
      end in
    let d := delay_for n in
    let fired := negb emitted && (STUCK_THRESHOLD <=? n) in
    (Some (mk_stall n d fired), Some (mk_armed before n (now + d) (emitted || fired))).

(** ** Retention *)

(** [compute_prune_horizon]; dividing by a zero epoch length panics. *)
Definition compute_prune_horizon (flushed keep voting_length : Z) : outcome Empty_set Z :=
  let raw := sat_add_u32 (sat_sub flushed keep) 1 in
  if voting_length <? raw then
    if voting_length =? 0 then Panic
    else
      let epoch_start := mul_u32 (raw / voting_length) voting_length in
      Return (Z.min raw epoch_start)
  else Return raw.

Definition effective_flush_bounds (blocks_to_keep flush_min_blocks flush_max_blocks : Z) : Z * Z :=
  if blocks_to_keep <? 0 then (flush_min_blocks, flush_max_blocks)
  else
    let cap := as_u32 blocks_to_keep in
    (Z.min flush_min_blocks cap, Z.min flush_max_blocks cap).

(** ** Catch-up report *)

Definition REPORT_INTERVAL : duration := from_secs 5.

(** [CatchUpProgressReporter]: its one field. *)
Definition CatchUpProgressReporter : Type := option instant.

Definition maybe_emit (now : instant) (sweep_size : Z) (r : CatchUpProgressReporter)
    : bool * CatchUpProgressReporter :=
  if sweep_size <=? 1 then (false, r)
  else
    match r with
    | Some last =>
        if duration_since now last <? REPORT_INTERVAL then (false, r) else (true, Some now)
    | None => (true, Some now)
    end.

(** ** The backoff over a run of stalls *)

Lemma delay_for_spec n : 1 <= n -> delay_for n = Z.min (from_secs (2 ^ (n - 1))) MAX_DELAY.
Proof.
  intros Hn. unfold delay_for, sat_sub. rewrite (Z.max_r 0) by lia.
  change (as_u64 (as_millis BASE_DELAY)) with 1000.
  assert (forall s, 0 <= s <= 32 -> default U64_MAX (checked_shl_u64 1000 s) = 1000 * 2 ^ s) as Hs.
  { intros s Hs. unfold checked_shl_u64. destruct (Z.ltb_spec s 64); [|lia]. cbn.
    rewrite Z.shiftl_mul_pow2 by lia. apply as_u64_small.
    assert (0 < 2 ^ s <= 2 ^ 32) by (split; [apply Z.pow_pos_nonneg|apply Z.pow_le_mono_r]; lia).
    int_unfold. lia. }
  rewrite Hs by lia. unfold from_millis, from_secs, MAX_DELAY, from_secs.
  destruct (Z.le_ge_cases (n - 1) 32) as [Hle|Hge].
  - rewrite (Z.min_l (n - 1) 32) by lia. lia.
  - rewrite (Z.min_r (n - 1) 32) by lia.
    assert (2 ^ 32 <= 2 ^ (n - 1)) by (apply Z.pow_le_mono_r; lia). lia.
Qed.

(** [n] stalls in a row at a frontier, at the given instants. *)
Fixpoint stalls (tip : Z) (nows : list instant) (b : SweepBackoff) : list Stall * SweepBackoff :=
  match nows with
  | [] => ([], b)
  | now :: nows' =>
      let '(r, b1) := record tip tip now b in
      let '(rs, b2) := stalls tip nows' b1 in
      (match r with Some s => s :: rs | None => rs end, b2)
  end.

(** The state after [n] stalls, the last one at [now]. *)
Definition armed_after (tip n : Z) (now : instant) (b : SweepBackoff) : Prop :=
  match b with
  | Some a => frontier a = tip /\ consecutive a = n /\ next_allowed a = now + delay_for n /\
              stuck_emitted a = (STUCK_THRESHOLD <=? n)
  | None => False
  end.

Lemma record_again tip n now0 now b :
  0 < n < U32_MAX -> armed_after tip n now0 b ->
  exists b', record tip tip now b = (Some (mk_stall (n + 1) (delay_for (n + 1)) (n + 1 =? STUCK_THRESHOLD)), b') /\
    armed_after tip (n + 1) now b'.
Proof.
  intros Hn. unfold armed_after at 1. destruct b as [[f k na e]|]; [|done]. cbn. intros (-> & -> & -> & ->).
  unfold record. rewrite Z.ltb_irrefl. cbn. rewrite Z.eqb_refl.
  assert (add_u32 n 1 = n + 1) as -> by (unfold add_u32; apply as_u32_small; int_unfold; lia).
  assert (negb (STUCK_THRESHOLD <=? n) && (STUCK_THRESHOLD <=? n + 1) = (n + 1 =? STUCK_THRESHOLD)) as ->.
  { unfold STUCK_THRESHOLD. destruct (Z.leb_spec 5 n), (Z.leb_spec 5 (n + 1)), (Z.eqb_spec (n + 1) 5); try done; lia. }
  eexists. split; [done|]. cbn. split_and!; [done..|].
  unfold STUCK_THRESHOLD. destruct (Z.leb_spec 5 n), (Z.leb_spec 5 (n + 1)), (Z.eqb_spec (n + 1) 5); try done; lia.
Qed.

Lemma record_first tip now b :
  (forall a, b = Some a -> frontier a <> tip) ->
  exists b', record tip tip now b = (Some (mk_stall 1 (delay_for 1) false), b') /\ armed_after tip 1 now b'.
Proof.
  intros Hb. unfold record. rewrite Z.ltb_irrefl.
  assert (match b with
          | Some a => if frontier a =? tip then (add_u32 (consecutive a) 1, stuck_emitted a) else (1, false)
          | None => (1, false) end = (1, false)) as ->.
  { destruct b as [a|]; [|done]. destruct (Z.eqb_spec (frontier a) tip); [by destruct (Hb a)|done]. }
  cbn. eexists. by split.
Qed.

Lemma stalls_from tip nows n now0 b :
  0 < n -> n + Z.of_nat (length nows) <= U32_MAX -> armed_after tip n now0 b ->
  (stalls tip nows b).1 =
    (fun k => mk_stall k (delay_for k) (k =? STUCK_THRESHOLD)) <$> seqZ (n + 1) (Z.of_nat (length nows)).
Proof.
  revert n now0 b. induction nows as [|now nows IH]; intros n now0 b Hn Hmax Ha; [done|].
  cbn [length] in *. cbn [stalls].
  destruct (record_again tip n now0 now b) as (b' & -> & Ha'); [lia|done|].
  specialize (IH (n + 1) now b' ltac:(lia) ltac:(lia) Ha').
  destruct (stalls tip nows b') as [rs b2]. cbn in IH |- *. subst rs.
  rewrite (seqZ_cons (n + 1)) by lia. cbn. do 3 f_equal; lia.
Qed.

(** the sweep backs off exponentially: the [k]-th stall in a row at a frontier
    imposes a delay of [2^(k-1)] seconds, capped at five minutes, [validation_stuck] is
    emitted at the fifth stall and at no other, and from one stall until its delay has
    elapsed a sweep at the frontier is deferred, while one at any other height is not.
    One sweep that moves the tip clears all of it. *)
Theorem backoff_correct tip now nows b :
  (forall a, b = Some a -> frontier a <> tip) -> Z.of_nat (length nows) < U32_MAX ->
  (stalls tip (now :: nows) b).1 =
    (fun k => mk_stall k (Z.min (from_secs (2 ^ (k - 1))) MAX_DELAY) (k =? STUCK_THRESHOLD)) <$>
      seqZ 1 (Z.of_nat (length (now :: nows))) /\
  (forall other t, should_defer other t (record tip tip now b).2 =
     (other =? tip) && (t <? now + from_secs 1)) /\
  (forall after, tip < after -> record tip after now b = (None, backoff_idle)).
Proof.
  intros Hb Hmax. destruct (record_first tip now b Hb) as (b' & Hrec & Ha). split_and!.
  - cbn [stalls length]. rewrite Hrec. pose proof (stalls_from tip nows 1 now b' ltac:(lia) ltac:(lia) Ha) as Hs.
    destruct (stalls tip nows b') as [rs b2]. cbn in Hs |- *. subst rs.
    rewrite (seqZ_cons 1) by lia. replace (Z.pred (Z.of_nat (S (length nows)))) with (Z.of_nat (length nows)) by lia.
    change (Z.succ 1) with (1 + 1). cbn. f_equal.
    apply list_fmap_ext. intros i k Hk. apply lookup_seqZ in Hk as [-> _]. by rewrite delay_for_spec by lia.
  - intros other t. rewrite Hrec. cbn. destruct b' as [a|]; [|done]. destruct Ha as (<- & _ & Hna & _). cbn.
    rewrite Hna, (Z.eqb_sym (frontier a)). done.
  - intros after Hlt. unfold record. by rewrite (proj2 (Z.ltb_lt tip after) Hlt).
Qed.

Lemma backoff_correct_witness :
  (stalls 100 (replicate 11 0) backoff_idle).1 =
    (fun k => mk_stall k (Z.min (from_secs (2 ^ (k - 1))) MAX_DELAY) (k =? STUCK_THRESHOLD)) <$> seqZ 1 11 /\
  delay <$> (stalls 100 (replicate 11 0) backoff_idle).1 =
    from_secs <$> [1; 2; 4; 8; 16; 32; 64; 128; 256; 300; 300].
Proof.
  split; [|by vm_compute].
  apply (backoff_correct 100 0 (replicate 10 0) backoff_idle); [done|done].
Defined.

(** retention never prunes what the node still needs. With [raw] the oldest body
    inside the [keep] blocks below the flushed height, the horizon is always computed and
    is at most [raw]; for every height from [raw] on that has completed an epoch, the
    boundary block that opened its epoch is kept too, so its parameters can be recomputed
    from storage; and at most one further epoch of bodies is kept for that. *)
Theorem prune_horizon_correct flushed keep voting_length :
  is_u32 flushed -> is_u32 keep -> 0 < voting_length <= U32_MAX ->
  let raw := Z.min (Z.max 0 (flushed - keep) + 1) U32_MAX in
  exists horizon, compute_prune_horizon flushed keep voting_length = Return horizon /\
    raw - voting_length < horizon <= raw /\
    (forall t, raw <= t -> voting_length <= t -> horizon <= (t / voting_length) * voting_length) /\
    (raw <= voting_length -> horizon = raw).
Proof.
  intros Hf Hk HL raw. unfold compute_prune_horizon.
  change (sat_add_u32 (sat_sub flushed keep) 1) with raw.
  assert (0 <= raw <= U32_MAX) as Hraw by (subst raw; revert Hf Hk; int_unfold; lia). clearbody raw.
  destruct (Z.ltb_spec voting_length raw) as [Hlt|Hle].
  - destruct (Z.eqb_spec voting_length 0); [lia|].
    pose proof (Z.div_mod raw voting_length ltac:(lia)) as Hdm.
    pose proof (Z.mod_pos_bound raw voting_length ltac:(lia)) as Hm.
    assert (mul_u32 (raw / voting_length) voting_length = raw / voting_length * voting_length) as ->.
    { unfold mul_u32. apply as_u32_small. revert Hraw. int_unfold. nia. }
    eexists. split; [done|]. split_and!; [lia..| |lia].
    intros t Ht _. pose proof (Z.div_le_mono raw t voting_length ltac:(lia) Ht). nia.
  - exists raw. split_and!; [done|lia|lia| |done].
    intros t _ Ht. assert (1 <= t / voting_length) by (apply Z.div_le_lower_bound; lia). nia.
Qed.

Lemma prune_horizon_correct_witness :
  compute_prune_horizon 5000 100 1024 = Return 4096 /\
  exists horizon, compute_prune_horizon 5000 100 1024 = Return horizon /\
    Z.min (Z.max 0 (5000 - 100) + 1) U32_MAX - 1024 < horizon <= Z.min (Z.max 0 (5000 - 100) + 1) U32_MAX.
Proof.
  split; [by vm_compute|].
  destruct (prune_horizon_correct 5000 100 1024) as (h & Hh & Hb & _); [int_unfold; lia..|].
  by exists h.
Defined.

End SyncPolicies.
