(* ===== verification/AvlTree.v ===== *)
(** * Serialized AVL+ trees

    The UTXO set is an authenticated AVL+ tree whose nodes are stored and sent packed:
    src/sync/src/snapshot/parser.rs (labels, the packed form, the node parser) and
    src/sync/src/snapshot/tree.rs (the verifying walk over a depth-first stream of
    nodes). A [Stub] stands for a subtree of which only the label is known: the nodes
    below a manifest's boundary. Blake2b256 is the interface [Blake2b]. *)

From S2P Require Import Prelude Bytes.

(** Blake2b256, of which the development uses that a digest has 32 bytes. *)
Class Blake2b := blake2b : list Z -> list Z.
Class Blake2bLaws `{Blake2b} : Prop := blake2b_length : forall l, length (blake2b l) = 32%nat.

Module Avl.

Definition LABEL_LEAF_PREFIX : Z := 0.
Definition LABEL_INTERNAL_PREFIX : Z := 1.
Definition PACKED_INTERNAL_PREFIX : Z := 0.
Definition PACKED_LEAF_PREFIX : Z := 1.
Definition KEY_LENGTH : nat := 32.

Inductive tree :=
  | Leaf (key value next_key : list Z)
  | Node (balance : Z) (key : list Z) (l r : tree)
  | Stub (l : list Z).

(** [ParsedNode]: the label is recomputed from the bytes it was parsed from. *)
Inductive ParsedNode :=
  | PInternal (label : list Z) (balance : Z) (key left_label right_label packed_bytes : list Z)
  | PLeaf (label key value next_key packed_bytes : list Z).

Definition parsed_label (n : ParsedNode) : list Z :=
  match n with
  | PInternal label _ _ _ _ _ => label
  | PLeaf label _ _ _ _ => label
  end.

Definition parsed_bytes (n : ParsedNode) : list Z :=
  match n with
  | PInternal _ _ _ _ _ packed => packed
  | PLeaf _ _ _ _ packed => packed
  end.

Definition into_parts (n : ParsedNode) : list Z * list Z := (parsed_label n, parsed_bytes n).

Inductive ParseError := UnexpectedEof | InvalidPrefix (b : Z).

Inductive Side := Left | Right.

Inductive TreeError :=
  | Parse (e : ParseError)
  | Truncated
  | TrailingBytes (n : Z)
  | RootMismatch
  | BrokenLink (parent : Z) (side : Side).

Record VerifiedTree := mk_verified {
  root_label : list Z;
  subtree_ids : list (list Z);
  tree_nodes : list ParsedNode;
}.

(** What the walk owes the next node it parses. *)
Record Owed := mk_owed {
  owed_label : option (list Z);
  owed_depth : Z;
  owed_parent : option (Z * Side);
}.

Section Labels.
Context `{Blake2b}.

Definition compute_leaf_label (key value next_key : list Z) : list Z :=
  blake2b (LABEL_LEAF_PREFIX :: key ++ value ++ next_key).

Definition compute_internal_label (balance : Z) (left_label right_label : list Z) : list Z :=
  blake2b (LABEL_INTERNAL_PREFIX :: as_u8 balance :: left_label ++ right_label).

(** [parse_node]. The keys are copied into 32-byte arrays, which panics for any other
    [key_length]. *)
Definition parse_node (data : list Z) (key_length : nat) : outcome ParseError (ParsedNode * nat) :=
  match data with
  | [] => Fail UnexpectedEof
  | prefix :: _ =>
      if prefix =? PACKED_INTERNAL_PREFIX then
        let expected := (1 + 1 + key_length + 32 + 32)%nat in
        if (length data <? expected)%nat then Fail UnexpectedEof
        else if negb (key_length =? 32)%nat then Panic
        else
          let balance := as_i8 (nth 1 data 0) in
          let key := take key_length (drop 2 data) in
          let left_label := take 32 (drop (2 + key_length) data) in
          let right_label := take 32 (drop (2 + key_length + 32) data) in
          Return (PInternal (compute_internal_label balance left_label right_label) balance key
                    left_label right_label (take expected data), expected)
      else if prefix =? PACKED_LEAF_PREFIX then
        let header_len := (1 + key_length + 4)%nat in
        if (length data <? header_len)%nat then Fail UnexpectedEof
        else if negb (key_length =? 32)%nat then Panic
        else
          let key := take key_length (drop 1 data) in
          let value_len := Z.to_nat (from_be (take 4 (drop (1 + key_length) data))) in
          let total := (header_len + value_len + key_length)%nat in
          if (length data <? total)%nat then Fail UnexpectedEof
          else
            let value := take value_len (drop header_len data) in
            let next_key := take key_length (drop (header_len + value_len) data) in
            Return (PLeaf (compute_leaf_label key value next_key) key value next_key (take total data), total)
      else Fail (InvalidPrefix prefix)
  end.

(** [parse_dfs_stream]: a round consumes a byte at least, so one for each byte is enough. *)
Fixpoint parse_dfs_loop (fuel : nat) (data : list Z) (key_length : nat)
    : outcome ParseError (list ParsedNode) :=
  match fuel, data with
  | _, [] => Return []
  | O, _ => Return []
  | S fuel', _ =>
      let! (node, consumed) := parse_node data key_length in
      let! nodes := parse_dfs_loop fuel' (drop consumed data) key_length in
      Return (node :: nodes)
  end.

Definition parse_dfs_stream (data : list Z) (key_length : nat) : outcome ParseError (list ParsedNode) :=
  parse_dfs_loop (length data) data key_length.

(** The check of a parsed node against what is owed. *)
Definition check_owed (o : Owed) (node : ParsedNode) : result TreeError unit :=
  match owed_label o with
  | Some expected =>
      if decide (parsed_label node = expected) then Ok ()
      else Err (match owed_parent o with
                | None => RootMismatch
                | Some (parent, side) => BrokenLink parent side
                end)
  | None => Ok ()
  end.

(** The children of a node: owed in turn, or subtree ids at the boundary. *)
Definition descend (boundary_depth : option Z) (depth index : Z) (node : ParsedNode)
    : list Owed * list (list Z) :=
  match node with
  | PInternal _ _ _ left_label right_label _ =>
      if decide (boundary_depth = Some depth) then ([], [left_label; right_label])
      else ([mk_owed (Some left_label) (depth + 1) (Some (index, Left));
             mk_owed (Some right_label) (depth + 1) (Some (index, Right))], [])
  | PLeaf _ _ _ _ _ => ([], [])
  end.

Definition map_fail {E F A} (f : E -> F) (m : outcome E A) : outcome F A :=
  match m with
  | Return a => Return a
  | Fail e => Fail (f e)
  | Panic => Panic
  end.

(** The loop of [walk_tree]: the head of [owed] is popped next. [None] is a round more
    than [fuel]. *)
Fixpoint walk_loop (fuel : nat) (data : list Z) (key_length : nat) (boundary_depth : option Z)
    (owed : list Owed) (nodes : list ParsedNode) (ids : list (list Z))
    : option (outcome TreeError (list Z * list ParsedNode * list (list Z))) :=
  match owed with
  | [] => Some (Return (data, nodes, ids))
  | o :: owed' =>
      match fuel with
      | O => None
      | S fuel' =>
          match data with
          | [] => Some (Fail Truncated)
          | _ =>
              match map_fail Parse (parse_node data key_length) with
              | Return (node, consumed) =>
                  match check_owed o node with
                  | Err e => Some (Fail e)
                  | Ok _ =>
                      let '(children, cut) :=
                        descend boundary_depth (owed_depth o) (Z.of_nat (length nodes)) node in
                      walk_loop fuel' (drop consumed data) key_length boundary_depth
                        (children ++ owed') (nodes ++ [node]) (ids ++ cut)
                  end
              | Fail e => Some (Fail e)
              | Panic => Some Panic
              end
          end
      end
  end.

(** [walk_tree]: every round consumes a byte or ends the walk. *)
Definition walk_tree (data : list Z) (key_length : nat) (boundary_depth : option Z)
    (expected_root : option (list Z)) : option (outcome TreeError VerifiedTree) :=
  match walk_loop (S (length data)) data key_length boundary_depth [mk_owed expected_root 1 None] [] [] with
  | Some (Return (rest, nodes, ids)) =>
      Some (match rest with
            | [] => match nodes with
                    | first :: _ => Return (mk_verified (parsed_label first) ids nodes)
                    | [] => Fail Truncated
                    end
            | _ => Fail (TrailingBytes (Z.of_nat (length rest)))
            end)
  | Some (Fail e) => Some (Fail e)
  | Some Panic => Some Panic
  | None => None
  end.

(** [verify_chunk]. *)
Definition verify_chunk (data subtree_id : list Z) : option (outcome TreeError VerifiedTree) :=
  walk_tree data KEY_LENGTH None (Some subtree_id).

(** ** Trees and their serialization *)

Fixpoint label (t : tree) : list Z :=
  match t with
  | Leaf key value next_key => compute_leaf_label key value next_key
  | Node balance _ l r => compute_internal_label balance (label l) (label r)
  | Stub l => l
  end.

(** The packed form of the root of a tree. *)
Definition pack (t : tree) : list Z :=
  match t with
  | Leaf key value next_key =>
      PACKED_LEAF_PREFIX :: key ++ be_bytes 4 (Z.of_nat (length value)) ++ value ++ next_key
  | Node balance key l r => PACKED_INTERNAL_PREFIX :: as_u8 balance :: key ++ label l ++ label r
  | Stub _ => []
  end.

(** The packed nodes of a tree, in depth-first order, and as one stream. *)
Fixpoint packed_nodes (t : tree) : list (list Z * list Z) :=
  match t with
  | Leaf _ _ _ => [(label t, pack t)]
  | Node _ _ l r => (label t, pack t) :: packed_nodes l ++ packed_nodes r
  | Stub _ => []
  end.

Definition stream (t : tree) : list Z := concat (packed_nodes t).*2.

(** The labels of the subtrees left out. *)
Fixpoint stubs (t : tree) : list (list Z) :=
  match t with
  | Leaf _ _ _ => []
  | Node _ _ l r => stubs l ++ stubs r
  | Stub l => [l]
  end.

Fixpoint parsed_nodes (t : tree) : list ParsedNode :=
  match t with
  | Leaf key value next_key => [PLeaf (label t) key value next_key (pack t)]
  | Node balance key l r =>
      PInternal (label t) balance key (label l) (label r) (pack t) :: parsed_nodes l ++ parsed_nodes r
  | Stub _ => []
  end.

End Labels.

(** ** Well-formed trees *)

Section Props.
Context `{Blake2bLaws}.

Definition is_i8 (b : Z) : Prop := -128 <= b <= 127.

(** Keys and labels of 32 bytes, a value length that fits its four bytes. *)
Fixpoint wf (t : tree) : Prop :=
  match t with
  | Leaf key value next_key =>
      length key = 32%nat /\ length next_key = 32%nat /\ Z.of_nat (length value) <= U32_MAX
  | Node balance key l r => is_i8 balance /\ length key = 32%nat /\ wf l /\ wf r
  | Stub l => length l = 32%nat
  end.

Definition is_stub (t : tree) : Prop := match t with Stub _ => True | _ => False end.

(** A tree whose subtrees are left out below the boundary, and nowhere else; [depth] is
    the level of its root. *)
Fixpoint cut_at (boundary_depth : option Z) (depth : Z) (t : tree) : Prop :=
  match t with
  | Leaf _ _ _ => True
  | Node _ _ l r =>
      if decide (boundary_depth = Some depth) then is_stub l /\ is_stub r
      else cut_at boundary_depth (depth + 1) l /\ cut_at boundary_depth (depth + 1) r
  | Stub _ => False
  end.

Lemma label_length t : wf t -> length (label t) = 32%nat.
Proof. destruct t; cbn; intros; [apply blake2b_length..|done]. Qed.

(** A tree without gaps. *)
Fixpoint whole (t : tree) : Prop :=
  match t with
  | Leaf _ _ _ => True
  | Node _ _ l r => whole l /\ whole r
  | Stub _ => False
  end.

(** The rows of a tree are in the table. *)
Definition stored (nodes : gmap (list Z) (list Z)) (t : tree) : Prop :=
  Forall (fun n : list Z * list Z => nodes !! n.1 = Some n.2) (packed_nodes t).

Lemma root_packed t : whole t -> (label t, pack t) ∈ packed_nodes t.
Proof. destruct t; cbn; [intros _; by left..|done]. Qed.

Lemma stored_root nodes t : whole t -> stored nodes t -> nodes !! label t = Some (pack t).
Proof.
  intros Hw Hs. unfold stored in Hs. rewrite Forall_forall in Hs. exact (Hs _ (root_packed t Hw)).
Qed.

Lemma as_i8_u8 b : is_i8 b -> as_i8 (as_u8 b) = b.
Proof. unfold is_i8. int_solve. Qed.

Lemma as_u8_i8 b : is_u8 b -> as_u8 (as_i8 b) = b.
Proof. int_solve. Qed.

Lemma as_i8_range b : is_u8 b -> is_i8 (as_i8 b).
Proof. unfold is_i8. int_solve. Qed.

Lemma stream_node b k l r : stream (Node b k l r) = pack (Node b k l r) ++ stream l ++ stream r.
Proof. unfold stream. cbn [packed_nodes fmap list_fmap snd concat]. by rewrite fmap_app, concat_app. Qed.

Lemma stream_leaf k v n : stream (Leaf k v n) = pack (Leaf k v n).
Proof. unfold stream. cbn [packed_nodes fmap list_fmap snd concat]. by rewrite app_nil_r. Qed.

Lemma pack_leaf_length k v n :
  length k = 32%nat -> length n = 32%nat -> length (pack (Leaf k v n)) = (69 + length v)%nat.
Proof. intros Hk Hn. cbn. rewrite !length_app, be_bytes_length. lia. Qed.

Lemma take_app_exact {A} n (a b : list A) : length a = n -> take n (a ++ b) = a.
Proof. intros <-. apply take_app_length. Qed.

Lemma drop_app_exact {A} n (a b : list A) : length a = n -> drop n (a ++ b) = b.
Proof. intros <-. apply drop_app_length. Qed.

Lemma drop_app_plus {A} n m (a b : list A) : length a = n -> drop (n + m) (a ++ b) = drop m b.
Proof. intros <-. rewrite drop_app_ge by lia. f_equal. lia. Qed.

Lemma parse_leaf k v n r :
  wf (Leaf k v n) ->
  parse_node (pack (Leaf k v n) ++ r) 32 =
    Return (PLeaf (label (Leaf k v n)) k v n (pack (Leaf k v n)), length (pack (Leaf k v n))).
Proof.
  intros (Hk & Hn & Hv). pose proof (pack_leaf_length k v n Hk Hn) as Hlen. rewrite Hlen.
  unfold parse_node. cbn [pack app]. fold (pack (Leaf k v n)).
  change (PACKED_LEAF_PREFIX =? PACKED_INTERNAL_PREFIX) with false. cbn iota.
  change (PACKED_LEAF_PREFIX =? PACKED_LEAF_PREFIX) with true. cbn iota.
  change (PACKED_LEAF_PREFIX :: (k ++ be_bytes 4 (Z.of_nat (length v)) ++ v ++ n) ++ r)
    with (pack (Leaf k v n) ++ r).
  destruct (Nat.ltb_spec (length (pack (Leaf k v n) ++ r)) (1 + 32 + 4)) as [Hc|_];
    [rewrite length_app, Hlen in Hc; lia|].
  cbn [Nat.eqb negb].
  assert (take 4 (drop (1 + 32) (pack (Leaf k v n) ++ r)) = be_bytes 4 (Z.of_nat (length v))) as ->.
  { cbn [pack app Nat.add]. rewrite skipn_cons, <- !app_assoc, (drop_app_exact 32) by done.
    by rewrite take_app_exact by apply be_bytes_length. }
  rewrite from_be_u32 by (int_unfold; lia). rewrite Nat2Z.id.
  destruct (Nat.ltb_spec (length (pack (Leaf k v n) ++ r)) (1 + 32 + 4 + length v + 32)) as [Hc|_];
    [rewrite length_app, Hlen in Hc; lia|].
  assert (take 32 (drop 1 (pack (Leaf k v n) ++ r)) = k) as ->.
  { cbn [pack app]. rewrite skipn_cons, skipn_O, <- app_assoc. by apply take_app_exact. }
  assert (drop (1 + 32 + 4) (pack (Leaf k v n) ++ r) = v ++ n ++ r) as Hd.
  { cbn [pack app Nat.add]. rewrite skipn_cons, <- !app_assoc.
    rewrite (drop_app_plus 32 4) by done. by rewrite drop_app_exact by apply be_bytes_length. }
  rewrite Hd, take_app_length, <- (drop_drop _ _ (1 + 32 + 4)), Hd, drop_app_length, (take_app_exact 32) by done.
  replace (1 + 32 + 4 + length v + 32)%nat with (69 + length v)%nat by lia.
  by rewrite take_app_exact by done.
Qed.

Lemma pack_node_length b k l r :
  wf (Node b k l r) -> length (pack (Node b k l r)) = 98%nat.
Proof.
  intros (_ & Hk & Hl & Hr). cbn. rewrite !length_app, Hk, !label_length by done. lia.
Qed.

Lemma parse_internal b k l r rest :
  wf (Node b k l r) ->
  parse_node (pack (Node b k l r) ++ rest) 32 =
    Return (PInternal (label (Node b k l r)) b k (label l) (label r) (pack (Node b k l r)), 98%nat).
Proof.
  intros Hwf. pose proof (pack_node_length b k l r Hwf) as Hlen. destruct Hwf as (Hb & Hk & Hl & Hr).
  pose proof (label_length l Hl) as Hll. pose proof (label_length r Hr) as Hlr.
  unfold parse_node. cbn [pack app].
  change (PACKED_INTERNAL_PREFIX =? PACKED_INTERNAL_PREFIX) with true. cbn iota.
  change (PACKED_INTERNAL_PREFIX :: as_u8 b :: (k ++ label l ++ label r) ++ rest)
    with (pack (Node b k l r) ++ rest).
  destruct (Nat.ltb_spec (length (pack (Node b k l r) ++ rest)) (1 + 1 + 32 + 32 + 32)) as [Hc|_];
    [rewrite length_app, Hlen in Hc; lia|].
  cbn [Nat.eqb negb nth pack app]. rewrite as_i8_u8 by done.
  assert (take 32 (drop 2 (pack (Node b k l r) ++ rest)) = k) as Hk'.
  { cbn [pack app]. rewrite !skipn_cons, skipn_O, <- app_assoc. by apply take_app_exact. }
  assert (take 32 (drop (2 + 32) (pack (Node b k l r) ++ rest)) = label l) as Hl'.
  { cbn [pack app Nat.add]. rewrite !skipn_cons, <- !app_assoc, (drop_app_exact 32) by done.
    by apply take_app_exact. }
  assert (take 32 (drop (2 + 32 + 32) (pack (Node b k l r) ++ rest)) = label r) as Hr'.
  { cbn [pack app Nat.add]. rewrite !skipn_cons, <- !app_assoc, (drop_app_plus 32 32) by done.
    rewrite (drop_app_exact 32) by done. by apply take_app_exact. }
  cbn [pack app] in Hk', Hl', Hr'. rewrite Hk', Hl', Hr'.
  change (PACKED_INTERNAL_PREFIX :: as_u8 b :: (k ++ label l ++ label r) ++ rest)
    with (pack (Node b k l r) ++ rest).
  by rewrite (take_app_exact (1 + 1 + 32 + 32 + 32)) by done.
Qed.

(** What a parsed node says of the bytes it was parsed from. *)
Definition parsed_from (n : ParsedNode) (data : list Z) (consumed : nat) : Prop :=
  data = parsed_bytes n ++ drop consumed data /\ length (parsed_bytes n) = consumed /\ (0 < consumed)%nat /\
  match n with
  | PLeaf lbl k v nk p => wf (Leaf k v nk) /\ lbl = label (Leaf k v nk) /\ p = pack (Leaf k v nk)
  | PInternal lbl b k ll rl p =>
      is_i8 b /\ length k = 32%nat /\ length ll = 32%nat /\ length rl = 32%nat /\
      lbl = compute_internal_label b ll rl /\ p = PACKED_INTERNAL_PREFIX :: as_u8 b :: k ++ ll ++ rl
  end.

Lemma length_take_drop {A} n m (l : list A) : (m + n <= length l)%nat -> length (take n (drop m l)) = n.
Proof. intros. rewrite length_take, length_drop. lia. Qed.

Lemma parsed_internal data :
  bytes_ok data -> (98 <= length data)%nat -> nth 0 data 0 = PACKED_INTERNAL_PREFIX ->
  take 98 data = PACKED_INTERNAL_PREFIX :: as_u8 (as_i8 (nth 1 data 0)) ::
    take 32 (drop 2 data) ++ take 32 (drop 34 data) ++ take 32 (drop 66 data).
Proof.
  intros Hok Hlen Hp0. destruct data as [|p [|b d]]; [cbn in Hlen; lia..|]. cbn in Hp0. subst p.
  apply Forall_cons in Hok as [_ [Hb _]%Forall_cons]. cbn [nth]. rewrite as_u8_i8 by done.
  rewrite !firstn_cons, !skipn_cons, skipn_O. do 2 f_equal.
  change 96%nat with (32 + (32 + 32))%nat. by rewrite <- !take_take_drop, drop_drop.
Qed.

Lemma parsed_leaf data (m := Z.to_nat (from_be (take 4 (drop 33 data)))) :
  bytes_ok data -> (69 + m <= length data)%nat -> nth 0 data 0 = PACKED_LEAF_PREFIX ->
  wf (Leaf (take 32 (drop 1 data)) (take m (drop 37 data)) (take 32 (drop (37 + m) data))) /\
  take (69 + m) data =
    pack (Leaf (take 32 (drop 1 data)) (take m (drop 37 data)) (take 32 (drop (37 + m) data))).
Proof.
  intros Hok Hlen Hp0.
  assert (bytes_ok (take 4 (drop 33 data))) as Hok4 by (by apply Forall_take, Forall_drop).
  pose proof (from_be_range _ Hok4) as Hr. rewrite length_take_drop in Hr by lia.
  assert (length (take m (drop 37 data)) = m) as Hm by (apply length_take_drop; lia).
  split; [split_and!; [apply length_take_drop; lia..|]|].
  - rewrite Hm. unfold m. int_unfold. lia.
  - cbn [pack]. rewrite Hm. replace (Z.of_nat m) with (from_be (take 4 (drop 33 data))) by lia.
    replace 4%nat with (length (take 4 (drop 33 data))) at 3 by (apply length_take_drop; lia).
    rewrite be_bytes_from by done. clearbody m. destruct data as [|p d]; [cbn in Hlen; lia|].
    cbn in Hp0. subst p. replace (69 + m)%nat with (S (32 + (4 + (m + 32)))) by lia.
    rewrite firstn_cons, !skipn_cons, skipn_O. f_equal.
    by rewrite <- !take_take_drop, !drop_drop.
Qed.

Lemma parse_node_inv data n consumed :
  bytes_ok data -> parse_node data 32 = Return (n, consumed) -> parsed_from n data consumed.
Proof.
  intros Hok. unfold parse_node. destruct data as [|p d] eqn:Ed; [done|]. rewrite <- Ed in *.
  assert (nth 0 data 0 = p) as Hp0 by (by rewrite Ed). clear Ed d.
  destruct (Z.eqb_spec p PACKED_INTERNAL_PREFIX) as [->|_].
  - destruct (Nat.ltb_spec (length data) (1 + 1 + 32 + 32 + 32)) as [?|Hlen]; [done|]. cbn [Nat.eqb negb].
    intros [= <- <-]. unfold parsed_from. cbn [parsed_bytes]. cbn [Nat.add] in Hlen |- *.
    split_and!; [by rewrite take_drop|rewrite length_take; lia|lia|..|done|by apply parsed_internal].
    1: by apply as_i8_range, nth_is_u8.
    all: apply length_take_drop; lia.
  - destruct (Z.eqb_spec p PACKED_LEAF_PREFIX) as [->|_]; [|done].
    destruct (Nat.ltb_spec (length data) (1 + 32 + 4)) as [?|Hlen]; [done|]. cbn [Nat.eqb negb].
    set (m := Z.to_nat (from_be (take 4 (drop (1 + 32) data)))).
    replace (1 + 32 + 4 + m + 32)%nat with (69 + m)%nat by lia.
    destruct (Nat.ltb_spec (length data) (69 + m)) as [?|Hlen2]; [done|].
    remember (69 + m)%nat as total eqn:Htot. intros [= <- <-]. unfold parsed_from. cbn [parsed_bytes].
    subst total.
    destruct (parsed_leaf data Hok ltac:(cbn [Nat.add] in m; fold m; lia) Hp0) as [Hwf Hp].
    split_and!; [by rewrite take_drop|rewrite length_take; lia|lia|exact Hwf|done|exact Hp].
Qed.

(** ** The walk *)

Fixpoint node_count (t : tree) : nat :=
  match t with
  | Leaf _ _ _ => 1
  | Node _ _ l r => S (node_count l + node_count r)
  | Stub _ => 0
  end.

(** What a tree must satisfy to be what is owed. *)
Definition pays (boundary_depth : option Z) (o : Owed) (t : tree) : Prop :=
  wf t /\ cut_at boundary_depth (owed_depth o) t /\ (forall e, owed_label o = Some e -> label t = e).

Lemma check_owed_ok o node :
  (forall e, owed_label o = Some e -> parsed_label node = e) <-> check_owed o node = Ok ().
Proof.
  unfold check_owed. destruct (owed_label o) as [e|]; [|split; [done|intros _ ? ?; done]].
  case_decide as E; split; try done; [intros _ ? [= <-]; done|intros Hc; by destruct E, (Hc e)].
Qed.

(** One round that succeeds. *)
Lemma walk_step fuel data node consumed b o owed nodes ids :
  data <> [] -> parse_node data 32 = Return (node, consumed) -> check_owed o node = Ok () ->
  walk_loop (S fuel) data 32 b (o :: owed) nodes ids =
    walk_loop fuel (drop consumed data) 32 b
      ((descend b (owed_depth o) (Z.of_nat (length nodes)) node).1 ++ owed) (nodes ++ [node])
      (ids ++ (descend b (owed_depth o) (Z.of_nat (length nodes)) node).2).
Proof.
  intros Hd Hp Hc. cbn [walk_loop]. destruct data; [done|]. rewrite Hp. cbn [map_fail]. rewrite Hc.
  by destruct (descend _ _ _ _).
Qed.

Lemma pack_nonempty t : ~ is_stub t -> forall r, pack t ++ r <> [].
Proof. intros Hs r. destruct t; cbn in *; [done..|by destruct Hs]. Qed.

Lemma walk_leaf fuel k v n b o rest owed nodes ids :
  pays b o (Leaf k v n) ->
  walk_loop (1 + fuel) (stream (Leaf k v n) ++ rest) 32 b (o :: owed) nodes ids =
    walk_loop fuel rest 32 b owed (nodes ++ parsed_nodes (Leaf k v n)) (ids ++ stubs (Leaf k v n)).
Proof.
  intros (Hwf & Hcut & Hl). rewrite stream_leaf.
  erewrite walk_step; [|exact (pack_nonempty (Leaf k v n) (fun x => x) _)|by apply parse_leaf|by apply check_owed_ok].
  by rewrite drop_app_length.
Qed.

(** A tree that pays what is owed is consumed whole. *)
Lemma walk_loop_tree t b o fuel rest owed nodes ids :
  pays b o t ->
  walk_loop (node_count t + fuel) (stream t ++ rest) 32 b (o :: owed) nodes ids =
    walk_loop fuel rest 32 b owed (nodes ++ parsed_nodes t) (ids ++ stubs t).
Proof.
  revert o fuel rest owed nodes ids.
  induction t as [k v n|bal k l IHl r IHr|?]; intros o fuel rest owed nodes ids Hp;
    [by apply walk_leaf| |by destruct Hp as (_ & [] & _)].
  destruct Hp as (Hwf & Hcut & Hl). pose proof (pack_node_length bal k l r Hwf) as Hlen.
  rewrite stream_node, <- !app_assoc. cbn [node_count Nat.add].
  erewrite walk_step; [|exact (pack_nonempty (Node bal k l r) (fun x => x) _)|by apply parse_internal|by apply check_owed_ok].
  rewrite (drop_app_exact 98) by done. unfold descend. cbn [cut_at] in Hcut.
  destruct Hwf as (_ & _ & Hwl & Hwr). case_decide as Eb; cbn [fst snd app].
  - by destruct l, r; destruct Hcut as [[] []].
  - destruct Hcut as [Hcl Hcr].
    rewrite <- Nat.add_assoc, IHl by (split_and!; [done..|by intros ? [= <-]]).
    rewrite IHr by (split_and!; [done..|by intros ? [= <-]]).
    cbn [parsed_nodes stubs]. rewrite app_nil_r, <- !app_assoc. done.
Qed.

(** A walk that ends has consumed a tree for each debt. *)
Lemma walk_loop_inv fuel data b owed nodes ids rest nodes' ids' :
  bytes_ok data ->
  walk_loop fuel data 32 b owed nodes ids = Some (Return (rest, nodes', ids')) ->
  exists ts, Forall2 (pays b) owed ts /\ data = concat (stream <$> ts) ++ rest /\
    nodes' = nodes ++ concat (parsed_nodes <$> ts) /\ ids' = ids ++ concat (stubs <$> ts).
Proof.
  revert data owed nodes ids. induction fuel as [|fuel IH]; intros data owed nodes ids Hok;
    destruct owed as [|o owed]; cbn [walk_loop]; try done.
  1, 2: intros [= <- <- <-]; exists []; by rewrite !app_nil_r.
  destruct data as [|x d] eqn:Ed; [done|]. rewrite <- Ed in *. clear Ed x d.
  destruct (parse_node data 32) as [[node consumed]| |] eqn:Ep; cbn [map_fail]; [|done..].
  destruct (check_owed o node) as [[]|] eqn:Ec; [|done]. rewrite <- check_owed_ok in Ec.
  apply parse_node_inv in Ep as (Hdata & Hlen & _ & Hn); [|done]. unfold descend.
  assert (bytes_ok (drop consumed data)) as Hok' by (by apply Forall_drop).
  destruct node as [lbl bal k ll rl p|lbl k v nk p]; cbn [parsed_bytes parsed_label] in *.
  - destruct Hn as (Hb & Hk & Hll & Hlr & -> & Hpk). case_decide as Eb; cbn [app].
    + intros Hw. apply IH in Hw as (ts & Hts & Hd & -> & ->); [|done].
      exists (Node bal k (Stub ll) (Stub rl) :: ts). split_and!.
      * constructor; [|done]. split_and!; [by split_and!|cbn; rewrite decide_True by done; by split|done].
      * cbn [fmap list_fmap concat]. rewrite <- app_assoc, <- Hd, stream_node. rewrite Hdata at 1. rewrite Hpk.
        by rewrite (app_nil_r (pack _)).
      * cbn [fmap list_fmap concat parsed_nodes pack label app]. by rewrite <- app_assoc, Hpk.
      * cbn [fmap list_fmap concat stubs app]. by rewrite <- app_assoc.
    + intros Hw. apply IH in Hw as (ts & Hts & Hd & -> & ->); [|done].
      inversion Hts as [|? tl ? ts1 (Hwl & Hcl & Hel) Hts1]; subst.
      inversion Hts1 as [|? tr ? ts2 (Hwr & Hcr & Her) Hts2]; subst.
      specialize (Hel _ eq_refl) as Hel'. specialize (Her _ eq_refl) as Her'. cbn in Hel', Her'. subst ll rl.
      exists (Node bal k tl tr :: ts2). split_and!.
      * constructor; [|done]. split_and!; [by split_and!|cbn; by rewrite decide_False by done|done].
      * cbn [fmap list_fmap concat] in *. rewrite stream_node, <- !app_assoc in *. rewrite <- Hd. by rewrite Hdata at 1.
      * cbn [fmap list_fmap concat parsed_nodes pack label app] in *. by rewrite <- !app_assoc.
      * cbn [fmap list_fmap concat stubs app]. by rewrite app_nil_r, <- !app_assoc.
  - destruct Hn as (Hwf & -> & ->). cbn [app].
    intros Hw. apply IH in Hw as (ts & Hts & Hd & -> & ->); [|done].
    exists (Leaf k v nk :: ts). split_and!; [by constructor| | |].
    + cbn [fmap list_fmap concat]. rewrite stream_leaf, <- app_assoc, <- Hd. by rewrite Hdata at 1.
    + cbn [fmap list_fmap concat parsed_nodes app]. by rewrite <- app_assoc.
    + cbn [fmap list_fmap concat stubs app]. by rewrite app_nil_r.
Qed.

Lemma parse_node_no_panic data : parse_node data 32 <> Panic.
Proof. unfold parse_node. destruct data; [done|]. by repeat case_match. Qed.

(** Each round consumes a byte, so the walk ends. *)
Lemma walk_loop_total fuel data b owed nodes ids :
  bytes_ok data -> (length data < fuel)%nat ->
  exists r, walk_loop fuel data 32 b owed nodes ids = Some r /\ r <> Panic.
Proof.
  revert data owed nodes ids. induction fuel as [|fuel IH]; intros data owed nodes ids Hok Hf; [lia|].
  destruct owed as [|o owed]; [by eexists|]. cbn [walk_loop].
  destruct data as [|x d] eqn:Ed; [by eexists|]. rewrite <- Ed in *.
  destruct (parse_node data 32) as [[node consumed]| |] eqn:Ep; cbn [map_fail];
    [|by eexists|by destruct (parse_node_no_panic data)].
  destruct (check_owed o node); [|by eexists]. destruct (descend _ _ _ _) as [children cut].
  apply parse_node_inv in Ep as (_ & _ & Hc & _); [|done].
  apply IH; [by apply Forall_drop|]. rewrite length_drop. subst data. cbn [length] in *. lia.
Qed.

Lemma parsed_nodes_head t : ~ is_stub t -> exists n ns, parsed_nodes t = n :: ns /\ parsed_label n = label t.
Proof. intros Hs. destruct t; [by eexists _, _..|by destruct Hs]. Qed.

Lemma cut_not_stub b d t : cut_at b d t -> ~ is_stub t.
Proof. intros Hc Hs. by destruct t. Qed.

Lemma stream_length t : (node_count t <= length (stream t))%nat.
Proof.
  induction t as [k v n|b k l IHl r IHr|l]; [|rewrite stream_node, !length_app; cbn|cbn]; [|lia..].
  rewrite stream_leaf. cbn. lia.
Qed.

(** What the walk has verified. *)
Definition verified (b : option Z) (expected : option (list Z)) (data : list Z) (vt : VerifiedTree) : Prop :=
  exists t, wf t /\ cut_at b 1 t /\ (forall e, expected = Some e -> label t = e) /\ data = stream t /\
    vt = mk_verified (label t) (stubs t) (parsed_nodes t).

Lemma walk_tree_complete t b expected :
  wf t -> cut_at b 1 t -> (forall e, expected = Some e -> label t = e) ->
  walk_tree (stream t) KEY_LENGTH b expected = Some (Return (mk_verified (label t) (stubs t) (parsed_nodes t))).
Proof.
  intros Hwf Hcut He. unfold walk_tree, KEY_LENGTH. pose proof (stream_length t) as Hlen.
  replace (S (length (stream t))) with (node_count t + (S (length (stream t)) - node_count t))%nat by lia.
  rewrite <- (app_nil_r (stream t)) at 2. rewrite walk_loop_tree by done.
  destruct (S (length (stream t)) - node_count t)%nat; cbn [walk_loop app];
    by destruct (parsed_nodes_head t (cut_not_stub _ _ _ Hcut)) as (hd & tl & -> & ->).
Qed.

Lemma walk_tree_spec data b expected :
  bytes_ok data ->
  exists r, walk_tree data KEY_LENGTH b expected = Some r /\ r <> Panic /\
    (forall vt, r = Return vt <-> verified b expected data vt).
Proof.
  intros Hok.
  destruct (walk_loop_total (S (length data)) data b [mk_owed expected 1 None] [] [] Hok ltac:(lia)) as (r0 & Hr & Hnp).
  destruct (walk_tree data KEY_LENGTH b expected) as [r|] eqn:Ew.
  2: { unfold walk_tree, KEY_LENGTH in Ew. rewrite Hr in Ew. by destruct r0 as [[[]]| |]. }
  exists r. split; [done|]. split.
  { unfold walk_tree, KEY_LENGTH in Ew. rewrite Hr in Ew.
    destruct r0 as [[[rest nodes] ids]| |]; [|by simplify_eq..].
    injection Ew as <-. by repeat case_match. }
  intros vt. split.
  - intros ->. unfold walk_tree, KEY_LENGTH in Ew. rewrite Hr in Ew.
    destruct r0 as [[[rest nodes] ids]| |]; [|done..].
    apply walk_loop_inv in Hr as (ts & Hts & Hd & Hn & Hi); [|done].
    inversion Hts as [|? t ? ts1 (Hwf & Hcut & He) Hts1]; subst. inversion Hts1; subst.
    cbn [fmap list_fmap concat app] in *. rewrite !app_nil_r in *.
    destruct rest; [|done]. rewrite app_nil_r in *. exists t. split_and!; [done..|].
    destruct (parsed_nodes_head t (cut_not_stub _ _ _ Hcut)) as (n & ns & Hp & Hl). rewrite Hp in Ew.
    injection Ew as <-. by rewrite Hp, Hl.
  - intros (t & Hwf & Hcut & He & -> & ->). rewrite walk_tree_complete in Ew by done. by simplify_eq.
Qed.

End Props.

End Avl.
