(* ===== verification/StateStorage.v ===== *)
(** * Versioned state storage

    src/state/src/undo.rs, tables.rs and storage.rs: the UTXO tree's nodes, the undo log
    and the metadata in three redb tables, the atomic update that writes a version and
    its undo record, rollback, restart and the bulk load of a snapshot. A redb write
    transaction is a function from the tables to the tables whose result is kept when it
    commits. The prover is that of ergo_avltree_rust: a tree of loaded nodes with their
    flags, the labels it removed, and its height. *)

From S2P Require Import Prelude Bytes AvlTree.
Import Avl.

Module State.

(** ** Undo records *)

Record UndoRecord := mk_undo {
  removed_nodes : list (list Z * list Z);
  inserted_labels : list (list Z);
  prev_top_node_hash : list Z;
  prev_top_node_height : Z;
  prev_version : list Z;
  prev_block_height : Z;
}.

Inductive storage_error :=
  | UndoTruncated
  | ChainTooShort
  | ChainTruncated
  | ProverHasNoRoot
  | CorruptMeta (key : string)
  | VersionNotFound
  | MissingUndo (lsn : Z)
  | NoRootState
  | RootNotFound.

Definition len32 {A} (l : list A) : Z := as_u32 (Z.of_nat (length l)).

Definition undo_serialize (u : UndoRecord) : list Z :=
  be_bytes 4 (len32 (removed_nodes u)) ++
  concat ((fun n : list Z * list Z => n.1 ++ be_bytes 4 (len32 n.2) ++ n.2) <$> removed_nodes u) ++
  be_bytes 4 (len32 (inserted_labels u)) ++
  concat (inserted_labels u) ++
  prev_top_node_hash u ++
  be_bytes 4 (prev_top_node_height u) ++
  be_bytes 4 (len32 (prev_version u)) ++ prev_version u ++
  be_bytes 4 (prev_block_height u).

Definition read_u32 (l : list Z) : result storage_error (Z * list Z) := ok_or (read_be 4 l) UndoTruncated.
Definition read_digest (l : list Z) : result storage_error (list Z * list Z) :=
  ok_or (read_exact 32 l) UndoTruncated.

Fixpoint read_removed (n : nat) (l : list Z) : result storage_error (list (list Z * list Z) * list Z) :=
  match n with
  | O => Ok ([], l)
  | S n' =>
      let? (lbl, l) := read_digest l in
      let? (packed_len, l) := read_u32 l in
      let? (packed, l) := ok_or (read_exact (Z.to_nat packed_len) l) UndoTruncated in
      let? (ns, l) := read_removed n' l in
      Ok ((lbl, packed) :: ns, l)
  end.

Fixpoint read_labels (n : nat) (l : list Z) : result storage_error (list (list Z) * list Z) :=
  match n with
  | O => Ok ([], l)
  | S n' =>
      let? (lbl, l) := read_digest l in
      let? (ls, l) := read_labels n' l in
      Ok (lbl :: ls, l)
  end.

(** [UndoRecord::deserialize]; the last field is absent in older records. *)
Definition undo_deserialize (data : list Z) : result storage_error UndoRecord :=
  let? (removed_count, l) := read_u32 data in
  let? (removed, l) := read_removed (Z.to_nat removed_count) l in
  let? (inserted_count, l) := read_u32 l in
  let? (inserted, l) := read_labels (Z.to_nat inserted_count) l in
  let? (hash, l) := read_digest l in
  let? (height, l) := read_u32 l in
  let? (version_len, l) := read_u32 l in
  let? (version, l) := ok_or (read_exact (Z.to_nat version_len) l) UndoTruncated in
  let? (block_height, l) := (if (4 <=? length l)%nat then read_u32 l else Ok (0, l)) in
  Ok (mk_undo removed inserted hash height version block_height).

(** ** The version chain: (LSN, digest) pairs, newest first *)

Definition serialize_version_chain (chain : list (Z * list Z)) : list Z :=
  be_bytes 4 (len32 chain) ++
  concat ((fun e : Z * list Z => be_bytes 8 e.1 ++ be_bytes 4 (len32 e.2) ++ e.2) <$> chain).

Fixpoint read_chain (n : nat) (l : list Z) : result storage_error (list (Z * list Z)) :=
  match n with
  | O => Ok []
  | S n' =>
      if (length l <? 12)%nat then Err ChainTruncated
      else
        let? (lsn, l) := ok_or (read_be 8 l) ChainTruncated in
        let? (digest_len, l) := ok_or (read_be 4 l) ChainTruncated in
        let? (digest, l) := ok_or (read_exact (Z.to_nat digest_len) l) ChainTruncated in
        let? chain := read_chain n' l in
        Ok ((lsn, digest) :: chain)
  end.

Definition deserialize_version_chain (data : list Z) : result storage_error (list (Z * list Z)) :=
  let? (count, l) := ok_or (read_be 4 data) ChainTooShort in
  read_chain (Z.to_nat count) l.

(** ** The tables *)

Definition META_TOP_NODE_HASH : string := "top_node_hash".
Definition META_TOP_NODE_HEIGHT : string := "top_node_height".
Definition META_CURRENT_VERSION : string := "current_version".
Definition META_LSN : string := "lsn".
Definition META_VERSIONS : string := "versions".
Definition META_BLOCK_HEIGHT : string := "block_height".
Definition META_FLUSH_SENTINEL : string := "flush_sentinel".

Record Db := mk_db {
  nodes_table : gmap (list Z) (list Z);
  undo_table : gmap Z (list Z);
  meta_table : gmap string (list Z);
}.

Definition empty_db : Db := mk_db ∅ ∅ ∅.

Record Storage := mk_storage {
  db : Db;
  keep_versions : Z;
  current_version : option (list Z);
  version_chain : list (Z * list Z);
}.

Definition with_nodes (d : Db) (n : gmap (list Z) (list Z)) : Db := mk_db n (undo_table d) (meta_table d).
Definition with_undo (d : Db) (u : gmap Z (list Z)) : Db := mk_db (nodes_table d) u (meta_table d).
Definition with_meta (d : Db) (m : gmap string (list Z)) : Db := mk_db (nodes_table d) (undo_table d) m.

(** A 4-byte metadata value; of another length it is corrupt. *)
Definition meta_u32 (key : string) (d : Db) : outcome storage_error (option Z) :=
  match meta_table d !! key with
  | Some v => if (length v =? 4)%nat then Return (Some (from_be v)) else Fail (CorruptMeta key)
  | None => Return None
  end.

(** A 32-byte value copied into an array, which panics for another length. *)
Definition copy_digest (v : list Z) : outcome storage_error (list Z) :=
  if (length v =? 32)%nat then Return v else Panic.

(** [read_root_state]. *)
Definition read_root_state (d : Db) : outcome storage_error (option (list Z * Z)) :=
  match meta_table d !! META_TOP_NODE_HASH with
  | None => Return None
  | Some h =>
      let! hash := copy_digest h in
      match meta_table d !! META_TOP_NODE_HEIGHT with
      | None => Return None
      | Some v => if (length v =? 4)%nat then Return (Some (hash, from_be v)) else Return None
      end
  end.

Definition get_node (lbl : list Z) (s : Storage) : option (list Z) := nodes_table (db s) !! lbl.

(** [block_height]. *)
Definition block_height (s : Storage) : option Z :=
  match meta_table (db s) !! META_BLOCK_HEIGHT with
  | Some v => if (length v =? 4)%nat then Some (from_be v) else None
  | None => None
  end.

Definition version (s : Storage) : option (list Z) := current_version s.
Definition rollback_versions (s : Storage) : list (list Z) := (drop 1 (version_chain s)).*2.
Definition set_keep_versions (k : Z) (s : Storage) : Storage :=
  mk_storage (db s) k (current_version s) (version_chain s).

Definition current_lsn (s : Storage) : Z :=
  match version_chain s with
  | (lsn, _) :: _ => lsn
  | [] => 0
  end.

(** ** Opening *)

Definition restore_state (d : Db) : result storage_error (option (list Z) * list (Z * list Z)) :=
  match meta_table d !! META_CURRENT_VERSION with
  | None => Ok (None, [])
  | Some v =>
      match meta_table d !! META_VERSIONS with
      | Some chain_data =>
          let? chain := deserialize_version_chain chain_data in
          Ok (Some v, chain)
      | None => Ok (Some v, [])
      end
  end.

(** [open] on the tables of a file, with the migration of files that predate the block
    height. *)
Definition open (d : Db) (keep : Z) : result storage_error Storage :=
  let? (current, chain) := restore_state d in
  let d :=
    match current, meta_table d !! META_BLOCK_HEIGHT with
    | Some _, None => with_meta d (<[META_BLOCK_HEIGHT := be_bytes 4 0]> (meta_table d))
    | _, _ => d
    end in
  Ok (mk_storage d keep current chain).

(** ** Updating *)

(** The nodes of a prover's tree, with the flags of their headers. *)
Inductive pnode :=
  | LabelOnly (lbl : list Z)
  | LoadedLeaf (is_new visited : bool) (key value next_key : list Z)
  | LoadedNode (is_new visited : bool) (balance : Z) (key : list Z) (l r : pnode).

Record Prover := mk_prover {
  top_node : pnode;
  removed_labels : list (list Z);
  prover_height : Z;
  prover_digest : option (list Z);
}.

Fixpoint erase (n : pnode) : tree :=
  match n with
  | LabelOnly lbl => Stub lbl
  | LoadedLeaf _ _ k v nk => Leaf k v nk
  | LoadedNode _ _ b k l r => Node b k (erase l) (erase r)
  end.

(** [tree.reset] and the cleared buffers. *)
Fixpoint reset_flags (n : pnode) : pnode :=
  match n with
  | LabelOnly lbl => LabelOnly lbl
  | LoadedLeaf _ _ k v nk => LoadedLeaf false false k v nk
  | LoadedNode _ _ b k l r => LoadedNode false false b k (reset_flags l) (reset_flags r)
  end.

Definition reset_prover (p : Prover) : Prover :=
  mk_prover (reset_flags (top_node p)) [] (prover_height p) (prover_digest p).

Section Update.
Context `{Blake2b}.

(** [collect_changed_nodes]. *)
Fixpoint collect_changed_nodes (n : pnode) (is_root : bool) : list (list Z * list Z) :=
  match n with
  | LabelOnly _ => []
  | LoadedLeaf is_new visited _ _ _ =>
      if negb is_root && negb is_new && negb visited then []
      else [(label (erase n), pack (erase n))]
  | LoadedNode is_new visited _ _ l r =>
      if negb is_root && negb is_new && negb visited then []
      else (label (erase n), pack (erase n)) ::
           collect_changed_nodes l false ++ collect_changed_nodes r false
  end.

Definition max_chain_len (keep : Z) : nat :=
  if 0 <? keep then Z.to_nat (keep + 1) else 1%nat.

(** The undo record of an update, read from the tables before it. *)
Definition build_undo (s : Storage) (p : Prover) (changed : list (list Z * list Z)) (prev_height : Z)
    : outcome storage_error UndoRecord :=
  let removed := omap (fun lbl => (fun b => (lbl, b)) <$> nodes_table (db s) !! lbl) (removed_labels p) in
  let! hash :=
    match meta_table (db s) !! META_TOP_NODE_HASH with
    | Some v => copy_digest v
    | None => Return (replicate 32 0)
    end in
  let! height := meta_u32 META_TOP_NODE_HEIGHT (db s) in
  Return (mk_undo removed changed.*1 hash (default 0 height) (default [] (current_version s)) prev_height).

(** The writes of an update to the nodes table: the changed nodes, then the deletions
    except of labels just written, then the additional data. *)
Definition write_nodes (changed : list (list Z * list Z)) (removed : list (list Z))
    (additional : list (list Z * list Z)) (nodes : gmap (list Z) (list Z)) : gmap (list Z) (list Z) :=
  let nodes := foldl (fun m n => <[n.1 := n.2]> m) nodes changed in
  let nodes := foldl (fun m lbl => if decide (lbl ∈ changed.*1) then m else delete lbl m) nodes removed in
  foldl (fun m n => <[n.1 := n.2]> m) nodes additional.

(** The metadata of a version. *)
Definition write_meta (hash : list Z) (height : Z) (digest : list Z) (lsn block_height : Z)
    (chain : list (Z * list Z)) (meta : gmap string (list Z)) : gmap string (list Z) :=
  <[META_VERSIONS := serialize_version_chain chain]> (
  <[META_BLOCK_HEIGHT := be_bytes 4 block_height]> (
  <[META_LSN := be_bytes 8 lsn]> (
  <[META_CURRENT_VERSION := digest]> (
  <[META_TOP_NODE_HEIGHT := be_bytes 4 height]> (
  <[META_TOP_NODE_HASH := hash]> meta))))).

(** [update_internal]. *)
Definition update_internal (p : Prover) (additional : list (list Z * list Z)) (new_height : option Z)
    (s : Storage) : outcome storage_error (Storage * Prover) :=
  let! new_digest := of_result (ok_or (prover_digest p) ProverHasNoRoot) in
  let changed := collect_changed_nodes (top_node p) true in
  let new_lsn := add_u64 (current_lsn s) 1 in
  let chain := (new_lsn, new_digest) :: version_chain s in
  let new_chain := take (max_chain_len (keep_versions s)) chain in
  let prune_lsns := reverse (drop (max_chain_len (keep_versions s)) chain).*1 in
  let! prev := meta_u32 META_BLOCK_HEIGHT (db s) in
  let prev_height := default 0 prev in
  let new_block_height := default prev_height new_height in
  let! undo :=
    (if 0 <? keep_versions s then
       let! u := build_undo s p changed prev_height in
       Return (foldl (fun m lsn => delete lsn m)
                 (<[new_lsn := undo_serialize u]> (undo_table (db s))) prune_lsns)
     else Return (undo_table (db s))) in
  let nodes := write_nodes changed (removed_labels p) additional (nodes_table (db s)) in
  let meta := write_meta (label (erase (top_node p))) (as_u32 (prover_height p)) new_digest new_lsn
                new_block_height new_chain (meta_table (db s)) in
  Return (mk_storage (mk_db nodes undo meta) (keep_versions s) (Some new_digest) new_chain,
          reset_prover p).

Definition update (p : Prover) (additional : list (list Z * list Z)) (s : Storage)
    : outcome storage_error (Storage * Prover) := update_internal p additional None s.

Definition update_with_height (p : Prover) (additional : list (list Z * list Z)) (height : Z) (s : Storage)
    : outcome storage_error (Storage * Prover) := update_internal p additional (Some height) s.

(** [load_snapshot]. *)
Definition load_snapshot (nodes : list (list Z * list Z)) (root_hash : list Z) (height : Z)
    (new_version : list Z) (block_height : Z) (s : Storage) : Storage :=
  let d := db s in
  let n := foldl (fun m n => <[n.1 := n.2]> m) (nodes_table d) nodes in
  let meta := write_meta root_hash (as_u32 height) new_version 1 block_height [(1, new_version)] (meta_table d) in
  mk_storage (mk_db n (undo_table d) meta) (keep_versions s) (Some new_version) [(1, new_version)].

(** [flush]: a durable commit with a sentinel, the clock an argument. *)
Definition flush (now_nanos : Z) (s : Storage) : Storage :=
  mk_storage (with_meta (db s) (<[META_FLUSH_SENTINEL := be_bytes 8 (as_u64 now_nanos)]> (meta_table (db s))))
    (keep_versions s) (current_version s) (version_chain s).

(** ** Rolling back *)

(** The undo records from the newest towards the target, re-inserting what each update
    removed and dropping the record; [last] is the one processed last. *)
Fixpoint undo_versions (lsns : list Z) (d : Db) (last : option UndoRecord)
    : result storage_error (Db * option UndoRecord) :=
  match lsns with
  | [] => Ok (d, last)
  | lsn :: lsns' =>
      let? data := ok_or (undo_table d !! lsn) (MissingUndo lsn) in
      let? u := undo_deserialize data in
      let d := with_nodes d (foldl (fun m n => <[n.1 := n.2]> m) (nodes_table d) (removed_nodes u)) in
      let d := with_undo d (delete lsn (undo_table d)) in
      undo_versions lsns' d (Some u)
  end.

(** The packed root node and the height: [rollback] returns the root unpacked. *)
Definition root_node (hash : list Z) (height : Z) (s : Storage) : outcome storage_error (list Z * Z) :=
  let! packed := of_result (ok_or (get_node hash s) RootNotFound) in
  Return (packed, height).

Definition position (v : list Z) (chain : list (Z * list Z)) : option nat :=
  fst <$> list_find (fun e : Z * list Z => e.2 = v) chain.

(** [rollback]: the state is kept when it fails before the commit. *)
Definition rollback (v : list Z) (s : Storage) : outcome storage_error (list Z * Z) * Storage :=
  if decide (current_version s = Some v) then
    ((let! root := read_root_state (db s) in
      match root with
      | Some (hash, height) => root_node hash height s
      | None => Fail NoRootState
      end), s)
  else
    match position v (version_chain s) with
    | None => (Fail VersionNotFound, s)
    | Some target_pos =>
        let chain := version_chain s in
        match undo_versions (take target_pos chain).*1 (db s) None with
        | Err e => (Fail e, s)
        | Ok (_, None) => (Panic, s)
        | Ok (d, Some u) =>
            let new_chain := drop target_pos chain in
            let target_lsn := default 0 (fst <$> chain !! target_pos) in
            let meta := write_meta (prev_top_node_hash u) (prev_top_node_height u) (prev_version u)
                          target_lsn (prev_block_height u) new_chain (meta_table d) in
            let s' := mk_storage (with_meta d meta) (keep_versions s) (Some v) new_chain in
            (root_node (prev_top_node_hash u) (prev_top_node_height u) s', s')
        end
    end.

End Update.

End State.
