(* ===== verification/StateStorageInv.v ===== *)
(** * The versioned storage refines a stack of trees

    A storage represents a stack of versions, the newest on top: each with its digest,
    its tree, its height and its block height. An update pushes a version and drops those
    beyond the retention, a rollback pops to a version still retained, and reopening the
    file changes nothing. What it relies on of the prover is in [prover_ok]; labels are
    tied to the nodes they stand for by [content]. *)

From S2P Require Import Prelude Bytes AvlTree StateStorage.
Import Avl State.

Module StateInv.

(** ** Codecs *)

Definition fits32 {A} (l : list A) : Prop := Z.of_nat (length l) <= U32_MAX.

Record undo_wf (u : UndoRecord) : Prop := {
  uw_removed : fits32 (removed_nodes u);
  uw_removed_each : Forall (fun n : list Z * list Z => length n.1 = 32%nat /\ fits32 n.2) (removed_nodes u);
  uw_inserted : fits32 (inserted_labels u);
  uw_inserted_each : Forall (fun l : list Z => length l = 32%nat) (inserted_labels u);
  uw_hash : length (prev_top_node_hash u) = 32%nat;
  uw_height : is_u32 (prev_top_node_height u);
  uw_version : fits32 (prev_version u);
  uw_block_height : is_u32 (prev_block_height u);
}.

Lemma len32_small {A} (l : list A) : fits32 l -> len32 l = Z.of_nat (length l) /\ is_u32 (len32 l).
Proof. unfold fits32, len32. intros. rewrite as_u32_small by (int_unfold; lia). int_unfold. lia. Qed.

Lemma read_len32 {A} (l : list A) r :
  fits32 l -> read_u32 (be_bytes 4 (len32 l) ++ r) = Ok (Z.of_nat (length l), r).
Proof. intros [E Hr]%len32_small. unfold read_u32. rewrite read_be_u32 by done. by rewrite E. Qed.

Lemma read_digest_app d r : length d = 32%nat -> read_digest (d ++ r) = Ok (d, r).
Proof. intros. unfold read_digest. by rewrite (read_exact_app_n 32). Qed.

Lemma read_removed_app ns r :
  Forall (fun n : list Z * list Z => length n.1 = 32%nat /\ fits32 n.2) ns ->
  read_removed (length ns)
    (concat ((fun n : list Z * list Z => n.1 ++ be_bytes 4 (len32 n.2) ++ n.2) <$> ns) ++ r) = Ok (ns, r).
Proof.
  induction 1 as [|[lbl packed] ns [Hl Hp] _ IH]; [done|].
  cbn [length read_removed fmap list_fmap concat fst snd]. rewrite <- !app_assoc.
  rewrite read_digest_app by done. cbn [result_bind]. rewrite read_len32 by done. cbn [result_bind].
  rewrite Nat2Z.id, read_exact_app. cbn [ok_or result_bind]. by rewrite IH.
Qed.

Lemma read_labels_app ls r :
  Forall (fun l : list Z => length l = 32%nat) ls -> read_labels (length ls) (concat ls ++ r) = Ok (ls, r).
Proof.
  induction 1 as [|lbl ls Hl _ IH]; [done|]. cbn [length read_labels concat]. rewrite <- app_assoc.
  rewrite read_digest_app by done. cbn [result_bind]. by rewrite IH.
Qed.

Lemma undo_roundtrip u : undo_wf u -> undo_deserialize (undo_serialize u) = Ok u.
Proof.
  intros [Hr Hre Hi Hie Hh Hhe Hv Hb]. unfold undo_deserialize, undo_serialize.
  rewrite read_len32 by done. cbn [result_bind]. rewrite Nat2Z.id, read_removed_app by done. cbn [result_bind].
  rewrite read_len32 by done. cbn [result_bind]. rewrite Nat2Z.id, read_labels_app by done. cbn [result_bind].
  rewrite read_digest_app by done. cbn [result_bind].
  unfold read_u32 at 1. rewrite read_be_u32 by done. cbn [ok_or result_bind].
  rewrite read_len32 by done. cbn [result_bind]. rewrite Nat2Z.id, read_exact_app. cbn [ok_or result_bind].
  rewrite be_bytes_length. cbn [Nat.leb]. unfold read_u32.
  rewrite <- (app_nil_r (be_bytes 4 _)), read_be_u32 by done. cbn [ok_or result_bind]. by destruct u.
Qed.

Definition chain_wf (chain : list (Z * list Z)) : Prop :=
  fits32 chain /\ Forall (fun e : Z * list Z => is_u64 e.1 /\ fits32 e.2) chain.

Lemma chain_roundtrip chain :
  chain_wf chain -> deserialize_version_chain (serialize_version_chain chain) = Ok chain.
Proof.
  intros [Hf He]. unfold deserialize_version_chain, serialize_version_chain.
  destruct (len32_small chain Hf) as [El Hl]. rewrite read_be_u32, El by done. cbn [ok_or result_bind].
  rewrite Nat2Z.id. clear Hf El Hl. induction He as [|[lsn digest] chain [Hl Hd] _ IH]; [done|].
  cbn [length read_chain fmap list_fmap concat fst snd]. destruct (len32_small digest Hd) as [Ed Hd'].
  rewrite <- !app_assoc. match goal with |- context [(?a <? 12)%nat] => destruct (Nat.ltb_spec a 12) as [Hlt|_] end.
  { rewrite !length_app, !be_bytes_length in Hlt. lia. }
  rewrite read_be_u64 by done. cbn [ok_or result_bind]. rewrite read_be_u32, Ed by done. cbn [ok_or result_bind].
  rewrite Nat2Z.id, read_exact_app. cbn [ok_or result_bind]. by rewrite IH.
Qed.

(** ** Tables of nodes *)

Lemma foldl_insert_notin (ns : list (list Z * list Z)) (m : gmap (list Z) (list Z)) l :
  l ∉ ns.*1 -> foldl (fun m n => <[n.1 := n.2]> m) m ns !! l = m !! l.
Proof.
  revert m. induction ns as [|[k v] ns IH]; intros m Hl; [done|]. cbn in *.
  apply not_elem_of_cons in Hl as [Hne Hl]. rewrite IH by done. by rewrite lookup_insert_ne.
Qed.

Lemma foldl_insert_in (ns : list (list Z * list Z)) (m : gmap (list Z) (list Z)) l :
  l ∈ ns.*1 -> exists b, (l, b) ∈ ns /\ foldl (fun m n => <[n.1 := n.2]> m) m ns !! l = Some b.
Proof.
  revert m. induction ns as [|[k v] ns IH]; intros m Hl; [by apply elem_of_nil in Hl|]. cbn in *.
  destruct (decide (l ∈ ns.*1)) as [Hin|Hnin].
  - destruct (IH (<[k:=v]> m) Hin) as (b & Hb & Hlk). exists b. split; [by right|done].
  - apply elem_of_cons in Hl as [->|?]; [|done]. exists v. split; [by left|].
    rewrite foldl_insert_notin by done. by rewrite lookup_insert_eq.
Qed.

Lemma foldl_delete (P : list Z -> Prop) (dec : forall l, Decision (P l)) (ls : list (list Z))
    (m : gmap (list Z) (list Z)) l :
  foldl (fun m x => if decide (P x) then m else delete x m) m ls !! l =
    if decide (l ∈ ls /\ ~ P l) then None else m !! l.
Proof.
  revert m. induction ls as [|x ls IH]; intros m; cbn.
  - rewrite decide_False by (intros [[]%elem_of_nil _]). done.
  - rewrite IH. destruct (decide (P x)), (decide (l = x)) as [->|Hne];
      rewrite ?lookup_delete_eq, ?lookup_delete_ne by done;
      repeat case_decide; rewrite ?elem_of_cons in *; naive_solver.
Qed.

(** ** Versions *)

Section Refinement.
Context `{Blake2bLaws} (content : list Z -> option (list Z)).

Definition true_node (n : list Z * list Z) : Prop := content n.1 = Some n.2 /\ fits32 n.2.

(** A row that does not contradict its label. *)
Definition row_ok (n : list Z * list Z) : Prop :=
  fits32 n.2 /\ forall b, content n.1 = Some b -> n.2 = b.

(** A well-formed tree without gaps, whose nodes are those their labels stand for. *)
Definition genuine (t : tree) : Prop := wf t /\ whole t /\ Forall true_node (packed_nodes t).

Record Version := mk_version {
  v_digest : list Z;
  v_tree : tree;
  v_height : Z;
  v_block : Z;
}.

Record version_ok (v : Version) : Prop := {
  vo_tree : genuine (v_tree v);
  vo_height : is_u32 (v_height v);
  vo_block : is_u32 (v_block v);
  vo_digest : fits32 (v_digest v);
}.

Definition nodes_ok (nodes : gmap (list Z) (list Z)) : Prop :=
  forall l b, nodes !! l = Some b -> row_ok (l, b).

(** An undo record takes the version [v] back to [v']. *)
Record undo_ok (u : UndoRecord) (v v' : Version) : Prop := {
  uo_wf : undo_wf u;
  uo_true : Forall row_ok (removed_nodes u);
  uo_hash : prev_top_node_hash u = label (v_tree v');
  uo_height : prev_top_node_height u = v_height v';
  uo_version : prev_version u = v_digest v';
  uo_block : prev_block_height u = v_block v';
  uo_nodes : forall n, n ∈ packed_nodes (v_tree v') ->
    n ∈ packed_nodes (v_tree v) \/ n ∈ removed_nodes u;
}.

(** The metadata of the newest version. *)
Definition meta_ok (vs : list Version) (s : Storage) : Prop :=
  let meta := meta_table (db s) in
  match vs with
  | [] => current_version s = None /\ meta !! META_TOP_NODE_HASH = None /\
          meta !! META_TOP_NODE_HEIGHT = None /\ meta !! META_CURRENT_VERSION = None /\
          meta !! META_BLOCK_HEIGHT = None
  | v :: _ =>
      current_version s = Some (v_digest v) /\
      meta !! META_TOP_NODE_HASH = Some (label (v_tree v)) /\
      meta !! META_TOP_NODE_HEIGHT = Some (be_bytes 4 (v_height v)) /\
      meta !! META_CURRENT_VERSION = Some (v_digest v) /\
      meta !! META_BLOCK_HEIGHT = Some (be_bytes 4 (v_block v)) /\
      meta !! META_LSN = Some (be_bytes 8 (current_lsn s)) /\
      meta !! META_VERSIONS = Some (serialize_version_chain (version_chain s))
  end.

(** The storage represents a stack of versions, newest first. *)
Record repr (vs : list Version) (s : Storage) : Prop := {
  r_versions : Forall version_ok vs;
  r_count : fits32 vs;
  r_chain : version_chain s = imap (fun i v => (current_lsn s - Z.of_nat i, v_digest v)) vs;
  r_lsn : Z.of_nat (length vs) <= current_lsn s <= U64_MAX;
  r_undo : forall i v v', vs !! i = Some v -> vs !! S i = Some v' ->
    exists u, undo_table (db s) !! (current_lsn s - Z.of_nat i) = Some (undo_serialize u) /\ undo_ok u v v';
  r_top : forall v, head vs = Some v -> stored (nodes_table (db s)) (v_tree v);
  r_nodes : nodes_ok (nodes_table (db s));
  r_meta : meta_ok vs s;
}.

(** ** The prover's contract *)

Inductive subtree : tree -> tree -> Prop :=
  | subtree_refl t : subtree t t
  | subtree_left t b k l r : subtree t l -> subtree t (Node b k l r)
  | subtree_right t b k l r : subtree t r -> subtree t (Node b k l r).

(** The loaded nodes [n] are the top of the tree [t], and what is not loaded, or neither
    new nor visited, was a part of the tree before. *)
Inductive explored (old : option tree) : pnode -> tree -> Prop :=
  | explored_label lbl t o :
      old = Some o -> subtree t o -> label t = lbl -> explored old (LabelOnly lbl) t
  | explored_leaf (is_new visited : bool) k v nk :
      (is_new = false -> visited = false -> exists o, old = Some o /\ subtree (Leaf k v nk) o) ->
      explored old (LoadedLeaf is_new visited k v nk) (Leaf k v nk)
  | explored_node (is_new visited : bool) b k l r tl tr :
      (is_new = false -> visited = false -> exists o, old = Some o /\ subtree (Node b k tl tr) o) ->
      explored old l tl -> explored old r tr ->
      explored old (LoadedNode is_new visited b k l r) (Node b k tl tr).

(** What [BatchAVLProver] promises of its state at an update from [old] to [t]: the
    removed labels are the nodes that left the tree, up to labels written again. *)
Record prover_ok (old : option tree) (p : Prover) (t : tree) : Prop := {
  po_loaded : match top_node p with LabelOnly _ => False | _ => True end;
  po_explored : explored old (top_node p) t;
  po_removed : forall l, l ∈ removed_labels p ->
    l ∉ (packed_nodes t).*1 \/ l ∈ (collect_changed_nodes (top_node p) true).*1;
  po_left : forall o n, old = Some o -> n ∈ packed_nodes o ->
    n ∈ packed_nodes t \/ n.1 ∈ removed_labels p;
  po_labels : Forall (fun l : list Z => length l = 32%nat) (removed_labels p);
  po_count : fits32 (removed_labels p) /\ fits32 (packed_nodes t);
}.

(** The version an update makes. *)
Definition new_version (p : Prover) (t : tree) (digest : list Z) (height : option Z) (vs : list Version) : Version :=
  mk_version digest t (as_u32 (prover_height p))
    (default (match vs with v :: _ => v_block v | [] => 0 end) height).

(** ** What an update writes *)

Lemma subtree_nodes t o : subtree t o -> forall n, n ∈ packed_nodes t -> n ∈ packed_nodes o.
Proof.
  induction 1 as [|t b k l r Hs IH|t b k l r Hs IH]; intros n Hn; [done|..];
    cbn [packed_nodes]; apply elem_of_cons; right; apply elem_of_app; auto.
Qed.

Lemma explored_erase old n t :
  explored old n t ->
  label (erase n) = label t /\ (match n with LabelOnly _ => True | _ => pack (erase n) = pack t end).
Proof.
  induction 1 as [? ? ? ? ? <-| |? ? ? ? ? ? ? ? _ _ [IHl _] _ [IHr _]]; [done|done|].
  cbn [erase label pack]. by rewrite IHl, IHr.
Qed.

(** The collected nodes are nodes of the new tree, in order. *)
Lemma collect_sublist old n t root :
  explored old n t -> collect_changed_nodes n root `sublist_of` packed_nodes t.
Proof.
  intros Hx. revert root. induction Hx as [? t ? ? ? <-|? ? k v nk Hu|? ? b k l r tl tr Hu Hl IHl Hr IHr]; intros root.
  - apply sublist_nil_l.
  - cbn [collect_changed_nodes]. case_match; [apply sublist_nil_l|done].
  - destruct (explored_erase _ _ _ Hl) as [El _], (explored_erase _ _ _ Hr) as [Er _].
    cbn [collect_changed_nodes erase label pack packed_nodes]. case_match; [apply sublist_nil_l|].
    rewrite El, Er. constructor. by apply sublist_app.
Qed.

(** Every node of the new tree is collected or was in the tree before. *)
Lemma collect_covers old n t root x :
  explored old n t -> x ∈ packed_nodes t ->
  x ∈ collect_changed_nodes n root \/ exists o, old = Some o /\ x ∈ packed_nodes o.
Proof.
  intros Hx. revert root. induction Hx as [? t o ? Hs <-|a b k v nk Hu|a b bal k l r tl tr Hu Hl IHl Hr IHr];
    intros root Hin.
  - right. exists o. split; [done|]. by eapply subtree_nodes.
  - cbn [collect_changed_nodes]. destruct (negb root && negb a && negb b) eqn:E; [|by left].
    destruct root, a, b; try done. destruct Hu as (o & -> & Hs); [done..|]. right. exists o. split; [done|].
    by eapply subtree_nodes.
  - destruct (explored_erase _ _ _ Hl) as [El _], (explored_erase _ _ _ Hr) as [Er _].
    cbn [collect_changed_nodes]. destruct (negb root && negb a && negb b) eqn:E.
    + destruct root, a, b; try done. destruct Hu as (o & -> & Hs); [done..|]. right. exists o. split; [done|].
      by eapply subtree_nodes.
    + cbn [erase label pack]. rewrite El, Er. cbn [packed_nodes] in Hin.
      apply elem_of_cons in Hin as [->|[Hin|Hin]%elem_of_app]; [left; by left| |].
      * destruct (IHl false Hin) as [Hc|?]; [|by right]. left. right. apply elem_of_app. by left.
      * destruct (IHr false Hin) as [Hc|?]; [|by right]. left. right. apply elem_of_app. by right.
Qed.

Lemma genuine_node t n : genuine t -> n ∈ packed_nodes t -> true_node n.
Proof. intros (_ & _ & Ht). rewrite Forall_forall in Ht. by apply Ht. Qed.

Lemma true_row n : true_node n -> row_ok n.
Proof. intros [Hc Hf]. split; [done|]. intros b Hb. congruence. Qed.

(** Rows that agree with their labels stay so, and hold what was written. *)
Lemma write_nodes_ok changed removed additional nodes :
  nodes_ok nodes -> Forall true_node changed -> Forall (fun n => content n.1 = None /\ fits32 n.2) additional ->
  nodes_ok (write_nodes changed removed additional nodes).
Proof.
  intros Hn Hc Ha l b. unfold write_nodes. rewrite Forall_forall in Hc, Ha.
  destruct (decide (l ∈ additional.*1)) as [Hin|Hnin].
  { destruct (foldl_insert_in additional
      (foldl (fun m lbl => if decide (lbl ∈ changed.*1) then m else delete lbl m)
         (foldl (fun m n => <[n.1:=n.2]> m) nodes changed) removed) l Hin) as (b' & Hb & ->).
    intros [= <-]. destruct (Ha _ Hb) as [Hno Hf]. split; [done|]. cbn in *. congruence. }
  rewrite foldl_insert_notin by done. rewrite (foldl_delete (fun l => l ∈ changed.*1)). case_decide; [done|].
  destruct (decide (l ∈ changed.*1)) as [Hin|Hnin'].
  - destruct (foldl_insert_in changed nodes l Hin) as (b' & Hb & ->). intros [= <-]. by apply true_row, Hc.
  - rewrite foldl_insert_notin by done. apply Hn.
Qed.

Lemma write_nodes_stored changed removed additional nodes n :
  Forall true_node changed -> Forall (fun n => content n.1 = None /\ fits32 n.2) additional ->
  true_node n -> (n ∈ changed \/ (nodes !! n.1 = Some n.2 /\ (n.1 ∈ removed -> n.1 ∈ changed.*1))) ->
  write_nodes changed removed additional nodes !! n.1 = Some n.2.
Proof.
  intros Hc Ha [Hn _] Hor. unfold write_nodes. rewrite Forall_forall in Hc, Ha.
  rewrite foldl_insert_notin.
  2: { intros (m & E & Hm)%list_elem_of_fmap. destruct (Ha _ Hm) as [Hno _]. rewrite <- E in Hno. congruence. }
  rewrite (foldl_delete (fun l => l ∈ changed.*1)). rewrite decide_False.
  2: { intros [Hr Hnc]. apply Hnc. destruct Hor as [Hin|[_ Himp]]; [|by apply Himp].
       apply list_elem_of_fmap. by exists n. }
  destruct (decide (n.1 ∈ changed.*1)) as [Hin|Hnin].
  - destruct (foldl_insert_in changed nodes n.1 Hin) as (b & Hb & ->). destruct (Hc _ Hb) as [Hb' _]. cbn in Hb'.
    congruence.
  - rewrite foldl_insert_notin by done. destruct Hor as [Hin|[? _]]; [|done].
    destruct Hnin. apply list_elem_of_fmap. by exists n.
Qed.

(** ** Updating *)

Lemma packed_label_length t n : n ∈ packed_nodes t -> length n.1 = 32%nat.
Proof.
  induction t as [k v nk|b k l IHl r IHr|?]; cbn [packed_nodes]; rewrite ?elem_of_cons, ?elem_of_app, ?elem_of_nil.
  - intros [->|[]]. apply blake2b_length.
  - intros [->|[?|?]]; [apply blake2b_length|auto..].
  - done.
Qed.

Lemma take_imap {A B} (f : nat -> A -> B) n l : take n (imap f l) = imap f (take n l).
Proof.
  revert f n. induction l as [|x l IH]; intros f [|n]; [done..|]. cbn. by rewrite IH.
Qed.

Lemma drop_imap {A B} (f : nat -> A -> B) n l : drop n (imap f l) = imap (fun i => f (n + i)%nat) (drop n l).
Proof.
  revert f l. induction n as [|n IH]; intros f [|x l]; [done..|]. cbn. rewrite IH. by apply imap_ext.
Qed.

Lemma foldl_delete_undo (ls : list Z) (m : gmap Z (list Z)) k :
  k ∉ ls -> foldl (fun m l => delete l m) m ls !! k = m !! k.
Proof.
  revert m. induction ls as [|l ls IH]; intros m Hk; [done|]. cbn.
  apply not_elem_of_cons in Hk as [Hne Hk]. rewrite IH by done. by rewrite lookup_delete_ne.
Qed.

Lemma length_omap_le {A B} (f : A -> option B) l : (length (omap f l) <= length l)%nat.
Proof. induction l as [|x l IH]; [done|]. cbn. destruct (f x); cbn; lia. Qed.

Lemma build_undo_ok vs s p t v1 digest h :
  repr vs s -> head vs = Some v1 -> genuine t -> prover_ok (Some (v_tree v1)) p t ->
  exists u, build_undo s p (collect_changed_nodes (top_node p) true) (v_block v1) = Return u /\
    undo_ok u (new_version p t digest h vs) v1.
Proof.
  intros Hr Hv1 Ht Hp. destruct vs as [|v vs]; [done|]. cbn in Hv1. injection Hv1 as ->.
  pose proof (r_meta _ _ Hr) as (Hcur & Hhash & Hheight & _). pose proof (r_versions _ _ Hr) as [Hv _]%Forall_cons.
  pose proof (r_top _ _ Hr _ eq_refl) as Hst.
  destruct (vo_tree _ Hv) as (Hwf & _ & _).
  unfold build_undo, meta_u32, copy_digest. rewrite Hhash, Hheight, (label_length _ Hwf), Hcur, be_bytes_length.
  cbn [Nat.eqb outcome_bind]. rewrite from_be_u32 by apply Hv. eexists. split; [done|].
  pose proof (collect_sublist _ _ _ true (po_explored _ _ _ Hp)) as Hsub.
  pose proof (sublist_length _ _ Hsub) as Hlen. destruct (po_count _ _ _ Hp) as [Hc1 Hc2].
  pose proof (po_labels _ _ _ Hp) as Hl32. rewrite Forall_forall in Hl32.
  assert (forall x, x ∈ omap (fun lbl => pair lbl <$> nodes_table (db s) !! lbl) (removed_labels p) ->
            x.1 ∈ removed_labels p /\ nodes_table (db s) !! x.1 = Some x.2) as Hom.
  { intros x (lbl & Hin & E)%list_elem_of_omap. destruct (nodes_table (db s) !! lbl) eqn:El; [|done].
    by injection E as <-. }
  split; cbn [removed_nodes inserted_labels prev_top_node_hash prev_top_node_height prev_version prev_block_height default];
    [split; cbn|..|done|done|done|done|].
  - eapply Z.le_trans; [apply inj_le, length_omap_le|exact Hc1].
  - apply Forall_forall. intros x [Hin Hx]%Hom. split; [by apply Hl32|]. by destruct (r_nodes _ _ Hr _ _ Hx).
  - unfold fits32 in *. rewrite length_fmap. lia.
  - apply Forall_forall. intros l (n & -> & Hn)%list_elem_of_fmap. eapply packed_label_length.
    eapply elem_of_submseteq; [done|by apply sublist_submseteq].
  - by apply label_length.
  - apply Hv.
  - apply Hv.
  - apply Hv.
  - apply Forall_forall. intros [a b] [_ Hx]%Hom. by apply (r_nodes _ _ Hr).
  - intros n Hn. destruct (po_left _ _ _ Hp _ n eq_refl Hn) as [?|Hrem]; [by left|]. right.
    apply list_elem_of_omap. exists n.1. split; [done|]. unfold stored in Hst. rewrite Forall_forall in Hst.
    rewrite (Hst _ Hn). by destruct n.
Qed.

Definition lsn_chain (top : Z) (vs : list Version) : list (Z * list Z) :=
  imap (fun i v => (top - Z.of_nat i, v_digest v)) vs.

Lemma lsn_chain_cons top v vs : (top + 1, v_digest v) :: lsn_chain top vs = lsn_chain (top + 1) (v :: vs).
Proof. unfold lsn_chain. cbn. f_equal; [f_equal; lia|]. apply imap_ext. intros i x _. cbn. f_equal. lia. Qed.

Lemma lsn_chain_drop top n vs l :
  l ∈ (drop n (lsn_chain top vs)).*1 -> exists i, (n <= i)%nat /\ l = top - Z.of_nat i.
Proof.
  unfold lsn_chain. rewrite drop_imap. intros ([l' d] & -> & Hin)%list_elem_of_fmap.
  apply elem_of_lookup_imap_1 in Hin as (i & v & E & _). injection E as -> _. exists (n + i)%nat. split; [lia|done].
Qed.

Lemma max_chain_len_pos k : (1 <= max_chain_len k)%nat.
Proof. unfold max_chain_len. destruct (Z.ltb_spec 0 k); lia. Qed.

Definition block_of (vs : list Version) : Z := match vs with v :: _ => v_block v | [] => 0 end.

Lemma prev_block_height vs s :
  repr vs s -> exists o, meta_u32 META_BLOCK_HEIGHT (db s) = Return o /\ default 0 o = block_of vs.
Proof.
  intros Hr. pose proof (r_meta _ _ Hr) as Hm. unfold meta_u32. destruct vs as [|v vs]; cbn in Hm.
  - destruct Hm as (_ & _ & _ & _ & ->). by exists None.
  - destruct Hm as (_ & _ & _ & _ & -> & _). rewrite be_bytes_length. cbn [Nat.eqb].
    pose proof (r_versions _ _ Hr) as [Hv _]%Forall_cons. exists (Some (v_block v)). split; [|done].
    by rewrite from_be_u32 by apply Hv.
Qed.

(** The undo table after an update, for the versions that are retained. *)
Lemma update_undo_ok vs s p t digest h :
  repr vs s -> genuine t -> prover_ok (v_tree <$> head vs) p t -> is_u64 (current_lsn s + 1) ->
  let v := new_version p t digest h vs in
  let chain := lsn_chain (current_lsn s + 1) (v :: vs) in
  let k := max_chain_len (keep_versions s) in
  exists undo,
    (if 0 <? keep_versions s then
       let! u := build_undo s p (collect_changed_nodes (top_node p) true) (block_of vs) in
       Return (foldl (fun m lsn => delete lsn m)
                 (<[current_lsn s + 1 := undo_serialize u]> (undo_table (db s))) (reverse (drop k chain).*1))
     else Return (undo_table (db s))) = Return (E := storage_error) undo /\
    forall i w w', take k (v :: vs) !! i = Some w -> take k (v :: vs) !! S i = Some w' ->
      exists u, undo !! (current_lsn s + 1 - Z.of_nat i) = Some (undo_serialize u) /\ undo_ok u w w'.
Proof.
  intros Hr Ht Hp Hlsn v chain k. unfold max_chain_len in k. destruct (Z.ltb_spec 0 (keep_versions s)) as [Hk|Hk].
  2: { eexists. split; [done|]. intros i w w' _ Hw'. apply lookup_lt_Some in Hw'. rewrite length_take in Hw'.
       subst k. lia. }
  assert (forall i, (i < k)%nat -> current_lsn s + 1 - Z.of_nat i ∉ reverse (drop k chain).*1) as Hkeep.
  { intros i Hi. rewrite elem_of_reverse. intros (j & Hj & E)%lsn_chain_drop. lia. }
  destruct vs as [|v1 vs].
  - unfold build_undo, copy_digest. destruct (r_meta _ _ Hr) as (_ & -> & E & _). unfold meta_u32. rewrite E.
    eexists. split; [done|]. intros i w w' _ Hw'. apply lookup_lt_Some in Hw'. rewrite length_take in Hw'.
    cbn in Hw'. lia.
  - destruct (build_undo_ok _ s p t v1 digest h Hr eq_refl Ht Hp) as (u & Eu & Hu).
    cbn [block_of]. rewrite Eu. eexists. split; [done|].
    intros i w w' Hw Hw'. pose proof (lookup_lt_Some _ _ _ Hw') as Hi. rewrite length_take in Hi.
    rewrite foldl_delete_undo by (apply Hkeep; lia).
    rewrite lookup_take_lt in Hw, Hw' by lia. destruct i as [|i].
    + cbn in Hw, Hw'. injection Hw as <-. injection Hw' as <-. exists u.
      rewrite Z.sub_0_r, lookup_insert_eq. done.
    + cbn in Hw, Hw'. rewrite lookup_insert_ne by lia.
      destruct (r_undo _ _ Hr i w w' Hw Hw') as (u' & Hl & Hu'). exists u'. split; [|done].
      rewrite <- Hl. f_equal. lia.
Qed.

(** Looks up a metadata key after the writes of a version. *)
Ltac meta_simpl :=
  unfold write_meta; repeat first [rewrite lookup_insert_eq | rewrite lookup_insert_ne by done].

(** What an update is given: a prover that holds the new tree, and sizes that fit. *)
Record update_args (vs : list Version) (s : Storage) (p : Prover) (t : tree) (digest : list Z)
    (additional : list (list Z * list Z)) (h : option Z) : Prop := {
  ua_tree : genuine t;
  ua_prover : prover_ok (v_tree <$> head vs) p t;
  ua_digest : prover_digest p = Some digest /\ fits32 digest;
  ua_additional : Forall (fun n => content n.1 = None /\ fits32 n.2) additional;
  ua_height : forall x, h = Some x -> is_u32 x;
  ua_room : current_lsn s < U64_MAX /\ Z.of_nat (length vs) < U32_MAX;
}.

Lemma block_of_u32 vs : Forall version_ok vs -> is_u32 (block_of vs).
Proof. intros Hv. destruct Hv as [|v vs Hv _]; cbn; [int_unfold; lia|apply Hv]. Qed.

Lemma new_version_ok vs s p t digest additional h :
  Forall version_ok vs -> update_args vs s p t digest additional h ->
  version_ok (new_version p t digest h vs).
Proof.
  intros Hvs Ha. destruct Ha. split; cbn; [done|apply as_u32_range| |by destruct ua_digest0].
  destruct h as [x|]; cbn; [by apply ua_height0|]. by apply block_of_u32.
Qed.

(** The nodes of the new tree are stored by the update. *)
Lemma update_nodes_stored vs s p t digest additional h :
  repr vs s -> update_args vs s p t digest additional h ->
  let nodes' := write_nodes (collect_changed_nodes (top_node p) true) (removed_labels p) additional
                  (nodes_table (db s)) in
  stored nodes' t /\ nodes_ok nodes'.
Proof.
  intros Hr [Ht Hp _ Hadd _ _] nodes'.
  assert (Forall true_node (collect_changed_nodes (top_node p) true)) as Hch.
  { apply Forall_forall. intros n Hn. apply (genuine_node t); [done|].
    eapply elem_of_submseteq; [done|]. apply sublist_submseteq. by eapply collect_sublist, Hp. }
  split; [|by apply write_nodes_ok, Hadd; [apply Hr|]].
  apply Forall_forall. intros n Hn. apply write_nodes_stored; [done..|by apply (genuine_node t)|].
  destruct (collect_covers _ _ _ true n (po_explored _ _ _ Hp) Hn) as [?|(o & Ho & Hno)]; [by left|]. right.
  destruct vs as [|v vs]; [done|]. cbn in Ho. injection Ho as <-. split.
  - pose proof (r_top _ _ Hr v eq_refl) as Hs. unfold stored in Hs. rewrite Forall_forall in Hs. by apply Hs.
  - intros Hrem. destruct (po_removed _ _ _ Hp _ Hrem) as [Hnot|?]; [|done].
    destruct Hnot. apply list_elem_of_fmap. by exists n.
Qed.

Lemma update_spec vs s p t digest additional h :
  repr vs s -> update_args vs s p t digest additional h ->
  exists s', update_internal p additional h s = Return (s', reset_prover p) /\
    repr (take (max_chain_len (keep_versions s)) (new_version p t digest h vs :: vs)) s' /\
    keep_versions s' = keep_versions s /\ current_lsn s' = current_lsn s + 1.
Proof.
  intros Hr Ha. pose proof (new_version_ok _ _ _ _ _ _ _ (r_versions _ _ Hr) Ha) as Hnew.
  pose proof (update_nodes_stored _ _ _ _ _ _ _ Hr Ha) as [Hst Hok].
  destruct Ha as [Ht Hp [Hd Hdf] Hadd Hh [Hlsn Hlen]]. pose proof (r_lsn _ _ Hr) as Hl.
  assert (is_u64 (current_lsn s + 1)) as Hu64 by (int_unfold; lia).
  destruct (update_undo_ok vs s p t digest h Hr Ht Hp Hu64) as (undo & Eundo & Hundo).
  destruct (prev_block_height _ _ Hr) as (prev & Eprev & Hprev).
  unfold update_internal. rewrite Hd. cbn [ok_or of_result outcome_bind].
  unfold add_u64. rewrite as_u64_small by done. rewrite (r_chain _ _ Hr). fold (lsn_chain (current_lsn s) vs).
  assert ((current_lsn s + 1, digest) :: lsn_chain (current_lsn s) vs =
          lsn_chain (current_lsn s + 1) (new_version p t digest h vs :: vs)) as ->
    by exact (lsn_chain_cons (current_lsn s) (new_version p t digest h vs) vs).
  rewrite Eprev. cbn [outcome_bind]. rewrite Hprev, Eundo. cbn [outcome_bind].
  set (v := new_version p t digest h vs) in *. set (k := max_chain_len (keep_versions s)) in *.
  pose proof (max_chain_len_pos (keep_versions s)) as Hk. fold k in Hk. clearbody k.
  assert (take k (lsn_chain (current_lsn s + 1) (v :: vs)) = lsn_chain (current_lsn s + 1) (take k (v :: vs))) as Etake
    by apply take_imap.
  rewrite Etake. destruct k as [|k']; [lia|]. cbn [take] in *. set (vs' := v :: take k' vs) in *.
  eexists. split; [done|].
  assert (current_lsn (mk_storage (mk_db (write_nodes (collect_changed_nodes (top_node p) true) (removed_labels p)
            additional (nodes_table (db s))) undo
            (write_meta (label (erase (top_node p))) (as_u32 (prover_height p)) digest (current_lsn s + 1)
              (default (block_of vs) h) (lsn_chain (current_lsn s + 1) vs') (meta_table (db s))))
            (keep_versions s) (Some digest) (lsn_chain (current_lsn s + 1) vs')) = current_lsn s + 1) as Elsn
    by (unfold current_lsn; cbn; lia).
  split; [split; rewrite ?Elsn; cbn [db nodes_table undo_table meta_table version_chain]|by split].
  - constructor; [done|]. apply Forall_take, Hr.
  - unfold fits32, vs'. cbn [length]. rewrite length_take. lia.
  - done.
  - unfold vs'. cbn [length]. rewrite length_take. lia.
  - exact Hundo.
  - intros ? [= <-]. exact Hst.
  - exact Hok.
  - unfold meta_ok, vs' at 1. rewrite Elsn. cbn [current_version db meta_table version_chain].
    destruct (explored_erase _ _ _ (po_explored _ _ _ Hp)) as [-> _].
    split_and!; [done|..]; by meta_simpl.
Qed.

(** ** Rolling back *)

(** Re-inserting what an update removed brings the tree before it back. *)
Lemma undo_restores u v v' nodes :
  undo_ok u v v' -> version_ok v' -> stored nodes (v_tree v) -> nodes_ok nodes ->
  let nodes' := foldl (fun m n => <[n.1 := n.2]> m) nodes (removed_nodes u) in
  stored nodes' (v_tree v') /\ nodes_ok nodes'.
Proof.
  intros Hu Hv Hs Hok nodes'. pose proof (uo_true _ _ _ Hu) as Ht. rewrite Forall_forall in Ht. split.
  - apply Forall_forall. intros n Hn. destruct (genuine_node _ _ (vo_tree _ Hv) Hn) as [Hc _].
    destruct (decide (n.1 ∈ (removed_nodes u).*1)) as [Hin|Hnin]; unfold nodes'.
    + destruct (foldl_insert_in (removed_nodes u) nodes n.1 Hin) as (b & Hb & ->).
      destruct (Ht _ Hb) as [_ Hrow]. cbn in Hrow. by rewrite (Hrow _ Hc).
    + rewrite foldl_insert_notin by done. unfold stored in Hs. rewrite Forall_forall in Hs. apply Hs.
      destruct (uo_nodes _ _ _ Hu n Hn) as [?|Hr]; [done|]. destruct Hnin. apply list_elem_of_fmap. by exists n.
  - intros l b. unfold nodes'. destruct (decide (l ∈ (removed_nodes u).*1)) as [Hin|Hnin].
    + destruct (foldl_insert_in (removed_nodes u) nodes l Hin) as (b' & Hb & ->). intros [= <-]. by apply Ht.
    + rewrite foldl_insert_notin by done. apply Hok.
Qed.

(** The links of a stack: an undo record for each version above another. *)
Definition links (top : Z) (vs : list Version) (undo : gmap Z (list Z)) : Prop :=
  forall i v v', vs !! i = Some v -> vs !! S i = Some v' ->
    exists u, undo !! (top - Z.of_nat i) = Some (undo_serialize u) /\ undo_ok u v v'.

Lemma links_tail top v vs undo : links top (v :: vs) undo -> links (top - 1) vs (delete top undo).
Proof.
  intros Hl i w w' Hw Hw'. destruct (Hl (S i) w w' Hw Hw') as (u & Hu & Hok). exists u. split; [|done].
  rewrite lookup_delete_ne by lia. rewrite <- Hu. f_equal. lia.
Qed.

Lemma lsn_chain_tail top v vs : lsn_chain top (v :: vs) = (top, v_digest v) :: lsn_chain (top - 1) vs.
Proof. rewrite <- (Z.sub_add 1 top) at 1. by rewrite <- lsn_chain_cons, Z.sub_add. Qed.

Lemma undo_versions_spec n vs top d last w :
  vs !! n = Some w -> Forall version_ok vs -> links top vs (undo_table d) ->
  (forall v, head vs = Some v -> stored (nodes_table d) (v_tree v)) -> nodes_ok (nodes_table d) ->
  exists d' last', undo_versions (take n (lsn_chain top vs)).*1 d last = Ok (d', last') /\
    stored (nodes_table d') (v_tree w) /\ nodes_ok (nodes_table d') /\ meta_table d' = meta_table d /\
    links (top - Z.of_nat n) (drop n vs) (undo_table d') /\
    match n with
    | O => last' = last
    | S _ => exists u v, last' = Some u /\ undo_ok u v w
    end.
Proof.
  revert vs top d last. induction n as [|n IH]; intros vs top d last Hw Hvs Hl Hs Hok.
  { exists d, last. rewrite Z.sub_0_r. split_and!; try done. apply Hs. by destruct vs. }
  destruct vs as [|v [|v' vs]]; [done..|]. cbn in Hw.
  destruct (Hl 0%nat v v' eq_refl eq_refl) as (u & Hu & Huok). rewrite Z.sub_0_r in Hu.
  apply Forall_cons in Hvs as [Hv Hvs]. pose proof Hvs as [Hv' _]%Forall_cons.
  destruct (undo_restores u v v' (nodes_table d) Huok Hv' (Hs _ eq_refl) Hok) as [Hs' Hok'].
  rewrite lsn_chain_tail. cbn [take fmap list_fmap fst undo_versions]. rewrite Hu. cbn [ok_or result_bind].
  rewrite undo_roundtrip by apply Huok. cbn [result_bind].
  destruct (IH (v' :: vs) (top - 1)
    (with_undo (with_nodes d (foldl (fun m n => <[n.1 := n.2]> m) (nodes_table d) (removed_nodes u)))
       (delete top (undo_table d))) (Some u) Hw Hvs)
    as (d' & last' & E & H1 & H2 & H3 & H4 & H5);
    [by eapply links_tail|intros ? [= <-]; exact Hs'|exact Hok'|].
  exists d', last'. split; [exact E|]. split_and!; [done..|by rewrite H3| |].
  - cbn [drop] in *. replace (top - Z.of_nat (S n)) with (top - 1 - Z.of_nat n) by lia. exact H4.
  - destruct n as [|n]; [|exact H5]. cbn in Hw. injection Hw as <-. subst last'. by exists u, v.
Qed.

Lemma lsn_chain_lookup top vs i : lsn_chain top vs !! i = (fun v => (top - Z.of_nat i, v_digest v)) <$> vs !! i.
Proof. unfold lsn_chain. by rewrite list_lookup_imap. Qed.

Lemma position_versions v top vs :
  position v (lsn_chain top vs) = fst <$> list_find (fun w => v_digest w = v) vs.
Proof.
  unfold position. revert top. induction vs as [|w vs IH]; intros top; [done|].
  rewrite lsn_chain_tail. cbn. case_decide; [done|].
  specialize (IH (top - 1)). destruct (list_find _ (lsn_chain _ _)) as [[]|], (list_find _ vs) as [[]|];
    cbn in *; by simplify_eq.
Qed.

Lemma repr_head_lsn top v vs s : version_chain s = lsn_chain top (v :: vs) -> current_lsn s = top.
Proof. unfold current_lsn. intros ->. cbn. lia. Qed.

(** A rollback to the newest version with the digest, or none. *)
Lemma rollback_spec vs s v :
  repr vs s ->
  match list_find (fun w => v_digest w = v) vs with
  | None => rollback v s = (Fail VersionNotFound, s)
  | Some (i, w) => exists s', rollback v s = (Return (pack (v_tree w), v_height w), s') /\
      repr (drop i vs) s' /\ keep_versions s' = keep_versions s /\ current_lsn s' <= current_lsn s
  end.
Proof.
  intros Hr. pose proof (r_chain _ _ Hr) as Hch. fold (lsn_chain (current_lsn s) vs) in Hch.
  destruct (list_find (fun w => v_digest w = v) vs) as [[i w]|] eqn:Ef.
  2: { unfold rollback. rewrite decide_False.
       - by rewrite Hch, position_versions, Ef.
       - pose proof (r_meta _ _ Hr) as Hm. destruct vs as [|u vs]; cbn in Hm; [by destruct Hm as [-> _]|].
         destruct Hm as [-> _]. intros [= E]. apply list_find_None in Ef. by inversion Ef. }
  apply list_find_Some in Ef as Hf. destruct Hf as (Hi & Hd & Hfirst).
  pose proof (Forall_lookup_1 _ _ _ _ (r_versions _ _ Hr) Hi) as Hw. destruct (vo_tree _ Hw) as (Hwf & Hwhole & _).
  destruct i as [|i].
  - destruct vs as [|u vs]; [done|]. cbn in Hi. injection Hi as ->. exists s. rewrite drop_0.
    split; [|by split_and!]. destruct (r_meta _ _ Hr) as (Hcur & Hhash & Hheight & _).
    unfold rollback. rewrite decide_True by congruence. f_equal.
    unfold read_root_state, copy_digest. rewrite Hhash, (label_length _ Hwf), Hheight, be_bytes_length.
    cbn [Nat.eqb outcome_bind]. rewrite from_be_u32 by apply Hw. unfold root_node, get_node.
    by rewrite (stored_root _ _ Hwhole (r_top _ _ Hr _ eq_refl)).
  - destruct (undo_versions_spec (S i) vs (current_lsn s) (db s) None w Hi (r_versions _ _ Hr) (r_undo _ _ Hr)
                (r_top _ _ Hr) (r_nodes _ _ Hr)) as (d & last & Eu & Hs & Hok & Hm & Hl & u & v0 & -> & Huok).
    unfold rollback. rewrite decide_False.
    2: { pose proof (r_meta _ _ Hr) as Hmeta. destruct vs as [|x vs]; [done|]. destruct Hmeta as [-> _]. intros [= E].
         by destruct (Hfirst 0%nat x eq_refl ltac:(lia)). }
    rewrite Hch, position_versions, Ef. cbn [fmap option_fmap option_map fst]. rewrite Eu.
    eexists. split; [unfold root_node, get_node; cbn [db with_meta nodes_table]; rewrite (uo_hash _ _ _ Huok),
      (stored_root _ _ Hwhole Hs), (uo_height _ _ _ Huok); cbn; reflexivity|].
    assert (drop (S i) vs = w :: drop (S (S i)) vs) as Edrop by (by apply drop_S).
    assert (drop (S i) (lsn_chain (current_lsn s) vs) = lsn_chain (current_lsn s - Z.of_nat (S i)) (drop (S i) vs)) as Ech.
    { unfold lsn_chain. rewrite drop_imap. apply imap_ext. intros j x _. f_equal. lia. }
    pose proof (r_lsn _ _ Hr) as Hlsn. pose proof (lookup_lt_Some _ _ _ Hi) as Hlt.
    match goal with |- repr _ ?x /\ _ => set (s' := x) end.
    assert (current_lsn s' = current_lsn s - Z.of_nat (S i)) as El
      by (apply (repr_head_lsn _ w (drop (S (S i)) vs)); unfold s'; cbn [version_chain]; by rewrite Ech, Edrop).
    split; [split; rewrite ?El|split; [done|lia]].
    + by apply Forall_drop, Hr.
    + pose proof (r_count _ _ Hr). unfold fits32 in *. rewrite length_drop. lia.
    + exact Ech.
    + rewrite length_drop. lia.
    + exact Hl.
    + rewrite Edrop. intros ? [= <-]. exact Hs.
    + exact Hok.
    + unfold meta_ok. rewrite Edrop, El. unfold s'. cbn [current_version db with_meta meta_table version_chain].
      rewrite lsn_chain_lookup, Hi. cbn [fmap option_fmap option_map fst default].
      destruct Huok as [_ _ E1 E2 E3 E4 _]. rewrite ?E1, ?E2, E3, E4, Hd. split_and!; [done|..]; by meta_simpl.
Qed.

Lemma open_spec vs s keep : repr vs s -> open (db s) keep = Ok (set_keep_versions keep s).
Proof.
  intros Hr. pose proof (r_meta _ _ Hr) as Hm. pose proof (r_chain _ _ Hr) as Hch. unfold open, restore_state.
  destruct vs as [|v vs]; cbn in Hm.
  - destruct Hm as (Hc & _ & _ & -> & _). cbn. unfold set_keep_versions. by rewrite Hc, Hch.
  - destruct Hm as (Hc & _ & _ & -> & Hb & _ & ->). rewrite chain_roundtrip.
    + cbn. rewrite Hb. unfold set_keep_versions. by rewrite Hc.
    + rewrite Hch. pose proof (r_count _ _ Hr) as Hn. pose proof (r_lsn _ _ Hr) as Hl. split.
      { unfold fits32 in *. by rewrite length_imap. }
      apply Forall_forall. intros [l d] (i & w & E & Hi)%elem_of_lookup_imap_1. injection E as -> ->.
      pose proof (Forall_lookup_1 _ _ _ _ (r_versions _ _ Hr) Hi) as Hw. split; [|apply Hw].
      apply lookup_lt_Some in Hi. cbn [fst]. int_unfold. lia.
Qed.

(** ** Loading a snapshot, and the other operations *)

Lemma repr_empty keep : repr [] (mk_storage empty_db keep None []).
Proof. by split. Qed.

Lemma load_snapshot_spec s nodes t height digest block :
  repr [] s -> nodes_table (db s) = ∅ -> genuine t -> is_u32 height -> is_u32 block -> fits32 digest ->
  Forall true_node nodes -> (forall n, n ∈ packed_nodes t -> n ∈ nodes) ->
  repr [mk_version digest t height block] (load_snapshot nodes (label t) height digest block s).
Proof.
  intros Hr He Ht Hh Hb Hd Hn Hin. rewrite Forall_forall in Hn. split; cbn [load_snapshot db nodes_table version_chain].
  - apply Forall_singleton. by split.
  - unfold fits32. cbn. int_unfold. lia.
  - done.
  - unfold current_lsn. cbn. int_unfold. lia.
  - intros i v v' _ Hv'. by apply lookup_lt_Some in Hv'; cbn in Hv'; lia.
  - intros v [= <-]. cbn. apply Forall_forall. intros n Hnt. rewrite He.
    destruct (foldl_insert_in nodes ∅ n.1) as (b & Hb' & ->).
    { apply list_elem_of_fmap. exists n. auto. }
    destruct (Hn _ Hb') as [Hc _]. destruct (Hn _ (Hin _ Hnt)) as [Hc' _]. cbn in Hc. congruence.
  - intros l b. rewrite He. destruct (decide (l ∈ nodes.*1)) as [Hl|Hl].
    + destruct (foldl_insert_in nodes ∅ l Hl) as (b' & Hb' & ->). intros [= <-]. by apply true_row, Hn.
    + by rewrite foldl_insert_notin.
  - unfold meta_ok. cbn [load_snapshot db meta_table current_version version_chain].
    rewrite as_u32_small by done. split_and!; [done|..]; by meta_simpl.
Qed.

Lemma set_keep_spec vs s k : repr vs s -> repr vs (set_keep_versions k s).
Proof. intros [? ? ? ? ? ? ? ?]. by split. Qed.

Lemma flush_spec vs s now : repr vs s -> repr vs (flush now s).
Proof.
  intros [? ? ? ? ? ? ? Hm]. split; try done. unfold meta_ok, flush in *.
  destruct vs; cbn [current_version db with_meta meta_table version_chain] in *;
    [destruct Hm as (? & ? & ? & ? & ?)|destruct Hm as (? & ? & ? & ? & ? & ? & ?)];
    split_and!; try done; by rewrite lookup_insert_ne by done.
Qed.

(** The stack after a rollback: from the newest version with the digest down. *)
Definition pop (v : list Z) (vs : list Version) : list Version :=
  match list_find (fun w => v_digest w = v) vs with
  | Some (i, _) => drop i vs
  | None => vs
  end.

(** A storage next to the stack of versions it should hold, through any sequence of the
    operations; an update is made by a prover that keeps its contract. *)
Inductive reachable : Storage -> list Version -> Prop :=
  | reach_new keep : reachable (mk_storage empty_db keep None []) []
  | reach_load keep nodes t height digest block :
      genuine t -> is_u32 height -> is_u32 block -> fits32 digest ->
      Forall true_node nodes -> (forall n, n ∈ packed_nodes t -> n ∈ nodes) ->
      reachable (load_snapshot nodes (label t) height digest block (mk_storage empty_db keep None []))
        [mk_version digest t height block]
  | reach_update s vs p t digest additional h s' p' :
      reachable s vs -> update_args vs s p t digest additional h ->
      update_internal p additional h s = Return (s', p') ->
      reachable s' (take (max_chain_len (keep_versions s)) (new_version p t digest h vs :: vs))
  | reach_rollback s vs v r s' :
      reachable s vs -> rollback v s = (r, s') -> reachable s' (pop v vs)
  | reach_keep s vs k : reachable s vs -> reachable (set_keep_versions k s) vs
  | reach_flush s vs now : reachable s vs -> reachable (flush now s) vs
  | reach_reopen s vs keep s' : reachable s vs -> open (db s) keep = Ok s' -> reachable s' vs.

Lemma reachable_repr s vs : reachable s vs -> repr vs s.
Proof.
  induction 1 as [keep|keep nodes t height digest block|s vs p t digest add h s' p' _ IH Ha Hu
    |s vs v r s' _ IH Hrb|s vs k _ IH|s vs now _ IH|s vs keep s' _ IH Ho].
  - apply repr_empty.
  - by apply load_snapshot_spec; [apply repr_empty|..].
  - destruct (update_spec _ _ _ _ _ _ _ IH Ha) as (s1 & E & Hr & _). rewrite E in Hu.
    injection Hu as <- _. exact Hr.
  - pose proof (rollback_spec vs s v IH) as Hs. unfold pop.
    destruct (list_find (fun w => v_digest w = v) vs) as [[i w]|]; rewrite Hrb in Hs.
    + destruct Hs as (s1 & E & Hr & _). injection E as _ ->. exact Hr.
    + by injection Hs as _ ->.
  - by apply set_keep_spec.
  - by apply flush_spec.
  - rewrite (open_spec vs) in Ho by done. injection Ho as <-. by apply set_keep_spec.
Qed.

(** ** What the operations answer *)

(** The answers of a storage about its newest version. *)
Definition answers (vs : list Version) (s : Storage) : Prop :=
  version s = v_digest <$> head vs /\ block_height s = v_block <$> head vs /\
  rollback_versions s = v_digest <$> tail vs /\
  (forall v, head vs = Some v -> stored (nodes_table (db s)) (v_tree v)).

Lemma repr_answers vs s : repr vs s -> answers vs s.
Proof.
  intros Hr. pose proof (r_meta _ _ Hr) as Hm. split_and!.
  - unfold version. destruct vs; apply Hm.
  - unfold block_height. destruct vs as [|v vs]; cbn in Hm.
    + by destruct Hm as (_ & _ & _ & _ & ->).
    + destruct Hm as (_ & _ & _ & _ & -> & _). rewrite be_bytes_length. cbn.
      pose proof (r_versions _ _ Hr) as [Hv _]%Forall_cons. by rewrite from_be_u32 by apply Hv.
  - unfold rollback_versions. rewrite (r_chain _ _ Hr), drop_imap. apply list_eq. intros i.
    rewrite list_lookup_fmap, list_lookup_imap, list_lookup_fmap, lookup_drop.
    destruct vs as [|v vs]; [done|]. cbn [tail Nat.add lookup list_lookup]. by destruct (vs !! i).
  - apply Hr.
Qed.

(** C4: the state storage refines a stack of versions. Through any sequence of updates,
    rollbacks, snapshot loads, flushes, retention changes and restarts, it reports the
    newest version and its block height, offers exactly the retained older versions for
    rollback, and holds every node of the newest tree. From there a rollback to any
    retained digest restores that tree, its height and block height and drops what was
    above it, and to any other digest fails and changes nothing; an update made by a
    prover that keeps its contract succeeds and pushes its tree; and reopening the file
    gives the same storage. *)
Theorem storage_refines s vs :
  reachable s vs ->
  answers vs s /\
  (forall v,
     match list_find (fun w => v_digest w = v) vs with
     | None => rollback v s = (Fail VersionNotFound, s)
     | Some (i, w) => exists s', rollback v s = (Return (pack (v_tree w), v_height w), s') /\
                        answers (drop i vs) s'
     end) /\
  (forall p t digest additional h, update_args vs s p t digest additional h ->
     exists s', update_internal p additional h s = Return (s', reset_prover p) /\
       answers (take (max_chain_len (keep_versions s)) (new_version p t digest h vs :: vs)) s') /\
  (forall keep, open (db s) keep = Ok (set_keep_versions keep s)).
Proof.
  intros Hr%reachable_repr. split_and!; [by apply repr_answers|..].
  - intros v. pose proof (rollback_spec vs s v Hr) as Hs.
    destruct (list_find (fun w => v_digest w = v) vs) as [[i w]|]; [|done].
    destruct Hs as (s' & E & Hr' & _). exists s'. split; [done|]. by apply repr_answers.
  - intros p t digest additional h Ha. destruct (update_spec _ _ _ _ _ _ _ Hr Ha) as (s' & E & Hr' & _).
    exists s'. split; [done|]. by apply repr_answers.
  - intros keep. by apply open_spec with vs.
Qed.

End Refinement.

(** ** An instance *)

Module Examples.

(** A hash for examples: 32 bytes, the last of them a polynomial of the input. *)
#[export] Instance toy_blake : Blake2b := fun l => replicate 31 0 ++ [foldl (fun a b => (a * 31 + b + 1) mod 251) 0 l].

#[export] Instance toy_blake_laws : Blake2bLaws.
Proof. done. Qed.

Definition key (n : Z) : list Z := replicate 32 n.

(** A tree of one leaf, and the tree after the insertion of a key. *)
Definition t1 : tree := Leaf (key 0) [] (key 9).
Definition t2 : tree := Node 0 (key 5) (Leaf (key 0) [] (key 5)) (Leaf (key 5) [7] (key 9)).

Definition p2 : Prover :=
  mk_prover (LoadedNode true false 0 (key 5) (LoadedLeaf true false (key 0) [] (key 5))
               (LoadedLeaf true false (key 5) [7] (key 9)))
    [label t1] 1 (Some (label t2 ++ [1])).

Definition ex_content (l : list Z) : option (list Z) :=
  list_to_map (M := gmap (list Z) (list Z)) (packed_nodes t1 ++ packed_nodes t2) !! l.

Definition s0 : Storage := mk_storage empty_db 10 None [].
Definition v1 : Version := mk_version (label t1 ++ [0]) t1 0 100.
Definition s1 : Storage := load_snapshot (packed_nodes t1) (label t1) 0 (label t1 ++ [0]) 100 s0.

Lemma ex_genuine t : t = t1 \/ t = t2 -> genuine ex_content t.
Proof.
  intros [-> | ->]; (split; [by vm_compute|split; [done|]]);
    cbn [packed_nodes t1 t2 app]; repeat apply Forall_cons_2; try done; split; by vm_compute.
Qed.

Lemma ex_reachable1 : reachable ex_content s1 [v1].
Proof.
  apply reach_load; [by apply ex_genuine; left|by vm_compute..| |done].
  apply Forall_singleton. split; by vm_compute.
Qed.

Lemma ex_args : update_args ex_content [v1] s1 p2 t2 (label t2 ++ [1]) [] (Some 101).
Proof.
  split; [by apply ex_genuine; right| |by split|done|intros ? [= <-]; by vm_compute|by vm_compute].
  split; [done|by repeat constructor|..].
  - intros l Hl. apply list_elem_of_singleton in Hl as ->. left. apply (bool_decide_unpack _). by vm_compute.
  - intros o n [= <-] Hn. apply list_elem_of_singleton in Hn as ->. right. by left.
  - by repeat constructor.
  - split; by vm_compute.
Qed.

Lemma storage_refines_witness :
  exists s2 s3,
    update_internal p2 [] (Some 101) s1 = Return (s2, reset_prover p2) /\
    version s2 = Some (label t2 ++ [1]) /\
    rollback (label t1 ++ [0]) s2 = (Return (pack t1, 0), s3) /\
    block_height s3 = Some 100 /\ stored (nodes_table (db s3)) t1.
Proof.
  destruct (storage_refines ex_content s1 [v1] ex_reachable1) as (_ & _ & Hup & _).
  destruct (Hup p2 t2 (label t2 ++ [1]) [] (Some 101) ex_args) as (s2 & E & (Hv & _)). exists s2.
  assert (reachable ex_content s2 [new_version p2 t2 (label t2 ++ [1]) (Some 101) [v1]; v1]) as Hr2
    by exact (reach_update _ _ _ _ _ _ _ _ _ _ ex_reachable1 ex_args E).
  destruct (storage_refines ex_content s2 _ Hr2) as (_ & Hrb & _).
  specialize (Hrb (label t1 ++ [0])).
  assert (list_find (fun w => v_digest w = label t1 ++ [0]) [new_version p2 t2 (label t2 ++ [1]) (Some 101) [v1]; v1] =
          Some (1%nat, v1)) as Ef by (by vm_compute).
  rewrite Ef in Hrb. destruct Hrb as (s3 & Er & (_ & Hb & _ & Hst)). exists s3.
  split_and!; [done|done|exact Er|exact Hb|exact (Hst v1 eq_refl)].
Defined.

End Examples.

End StateInv.
