(* ===== verification/StateReader.v ===== *)
(** * Reading and dumping the state

    The read-only side of src/state/src/storage.rs: [SnapshotReader], which looks a key up
    in the stored tree and dumps the tree as a manifest and chunks. The walks follow labels
    through the nodes table, which may not be a tree: they have fuel, and [None] means that
    it ran out. *)

From S2P Require Import Prelude Bytes AvlTree StateStorage StateStorageInv.
Import Avl State.

Module Reader.

(** The order of byte slices. *)
Fixpoint lex_ltb (a b : list Z) : bool :=
  match a, b with
  | _, [] => false
  | [], _ :: _ => true
  | x :: a', y :: b' => if x <? y then true else if y <? x then false else lex_ltb a' b'
  end.

Inductive read_error := CorruptNode | NodeMissing (lbl : list Z) | BadHeightBytes.

(** [extract_child_labels]. *)
Definition extract_child_labels (key_length : nat) (packed : list Z) : result read_error (list Z * list Z) :=
  let offset := (2 + key_length)%nat in
  if (length packed <? offset + 64)%nat then Err CorruptNode
  else Ok (take 32 (drop offset packed), take 32 (drop (offset + 32) packed)).

(** The value in a leaf, when it is the key's. *)
Definition leaf_value (key_length : nat) (key packed : list Z) : option (list Z) :=
  let leaf_end := (1 + key_length)%nat in
  if (length packed <? leaf_end)%nat then None
  else if decide (take key_length (drop 1 packed) = key) then
    if (length packed <? leaf_end + 4)%nat then None
    else
      let vlen := Z.to_nat (from_be (take 4 (drop leaf_end packed))) in
      if (length packed <? leaf_end + 4 + vlen)%nat then None
      else Some (take vlen (drop (leaf_end + 4) packed))
  else None.

(** The loop of [lookup_key]. *)
Fixpoint lookup_loop (fuel : nat) (nodes : gmap (list Z) (list Z)) (key_length : nat) (key lbl : list Z)
    : option (option (list Z)) :=
  match fuel with
  | O => None
  | S fuel' =>
      match nodes !! lbl with
      | None => Some None
      | Some [] => Some None
      | Some ((node_type :: _) as packed) =>
          if node_type =? 1 then Some (leaf_value key_length key packed)
          else
            let child_offset := (2 + key_length)%nat in
            if (length packed <? child_offset + 64)%nat then Some None
            else if lex_ltb key (take key_length (drop 2 packed)) then
              lookup_loop fuel' nodes key_length key (take 32 (drop child_offset packed))
            else lookup_loop fuel' nodes key_length key (take 32 (drop (child_offset + 32) packed))
      end
  end.

(** [lookup_key]; the root label is copied into an array, which panics when it is not one
    of 32 bytes. *)
Definition lookup_key (fuel : nat) (d : Db) (key_length : nat) (key : list Z)
    : option (outcome read_error (option (list Z))) :=
  match meta_table d !! META_TOP_NODE_HASH with
  | None => Some (Return None)
  | Some root =>
      if (length root =? 32)%nat then Return <$> lookup_loop fuel (nodes_table d) key_length key root
      else Some Panic
  end.

(** ** Dumping *)

Record SnapshotDump := mk_dump {
  dump_root_hash : list Z;
  dump_tree_height : Z;
  dump_manifest : list Z;
  dump_chunks : list (list Z * list Z);
}.

(** A packed node and its type byte, which panics on an empty row. *)
Definition node_row (nodes : gmap (list Z) (list Z)) (lbl : list Z) : outcome read_error (list Z * Z) :=
  match nodes !! lbl with
  | None => Fail (NodeMissing lbl)
  | Some [] => Panic
  | Some ((ty :: _) as packed) => Return (packed, ty)
  end.

(** [walk_manifest] of the reader: the bytes, and the children below the boundary. *)
Fixpoint dump_manifest_walk (fuel : nat) (nodes : gmap (list Z) (list Z)) (key_length : nat) (lbl : list Z)
    (level depth : Z) : option (outcome read_error (list Z * list (list Z))) :=
  match fuel with
  | O => None
  | S fuel' =>
      match node_row nodes lbl with
      | Fail e => Some (Fail e)
      | Panic => Some Panic
      | Return (packed, ty) =>
          if ty =? 1 then Some (Return (packed, []))
          else
            match extract_child_labels key_length packed with
            | Err e => Some (Fail e)
            | Ok (left_label, right_label) =>
                if level =? depth then Some (Return (packed, [left_label; right_label]))
                else
                  match dump_manifest_walk fuel' nodes key_length left_label (as_u8 (level + 1)) depth with
                  | Some (Return (bytes1, roots1)) =>
                      match dump_manifest_walk fuel' nodes key_length right_label (as_u8 (level + 1)) depth with
                      | Some (Return (bytes2, roots2)) =>
                          Some (Return (packed ++ bytes1 ++ bytes2, roots1 ++ roots2))
                      | r => r
                      end
                  | r => r
                  end
            end
      end
  end.

(** [walk_chunk]. *)
Fixpoint walk_chunk (fuel : nat) (nodes : gmap (list Z) (list Z)) (key_length : nat) (lbl : list Z)
    : option (outcome read_error (list Z)) :=
  match fuel with
  | O => None
  | S fuel' =>
      match node_row nodes lbl with
      | Fail e => Some (Fail e)
      | Panic => Some Panic
      | Return (packed, ty) =>
          if ty =? 1 then Some (Return packed)
          else
            match extract_child_labels key_length packed with
            | Err e => Some (Fail e)
            | Ok (left_label, right_label) =>
                match walk_chunk fuel' nodes key_length left_label with
                | Some (Return bytes1) =>
                    match walk_chunk fuel' nodes key_length right_label with
                    | Some (Return bytes2) => Some (Return (packed ++ bytes1 ++ bytes2))
                    | r => r
                    end
                | r => r
                end
            end
      end
  end.

Fixpoint dump_chunk_list (fuel : nat) (nodes : gmap (list Z) (list Z)) (key_length : nat) (roots : list (list Z))
    : option (outcome read_error (list (list Z * list Z))) :=
  match roots with
  | [] => Some (Return [])
  | lbl :: roots' =>
      match walk_chunk fuel nodes key_length lbl with
      | Some (Return bytes) =>
          match dump_chunk_list fuel nodes key_length roots' with
          | Some (Return chunks) => Some (Return ((lbl, bytes) :: chunks))
          | r => r
          end
      | Some (Fail e) => Some (Fail e)
      | Some Panic => Some Panic
      | None => None
      end
  end.

(** [dump_snapshot]. *)
Definition dump_snapshot (fuel : nat) (d : Db) (key_length : nat) (manifest_depth : Z)
    : option (outcome read_error (option SnapshotDump)) :=
  match meta_table d !! META_TOP_NODE_HASH, meta_table d !! META_TOP_NODE_HEIGHT with
  | None, _ => Some (Return None)
  | Some root, height =>
      if negb (length root =? 32)%nat then Some Panic
      else
        match height with
        | None => Some (Return None)
        | Some bytes =>
            if negb (length bytes =? 4)%nat then Some (Fail BadHeightBytes)
            else
              let tree_height := as_u8 (from_be bytes) in
              match dump_manifest_walk fuel (nodes_table d) key_length root 1 manifest_depth with
              | Some (Return (body, roots)) =>
                  match dump_chunk_list fuel (nodes_table d) key_length roots with
                  | Some (Return chunks) =>
                      Some (Return (Some (mk_dump root tree_height (tree_height :: manifest_depth :: body) chunks)))
                  | Some (Fail e) => Some (Fail e)
                  | Some Panic => Some Panic
                  | None => None
                  end
              | Some (Fail e) => Some (Fail e)
              | Some Panic => Some Panic
              | None => None
              end
        end
  end.

(** ** Reading a stored tree *)

Section Props.
Context `{Blake2bLaws}.

Fixpoint depth (t : tree) : nat :=
  match t with
  | Leaf _ _ _ => 1
  | Node _ _ l r => S (Nat.max (depth l) (depth r))
  | Stub _ => 0
  end.

Lemma stored_node nodes b k l r :
  stored nodes (Node b k l r) -> nodes !! label (Node b k l r) = Some (pack (Node b k l r)) /\
    stored nodes l /\ stored nodes r.
Proof. unfold stored. cbn [packed_nodes]. intros [Hh Ht]%Forall_cons. by apply Forall_app in Ht. Qed.

Lemma stored_leaf nodes k v n :
  stored nodes (Leaf k v n) -> nodes !! label (Leaf k v n) = Some (pack (Leaf k v n)).
Proof. unfold stored. cbn [packed_nodes]. by intros [Hh _]%Forall_cons. Qed.

Lemma child_labels b k l r :
  wf (Node b k l r) -> extract_child_labels 32 (pack (Node b k l r)) = Ok (label l, label r).
Proof.
  intros Hwf. pose proof (pack_node_length b k l r Hwf) as Hlen. destruct Hwf as (_ & Hk & Hl & Hr).
  pose proof (label_length l Hl) as Hll. pose proof (label_length r Hr) as Hlr.
  unfold extract_child_labels. rewrite Hlen. change (98 <? 2 + 32 + 64)%nat with false. cbn iota.
  f_equal. f_equal; cbn [pack]; change (2 + 32)%nat with (S (S 32)); rewrite ?Nat.add_succ_l, !skipn_cons.
  - by rewrite (drop_app_exact 32), (take_app_exact 32).
  - rewrite (drop_app_plus 32 32), (drop_app_exact 32) by done. by rewrite take_ge by lia.
Qed.

Lemma row_leaf nodes k v n :
  stored nodes (Leaf k v n) -> node_row nodes (label (Leaf k v n)) = Return (pack (Leaf k v n), 1).
Proof. intros Hs. unfold node_row. by rewrite (stored_leaf _ _ _ _ Hs). Qed.

Lemma row_node nodes b k l r :
  stored nodes (Node b k l r) -> node_row nodes (label (Node b k l r)) = Return (pack (Node b k l r), 0).
Proof. intros [Hn _]%stored_node. unfold node_row. by rewrite Hn. Qed.

(** A chunk is the stream of its subtree. *)
Lemma walk_chunk_spec t nodes fuel :
  wf t -> whole t -> stored nodes t -> (depth t <= fuel)%nat ->
  walk_chunk fuel nodes 32 (label t) = Some (Return (stream t)).
Proof.
  revert fuel. induction t as [k v n|b k l IHl r IHr|]; intros [|fuel] Hwf Hw Hs Hf; cbn [depth] in Hf; try lia; try (by destruct Hw).
  - cbn [walk_chunk]. by rewrite row_leaf, stream_leaf.
  - cbn [walk_chunk]. rewrite row_node by done. cbn [Z.eqb]. rewrite child_labels by done.
    apply stored_node in Hs as (_ & Hl & Hr). destruct Hwf as (_ & _ & Hwl & Hwr), Hw as [Hww Hww'].
    rewrite IHl, IHr by (done || lia). by rewrite stream_node.
Qed.

(** A tree cut below the level [d], its root at [level]. *)
Fixpoint cut (d level : Z) (t : tree) : tree :=
  match t with
  | Node b k l r =>
      if level =? d then Node b k (Stub (label l)) (Stub (label r))
      else Node b k (cut d (level + 1) l) (cut d (level + 1) r)
  | _ => t
  end.

(** What is below the cut. *)
Fixpoint below (d level : Z) (t : tree) : list tree :=
  match t with
  | Node b k l r => if level =? d then [l; r] else below d (level + 1) l ++ below d (level + 1) r
  | _ => []
  end.

Lemma cut_label d level t : label (cut d level t) = label t.
Proof.
  revert level. induction t as [|b k l IHl r IHr|]; intros level; [done| |done].
  cbn [cut]. destruct (level =? d); cbn [label]; [done|]. by rewrite IHl, IHr.
Qed.

Lemma cut_wf d level t : wf t -> wf (cut d level t).
Proof.
  revert level. induction t as [|b k l IHl r IHr|]; intros level; [done| |done].
  intros (? & ? & ? & ?). cbn [cut]. destruct (level =? d); cbn [wf]; split_and!; auto using label_length.
Qed.

Lemma cut_cut_at d level t : whole t -> cut_at (Some d) level (cut d level t).
Proof.
  revert level. induction t as [|b k l IHl r IHr|]; intros level Hw; [done| |done]. destruct Hw.
  cbn [cut]. destruct (Z.eqb_spec level d) as [->|Hne]; cbn [cut_at].
  - by rewrite decide_True.
  - rewrite decide_False by congruence. auto.
Qed.

Lemma cut_stubs d level t : whole t -> stubs (cut d level t) = label <$> below d level t.
Proof.
  revert level. induction t as [|b k l IHl r IHr|]; intros level Hw; [done| |done]. destruct Hw.
  cbn [cut below]. destruct (level =? d); cbn [stubs]; [done|]. rewrite fmap_app. f_equal; auto.
Qed.

Lemma below_whole d level t u : whole t -> u ∈ below d level t -> whole u.
Proof.
  revert level. induction t as [|b k l IHl r IHr|]; intros level Hw Hu; cbn [below] in Hu; try by apply elem_of_nil in Hu.
  destruct Hw as [Hl Hr]. destruct (level =? d).
  - rewrite !elem_of_cons, elem_of_nil in Hu. naive_solver.
  - apply elem_of_app in Hu as [?|?]; eauto.
Qed.

Lemma below_subtree (P : tree -> Prop) d level t u :
  (forall b k l r, P (Node b k l r) -> P l /\ P r) -> P t -> u ∈ below d level t -> P u.
Proof.
  intros HP. revert level. induction t as [|b k l IHl r IHr|]; intros level Ht Hu; cbn [below] in Hu; try by apply elem_of_nil in Hu.
  apply HP in Ht as [Hl Hr]. destruct (level =? d).
  - rewrite !elem_of_cons, elem_of_nil in Hu. naive_solver.
  - apply elem_of_app in Hu as [?|?]; eauto.
Qed.

(** The nodes of a tree are those of the cut and those below it. *)
Lemma cut_nodes d level t :
  packed_nodes t ≡ₚ packed_nodes (cut d level t) ++ concat (packed_nodes <$> below d level t).
Proof.
  revert level. induction t as [|b k l IHl r IHr|]; intros level; [by rewrite app_nil_r| |done].
  cbn [cut below]. destruct (level =? d); cbn [packed_nodes].
  - cbn [label pack fmap list_fmap concat app]. by rewrite app_nil_r.
  - cbn [label pack]. rewrite !cut_label, fmap_app, concat_app. rewrite (IHl (level + 1)) at 1. rewrite (IHr (level + 1)) at 1.
    cbn [app]. constructor. solve_Permutation.
Qed.

Lemma dump_manifest_spec t nodes fuel level d :
  wf t -> whole t -> stored nodes t -> (depth t <= fuel)%nat -> 1 <= level <= d -> d <= 255 ->
  dump_manifest_walk fuel nodes 32 (label t) level d =
    Some (Return (stream (cut d level t), stubs (cut d level t))).
Proof.
  revert fuel level. induction t as [k v n|b k l IHl r IHr|]; intros [|fuel] level Hwf Hw Hs Hf Hlv Hd;
    cbn [depth] in Hf; try lia; try (by destruct Hw).
  - cbn [dump_manifest_walk cut stubs]. by rewrite row_leaf, stream_leaf by done.
  - cbn [dump_manifest_walk]. rewrite row_node by done. cbn [Z.eqb]. rewrite child_labels by done.
    apply stored_node in Hs as (_ & Hl & Hr). destruct Hwf as (_ & _ & Hwl & Hwr), Hw as [Hww Hww'].
    cbn [cut]. destruct (Z.eqb_spec level d) as [->|Hne].
    + rewrite stream_node. cbn [stubs app]. do 3 f_equal. unfold stream. cbn [packed_nodes fmap list_fmap concat].
      by rewrite app_nil_r.
    + replace (as_u8 (level + 1)) with (level + 1) by (unfold as_u8; rewrite Z.mod_small; lia).
      rewrite IHl, IHr by (done || lia). rewrite stream_node. cbn [stubs pack]. by rewrite !cut_label.
Qed.

Lemma dump_chunks_spec ts nodes fuel :
  Forall (fun t => wf t /\ whole t /\ stored nodes t /\ (depth t <= fuel)%nat) ts ->
  dump_chunk_list fuel nodes 32 (label <$> ts) = Some (Return ((fun t => (label t, stream t)) <$> ts)).
Proof.
  induction 1 as [|t ts (Hwf & Hw & Hs & Hd) _ IH]; [done|].
  cbn [fmap list_fmap dump_chunk_list]. rewrite walk_chunk_spec by done. by rewrite IH.
Qed.

Lemma below_ok t nodes fuel d level :
  wf t -> whole t -> stored nodes t -> (depth t <= fuel)%nat ->
  Forall (fun t => wf t /\ whole t /\ stored nodes t /\ (depth t <= fuel)%nat) (below d level t).
Proof.
  intros Hwf Hw Hs Hd. apply Forall_forall. intros u Hu.
  apply (below_subtree (fun t => wf t /\ whole t /\ stored nodes t /\ (depth t <= fuel)%nat) d level t u); [|done..].
  intros b k l r ((_ & _ & ? & ?) & (? & ?) & (_ & ? & ?)%stored_node & Hd'). cbn [depth] in Hd'.
  split_and!; done || lia.
Qed.

(** The dump of a stored tree: the manifest is the stream of the tree cut at the
    boundary, the chunks those of the subtrees below it. *)
Lemma dump_snapshot_spec t d fuel height manifest_depth :
  wf t -> whole t -> stored (nodes_table d) t -> (depth t <= fuel)%nat -> 1 <= manifest_depth <= 255 ->
  is_u32 height ->
  meta_table d !! META_TOP_NODE_HASH = Some (label t) ->
  meta_table d !! META_TOP_NODE_HEIGHT = Some (be_bytes 4 height) ->
  dump_snapshot fuel d 32 manifest_depth =
    Some (Return (Some (mk_dump (label t) (as_u8 height)
      (as_u8 height :: manifest_depth :: stream (cut manifest_depth 1 t))
      ((fun u => (label u, stream u)) <$> below manifest_depth 1 t)))).
Proof.
  intros Hwf Hw Hs Hd Hm Hh E1 E2. unfold dump_snapshot. rewrite E1, E2, (label_length t Hwf), be_bytes_length.
  cbn [Nat.eqb negb]. rewrite from_be_u32 by done. rewrite dump_manifest_spec by (done || lia).
  rewrite cut_stubs by done. by rewrite (dump_chunks_spec _ _ _ (below_ok t _ fuel manifest_depth 1 Hwf Hw Hs Hd)).
Qed.

(** ** Searching *)

Fixpoint leaves (t : tree) : list (list Z * list Z) :=
  match t with
  | Leaf k v _ => [(k, v)]
  | Node _ _ l r => leaves l ++ leaves r
  | Stub _ => []
  end.

(** The key of a node separates the keys of its subtrees. *)
Fixpoint ordered (t : tree) : Prop :=
  match t with
  | Node _ k l r =>
      ordered l /\ ordered r /\ Forall (fun e : list Z * list Z => lex_ltb e.1 k = true) (leaves l) /\
      Forall (fun e : list Z * list Z => lex_ltb e.1 k = false) (leaves r)
  | _ => True
  end.

Lemma leaf_value_spec k v n key :
  wf (Leaf k v n) -> leaf_value 32 key (pack (Leaf k v n)) = if decide (k = key) then Some v else None.
Proof.
  intros (Hk & Hn & Hv). pose proof (pack_leaf_length k v n Hk Hn) as Hlen. unfold leaf_value. rewrite Hlen.
  assert (take 32 (drop 1 (pack (Leaf k v n))) = k) as ->.
  { cbn [pack]. rewrite skipn_cons, skipn_O. by apply take_app_exact. }
  assert (drop (1 + 32) (pack (Leaf k v n)) = be_bytes 4 (Z.of_nat (length v)) ++ v ++ n) as Ed.
  { cbn [pack Nat.add]. rewrite skipn_cons. by apply drop_app_exact. }
  rewrite Ed, take_app_exact by apply be_bytes_length.
  rewrite from_be_u32 by (int_unfold; lia). rewrite Nat2Z.id.
  rewrite <- (drop_drop _ 4 (1 + 32)), Ed, drop_app_exact, take_app_length by apply be_bytes_length.
  repeat match goal with |- context [(?a <? ?b)%nat] => destruct (Nat.ltb_spec a b); [lia|] end. done.
Qed.

(** A step of the search. *)
Lemma lookup_step b k l r nodes fuel key :
  wf (Node b k l r) -> stored nodes (Node b k l r) ->
  lookup_loop (S fuel) nodes 32 key (label (Node b k l r)) =
    lookup_loop fuel nodes 32 key (if lex_ltb key k then label l else label r).
Proof.
  intros Hwf Hs. pose proof (child_labels b k l r Hwf) as Hcl. cbn [lookup_loop].
  apply stored_node in Hs as (Hn & Hl & Hr). rewrite Hn. cbn [pack].
  change (PACKED_INTERNAL_PREFIX =? 1) with false. cbn iota.
  change (PACKED_INTERNAL_PREFIX :: as_u8 b :: k ++ label l ++ label r) with (pack (Node b k l r)).
  unfold extract_child_labels in Hcl. destruct (length (pack (Node b k l r)) <? 2 + 32 + 64)%nat; [done|].
  assert (take 32 (drop (2 + 32) (pack (Node b k l r))) = label l) as -> by congruence.
  assert (take 32 (drop (2 + 32 + 32) (pack (Node b k l r))) = label r) as -> by congruence.
  destruct Hwf as (_ & Hk & _). assert (take 32 (drop 2 (pack (Node b k l r))) = k) as ->.
  { cbn [pack]. rewrite !skipn_cons, skipn_O. by apply take_app_exact. }
  by destruct (lex_ltb key k).
Qed.

Lemma lookup_loop_spec t nodes fuel key :
  wf t -> whole t -> stored nodes t -> ordered t -> (depth t <= fuel)%nat ->
  exists r, lookup_loop fuel nodes 32 key (label t) = Some r /\
    (forall v, r = Some v <-> (key, v) ∈ leaves t).
Proof.
  revert fuel. induction t as [k v n|b k l IHl r IHr|]; intros [|fuel] Hwf Hw Hs Ho Hf;
    cbn [depth] in Hf; try lia; try (by destruct Hw).
  - cbn [lookup_loop]. rewrite (stored_leaf _ _ _ _ Hs). cbn [pack]. change (PACKED_LEAF_PREFIX =? 1) with true. cbn iota.
    change (PACKED_LEAF_PREFIX :: k ++ be_bytes 4 (Z.of_nat (length v)) ++ v ++ n) with (pack (Leaf k v n)).
    eexists. split; [done|]. intros w. rewrite leaf_value_spec by done. cbn [leaves]. rewrite list_elem_of_singleton.
    case_decide; naive_solver.
  - rewrite lookup_step by done. apply stored_node in Hs as (_ & Hl & Hr).
    destruct Hwf as (_ & Hk & Hwl & Hwr), Hw as [Hww Hww'], Ho as (Hol & Hor & Hlt & Hge).
    rewrite Forall_forall in Hlt, Hge.
    destruct (lex_ltb key k) eqn:Ek; [destruct (IHl fuel) as (x & Hx & Hv)|destruct (IHr fuel) as (x & Hx & Hv)];
      try done; try lia; exists x; (split; [done|]); intros w; rewrite Hv; cbn [leaves]; rewrite elem_of_app.
    + split; [by left|]. intros [?|Hin]; [done|]. apply Hge in Hin. cbn in Hin. congruence.
    + split; [by right|]. intros [Hin|?]; [|done]. apply Hlt in Hin. cbn in Hin. congruence.
Qed.

(** in every reachable storage, looking a key up finds a value exactly when the newest
    version's tree, a search tree, has a leaf with that key and value; the walk takes no
    more rounds than the tree is deep. *)
Theorem lookup_key_correct content s v vs key fuel :
  StateInv.reachable content s (v :: vs) -> ordered (StateInv.v_tree v) ->
  (depth (StateInv.v_tree v) <= fuel)%nat ->
  exists r, lookup_key fuel (db s) 32 key = Some (Return r) /\
    (forall value, r = Some value <-> (key, value) ∈ leaves (StateInv.v_tree v)).
Proof.
  intros Hr%StateInv.reachable_repr Ho Hf. pose proof (StateInv.r_versions _ _ _ Hr) as [Hv _]%Forall_cons.
  destruct (StateInv.vo_tree _ _ Hv) as (Hwf & Hw & _).
  destruct (lookup_loop_spec _ _ fuel key Hwf Hw (StateInv.r_top _ _ _ Hr v eq_refl) Ho Hf) as (r & E & Hr').
  exists r. split; [|done]. unfold lookup_key. destruct (StateInv.r_meta _ _ _ Hr) as (_ & -> & _).
  by rewrite label_length, E.
Qed.

End Props.

(** ** An instance *)

Module Examples.
Import StateInv.Examples.

Definition vr : StateInv.Version := StateInv.mk_version (label t2 ++ [1]) t2 1 100.
Definition sr : Storage := load_snapshot (packed_nodes t2) (label t2) 1 (label t2 ++ [1]) 100 s0.

Lemma ex_reachable_sr : StateInv.reachable ex_content sr [vr].
Proof.
  apply StateInv.reach_load; [by apply ex_genuine; right|by vm_compute..| |done].
  repeat (apply Forall_cons; split; [split; by vm_compute|]). apply Forall_nil_2.
Qed.

Lemma lookup_key_correct_witness :
  lookup_key 2 (db sr) 32 (key 5) = Some (Return (Some [7])) /\ lookup_key 2 (db sr) 32 (key 6) = Some (Return None).
Proof.
  assert (ordered t2) as Ho by (split_and!; try done; apply Forall_singleton; by vm_compute).
  destruct (lookup_key_correct ex_content sr vr [] (key 5) 2 ex_reachable_sr Ho ltac:(by vm_compute)) as (r & -> & Hr).
  destruct (lookup_key_correct ex_content sr vr [] (key 6) 2 ex_reachable_sr Ho ltac:(by vm_compute)) as (r' & -> & Hr').
  split; do 2 f_equal.
  - apply Hr. apply (bool_decide_unpack _). by vm_compute.
  - destruct r' as [x|]; [|done]. pose proof (proj1 (Hr' x) eq_refl) as Hin.
    apply elem_of_cons in Hin as [E|Hin]; [discriminate E|].
    apply elem_of_cons in Hin as [E|Hin]; [discriminate E|]. by apply elem_of_nil in Hin.
Defined.

End Examples.

End Reader.
