(* ===== verification/StateCompact.v ===== *)
(** * Offline compaction

    [RedbAVLStorage::compact_to] of src/state/src/storage.rs: a walk from the root copies
    the rows it reaches into a fresh database, and a second walk, over the copy, recomputes
    every label. Both follow the labels that the rows hold, with a stack and a cap on the
    depth. They have fuel here, [None] meaning that it ran out; the theorems show that the
    cap makes some fuel enough for every database. Hashing a node is code of the AVL
    library, the interface [NodeHash]. *)

From S2P Require Import Prelude Bytes AvlTree StateStorage StateStorageInv StateReader.
Import Avl State Reader.

Module Compact.

Definition INTERNAL_CHILD_LABELS_LEN : nat := 64.
Definition MAX_TREE_DEPTH : Z := 255.
Definition MAX_KEY_LENGTH : nat := 64.

Inductive compact_error :=
  | DestExists | NoRoot | BadRootLength | NoRootHeight | BadRootHeight | NoVersion | BadBlockHeight | BadLsn
  | TooDeep (lbl : list Z) | MissingNode (lbl : list Z) | MalformedNode (lbl : list Z)
  | BadNode | CorruptRoot | NoKeyLength | LabelMismatch (lbl : list Z)
  | CountMismatch | ExtraRows | NothingVisited | HeightTooLarge | DigestMismatch.

(** [recompute_label]: the label of a packed node with keys of the given length. *)
Class NodeHash := recompute_label : nat -> list Z -> list Z.

Inductive PackedShape := ShInternal (left_label right_label : list Z) | ShLeaf.

Definition inspect_packed (packed : list Z) (key_length : nat) : result compact_error PackedShape :=
  match packed with
  | [] => Err BadNode
  | prefix :: _ =>
      if prefix =? PACKED_INTERNAL_PREFIX then
        let expected := (2 + key_length + INTERNAL_CHILD_LABELS_LEN)%nat in
        if negb (length packed =? expected)%nat then Err BadNode
        else
          let off := (2 + key_length)%nat in
          Ok (ShInternal (take 32 (drop off packed)) (take 32 (drop (off + 32) packed)))
      else if prefix =? PACKED_LEAF_PREFIX then
        let vlen_off := (1 + key_length)%nat in
        if (length packed <? vlen_off + 4 + key_length)%nat then Err BadNode
        else
          let vlen := Z.to_nat (from_be (take 4 (drop vlen_off packed))) in
          let expected := (vlen_off + 4 + vlen + key_length)%nat in
          if negb (length packed =? expected)%nat then Err BadNode else Ok ShLeaf
      else Err BadNode
  end.

(** The labels the copy follows: the last 64 bytes of an internal node. *)
Definition copy_children (lbl packed : list Z) : result compact_error (option (list Z * list Z)) :=
  match packed with
  | [] => Err (MalformedNode lbl)
  | prefix :: _ =>
      if prefix =? PACKED_INTERNAL_PREFIX then
        if (length packed <? 2 + INTERNAL_CHILD_LABELS_LEN)%nat then Err (MalformedNode lbl)
        else
          let split := (length packed - INTERNAL_CHILD_LABELS_LEN)%nat in
          Ok (Some (take 32 (drop split packed), drop (split + 32) packed))
      else if prefix =? PACKED_LEAF_PREFIX then Ok None
      else Err (MalformedNode lbl)
  end.

(** The copy pass; the head of [stack] is popped next. *)
Fixpoint copy_loop (fuel : nat) (src : gmap (list Z) (list Z)) (stack : list (list Z * Z))
    (dst : gmap (list Z) (list Z)) (nodes_written : Z)
    : option (result compact_error (gmap (list Z) (list Z) * Z)) :=
  match stack with
  | [] => Some (Ok (dst, nodes_written))
  | (lbl, depth) :: stack' =>
      match fuel with
      | O => None
      | S fuel' =>
          if MAX_TREE_DEPTH <? depth then Some (Err (TooDeep lbl))
          else
            match src !! lbl with
            | None => Some (Err (MissingNode lbl))
            | Some packed =>
                match copy_children lbl packed with
                | Err e => Some (Err e)
                | Ok children =>
                    let pushed :=
                      match children with
                      | Some (l, r) => [(l, depth + 1); (r, depth + 1)]
                      | None => []
                      end in
                    copy_loop fuel' src (pushed ++ stack') (<[lbl := packed]> dst) (nodes_written + 1)
                end
            end
      end
  end.

Record SourceMeta := mk_source {
  sm_hash : list Z;
  sm_height : Z;
  sm_version : list Z;
  sm_block : Z;
  sm_lsn : Z;
}.

(** A metadata value of a fixed width. *)
Definition meta_be (n : nat) (e : compact_error) (v : list Z) : result compact_error Z :=
  if (length v =? n)%nat then Ok (from_be v) else Err e.

(** The source's root state. *)
Definition read_source (d : Db) : result compact_error SourceMeta :=
  let meta := meta_table d in
  let? hash := ok_or (meta !! META_TOP_NODE_HASH) NoRoot in
  if negb (length hash =? 32)%nat then Err BadRootLength
  else
    let? height_bytes := ok_or (meta !! META_TOP_NODE_HEIGHT) NoRootHeight in
    let? height := meta_be 4 BadRootHeight height_bytes in
    let? current := ok_or (meta !! META_CURRENT_VERSION) NoVersion in
    let? block := match meta !! META_BLOCK_HEIGHT with Some v => meta_be 4 BadBlockHeight v | None => Ok 0 end in
    let? lsn := match meta !! META_LSN with Some v => meta_be 8 BadLsn v | None => Ok 1 end in
    Ok (mk_source hash height current block lsn).

(** What the copy writes: the rows, no undo records, the metadata with a chain of the one
    surviving version. *)
Definition compacted_db (m : SourceMeta) (nodes : gmap (list Z) (list Z)) : Db :=
  mk_db nodes ∅
    (<[META_VERSIONS := serialize_version_chain [(sm_lsn m, sm_version m)]]>
    (<[META_BLOCK_HEIGHT := be_bytes 4 (sm_block m)]>
    (<[META_LSN := be_bytes 8 (sm_lsn m)]>
    (<[META_CURRENT_VERSION := sm_version m]>
    (<[META_TOP_NODE_HEIGHT := be_bytes 4 (sm_height m)]>
    (<[META_TOP_NODE_HASH := sm_hash m]> ∅)))))).

Record CompactionStats := mk_stats {
  nodes_written : Z;
  stats_block_height : Z;
  stats_digest : list Z;
}.

Section Compaction.
Context `{NodeHash}.

(** [derive_key_length]: the candidates of which the root's label is the expected one. *)
Definition key_candidates (root_packed : list Z) : result compact_error (list nat) :=
  match root_packed with
  | [] => Err CorruptRoot
  | prefix :: _ =>
      if prefix =? PACKED_INTERNAL_PREFIX then
        let fixed := (2 + INTERNAL_CHILD_LABELS_LEN)%nat in
        if (length root_packed <=? fixed)%nat then Err CorruptRoot else Ok [(length root_packed - fixed)%nat]
      else if prefix =? PACKED_LEAF_PREFIX then
        Ok (filter (fun k => is_ok (inspect_packed root_packed k) = true) (seq 1 MAX_KEY_LENGTH))
      else Err CorruptRoot
  end.

Definition derive_key_length (root_packed expected_root : list Z) : result compact_error nat :=
  let? candidates := key_candidates root_packed in
  ok_or
    (head (filter (fun k => is_ok (inspect_packed root_packed k) = true /\
                            recompute_label k root_packed = expected_root) candidates))
    NoKeyLength.

(** The verification pass. *)
Fixpoint verify_loop (fuel : nat) (nodes : gmap (list Z) (list Z)) (key_length : nat) (stack : list (list Z * Z))
    (visited : Z) (root_label : option (list Z)) : option (result compact_error (Z * option (list Z))) :=
  match stack with
  | [] => Some (Ok (visited, root_label))
  | (lbl, depth) :: stack' =>
      match fuel with
      | O => None
      | S fuel' =>
          if MAX_TREE_DEPTH <? depth then Some (Err (TooDeep lbl))
          else
            match nodes !! lbl with
            | None => Some (Err (MissingNode lbl))
            | Some packed =>
                match inspect_packed packed key_length with
                | Err e => Some (Err e)
                | Ok shape =>
                    let computed := recompute_label key_length packed in
                    if decide (computed = lbl) then
                      let pushed :=
                        match shape with
                        | ShInternal l r => [(l, depth + 1); (r, depth + 1)]
                        | ShLeaf => []
                        end in
                      verify_loop fuel' nodes key_length (pushed ++ stack') (visited + 1)
                        (if depth =? 0 then Some computed else root_label)
                    else Some (Err (LabelMismatch lbl))
                end
            end
      end
  end.

Definition verify_compacted (fuel : nat) (nodes : gmap (list Z) (list Z)) (expected_root : list Z)
    (expected_nodes : Z) : option (result compact_error (list Z)) :=
  match nodes !! expected_root with
  | None => Some (Err (MissingNode expected_root))
  | Some packed =>
      match derive_key_length packed expected_root with
      | Err e => Some (Err e)
      | Ok key_length =>
          match verify_loop fuel nodes key_length [(expected_root, 0)] 0 None with
          | Some (Ok (visited, root)) =>
              Some (if negb (visited =? expected_nodes) then Err CountMismatch
                    else if negb (Z.of_nat (size nodes) =? visited) then Err ExtraRows
                    else ok_or root NothingVisited)
          | Some (Err e) => Some (Err e)
          | None => None
          end
      end
  end.

(** [compact_to_inner]: the outcome, and the destination file as it is left. *)
Definition compact_to_inner (fuel : nat) (source : Db) : option (result compact_error CompactionStats * option Db) :=
  match read_source source with
  | Err e => Some (Err e, None)
  | Ok m =>
      match copy_loop fuel (nodes_table source) [(sm_hash m, 0)] ∅ 0 with
      | None => None
      | Some (Err e) => Some (Err e, Some empty_db)
      | Some (Ok (nodes, written)) =>
          let dest := compacted_db m nodes in
          match verify_compacted fuel (nodes_table dest) (sm_hash m) written with
          | None => None
          | Some (Err e) => Some (Err e, Some dest)
          | Some (Ok root_label) =>
              Some (if U8_MAX <? sm_height m then (Err HeightTooLarge, Some dest)
                    else
                      let digest := root_label ++ [as_u8 (sm_height m)] in
                      if decide (digest = sm_version m) then (Ok (mk_stats written (sm_block m) digest), Some dest)
                      else (Err DigestMismatch, Some dest))
          end
      end
  end.

(** [compact_to], with the file at the destination, if any, and whether removing it
    works. *)
Definition compact_to (fuel : nat) (source : Db) (dest : option Db) (remove_works : bool)
    : option (result compact_error CompactionStats * option Db) :=
  match dest with
  | Some _ => Some (Err DestExists, dest)
  | None =>
      match compact_to_inner fuel source with
      | Some (Ok stats, dest') => Some (Ok stats, dest')
      | Some (Err e, dest') => Some (Err e, if remove_works then None else dest')
      | None => None
      end
  end.

End Compaction.

(** ** The AVL library's hash of a node *)

(** Internal nodes hash their balance and the labels of their children, leaves their key,
    value and next key. *)
Class NodeHashLaws `{Blake2bLaws} `{NodeHash} : Prop := {
  recompute_internal : forall kl b k l r,
    is_i8 b -> length k = kl -> length l = 32%nat -> length r = 32%nat ->
    recompute_label kl (PACKED_INTERNAL_PREFIX :: as_u8 b :: k ++ l ++ r) = compute_internal_label b l r;
  recompute_leaf : forall kl k v n,
    length k = kl -> length n = kl -> Z.of_nat (length v) <= U32_MAX ->
    recompute_label kl (pack (Leaf k v n)) = compute_leaf_label k v n;
}.

Section Props.
Context `{NodeHashLaws}.

(** [wf] for keys of any length. *)
Fixpoint keyed (kl : nat) (t : tree) : Prop :=
  match t with
  | Leaf key value next_key => length key = kl /\ length next_key = kl /\ Z.of_nat (length value) <= U32_MAX
  | Node balance key l r => is_i8 balance /\ length key = kl /\ keyed kl l /\ keyed kl r
  | Stub _ => False
  end.

Lemma wf_keyed t : keyed 32 t <-> wf t /\ whole t.
Proof. induction t; cbn [keyed wf whole]; tauto. Qed.

Lemma keyed_whole kl t : keyed kl t -> whole t.
Proof. induction t; cbn [keyed whole]; tauto. Qed.

Lemma keyed_label kl t : keyed kl t -> length (label t) = 32%nat.
Proof. destruct t; cbn [keyed label]; [intros _; apply blake2b_length..|done]. Qed.

Lemma inspected_internal packed kl l r :
  bytes_ok packed -> inspect_packed packed kl = Ok (ShInternal l r) ->
  exists b k, is_i8 b /\ length k = kl /\ length l = 32%nat /\ length r = 32%nat /\
    packed = PACKED_INTERNAL_PREFIX :: as_u8 b :: k ++ l ++ r.
Proof.
  intros Hok. unfold inspect_packed, INTERNAL_CHILD_LABELS_LEN. destruct packed as [|p rest]; [done|].
  destruct (Z.eqb_spec p PACKED_INTERNAL_PREFIX) as [->|].
  2:{ destruct (p =? _); [|done]. by repeat case_match. }
  destruct (Nat.eqb_spec (length (PACKED_INTERNAL_PREFIX :: rest)) (2 + kl + 64)) as [El|]; [|done].
  cbn [negb]. destruct rest as [|b rest]; [cbn in El; lia|]. cbn [length] in El. intros [= <- <-].
  apply Forall_cons in Hok as [_ [Hb _]%Forall_cons].
  exists (as_i8 b), (take kl rest). rewrite as_u8_i8 by done.
  cbn [Nat.add drop]. rewrite !length_take, !length_drop.
  split_and!; [by apply as_i8_range|lia..|]. do 2 f_equal.
  rewrite <- (take_drop kl rest) at 1. f_equal. rewrite <- (take_drop 32 (drop kl rest)) at 1. f_equal.
  rewrite drop_drop. rewrite take_ge; [done|]. rewrite length_drop. lia.
Qed.

Lemma inspected_leaf packed kl :
  bytes_ok packed -> inspect_packed packed kl = Ok ShLeaf ->
  exists k v n, length k = kl /\ length n = kl /\ Z.of_nat (length v) <= U32_MAX /\ packed = pack (Leaf k v n).
Proof.
  intros Hok. unfold inspect_packed. destruct packed as [|p rest]; [done|].
  destruct (p =? PACKED_INTERNAL_PREFIX); [by destruct (negb _)|].
  destruct (Z.eqb_spec p PACKED_LEAF_PREFIX) as [->|]; [|done].
  apply Forall_cons in Hok as [_ Hok]. cbn [length Nat.add]. rewrite skipn_cons.
  destruct (Nat.ltb_spec (S (length rest)) (S (kl + 4 + kl))) as [|Hlen]; [done|].
  set (vlen := Z.to_nat (from_be (take 4 (drop kl rest)))).
  destruct (Nat.eqb_spec (S (length rest)) (S (kl + 4 + vlen + kl))) as [El|]; [|done]. intros _.
  assert (from_be (take 4 (drop kl rest)) = Z.of_nat vlen /\ Z.of_nat vlen <= U32_MAX) as [Ev Hv].
  { pose proof (from_be_range (take 4 (drop kl rest)) (Forall_take _ _ _ (Forall_drop _ _ _ Hok))) as Hr.
    rewrite length_take, length_drop, Nat.min_l in Hr by lia. unfold vlen. cbn in Hr. unfold U32_MAX. lia. }
  exists (take kl rest), (take vlen (drop (kl + 4) rest)), (drop (kl + 4 + vlen) rest).
  rewrite !length_take, !length_drop. split_and!; [lia..|]. cbn [pack]. f_equal.
  rewrite length_take, length_drop, Nat.min_l by lia. rewrite <- Ev.
  replace 4%nat with (length (take 4 (drop kl rest))) at 1 by (rewrite length_take, length_drop; lia).
  rewrite be_bytes_from by (by apply Forall_take, Forall_drop).
  rewrite <- (take_drop kl rest) at 1. f_equal. rewrite <- (take_drop 4 (drop kl rest)) at 1. f_equal.
  rewrite drop_drop. rewrite <- (take_drop vlen (drop (kl + 4) rest)) at 1. f_equal. by rewrite drop_drop.
Qed.

(** What a stack entry stands for: a tree of the table, within the depth cap. *)
Definition entry_tree (nodes : gmap (list Z) (list Z)) (kl : nat) (e : list Z * Z) (t : tree) : Prop :=
  label t = e.1 /\ keyed kl t /\ stored nodes t /\ e.2 + Z.of_nat (depth t) <= MAX_TREE_DEPTH + 1.

Definition all_nodes (ts : list tree) : list (list Z * list Z) := concat (packed_nodes <$> ts).

Lemma all_nodes_node b k l r ts :
  all_nodes (Node b k l r :: ts) = (label (Node b k l r), pack (Node b k l r)) :: all_nodes (l :: r :: ts).
Proof. unfold all_nodes. cbn [fmap list_fmap concat packed_nodes app]. by rewrite app_assoc. Qed.

Lemma all_nodes_leaf k v n ts :
  all_nodes (Leaf k v n :: ts) = (label (Leaf k v n), pack (Leaf k v n)) :: all_nodes ts.
Proof. done. Qed.

Lemma stored_node_intro nodes b k l r :
  nodes !! label (Node b k l r) = Some (pack (Node b k l r)) -> stored nodes l -> stored nodes r ->
  stored nodes (Node b k l r).
Proof. intros. unfold stored. cbn [packed_nodes]. apply Forall_cons. split; [done|]. by apply Forall_app. Qed.

(** A verification that passes has seen a tree for each entry of its stack. *)
Lemma verify_sound fuel nodes kl stack visited root visited' root' :
  map_Forall (fun _ b => bytes_ok b) nodes ->
  verify_loop fuel nodes kl stack visited root = Some (Ok (visited', root')) ->
  exists ts, Forall2 (entry_tree nodes kl) stack ts /\ visited' = visited + Z.of_nat (length (all_nodes ts)).
Proof.
  intros Hok. revert stack visited root. induction fuel as [|fuel IH]; intros [|[lbl d] stack] visited root; cbn [verify_loop];
    try done; try (intros [= <- <-]; exists []; split; [done|cbn; lia]).
  destruct (Z.ltb_spec MAX_TREE_DEPTH d) as [|Hd]; [done|].
  destruct (nodes !! lbl) as [packed|] eqn:El; [|done]. pose proof (Hok _ _ El) as Hp. cbn in Hp.
  destruct (inspect_packed packed kl) as [[l r|]|] eqn:Ei; [..|done]; (case_decide as Ec; [|done]); cbn [app];
    intros (ts & Hts & ->)%IH.
  - apply inspected_internal in Ei as (b & k & Hb & Hk & Hl & Hr & ->); [|done].
    rewrite recompute_internal in Ec by done.
    apply Forall2_cons_inv_l in Hts as (tl & ts' & (Ell & Hkl & Hsl & Hdl) & Hts & ->).
    apply Forall2_cons_inv_l in Hts as (tr & ts & (Elr & Hkr & Hsr & Hdr) & Hts & ->).
    cbn [fst snd] in *. exists (Node b k tl tr :: ts). subst l r.
    split; [|rewrite all_nodes_node; cbn [length]; lia].
    apply Forall2_cons. split; [|done]. split_and!; [done|done| |cbn [snd depth]; lia].
    apply stored_node_intro; [|done..]. cbn [label]. by rewrite Ec.
  - apply inspected_leaf in Ei as (k & v & n & Hk & Hn & Hv & ->); [|done].
    rewrite recompute_leaf in Ec by done. exists (Leaf k v n :: ts).
    split; [|unfold all_nodes; cbn [fmap list_fmap concat packed_nodes app length]; lia].
    apply Forall2_cons. split; [|done]. split_and!; [done|done| |cbn [snd depth]; lia].
    unfold stored. cbn [packed_nodes]. apply Forall_singleton. cbn [fst snd label]. by rewrite Ec.
Qed.

Lemma verify_root fuel nodes kl stack visited root visited' root' :
  Forall (fun e : list Z * Z => 0 < e.2) stack ->
  verify_loop fuel nodes kl stack visited root = Some (Ok (visited', root')) -> root' = root.
Proof.
  revert stack visited root. induction fuel as [|fuel IH]; intros [|[lbl d] stack] visited root Hpos; cbn [verify_loop];
    try done; try by intros [= _ <-].
  apply Forall_cons in Hpos as [Hd Hpos]. cbn in Hd. destruct (MAX_TREE_DEPTH <? d); [done|].
  destruct (nodes !! lbl) as [packed|]; [|done].
  destruct (inspect_packed packed kl) as [shape|]; [|done]. case_decide; [|done].
  destruct (Z.eqb_spec d 0); [lia|]. apply IH. apply Forall_app. split; [|done].
  destruct shape; repeat constructor; cbn; lia.
Qed.

(** The copy follows the same labels as the tree it walks. *)
Lemma copy_children_spec t kl : keyed kl t ->
  copy_children (label t) (pack t) =
    Ok (match t with Node _ _ l r => Some (label l, label r) | _ => None end).
Proof.
  destruct t as [k v n|b k l r|]; cbn [keyed]; [done| |done]. intros (_ & Hk & Hl & Hr).
  apply keyed_label in Hl, Hr. unfold copy_children, INTERNAL_CHILD_LABELS_LEN. cbn [pack].
  change (PACKED_INTERNAL_PREFIX =? PACKED_INTERNAL_PREFIX) with true. cbn iota. cbn [length].
  rewrite !length_app, Hk, Hl, Hr.
  destruct (Nat.ltb_spec (S (S (kl + (32 + 32)))) (2 + 64)) as [|_]; [lia|].
  replace (S (S (kl + (32 + 32))) - 64)%nat with (S (S kl)) by lia.
  cbn [Nat.add]. rewrite !skipn_cons. do 3 f_equal.
  - rewrite (drop_app_exact kl) by done. by apply take_app_exact.
  - rewrite (drop_app_plus kl 32) by done. by apply drop_app_exact.
Qed.

Definition insert_rows (dst : gmap (list Z) (list Z)) (ns : list (list Z * list Z)) : gmap (list Z) (list Z) :=
  foldl (fun m n => <[n.1 := n.2]> m) dst ns.

Lemma copy_trees fuel src kl stack ts dst written :
  Forall2 (entry_tree src kl) stack ts -> (length (all_nodes ts) <= fuel)%nat ->
  copy_loop fuel src stack dst written =
    Some (Ok (insert_rows dst (all_nodes ts), written + Z.of_nat (length (all_nodes ts)))).
Proof.
  revert stack ts dst written. induction fuel as [|fuel IH]; intros stack ts dst written Hts Hf;
    (destruct Hts as [|[lbl d] t stack ts (Hl & Hk & Hs & Hd) Hts]; [cbn; by rewrite Z.add_0_r|]);
    cbn [fst snd] in Hl, Hd; subst lbl.
  { destruct t; [rewrite all_nodes_leaf in Hf|rewrite all_nodes_node in Hf|done]; cbn in Hf; lia. }
  cbn [copy_loop]. assert (0 < Z.of_nat (depth t)) by (destruct t; cbn [depth]; [lia..|done]).
  destruct (Z.ltb_spec MAX_TREE_DEPTH d) as [|_]; [lia|].
  rewrite (stored_root _ _ (keyed_whole _ _ Hk) Hs), (copy_children_spec _ _ Hk). cbn iota zeta.
  destruct t as [k v n|b k l r|]; [..|done]; cbn [app].
  - rewrite all_nodes_leaf in *. cbn [length] in Hf. rewrite IH with (ts := ts); [|done|lia].
    cbn [insert_rows foldl fst snd length]. do 3 f_equal. lia.
  - rewrite all_nodes_node in *. cbn [length] in Hf. rewrite IH with (ts := l :: r :: ts); [| |lia].
    + cbn [insert_rows foldl fst snd length]. do 3 f_equal. lia.
    + apply stored_node in Hs as (_ & Hsl & Hsr). destruct Hk as (_ & _ & Hkl & Hkr). cbn [depth] in Hd.
      constructor; [|constructor; [|done]]; split_and!; try done; cbn [fst snd]; lia.
Qed.

(** Copied rows are rows of the source. *)
Lemma copy_sub fuel src stack dst written dst' written' :
  dst ⊆ src -> copy_loop fuel src stack dst written = Some (Ok (dst', written')) -> dst' ⊆ src.
Proof.
  revert stack dst written. induction fuel as [|fuel IH]; intros [|[lbl d] stack] dst written Hsub; cbn [copy_loop];
    try done; try by intros [= <- _].
  destruct (MAX_TREE_DEPTH <? d); [done|]. destruct (src !! lbl) as [packed|] eqn:El; [|done].
  destruct (copy_children lbl packed); [|done]. apply IH. by apply insert_subseteq_l.
Qed.

(** ** Termination *)

Lemma copy_mono fuel fuel' src stack dst written r :
  copy_loop fuel src stack dst written = Some r -> (fuel <= fuel')%nat ->
  copy_loop fuel' src stack dst written = Some r.
Proof.
  revert fuel' stack dst written. induction fuel as [|fuel IH]; intros [|fuel'] [|[lbl d] stack] dst written;
    cbn [copy_loop]; try done; try lia.
  destruct (MAX_TREE_DEPTH <? d); [done|]. destruct (src !! lbl) as [packed|]; [|done].
  destruct (copy_children lbl packed); [|done]. intros. apply IH; [done|lia].
Qed.

Lemma verify_mono fuel fuel' nodes kl stack visited root r :
  verify_loop fuel nodes kl stack visited root = Some r -> (fuel <= fuel')%nat ->
  verify_loop fuel' nodes kl stack visited root = Some r.
Proof.
  revert fuel' stack visited root. induction fuel as [|fuel IH]; intros [|fuel'] [|[lbl d] stack] visited root;
    cbn [verify_loop]; try done; try lia.
  destruct (MAX_TREE_DEPTH <? d); [done|]. destruct (nodes !! lbl) as [packed|]; [|done].
  destruct (inspect_packed packed kl); [|done]. case_decide; [|done]. intros. apply IH; [done|lia].
Qed.

(** The rounds an entry can cost: the nodes of a full tree below it, and one round to
    notice that the cap is passed. *)
Definition rounds (d : Z) : nat := 2 ^ Z.to_nat (MAX_TREE_DEPTH + 2 - d) - 1.

Definition stack_rounds (stack : list (list Z * Z)) : nat := sum_list (rounds ∘ snd <$> stack).

Lemma rounds_pos d : d <= MAX_TREE_DEPTH + 1 -> (1 <= rounds d)%nat.
Proof.
  intros Hd. unfold rounds. destruct (Z.to_nat (MAX_TREE_DEPTH + 2 - d)) as [|n] eqn:E; [lia|].
  rewrite Nat.pow_succ_r'. pose proof (Nat.pow_nonzero 2 n). lia.
Qed.

Lemma rounds_split d : d <= MAX_TREE_DEPTH -> (rounds (d + 1) + rounds (d + 1) < rounds d)%nat.
Proof.
  intros Hd. unfold rounds. replace (Z.to_nat (MAX_TREE_DEPTH + 2 - d)) with (S (Z.to_nat (MAX_TREE_DEPTH + 2 - (d + 1)))) by lia.
  rewrite Nat.pow_succ_r'. pose proof (Nat.pow_nonzero 2 (Z.to_nat (MAX_TREE_DEPTH + 2 - (d + 1)))). lia.
Qed.

Definition shallow (stack : list (list Z * Z)) : Prop := Forall (fun e : list Z * Z => e.2 <= MAX_TREE_DEPTH + 1) stack.

Lemma copy_terminates fuel src stack dst written :
  shallow stack -> (stack_rounds stack <= fuel)%nat -> is_Some (copy_loop fuel src stack dst written).
Proof.
  revert stack dst written. induction fuel as [|fuel IH]; intros [|[lbl d] stack] dst written Hs Hf; cbn [copy_loop]; try by eexists.
  - apply Forall_cons in Hs as [Hd _]. cbn in Hd, Hf. pose proof (rounds_pos d Hd). lia.
  - apply Forall_cons in Hs as [_ Hs]. cbn in Hf. destruct (Z.ltb_spec MAX_TREE_DEPTH d) as [|Hd]; [by eexists|].
    destruct (src !! lbl) as [packed|]; [|by eexists]. destruct (copy_children lbl packed) as [[[l r]|]|]; [..|by eexists];
      pose proof (rounds_split d Hd); apply IH; cbn.
    1: repeat constructor; cbn; [lia..|done]. 1: unfold stack_rounds in *; lia. 1: done. unfold stack_rounds in *; lia.
Qed.

Lemma verify_terminates fuel nodes kl stack visited root :
  shallow stack -> (stack_rounds stack <= fuel)%nat -> is_Some (verify_loop fuel nodes kl stack visited root).
Proof.
  revert stack visited root. induction fuel as [|fuel IH]; intros [|[lbl d] stack] visited root Hs Hf; cbn [verify_loop]; try by eexists.
  - apply Forall_cons in Hs as [Hd _]. cbn in Hd, Hf. pose proof (rounds_pos d Hd). lia.
  - apply Forall_cons in Hs as [_ Hs]. cbn in Hf. destruct (Z.ltb_spec MAX_TREE_DEPTH d) as [|Hd]; [by eexists|].
    destruct (nodes !! lbl) as [packed|]; [|by eexists]. pose proof (rounds_split d Hd).
    destruct (inspect_packed packed kl) as [[l r|]|]; [..|by eexists]; (case_decide; [|by eexists]); apply IH; cbn.
    1: repeat constructor; cbn; [lia..|done]. 1: unfold stack_rounds in *; lia. 1: done. unfold stack_rounds in *; lia.
Qed.

(** Enough fuel for any database. *)
Definition enough : nat := rounds 0.

Lemma copy_enough src lbl : is_Some (copy_loop enough src [(lbl, 0)] ∅ 0).
Proof. apply copy_terminates; [repeat constructor; cbn; unfold MAX_TREE_DEPTH; lia|]. cbn. unfold enough. lia. Qed.

Lemma verify_enough nodes kl lbl : is_Some (verify_loop enough nodes kl [(lbl, 0)] 0 None).
Proof. apply verify_terminates; [repeat constructor; cbn; unfold MAX_TREE_DEPTH; lia|]. cbn. unfold enough. lia. Qed.

Lemma verify_compacted_mono fuel fuel' nodes root n r :
  verify_compacted fuel nodes root n = Some r -> (fuel <= fuel')%nat -> verify_compacted fuel' nodes root n = Some r.
Proof.
  unfold verify_compacted. destruct (nodes !! root) as [packed|]; [|done].
  destruct (derive_key_length packed root) as [kl|]; [|done].
  destruct (verify_loop fuel nodes kl [(root, 0)] 0 None) as [res|] eqn:Ev; [|done].
  intros E Hf. by rewrite (verify_mono _ _ _ _ _ _ _ _ Ev Hf).
Qed.

Lemma verify_compacted_enough nodes root n : is_Some (verify_compacted enough nodes root n).
Proof.
  unfold verify_compacted. destruct (nodes !! root) as [packed|]; [|by eexists].
  destruct (derive_key_length packed root) as [kl|]; [|by eexists].
  destruct (verify_enough nodes kl root) as [[[visited r]|e] ->]; by eexists.
Qed.

Lemma compact_mono fuel fuel' source dest rm r :
  compact_to fuel source dest rm = Some r -> (fuel <= fuel')%nat -> compact_to fuel' source dest rm = Some r.
Proof.
  unfold compact_to, compact_to_inner. destruct dest; [done|]. destruct (read_source source) as [m|]; [|done].
  destruct (copy_loop fuel _ _ _ _) as [[[nodes written]|e]|] eqn:Ec; [..|done];
    intros E Hf; rewrite (copy_mono _ _ _ _ _ _ _ Ec Hf); [|done].
  destruct (verify_compacted fuel _ _ _) as [res|] eqn:Ev; [|done].
  by rewrite (verify_compacted_mono _ _ _ _ _ _ Ev Hf).
Qed.

Lemma compact_enough source dest rm : is_Some (compact_to enough source dest rm).
Proof.
  unfold compact_to, compact_to_inner. destruct dest; [by eexists|]. destruct (read_source source) as [m|]; [|by eexists].
  destruct (copy_enough (nodes_table source) (sm_hash m)) as [[[nodes written]|e] ->]; [|by eexists].
  destruct (verify_compacted_enough (nodes_table (compacted_db m nodes)) (sm_hash m) written) as [[root|e] ->];
    repeat case_match; by eexists.
Qed.

(** ** What a compaction leaves *)

Lemma rows_sub_notin ns dst l : l ∉ ns.*1 -> insert_rows dst ns !! l = dst !! l.
Proof. apply StateInv.foldl_insert_notin. Qed.

Lemma rows_dom ns dst : dom (insert_rows dst ns) = dom dst ∪ list_to_set ns.*1.
Proof.
  revert dst. induction ns as [|[l b] ns IH]; intros dst; cbn [insert_rows foldl fmap list_fmap list_to_set fst snd]; [set_solver|].
  change (foldl _ ?m ns) with (insert_rows m ns). rewrite IH, dom_insert_L. set_solver.
Qed.

(** As many keys as elements: none is repeated. *)
Lemma set_size_NoDup (l : list (list Z)) : (length l <= size (list_to_set l : gset (list Z)))%nat -> NoDup l.
Proof.
  induction l as [|x l IH]; intros Hl; [constructor|]. cbn [list_to_set] in Hl.
  assert (forall k : list (list Z), (size (list_to_set k : gset (list Z)) <= length k)%nat) as Hle.
  { clear. induction k as [|y k IH]; [by cbn; rewrite size_empty|]. cbn [list_to_set length].
    rewrite size_union_alt, size_singleton.
    assert (size (list_to_set k ∖ {[y]} : gset (list Z)) <= size (list_to_set k : gset (list Z)))%nat
      by (apply subseteq_size; set_solver). lia. }
  destruct (decide (x ∈ l)) as [Hin|Hnin].
  - rewrite subseteq_union_1_L in Hl by set_solver. specialize (Hle l). cbn in Hl. lia.
  - constructor; [done|]. apply IH. rewrite size_union, size_singleton in Hl by set_solver. cbn in Hl. lia.
Qed.

Lemma rows_lookup ns l b : NoDup ns.*1 -> insert_rows ∅ ns !! l = Some b <-> (l, b) ∈ ns.
Proof.
  intros Hnd. split.
  - intros Hl. destruct (decide (l ∈ ns.*1)) as [Hin|Hnin].
    + destruct (StateInv.foldl_insert_in ns ∅ l Hin) as (b' & Hb' & E). unfold insert_rows in Hl. congruence.
    + rewrite rows_sub_notin, lookup_empty in Hl by done. done.
  - intros Hin. destruct (StateInv.foldl_insert_in ns ∅ l) as (b' & Hb' & E); [by apply list_elem_of_fmap; exists (l, b)|].
    unfold insert_rows. rewrite E. f_equal. clear E. revert Hnd Hin Hb'. clear. induction ns as [|[k c] ns IH]; [by intros _ []%elem_of_nil|].
    cbn. rewrite NoDup_cons, !elem_of_cons. intros [Hk Hnd] [E|Hi] [E'|Hi']; simplify_eq; auto.
    + destruct Hk. apply list_elem_of_fmap. by exists (k, b').
    + destruct Hk. apply list_elem_of_fmap. by exists (k, b).
Qed.

(** Reading a tree depends on its rows only. *)
Lemma lookup_agree t nodes nodes' kl key fuel :
  keyed kl t -> stored nodes t -> stored nodes' t ->
  lookup_loop fuel nodes kl key (label t) = lookup_loop fuel nodes' kl key (label t).
Proof.
  revert fuel. induction t as [k v n|b k l IHl r IHr|]; intros [|fuel] Hk Hs Hs'; try done; cbn [lookup_loop].
  - by rewrite (stored_leaf _ _ _ _ Hs), (stored_leaf _ _ _ _ Hs').
  - pose proof (copy_children_spec _ _ Hk) as Hc.
    apply stored_node in Hs as (En & Hsl & Hsr). apply stored_node in Hs' as (En' & Hsl' & Hsr'). rewrite En, En'.
    destruct Hk as (_ & Hk & Hkl & Hkr). pose proof (keyed_label _ _ Hkl) as Hl. pose proof (keyed_label _ _ Hkr) as Hr.
    cbn [pack]. change (PACKED_INTERNAL_PREFIX =? 1) with false. cbn iota.
    destruct (_ <? _)%nat; [done|]. cbn [Nat.add]. rewrite !skipn_cons, skipn_O.
    rewrite (drop_app_exact kl), (drop_app_plus kl 32), (drop_app_exact 32), (take_app_exact 32), (take_ge (label r)) by (done || lia).
    destruct (lex_ltb _ _); auto.
Qed.

(** The rows of [d] are exactly the tree at the root of [source], each once, each hashing
    to its label, and what is read through them has not changed. *)
Record compacted (source d : Db) (m : SourceMeta) (kl : nat) (t : tree) : Prop := {
  cp_root : label t = sm_hash m;
  cp_keyed : keyed kl t;
  cp_once : NoDup (packed_nodes t).*1;
  cp_rows : forall l b, nodes_table d !! l = Some b <-> (l, b) ∈ packed_nodes t;
  cp_source : stored (nodes_table source) t;
  cp_version : sm_version m = label t ++ [sm_height m];
  cp_meta : d = compacted_db m (nodes_table d);
  cp_lookup : forall fuel key, lookup_key fuel d kl key = lookup_key fuel source kl key;
}.

Lemma read_source_hash d m :
  read_source d = Ok m -> meta_table d !! META_TOP_NODE_HASH = Some (sm_hash m) /\ length (sm_hash m) = 32%nat.
Proof.
  unfold read_source. destruct (meta_table d !! META_TOP_NODE_HASH) as [hash|]; [|done]. cbn [ok_or result_bind].
  destruct (Nat.eqb_spec (length hash) 32) as [El|]; [|done]. cbn [negb]. unfold result_bind.
  repeat (case_match; try done). all: by intros [= <-].
Qed.

Lemma read_source_height d m :
  read_source d = Ok m -> map_Forall (fun _ b => bytes_ok b) (meta_table d) -> 0 <= sm_height m.
Proof.
  unfold read_source. destruct (meta_table d !! META_TOP_NODE_HASH) as [hash|]; [|done]. cbn [ok_or result_bind].
  destruct (negb _); [done|]. destruct (meta_table d !! META_TOP_NODE_HEIGHT) as [hb|] eqn:Eh; [|done]. cbn [ok_or result_bind].
  unfold meta_be at 1. destruct (length hb =? 4)%nat; [|done]. cbn [result_bind]. unfold result_bind. intros E Hok.
  pose proof (from_be_range hb (Hok _ _ Eh)). revert E. repeat (case_match; try done). all: intros [= <-]; cbn; lia.
Qed.

Lemma verified_tree fuel source m nodes written root :
  map_Forall (fun _ b => bytes_ok b) (nodes_table source) ->
  copy_loop fuel (nodes_table source) [(sm_hash m, 0)] ∅ 0 = Some (Ok (nodes, written)) ->
  verify_compacted fuel nodes (sm_hash m) written = Some (Ok root) ->
  exists kl t, root = sm_hash m /\ label t = sm_hash m /\ keyed kl t /\ NoDup (packed_nodes t).*1 /\
    nodes = insert_rows ∅ (packed_nodes t) /\ stored nodes t /\ stored (nodes_table source) t /\
    written = Z.of_nat (length (packed_nodes t)).
Proof.
  intros Hok Hc. unfold verify_compacted. assert (nodes ⊆ nodes_table source) as Hsub
    by (eapply copy_sub; [apply map_empty_subseteq|exact Hc]).
  assert (map_Forall (fun _ b => bytes_ok b) nodes) as Hok'
    by (intros l b Hl; exact (Hok l b (lookup_weaken _ _ _ _ Hl Hsub))).
  destruct (nodes !! sm_hash m) as [packed|] eqn:En; [|done].
  destruct (derive_key_length packed (sm_hash m)) as [kl|]; [|done].
  destruct (verify_loop fuel nodes kl [(sm_hash m, 0)] 0 None) as [[[visited root']|]|] eqn:Ev; [|done..].
  destruct (Z.eqb_spec visited written) as [Evw|]; [|done]. destruct (Z.eqb_spec (Z.of_nat (size nodes)) visited) as [Es|]; [|done].
  cbn [negb]. intros E. destruct (verify_sound _ _ _ _ _ _ _ _ Hok' Ev) as (ts & Hts & Hvis).
  apply Forall2_cons_inv_l in Hts as (t & ts' & (Hl & Hk & Hs & Hd) & Hts & ->). apply Forall2_nil_inv_l in Hts as ->.
  cbn [fst snd] in Hl, Hd. unfold all_nodes in Hvis. cbn in Hvis. rewrite app_nil_r in Hvis.
  assert (stored (nodes_table source) t) as Hss.
  { unfold stored. eapply Forall_impl; [exact Hs|]. intros n Hn. exact (lookup_weaken _ _ _ _ Hn Hsub). }
  assert (Forall2 (entry_tree (nodes_table source) kl) [(sm_hash m, 0)] [t]) as Hent by (constructor; [by split_and!|done]).
  pose proof (copy_trees (fuel + length (all_nodes [t])) _ _ _ _ ∅ 0 Hent ltac:(lia)) as Hc'.
  rewrite (copy_mono _ (fuel + length (all_nodes [t])) _ _ _ _ _ Hc ltac:(lia)) in Hc'. unfold all_nodes in Hc'. cbn [fmap list_fmap concat] in Hc'.
  rewrite app_nil_r in Hc'. injection Hc' as Hn _.
  exists kl, t. split_and!; try done; try lia.
  - destruct fuel as [|fuel]; [done|]. revert Ev. cbn [verify_loop]. change (MAX_TREE_DEPTH <? 0) with false. cbn iota.
    rewrite En. destruct (inspect_packed packed kl) as [shape|]; [|done]. case_decide as Ec; [|done]. intros Ev.
    apply verify_root in Ev; [cbn in Ev; subst root'; cbn in E; congruence|].
    destruct shape; repeat constructor; cbn; lia.
  - apply set_size_NoDup. rewrite length_fmap.
    assert (size nodes = size (list_to_set (packed_nodes t).*1 : gset (list Z))) as <-; [|lia].
    rewrite <- (size_dom (D := gset (list Z)) nodes), Hn, rows_dom. f_equal. set_solver.
Qed.

(** ** Compacting a storage *)

Definition shape_of (t : tree) : PackedShape :=
  match t with Node _ _ l r => ShInternal (label l) (label r) | _ => ShLeaf end.

Lemma inspect_pack t kl : keyed kl t -> inspect_packed (pack t) kl = Ok (shape_of t).
Proof.
  destruct t as [k v n|b k l r|]; [| |done]; unfold inspect_packed; cbn [pack shape_of].
  - intros (Hk & Hn & Hv). change (PACKED_LEAF_PREFIX =? PACKED_INTERNAL_PREFIX) with false.
    change (PACKED_LEAF_PREFIX =? PACKED_LEAF_PREFIX) with true. cbn iota. cbn [length Nat.add]. rewrite skipn_cons.
    rewrite !length_app, be_bytes_length, Hk, Hn, (drop_app_exact kl), take_app_exact by (done || apply be_bytes_length).
    rewrite from_be_u32 by (int_unfold; lia). rewrite Nat2Z.id.
    destruct (Nat.ltb_spec (S (kl + (4 + (length v + kl)))) (S (kl + 4 + kl))); [lia|].
    destruct (Nat.eqb_spec (S (kl + (4 + (length v + kl)))) (S (kl + 4 + length v + kl))); [done|lia].
  - intros (_ & Hk & Hl & Hr). apply keyed_label in Hl, Hr. unfold INTERNAL_CHILD_LABELS_LEN.
    change (PACKED_INTERNAL_PREFIX =? PACKED_INTERNAL_PREFIX) with true. cbn iota. cbn [length Nat.add].
    rewrite !length_app, Hk, Hl, Hr, !skipn_cons, (drop_app_exact kl), (drop_app_plus kl 32), (drop_app_exact 32) by done.
    destruct (Nat.eqb_spec (S (S (kl + (32 + 32)))) (S (S (kl + 64)))); [|lia]. cbn [negb].
    by rewrite (take_app_exact 32), (take_ge (label r)) by (done || lia).
Qed.

Lemma recompute_pack t kl : keyed kl t -> recompute_label kl (pack t) = label t.
Proof.
  destruct t as [k v n|b k l r|]; [| |done].
  - intros (Hk & Hn & Hv). by apply recompute_leaf.
  - intros (Hb & Hk & Hl%keyed_label & Hr%keyed_label). by apply recompute_internal.
Qed.

Lemma verify_trees fuel nodes kl stack ts visited root :
  Forall2 (entry_tree nodes kl) stack ts -> (length (all_nodes ts) <= fuel)%nat ->
  exists root', verify_loop fuel nodes kl stack visited root = Some (Ok (visited + Z.of_nat (length (all_nodes ts)), root')).
Proof.
  revert stack ts visited root. induction fuel as [|fuel IH]; intros stack ts visited root Hts Hf;
    (destruct Hts as [|[lbl d] t stack ts (Hl & Hk & Hs & Hd) Hts]; [exists root; cbn; by rewrite Z.add_0_r|]);
    cbn [fst snd] in Hl, Hd; subst lbl.
  { destruct t; [rewrite all_nodes_leaf in Hf|rewrite all_nodes_node in Hf|done]; cbn in Hf; lia. }
  cbn [verify_loop]. assert (0 < Z.of_nat (depth t)) by (destruct t; cbn [depth]; [lia..|done]).
  destruct (Z.ltb_spec MAX_TREE_DEPTH d) as [|_]; [lia|].
  rewrite (stored_root _ _ (keyed_whole _ _ Hk) Hs), (inspect_pack _ _ Hk), (recompute_pack _ _ Hk), decide_True by done.
  destruct t as [k v n|b k l r|]; [..|done]; cbn [shape_of app].
  - rewrite all_nodes_leaf in *. cbn [length] in *. edestruct (IH stack ts) as [root' ->]; [done|lia|].
    exists root'. do 3 f_equal. lia.
  - rewrite all_nodes_node in *. cbn [length] in *. edestruct (IH ((label l, d + 1) :: (label r, d + 1) :: stack) (l :: r :: ts)) as [root' ->]; [|lia|].
    + apply stored_node in Hs as (_ & Hsl & Hsr). destruct Hk as (_ & _ & Hkl & Hkr). cbn [depth] in Hd.
      constructor; [|constructor; [|done]]; split_and!; try done; cbn [fst snd]; lia.
    + exists root'. do 3 f_equal. lia.
Qed.

Lemma root_found fuel nodes kl t visited root :
  keyed kl t -> stored nodes t ->
  verify_loop fuel nodes kl [(label t, 0)] 0 None = Some (Ok (visited, root)) -> root = Some (label t).
Proof.
  intros Hk Hs. destruct fuel as [|fuel]; [done|]. cbn [verify_loop]. change (MAX_TREE_DEPTH <? 0) with false. cbn iota.
  rewrite (stored_root _ _ (keyed_whole _ _ Hk) Hs), (inspect_pack _ _ Hk), (recompute_pack _ _ Hk), decide_True by done.
  apply verify_root. destruct t; repeat constructor; cbn; lia.
Qed.

Lemma derive_node b k l r kl :
  keyed kl (Node b k l r) -> (0 < kl)%nat ->
  derive_key_length (pack (Node b k l r)) (label (Node b k l r)) = Ok kl.
Proof.
  intros Hk Hpos. unfold derive_key_length, key_candidates.
  assert (length (pack (Node b k l r)) = (2 + kl + 64)%nat) as Hlen.
  { destruct Hk as (_ & Hk & Hl%keyed_label & Hr%keyed_label). cbn [pack length]. rewrite !length_app. lia. }
  cbn [pack]. change (PACKED_INTERNAL_PREFIX =? PACKED_INTERNAL_PREFIX) with true. cbn iota.
  change (PACKED_INTERNAL_PREFIX :: as_u8 b :: k ++ label l ++ label r) with (pack (Node b k l r)).
  rewrite Hlen. unfold INTERNAL_CHILD_LABELS_LEN. destruct (Nat.leb_spec (2 + kl + 64) (2 + 64)) as [|_]; [lia|].
  cbn [result_bind]. replace (2 + kl + 64 - (2 + 64))%nat with kl by lia.
  rewrite filter_cons_True; [done|]. split; [by rewrite inspect_pack|by apply recompute_pack].
Qed.

Definition bytes_db (d : Db) : Prop :=
  map_Forall (fun _ b => bytes_ok b) (nodes_table d) /\ map_Forall (fun _ b => bytes_ok b) (meta_table d).

Lemma compact_ok_inv fuel source rm stats dest :
  bytes_db source -> compact_to fuel source None rm = Some (Ok stats, dest) ->
  exists d m kl t, dest = Some d /\ read_source source = Ok m /\ compacted source d m kl t /\
    stats = mk_stats (Z.of_nat (length (packed_nodes t))) (sm_block m) (sm_version m).
Proof.
  intros [Hok Hokm]. unfold compact_to, compact_to_inner. destruct (read_source source) as [m|] eqn:Em; [|done].
  destruct (copy_loop fuel _ _ _ _) as [[[nodes written]|e]|] eqn:Ec; [|done..].
  destruct (verify_compacted fuel _ _ _) as [[root|e]|] eqn:Ev; [|done..].
  destruct (Z.ltb_spec U8_MAX (sm_height m)) as [|Hh]; [done|]. case_decide as Ed; [|done]. intros [= <- <-].
  destruct (verified_tree _ _ _ _ _ _ Hok Ec Ev) as (kl & t & -> & Hl & Hk & Hnd & Hn & Hs & Hss & ->).
  pose proof (read_source_height _ _ Em Hokm) as Hpos. destruct (read_source_hash _ _ Em) as [Hroot Hlen].
  exists (compacted_db m nodes), m, kl, t. split_and!; [done|done| |by rewrite Ed]. split; try done.
  - intros l b. cbn [nodes_table compacted_db]. rewrite Hn. by apply rows_lookup.
  - rewrite <- Ed, Hl. do 2 f_equal. int_unfold. rewrite Z.mod_small; [done|]. unfold U8_MAX in Hh. lia.
  - intros fuel' key. unfold lookup_key. cbn [meta_table compacted_db nodes_table].
    rewrite Hroot, !lookup_insert_ne, lookup_insert_eq, Hlen by done. cbn [Nat.eqb]. rewrite <- Hl.
    by rewrite (lookup_agree t nodes (nodes_table source)).
Qed.

(** C27: compaction terminates on every database, cyclic and damaged ones included, with
    [enough] rounds (the depth cap bounds the walk). If it reports success, the new
    database holds exactly the rows of one tree, each once and each hashing to its label:
    the tree at the source's root, byte for byte as the source has it; its digest is the
    source's version; and every lookup through the new database gives what the source
    gives. If it reports an error, the destination is gone again. *)
Theorem compact_to_correct source rm :
  bytes_db source ->
  exists res dest,
    (forall fuel, (enough <= fuel)%nat -> compact_to fuel source None rm = Some (res, dest)) /\
    match res with
    | Ok stats => exists d m kl t, dest = Some d /\ read_source source = Ok m /\ compacted source d m kl t /\
        stats = mk_stats (Z.of_nat (length (packed_nodes t))) (sm_block m) (sm_version m)
    | Err _ => rm = true -> dest = None
    end.
Proof.
  intros Hok. destruct (compact_enough source None rm) as [[res dest] E].
  exists res, dest. split; [intros fuel Hf; by eapply compact_mono|].
  destruct res as [stats|e]; [by eapply compact_ok_inv|].
  revert E. unfold compact_to. destruct (compact_to_inner enough source) as [[[stats|e'] dest']|]; [done| |done].
  intros [= _ <-] ->. done.
Qed.

Definition is_node (t : tree) : Prop := match t with Node _ _ _ _ => True | _ => False end.

Lemma read_source_repr content v vs s :
  StateInv.repr content (v :: vs) s ->
  read_source (db s) = Ok (mk_source (label (StateInv.v_tree v)) (StateInv.v_height v) (StateInv.v_digest v)
                             (StateInv.v_block v) (current_lsn s)).
Proof.
  intros Hr. destruct (StateInv.r_meta _ _ _ Hr) as (_ & Eh & Eht & Ev & Eb & El & _).
  pose proof (StateInv.r_versions _ _ _ Hr) as [Hv _]%Forall_cons. pose proof (StateInv.r_lsn _ _ _ Hr) as Hlsn.
  unfold read_source, meta_be. rewrite Eh, Eht, Ev, Eb, El. cbn [ok_or result_bind].
  rewrite (label_length _ (proj1 (StateInv.vo_tree _ _ Hv))), !be_bytes_length. cbn [Nat.eqb negb result_bind].
  rewrite !from_be_u32, from_be_u64; [done|int_unfold; lia|apply Hv..].
Qed.

(** A node's tree can be compacted. *)
Lemma compact_tree fuel d m t rm :
  read_source d = Ok m -> sm_hash m = label t -> keyed 32 t -> is_node t -> stored (nodes_table d) t ->
  NoDup (packed_nodes t).*1 -> Z.of_nat (depth t) <= MAX_TREE_DEPTH + 1 -> 0 <= sm_height m <= U8_MAX ->
  sm_version m = label t ++ [sm_height m] -> (length (packed_nodes t) <= fuel)%nat ->
  compact_to fuel d None rm =
    Some (Ok (mk_stats (Z.of_nat (length (packed_nodes t))) (sm_block m) (sm_version m)),
          Some (compacted_db m (insert_rows ∅ (packed_nodes t)))).
Proof.
  intros Em Eh Hk Hn Hs Hnd Hd Hht Ev Hf. unfold compact_to, compact_to_inner. rewrite Em, Eh.
  assert (all_nodes [t] = packed_nodes t) as Ea by apply app_nil_r.
  assert (forall nodes, stored nodes t -> Forall2 (entry_tree nodes 32) [(label t, 0)] [t]) as Hent
    by (intros; constructor; [by split_and!|done]).
  rewrite (copy_trees fuel _ 32 _ [t]) by (by rewrite ?Ea; auto). rewrite Ea, Z.add_0_l.
  set (nodes := insert_rows ∅ (packed_nodes t)).
  assert (stored nodes t) as Hst by (apply Forall_forall; intros [l b] Hin; by apply rows_lookup).
  unfold verify_compacted. cbn [nodes_table compacted_db].
  rewrite (stored_root _ _ (keyed_whole _ _ Hk) Hst).
  assert (derive_key_length (pack t) (label t) = Ok 32%nat) as -> by (destruct t; [done|apply derive_node; [done|lia]|done]).
  destruct (verify_trees fuel nodes 32 _ [t] 0 None (Hent _ Hst)) as [root Er]; [by rewrite Ea|]. rewrite Er.
  apply root_found in Er as ->; [|done..]. rewrite Ea, Z.add_0_l, Z.eqb_refl. cbn [negb].
  assert (size nodes = length (packed_nodes t)) as ->.
  { rewrite <- (size_dom (D := gset (list Z))). unfold nodes. rewrite rows_dom, dom_empty_L, (left_id_L ∅ (∪)).
    rewrite size_list_to_set by done. apply length_fmap. }
  rewrite Z.eqb_refl. cbn [negb ok_or]. destruct (Z.ltb_spec U8_MAX (sm_height m)); [lia|].
  assert (as_u8 (sm_height m) = sm_height m) as -> by (unfold U8_MAX in *; int_unfold; rewrite Z.mod_small; lia).
  by rewrite Ev, decide_True.
Qed.

Lemma compacted_repr content v vs s keep :
  StateInv.repr content (v :: vs) s -> NoDup (packed_nodes (StateInv.v_tree v)).*1 ->
  StateInv.repr content [v]
    (mk_storage
       (compacted_db (mk_source (label (StateInv.v_tree v)) (StateInv.v_height v) (StateInv.v_digest v)
                        (StateInv.v_block v) (current_lsn s))
          (insert_rows ∅ (packed_nodes (StateInv.v_tree v))))
       keep (Some (StateInv.v_digest v)) [(current_lsn s, StateInv.v_digest v)]).
Proof.
  intros Hr Hnd. pose proof (StateInv.r_versions _ _ _ Hr) as [Hv _]%Forall_cons.
  pose proof (StateInv.r_lsn _ _ _ Hr) as Hl. cbn [length] in Hl.
  split; cbn [db version_chain compacted_db nodes_table].
  - by apply Forall_singleton.
  - unfold StateInv.fits32. cbn. int_unfold. lia.
  - cbn. by rewrite Z.sub_0_r.
  - cbn. lia.
  - intros i w w' _ Hw'. by apply lookup_lt_Some in Hw'; cbn in Hw'; lia.
  - intros w [= <-]. apply Forall_forall. intros [l b] Hin. by apply rows_lookup.
  - intros l b Hlb%rows_lookup; [|done]. apply StateInv.true_row.
    exact (StateInv.genuine_node _ _ _ (StateInv.vo_tree _ _ Hv) Hlb).
  - unfold StateInv.meta_ok. cbn [current_version db meta_table compacted_db version_chain sm_hash sm_height sm_version sm_block sm_lsn current_lsn].
    split_and!; [done|..]; repeat (rewrite lookup_insert_eq || rewrite lookup_insert_ne by done); done.
Qed.

(** compacting a healthy storage succeeds, and opening the result gives a storage
    that represents the newest version alone: the same tree, digest, height and block
    height, no version to roll back to. *)
Theorem compact_complete content v vs s rm keep :
  StateInv.repr content (v :: vs) s ->
  is_node (StateInv.v_tree v) -> Z.of_nat (depth (StateInv.v_tree v)) <= MAX_TREE_DEPTH + 1 ->
  NoDup (packed_nodes (StateInv.v_tree v)).*1 -> StateInv.v_height v <= U8_MAX ->
  StateInv.v_digest v = label (StateInv.v_tree v) ++ [StateInv.v_height v] ->
  exists d s', (forall fuel, (length (packed_nodes (StateInv.v_tree v)) <= fuel)%nat ->
      compact_to fuel (db s) None rm =
        Some (Ok (mk_stats (Z.of_nat (length (packed_nodes (StateInv.v_tree v)))) (StateInv.v_block v)
                    (StateInv.v_digest v)), Some d)) /\
    open d keep = Ok s' /\ StateInv.repr content [v] s'.
Proof.
  intros Hr Hn Hd Hnd Hh Hdig. pose proof (StateInv.r_versions _ _ _ Hr) as [Hv _]%Forall_cons.
  destruct (StateInv.vo_tree _ _ Hv) as (Hwf & Hw & _). pose proof (StateInv.vo_height _ _ Hv) as Hh'.
  pose proof (compacted_repr content v vs s keep Hr Hnd) as Hr'. pose proof (StateInv.open_spec _ _ _ keep Hr') as Ho.
  eexists _, _. split; [|split; [exact Ho|exact Hr']]. intros fuel Hf.
  rewrite (compact_tree fuel (db s) _ (StateInv.v_tree v) rm (read_source_repr _ _ _ _ Hr)); try done.
  - by apply wf_keyed.
  - exact (StateInv.r_top _ _ _ Hr v eq_refl).
  - cbn. int_unfold. lia.
Qed.

End Props.

(** ** An instance *)

Module Examples.
Import StateInv.Examples Reader.Examples.

(** The hash that the AVL library documents. *)
#[export] Instance toy_hash : NodeHash := fun kl packed =>
  match packed with
  | prefix :: rest =>
      if prefix =? PACKED_INTERNAL_PREFIX then blake2b (LABEL_INTERNAL_PREFIX :: take 1 rest ++ drop (1 + kl) rest)
      else blake2b (LABEL_LEAF_PREFIX :: take kl rest ++ drop (kl + 4) rest)
  | [] => []
  end.

#[export] Instance toy_hash_laws : NodeHashLaws.
Proof.
  split.
  - intros kl b k l r _ Hk _ _. unfold recompute_label, toy_hash, compute_internal_label.
    change (PACKED_INTERNAL_PREFIX =? PACKED_INTERNAL_PREFIX) with true. cbn [Nat.add take app]. rewrite skipn_cons.
    by rewrite drop_app_exact.
  - intros kl k v n Hk _ _. unfold recompute_label, toy_hash, compute_leaf_label. cbn [pack].
    change (PACKED_LEAF_PREFIX =? PACKED_INTERNAL_PREFIX) with false. cbn iota.
    by rewrite take_app_exact, drop_app_plus, drop_app_exact by (done || apply be_bytes_length).
Qed.

Lemma ex_repr : StateInv.repr ex_content [vr] sr.
Proof. apply StateInv.reachable_repr, ex_reachable_sr. Qed.

Lemma ex_bytes : bytes_db (db sr).
Proof.
  split; apply map_Forall_to_list; apply (bool_decide_unpack _); by vm_compute.
Qed.

Lemma compact_complete_witness :
  exists d s', compact_to 3 (db sr) None true = Some (Ok (mk_stats 3 100 (label t2 ++ [1])), Some d) /\
    open d 10 = Ok s' /\ version s' = Some (label t2 ++ [1]) /\ rollback_versions s' = [].
Proof.
  destruct (compact_complete ex_content vr [] sr true 10 ex_repr) as (d & s' & Hc & Ho & Hr).
  - done.
  - by vm_compute.
  - apply (bool_decide_unpack _). by vm_compute.
  - done.
  - done.
  - exists d, s'. apply StateInv.repr_answers in Hr as (Hv & _ & Hrb & _). split_and!; [by apply Hc|done..].
Defined.

Lemma ex_compacts fuel : (3 <= fuel)%nat ->
  exists d, compact_to fuel (db sr) None true = Some (Ok (mk_stats 3 100 (label t2 ++ [1])), Some d).
Proof.
  intros Hf. eexists. rewrite (compact_tree fuel (db sr) _ t2 true (read_source_repr _ _ _ _ ex_repr)); try done.
  - exact (StateInv.r_top _ _ _ ex_repr vr eq_refl).
  - apply (bool_decide_unpack _). by vm_compute.
Qed.

Lemma compact_to_correct_witness :
  bytes_db (db sr) /\
  exists d m kl t, compact_to (enough + 3)%nat (db sr) None true = Some (Ok (mk_stats 3 100 (label t2 ++ [1])), Some d) /\
    compacted (db sr) d m kl t /\ sm_version m = label t2 ++ [1].
Proof.
  split; [exact ex_bytes|]. destruct (compact_to_correct (db sr) true ex_bytes) as (res & dest & Hc & Hr).
  destruct (ex_compacts (enough + 3)%nat ltac:(lia)) as [d' Ed]. rewrite (Hc (enough + 3)%nat ltac:(lia)) in Ed.
  injection Ed as -> ->. destruct Hr as (d & m & kl & t & [= ->] & _ & Hcp & [= _ _ Hv]).
  exists d, m, kl, t. split_and!; [apply Hc; lia|done|done].
Defined.

End Examples.

End Compact.
