(* ===== verification/SnapshotProtocol.v ===== *)
(** * The snapshot messages

    src/sync/src/snapshot/protocol.rs: the six messages of the UTXO snapshot exchange, with
    their own variable-length integers. A body is the list of its bytes. Arithmetic on
    [usize] wraps, and a slice whose end is before its start panics. *)

From S2P Require Import Prelude Vlq.

(** The memory of the machine: the sizes in bytes of which a block can be allocated, 64 KiB
    at least. *)
Class Memory := {
  allocatable : Z -> bool;
  small_allocations : forall n, 0 <= n <= 65536 -> allocatable n = true;
}.

Module SnapProto.

Inductive ProtocolError := TooShort | TooLarge (n : Z) | UnknownCode (code : Z).

(** The loop of [vlq_decode], with the count of bytes read. *)
Fixpoint vlq_decode_loop (data : list Z) (acc shift : Z) (i : Z) : result ProtocolError (Z * Z) :=
  match data with
  | [] => Err TooShort
  | b :: rest =>
      let acc := Z.lor acc (as_u64 (Z.shiftl (Z.land b 127) shift)) in
      let shift := shift + 7 in
      if Z.land b 128 =? 0 then Ok (acc, i + 1)
      else if 64 <=? shift then Err TooShort
      else vlq_decode_loop rest acc shift (i + 1)
  end.

Definition vlq_decode (data : list Z) : result ProtocolError (Z * Z) := vlq_decode_loop data 0 0 0.

(** [vlq_encode]: ten rounds are enough for a [u64]. *)
Fixpoint vlq_encode_loop (rounds : nat) (value : Z) : list Z :=
  match rounds with
  | O => []
  | S rounds' =>
      let byte := as_u8 (Z.land value 127) in
      let value := Z.shiftr value 7 in
      let byte := if value =? 0 then byte else Z.lor byte 128 in
      byte :: (if value =? 0 then [] else vlq_encode_loop rounds' value)
  end.

Definition vlq_encode (value : Z) : list Z := vlq_encode_loop 10 value.

Definition zigzag_decode (n : Z) : Z := Z.lxor (as_i64 (Z.shiftr n 1)) (- Z.land n 1).
Definition zigzag_encode (n : Z) : Z := as_u64 (Z.lxor (as_i64 (Z.shiftl n 1)) (Z.shiftr n 63)).

Definition GET_SNAPSHOTS_INFO : Z := 76.
Definition SNAPSHOTS_INFO : Z := 77.
Definition GET_MANIFEST : Z := 78.
Definition MANIFEST : Z := 79.
Definition GET_UTXO_SNAPSHOT_CHUNK : Z := 80.
Definition UTXO_SNAPSHOT_CHUNK : Z := 81.

Definition MAX_SNAPSHOTS_INFO_SIZE : Z := 20000.
Definition MAX_MANIFEST_SIZE : Z := 4000000.
Definition MAX_CHUNK_SIZE : Z := 4000000.

Record SnapshotEntry := mk_entry {
  entry_height : Z;
  manifest_id : list Z;
}.

Inductive SnapshotMessage :=
  | GetSnapshotsInfo
  | SnapshotsInfo (entries : list SnapshotEntry)
  | GetManifest (id : list Z)
  | Manifest (data : list Z)
  | GetUtxoSnapshotChunk (id : list Z)
  | UtxoSnapshotChunk (data : list Z).

Definition is_snapshot_code (code : Z) : bool :=
  (code =? GET_SNAPSHOTS_INFO) || (code =? SNAPSHOTS_INFO) || (code =? GET_MANIFEST) ||
  (code =? MANIFEST) || (code =? GET_UTXO_SNAPSHOT_CHUNK) || (code =? UTXO_SNAPSHOT_CHUNK).

(** [Vec::with_capacity] for elements of [elem_size] bytes: more bytes than [isize::MAX]
    panic, and an allocation that fails aborts the process, which is a [Panic] here too. *)
Definition with_capacity `{Memory} {E} (elem_size count : Z) : outcome E unit :=
  if (I64_MAX <? elem_size * count) || negb (allocatable (elem_size * count)) then Panic else Return ().

(** The entries of a [SnapshotsInfo]: each takes 33 bytes at least, so a round for each
    byte is enough. *)
Fixpoint parse_entries (fuel : nat) (count : Z) (rest : list Z) : result ProtocolError (list SnapshotEntry) :=
  if count <=? 0 then Ok []
  else
    match fuel with
    | O => Err TooShort
    | S fuel' =>
        let? (raw_height, new_offset) := vlq_decode rest in
        let height := as_u32 (zigzag_decode raw_height) in
        let rest := drop (Z.to_nat new_offset) rest in
        if (length rest <? 32)%nat then Err TooShort
        else
          let? entries := parse_entries fuel' (count - 1) (drop 32 rest) in
          Ok (mk_entry height (take 32 rest) :: entries)
    end.

(** [body\[from..to\]]. *)
Definition slice {E} (body : list Z) (from to : Z) : outcome E (list Z) :=
  if (to <? from) || (Z.of_nat (length body) <? to) then Panic
  else Return (take (Z.to_nat (to - from)) (drop (Z.to_nat from) body)).

(** The length-prefixed bytes of [Manifest] and [UtxoSnapshotChunk]. *)
Definition parse_sized (max_size : Z) (body : list Z) : outcome ProtocolError (list Z) :=
  let size := Z.of_nat (length body) in
  if max_size <? size then Fail (TooLarge size)
  else
    let! (len, offset) := of_result (vlq_decode body) in
    let end_ := add_u64 offset len in
    if size <? end_ then Fail TooShort else slice body offset end_.

Definition parse_id (body : list Z) : outcome ProtocolError (list Z) :=
  if (length body <? 32)%nat then Fail TooShort else Return (take 32 body).

Definition parse_info `{Memory} (body : list Z) : outcome ProtocolError (list SnapshotEntry) :=
  let size := Z.of_nat (length body) in
  if MAX_SNAPSHOTS_INFO_SIZE <? size then Fail (TooLarge size)
  else
    let! (count, offset) := of_result (vlq_decode body) in
    let! _ := with_capacity 36 count in
    of_result (parse_entries (S (length body)) count (drop (Z.to_nat offset) body)).

Definition outcome_map {E A B} (f : A -> B) (m : outcome E A) : outcome E B :=
  let! a := m in Return (f a).

(** [SnapshotMessage::parse]. *)
Definition snap_parse `{Memory} (code : Z) (body : list Z) : outcome ProtocolError SnapshotMessage :=
  if code =? GET_SNAPSHOTS_INFO then Return GetSnapshotsInfo
  else if code =? SNAPSHOTS_INFO then outcome_map SnapshotsInfo (parse_info body)
  else if code =? GET_MANIFEST then outcome_map GetManifest (parse_id body)
  else if code =? MANIFEST then outcome_map Manifest (parse_sized MAX_MANIFEST_SIZE body)
  else if code =? GET_UTXO_SNAPSHOT_CHUNK then outcome_map GetUtxoSnapshotChunk (parse_id body)
  else if code =? UTXO_SNAPSHOT_CHUNK then outcome_map UtxoSnapshotChunk (parse_sized MAX_CHUNK_SIZE body)
  else Fail (UnknownCode code).

Definition encode_entry (e : SnapshotEntry) : list Z :=
  vlq_encode (zigzag_encode (entry_height e)) ++ manifest_id e.

(** [SnapshotMessage::encode]. *)
Definition snap_encode (m : SnapshotMessage) : Z * list Z :=
  match m with
  | GetSnapshotsInfo => (GET_SNAPSHOTS_INFO, [])
  | SnapshotsInfo entries =>
      (SNAPSHOTS_INFO, vlq_encode (Z.of_nat (length entries)) ++ concat (encode_entry <$> entries))
  | GetManifest id => (GET_MANIFEST, id)
  | Manifest data => (MANIFEST, vlq_encode (Z.of_nat (length data)) ++ data)
  | GetUtxoSnapshotChunk id => (GET_UTXO_SNAPSHOT_CHUNK, id)
  | UtxoSnapshotChunk data => (UTXO_SNAPSHOT_CHUNK, vlq_encode (Z.of_nat (length data)) ++ data)
  end.

(** ** The integers are those of the P2P layer *)

Lemma vlq_encode_write v : vlq_encode v = Vlq.write_vlq [] v.
Proof.
  unfold vlq_encode, Vlq.write_vlq. rewrite app_nil_l. generalize 10%nat. intros n. revert v.
  induction n as [|n IH]; intros v; [done|]. cbn [vlq_encode_loop].
  rewrite Vlq.write_vlq_loop_S, Vlq.vlq_low_byte, Vlq.vlq_shift.
  destruct (v / 128 =? 0); [done|]. rewrite IH, lor_128; [done|]. apply Z.mod_pos_bound. lia.
Qed.

Lemma vlq_decode_read_loop data acc shift i :
  vlq_decode_loop data acc shift i =
    match Vlq.read_vlq_loop data acc shift with
    | Ok (v, rest) => Ok (v, i + Z.of_nat (length data - length rest))
    | Err _ => Err TooShort
    end.
Proof.
  revert acc shift i. induction data as [|b data IH]; intros acc shift i; [done|].
  cbn [vlq_decode_loop Vlq.read_vlq_loop]. destruct (Z.land b 128 =? 0).
  - do 2 f_equal. cbn [length]. lia.
  - destruct (Z.leb_spec 64 (shift + 7)), (Z.ltb_spec 63 (shift + 7)); try lia; [done|]. rewrite IH.
    destruct (Vlq.read_vlq_loop data _ _) as [[v rest]|] eqn:E; [|done]. do 2 f_equal.
    assert (length rest <= length data)%nat; [|cbn [length]; lia].
    revert E. generalize (Z.lor acc (as_u64 (Z.shiftl (Z.land b 127) shift))). generalize (shift + 7). clear.
    induction data as [|c data IH]; intros s a; cbn [Vlq.read_vlq_loop]; [done|].
    destruct (Z.land c 128 =? 0); [intros [= _ <-]; cbn; lia|]. destruct (63 <? s + 7); [done|].
    intros ?%IH. cbn. lia.
Qed.

Lemma vlq_decode_encode v r : is_u64 v -> vlq_decode (vlq_encode v ++ r) = Ok (v, Z.of_nat (length (vlq_encode v))).
Proof.
  intros Hv. unfold vlq_decode. rewrite vlq_decode_read_loop, vlq_encode_write.
  change (Vlq.read_vlq_loop _ 0 0) with (Vlq.read_vlq (Vlq.write_vlq [] v ++ r)).
  rewrite Vlq.read_vlq_write by done. do 2 f_equal. rewrite length_app. lia.
Qed.

Lemma vlq_decode_range data v n :
  vlq_decode data = Ok (v, n) -> is_u64 v /\ 0 < n <= Z.of_nat (length data).
Proof.
  unfold vlq_decode. rewrite vlq_decode_read_loop.
  destruct (Vlq.read_vlq_loop data 0 0) as [[v' rest]|] eqn:E; [|done]. intros [= <- <-].
  apply Vlq.read_vlq_loop_range in E as [Hv (p & -> & Hp)]; [|int_unfold; lia].
  rewrite length_app. split; [done|lia].
Qed.

Lemma zigzag_height h : is_u32 h -> is_u64 (zigzag_encode h) /\ as_u32 (zigzag_decode (zigzag_encode h)) = h.
Proof.
  intros Hh. change (zigzag_encode h) with (Vlq.zigzag_encode_i64 h).
  change (zigzag_decode ?x) with (Vlq.zigzag_decode_i64 x). split; [apply as_u64_range|].
  rewrite (proj2 (Vlq.zigzag_roundtrip h)) by (int_unfold; lia). by apply as_u32_small.
Qed.

(** ** Round trip *)

Definition entry_ok (e : SnapshotEntry) : Prop := is_u32 (entry_height e) /\ length (manifest_id e) = 32%nat.

(** What the messages of the exchange satisfy: ids of 32 bytes, bodies within the limits. *)
Definition message_ok (m : SnapshotMessage) : Prop :=
  match m with
  | GetSnapshotsInfo => True
  | SnapshotsInfo entries =>
      Forall entry_ok entries /\ Z.of_nat (length (snap_encode m).2) <= MAX_SNAPSHOTS_INFO_SIZE
  | GetManifest id | GetUtxoSnapshotChunk id => length id = 32%nat
  | Manifest data => Z.of_nat (length (snap_encode m).2) <= MAX_MANIFEST_SIZE
  | UtxoSnapshotChunk data => Z.of_nat (length (snap_encode m).2) <= MAX_CHUNK_SIZE
  end.

Lemma parse_entries_encode es fuel r :
  Forall entry_ok es -> (length es <= fuel)%nat ->
  parse_entries fuel (Z.of_nat (length es)) (concat (encode_entry <$> es) ++ r) = Ok es.
Proof.
  intros Hes. revert fuel. induction Hes as [|e es [Hh Hm] _ IH]; intros fuel Hf; [by destruct fuel|].
  destruct fuel as [|fuel]; cbn [length] in Hf; [lia|]. cbn [parse_entries length fmap list_fmap concat].
  destruct (Z.leb_spec (Z.of_nat (S (length es))) 0) as [|_]; [lia|].
  destruct (zigzag_height _ Hh) as [Hz Ez]. change (encode_entry e) with (vlq_encode (zigzag_encode (entry_height e)) ++ manifest_id e). rewrite <- !app_assoc.
  rewrite vlq_decode_encode by done. cbn [result_bind]. rewrite Nat2Z.id, drop_app_length.
  destruct (Nat.ltb_spec (length (manifest_id e ++ concat (encode_entry <$> es) ++ r)) 32) as [Hl|_];
    [rewrite length_app in Hl; lia|].
  rewrite Ez, <- Hm, drop_app_length, take_app_length.
  replace (Z.of_nat (S (length es)) - 1) with (Z.of_nat (length es)) by lia. rewrite IH by lia.
  cbn [result_bind]. by destruct e.
Qed.

Lemma encode_entry_length e : entry_ok e -> (33 <= length (encode_entry e))%nat.
Proof.
  intros [_ Hm]. unfold encode_entry. rewrite length_app, vlq_encode_write. unfold Vlq.write_vlq. rewrite app_nil_l.
  pose proof (Vlq.write_vlq_loop_length 10 (zigzag_encode (entry_height e)) ltac:(lia)). lia.
Qed.

Lemma encode_entries_length es : Forall entry_ok es -> (33 * length es <= length (concat (encode_entry <$> es)))%nat.
Proof.
  induction 1 as [|e es He _ IH]; [done|]. cbn [fmap list_fmap concat length]. rewrite length_app.
  pose proof (encode_entry_length e He). lia.
Qed.

Lemma parse_sized_encode max data :
  Z.of_nat (length (vlq_encode (Z.of_nat (length data)) ++ data)) <= max -> max <= MAX_CHUNK_SIZE ->
  parse_sized max (vlq_encode (Z.of_nat (length data)) ++ data) = Return data.
Proof.
  intros Hl Hm. unfold parse_sized, MAX_CHUNK_SIZE in *. destruct (Z.ltb_spec max (Z.of_nat (length (vlq_encode (Z.of_nat (length data)) ++ data)))) as [|_]; [lia|].
  rewrite length_app in *. rewrite vlq_decode_encode by (int_unfold; lia). cbn [of_result outcome_bind].
  set (n := length (vlq_encode _)) in *. unfold add_u64. rewrite as_u64_small by (int_unfold; lia).
  destruct (Z.ltb_spec (Z.of_nat (n + length data)) (Z.of_nat n + Z.of_nat (length data))) as [|_]; [lia|].
  unfold slice. rewrite length_app. fold n.
  destruct (Z.ltb_spec (Z.of_nat n + Z.of_nat (length data)) (Z.of_nat n)) as [|_]; [lia|].
  destruct (Z.ltb_spec (Z.of_nat (n + length data)) (Z.of_nat n + Z.of_nat (length data))) as [|_]; [lia|]. cbn [orb].
  rewrite Nat2Z.id. unfold n. rewrite drop_app_length. f_equal. apply take_ge. lia.
Qed.

Lemma parse_id_ok id : length id = 32%nat -> parse_id id = Return id.
Proof. intros Hl. unfold parse_id. rewrite Hl. cbn [Nat.ltb Nat.leb]. by rewrite take_ge by lia. Qed.

(** every snapshot message of the exchange survives its encoding. *)
Theorem snap_roundtrip `{Memory} m :
  message_ok m -> let '(code, body) := snap_encode m in
  is_snapshot_code code = true /\ snap_parse code body = Return m.
Proof.
  intros Hm. destruct m as [|es|id|data|id|data]; cbn [snap_encode]; (split; [done|]); unfold snap_parse; cbn [Z.eqb].
  - done.
  - destruct Hm as [Hes Hl]. cbn [snap_encode snd] in Hl. unfold outcome_map, parse_info.
    pose proof (encode_entries_length es Hes) as Hlen. pose proof Hl as Hl'. rewrite length_app in Hl'.
    unfold MAX_SNAPSHOTS_INFO_SIZE in *.
    destruct (Z.ltb_spec 20000 (Z.of_nat (length (vlq_encode (Z.of_nat (length es)) ++ concat (encode_entry <$> es))))) as [|_]; [lia|].
    rewrite vlq_decode_encode by (int_unfold; lia). cbn [of_result outcome_bind]. unfold with_capacity.
    destruct (Z.ltb_spec I64_MAX (36 * Z.of_nat (length es))) as [Hc|_]; [unfold I64_MAX in Hc; lia|].
    rewrite small_allocations by lia. cbn [orb negb outcome_bind].
    rewrite Nat2Z.id, drop_app_length. rewrite <- (app_nil_r (concat _)) at 2.
    rewrite parse_entries_encode; [done|done|rewrite length_app; lia].
  - unfold outcome_map. by rewrite (parse_id_ok _ Hm).
  - unfold outcome_map. by rewrite (parse_sized_encode _ _ Hm).
  - unfold outcome_map. by rewrite (parse_id_ok _ Hm).
  - unfold outcome_map. by rewrite (parse_sized_encode _ _ Hm).
Qed.

(** A machine with a gigabyte. *)
Definition gigabyte : Memory.
Proof. refine {| allocatable n := n <=? 2 ^ 30 |}. intros n Hn. apply Z.leb_le. lia. Defined.

Lemma snap_roundtrip_witness :
  snap_parse (H := gigabyte) SNAPSHOTS_INFO (snap_encode (SnapshotsInfo [mk_entry 800000 (replicate 32 7)])).2 =
    Return (SnapshotsInfo [mk_entry 800000 (replicate 32 7)]).
Proof.
  apply (snap_roundtrip (H := gigabyte) (SnapshotsInfo [mk_entry 800000 (replicate 32 7)])).
  split; [|by vm_compute]. apply Forall_singleton. by split.
Defined.

(** ** Panics *)

Lemma parse_sized_panics max body :
  max <= MAX_CHUNK_SIZE ->
  parse_sized max body = Panic <->
    Z.of_nat (length body) <= max /\ exists len offset, vlq_decode body = Ok (len, offset) /\ U64_MAX < offset + len.
Proof.
  unfold MAX_CHUNK_SIZE. intros Hm. unfold parse_sized. destruct (Z.ltb_spec max (Z.of_nat (length body))) as [|Hl]; [split; [done|lia]|].
  destruct (vlq_decode body) as [[len offset]|] eqn:E; cbn [of_result outcome_bind]; [|split; [done|naive_solver]].
  apply vlq_decode_range in E as [Hlen Hoff]. unfold add_u64, slice.
  assert (offset + len <= U64_MAX /\ as_u64 (offset + len) = offset + len \/
          U64_MAX < offset + len /\ as_u64 (offset + len) = offset + len - 2 ^ 64) as [[Hn ->]|[Hn ->]] by int_solve.
  - destruct (Z.ltb_spec (Z.of_nat (length body)) (offset + len)) as [|Hb]; [split; [done|intros (_ & ? & ? & [= <- <-] & ?); lia]|].
    destruct (Z.ltb_spec (offset + len) offset) as [|_]; [int_unfold; lia|]. cbn [orb].
    split; [done|intros (_ & ? & ? & [= <- <-] & ?); lia].
  - destruct (Z.ltb_spec (Z.of_nat (length body)) (offset + len - 2 ^ 64)) as [|_]; [int_unfold; lia|].
    destruct (Z.ltb_spec (offset + len - 2 ^ 64) offset) as [_|]; [|int_unfold; lia]. cbn [orb].
    split; [|done]. intros _. split; [done|]. by exists len, offset.
Qed.

Lemma parse_info_panics `{Memory} body :
  parse_info body = Panic <->
    Z.of_nat (length body) <= MAX_SNAPSHOTS_INFO_SIZE /\
    exists count offset, vlq_decode body = Ok (count, offset) /\
      (I64_MAX < 36 * count \/ allocatable (36 * count) = false).
Proof.
  unfold parse_info. destruct (Z.ltb_spec MAX_SNAPSHOTS_INFO_SIZE (Z.of_nat (length body))) as [|Hl]; [split; [done|lia]|].
  destruct (vlq_decode body) as [[count offset]|] eqn:E; cbn [of_result outcome_bind]; [|split; [done|naive_solver]].
  unfold with_capacity. destruct (Z.ltb_spec I64_MAX (36 * count)); cbn [orb outcome_bind].
  { split; [|done]. intros _. split; [done|]. exists count, offset. auto. }
  destruct (allocatable (36 * count)) eqn:Ea; cbn [negb outcome_bind].
  - split; [by destruct (parse_entries _ _ _)|]. intros (_ & ? & ? & [= <- <-] & [?|?]); [lia|congruence].
  - split; [|done]. intros _. split; [done|]. exists count, offset. auto.
Qed.

Lemma outcome_map_panic {E A B} (f : A -> B) (m : outcome E A) : outcome_map f m = Panic <-> m = Panic.
Proof. by destruct m. Qed.

(** C35: the message bodies that make the parser panic, or the process abort. They are the
    announcements of more entries than a vector can hold or than there is memory for, and
    the manifests and chunks whose announced length overflows when the length of its own
    prefix is added; a body of eleven bytes is enough. Every other body is parsed or
    refused with an error. *)
Theorem snap_parse_panics `{Memory} code body :
  snap_parse code body = Panic <->
    (code = SNAPSHOTS_INFO /\ Z.of_nat (length body) <= MAX_SNAPSHOTS_INFO_SIZE /\
       exists count offset, vlq_decode body = Ok (count, offset) /\
         (I64_MAX < 36 * count \/ allocatable (36 * count) = false)) \/
    ((code = MANIFEST \/ code = UTXO_SNAPSHOT_CHUNK) /\ Z.of_nat (length body) <= MAX_CHUNK_SIZE /\
       exists len offset, vlq_decode body = Ok (len, offset) /\ U64_MAX < offset + len).
Proof.
  unfold snap_parse, GET_SNAPSHOTS_INFO, SNAPSHOTS_INFO, GET_MANIFEST, MANIFEST, GET_UTXO_SNAPSHOT_CHUNK, UTXO_SNAPSHOT_CHUNK.
  assert (forall l, parse_id l <> Panic) as Hid by (intros l; unfold parse_id; by destruct (_ <? _)%nat).
  repeat match goal with |- context [if code =? ?c then _ else _] => destruct (Z.eqb_spec code c) as [->|?] end;
    rewrite ?outcome_map_panic.
  - split; [done|lia].
  - rewrite parse_info_panics. naive_solver lia.
  - split; [by intros []%Hid|lia].
  - rewrite parse_sized_panics by done. change MAX_MANIFEST_SIZE with MAX_CHUNK_SIZE. naive_solver lia.
  - split; [by intros []%Hid|lia].
  - rewrite parse_sized_panics by done. naive_solver lia.
  - split; [done|lia].
Qed.

(** Eleven bytes that do. *)
Lemma snap_panic_example `{Memory} :
  snap_parse UTXO_SNAPSHOT_CHUNK (replicate 9 255 ++ [1; 0]) = Panic /\
  snap_parse SNAPSHOTS_INFO (replicate 9 255 ++ [1]) = Panic.
Proof. by vm_compute. Qed.

End SnapProto.
