(* ===== verification/Snapshot.v ===== *)
(** * Bootstrapping from a snapshot

    src/sync/src/snapshot: the manifest (manifest.rs), the store of downloaded chunks
    (download.rs) and the download itself (mod.rs), from discovery to the nodes handed to
    the state storage. What other peers, the header chain and the clock do is the input of
    these definitions: a round of a loop takes the outcome of its sends, the times it reads
    and the event it waits for. A walk over received bytes is total ([walk_tree_spec] of
    AvlTree); its [None] does not occur. *)

From S2P Require Import Prelude Bytes AvlTree StateStorage SnapshotProtocol.
Import Avl SnapProto.

Module Snap.

Section Code.
Context `{Blake2b} {memory : Memory}.

(** ** The manifest *)

Definition HEADER_SIZE : nat := 2.

Inductive ManifestError :=
  | TreeErr (e : TreeError)
  | ZeroDepth
  | RootHeightMismatch (expected got : Z).

Definition split_state_root (state_root : list Z) : list Z * Z := (take 32 state_root, nth 32 state_root 0).

Definition parse_manifest_header (data : list Z) : result ParseError (Z * Z) :=
  match data with
  | root_height :: manifest_depth :: _ => Ok (root_height, manifest_depth)
  | _ => Err UnexpectedEof
  end.

Definition walk_manifest (manifest_bytes : list Z) (key_length : nat) (expected_root : option (list Z))
    : option (outcome ManifestError (Z * VerifiedTree)) :=
  match parse_manifest_header manifest_bytes with
  | Err e => Some (Fail (TreeErr (Parse e)))
  | Ok (root_height, manifest_depth) =>
      if manifest_depth =? 0 then Some (Fail ZeroDepth)
      else
        match walk_tree (drop HEADER_SIZE manifest_bytes) key_length (Some manifest_depth) expected_root with
        | Some (Return t) => Some (Return (root_height, t))
        | Some (Fail e) => Some (Fail (TreeErr e))
        | Some Panic => Some Panic
        | None => None
        end
  end.

Definition extract_subtree_ids (manifest_bytes : list Z) (key_length : nat)
    : option (outcome ManifestError (list (list Z))) :=
  match walk_manifest manifest_bytes key_length None with
  | Some (Return (_, t)) => Some (Return (subtree_ids t))
  | Some (Fail e) => Some (Fail e)
  | Some Panic => Some Panic
  | None => None
  end.

Record VerifiedManifest := mk_manifest {
  vm_bytes : list Z;
  vm_root_hash : list Z;
  vm_root_height : Z;
  vm_depth : Z;
  vm_subtree_ids : list (list Z);
}.

Definition vm_node_bytes (m : VerifiedManifest) : list Z := drop HEADER_SIZE (vm_bytes m).

Definition vm_nodes (m : VerifiedManifest) : option (outcome ManifestError (list ParsedNode)) :=
  match walk_tree (vm_node_bytes m) KEY_LENGTH (Some (vm_depth m)) (Some (vm_root_hash m)) with
  | Some (Return t) => Some (Return (tree_nodes t))
  | Some (Fail e) => Some (Fail (TreeErr e))
  | Some Panic => Some Panic
  | None => None
  end.

Definition verify_manifest (bytes expected_state_root : list Z) : option (outcome ManifestError VerifiedManifest) :=
  let '(expected_root, expected_height) := split_state_root expected_state_root in
  match walk_manifest bytes KEY_LENGTH (Some expected_root) with
  | Some (Return (root_height, t)) =>
      Some (if root_height =? expected_height
            then Return (mk_manifest bytes (root_label t) root_height (nth 1 bytes 0) (subtree_ids t))
            else Fail (RootHeightMismatch expected_height root_height))
  | Some (Fail e) => Some (Fail e)
  | Some Panic => Some Panic
  | None => None
  end.

(** ** The download store *)

Definition META_MANIFEST_ID : string := "manifest_id".
Definition META_SNAPSHOT_HEIGHT : string := "snapshot_height".
Definition META_MANIFEST_BYTES : string := "manifest_bytes".
Definition META_TOTAL_CHUNKS : string := "total_chunks".

Inductive StoreError := MissingMetadata (key : string) | InvalidMetadata (key : string).

(** The tables of the file. *)
Record DownloadFile := mk_file {
  f_chunks : gmap (list Z) (list Z);
  f_meta : gmap string (list Z);
}.

Record ChunkDownloadStore := mk_store {
  st_file : DownloadFile;
  st_manifest_id : list Z;
  st_height : Z;
  st_total : Z;
}.

(** [create] on the file at the path, if there is one: its chunks stay. *)
Definition store_create (file : option DownloadFile) (manifest_id : list Z) (snapshot_height : Z)
    (manifest_bytes : list Z) (total_chunks : Z) : ChunkDownloadStore :=
  let old := default (mk_file ∅ ∅) file in
  mk_store
    (mk_file (f_chunks old)
       (<[META_TOTAL_CHUNKS := be_bytes 4 total_chunks]>
       (<[META_MANIFEST_BYTES := manifest_bytes]>
       (<[META_SNAPSHOT_HEIGHT := be_bytes 4 snapshot_height]>
       (<[META_MANIFEST_ID := manifest_id]> (f_meta old))))))
    manifest_id snapshot_height total_chunks.

Definition read_meta_fixed (n : nat) (key : string) (f : DownloadFile) : result StoreError (list Z) :=
  let? bytes := ok_or (f_meta f !! key) (MissingMetadata key) in
  if (length bytes =? n)%nat then Ok bytes else Err (InvalidMetadata key).

Definition store_open (f : DownloadFile) : result StoreError ChunkDownloadStore :=
  let? manifest_id := read_meta_fixed 32 META_MANIFEST_ID f in
  let? height := read_meta_fixed 4 META_SNAPSHOT_HEIGHT f in
  let? total := read_meta_fixed 4 META_TOTAL_CHUNKS f in
  Ok (mk_store f manifest_id (from_be height) (from_be total)).

Definition store_chunk (id data : list Z) (s : ChunkDownloadStore) : ChunkDownloadStore :=
  mk_store (mk_file (<[id := data]> (f_chunks (st_file s))) (f_meta (st_file s)))
    (st_manifest_id s) (st_height s) (st_total s).

Definition get_chunk (id : list Z) (s : ChunkDownloadStore) : option (list Z) := f_chunks (st_file s) !! id.

Definition chunk_count (s : ChunkDownloadStore) : Z := as_u32 (Z.of_nat (size (f_chunks (st_file s)))).

Definition store_manifest_bytes (s : ChunkDownloadStore) : result StoreError (list Z) :=
  ok_or (f_meta (st_file s) !! META_MANIFEST_BYTES) (MissingMetadata META_MANIFEST_BYTES).

Definition missing_chunks (ids : list (list Z)) (s : ChunkDownloadStore) : list (list Z) :=
  filter (fun id => get_chunk id s = None) ids.

Definition is_complete (ids : list (list Z)) (s : ChunkDownloadStore) : bool :=
  bool_decide (missing_chunks ids s = []).

(** The keys are copied into 32-byte arrays, which panics for another length. *)
Definition stored_chunk_ids {E} (s : ChunkDownloadStore) : outcome E (list (list Z)) :=
  let ids := (map_to_list (f_chunks (st_file s))).*1 in
  if decide (Forall (fun id => length id = 32%nat) ids) then Return ids else Panic.

(** ** The chunk queue *)

Inductive SnapshotError :=
  | NoPeers | NoQuorum | ManifestDownloadFailed | StoreErr (e : StoreError) | Invalidated
  | ManifestErr (e : ManifestError) | ChunkInvalid (e : TreeError) | ChunkMissing | StreamClosed.

Definition CHUNKS_IN_PARALLEL : nat := 16.
Definition CHUNKS_PER_PEER : nat := 4.

Record ChunkQueue := mk_queue {
  pending : list (list Z);
  in_flight : gmap (list Z) instant;
  rejected_by : gmap (list Z) Z;
}.

Definition queue_new {E} (ids : list (list Z)) (s : ChunkDownloadStore) : outcome E ChunkQueue :=
  let! stored := stored_chunk_ids s in
  Return (mk_queue (filter (fun id => id ∉ stored) ids) ∅ ∅).

Definition is_done (q : ChunkQueue) : bool := bool_decide (pending q = [] /\ in_flight q = ∅).

(** [Vec::swap_remove]. *)
Definition swap_remove {A} (i : nat) (l : list A) : list A :=
  match last l with
  | Some x => take (length l - 1) (<[i := x]> l)
  | None => l
  end.

(** The loop of [take_batch], going down from [i]. *)
Fixpoint take_loop (i : nat) (peer : Z) (sole_peer : bool) (rejected : gmap (list Z) Z)
    (pending batch : list (list Z)) : list (list Z) * list (list Z) :=
  match i with
  | O => (pending, batch)
  | S i' =>
      if (length batch <? CHUNKS_PER_PEER)%nat then
        match pending !! i' with
        | Some id =>
            if sole_peer || bool_decide (rejected !! id <> Some peer)
            then take_loop i' peer sole_peer rejected (swap_remove i' pending) (batch ++ [id])
            else take_loop i' peer sole_peer rejected pending batch
        | None => (pending, batch)
        end
      else (pending, batch)
  end.

Definition take_batch (peer : Z) (sole_peer : bool) (q : ChunkQueue) : ChunkQueue * list (list Z) :=
  let '(rest, batch) := take_loop (length (pending q)) peer sole_peer (rejected_by q) (pending q) [] in
  (mk_queue rest (in_flight q) (rejected_by q), batch).

Definition queue_sent (id : list Z) (now : instant) (q : ChunkQueue) : ChunkQueue :=
  mk_queue (pending q) (<[id := now]> (in_flight q)) (rejected_by q).

Definition queue_unsent (ids : list (list Z)) (q : ChunkQueue) : ChunkQueue :=
  mk_queue (pending q ++ ids) (in_flight q) (rejected_by q).

(** [deliver]: whether a chunk was stored. *)
Definition deliver (peer : Z) (data : list Z) (q : ChunkQueue) (s : ChunkDownloadStore)
    : outcome SnapshotError (bool * ChunkQueue * ChunkDownloadStore) :=
  match parse_node data KEY_LENGTH with
  | Panic => Panic
  | Fail _ => Return (false, q, s)
  | Return (root, _) =>
      let id := parsed_label root in
      match in_flight q !! id with
      | None => Return (false, q, s)
      | Some _ =>
          match verify_chunk data id with
          | Some (Return _) =>
              Return (true, mk_queue (pending q) (delete id (in_flight q)) (rejected_by q), store_chunk id data s)
          | Some (Fail _) =>
              Return (false, mk_queue (pending q ++ [id]) (delete id (in_flight q)) (<[id := peer]> (rejected_by q)), s)
          | Some Panic | None => Panic
          end
      end
  end.

Definition requeue_timed_out (now : instant) (chunk_timeout : duration) (q : ChunkQueue) : ChunkQueue :=
  let timed_out := (map_to_list (filter (fun e : list Z * instant => chunk_timeout < duration_since now e.2)
                                   (in_flight q))).*1 in
  foldl (fun q id => mk_queue (pending q ++ [id]) (delete id (in_flight q)) (rejected_by q)) q timed_out.

(** ** Downloading the chunks *)

(** What the loop waits for: a code-81 message, another one, the end of the stream, or
    nothing within the second. *)
Inductive Event := EvChunk (peer : Z) (body : list Z) | EvOther | EvClosed | EvTimeout.

(** The outcome and the time of the [i]-th send of a round, the event, and the time at the
    end of it. *)
Record Round := mk_round {
  send_works : nat -> bool;
  send_time : nat -> instant;
  round_event : Event;
  check_time : instant;
}.

(** The sends of one batch: the queue, the count of sends so far, whether any worked. *)
Fixpoint send_batch (r : Round) (batch : list (list Z)) (n : nat) (q : ChunkQueue) (sent_any : bool)
    : ChunkQueue * nat * bool :=
  match batch with
  | [] => (q, n, sent_any)
  | id :: batch' =>
      if send_works r n then send_batch r batch' (S n) (queue_sent id (send_time r n) q) true
      else (queue_unsent (id :: batch') q, S n, sent_any)
  end.

(** Filling [in_flight]; the rounds are bounded by [fill_fuel]. *)
Fixpoint fill (fuel : nat) (r : Round) (peers : list Z) (q : ChunkQueue) (peer_idx : nat) (n idle : nat)
    : option (ChunkQueue * nat) :=
  if (size (in_flight q) <? CHUNKS_IN_PARALLEL)%nat && negb (bool_decide (pending q = [])) &&
     (idle <? length peers)%nat
  then
    match fuel with
    | O => None
    | S fuel' =>
        let peer := nth (peer_idx mod length peers) peers 0 in
        let '(q, batch) := take_batch peer (length peers =? 1)%nat q in
        let '(q, n, sent_any) := send_batch r batch n q false in
        fill fuel' r peers q (S peer_idx) n (if sent_any then 0%nat else S idle)
    end
  else Some (q, peer_idx).

Definition fill_fuel (peers : list Z) (q : ChunkQueue) : nat := (S (length (pending q)) * S (length peers))%nat.

Record Download := mk_download {
  dl_queue : ChunkQueue;
  dl_store : ChunkDownloadStore;
  dl_peer_idx : nat;
}.

Inductive Progress := Running (d : Download) | Finished (s : ChunkDownloadStore) | Stopped (e : SnapshotError) (s : ChunkDownloadStore).

(** One round of [download_chunks]. *)
Definition download_round (peers : list Z) (chunk_timeout : duration) (r : Round) (d : Download)
    : outcome SnapshotError Progress :=
  let q := dl_queue d in
  if is_done q then Return (Finished (dl_store d))
  else if negb (bool_decide (pending q = [])) && bool_decide (peers = []) then Return (Stopped NoPeers (dl_store d))
  else
    match fill (fill_fuel peers q) r peers q (dl_peer_idx d) 0 0 with
    | None => Panic
    | Some (q, peer_idx) =>
        match round_event r with
        | EvClosed => Return (Stopped StreamClosed (dl_store d))
        | EvOther | EvTimeout =>
            Return (Running (mk_download (requeue_timed_out (check_time r) chunk_timeout q) (dl_store d) peer_idx))
        | EvChunk peer body =>
            match snap_parse UTXO_SNAPSHOT_CHUNK body with
            | Panic => Panic
            | Return (UtxoSnapshotChunk data) =>
                let! (_, q, s) := deliver peer data q (dl_store d) in
                Return (Running (mk_download (requeue_timed_out (check_time r) chunk_timeout q) s peer_idx))
            | _ =>
                Return (Running (mk_download (requeue_timed_out (check_time r) chunk_timeout q) (dl_store d) peer_idx))
            end
        end
    end.

(** The loop over the rounds: still running when they are used up. *)
Fixpoint download_loop (peers : list Z) (chunk_timeout : duration) (rounds : list Round) (d : Download)
    : outcome SnapshotError Progress :=
  match rounds with
  | [] => Return (Running d)
  | r :: rounds' =>
      let! p := download_round peers chunk_timeout r d in
      match p with
      | Running d => download_loop peers chunk_timeout rounds' d
      | _ => Return p
      end
  end.

(** [download_chunks]. *)
Definition download_chunks (peers : list Z) (chunk_timeout : duration) (rounds : list Round)
    (ids : list (list Z)) (s : ChunkDownloadStore) : outcome SnapshotError Progress :=
  let! q := queue_new ids s in
  download_loop peers chunk_timeout rounds (mk_download q s 0).

(** ** Discovery *)

(** The header's state root at a height, as the chain answers it. *)
Abbreviation chain_view := (Z -> option (list Z)) (only parsing).

Record ValidatedSnapshot := mk_snapshot {
  snap_height : Z;
  snap_manifest_id : list Z;
  snap_peers : list Z;
}.

(** One announced entry. *)
Definition note_entry (chain : chain_view) (peer : Z) (manifests : gmap (list Z) (Z * list Z)) (entry : SnapshotEntry)
    : gmap (list Z) (Z * list Z) :=
  match chain (entry_height entry) with
  | Some state_root =>
      if decide ((split_state_root state_root).1 = manifest_id entry) then
        let '(height, peers) := default (entry_height entry, []) (manifests !! manifest_id entry) in
        <[manifest_id entry := (height, if decide (peer ∈ peers) then peers else peers ++ [peer])]> manifests
      else manifests
  | None => manifests
  end.

(** The highest of the manifests with a quorum; among several of a height, the map's order
    decides. *)
Definition better (a b : option ValidatedSnapshot) : option ValidatedSnapshot :=
  match a, b with
  | Some x, Some y => if snap_height x <=? snap_height y then Some y else Some x
  | None, y => y
  | x, None => x
  end.

Definition quorum (min_peers : Z) (manifests : gmap (list Z) (Z * list Z)) : option ValidatedSnapshot :=
  map_fold (fun id (record : Z * list Z) best =>
      better best (if min_peers <=? as_u32 (Z.of_nat (length record.2))
                   then Some (mk_snapshot record.1 id record.2) else None))
    None manifests.

(** What discovery waits for, with the chain as it is then. *)
Inductive DiscoverEvent := DvInfo (chain : chain_view) (peer : Z) (body : list Z) | DvOther | DvClosed.

(** The loop up to the deadline, where the events end. *)
Fixpoint discover_loop (min_peers : Z) (events : list DiscoverEvent) (manifests : gmap (list Z) (Z * list Z))
    : outcome SnapshotError ValidatedSnapshot :=
  match events with
  | [] => Fail NoQuorum
  | DvClosed :: _ => Fail StreamClosed
  | DvOther :: events' => discover_loop min_peers events' manifests
  | DvInfo chain peer body :: events' =>
      match snap_parse SNAPSHOTS_INFO body with
      | Panic => Panic
      | Return (SnapshotsInfo entries) =>
          let manifests := foldl (note_entry chain peer) manifests entries in
          match quorum min_peers manifests with
          | Some snapshot => Return snapshot
          | None => discover_loop min_peers events' manifests
          end
      | _ => discover_loop min_peers events' manifests
      end
  end.

Definition discover_snapshot (outbound : list Z) (min_peers : Z) (events : list DiscoverEvent)
    : outcome SnapshotError ValidatedSnapshot :=
  if bool_decide (outbound = []) then Fail NoPeers else discover_loop min_peers events ∅.

(** ** Downloading the manifest *)

Inductive ManifestEvent := MfManifest (peer : Z) (body : list Z) | MfOther | MfClosed.

(** Asking one peer: whether the send works, and the events up to the deadline. *)
Record Attempt := mk_attempt {
  attempt_sends : bool;
  attempt_events : list ManifestEvent;
}.

(** The answer of the peer that was asked; another peer's is ignored. *)
Fixpoint await_manifest (peer : Z) (events : list ManifestEvent) : result SnapshotError (option (list Z)) :=
  match events with
  | [] => Ok None
  | MfClosed :: _ => Err StreamClosed
  | MfOther :: events' => await_manifest peer events'
  | MfManifest from body :: events' => if from =? peer then Ok (Some body) else await_manifest peer events'
  end.

(** The loop over the peers: those kept so far, and those still to ask. *)
Fixpoint manifest_loop (state_root : list Z) (attempts : list Attempt) (kept peers : list Z)
    : outcome SnapshotError VerifiedManifest * list Z :=
  match peers with
  | [] => (Fail ManifestDownloadFailed, kept)
  | peer :: peers' =>
      let attempt := default (mk_attempt false []) (head attempts) in
      if negb (attempt_sends attempt) then manifest_loop state_root (tail attempts) (kept ++ [peer]) peers'
      else
        match await_manifest peer (attempt_events attempt) with
        | Err e => (Fail e, kept ++ peers)
        | Ok None => manifest_loop state_root (tail attempts) (kept ++ [peer]) peers'
        | Ok (Some answer) =>
            match snap_parse MANIFEST answer with
            | Panic => (Panic, kept ++ peers)
            | Return (Manifest data) =>
                match verify_manifest data state_root with
                | Some (Return manifest) => (Return manifest, kept ++ peers)
                | Some (Fail _) => manifest_loop state_root (tail attempts) kept peers'
                | Some Panic | None => (Panic, kept ++ peers)
                end
            | _ => manifest_loop state_root (tail attempts) kept peers'
            end
        end
  end.

(** [download_manifest], with the snapshot's peers as it leaves them. *)
Definition download_manifest (chain : chain_view) (attempts : list Attempt) (snapshot : ValidatedSnapshot)
    : outcome SnapshotError VerifiedManifest * ValidatedSnapshot :=
  match chain (snap_height snapshot) with
  | None => (Fail Invalidated, snapshot)
  | Some state_root =>
      let '(res, peers) := manifest_loop state_root attempts [] (snap_peers snapshot) in
      (res, mk_snapshot (snap_height snapshot) (snap_manifest_id snapshot) peers)
  end.

(** ** Assembly *)

Record SnapshotData := mk_data {
  sd_nodes : list (list Z * list Z);
  sd_root_hash : list Z;
  sd_tree_height : Z;
  sd_snapshot_height : Z;
}.

Fixpoint assemble_chunks (ids : list (list Z)) (s : ChunkDownloadStore)
    : outcome SnapshotError (list (list Z * list Z)) :=
  match ids with
  | [] => Return []
  | id :: ids' =>
      match get_chunk id s with
      | None => Fail ChunkMissing
      | Some data =>
          match verify_chunk data id with
          | Some (Return t) =>
              let! rest := assemble_chunks ids' s in
              Return (map into_parts (tree_nodes t) ++ rest)
          | Some (Fail e) => Fail (ChunkInvalid e)
          | Some Panic | None => Panic
          end
      end
  end.

Definition assemble_snapshot (m : VerifiedManifest) (s : ChunkDownloadStore) (snapshot_height : Z)
    : outcome SnapshotError SnapshotData :=
  match vm_nodes m with
  | Some (Return nodes) =>
      let! chunks := assemble_chunks (vm_subtree_ids m) s in
      Return (mk_data (map into_parts nodes ++ chunks) (vm_root_hash m) (vm_root_height m) snapshot_height)
  | Some (Fail e) => Fail (ManifestErr e)
  | Some Panic | None => Panic
  end.

(** ** The whole bootstrap *)

(** [reopen_download]. *)
Definition reopen_download (chain : chain_view) (f : DownloadFile)
    : outcome SnapshotError (option (ChunkDownloadStore * VerifiedManifest)) :=
  match store_open f with
  | Err _ => Return None
  | Ok s =>
      match chain (st_height s) with
      | None => Return None
      | Some state_root =>
          match store_manifest_bytes s with
          | Err _ => Return None
          | Ok bytes =>
              match verify_manifest bytes state_root with
              | Some (Return m) => Return (Some (s, m))
              | Some (Fail _) => Return None
              | Some Panic | None => Panic
              end
          end
      end
  end.

(** What a run meets: the file left by an earlier one, whether deleting it works, the
    answers of the chain and of the peers in each phase. *)
Record World := mk_world {
  w_file : option DownloadFile;
  w_cleanup : bool;
  w_chain_resume : Z -> option (list Z);
  w_outbound_resume : list Z;
  w_rounds_resume : list Round;
  w_outbound : list Z;
  w_discover : list DiscoverEvent;
  w_chain_manifest : Z -> option (list Z);
  w_attempts : list Attempt;
  w_rounds : list Round;
}.

(** Where a run is after the rounds it was given: waiting for chunks, or returned, with the
    file it leaves. *)
Inductive RunResult := RunWaiting (s : ChunkDownloadStore) | RunReturned (d : SnapshotData).

Definition cleaned (w : World) (f : DownloadFile) : option DownloadFile := if w_cleanup w then None else Some f.

(** The part from discovery on, on the file that is there. *)
Definition run_fresh (min_peers : Z) (chunk_timeout : duration) (w : World) (file : option DownloadFile)
    : outcome SnapshotError RunResult :=
  let! snapshot := discover_snapshot (w_outbound w) min_peers (w_discover w) in
  let '(res, snapshot) := download_manifest (w_chain_manifest w) (w_attempts w) snapshot in
  let! m := res in
  let s := store_create file (vm_root_hash m) (snap_height snapshot) (vm_bytes m)
             (as_u32 (Z.of_nat (length (vm_subtree_ids m)))) in
  let! p := download_chunks (snap_peers snapshot) chunk_timeout (w_rounds w) (vm_subtree_ids m) s in
  match p with
  | Running d => Return (RunWaiting (dl_store d))
  | Stopped e _ => Fail e
  | Finished s =>
      let! data := assemble_snapshot m s (snap_height snapshot) in
      Return (RunReturned data)
  end.

(** [run_snapshot_sync]. *)
Definition run_snapshot_sync (min_peers chunk_timeout_multiplier : Z) (w : World)
    : outcome SnapshotError RunResult :=
  let chunk_timeout := from_secs (chunk_timeout_multiplier * 10) in
  match w_file w with
  | None => run_fresh min_peers chunk_timeout w None
  | Some f =>
      let! resumed := reopen_download (w_chain_resume w) f in
      match resumed with
      | None => run_fresh min_peers chunk_timeout w (cleaned w f)
      | Some (s, m) =>
          let! p := if is_complete (vm_subtree_ids m) s then Return (Finished s)
                    else download_chunks (w_outbound_resume w) chunk_timeout (w_rounds_resume w) (vm_subtree_ids m) s in
          match p with
          | Running d => Return (RunWaiting (dl_store d))
          | Stopped e _ => Fail e
          | Finished s =>
              match assemble_snapshot m s (st_height s) with
              | Return data => Return (RunReturned data)
              | Fail _ => run_fresh min_peers chunk_timeout w (cleaned w (st_file s))
              | Panic => Panic
              end
          end
      end
  end.

(** ** Loading the data into the state *)

(** What main.rs does with the data: it is checked against the header at its height once
    more, loaded into the state file, and its root read back. [None] leaves the file as it
    is. *)
Definition install_snapshot (header_root : option (list Z)) (data : SnapshotData) (file : State.Db)
    : outcome State.storage_error (option (State.Storage * (list Z * Z))) :=
  let matches :=
    match header_root with
    | Some root => bool_decide (take 32 root = sd_root_hash data) && (nth 32 root 0 =? sd_tree_height data)
    | None => false
    end in
  if negb matches then Return None
  else
    let! storage := of_result (State.open file 256) in
    let version := sd_root_hash data ++ [sd_tree_height data] in
    let storage := State.load_snapshot (sd_nodes data) (sd_root_hash data) (sd_tree_height data) version
                     (sd_snapshot_height data) storage in
    let '(res, storage) := State.rollback version storage in
    let! root := res in
    Return (Some (storage, root)).

End Code.

End Snap.
