(* ===== verification/SnapshotInv.v ===== *)
(** * What a bootstrap guarantees

    The theorems about Snapshot: what a verified manifest and an assembled snapshot are,
    that a finished bootstrap yields the tree of the header's state root whatever the peers
    sent, that a dumped tree bootstraps another node, and that the download makes progress
    as long as some peer answers. *)

From S2P Require Import Prelude Bytes AvlTree StateStorage StateStorageInv StateReader SnapshotProtocol Snapshot.
Import Avl State Reader SnapProto Snap.

Module SnapInv.

Section Props.
Context `{Blake2bLaws} {memory : Memory}.

(** ** The manifest *)

(** What a verified manifest is. *)
Definition manifest_of (m : VerifiedManifest) (state_root : list Z) (t : tree) : Prop :=
  vm_bytes m = vm_root_height m :: vm_depth m :: stream t /\ vm_depth m <> 0 /\
  wf t /\ cut_at (Some (vm_depth m)) 1 t /\ label t = take 32 state_root /\ vm_root_hash m = label t /\
  vm_root_height m = nth 32 state_root 0 /\ vm_subtree_ids m = stubs t.

Lemma verify_manifest_spec bytes state_root :
  bytes_ok bytes ->
  exists r, verify_manifest bytes state_root = Some r /\ r <> Panic /\
    (forall m, r = Return m <-> vm_bytes m = bytes /\ exists t, manifest_of m state_root t).
Proof.
  intros Hok. unfold verify_manifest, split_state_root, walk_manifest.
  assert (forall m t, manifest_of m state_root t -> exists a b l, vm_bytes m = a :: b :: l /\ b <> 0) as Hshape
    by (intros m t (E & Hd & _); eauto).
  destruct bytes as [|h [|d l]]; cbn [parse_manifest_header].
  1,2: eexists; split; [done|]; split; [done|]; intros m; split; [done|];
    intros [E (t & (a & b & l' & E' & _)%Hshape)]; congruence.
  destruct (Z.eqb_spec d 0) as [->|Hd].
  { eexists. split; [done|]. split; [done|]. intros m. split; [done|].
    intros [E (t & (a & b & l' & E' & ?)%Hshape)]. congruence. }
  change (drop HEADER_SIZE (h :: d :: l)) with l. change (nth 1 (h :: d :: l) 0) with d. apply Forall_cons in Hok as [_ [_ Hok]%Forall_cons].
  destruct (walk_tree_spec l (Some d) (Some (take 32 state_root)) Hok) as (r & -> & Hnp & Hr).
  assert (forall m t, vm_bytes m = h :: d :: l -> manifest_of m state_root t ->
            h = nth 32 state_root 0 /\ r = Return (mk_verified (label t) (stubs t) (parsed_nodes t))) as Hinv.
  { intros m t Eb (E & _ & Hwf & Hcut & Hl & _ & Hh & _). rewrite Eb in E. injection E as E1 E2 ->.
    split; [congruence|]. apply Hr. exists t. rewrite <- E2 in Hcut. split_and!; try done. by intros e [= <-]. }
  destruct r as [vt|e|]; [| |done].
  2:{ eexists. split; [done|]. split; [done|]. intros m. split; [done|]. intros [Eb (t & Hm)].
      by destruct (Hinv m t Eb Hm). }
  destruct (proj1 (Hr vt) eq_refl) as (t & Hwf & Hcut & He & -> & ->). cbn [root_label subtree_ids].
  eexists. split; [done|]. destruct (Z.eqb_spec h (nth 32 state_root 0)) as [Eh|Eh]; (split; [done|]); intros m; split.
  - intros [= <-]. split; [done|]. exists t. split_and!; try done. by apply He.
  - intros [Eb (t' & Hm)]. destruct (Hinv m t' Eb Hm) as [_ [= E1 E2 E3]].
    destruct Hm as (E & _ & _ & _ & _ & E4 & E5 & E6). rewrite Eb in E. injection E as E7 E8 _.
    destruct m; cbn in *; subst. f_equal; f_equal; congruence.
  - done.
  - intros [Eb (t' & Hm)]. by destruct (Hinv m t' Eb Hm).
Qed.

(** ** Assembly *)

(** A tree whose gaps are filled, in order. *)
Lemma graft t b d us :
  wf t -> cut_at b d t -> Forall2 (fun s u => label u = s /\ wf u /\ whole u) (stubs t) us ->
  exists T, wf T /\ whole T /\ label T = label t /\ packed_nodes T ≡ₚ packed_nodes t ++ concat (packed_nodes <$> us).
Proof.
  enough (forall t us, wf t -> Forall2 (fun s u => label u = s /\ wf u /\ whole u) (stubs t) us ->
    exists T, wf T /\ whole T /\ label T = label t /\ packed_nodes T ≡ₚ packed_nodes t ++ concat (packed_nodes <$> us)) as Hg by eauto.
  clear. induction t as [k v n|b k l IHl r IHr|lbl]; intros us Hwf Hus; cbn [stubs] in Hus.
  - apply Forall2_nil_inv_l in Hus as ->. exists (Leaf k v n). by rewrite app_nil_r.
  - apply Forall2_app_inv_l in Hus as (us1 & us2 & Hus1 & Hus2 & ->). destruct Hwf as (Hb & Hk & Hwl & Hwr).
    destruct (IHl _ Hwl Hus1) as (L & HLw & HLW & HLl & HLp). destruct (IHr _ Hwr Hus2) as (R & HRw & HRW & HRl & HRp).
    exists (Node b k L R). cbn [wf whole label packed_nodes pack]. rewrite HLl, HRl, HLp, HRp. split_and!; try done.
    rewrite fmap_app, concat_app. cbn [app]. apply Permutation_skip. solve_Permutation.
  - apply Forall2_cons_inv_l in Hus as (u & us' & (Hl & Hw & HW) & Hus & ->). apply Forall2_nil_inv_l in Hus as ->.
    exists u. cbn [packed_nodes fmap list_fmap concat app label]. by rewrite app_nil_r.
Qed.

Lemma parts_nodes t : map into_parts (parsed_nodes t) = packed_nodes t.
Proof.
  induction t as [|b k l IHl r IHr|]; cbn [parsed_nodes packed_nodes map]; [done| |done]. by rewrite map_app, IHl, IHr.
Qed.

Definition chunks_bytes (s : ChunkDownloadStore) : Prop := map_Forall (fun _ b => bytes_ok b) (f_chunks (st_file s)).

Lemma cut_none_whole d t : cut_at None d t -> whole t.
Proof. revert d. induction t; intros d; cbn [cut_at whole]; [done| |done]. rewrite decide_False by done. naive_solver. Qed.

Lemma whole_cut_none d t : whole t -> cut_at None d t.
Proof. revert d. induction t; intros d; cbn [cut_at whole]; [done| |done]. rewrite decide_False by done. naive_solver. Qed.

(** The stored chunk of an id is the stream of a whole tree with that label. *)
Definition good_chunk (s : ChunkDownloadStore) (id : list Z) (u : tree) : Prop :=
  label u = id /\ wf u /\ whole u /\ get_chunk id s = Some (stream u).

Lemma assemble_chunks_spec ids s :
  chunks_bytes s ->
  exists r, assemble_chunks ids s = r /\ r <> Panic /\
    (forall nodes, r = Return nodes <-> exists us, Forall2 (good_chunk s) ids us /\ nodes = concat (packed_nodes <$> us)).
Proof.
  intros Hok. eexists. split; [done|]. induction ids as [|id ids [IHp IH]]; cbn [assemble_chunks].
  { split; [done|]. intros nodes. split; [intros [= <-]; by exists []|]. by intros (us & ->%Forall2_nil_inv_l & ->). }
  destruct (get_chunk id s) as [data|] eqn:Eg.
  2:{ split; [done|]. intros nodes. split; [done|]. intros (us & Hus & _).
      apply Forall2_cons_inv_l in Hus as (u & us' & (_ & _ & _ & Hg) & _). congruence. }
  unfold verify_chunk. destruct (walk_tree_spec data None (Some id) (Hok _ _ Eg)) as (r & -> & Hnp & Hr).
  assert (forall u, good_chunk s id u -> r = Return (mk_verified (label u) (stubs u) (parsed_nodes u))) as Hinv.
  { intros u (Hl & Hw & HW & Hg). apply Hr. exists u. split_and!; try done; [by apply whole_cut_none|by intros e [= <-]|congruence]. }
  destruct r as [vt|e|]; [| |done].
  2:{ split; [done|]. intros nodes. split; [done|]. intros (us & Hus & _).
      apply Forall2_cons_inv_l in Hus as (u & us' & Hu & _). by apply Hinv in Hu. }
  destruct (proj1 (Hr vt) eq_refl) as (u & Hwf & Hcut & He & -> & ->). cbn [tree_nodes]. rewrite parts_nodes.
  assert (good_chunk s id u) as Hgu by (split_and!; [by apply He|done|by eapply cut_none_whole|done]).
  destruct (assemble_chunks ids s) as [rest|e|]; cbn [outcome_bind]; [| |done].
  - split; [done|]. destruct (proj1 (IH rest) eq_refl) as (us & Hus & ->). intros nodes. split.
    + intros [= <-]. exists (u :: us). by split; [constructor|].
    + intros (us' & Hus' & ->). apply Forall2_cons_inv_l in Hus' as (u' & us'' & Hu' & Hus'' & ->).
      apply Hinv in Hu'. injection Hu' as _ _ Ep. apply (f_equal (map into_parts)) in Ep. rewrite !parts_nodes in Ep.
      cbn [fmap list_fmap concat]. rewrite Ep. f_equal. f_equal.
      assert (@Return SnapshotError _ (concat (packed_nodes <$> us)) = Return (concat (packed_nodes <$> us''))) as [= E]
        by (apply IH; by exists us''). done.
  - split; [done|]. intros nodes. split; [done|]. intros (us & Hus & _).
    apply Forall2_cons_inv_l in Hus as (u' & us' & _ & Hus & _).
    assert (@Fail SnapshotError _ e = Return (concat (packed_nodes <$> us'))) by (apply IH; by exists us'). done.
Qed.

(** An assembled snapshot is a whole tree with the manifest's root. *)
Definition snapshot_of (data : SnapshotData) (state_root : list Z) (T : tree) : Prop :=
  wf T /\ whole T /\ label T = take 32 state_root /\ sd_root_hash data = label T /\
  sd_tree_height data = nth 32 state_root 0 /\ sd_nodes data ≡ₚ packed_nodes T.

Lemma vm_nodes_spec m state_root t :
  manifest_of m state_root t -> vm_nodes m = Some (Return (parsed_nodes t)).
Proof.
  intros (Eb & Hd & Hwf & Hcut & Hl & Hr & _). unfold vm_nodes, vm_node_bytes. rewrite Eb, Hr.
  change (drop HEADER_SIZE (vm_root_height m :: vm_depth m :: stream t)) with (stream t).
  rewrite walk_tree_complete; [done..|]. by intros e [= <-].
Qed.

Lemma assemble_spec m s height state_root t :
  manifest_of m state_root t -> chunks_bytes s ->
  exists r, assemble_snapshot m s height = r /\ r <> Panic /\
    (forall data, r = Return data <->
       exists us, Forall2 (good_chunk s) (stubs t) us /\
         data = mk_data (packed_nodes t ++ concat (packed_nodes <$> us)) (label t) (vm_root_height m) height).
Proof.
  intros Hm Hok. eexists. split; [done|]. unfold assemble_snapshot. rewrite (vm_nodes_spec _ _ _ Hm), parts_nodes.
  destruct Hm as (_ & _ & _ & _ & _ & Hr & _ & ->). rewrite Hr.
  destruct (assemble_chunks_spec (stubs t) s Hok) as (r & -> & Hnp & Hs).
  destruct r as [nodes|e|]; cbn [outcome_bind]; [| |done]; (split; [done|]); intros data; split.
  - intros [= <-]. destruct (proj1 (Hs nodes) eq_refl) as (us & Hus & ->). by exists us.
  - intros (us & Hus & ->).
    assert (@Return SnapshotError _ nodes = Return (concat (packed_nodes <$> us))) as [= ->] by (apply Hs; by exists us). done.
  - done.
  - intros (us & Hus & _). assert (@Fail SnapshotError _ e = Return (concat (packed_nodes <$> us))) by (apply Hs; by exists us). done.
Qed.

Lemma assembled_snapshot m s height state_root data t :
  manifest_of m state_root t -> chunks_bytes s -> assemble_snapshot m s height = Return data ->
  sd_snapshot_height data = height /\ exists T, snapshot_of data state_root T.
Proof.
  intros Hm Hok E. destruct (assemble_spec m s height state_root t Hm Hok) as (r & Er & _ & Hr).
  rewrite E in Er. subst r. destruct (proj1 (Hr data) eq_refl) as (us & Hus & ->). split; [done|].
  destruct Hm as (_ & _ & Hwf & Hcut & Hl & Hrh & Hh & _).
  destruct (graft t _ _ us Hwf Hcut) as (T & HTw & HTW & HTl & HTp).
  { eapply Forall2_impl; [exact Hus|]. by intros ? ? (? & ? & ? & _). }
  exists T. split_and!; try done; cbn; try congruence.
Qed.

(** ** The labels bind the tree *)

(** A tree up to the keys of its internal nodes, which no label covers. *)
Fixpoint same_tree (t t' : tree) : Prop :=
  match t, t' with
  | Leaf k v n, Leaf k' v' n' => k = k' /\ v = v' /\ n = n'
  | Node b _ l r, Node b' _ l' r' => b = b' /\ same_tree l l' /\ same_tree r r'
  | _, _ => False
  end.

(** The strings that are hashed for the labels of a tree. *)
Fixpoint hashed (t : tree) : list (list Z) :=
  match t with
  | Leaf k v n => [LABEL_LEAF_PREFIX :: k ++ v ++ n]
  | Node b _ l r => (LABEL_INTERNAL_PREFIX :: as_u8 b :: label l ++ label r) :: hashed l ++ hashed r
  | Stub _ => []
  end.

(** Two nodes, one of each tree, are different strings with the same hash. *)
Definition node_collision (t t' : tree) : Prop :=
  exists x y, x ∈ hashed t /\ y ∈ hashed t' /\ x <> y /\ blake2b x = blake2b y.

Lemma node_collision_below b k l r b' k' l' r' :
  node_collision l l' \/ node_collision r r' -> node_collision (Node b k l r) (Node b' k' l' r').
Proof.
  intros [(x & y & Hx & Hy & Hc)|(x & y & Hx & Hy & Hc)]; exists x, y; cbn [hashed];
    (split_and!; [right; apply elem_of_app; auto..|apply Hc|apply Hc]).
Qed.

(** The root's string. *)
Definition root_bytes (t : tree) : list Z := nth 0 (hashed t) [].

Lemma root_hashed t : whole t -> root_bytes t ∈ hashed t /\ label t = blake2b (root_bytes t).
Proof. destruct t; [by split; [left|]..|done]. Qed.

Lemma roots_bind t t' :
  whole t -> whole t' -> label t = label t' -> root_bytes t = root_bytes t' \/ node_collision t t'.
Proof.
  intros HW HW' E. destruct (root_hashed t HW) as [Hi El], (root_hashed t' HW') as [Hi' El'].
  destruct (decide (root_bytes t = root_bytes t')) as [|Hne]; [by left|]. right. exists (root_bytes t), (root_bytes t').
  split_and!; try done. congruence.
Qed.

Lemma same_leaves t t' : same_tree t t' -> leaves t = leaves t'.
Proof.
  revert t'. induction t as [k v n|b k l IHl r IHr|]; intros [k' v' n'|b' k' l' r'|]; cbn [same_tree leaves]; try done.
  - by intros (-> & -> & ->).
  - intros (_ & Hl & Hr). by rewrite (IHl _ Hl), (IHr _ Hr).
Qed.

Lemma as_u8_inj b b' : is_i8 b -> is_i8 b' -> as_u8 b = as_u8 b' -> b = b'.
Proof. intros Hb Hb' E. by rewrite <- (as_i8_u8 b Hb), <- (as_i8_u8 b' Hb'), E. Qed.

Lemma label_binds t t' :
  wf t -> whole t -> wf t' -> whole t' -> label t = label t' -> same_tree t t' \/ node_collision t t'.
Proof.
  revert t'. induction t as [k v n|b k l IHl r IHr|]; intros [k' v' n'|b' k' l' r'|] Hw HW Hw' HW' E; try done;
    (destruct (roots_bind _ _ HW HW' E) as [Er|]; [clear E; rename Er into E|by right]);
    unfold root_bytes in E; cbn [hashed nth] in E; unfold LABEL_LEAF_PREFIX, LABEL_INTERNAL_PREFIX in E; try discriminate E.
  - left. injection E as E. destruct Hw as (Hk & Hn & _), Hw' as (Hk' & Hn' & _).
    apply app_inj_1 in E as [-> E]; [|lia]. apply app_inj_2 in E as [-> ->]; [done|lia].
  - injection E as Eb E. destruct Hw as (Hb & _ & Hwl & Hwr), Hw' as (Hb' & _ & Hwl' & Hwr'), HW as [HWl HWr], HW' as [HWl' HWr'].
    apply app_inj_1 in E as [El Er]; [|by rewrite !label_length].
    destruct (IHl l') as [Hl|]; try done; [|right; apply node_collision_below; auto].
    destruct (IHr r') as [Hr|]; try done; [|right; apply node_collision_below; auto].
    left. split; [by apply as_u8_inj|done].
Qed.

(** ** The queue *)

(** An id is held while it is to be asked for, or asked for. *)
Definition held (q : ChunkQueue) (id : list Z) : Prop := id ∈ pending q \/ is_Some (in_flight q !! id).

Definition load (q : ChunkQueue) : nat := (length (pending q) + size (in_flight q))%nat.

Lemma swap_remove_perm {A} i (l : list A) x : l !! i = Some x -> l ≡ₚ x :: swap_remove i l.
Proof.
  intros Hi. unfold swap_remove. destruct l as [|y l'] using rev_ind; [done|]. clear IHl'.
  rewrite last_snoc, length_app. cbn [length]. replace (length l' + 1 - 1)%nat with (length l') by lia.
  apply lookup_app_Some in Hi as [Hi|[Hi Hx]].
  - rewrite insert_app_l by (by eapply lookup_lt_Some).
    replace (length l') with (length (<[i:=y]> l')) by apply length_insert. rewrite take_app_length.
    rewrite <- (list_insert_id l' i x) at 1 by done. rewrite !insert_take_drop by (by eapply lookup_lt_Some).
    solve_Permutation.
  - destruct (i - length l')%nat eqn:E; [|done]. injection Hx as ->. replace i with (length l' + 0)%nat by lia.
    rewrite insert_app_r. cbn. rewrite take_app_length. by rewrite Permutation_app_comm.
Qed.

Lemma take_loop_perm i peer sole rejected p batch p' batch' :
  (i <= length p)%nat -> take_loop i peer sole rejected p batch = (p', batch') -> p ++ batch ≡ₚ p' ++ batch'.
Proof.
  revert p batch. induction i as [|i IH]; intros p batch Hi; cbn [take_loop]; [by intros [= <- <-]|].
  destruct (_ <? _)%nat; [|by intros [= <- <-]].
  destruct (p !! i) as [id|] eqn:Ei; [|by intros [= <- <-]].
  destruct (sole || _); [|apply IH; lia]. pose proof (swap_remove_perm _ _ _ Ei) as Hp.
  intros E. apply IH in E.
  { etransitivity; [|exact E]. transitivity ((id :: swap_remove i p) ++ batch); [by apply Permutation_app_tail|].
    generalize (swap_remove i p). intros l. cbn [app]. rewrite app_assoc, (Permutation_app_comm _ [id]). done. }
  apply Permutation_length in Hp. cbn in Hp. lia.
Qed.

(** A batch is empty only if nothing pending may be asked of the peer. *)
Lemma take_loop_grows i peer sole rejected p batch :
  exists more, (take_loop i peer sole rejected p batch).2 = batch ++ more.
Proof.
  revert p batch. induction i as [|i IH]; intros p batch; cbn [take_loop]; [by exists []; rewrite app_nil_r|].
  destruct (_ <? _)%nat; [|by exists []; rewrite app_nil_r].
  destruct (p !! i) as [id|]; [|by exists []; rewrite app_nil_r].
  destruct (sole || _); [|apply IH]. destruct (IH (swap_remove i p) (batch ++ [id])) as [more ->].
  exists (id :: more). by rewrite <- app_assoc.
Qed.

Lemma take_loop_empty i peer sole rejected p :
  (i <= length p)%nat -> (take_loop i peer sole rejected p []).2 = [] ->
  take_loop i peer sole rejected p [] = (p, []) /\
  (forall j id, (j < i)%nat -> p !! j = Some id -> sole = false /\ rejected !! id = Some peer).
Proof.
  induction i as [|i IH]; intros Hi; cbn [take_loop length]; [split; [done|lia]|].
  change (0 <? CHUNKS_PER_PEER)%nat with true. cbn iota.
  destruct (lookup_lt_is_Some_2 p i) as [id Ei]; [lia|]. rewrite Ei.
  destruct (sole || bool_decide (rejected !! id <> Some peer)) eqn:Eb.
  - destruct (take_loop_grows i peer sole rejected (swap_remove i p) ([] ++ [id])) as [more ->]. done.
  - intros E. destruct (IH ltac:(lia) E) as [-> Hj]. split; [done|].
    apply orb_false_iff in Eb as [-> Eb%bool_decide_eq_false]. intros j id' Hlt Hid.
    destruct (decide (j = i)) as [->|]; [|apply (Hj j); [lia|done]].
    rewrite Hid in Ei. injection Ei as ->. split; [done|]. destruct (decide (rejected !! id = Some peer)); tauto.
Qed.

Lemma take_batch_perm peer sole q q' batch :
  take_batch peer sole q = (q', batch) ->
  pending q ≡ₚ pending q' ++ batch /\ in_flight q' = in_flight q /\ rejected_by q' = rejected_by q.
Proof.
  unfold take_batch. destruct (take_loop _ _ _ _ _ _) as [rest b] eqn:E. intros [= <- <-].
  apply take_loop_perm in E; [|done]. by rewrite app_nil_r in E.
Qed.

Lemma take_batch_empty peer sole q q' :
  take_batch peer sole q = (q', []) ->
  q' = q /\ (forall id, id ∈ pending q -> sole = false /\ rejected_by q !! id = Some peer).
Proof.
  unfold take_batch. destruct (take_loop _ _ _ _ _ _) as [rest b] eqn:E. intros [= <- ->].
  destruct (take_loop_empty (length (pending q)) peer sole (rejected_by q) (pending q)) as [E' Hr]; [done|by rewrite E|].
  rewrite E in E'. injection E' as ->. split; [by destruct q|].
  intros id (j & Hj)%list_elem_of_lookup. apply (Hr j); [by eapply lookup_lt_Some|done].
Qed.

Lemma insert_size_le (id : list Z) (now : instant) (m : gmap (list Z) instant) : (size m <= size (<[id := now]> m) <= S (size m))%nat.
Proof.
  destruct (m !! id) as [x|] eqn:E.
  - rewrite map_size_insert_Some by eauto. lia.
  - rewrite map_size_insert_None by done. lia.
Qed.

(** The sends of a batch neither lose an id nor add one. *)
Lemma send_batch_spec r batch n q sa q' n' sa' :
  send_batch r batch n q sa = (q', n', sa') ->
  (forall id, held q' id <-> held q id \/ id ∈ batch) /\
  (load q' <= load q + length batch)%nat /\
  (size (in_flight q) <= size (in_flight q'))%nat /\ rejected_by q' = rejected_by q /\
  (length (pending q') <= length (pending q) + length batch)%nat /\
  (sa' = true -> sa = true \/ (length (pending q') < length (pending q) + length batch)%nat).
Proof.
  revert n q sa. induction batch as [|id batch IH]; intros n q sa; cbn [send_batch length].
  - intros [= <- _ <-]. split_and!; [|lia|lia|done|lia|by left]. intros id. rewrite elem_of_nil. tauto.
  - destruct (send_works r n).
    + intros E. apply IH in E as (Hh & Hl & Hs & Hrej & Hp & Hsa). unfold load in *. cbn [queue_sent pending in_flight rejected_by] in *.
      pose proof (insert_size_le id (send_time r n) (in_flight q)) as [Hs1 Hs2].
      split_and!; [|lia|lia|done|lia|intros _; right; lia].
      intros id'. rewrite Hh, elem_of_cons. unfold held. cbn [queue_sent pending in_flight].
      destruct (decide (id' = id)) as [->|Hne]; [rewrite lookup_insert_eq; naive_solver|].
      rewrite lookup_insert_ne by done. naive_solver.
    + intros [= <- _ <-]. unfold load, held. cbn [queue_unsent pending in_flight rejected_by].
      rewrite length_app. cbn [length]. split_and!; [|lia|lia|done|lia|by left].
      intros id'. rewrite elem_of_app. tauto.
Qed.

(** When the sends work, a batch goes out whole. *)
Lemma send_batch_works r batch n q sa :
  (forall i, send_works r i = true) -> batch <> [] ->
  exists q' n', send_batch r batch n q sa = (q', n', true) /\ in_flight q' <> ∅.
Proof.
  intros Hw. revert n q sa. induction batch as [|id batch IH]; intros n q sa Hne; [done|].
  cbn [send_batch]. rewrite Hw. destruct batch as [|id' batch].
  - cbn [send_batch]. eexists _, _. split; [done|]. cbn. apply insert_non_empty.
  - by apply IH.
Qed.

(** One turn of the filling loop. *)
Lemma fill_turn r peer sole q n q1 batch q2 n2 sent :
  take_batch peer sole q = (q1, batch) -> send_batch r batch n q1 false = (q2, n2, sent) ->
  (forall id, held q2 id <-> held q id) /\ (load q2 <= load q)%nat /\
  (size (in_flight q) <= size (in_flight q2))%nat /\ (length (pending q2) <= length (pending q))%nat /\
  (sent = true -> (length (pending q2) < length (pending q))%nat).
Proof.
  intros (Hp & Hf & Hr)%take_batch_perm (Hh & Hl & Hs & _ & Hlp & Hsent)%send_batch_spec.
  pose proof (Permutation_length Hp) as Hlen. rewrite length_app in Hlen. unfold load in *.
  rewrite Hf in *. split_and!; try lia.
  - intros id. rewrite Hh. unfold held. rewrite Hp, elem_of_app, Hf. tauto.
  - intros Hs'. destruct (Hsent Hs'); [done|lia].
Qed.

(** The fuel a filling needs. *)
Definition fill_need (peers : list Z) (q : ChunkQueue) (idle : nat) : nat :=
  (length (pending q) * S (length peers) + (length peers - idle))%nat.

Lemma fill_spec fuel r peers q idx n idle :
  (fill_need peers q idle <= fuel)%nat ->
  exists q' idx', fill fuel r peers q idx n idle = Some (q', idx') /\
    (forall id, held q' id <-> held q id) /\ (load q' <= load q)%nat /\
    (size (in_flight q) <= size (in_flight q'))%nat.
Proof.
  revert q idx n idle. induction fuel as [|fuel IH]; intros q idx n idle Hf; cbn [fill];
    destruct (_ && _) eqn:Ec; try (by eexists _, _; split; [done|]; split_and!; try lia).
  - apply andb_prop in Ec as [[_ Ep]%andb_prop Ei%Nat.ltb_lt]. unfold fill_need in Hf.
    destruct (pending q); [|cbn in Hf; lia]. done.
  - apply andb_prop in Ec as [[_ Ep]%andb_prop Ei%Nat.ltb_lt].
    destruct (take_batch _ _ q) as [q1 batch] eqn:Et. destruct (send_batch r batch n q1 false) as [[q2 n2] sent] eqn:Es.
    destruct (fill_turn _ _ _ _ _ _ _ _ _ _ Et Es) as (Hh & Hl & Hs & Hp & Hsent).
    destruct (IH q2 (S idx) n2 (if sent then 0%nat else S idle)) as (q' & idx' & -> & Hh' & Hl' & Hs').
    { unfold fill_need in *. destruct sent; [specialize (Hsent eq_refl)|]; nia. }
    eexists _, _. split; [done|]. split_and!; try lia. intros id. by rewrite Hh'.
Qed.

Lemma fill_fuel_enough peers q : (fill_need peers q 0 <= fill_fuel peers q)%nat.
Proof. unfold fill_need, fill_fuel. lia. Qed.

Lemma fill_grows fuel r peers q idx n idle q' idx' :
  fill fuel r peers q idx n idle = Some (q', idx') -> (size (in_flight q) <= size (in_flight q'))%nat.
Proof.
  revert q idx n idle. induction fuel as [|fuel IH]; intros q idx n idle; cbn [fill]; destruct (_ && _); try done;
    try by intros [= <- _].
  destruct (take_batch _ _ q) as [q1 batch] eqn:Et. destruct (send_batch r batch n q1 false) as [[q2 n2] sent] eqn:Es.
  destruct (fill_turn _ _ _ _ _ _ _ _ _ _ Et Es) as (_ & _ & Hs & _). intros ?%IH. lia.
Qed.

Lemma next_peer idx (peers : list Z) :
  NoDup peers -> (2 <= length peers)%nat ->
  nth (idx mod length peers) peers 0 <> nth (S idx mod length peers) peers 0.
Proof.
  intros Hnd Hl E. set (n := length peers) in *.
  pose proof (Nat.mod_upper_bound idx n ltac:(lia)) as H1. pose proof (Nat.mod_upper_bound (S idx) n ltac:(lia)) as H2.
  apply NoDup_ListNoDup in Hnd. apply (proj1 (NoDup_nth peers 0) Hnd) in E; [|done..].
  pose proof (Nat.div_mod idx n ltac:(lia)) as E1. pose proof (Nat.div_mod (S idx) n ltac:(lia)) as E2.
  rewrite <- E in E2. assert (n * (S idx / n) = n * (idx / n) + 1)%nat as E3 by lia. clear E1 E2.
  destruct (Nat.le_gt_cases (S idx / n) (idx / n)); nia.
Qed.

(** With a peer to ask and sends that work, a queue that is not done has something in
    flight after the filling: if the first peer may not be asked for anything, the next
    one, who is another peer, may. *)
Lemma fill_progress r peers q idx q' idx' :
  (forall i, send_works r i = true) -> NoDup peers -> peers <> [] -> load q <> 0%nat ->
  fill (fill_fuel peers q) r peers q idx 0 0 = Some (q', idx') -> in_flight q' <> ∅.
Proof.
  intros Hw Hnd Hne Hload Hfill He. apply (f_equal size) in He. rewrite map_size_empty in He.
  pose proof (fill_grows _ _ _ _ _ _ _ _ _ Hfill) as Hg. unfold load in Hload.
  assert (size (in_flight q) = 0%nat) as Hz by lia. destruct (pending q) as [|id ps] eqn:Ep; [cbn in Hload; lia|].
  assert (fill_fuel peers q = S (S (fill_fuel peers q - 2))) as Ef
    by (pose proof (Nat.mul_le_mono 1 (S (length (pending q))) 2 (S (length peers))); unfold fill_fuel;
        destruct peers; [done|cbn [length] in *; lia]).
  assert (forall k idx n idle q0, (size (in_flight q0) = 0)%nat -> pending q0 <> [] -> (idle < length peers)%nat ->
    fill (S k) r peers q0 idx n idle = Some (q', idx') ->
    exists n2, fill k r peers q0 (S idx) n2 (S idle) = Some (q', idx') /\
      (forall id, id ∈ pending q0 -> (length peers =? 1)%nat = false /\
        rejected_by q0 !! id = Some (nth (idx mod length peers) peers 0))) as Hstep.
  { clear - Hw He. intros k idx n idle q0 Hz Hp Hi. cbn [fill]. rewrite Hz. rewrite bool_decide_eq_false_2 by done.
    apply Nat.ltb_lt in Hi. rewrite Hi. cbn [andb negb Nat.ltb Nat.leb CHUNKS_IN_PARALLEL].
    destruct (take_batch _ _ q0) as [q1 batch] eqn:Et. destruct batch as [|b batch].
    - apply take_batch_empty in Et as [-> Hr]. cbn [send_batch]. intros E. eauto.
    - destruct (send_batch_works r (b :: batch) n q1 false Hw ltac:(done)) as (q2 & n2 & -> & Hf).
      intros E%fill_grows. apply map_size_non_empty_iff in Hf. lia. }
  destruct peers as [|p0 peers']; [done|]. rewrite Ef in Hfill.
  apply Hstep in Hfill as (n2 & Hfill & Hr); [|done|by rewrite Ep|cbn; lia].
  destruct (Hr id) as [Hone Hrej]; [rewrite Ep; by left|]. apply Nat.eqb_neq in Hone.
  apply Hstep in Hfill as (n3 & _ & Hr2); [|done|by rewrite Ep|cbn in *; lia].
  destruct (Hr2 id) as [_ Hrej2]; [rewrite Ep; by left|].
  apply (next_peer idx (p0 :: peers')); [done|cbn in *; lia|congruence].
Qed.

Lemma requeue_list l q :
  NoDup l -> (forall id, id ∈ l -> is_Some (in_flight q !! id)) ->
  let q' := foldl (fun q id => mk_queue (pending q ++ [id]) (delete id (in_flight q)) (rejected_by q)) q l in
  (forall id, held q' id <-> held q id) /\ load q' = load q.
Proof.
  revert q. induction l as [|x l IH]; intros q Hnd Hin; [done|]. cbn [foldl]. apply NoDup_cons in Hnd as [Hx Hnd].
  destruct (IH (mk_queue (pending q ++ [x]) (delete x (in_flight q)) (rejected_by q)) Hnd) as [Hh Hl].
  - intros id Hid. cbn. rewrite lookup_delete_ne by (intros ->; done). apply Hin. by right.
  - split.
    + intros id. rewrite Hh. unfold held. cbn [pending in_flight]. rewrite elem_of_app, list_elem_of_singleton.
      destruct (decide (id = x)) as [->|Hne]; [|rewrite lookup_delete_ne by done; tauto].
      rewrite lookup_delete_eq. pose proof (Hin x ltac:(by left)). tauto.
    + rewrite Hl. unfold load. cbn [pending in_flight]. rewrite length_app. cbn [length].
      destruct (Hin x ltac:(by left)) as [v Hv]. rewrite map_size_delete_Some by eauto.
      assert (size (in_flight q) <> 0)%nat by (intros E%map_size_empty_iff; rewrite E in Hv; done). lia.
Qed.

Lemma requeue_spec now timeout q :
  (forall id, held (requeue_timed_out now timeout q) id <-> held q id) /\ load (requeue_timed_out now timeout q) = load q.
Proof.
  apply requeue_list; [apply NoDup_fst_map_to_list|].
  intros id ([i t] & -> & Hi)%list_elem_of_fmap. apply elem_of_map_to_list, map_lookup_filter_Some in Hi as [Hi _]. by exists t.
Qed.

Lemma parse_root t r :
  wf t -> whole t -> exists root n, parse_node (stream t ++ r) KEY_LENGTH = Return (root, n) /\ parsed_label root = label t.
Proof.
  destruct t as [k v n|b k l r'|]; intros Hwf Hw; [| |done].
  - rewrite stream_leaf, parse_leaf by done. by eexists _, _.
  - rewrite stream_node, <- app_assoc, parse_internal by done. by eexists _, _.
Qed.

Lemma parse_node_total data : exists r, parse_node data KEY_LENGTH = r /\ r <> Panic.
Proof.
  eexists. split; [done|]. unfold parse_node, KEY_LENGTH. change (32 =? 32)%nat with true. cbn [negb].
  repeat case_match; done.
Qed.

(** A delivery neither loses an id nor adds work. *)
Lemma deliver_spec peer data q s :
  bytes_ok data -> chunks_bytes s ->
  exists b q' s', deliver peer data q s = Return (b, q', s') /\ chunks_bytes s' /\ st_height s' = st_height s /\
    (forall id, held q id \/ is_Some (get_chunk id s) -> held q' id \/ is_Some (get_chunk id s')) /\
    (load q' <= load q)%nat /\ (b = true -> (load q' < load q)%nat).
Proof.
  intros Hok Hs. unfold deliver. destruct (parse_node_total data) as (r & -> & Hnp).
  destruct r as [[root n]|e|]; [| |done]; [|eexists _, _, _; split; [done|]; split_and!; try done; lia].
  destruct (in_flight q !! parsed_label root) as [t|] eqn:Ef; [|eexists _, _, _; split; [done|]; split_and!; try done; lia].
  unfold verify_chunk. destruct (walk_tree_spec data None (Some (parsed_label root)) Hok) as (r & -> & Hnp' & _).
  assert (size (in_flight q) <> 0)%nat as Hz by (intros E%map_size_empty_iff; rewrite E in Ef; done).
  assert (forall (m : gmap (list Z) instant), m = in_flight q -> size (delete (parsed_label root) m) = (size (in_flight q) - 1)%nat) as Hd
    by (intros m ->; rewrite map_size_delete_Some by eauto; lia).
  destruct r as [vt|e|]; [| |done]; eexists _, _, _; (split; [done|]); unfold load; cbn [pending in_flight];
    rewrite (Hd _ eq_refl), ?length_app; cbn [length]; split_and!; try done; try lia.
  - intros id b. cbn [store_chunk st_file f_chunks]. rewrite lookup_insert_Some. intros [[_ <-]|[_ ?]]; [done|by eapply Hs].
  - intros id. unfold held, get_chunk. cbn [pending in_flight store_chunk st_file f_chunks].
    destruct (decide (id = parsed_label root)) as [->|Hne]; [rewrite lookup_insert_eq; eauto|].
    rewrite lookup_insert_ne, lookup_delete_ne by done. done.
  - intros id. unfold held. cbn [pending in_flight]. rewrite elem_of_app, list_elem_of_singleton.
    destruct (decide (id = parsed_label root)) as [->|Hne]; [tauto|]. rewrite lookup_delete_ne by done. tauto.
Qed.

(** A valid chunk of an id in flight is stored. *)
Lemma deliver_answers peer u q s :
  wf u -> whole u -> is_Some (in_flight q !! label u) ->
  exists q' s', deliver peer (stream u) q s = Return (true, q', s').
Proof.
  intros Hwf Hw [t Hf]. unfold deliver. destruct (parse_root u [] Hwf Hw) as (root & n & E & El). rewrite app_nil_r in E.
  rewrite E, El, Hf. unfold verify_chunk.
  rewrite walk_tree_complete by (done || by apply whole_cut_none || by intros e [= <-]). by eexists _, _.
Qed.

Lemma sized_bytes max body data : bytes_ok body -> parse_sized max body = Return data -> bytes_ok data.
Proof.
  intros Hok. unfold parse_sized. destruct (_ <? _); [done|]. destruct (vlq_decode body) as [[len off]|]; [|done].
  cbn [of_result outcome_bind]. destruct (_ <? _); [done|]. unfold slice. destruct (_ || _); [done|]. intros [= <-].
  by apply Forall_take, Forall_drop.
Qed.

Lemma chunk_bytes body data :
  bytes_ok body -> snap_parse UTXO_SNAPSHOT_CHUNK body = Return (UtxoSnapshotChunk data) -> bytes_ok data.
Proof.
  intros Hok. unfold snap_parse. cbn [Z.eqb]. change (UTXO_SNAPSHOT_CHUNK =? UTXO_SNAPSHOT_CHUNK) with true.
  unfold outcome_map. destruct (parse_sized MAX_CHUNK_SIZE body) as [d| |] eqn:E; [|done..]. cbn. intros [= <-].
  by eapply sized_bytes.
Qed.

Lemma manifest_bytes body data :
  bytes_ok body -> snap_parse MANIFEST body = Return (Manifest data) -> bytes_ok data.
Proof.
  intros Hok. unfold snap_parse. cbn [Z.eqb]. change (MANIFEST =? MANIFEST) with true.
  unfold outcome_map. destruct (parse_sized MAX_MANIFEST_SIZE body) as [d| |] eqn:E; [|done..]. cbn. intros [= <-].
  by eapply sized_bytes.
Qed.

(** ** The download *)

Definition event_bytes (r : Round) : Prop :=
  match round_event r with EvChunk _ body => bytes_ok body | _ => True end.

(** Every id that was to be downloaded is held or stored. *)
Definition covered (ids : list (list Z)) (d : Download) : Prop :=
  forall id, id ∈ ids -> held (dl_queue d) id \/ is_Some (get_chunk id (dl_store d)).

Lemma done_load q : is_done q = true <-> load q = 0%nat.
Proof.
  unfold is_done, load. rewrite bool_decide_eq_true. destruct (pending q); cbn [length].
  - rewrite Nat.add_0_l, map_size_empty_iff. tauto.
  - split; [naive_solver|lia].
Qed.

(** What a round does, whatever arrives. *)
Lemma round_spec peers timeout r d ids p :
  event_bytes r -> chunks_bytes (dl_store d) -> covered ids d ->
  download_round peers timeout r d = Return p ->
  match p with
  | Running d' => chunks_bytes (dl_store d') /\ covered ids d' /\ st_height (dl_store d') = st_height (dl_store d) /\
      (load (dl_queue d') <= load (dl_queue d))%nat
  | Finished s => s = dl_store d /\ load (dl_queue d) = 0%nat
  | Stopped _ s => s = dl_store d
  end.
Proof.
  intros He Hs Hc. unfold download_round. destruct (is_done (dl_queue d)) eqn:Ed.
  { intros [= <-]. split; [done|]. by apply done_load. }
  destruct (_ && _); [by intros [= <-]|].
  destruct (fill_spec (fill_fuel peers (dl_queue d)) r peers (dl_queue d) (dl_peer_idx d) 0 0 (fill_fuel_enough _ _))
    as (q & idx & -> & Hh & Hl & _).
  assert (forall q1 s1, chunks_bytes s1 -> st_height s1 = st_height (dl_store d) -> (load q1 <= load q)%nat ->
    (forall id, held q id \/ is_Some (get_chunk id (dl_store d)) -> held q1 id \/ is_Some (get_chunk id s1)) ->
    let d' := mk_download (requeue_timed_out (check_time r) timeout q1) s1 idx in
    chunks_bytes (dl_store d') /\ covered ids d' /\ st_height (dl_store d') = st_height (dl_store d) /\
      (load (dl_queue d') <= load (dl_queue d))%nat) as Hnext.
  { intros q1 s1 Hs1 Hh1 Hl1 Hk. destruct (requeue_spec (check_time r) timeout q1) as [Hrh Hrl].
    split_and!; cbn [dl_store dl_queue]; [done| |done|lia].
    intros id Hid. cbn [dl_store dl_queue]. rewrite Hrh. apply Hk. rewrite Hh. by apply Hc. }
  unfold event_bytes in He. destruct (round_event r) as [peer body| | |].
  - destruct (snap_parse UTXO_SNAPSHOT_CHUNK body) as [[| | | | |data]|e|] eqn:Ep; try done;
      try by (intros [= <-]; apply Hnext).
    destruct (deliver_spec peer data q (dl_store d) (chunk_bytes _ _ He Ep) Hs) as (b & q1 & s1 & -> & Hs1 & Hh1 & Hk & Hl1 & _).
    cbn [outcome_bind]. intros [= <-]. by apply Hnext.
  - intros [= <-]. by apply Hnext.
  - by intros [= <-].
  - intros [= <-]. by apply Hnext.
Qed.

Lemma loop_spec peers timeout rounds d ids p :
  Forall event_bytes rounds -> chunks_bytes (dl_store d) -> covered ids d ->
  download_loop peers timeout rounds d = Return p ->
  match p with
  | Running d' => chunks_bytes (dl_store d')
  | Finished s => chunks_bytes s /\ st_height s = st_height (dl_store d) /\ (forall id, id ∈ ids -> is_Some (get_chunk id s))
  | Stopped _ s => chunks_bytes s
  end.
Proof.
  intros Hb. revert d. induction Hb as [|r rounds Hr _ IH]; intros d Hs Hc; cbn [download_loop]; [by intros [= <-]|].
  destruct (download_round peers timeout r d) as [p'|e|] eqn:Er; cbn [outcome_bind]; [|done..].
  apply (round_spec _ _ _ _ ids) in Er; [|done..]. destruct p' as [d'|s|e s].
  - destruct Er as (Hs' & Hc' & Hh' & _). intros E. specialize (IH d' Hs' Hc' E). rewrite Hh' in IH. done.
  - destruct Er as [-> Hz]. intros [= <-]. split_and!; [done|done|]. intros id Hid. destruct (Hc id Hid) as [Hh|]; [|done].
    exfalso. apply done_load, bool_decide_eq_true in Hz as [Hp Hf]. destruct Hh as [Hh|Hh].
    + rewrite Hp in Hh. by apply elem_of_nil in Hh.
    + rewrite Hf, lookup_empty in Hh. by destruct Hh.
  - subst s. by intros [= <-].
Qed.

Lemma queue_new_covers {E} ids s q :
  queue_new (E := E) ids s = Return q -> covered ids (mk_download q s 0) /\
    (load q = length (missing_chunks ids s))%nat.
Proof.
  unfold queue_new, stored_chunk_ids. case_decide; [|done]. cbn [outcome_bind]. intros [= <-].
  assert (forall id, id ∈ (map_to_list (f_chunks (st_file s))).*1 <-> is_Some (get_chunk id s)) as Hst.
  { intros id. rewrite list_elem_of_fmap. split.
    - intros ([i b] & -> & Hi%elem_of_map_to_list). by exists b.
    - intros [b Hb]. exists (id, b). split; [done|]. by apply elem_of_map_to_list. }
  split.
  - intros id Hid. cbn [dl_queue dl_store]. unfold held. cbn [pending]. rewrite list_elem_of_filter, Hst.
    destruct (get_chunk id s); [right; eauto|]. left. left. split; [|done]. intros [? ?]. done.
  - unfold load, missing_chunks. cbn [pending in_flight]. rewrite map_size_empty, Nat.add_0_r. f_equal.
    apply list_filter_iff. intros id. rewrite Hst, <- eq_None_not_Some. done.
Qed.

(** A download that finishes has a chunk for every id. *)
Lemma download_finishes peers timeout rounds ids s s' :
  Forall event_bytes rounds -> chunks_bytes s ->
  download_chunks peers timeout rounds ids s = Return (Finished s') ->
  chunks_bytes s' /\ st_height s' = st_height s /\ (forall id, id ∈ ids -> is_Some (get_chunk id s')).
Proof.
  intros Hb Hs. unfold download_chunks. destruct (queue_new ids s) as [q| |] eqn:Eq; cbn [outcome_bind]; [|done..].
  apply queue_new_covers in Eq as [Hc _]. intros E. exact (loop_spec _ _ _ (mk_download q s 0) ids _ Hb Hs Hc E).
Qed.

(** ** The whole bootstrap *)

Definition attempt_bytes (a : Attempt) : Prop :=
  Forall (fun e => match e with MfManifest _ body => bytes_ok body | _ => True end) (attempt_events a).

Definition file_bytes (f : DownloadFile) : Prop :=
  map_Forall (fun _ b => bytes_ok b) (f_chunks f) /\ map_Forall (fun _ b => bytes_ok b) (f_meta f).

(** What arrives and what is on the disk are bytes. *)
Record world_bytes (w : World) : Prop := {
  wb_file : forall f, w_file w = Some f -> file_bytes f;
  wb_resume : Forall event_bytes (w_rounds_resume w);
  wb_attempts : Forall attempt_bytes (w_attempts w);
  wb_rounds : Forall event_bytes (w_rounds w);
}.

Lemma await_bytes peer events body :
  Forall (fun e => match e with MfManifest _ b => bytes_ok b | _ => True end) events ->
  await_manifest peer events = Ok (Some body) -> bytes_ok body.
Proof.
  induction 1 as [|e events He _ IH]; cbn [await_manifest]; [done|]. destruct e as [from b| |]; [|done..].
  destruct (from =? peer); [by intros [= <-]|done].
Qed.

(** A manifest that is accepted verifies, and whoever sent a bad one is out. *)
Lemma manifest_loop_spec state_root attempts kept peers res left :
  Forall attempt_bytes attempts -> manifest_loop state_root attempts kept peers = (res, left) ->
  (exists some, left = kept ++ some /\ some `sublist_of` peers) /\
  (forall m, res = Return m -> exists t, manifest_of m state_root t).
Proof.
  revert attempts kept. induction peers as [|peer peers IH]; intros attempts kept Ha; cbn [manifest_loop].
  { intros [= <- <-]. split; [|done]. exists []. by rewrite app_nil_r. }
  assert (attempt_bytes (default (mk_attempt false []) (head attempts)) /\ Forall attempt_bytes (tail attempts)) as [Hh Ht].
  { destruct attempts; [split; constructor|]. by apply Forall_cons in Ha. }
  assert (forall rest, (exists some, left = (kept ++ [peer]) ++ some /\ some `sublist_of` rest) ->
    exists some, left = kept ++ some /\ some `sublist_of` peer :: rest) as Hk.
  { intros rest (some & -> & Hsub). exists (peer :: some). rewrite <- app_assoc. split; [done|]. by constructor. }
  assert (forall rest, (exists some, left = kept ++ some /\ some `sublist_of` rest) ->
    exists some, left = kept ++ some /\ some `sublist_of` peer :: rest) as Hd.
  { intros rest (some & -> & Hsub). exists some. split; [done|]. by constructor. }
  destruct (negb (attempt_sends _)). { intros E. apply IH in E as [? ?]; auto. }
  destruct (await_manifest peer _) as [[answer|]|e] eqn:Ew.
  2:{ intros E. apply IH in E as [? ?]; auto. }
  2:{ intros [= <- <-]. split; [by exists (peer :: peers)|done]. }
  apply await_bytes in Ew; [|done].
  destruct (snap_parse MANIFEST answer) as [[| | |data| |]|e|] eqn:Ep;
    try (intros E; apply IH in E as [? ?]; by auto); [|intros [= <- <-]; split; [by exists (peer :: peers)|done]].
  destruct (verify_manifest_spec data state_root (manifest_bytes _ _ Ew Ep)) as (r & -> & Hnp & Hr).
  destruct r as [m|e|]; [| |done].
  - intros [= <- <-]. split; [by exists (peer :: peers)|]. intros m' [= <-]. by apply (Hr m).
  - intros E. apply IH in E as [? ?]; auto.
Qed.

(** The bootstrap data is the tree of the state root that the chain had at its height. *)
Definition from_chain (chain : Z -> option (list Z)) (data : SnapshotData) : Prop :=
  exists state_root T, chain (sd_snapshot_height data) = Some state_root /\ snapshot_of data state_root T.

Lemma create_bytes file id height bytes n :
  (forall f, file = Some f -> map_Forall (fun _ b => bytes_ok b) (f_chunks f)) -> chunks_bytes (store_create file id height bytes n).
Proof.
  intros Hf. unfold chunks_bytes, store_create. cbn [st_file f_chunks].
  destruct file as [f|]; [by apply Hf|]. apply map_Forall_empty.
Qed.

Lemma run_fresh_sound min_peers timeout w file data :
  world_bytes w -> (forall f, file = Some f -> map_Forall (fun _ b => bytes_ok b) (f_chunks f)) ->
  run_fresh min_peers timeout w file = Return (RunReturned data) -> from_chain (w_chain_manifest w) data.
Proof.
  intros Hw Hf. unfold run_fresh. destruct (discover_snapshot _ _ _) as [snapshot| |]; cbn [outcome_bind]; [|done..].
  unfold download_manifest. destruct (w_chain_manifest w (snap_height snapshot)) as [state_root|] eqn:Ec; [|done].
  destruct (manifest_loop state_root _ _ _) as [res peers] eqn:Em.
  apply manifest_loop_spec in Em as [_ Hm]; [|apply Hw].
  destruct res as [m| |]; cbn [outcome_bind snap_height snap_peers]; [|done..]. destruct (Hm m eq_refl) as (t & Ht).
  set (s := store_create file _ _ _ _). assert (chunks_bytes s) as Hs by (by apply create_bytes).
  destruct (download_chunks peers timeout (w_rounds w) (vm_subtree_ids m) s) as [p| |] eqn:Ed; cbn [outcome_bind]; [|done..].
  destruct p as [d|s'|]; [done| |done]. apply download_finishes in Ed as (Hs' & _); [|apply Hw|done].
  destruct (assemble_snapshot m s' (snap_height snapshot)) as [dt| |] eqn:Ea; cbn [outcome_bind]; [|done..].
  intros [= <-]. apply (assembled_snapshot _ _ _ state_root _ t) in Ea as (Eh & T & HT); [|done..].
  exists state_root, T. by rewrite Eh.
Qed.

Lemma store_open_inv f s : store_open f = Ok s -> st_file s = f.
Proof.
  unfold store_open. destruct (read_meta_fixed 32 _ f); [|done]. cbn [result_bind].
  destruct (read_meta_fixed 4 META_SNAPSHOT_HEIGHT f); [|done]. cbn [result_bind].
  destruct (read_meta_fixed 4 META_TOTAL_CHUNKS f); [|done]. by intros [= <-].
Qed.

Lemma reopen_spec chain f s m :
  file_bytes f -> reopen_download chain f = Return (Some (s, m)) ->
  st_file s = f /\ exists state_root t, chain (st_height s) = Some state_root /\ manifest_of m state_root t.
Proof.
  intros [Hc Hm]. unfold reopen_download. destruct (store_open f) as [s'|] eqn:Eo; [|done]. apply store_open_inv in Eo.
  destruct (chain (st_height s')) as [state_root|] eqn:Ec; [|done]. unfold store_manifest_bytes.
  destruct (f_meta (st_file s') !! META_MANIFEST_BYTES) as [bytes|] eqn:Eb; [|done]. cbn [ok_or].
  rewrite Eo in Eb. destruct (verify_manifest_spec bytes state_root (Hm _ _ Eb)) as (r & -> & Hnp & Hr).
  destruct r as [m'|e|]; [|done..]. intros [= -> ->]. split; [done|].
  destruct (proj1 (Hr m) eq_refl) as [_ (t & Ht)]. by exists state_root, t.
Qed.

Lemma run_sound min_peers multiplier w data :
  world_bytes w -> run_snapshot_sync min_peers multiplier w = Return (RunReturned data) ->
  from_chain (w_chain_manifest w) data \/ from_chain (w_chain_resume w) data.
Proof.
  intros Hw. unfold run_snapshot_sync. set (timeout := from_secs _). destruct (w_file w) as [f|] eqn:Ef.
  2:{ intros E. left. eapply run_fresh_sound; [done| |exact E]. done. }
  pose proof (wb_file w Hw f Ef) as Hf. destruct (reopen_download (w_chain_resume w) f) as [[[s m]|]| |] eqn:Eo; cbn [outcome_bind]; [| |done..].
  2:{ intros E. left. eapply run_fresh_sound; [done| |exact E]. unfold cleaned. intros f'. destruct (w_cleanup w); [done|].
      intros [= <-]. apply Hf. }
  apply reopen_spec in Eo as (Es & state_root & t & Ec & Hm); [|done].
  assert (chunks_bytes s) as Hs by (unfold chunks_bytes; rewrite Es; apply Hf).
  set (start := if is_complete _ s then _ else _).
  destruct start as [p| |] eqn:Ep; cbn [outcome_bind]; [|done..]. destruct p as [d|s'|]; [done| |done].
  assert (chunks_bytes s' /\ st_height s' = st_height s) as [Hs' Eh].
  { subst start. destruct (is_complete _ s); [by injection Ep as <-|].
    apply download_finishes in Ep as (? & ? & _); [|apply Hw|]; done. }
  destruct (assemble_snapshot m s' (st_height s')) as [dt|e|] eqn:Ea; [| |done].
  - intros [= <-]. right. apply (assembled_snapshot _ _ _ state_root _ t) in Ea as (Eh' & T & HT); [|done..].
    exists state_root, T. by rewrite Eh', Eh.
  - intros E. left. eapply run_fresh_sound; [done| |exact E]. unfold cleaned. intros f'. destruct (w_cleanup w); [done|].
    intros [= <-]. exact Hs'.
Qed.

(** Loading the data of a snapshot gives a storage with its tree. *)
Lemma install_snapshot_spec content data state_root T :
  snapshot_of data state_root T -> StateInv.genuine content T -> bytes_ok state_root -> is_u32 (sd_snapshot_height data) ->
  exists s, install_snapshot (Some state_root) data empty_db = Return (Some (s, (pack T, sd_tree_height data))) /\
    StateInv.reachable content s
      [StateInv.mk_version (label T ++ [sd_tree_height data]) T (sd_tree_height data) (sd_snapshot_height data)].
Proof.
  intros (Hwf & Hw & Hl & Er & Eh & Hp) Hg Hok Hb. unfold install_snapshot.
  rewrite Er, Hl, Eh, bool_decide_eq_true_2, Z.eqb_refl by done. cbn [andb negb]. rewrite <- Hl, <- Eh.
  change (open empty_db 256) with (@Ok storage_error _ (mk_storage empty_db 256 None [])). cbn [of_result outcome_bind].
  assert (is_u8 (sd_tree_height data)) as Hh by (rewrite Eh; by apply nth_is_u8).
  set (ver := label T ++ [sd_tree_height data]).
  assert (StateInv.reachable content
    (load_snapshot (sd_nodes data) (label T) (sd_tree_height data) ver (sd_snapshot_height data) (mk_storage empty_db 256 None []))
    [StateInv.mk_version ver T (sd_tree_height data) (sd_snapshot_height data)]) as Hr.
  { apply StateInv.reach_load; [done|int_unfold; lia|done| | |].
    - unfold StateInv.fits32, ver. rewrite length_app, label_length by done. by vm_compute.
    - rewrite Hp. apply Hg.
    - intros n Hn. by rewrite Hp. }
  pose proof (StateInv.rollback_spec _ _ _ ver (StateInv.reachable_repr _ _ _ Hr)) as Hs.
  cbn [list_find StateInv.v_digest] in Hs. rewrite decide_True in Hs by done.
  destruct Hs as (s' & Es & _). rewrite Es. cbn [outcome_bind StateInv.v_tree StateInv.v_height].
  exists s'. split; [done|]. pose proof (StateInv.reach_rollback _ _ _ _ _ _ Hr Es) as Hr'.
  unfold StateInv.pop in Hr'.
  cbn [list_find StateInv.v_digest] in Hr'. by rewrite decide_True in Hr' by done.
Qed.

(** C3: a bootstrap that returns data has the tree of the state root that the header at the
    snapshot's height carries, whatever any peer sent and whatever an earlier run left on
    the disk, up to the keys of internal nodes, which no label covers: the nodes are
    exactly those of a whole, well-formed tree with that root label, and every tree with
    that root label has the same shape, the same balances and the same leaves, unless the
    two trees themselves contain two different node strings with the same hash. Loading
    the data into an empty state file succeeds, and gives a storage whose one version is
    the downloaded tree. *)
Theorem bootstrap_correct min_peers multiplier w data :
  world_bytes w -> run_snapshot_sync min_peers multiplier w = Return (RunReturned data) ->
  exists state_root T,
    (w_chain_manifest w (sd_snapshot_height data) = Some state_root \/
     w_chain_resume w (sd_snapshot_height data) = Some state_root) /\
    snapshot_of data state_root T /\
    (forall T', wf T' -> whole T' -> label T' = take 32 state_root ->
       same_tree T T' /\ leaves T = leaves T' \/ node_collision T T') /\
    (forall content, StateInv.genuine content T -> bytes_ok state_root -> is_u32 (sd_snapshot_height data) ->
       exists s, install_snapshot (Some state_root) data empty_db = Return (Some (s, (pack T, sd_tree_height data))) /\
         StateInv.reachable content s
           [StateInv.mk_version (label T ++ [sd_tree_height data]) T (sd_tree_height data) (sd_snapshot_height data)]).
Proof.
  intros Hw E. assert (exists state_root T, (w_chain_manifest w (sd_snapshot_height data) = Some state_root \/
     w_chain_resume w (sd_snapshot_height data) = Some state_root) /\ snapshot_of data state_root T) as (root & T & Hc & HT)
    by (destruct (run_sound _ _ _ _ Hw E) as [(root & T & ? & ?)|(root & T & ? & ?)]; eauto).
  exists root, T. split_and!; [done|done| |].
  - intros T' Hwf' Hw' Hl'. pose proof HT as (Hwf & HW & Hl & _).
    destruct (label_binds T T') as [Hs|]; try done; [congruence|left; by split; [|apply same_leaves]|by right].
  - intros content Hg Hok Hb. by apply install_snapshot_spec.
Qed.

(** ** Serving and assembling *)

Lemma verify_manifest_complete m state_root t :
  manifest_of m state_root t -> verify_manifest (vm_bytes m) state_root = Some (Return m).
Proof.
  intros (Eb & Hd & Hwf & Hcut & Hl & Er & Eh & Ei). unfold verify_manifest, split_state_root, walk_manifest.
  rewrite Eb. cbn [parse_manifest_header]. destruct (Z.eqb_spec (vm_depth m) 0) as [|_]; [done|].
  change (drop HEADER_SIZE (vm_root_height m :: vm_depth m :: stream t)) with (stream t).
  rewrite walk_tree_complete by (done || by intros e [= <-]). rewrite Eh, Z.eqb_refl. cbn [root_label subtree_ids nth].
  rewrite <- Eh, <- Er, <- Ei, <- Eb. by destruct m.
Qed.

Lemma assemble_complete ids s us :
  Forall2 (good_chunk s) ids us -> assemble_chunks ids s = Return (concat (packed_nodes <$> us)).
Proof.
  induction 1 as [|id u ids us (Hl & Hwf & Hw & Hg) _ IH]; [done|]. cbn [assemble_chunks]. rewrite Hg.
  unfold verify_chunk. rewrite walk_tree_complete by (done || by apply whole_cut_none || by intros e [= <-]).
  rewrite IH. cbn [outcome_bind tree_nodes]. by rewrite parts_nodes.
Qed.

(** a node's snapshot bootstraps another node. The dump of a storage in any reachable
    state is a manifest that verifies against the storage's own digest and names exactly
    the dumped chunks; every chunk verifies against the id it is filed under; and a store
    that holds them assembles to the nodes of the storage's tree. *)
Theorem snapshot_served content s v vs manifest_depth fuel :
  StateInv.reachable content s (v :: vs) -> 1 <= manifest_depth <= 255 -> StateInv.v_height v <= U8_MAX ->
  StateInv.v_digest v = label (StateInv.v_tree v) ++ [StateInv.v_height v] ->
  (depth (StateInv.v_tree v) <= fuel)%nat ->
  exists dump m, dump_snapshot fuel (db s) 32 manifest_depth = Some (Return (Some dump)) /\
    verify_manifest (dump_manifest dump) (StateInv.v_digest v) = Some (Return m) /\
    vm_subtree_ids m = (dump_chunks dump).*1 /\
    Forall (fun c : list Z * list Z => exists vt, verify_chunk c.2 c.1 = Some (Return vt)) (dump_chunks dump) /\
    (forall store height, Forall (fun c : list Z * list Z => get_chunk c.1 store = Some c.2) (dump_chunks dump) ->
       exists data, assemble_snapshot m store height = Return data /\
         sd_nodes data ≡ₚ packed_nodes (StateInv.v_tree v) /\ sd_root_hash data ++ [sd_tree_height data] = StateInv.v_digest v).
Proof.
  intros Hr%StateInv.reachable_repr Hd Hh Hdig Hf. pose proof (StateInv.r_versions _ _ _ Hr) as [Hv _]%Forall_cons.
  destruct (StateInv.vo_tree _ _ Hv) as (Hwf & Hw & _). pose proof (StateInv.vo_height _ _ Hv) as Hh'.
  destruct (StateInv.r_meta _ _ _ Hr) as (_ & E1 & E2 & _). pose proof (StateInv.r_top _ _ _ Hr v eq_refl) as Hst.
  set (t := StateInv.v_tree v) in *. set (h := StateInv.v_height v) in *. set (c := cut manifest_depth 1 t). set (us := below manifest_depth 1 t).
  assert (stubs c = label <$> us) as Estubs by (by apply cut_stubs).
  assert (as_u8 h = h) as Eh by (int_unfold; rewrite Z.mod_small; lia).
  assert (Forall (fun u => wf u /\ whole u) us) as Hus.
  { eapply Forall_impl; [apply (below_ok t (nodes_table (db s)) fuel manifest_depth 1); done|]. naive_solver. }
  assert (manifest_of (mk_manifest (h :: manifest_depth :: stream c) (label c) h manifest_depth (label <$> us))
            (StateInv.v_digest v) c) as Hm.
  { split_and!; try done; cbn; [lia|by apply cut_wf|by apply cut_cut_at|..]; unfold c; rewrite Hdig, ?cut_label.
    - by rewrite take_app_exact by (by apply label_length).
    - by rewrite app_nth2, (label_length t Hwf) by (rewrite (label_length t Hwf); lia). }
  eexists _, _. rewrite (dump_snapshot_spec t (db s) fuel h) by done. split; [done|]. rewrite Eh. cbn [dump_manifest dump_chunks].
  split; [exact (verify_manifest_complete _ _ _ Hm)|]. cbn [vm_subtree_ids].
  split; [by rewrite <- list_fmap_compose|]. split.
  - apply Forall_fmap. eapply Forall_impl; [exact Hus|]. intros u [Hwu HWu]. eexists. cbn. unfold verify_chunk.
    apply walk_tree_complete; [done|by apply whole_cut_none|by intros e [= <-]].
  - intros store height Hst'. unfold assemble_snapshot. rewrite (vm_nodes_spec _ _ _ Hm), parts_nodes. cbn [vm_subtree_ids].
    rewrite (assemble_complete _ store us).
    + cbn [outcome_bind]. eexists. split; [done|]. cbn. split; [symmetry; apply cut_nodes|]. unfold c. by rewrite cut_label, Hdig.
    + apply Forall2_fmap_l, Forall_Forall2_diag. apply Forall_forall. intros u Hu.
      rewrite Forall_forall in Hus. destruct (Hus u Hu). split_and!; try done.
      rewrite Forall_fmap, Forall_forall in Hst'. exact (Hst' u Hu).
Qed.

(** ** Progress *)

(** In this round the sends work and, if anything is in flight, a valid chunk for one of
    those ids arrives. *)
Definition round_answers (peers : list Z) (r : Round) (d : Download) : Prop :=
  (forall i, send_works r i = true) /\
  (forall q idx, fill (fill_fuel peers (dl_queue d)) r peers (dl_queue d) (dl_peer_idx d) 0 0 = Some (q, idx) ->
     in_flight q <> ∅ ->
     exists peer u, wf u /\ whole u /\ is_Some (in_flight q !! label u) /\
       message_ok (UtxoSnapshotChunk (stream u)) /\
       round_event r = EvChunk peer (snap_encode (UtxoSnapshotChunk (stream u))).2).

(** Nothing in this round ends the loop: neither the end of the stream nor a message that
    the parser panics on. *)
Definition round_harmless (r : Round) : Prop :=
  match round_event r with
  | EvClosed => False
  | EvChunk _ body => snap_parse UTXO_SNAPSHOT_CHUNK body <> Panic
  | _ => True
  end.

(** Rounds of which [n] answer, the others being anything harmless: invalid chunks, other
    messages, silence, sends that fail. *)
Inductive served (peers : list Z) (timeout : duration) : list Round -> Download -> nat -> Prop :=
  | served_end d : served peers timeout [] d 0
  | served_answer r rounds d n :
      round_answers peers r d ->
      (forall d', download_round peers timeout r d = Return (Running d') -> served peers timeout rounds d' n) ->
      served peers timeout (r :: rounds) d (S n)
  | served_other r rounds d n :
      round_harmless r ->
      (forall d', download_round peers timeout r d = Return (Running d') -> served peers timeout rounds d' n) ->
      served peers timeout (r :: rounds) d n.

Lemma parse_chunk u :
  message_ok (UtxoSnapshotChunk (stream u)) ->
  snap_parse UTXO_SNAPSHOT_CHUNK (snap_encode (UtxoSnapshotChunk (stream u))).2 = Return (UtxoSnapshotChunk (stream u)).
Proof.
  intros Hm. unfold snap_parse. cbn [Z.eqb snap_encode snd]. change (UTXO_SNAPSHOT_CHUNK =? UTXO_SNAPSHOT_CHUNK) with true.
  unfold outcome_map. by rewrite (parse_sized_encode _ _ Hm).
Qed.

(** A round that answers takes an id off the queue. *)
Lemma round_progress peers timeout r d :
  NoDup peers -> peers <> [] -> chunks_bytes (dl_store d) -> event_bytes r -> round_answers peers r d ->
  load (dl_queue d) <> 0%nat ->
  exists d', download_round peers timeout r d = Return (Running d') /\ chunks_bytes (dl_store d') /\
    (load (dl_queue d') < load (dl_queue d))%nat.
Proof.
  intros Hnd Hne Hs He [Hw Ha] Hl. unfold download_round.
  destruct (is_done (dl_queue d)) eqn:Ed; [by apply done_load in Ed|].
  rewrite (bool_decide_eq_false_2 (peers = [])), andb_false_r by done.
  destruct (fill_spec (fill_fuel peers (dl_queue d)) r peers (dl_queue d) (dl_peer_idx d) 0 0 (fill_fuel_enough _ _))
    as (q & idx & Ef & _ & Hlq & _).
  pose proof (fill_progress r peers _ _ q idx Hw Hnd Hne Hl Ef) as Hin.
  destruct (Ha q idx Ef Hin) as (peer & u & Hwf & HW & Hu & Hm & Ee). rewrite Ef. unfold event_bytes in He. rewrite Ee in *.
  rewrite parse_chunk by done. pose proof (chunk_bytes _ _ He (parse_chunk u Hm)) as Hb.
  destruct (deliver_answers peer u q (dl_store d) Hwf HW Hu) as (q1 & s1 & E1).
  destruct (deliver_spec peer (stream u) q (dl_store d) Hb Hs) as (b & q' & s' & E2 & Hs' & _ & _ & _ & Hlt).
  rewrite E1 in *. injection E2 as <- <- <-. cbn [outcome_bind]. eexists. split; [done|]. cbn [dl_store dl_queue].
  split; [done|]. rewrite (proj2 (requeue_spec _ _ _)). specialize (Hlt eq_refl). lia.
Qed.

(** A harmless round adds no work. *)
Lemma round_keeps peers timeout r d :
  peers <> [] -> chunks_bytes (dl_store d) -> event_bytes r -> round_harmless r -> load (dl_queue d) <> 0%nat ->
  exists d', download_round peers timeout r d = Return (Running d') /\ chunks_bytes (dl_store d') /\
    (load (dl_queue d') <= load (dl_queue d))%nat.
Proof.
  intros Hne Hs He Hh Hl.
  assert (exists d', download_round peers timeout r d = Return (Running d')) as [d' E].
  { unfold download_round. destruct (is_done (dl_queue d)) eqn:Ed; [by apply done_load in Ed|].
    rewrite (bool_decide_eq_false_2 (peers = [])), andb_false_r by done.
    destruct (fill_spec (fill_fuel peers (dl_queue d)) r peers (dl_queue d) (dl_peer_idx d) 0 0 (fill_fuel_enough _ _))
      as (q & idx & -> & _). unfold round_harmless, event_bytes in *.
    destruct (round_event r) as [peer body| | |]; [|by eexists|done|by eexists].
    destruct (snap_parse UTXO_SNAPSHOT_CHUNK body) as [[| | | | |data]|e|] eqn:Ep; try done; try by eexists.
    destruct (deliver_spec peer data q (dl_store d) (chunk_bytes _ _ He Ep) Hs) as (b & q1 & s1 & -> & _). by eexists. }
  exists d'. split; [done|]. apply (round_spec _ _ _ _ []) in E as (Hs' & _ & _ & Hle); [done..|].
  intros id Hid. by apply elem_of_nil in Hid.
Qed.

(** C13: the download finishes. With distinct peers to ask, as soon as more rounds were
    answered than there were chunks missing, the download is finished, whatever else
    happened in between: invalid chunks, silence, failed sends, timeouts. In particular the
    preference for another peer after a bad chunk never leaves it waiting with nothing
    asked for. *)
Theorem download_live peers timeout rounds ids s q n :
  NoDup peers -> peers <> [] -> chunks_bytes s -> Forall event_bytes rounds -> queue_new (E := SnapshotError) ids s = Return q ->
  served peers timeout rounds (mk_download q s 0) n -> (length (missing_chunks ids s) < n)%nat ->
  exists s', download_chunks peers timeout rounds ids s = Return (Finished s') /\
    (forall id, id ∈ ids -> is_Some (get_chunk id s')).
Proof.
  intros Hnd Hne Hs Hb Eq Hser Hn.
  assert (forall rounds d n, served peers timeout rounds d n -> Forall event_bytes rounds -> chunks_bytes (dl_store d) ->
    (load (dl_queue d) < n)%nat -> exists s', download_loop peers timeout rounds d = Return (Finished s')) as Hloop.
  { clear - H0 Hnd Hne. induction 1 as [d|r rounds d n Ha _ IH|r rounds d n Hh _ IH]; intros Hb Hs Hl; [lia|..];
      apply Forall_cons in Hb as [He Hb]; cbn [download_loop];
      (destruct (decide (load (dl_queue d) = 0%nat)) as [Hz|Hz];
        [unfold download_round; rewrite (proj2 (done_load _) Hz); by eexists|]).
    - destruct (round_progress peers timeout r d) as (d' & E & Hs' & Hlt); try done. rewrite E. cbn [outcome_bind]. apply IH; [done..|lia].
    - destruct (round_keeps peers timeout r d) as (d' & E & Hs' & Hle); try done. rewrite E. cbn [outcome_bind]. apply IH; [done..|lia]. }
  pose proof (queue_new_covers _ _ _ Eq) as [Hc Hload].
  destruct (Hloop rounds (mk_download q s 0) n Hser Hb Hs) as [s' E]; [cbn [dl_queue]; lia|].
  exists s'. unfold download_chunks. rewrite Eq. cbn [outcome_bind]. split; [done|].
  apply (loop_spec _ _ _ _ ids) in E as (_ & _ & Hall); done.
Qed.

(** ** What the labels leave out *)

Lemma lex_ltb_zeros key : Forall (Z.le 0) key -> lex_ltb key (replicate 32 0) = true -> (length key < 32)%nat.
Proof.
  generalize 32%nat. intros n. revert key. induction n as [|n IH]; intros [|x key] Hk; cbn [lex_ltb replicate]; try done; cbn [length]; [lia|].
  apply Forall_cons in Hk as [Hx Hk]. destruct (Z.ltb_spec x 0); [lia|]. destruct (0 <? x); [done|].
  intros ?%IH; [lia|done].
Qed.

(** the checks do not cover the keys of internal nodes. From any valid chunk whose root
    is an internal node, the one with the root's key set to zeros passes the same check
    under the same id; in the tree it describes no key of the left half is found any
    more. *)
Theorem chunk_keys_unbound b k l r key nodes fuel :
  let t := Node b k l r in
  let t' := Node b (replicate 32 0) l r in
  wf t -> whole t -> ordered t -> stored nodes t' -> (depth t <= fuel)%nat -> bytes_ok key -> length key = 32%nat ->
  (exists vt, verify_chunk (stream t') (label t) = Some (Return vt)) /\
  (key ∈ (leaves l).*1 -> lookup_loop fuel nodes 32 key (label t) = Some None).
Proof.
  intros t t' Hwf HW Ho Hs Hf Hok Hlen. destruct Hwf as (Hb & Hk & Hwl & Hwr), HW as [HWl HWr].
  assert (wf t') as Hwf' by (by split_and!). split.
  - eexists. unfold verify_chunk. change (label t) with (label t').
    apply walk_tree_complete; [done|by apply whole_cut_none|by intros e [= <-]].
  - intros ((k0 & v0) & -> & Hin)%list_elem_of_fmap. cbn [fst] in *. destruct fuel as [|fuel]; [cbn in Hf; lia|].
    change (label t) with (label t'). unfold t'. rewrite lookup_step by done.
    destruct (lex_ltb k0 (replicate 32 0)) eqn:Ez.
    { apply lex_ltb_zeros in Ez; [lia|]. eapply Forall_impl; [exact Hok|]. int_unfold. lia. }
    apply stored_node in Hs as (_ & _ & Hsr). destruct Ho as (_ & Hor & Hlt & Hge). rewrite Forall_forall in Hlt, Hge.
    destruct (lookup_loop_spec r nodes fuel k0) as (x & -> & Hx); try done; [unfold t in Hf; cbn [depth] in Hf; lia|].
    destruct x as [v|]; [|done]. pose proof (proj1 (Hx v) eq_refl) as Hr. apply Hlt in Hin. apply Hge in Hr. cbn in *. congruence.
Qed.

End Props.

(** ** An instance *)

Module Examples.
Import StateInv.Examples Reader.Examples.
#[local] Existing Instance gigabyte.

Definition root2 : list Z := label t2 ++ [1].
Definition chain2 (h : Z) : option (list Z) := if h =? 100 then Some root2 else None.

(** The tree cut below its root: a manifest with one node, and a chunk for each leaf. *)
Definition man2 : list Z := 1 :: 1 :: stream (cut 1 1 t2).
Definition leaf_a : tree := Leaf (key 0) [] (key 5).
Definition leaf_b : tree := Leaf (key 5) [7] (key 9).

Definition body_of (m : SnapshotMessage) : list Z := (snap_encode m).2.
Definition answer_round (u : tree) : Round :=
  mk_round (fun _ => true) (fun _ => 0) (EvChunk 7 (body_of (UtxoSnapshotChunk (stream u)))) 0.

Definition world2 : World :=
  mk_world None true (fun _ => None) [] [] [7]
    [DvInfo chain2 7 (body_of (SnapshotsInfo [mk_entry 100 (label t2)]))] chain2
    [mk_attempt true [MfOther; MfManifest 8 [0]; MfManifest 7 (body_of (Manifest man2))]]
    [answer_round leaf_a; answer_round leaf_b; answer_round leaf_b].

Definition data2 : SnapshotData :=
  mk_data (packed_nodes (cut 1 1 t2) ++ packed_nodes leaf_a ++ packed_nodes leaf_b) (label t2) 1 100.

Lemma world2_bytes : world_bytes world2.
Proof. split; [done|apply Forall_nil_2|..]; repeat constructor; apply (bool_decide_unpack _); by vm_compute. Qed.

Lemma run2 : run_snapshot_sync 1 4 world2 = Return (RunReturned data2).
Proof. by vm_compute. Qed.

Lemma bootstrap_correct_witness :
  exists state_root T, chain2 100 = Some state_root /\ snapshot_of data2 state_root T /\
    (same_tree T t2 /\ leaves T = leaves t2 \/ node_collision T t2).
Proof.
  destruct (bootstrap_correct 1 4 world2 data2 world2_bytes run2) as (root & T & [Hc|Hc] & HT & Hb & _); [|discriminate Hc].
  exists root, T. split; [exact Hc|]. split; [exact HT|]. injection Hc as <-.
  apply Hb; [by vm_compute|done|by vm_compute].
Defined.

Lemma snapshot_served_witness :
  exists dump m, dump_snapshot 2 (db sr) 32 1 = Some (Return (Some dump)) /\
    verify_manifest (dump_manifest dump) root2 = Some (Return m) /\ length (vm_subtree_ids m) = 2%nat.
Proof.
  destruct (snapshot_served ex_content sr vr [] 1 2 ex_reachable_sr) as (dump & m & Ed & Em & Ei & _);
    [by vm_compute|by vm_compute|by vm_compute|by vm_compute|].
  exists dump, m. split_and!; [exact Ed|exact Em|]. rewrite Ei, length_fmap. vm_compute in Ed. injection Ed as <-. done.
Defined.

Definition store2 : ChunkDownloadStore := store_create None (label t2) 100 man2 2.
Definition ids2 : list (list Z) := [label leaf_a; label leaf_b].
Definition rounds2 : list Round := [answer_round leaf_b; answer_round leaf_a; answer_round leaf_a].

Lemma ex_answers u d q' idx' :
  wf u -> whole u -> bool_decide (message_ok (UtxoSnapshotChunk (stream u))) = true ->
  fill (fill_fuel [7] (dl_queue d)) (answer_round u) [7] (dl_queue d) (dl_peer_idx d) 0 0 = Some (q', idx') ->
  is_Some (in_flight q' !! label u) -> round_answers [7] (answer_round u) d.
Proof.
  intros Hwf Hw Hm%bool_decide_eq_true Ef Hin. split; [done|]. intros q idx E _. rewrite Ef in E. injection E as <- _.
  by exists 7, u.
Qed.

Lemma ex_dl_served : served [7] 1000 rounds2 (mk_download (mk_queue ids2 ∅ ∅) store2 0) 3.
Proof.
  unfold rounds2. apply served_answer.
  { eapply ex_answers; [by vm_compute..|]. vm_compute. eauto. }
  intros d' E. vm_compute in E. injection E as <-. apply served_answer.
  { eapply ex_answers; [by vm_compute..|]. vm_compute. eauto. }
  intros d' E. vm_compute in E. injection E as <-. apply served_answer; [|intros ? _; apply served_end].
  split; [done|]. intros q idx E Hne. vm_compute in E. injection E as <- _. done.
Qed.

Lemma download_live_witness :
  exists s', download_chunks [7] 1000 rounds2 ids2 store2 = Return (Finished s') /\ is_Some (get_chunk (label leaf_a) s').
Proof.
  destruct (download_live [7] 1000 rounds2 ids2 store2 (mk_queue ids2 ∅ ∅) 3) as (s' & E & Hs').
  - apply NoDup_singleton.
  - done.
  - apply map_Forall_empty.
  - repeat constructor; apply (bool_decide_unpack _); by vm_compute.
  - by vm_compute.
  - exact ex_dl_served.
  - by vm_compute.
  - exists s'. split; [exact E|]. apply Hs'. by left.
Defined.

Lemma chunk_keys_unbound_witness :
  exists nodes, (exists vt, verify_chunk (stream (Node 0 (replicate 32 0) leaf_a leaf_b)) (label t2) = Some (Return vt)) /\
    lookup_loop 2 nodes 32 (key 0) (label t2) = Some None.
Proof.
  exists (list_to_map (packed_nodes (Node 0 (replicate 32 0) leaf_a leaf_b))).
  destruct (chunk_keys_unbound 0 (key 5) leaf_a leaf_b (key 0)
              (list_to_map (packed_nodes (Node 0 (replicate 32 0) leaf_a leaf_b))) 2) as [Hv Hl].
  - by vm_compute.
  - done.
  - split_and!; try done; apply Forall_singleton; by vm_compute.
  - repeat (apply Forall_cons; split; [by vm_compute|]). apply Forall_nil_2.
  - by vm_compute.
  - apply (bool_decide_unpack _). by vm_compute.
  - done.
  - split; [exact Hv|]. apply Hl. by left.
Defined.

End Examples.

End SnapInv.
