(* ===== verification/BlockSections.v ===== *)
(** * Block sections as the validators read and miners write them

    src/validation/src/sections.rs: the parsers of the three sections of a block and
    their serializers, and the error type of src/validation/src/lib.rs. Transactions are
    parsed and printed by ergo-lib ([SectionIO], [TxPrinter]); VLQ integers are those of
    [SigmaIO]. *)

From S2P Require Import Prelude Bytes Vlq Frame ChainConfig VotingCodec Header Sections.
Import Vlq ChainConfig VotingCodec Sections.

(** [Transaction::sigma_serialize_bytes]. *)
Class TxPrinter (Tx : Type) := tx_serialize : Tx -> option (list Z).

(** The parser inverts the printer and stops where it stopped. *)
Class TxPrinterLaws (Tx : Type) `{SectionIO Tx, TxPrinter Tx} : Prop :=
  parse_printed : forall tx bs r, tx_serialize tx = Some bs -> tx_parse (bs ++ r) = Some (tx, r).

Module BlockSections.

(** Why a section does not parse or serialize. *)
Inductive parse_reason :=
  | TooShort
  | Vlq (what : string)
  | ProofTruncated (proof_size remaining : Z)
  | BadTx (i : Z)
  | FieldTruncated (i : Z)
  | FieldShort (i value_len remaining : Z)
  | OutputSerialization
  | TxSerialization (i : Z)
  | FieldTooLong (i len : Z)
  | ParamLength (id len : Z)
  | NoParameters.

Inductive ValidationError :=
  | SectionParse (section_type : Z) (reason : parse_reason)
  | HeaderIdMismatch (section_type : Z) (expected got : list Z)
  | ProofDigestMismatch (expected got : list Z)
  | StateRootMismatch (expected got : list Z)
  | ProofVerificationFailed (reason : string)
  | IntraBlockDoubleSpend (box_id : list Z)
  | TransactionInvalid (index : Z) (reason : string)
  | BlockCostExceeded (cost max_cost : Z)
  | BlockVersionMismatch (expected got : Z)
  | MissingProof
  | HeightMismatch (expected got : Z)
  | StateOperationFailed (reason : string)
  | ParameterMismatch (height : Z) (expected actual : gmap Z Z)
  | ProposedUpdateMismatch (height : Z) (expected actual : list Z).

Record ParsedAdProofs := mk_proofs {
  ap_header_id : list Z;
  proof_bytes : list Z;
}.

Record ParsedBlockTransactions (Tx : Type) := mk_block_txs {
  bt_header_id : list Z;
  block_version : Z;
  transactions : list Tx;
}.
Arguments mk_block_txs {Tx}.
Arguments bt_header_id {Tx}.
Arguments block_version {Tx}.
Arguments transactions {Tx}.

Record ParsedExtension := mk_extension {
  ext_header_id : list Z;
  ext_fields : list extension_field;
}.

Section Parse.
Context {Tx RuleStatus : Type} `{SectionIO Tx} `{SigmaIO RuleStatus} `{TxPrinter Tx}.

Definition zlen {A} (l : list A) : Z := Z.of_nat (length l).

(** The header id, and the cursor behind it. *)
Definition split_id (type_id : Z) (data : list Z) : result ValidationError (list Z * list Z) :=
  if (length data <? 33)%nat then Err (SectionParse type_id TooShort)
  else Ok (take 32 data, drop 32 data).

Definition parse_ad_proofs (data : list Z) : result ValidationError ParsedAdProofs :=
  let? (header_id, l) := split_id 104 data in
  let? (proof_size, l) := ok_or (get_u32 l) (SectionParse 104 (Vlq "proof_size")) in
  if zlen l <? proof_size then Err (SectionParse 104 (ProofTruncated proof_size (zlen l)))
  else Ok (mk_proofs header_id (take (Z.to_nat proof_size) l)).

(** [Transaction::sigma_parse] in a loop; what is left of the cursor is dropped. *)
Fixpoint parse_txs (n : nat) (i : Z) (l : list Z) : result ValidationError (list Tx) :=
  match n with
  | O => Ok []
  | S n' =>
      let? (tx, l) := ok_or (tx_parse l) (SectionParse 102 (BadTx i)) in
      let? txs := parse_txs n' (i + 1) l in
      Ok (tx :: txs)
  end.

Definition parse_block_transactions (data : list Z) : result ValidationError (ParsedBlockTransactions Tx) :=
  let? (header_id, l) := split_id 102 data in
  let? (ver_or_count, l) := ok_or (get_u32 l) (SectionParse 102 (Vlq "ver_or_count")) in
  let? (version, tx_count, l) :=
    (if BLOCK_VERSION_SENTINEL <? ver_or_count then
       let? (count, l) := ok_or (get_u32 l) (SectionParse 102 (Vlq "tx_count")) in
       Ok (ver_or_count - BLOCK_VERSION_SENTINEL, count, l)
     else Ok (1, ver_or_count, l)) in
  let? txs := parse_txs (Z.to_nat tx_count) 0 l in
  Ok (mk_block_txs header_id version txs).

Fixpoint parse_fields (n : nat) (i : Z) (l : list Z) : result ValidationError (list extension_field) :=
  match n with
  | O => Ok []
  | S n' =>
      match l with
      | k0 :: k1 :: value_len :: l =>
          if zlen l <? value_len then Err (SectionParse 108 (FieldShort i value_len (zlen l)))
          else
            let? fields := parse_fields n' (i + 1) (drop (Z.to_nat value_len) l) in
            Ok (((k0, k1), take (Z.to_nat value_len) l) :: fields)
      | _ => Err (SectionParse 108 (FieldTruncated i))
      end
  end.

Definition parse_extension (data : list Z) : result ValidationError ParsedExtension :=
  let? (header_id, l) := split_id 108 data in
  let? (field_count, l) := ok_or (get_u16 l) (SectionParse 108 (Vlq "field_count")) in
  let? fields := parse_fields (Z.to_nat field_count) 0 l in
  Ok (mk_extension header_id fields).

(** ** Serializers *)

Definition serialize_ad_proofs (header_id proof_bytes : list Z) : list Z :=
  header_id ++ put_u32 (as_u32 (zlen proof_bytes)) ++ proof_bytes.

Fixpoint serialize_txs (i : Z) (txs : list Tx) : result ValidationError (list Z) :=
  match txs with
  | [] => Ok []
  | tx :: txs' =>
      let? tx_bytes := ok_or (tx_serialize tx) (SectionParse 102 (TxSerialization i)) in
      let? rest := serialize_txs (i + 1) txs' in
      Ok (tx_bytes ++ rest)
  end.

(** The version sentinel is written for every version. *)
Definition serialize_block_transactions (header_id : list Z) (block_version : Z) (txs : list Tx)
    : result ValidationError (list Z) :=
  let? body := serialize_txs 0 txs in
  Ok (header_id ++ put_u32 (add_u32 BLOCK_VERSION_SENTINEL block_version) ++ put_u32 (as_u32 (zlen txs)) ++ body).

Fixpoint serialize_fields (i : Z) (fields : list extension_field) : result ValidationError (list Z) :=
  match fields with
  | [] => Ok []
  | (key, value) :: fields' =>
      if 255 <? zlen value then Err (SectionParse 108 (FieldTooLong i (zlen value)))
      else
        let? rest := serialize_fields (i + 1) fields' in
        Ok ([key.1; key.2; as_u8 (zlen value)] ++ value ++ rest)
  end.

(** The count is written as a [u32], where the parser reads a [u16]. *)
Definition serialize_extension (header_id : list Z) (fields : list extension_field)
    : result ValidationError (list Z) :=
  let? body := serialize_fields 0 fields in
  Ok (header_id ++ put_u32 (as_u32 (zlen fields)) ++ body).

End Parse.

(** ** What is written is read back *)

Section RoundTrip.
Context {Tx RuleStatus : Type} `{SectionIO Tx} `{SigmaIOLaws RuleStatus}.

Lemma split_id_app type_id header_id l :
  length header_id = 32%nat -> l <> [] -> split_id type_id (header_id ++ l) = Ok (header_id, l).
Proof.
  intros Hh Hl. unfold split_id. rewrite length_app, Hh.
  destruct (Nat.ltb_spec (32 + length l) 33); [destruct l; cbn in *; [done|lia]|].
  by rewrite <- Hh, take_app_length, drop_app_length.
Qed.

Lemma put_u32_app_ne v r : put_u32 v ++ r <> [].
Proof. intros [E _]%app_eq_nil. by apply put_u32_nonempty in E. Qed.

Lemma ad_proofs_roundtrip header_id proof trail :
  length header_id = 32%nat -> zlen proof <= U32_MAX ->
  parse_ad_proofs (serialize_ad_proofs header_id proof ++ trail) = Ok (mk_proofs header_id proof).
Proof.
  intros Hh Hp. unfold parse_ad_proofs, serialize_ad_proofs. rewrite <- !app_assoc.
  rewrite split_id_app by (done || apply put_u32_app_ne). cbn [result_bind].
  rewrite get_put_u32 by apply as_u32_range. cbn [ok_or result_bind].
  rewrite as_u32_small by (unfold zlen in *; int_unfold; lia). unfold zlen. rewrite length_app.
  destruct (Z.ltb_spec (Z.of_nat (length proof + length trail)) (Z.of_nat (length proof))); [lia|].
  by rewrite Nat2Z.id, take_app_length.
Qed.

Lemma txs_roundtrip `{!TxPrinter Tx, !TxPrinterLaws Tx} txs i j body trail :
  serialize_txs i txs = Ok body -> parse_txs (length txs) j (body ++ trail) = Ok txs.
Proof.
  revert i j body. induction txs as [|tx txs IH]; intros i j body E; [done|].
  cbn [serialize_txs] in E. destruct (tx_serialize tx) as [bs|] eqn:Etx; [|done]. cbn in E.
  destruct (serialize_txs (i + 1) txs) as [rest|] eqn:Er; [|done]. cbn in E. injection E as <-.
  cbn [length parse_txs]. rewrite <- app_assoc, (parse_printed tx bs) by done. cbn [ok_or result_bind].
  by rewrite (IH (i + 1) (j + 1) rest).
Qed.

Lemma fields_roundtrip fields i j body trail :
  serialize_fields i fields = Ok body -> parse_fields (length fields) j (body ++ trail) = Ok fields.
Proof.
  revert i j body. induction fields as [|[[k0 k1] v] fields IH]; intros i j body E; [done|].
  cbn [serialize_fields] in E. destruct (Z.ltb_spec 255 (zlen v)) as [|Hv]; [done|].
  destruct (serialize_fields (i + 1) fields) as [rest|] eqn:Er; [|done]. cbn [result_bind] in E.
  assert (as_u8 (zlen v) = zlen v) as Eu by (unfold as_u8, zlen in *; apply Z.mod_small; lia).
  rewrite Eu in E. injection E as <-.
  cbn [length fst snd app parse_fields]. rewrite <- app_assoc.
  destruct (Z.ltb_spec (zlen (v ++ rest ++ trail)) (zlen v)) as [Hlt|_]; [unfold zlen in Hlt; rewrite length_app in Hlt; lia|].
  unfold zlen at 1 2. rewrite Nat2Z.id, drop_app_length, take_app_length.
  by rewrite (IH (i + 1) (j + 1) rest).
Qed.

Lemma block_transactions_roundtrip `{!TxPrinter Tx, !TxPrinterLaws Tx} header_id version txs bytes trail :
  length header_id = 32%nat -> 1 <= version <= U8_MAX -> zlen txs <= U32_MAX ->
  serialize_block_transactions header_id version txs = Ok bytes ->
  parse_block_transactions (bytes ++ trail) = Ok (mk_block_txs header_id version txs).
Proof.
  intros Hh Hv Hn E. unfold serialize_block_transactions in E.
  destruct (serialize_txs 0 txs) as [body|] eqn:Eb; [|done]. cbn [result_bind] in E. injection E as <-.
  unfold parse_block_transactions. rewrite <- !app_assoc.
  rewrite split_id_app by (done || apply put_u32_app_ne). cbn [result_bind].
  rewrite get_put_u32 by apply as_u32_range. cbn [ok_or result_bind].
  assert (add_u32 BLOCK_VERSION_SENTINEL version = BLOCK_VERSION_SENTINEL + version) as ->.
  { unfold add_u32. apply as_u32_small. unfold BLOCK_VERSION_SENTINEL. int_unfold. lia. }
  destruct (Z.ltb_spec BLOCK_VERSION_SENTINEL (BLOCK_VERSION_SENTINEL + version)); [|lia].
  rewrite get_put_u32 by apply as_u32_range. cbn [ok_or result_bind].
  rewrite as_u32_small by (unfold zlen in *; int_unfold; lia). unfold zlen. rewrite Nat2Z.id.
  rewrite (txs_roundtrip txs 0 0 body) by done. cbn [result_bind]. do 2 f_equal. lia.
Qed.

End RoundTrip.

(** ** Extensions, and what a download check lets through *)

(** More of [sigma_ser]: one VLQ format for all widths, and readers that fail on an
    empty cursor and on a value beyond their width. *)
Class VlqWidths (RuleStatus : Type) `{SigmaIO RuleStatus} : Prop := {
  put_widths : forall v, is_u16 v -> put_u32 v = put_u16 v;
  get_u16_wide : forall v r, U16_MAX < v <= U32_MAX -> get_u16 (put_u32 v ++ r) = None;
  get_u32_nonneg : forall l v r, get_u32 l = Some (v, r) -> 0 <= v;
  get_u32_nil : get_u32 [] = None;
  get_u16_nil : get_u16 [] = None;
}.

Section Checked.
Context {Tx RuleStatus : Type} `{SectionIO Tx} `{SigmaIOLaws RuleStatus} `{!VlqWidths RuleStatus}.

Lemma extension_section_roundtrip header_id fields bytes trail :
  length header_id = 32%nat -> zlen fields <= U32_MAX -> serialize_extension header_id fields = Ok bytes ->
  parse_extension (bytes ++ trail) =
    if zlen fields <=? U16_MAX then Ok (mk_extension header_id fields)
    else Err (SectionParse 108 (Vlq "field_count")).
Proof.
  intros Hh Hn E. unfold serialize_extension in E.
  destruct (serialize_fields 0 fields) as [body|] eqn:Eb; [|done]. cbn [result_bind] in E. injection E as <-.
  unfold parse_extension. rewrite <- !app_assoc.
  rewrite split_id_app by (done || apply put_u32_app_ne). cbn [result_bind].
  rewrite as_u32_small by (unfold zlen in *; int_unfold; lia).
  destruct (Z.leb_spec (zlen fields) U16_MAX) as [Hle|Hgt].
  - rewrite put_widths, get_put_u16 by (unfold zlen in *; int_unfold; lia). cbn [ok_or result_bind].
    unfold zlen. rewrite Nat2Z.id. by rewrite (fields_roundtrip fields 0 0 body).
  - by rewrite get_u16_wide by lia.
Qed.

Lemma body_transactions_parse n i j l txs rest :
  body_transactions n i l = Ok (txs, rest) -> parse_txs n j l = Ok txs /\ length txs = n.
Proof.
  revert i j l txs. induction n as [|n IH]; intros i j l txs E; [by simplify_eq/=|].
  cbn [body_transactions] in E. cbn [parse_txs]. destruct (tx_parse l) as [[tx l']|]; [|done]. cbn [ok_or result_bind] in *.
  destruct (body_transactions n (i + 1) l') as [[txs' l'']|] eqn:Eb; [|done]. cbn in E. injection E as <- <-.
  destruct (IH _ (j + 1) _ _ Eb) as [-> <-]. done.
Qed.

Lemma body_fields_parse n i j l fields rest :
  body_fields n i l = Ok (fields, rest) -> parse_fields n j l = Ok fields.
Proof.
  revert i j l fields. induction n as [|n IH]; intros i j l fields E; [by simplify_eq/=|].
  cbn [body_fields] in E. cbn [parse_fields]. destruct l as [|k0 [|k1 [|len l]]]; [done..|].
  unfold read_exact in E. destruct (Nat.leb_spec (Z.to_nat len) (length l)) as [Hle|]; [|done].
  cbn [ok_or result_bind] in E.
  destruct (body_fields n (i + 1) (drop (Z.to_nat len) l)) as [[fields' l'']|] eqn:Eb; [|done].
  cbn in E. injection E as <- <-. destruct (Z.ltb_spec (zlen l) len); [unfold zlen in *; lia|].
  by rewrite (IH _ (j + 1) _ _ Eb).
Qed.

Lemma transactions_digest_inv l digest :
  transactions_digest l = Ok (digest, []) ->
  exists version txs, digest = transactions_root txs version /\ txs <> [] /\ version <= U8_MAX /\
    forall hid, length hid = 32%nat -> parse_block_transactions (hid ++ l) = Ok (mk_block_txs hid version txs).
Proof.
  unfold transactions_digest. intros E.
  destruct (get_u32 l) as [[vc l1]|] eqn:Eg; [|done]. cbn [ok_or result_bind] in E.
  assert (l <> []) as Hl by (intros ->; by rewrite get_u32_nil in Eg).
  unfold parse_block_transactions. destruct (Z.ltb_spec BLOCK_VERSION_SENTINEL vc) as [Hs|Hs].
  - destruct (Z.ltb_spec U8_MAX (vc - BLOCK_VERSION_SENTINEL)); [done|].
    destruct (get_u32 l1) as [[count l2]|] eqn:Eg2; [|done]. cbn [ok_or result_bind] in E.
    destruct (Z.eqb_spec count 0) as [|Hc]; [done|].
    destruct (body_transactions (Z.to_nat count) 0 l2) as [[txs rest]|] eqn:Eb; [|done]. cbn in E. injection E as <- ->.
    destruct (body_transactions_parse _ _ 0 _ _ _ Eb) as [Ep El].
    exists (vc - BLOCK_VERSION_SENTINEL), txs. split_and!; [done|..|done|].
    + apply get_u32_nonneg in Eg2. intros ->. cbn in El. lia.
    + intros hid Hh. rewrite split_id_app by done. cbn [result_bind]. rewrite Eg. cbn [ok_or result_bind].
      destruct (Z.ltb_spec BLOCK_VERSION_SENTINEL vc); [|lia]. rewrite Eg2. cbn [ok_or result_bind]. by rewrite Ep.
  - cbn [result_bind] in E. destruct (Z.eqb_spec vc 0) as [|Hc]; [done|].
    destruct (body_transactions (Z.to_nat vc) 0 l1) as [[txs rest]|] eqn:Eb; [|done]. cbn in E. injection E as <- ->.
    destruct (body_transactions_parse _ _ 0 _ _ _ Eb) as [Ep El].
    exists 1, txs. split_and!; [done|..|done|].
    + apply get_u32_nonneg in Eg. intros ->. cbn in El. lia.
    + intros hid Hh. rewrite split_id_app by done. cbn [result_bind]. rewrite Eg. cbn [ok_or result_bind].
      destruct (Z.ltb_spec BLOCK_VERSION_SENTINEL vc); [lia|]. cbn [result_bind]. by rewrite Ep.
Qed.

Lemma proofs_digest_inv l digest :
  proofs_digest l = Ok (digest, []) ->
  exists proof, digest = ad_proofs_digest proof /\
    forall hid, length hid = 32%nat -> parse_ad_proofs (hid ++ l) = Ok (mk_proofs hid proof).
Proof.
  unfold proofs_digest. intros E. destruct (get_u32 l) as [[size l1]|] eqn:Eg; [|done]. cbn [ok_or result_bind] in E.
  assert (l <> []) as Hl by (intros ->; by rewrite get_u32_nil in Eg).
  destruct (read_exact (Z.to_nat size) l1) as [[proof rest]|] eqn:Er; [|done]. cbn in E. injection E as <- ->.
  apply read_exact_Some in Er as [-> Hp]. exists proof. split; [done|]. intros hid Hh.
  unfold parse_ad_proofs. rewrite split_id_app by done. cbn [result_bind]. rewrite Eg. cbn [ok_or result_bind].
  rewrite app_nil_r. destruct (Z.ltb_spec (zlen proof) size); [unfold zlen in *; lia|].
  by rewrite take_ge by lia.
Qed.

Lemma extension_digest_inv l digest :
  extension_digest l = Ok (digest, []) ->
  exists fields, digest = section_extension_root fields /\
    forall hid, length hid = 32%nat -> parse_extension (hid ++ l) = Ok (mk_extension hid fields).
Proof.
  unfold extension_digest. intros E. destruct (get_u16 l) as [[count l1]|] eqn:Eg; [|done]. cbn [ok_or result_bind] in E.
  assert (l <> []) as Hl by (intros ->; by rewrite get_u16_nil in Eg).
  destruct (body_fields (Z.to_nat count) 0 l1) as [[fields rest]|] eqn:Eb; [|done]. cbn in E. injection E as <- ->.
  exists fields. split; [done|]. intros hid Hh.
  unfold parse_extension. rewrite split_id_app by done. cbn [result_bind]. rewrite Eg. cbn [ok_or result_bind].
  by rewrite (body_fields_parse _ _ 0 _ _ _ Eb).
Qed.

(** Bodies with the digests the header commits to parse in the validators. *)
Lemma committed_section_parses h txs_body proofs_body ext_body :
  committed BLOCK_TRANSACTIONS_TYPE_ID txs_body h ->
  committed AD_PROOFS_TYPE_ID proofs_body h ->
  committed EXTENSION_TYPE_ID ext_body h ->
  exists version txs proof fields,
    let hid := id_bytes (header_id h) in
    parse_block_transactions txs_body = Ok (mk_block_txs hid version txs) /\
    transactions_root txs version = id_bytes (transaction_root h) /\ txs <> [] /\ version <= U8_MAX /\
    parse_ad_proofs proofs_body = Ok (mk_proofs hid proof) /\
    ad_proofs_digest proof = id_bytes (ad_proofs_root h) /\
    parse_extension ext_body = Ok (mk_extension hid fields) /\
    section_extension_root fields = id_bytes (extension_root h).
Proof.
  intros (l1 & -> & (version & txs & Et & Hne & Hv & Ht)%transactions_digest_inv)
    (l2 & -> & (proof & Ep & Hp)%proofs_digest_inv) (l3 & -> & (fields & Ef & Hf)%extension_digest_inv).
  exists version, txs, proof, fields. pose proof (id_bytes_length (header_id h)) as Hl.
  rewrite Ht, Hp, Hf by done. by split_and!.
Qed.

(** The check of a delivered body: its id, recomputed from its bytes, is the id the header
    gives the section of that type. *)
Definition delivered (type_id : Z) (body : list Z) (h : Header) : Prop :=
  exists ident, section_id_from_body type_id body = Ok ident /\ (type_id, identity ident) ∈ section_ids h.

(** C26: sections that pass the check made when they are delivered always parse in the
    validators, to the header's own id and to content with the root the header commits to:
    the validators, which compare neither, are given the block the header names. A
    transactions section has at least one transaction and a one-byte version, and each
    body is the header's id and a payload that is read to its last byte. The alternative
    is that one of the bodies itself exhibits two different strings, one hashed from the
    body and one from the header, with the same Blake2b256 digest. *)
Theorem delivered_sections_parse h txs_body proofs_body ext_body :
  delivered BLOCK_TRANSACTIONS_TYPE_ID txs_body h ->
  delivered AD_PROOFS_TYPE_ID proofs_body h ->
  delivered EXTENSION_TYPE_ID ext_body h ->
  (exists version txs proof fields,
    let hid := id_bytes (header_id h) in
    parse_block_transactions txs_body = Ok (mk_block_txs hid version txs) /\
    transactions_root txs version = id_bytes (transaction_root h) /\ txs <> [] /\ version <= U8_MAX /\
    parse_ad_proofs proofs_body = Ok (mk_proofs hid proof) /\
    ad_proofs_digest proof = id_bytes (ad_proofs_root h) /\
    parse_extension ext_body = Ok (mk_extension hid fields) /\
    section_extension_root fields = id_bytes (extension_root h) /\
    committed BLOCK_TRANSACTIONS_TYPE_ID txs_body h /\ committed AD_PROOFS_TYPE_ID proofs_body h /\
    committed EXTENSION_TYPE_ID ext_body h) \/
  colliding BLOCK_TRANSACTIONS_TYPE_ID txs_body h \/ colliding AD_PROOFS_TYPE_ID proofs_body h \/
  colliding EXTENSION_TYPE_ID ext_body h.
Proof.
  intros [Hc1|]%section_check_exact [Hc2|]%section_check_exact [Hc3|]%section_check_exact; try tauto;
    try (unfold section_ids; cbn [fmap list_fmap fst]; rewrite !elem_of_cons; auto).
  left. destruct (committed_section_parses h _ _ _ Hc1 Hc2 Hc3) as (version & txs & proof & fields & Hp).
  exists version, txs, proof, fields. cbv zeta in Hp |- *. tauto.
Qed.

(** what the miner writes is what the validators read: a serialized section parses to
    the same header id and content, whatever follows it. For an extension this holds up
    to 65535 fields; beyond, the writer succeeds and the parser rejects its output. *)
Theorem block_sections_roundtrip `{!TxPrinter Tx, !TxPrinterLaws Tx} header_id version txs proof fields b1 b2 trail :
  length header_id = 32%nat -> 1 <= version <= U8_MAX ->
  zlen txs <= U32_MAX -> zlen proof <= U32_MAX -> zlen fields <= U32_MAX ->
  serialize_block_transactions header_id version txs = Ok b1 ->
  serialize_extension header_id fields = Ok b2 ->
  parse_block_transactions (b1 ++ trail) = Ok (mk_block_txs header_id version txs) /\
  parse_ad_proofs (serialize_ad_proofs header_id proof ++ trail) = Ok (mk_proofs header_id proof) /\
  parse_extension (b2 ++ trail) =
    if zlen fields <=? U16_MAX then Ok (mk_extension header_id fields)
    else Err (SectionParse 108 (Vlq "field_count")).
Proof.
  intros Hh Hv Ht Hp Hf E1 E2. split_and!.
  - by eapply block_transactions_roundtrip.
  - by apply ad_proofs_roundtrip.
  - by apply extension_section_roundtrip.
Qed.

End Checked.

(** ** An instance: one-byte transactions *)

Module Examples.

Lemma read_vlq_nonneg l v r : read_vlq l = Ok (v, r) -> 0 <= v.
Proof. intros E. by apply read_vlq_loop_range in E; [apply E|..]. Qed.

#[export] Instance vlq_widths : VlqWidths Z.
Proof.
  split; [done|..|done|done].
  - intros v r Hv. cbn [get_u16 put_u32 vlq_io]. unfold get_checked.
    rewrite read_vlq_write by (int_unfold; lia). by destruct (Z.leb_spec v U16_MAX); [lia|].
  - intros l v r. cbn [get_u32 vlq_io]. unfold get_checked.
    destruct (read_vlq l) as [[v' r']|] eqn:E; [|done]. case_match; [|done]. intros [= <- <-].
    by eapply read_vlq_nonneg.
Qed.

#[export] Instance ex_sections : SectionIO Z := {
  blake2b256 l := replicate 31 0 ++ [foldl (fun a b => (a * 31 + b + 1) mod 251) 0 l];
  merkle_root ls := replicate 31 0 ++ [Z.of_nat (length ls)];
  tx_parse l := match l with x :: r => Some (x, r) | [] => None end;
  tx_id x := [x];
  tx_proofs x := [];
}.

#[export] Instance ex_printer : TxPrinter Z := fun tx => Some [tx].

#[export] Instance ex_printer_laws : TxPrinterLaws Z.
Proof. by intros tx bs r [= <-]. Qed.

(** A header, with the bodies of its sections: two transactions, a proof of one byte, an
    extension field. *)
Definition ex_proof : list Z := [4].
Definition ex_header : Header :=
  mk_header 2 7 6 (from_be (blake2b256 ex_proof)) 4 38 1000 10 1 (0, 0, 0).
Definition ex_txs_body : list Z := id_bytes 7 ++ put_u32 (BLOCK_VERSION_SENTINEL + 2) ++ put_u32 2 ++ [5; 6].
Definition ex_proofs_body : list Z := id_bytes 7 ++ put_u32 1 ++ ex_proof.
Definition ex_ext_body : list Z := id_bytes 7 ++ put_u16 1 ++ [0; 1; 2; 5; 6].

Lemma delivered_sections_parse_witness :
  exists version txs proof fields,
    parse_block_transactions ex_txs_body = Ok (mk_block_txs (id_bytes 7) version txs) /\
    parse_ad_proofs ex_proofs_body = Ok (mk_proofs (id_bytes 7) proof) /\
    parse_extension ex_ext_body = Ok (mk_extension (id_bytes 7) fields) /\
    ad_proofs_digest proof = blake2b256 ex_proof.
Proof.
  assert (delivered BLOCK_TRANSACTIONS_TYPE_ID ex_txs_body ex_header) as H1
    by (eexists; split; [vm_compute; reflexivity|apply (bool_decide_unpack _); vm_compute; exact I]).
  assert (delivered AD_PROOFS_TYPE_ID ex_proofs_body ex_header) as H2
    by (eexists; split; [vm_compute; reflexivity|apply (bool_decide_unpack _); vm_compute; exact I]).
  assert (delivered EXTENSION_TYPE_ID ex_ext_body ex_header) as H3
    by (eexists; split; [vm_compute; reflexivity|apply (bool_decide_unpack _); vm_compute; exact I]).
  destruct (delivered_sections_parse ex_header _ _ _ H1 H2 H3)
    as [(version & txs & proof & fields & Et & _ & _ & _ & Ep & Hp & Ef & _)|[Hc|[Hc|Hc]]];
    [|exfalso; revert Hc; apply committed_not_colliding; eexists; split; [reflexivity|by vm_compute]..].
  exists version, txs, proof, fields. split_and!; [exact Et|exact Ep|exact Ef|]. rewrite Hp. by vm_compute.
Defined.

Lemma block_sections_roundtrip_witness :
  parse_block_transactions ((id_bytes 7 ++ put_u32 (BLOCK_VERSION_SENTINEL + 2) ++ put_u32 2 ++ [5; 6]) ++ [9]) =
    Ok (mk_block_txs (id_bytes 7) 2 [5; 6]) /\
  parse_extension ((id_bytes 7 ++ put_u32 1 ++ [0; 1; 2; 5; 6]) ++ [9]) =
    Ok (mk_extension (id_bytes 7) [((0, 1), [5; 6])]).
Proof.
  destruct (block_sections_roundtrip (id_bytes 7) 2 [5; 6] [4] [((0, 1), [5; 6])]
              (id_bytes 7 ++ put_u32 (BLOCK_VERSION_SENTINEL + 2) ++ put_u32 2 ++ [5; 6])
              (id_bytes 7 ++ put_u32 1 ++ [0; 1; 2; 5; 6]) [9]) as (Ht & _ & Hf);
    [by vm_compute|by vm_compute|by vm_compute..|].
  split; [exact Ht|exact Hf].
Defined.

End Examples.

End BlockSections.
