(* ===== verification/StateChanges.v ===== *)
(** * Tree operations of a block

    src/validation/src/state_changes.rs: the summaries of a block's transactions and the
    lookups, removals and insertions they amount to, boxes created and spent within the
    block left out. The theorem relates them to applying the transactions one after the
    other. Transactions and boxes are those of ergo-lib ([ErgoTx]). *)

From S2P Require Import Prelude Bytes AvlTree StateStorage StateReader BlockSections.
Import Avl State Reader BlockSections.

(** Transactions and boxes: ids are 32 bytes; the bytes of a box may not serialize or
    parse. *)
Class ErgoTx (Tx Box : Type) := {
  tx_inputs : Tx -> list (list Z);
  tx_data_inputs : Tx -> option (list (list Z));
  tx_outputs : Tx -> list Box;
  box_id : Box -> list Z;
  box_serialize : Box -> option (list Z);
  box_parse : list Z -> option Box;
  box_tree_bytes : Box -> option (list Z);
}.

Module StateChanges.

Record TxSummary := mk_summary {
  input_ids : list (list Z);
  data_input_ids : list (list Z);
  output_entries : list (list Z * list Z);
}.

(** [Insertion]: a box id and the bytes of the box. *)
Definition Insertion : Type := list Z * list Z.

Record StateChanges := mk_changes {
  lookups : list (list Z);
  removals : list (list Z);
  insertions : list Insertion;
}.

(** The order of byte arrays, and of insertions by their key. *)
Definition id_le (a b : list Z) : Prop := lex_ltb b a = false.
Definition entry_le (a b : Insertion) : Prop := id_le a.1 b.1.

#[global] Instance id_le_dec : RelDecision id_le.
Proof. intros a b. unfold id_le. apply _. Defined.
#[global] Instance entry_le_dec : RelDecision entry_le.
Proof. intros a b. unfold entry_le. apply _. Defined.

(** The variables of the loop over the transactions. *)
Record Acc := mk_acc {
  created : gset (list Z);
  netted : gset (list Z);
  spent : gset (list Z);
  acc_removals : list (list Z);
  acc_lookups : list (list Z);
  all_inserts : list Insertion;
}.

Definition acc_empty : Acc := mk_acc ∅ ∅ ∅ [] [] [].

Definition spend_input (id : list Z) (a : Acc) : result ValidationError Acc :=
  if decide (id ∈ spent a) then Err (IntraBlockDoubleSpend id)
  else
    let spent' := {[ id ]} ∪ spent a in
    if decide (id ∈ created a)
    then Ok (mk_acc (created a) ({[ id ]} ∪ netted a) spent' (acc_removals a) (acc_lookups a) (all_inserts a))
    else Ok (mk_acc (created a) (netted a) spent' (acc_removals a ++ [id]) (acc_lookups a) (all_inserts a)).

Fixpoint spend_inputs (ids : list (list Z)) (a : Acc) : result ValidationError Acc :=
  match ids with
  | [] => Ok a
  | id :: ids' => let? a := spend_input id a in spend_inputs ids' a
  end.

Definition create_output (e : Insertion) (a : Acc) : Acc :=
  mk_acc ({[ e.1 ]} ∪ created a) (netted a) (spent a) (acc_removals a) (acc_lookups a) (all_inserts a ++ [e]).

Definition add_lookups (ids : list (list Z)) (a : Acc) : Acc :=
  mk_acc (created a) (netted a) (spent a) (acc_removals a) (acc_lookups a ++ ids) (all_inserts a).

Fixpoint summarize (ts : list TxSummary) (a : Acc) : result ValidationError Acc :=
  match ts with
  | [] => Ok a
  | t :: ts' =>
      let? a := spend_inputs (input_ids t) a in
      let a := foldl (fun a e => create_output e a) a (output_entries t) in
      summarize ts' (add_lookups (data_input_ids t) a)
  end.

Definition compute_state_changes (ts : list TxSummary) : result ValidationError StateChanges :=
  let? a := summarize ts acc_empty in
  Ok (mk_changes (acc_lookups a) (stable_sort id_le (acc_removals a))
        (stable_sort entry_le (filter (fun e : Insertion => e.1 ∉ netted a) (all_inserts a)))).

Section Summaries.
Context {Tx Box : Type} `{ErgoTx Tx Box}.

Fixpoint output_list (outs : list Box) : result ValidationError (list Insertion) :=
  match outs with
  | [] => Ok []
  | b :: outs' =>
      let? bytes := ok_or (box_serialize b) (SectionParse 102 OutputSerialization) in
      let? rest := output_list outs' in
      Ok ((box_id b, bytes) :: rest)
  end.

Fixpoint transactions_to_summaries (txs : list Tx) : result ValidationError (list TxSummary) :=
  match txs with
  | [] => Ok []
  | tx :: txs' =>
      let? outs := output_list (tx_outputs tx) in
      let? rest := transactions_to_summaries txs' in
      Ok (mk_summary (tx_inputs tx) (default [] (tx_data_inputs tx)) outs :: rest)
  end.

End Summaries.

(** ** Transactions one after the other *)

Abbreviation utxo_set := (gmap (list Z) (list Z)).

(** Each id leaves the set, which must hold it. *)
Fixpoint spend (ids : list (list Z)) (u : utxo_set) : option utxo_set :=
  match ids with
  | [] => Some u
  | id :: ids' => match u !! id with Some _ => spend ids' (delete id u) | None => None end
  end.

(** Each box enters the set, which must not hold its id. *)
Fixpoint create (es : list Insertion) (u : utxo_set) : option utxo_set :=
  match es with
  | [] => Some u
  | (id, v) :: es' => match u !! id with Some _ => None | None => create es' (<[id := v]> u) end
  end.

Definition apply_tx (t : TxSummary) (u : utxo_set) : option utxo_set :=
  spend (input_ids t) u ≫= create (output_entries t).

Fixpoint apply_txs (ts : list TxSummary) (u : utxo_set) : option utxo_set :=
  match ts with
  | [] => Some u
  | t :: ts' => apply_tx t u ≫= apply_txs ts'
  end.

(** The removals of a block, then its insertions. *)
Definition apply_changes (c : StateChanges) (u : utxo_set) : option utxo_set :=
  spend (removals c) u ≫= create (insertions c).

Definition block_outputs (ts : list TxSummary) : list Insertion := concat (output_entries <$> ts).

(** ** Order does not matter *)

Lemma spend_spec ids u u' :
  spend ids u = Some u' <->
  NoDup ids /\ (forall id, id ∈ ids -> is_Some (u !! id)) /\ u' = filter (fun kv => kv.1 ∉ ids) u.
Proof.
  revert u. induction ids as [|id ids IH]; intros u; cbn [spend].
  - rewrite map_filter_id by (intros; apply not_elem_of_nil). split.
    + intros [= <-]. split_and!; [constructor|by intros ? ?%elem_of_nil|done].
    + by intros (_ & _ & ->).
  - destruct (u !! id) as [v|] eqn:Ev.
    + rewrite IH, NoDup_cons. assert (filter (fun kv => kv.1 ∉ id :: ids) u =
        filter (fun kv : list Z * list Z => kv.1 ∉ ids) (delete id u)) as ->.
      { apply map_eq. intros k. apply option_eq. intros x.
        rewrite !map_lookup_filter_Some, lookup_delete_Some, not_elem_of_cons. cbn. naive_solver. }
      split.
      * intros (Hnd & Hin & ->). split_and!; [|done|..|done].
        -- intros Hid. destruct (Hin id Hid) as [x Hx]. by rewrite lookup_delete_eq in Hx.
        -- intros k [->|Hk]%elem_of_cons; [by eauto|]. destruct (Hin k Hk) as [x Hx].
           apply lookup_delete_Some in Hx as [_ Hx]. eauto.
      * intros ([Hid Hnd] & Hin & ->). split_and!; [done| |done]. intros k Hk.
        rewrite lookup_delete_ne by (by intros ->). apply Hin. by right.
    + split; [done|]. intros (_ & Hin & _). destruct (Hin id ltac:(by left)) as [x Hx]. congruence.
Qed.

Lemma create_spec es u u' :
  create es u = Some u' <->
  NoDup es.*1 /\ (forall id, id ∈ es.*1 -> u !! id = None) /\ u' = list_to_map es ∪ u.
Proof.
  revert u. induction es as [|[id v] es IH]; intros u; cbn [create fmap list_fmap fst list_to_map foldr].
  - rewrite (left_id_L ∅ (∪)). split.
    + intros [= <-]. split_and!; [constructor|by intros ? ?%elem_of_nil|done].
    + by intros (_ & _ & ->).
  - destruct (u !! id) as [x|] eqn:Ev.
    + split; [done|]. intros (_ & Hin & _). rewrite (Hin id) in Ev by (by left). done.
    + rewrite IH, NoDup_cons. cbn [uncurry]. fold (list_to_map (M := utxo_set) es). split.
      * intros (Hnd & Hin & ->). assert (id ∉ es.*1) as Hid
          by (intros Hid; apply Hin in Hid; by rewrite lookup_insert_eq in Hid).
        split_and!; [done|done|..].
        -- intros k [->|Hk]%elem_of_cons; [done|]. specialize (Hin k Hk). by apply lookup_insert_None in Hin as [? _].
        -- rewrite <- insert_union_l, <- insert_union_r; [done|]. by apply not_elem_of_list_to_map_1.
      * intros ([Hid Hnd] & Hin & ->). split_and!; [done|..].
        -- intros k Hk. rewrite lookup_insert_ne by (by intros ->). apply Hin. by right.
        -- rewrite <- insert_union_l, <- insert_union_r; [done|]. by apply not_elem_of_list_to_map_1.
Qed.

Lemma spend_perm ids ids' u : ids ≡ₚ ids' -> spend ids u = spend ids' u.
Proof.
  intros Hp. apply option_eq. intros u'. rewrite !spend_spec, Hp.
  assert (filter (fun kv => kv.1 ∉ ids) u = filter (fun kv : list Z * list Z => kv.1 ∉ ids') u) as ->.
  { apply map_filter_ext. intros k x _. cbn. by rewrite Hp. }
  by setoid_rewrite Hp.
Qed.

Lemma create_perm es es' u : es ≡ₚ es' -> create es u = create es' u.
Proof.
  intros Hp. apply option_eq. intros u'. rewrite !create_spec.
  assert (es.*1 ≡ₚ es'.*1) as Hp1 by (by rewrite Hp). setoid_rewrite Hp1.
  split; (intros (Hnd & ? & ->); split_and!; [done..|]; f_equal).
  - apply list_to_map_proper; [by rewrite Hp1|done].
  - symmetry. apply list_to_map_proper; [by rewrite Hp1|done].
Qed.

(** ** The loop follows the transactions *)

(** The set after the operations gathered so far, on a set [u]. *)
Definition denotes (u : utxo_set) (a : Acc) : option utxo_set :=
  spend (acc_removals a) u ≫= create (filter (fun e : Insertion => e.1 ∉ netted a) (all_inserts a)).

(** What the loop keeps, on a set [u] that holds none of the ids created so far. *)
Record acc_ok (u : utxo_set) (a : Acc) : Prop := {
  ao_created : forall id, id ∈ created a <-> id ∈ (all_inserts a).*1;
  ao_nodup : NoDup (all_inserts a).*1;
  ao_netted : netted a ⊆ created a;
  ao_spent : forall id, id ∈ spent a <-> id ∈ acc_removals a \/ id ∈ netted a;
  ao_fresh : forall id, id ∈ created a -> u !! id = None;
}.

(** When the set exists, a lookup in it. *)
Definition cur_lookup (u : utxo_set) (a : Acc) (k : list Z) : option (list Z) :=
  if decide (k ∈ spent a) then None
  else match list_to_map (M := utxo_set) (all_inserts a) !! k with Some v => Some v | None => u !! k end.

Lemma filter_keys_sublist (P : Insertion -> Prop) `{forall e, Decision (P e)} (es : list Insertion) :
  sublist ((filter P es).*1) (es.*1).
Proof. apply fmap_sublist, sublist_filter. Qed.

Definition kept (a : Acc) : list Insertion := filter (fun e : Insertion => e.1 ∉ netted a) (all_inserts a).

Lemma kept_nodup u a : acc_ok u a -> NoDup (kept a).*1.
Proof. intros Ha. eapply sublist_NoDup; [apply Ha|apply filter_keys_sublist]. Qed.

Lemma kept_lookup a u k v :
  acc_ok u a ->
  (list_to_map (M := utxo_set) (kept a) !! k = Some v) <->
  (k ∉ netted a) /\ list_to_map (M := utxo_set) (all_inserts a) !! k = Some v.
Proof.
  intros Ha. rewrite <- !elem_of_list_to_map by (apply Ha || by eapply kept_nodup).
  unfold kept. by rewrite list_elem_of_filter.
Qed.

Lemma inserted_fresh u a k v :
  acc_ok u a -> list_to_map (M := utxo_set) (all_inserts a) !! k = Some v -> u !! k = None.
Proof.
  intros Ha Hl%elem_of_list_to_map_2. apply (ao_fresh _ _ Ha), (ao_created _ _ Ha), list_elem_of_fmap.
  by exists (k, v).
Qed.

Lemma batch_lookup u a k :
  acc_ok u a -> (forall id, id ∈ acc_removals a -> is_Some (u !! id)) ->
  (list_to_map (kept a) ∪ filter (fun kv => kv.1 ∉ acc_removals a) u) !! k = cur_lookup u a k.
Proof.
  intros Ha Hrem. unfold cur_lookup. apply option_eq. intros v.
  rewrite lookup_union_Some_raw, map_lookup_filter_Some, (kept_lookup a u) by done.
  destruct (decide (k ∈ spent a)) as [Hs|Hs].
  - split; [|done]. apply (ao_spent _ _ Ha) in Hs. intros [[Hn Hl]|[_ [Hu Hr]]]; cbn in *.
    + destruct Hs as [Hs|?]; [|done]. apply Hrem in Hs as [x Hx]. by rewrite (inserted_fresh u a k v) in Hx.
    + destruct Hs as [?|Hs]; [done|]. apply (ao_netted _ _ Ha), (ao_fresh _ _ Ha) in Hs. congruence.
  - assert ((k ∉ netted a) /\ k ∉ acc_removals a) as [Hn Hr] by (rewrite (ao_spent _ _ Ha) in Hs; tauto).
    destruct (list_to_map (M := utxo_set) (all_inserts a) !! k) as [x|] eqn:Ex.
    + pose proof (inserted_fresh u a k x Ha Ex). naive_solver congruence.
    + split; [naive_solver|]. intros Hu. right. split; [|by split].
      destruct (list_to_map (M := utxo_set) (kept a) !! k) as [y|] eqn:Ey; [|done].
      apply (kept_lookup a u) in Ey as [_ Ey]; [congruence|done].
Qed.

Lemma denotes_spec u a u' :
  acc_ok u a ->
  (denotes u a = Some u') <->
  NoDup (acc_removals a) /\ (forall id, id ∈ acc_removals a -> is_Some (u !! id)) /\
  forall k, u' !! k = cur_lookup u a k.
Proof.
  intros Ha. unfold denotes. fold (kept a). split.
  - intros (u1 & Hs & Hc)%bind_Some. apply spend_spec in Hs as (Hnd1 & Hin & ->).
    apply create_spec in Hc as (_ & _ & ->). split_and!; [done..|]. intros k. by apply batch_lookup.
  - intros (Hnd1 & Hin & Hu). apply bind_Some. eexists. split; [by apply spend_spec|].
    apply create_spec. split_and!; [by eapply kept_nodup|..].
    + intros id Hid. rewrite map_lookup_filter. rewrite (ao_fresh _ _ Ha id); [done|].
      apply (ao_created _ _ Ha). eapply elem_of_submseteq; [done|]. apply sublist_submseteq, filter_keys_sublist.
    + apply map_eq. intros k. by rewrite Hu, batch_lookup.
Qed.

(** One more id spent: the set exists as before, and held the id. *)
Lemma spend_step u id a a' :
  acc_ok u a -> acc_ok u a' -> spent a' = {[id]} ∪ spent a -> all_inserts a' = all_inserts a ->
  (NoDup (acc_removals a') /\ (forall k, k ∈ acc_removals a' -> is_Some (u !! k)) <->
   NoDup (acc_removals a) /\ (forall k, k ∈ acc_removals a -> is_Some (u !! k)) /\ is_Some (cur_lookup u a id)) ->
  denotes u a' = (denotes u a ≫= spend [id]).
Proof.
  intros Ha Ha' Hsp Hins Hiff. apply option_eq. intros u'. rewrite bind_Some, (denotes_spec _ _ _ Ha').
  assert (forall k, cur_lookup u a' k = if decide (k = id) then None else cur_lookup u a k) as Hcur.
  { intros k. unfold cur_lookup. rewrite Hsp, Hins. repeat case_decide; set_solver. }
  split.
  - intros (H1 & H2 & Hu'). destruct (proj1 Hiff (conj H1 H2)) as (H3 & H4 & [v Hv]).
    exists (<[id := v]> u'). rewrite (denotes_spec _ _ _ Ha). split; [split_and!; [done..|]|].
    + intros k. destruct (decide (k = id)) as [->|Hne]; [by rewrite lookup_insert_eq|].
      rewrite lookup_insert_ne, Hu', Hcur by done. by rewrite decide_False.
    + cbn. rewrite lookup_insert_eq. f_equal. rewrite delete_insert_id; [done|]. by rewrite Hu', Hcur, decide_True.
  - intros (u1 & (H3 & H4 & Hu)%(denotes_spec _ _ _ Ha) & E). cbn in E. rewrite Hu in E.
    destruct (cur_lookup u a id) as [v|] eqn:Ev; [|done]. injection E as <-.
    destruct (proj2 Hiff (conj H3 (conj H4 (ex_intro _ v eq_refl)))) as [H1 H2]. split_and!; [done..|].
    intros k. rewrite Hcur. destruct (decide (k = id)) as [->|]; [by rewrite lookup_delete_eq|].
    by rewrite lookup_delete_ne, Hu by done.
Qed.

Lemma spend_input_ok u id a :
  acc_ok u a ->
  match spend_input id a with
  | Ok a' => acc_ok u a' /\ all_inserts a' = all_inserts a /\ denotes u a' = (denotes u a ≫= spend [id])
  | Err _ => (denotes u a ≫= spend [id]) = None
  end.
Proof.
  intros Ha. unfold spend_input. destruct (decide (id ∈ spent a)) as [Hs|Hs].
  { destruct (denotes u a) as [u1|] eqn:E; [|done]. apply (denotes_spec _ _ _ Ha) in E as (_ & _ & Hu). cbn.
    rewrite Hu. unfold cur_lookup. by rewrite decide_True. }
  assert ((id ∉ acc_removals a) /\ id ∉ netted a) as [Hr Hn] by (rewrite (ao_spent _ _ Ha) in Hs; tauto).
  pose proof Ha as [Hc Hnd Hnet Hsp Hf]. destruct (decide (id ∈ created a)) as [Hin|Hin].
  - set (a' := mk_acc _ _ _ _ _ _). assert (acc_ok u a') as Ha'.
    { split; cbn; [done|done|set_solver|set_solver|done]. }
    split_and!; [done|done|]. apply spend_step; [done..|]. cbn.
    assert (is_Some (cur_lookup u a id)); [|tauto]. unfold cur_lookup. rewrite decide_False by done.
    apply Hc, list_elem_of_fmap in Hin as ([k v] & -> & Hin). cbn in *.
    rewrite (elem_of_list_to_map_1 _ k v) by done. eauto.
  - set (a' := mk_acc _ _ _ _ _ _). assert (acc_ok u a') as Ha'.
    { split; cbn; [done|done|done|set_solver|done]. }
    split_and!; [done|done|]. apply spend_step; [done..|]. cbn.
    assert (cur_lookup u a id = u !! id) as ->.
    { unfold cur_lookup. rewrite decide_False by done. rewrite not_elem_of_list_to_map_1; [done|].
      by rewrite <- Hc. }
    rewrite NoDup_app. setoid_rewrite elem_of_app. setoid_rewrite list_elem_of_singleton.
    split; [naive_solver|]. intros (? & ? & ?). split; [split_and!; [done| |apply NoDup_singleton]|]; naive_solver.
Qed.

Lemma create_output_ok u e a :
  acc_ok u a -> e.1 ∉ created a -> u !! e.1 = None ->
  acc_ok u (create_output e a) /\ denotes u (create_output e a) = (denotes u a ≫= create [e]).
Proof.
  intros Ha Hc Hu. pose proof Ha as [Hcr Hnd Hnet Hsp Hf]. assert (e.1 ∉ (all_inserts a).*1) as Hni by (by rewrite <- Hcr).
  split.
  - split; cbn; rewrite ?fmap_app; cbn [fmap list_fmap].
    + intros id. rewrite elem_of_union, elem_of_singleton, elem_of_app, list_elem_of_singleton, Hcr. tauto.
    + apply NoDup_app. split_and!; [done| |apply NoDup_singleton]. intros k Hk ->%list_elem_of_singleton. done.
    + set_solver.
    + done.
    + set_solver.
  - unfold denotes. cbn [create_output acc_removals all_inserts netted].
    rewrite filter_app, filter_cons_True, filter_nil by set_solver.
    destruct (spend (acc_removals a) u) as [u1|]; [cbn|done].
    generalize (filter (fun e0 : Insertion => e0.1 ∉ netted a) (all_inserts a)). intros es. revert u1.
    induction es as [|[id v] es IH]; intros u1; [done|]. cbn [app create]. destruct (u1 !! id); [done|]. apply IH.
Qed.

Lemma spend_app ids ids' u : spend (ids ++ ids') u = (spend ids u ≫= spend ids').
Proof. revert u. induction ids as [|id ids IH]; intros u; [done|]. cbn. destruct (u !! id); [apply IH|done]. Qed.

Lemma create_app es es' u : create (es ++ es') u = (create es u ≫= create es').
Proof. revert u. induction es as [|[id v] es IH]; intros u; [done|]. cbn. destruct (u !! id); [done|apply IH]. Qed.

Lemma spend_inputs_ok u ids a :
  acc_ok u a ->
  match spend_inputs ids a with
  | Ok a' => acc_ok u a' /\ all_inserts a' = all_inserts a /\ denotes u a' = (denotes u a ≫= spend ids)
  | Err _ => (denotes u a ≫= spend ids) = None
  end.
Proof.
  revert a. induction ids as [|id ids IH]; intros a Ha; cbn [spend_inputs].
  { split_and!; [done..|]. by destruct (denotes u a). }
  assert ((denotes u a ≫= spend (id :: ids)) = ((denotes u a ≫= spend [id]) ≫= spend ids)) as ->.
  { destruct (denotes u a) as [u1|]; [|done]. exact (spend_app [id] ids u1). }
  pose proof (spend_input_ok u id a Ha) as Hs. destruct (spend_input id a) as [a1|e]; cbn [result_bind].
  - destruct Hs as (Ha1 & Ei & <-). specialize (IH a1 Ha1). destruct (spend_inputs ids a1); [|done].
    destruct IH as (? & -> & ->). done.
  - by rewrite Hs.
Qed.

Lemma create_outputs_ok u es a :
  acc_ok u a -> NoDup ((all_inserts a).*1 ++ es.*1) -> (forall id, id ∈ es.*1 -> u !! id = None) ->
  let a' := foldl (fun a e => create_output e a) a es in
  acc_ok u a' /\ all_inserts a' = all_inserts a ++ es /\ denotes u a' = (denotes u a ≫= create es).
Proof.
  revert a. induction es as [|e es IH]; intros a Ha Hnd Hf; cbn [foldl].
  { rewrite app_nil_r. split_and!; [done..|]. by destruct (denotes u a). }
  cbn [fmap list_fmap] in Hnd, Hf. destruct (create_output_ok u e a) as [Ha1 E1]; [done|..].
  { rewrite (ao_created _ _ Ha). apply NoDup_app in Hnd as (_ & Hd & _). intros Hin. by apply (Hd _ Hin); left. }
  { apply Hf. by left. }
  destruct (IH (create_output e a) Ha1) as (Ha2 & Ei & E2).
  { cbn [create_output all_inserts]. rewrite fmap_app, <- app_assoc. exact Hnd. }
  { intros id Hid. apply Hf. by right. }
  split_and!; [done| |].
  - rewrite Ei. cbn [create_output all_inserts]. by rewrite <- app_assoc.
  - rewrite E2, E1. destruct (denotes u a) as [u1|]; [|done]. symmetry. exact (create_app [e] es u1).
Qed.

Lemma summarize_ok u ts a :
  acc_ok u a -> NoDup ((all_inserts a).*1 ++ (block_outputs ts).*1) ->
  (forall id, id ∈ (block_outputs ts).*1 -> u !! id = None) ->
  match summarize ts a with
  | Ok a' => denotes u a' = (denotes u a ≫= apply_txs ts)
  | Err _ => (denotes u a ≫= apply_txs ts) = None
  end.
Proof.
  revert a. induction ts as [|t ts IH]; intros a Ha Hnd Hf; cbn [summarize]; [by destruct (denotes u a)|].
  unfold block_outputs in Hnd, Hf. cbn [fmap list_fmap concat] in Hnd, Hf. rewrite fmap_app in Hnd, Hf.
  pose proof (spend_inputs_ok u (input_ids t) a Ha) as Hs.
  assert ((denotes u a ≫= apply_txs (t :: ts)) =
    (((denotes u a ≫= spend (input_ids t)) ≫= create (output_entries t)) ≫= apply_txs ts)) as ->
    by (by destruct (denotes u a)).
  destruct (spend_inputs (input_ids t) a) as [a1|e]; cbn [result_bind]; [|by rewrite Hs].
  destruct Hs as (Ha1 & Ei & <-). rewrite app_assoc in Hnd.
  destruct (create_outputs_ok u (output_entries t) a1) as (Ha2 & Ei2 & <-); [done|..].
  { rewrite Ei. by apply NoDup_app in Hnd as (? & _ & _). }
  { intros id Hid. apply Hf, elem_of_app. by left. }
  set (a2 := foldl _ _ _) in *. apply (IH (add_lookups (data_input_ids t) a2)).
  - destruct Ha2. by split.
  - cbn [add_lookups all_inserts]. rewrite Ei2, Ei, fmap_app. exact Hnd.
  - intros id Hid. apply Hf, elem_of_app. by right.
Qed.

Lemma changes_spec ts u :
  NoDup (block_outputs ts).*1 -> (forall id, id ∈ (block_outputs ts).*1 -> u !! id = None) ->
  apply_txs ts u = match compute_state_changes ts with Ok c => apply_changes c u | Err _ => None end.
Proof.
  intros Hnd Hf. assert (acc_ok u acc_empty) as Ha0 by (split; cbn; [set_solver|constructor|set_solver..]).
  pose proof (summarize_ok u ts acc_empty Ha0 Hnd Hf) as Hs. unfold compute_state_changes.
  destruct (summarize ts acc_empty) as [a|e]; cbn [result_bind]; [|done].
  change (denotes u acc_empty) with (Some u) in Hs. cbn in Hs. rewrite <- Hs.
  unfold apply_changes, denotes. cbn [removals insertions].
  rewrite (spend_perm (stable_sort id_le (acc_removals a)) (acc_removals a)) by apply stable_sort_Permutation.
  destruct (spend (acc_removals a) u); [|done]. cbn. symmetry. apply create_perm, stable_sort_Permutation.
Qed.

Lemma lex_asym a b : lex_ltb a b = true -> lex_ltb b a = false.
Proof.
  revert b. induction a as [|x a IH]; intros [|y b]; cbn; try done.
  destruct (Z.ltb_spec x y), (Z.ltb_spec y x); try done; try lia. apply IH.
Qed.

#[global] Instance id_le_total : Total id_le.
Proof. intros a b. unfold id_le. destruct (lex_ltb b a) eqn:E; [right; by apply lex_asym|by left]. Qed.
#[global] Instance entry_le_total : Total entry_le.
Proof. intros a b. apply id_le_total. Qed.
#[global] Instance id_le_trans : Transitive id_le.
Proof.
  unfold id_le. intros a. induction a as [|x a IH]; intros [|y b] [|z c]; cbn; try done.
  destruct (Z.ltb_spec y x), (Z.ltb_spec z y), (Z.ltb_spec x y), (Z.ltb_spec y z), (Z.ltb_spec z x), (Z.ltb_spec x z);
    try done; try lia. apply IH.
Qed.
#[global] Instance entry_le_trans : Transitive entry_le.
Proof. intros a b c. apply id_le_trans. Qed.

Lemma spend_inputs_lookups ids a a' : spend_inputs ids a = Ok a' -> acc_lookups a' = acc_lookups a.
Proof.
  revert a. induction ids as [|id ids IH]; intros a; cbn [spend_inputs]; [by intros [= ->]|].
  unfold spend_input. repeat case_decide; cbn [result_bind]; [done|..]; by intros ->%IH.
Qed.

Lemma create_outputs_lookups es a : acc_lookups (foldl (fun a e => create_output e a) a es) = acc_lookups a.
Proof. revert a. induction es as [|e es IH]; intros a; [done|]. cbn. by rewrite IH. Qed.

Lemma summarize_lookups ts a a' :
  summarize ts a = Ok a' -> acc_lookups a' = acc_lookups a ++ concat (data_input_ids <$> ts).
Proof.
  revert a. induction ts as [|t ts IH]; intros a; cbn [summarize fmap list_fmap concat].
  { intros [= ->]. by rewrite app_nil_r. }
  destruct (spend_inputs (input_ids t) a) as [a1|] eqn:E; cbn [result_bind]; [|done]. intros ->%IH.
  cbn [add_lookups acc_lookups]. by rewrite create_outputs_lookups, (spend_inputs_lookups _ _ _ E), <- app_assoc.
Qed.

(** C5: the operations computed for a block do to the UTXO set what its transactions do
    one after the other. When the boxes the block creates have distinct ids that the set
    does not hold, as ids are hashes: the block is rejected for a double spend, or its
    removals or insertions fail, exactly when some transaction in turn spends a box that
    is not there; and otherwise both arrive at the same set, boxes created and spent
    within the block included. The removals and insertions come sorted by id, and the
    lookups are the data inputs in the order of the transactions. *)
Theorem state_changes_correct ts u :
  NoDup (block_outputs ts).*1 -> (forall id, id ∈ (block_outputs ts).*1 -> u !! id = None) ->
  apply_txs ts u =
    match compute_state_changes ts with
    | Ok c => apply_changes c u
    | Err _ => None
    end /\
  (forall c, compute_state_changes ts = Ok c ->
     Sorted id_le (removals c) /\ Sorted entry_le (insertions c) /\ lookups c = concat (data_input_ids <$> ts)).
Proof.
  intros Hnd Hf. split; [by apply changes_spec|]. intros c. unfold compute_state_changes.
  destruct (summarize ts acc_empty) as [a|] eqn:E; cbn [result_bind]; [|done]. intros [= <-].
  cbn [removals insertions lookups]. split_and!; [by apply StronglySorted_Sorted, stable_sort_sorted; apply _..|]. exact (summarize_lookups _ _ _ E).
Qed.

(** ** A block: the second transaction spends an output of the first *)

Definition ex_key (n : Z) : list Z := replicate 32 n.
Definition ex_block : list TxSummary :=
  [ mk_summary [ex_key 1] [] [(ex_key 4, [40]); (ex_key 3, [30])];
    mk_summary [ex_key 4] [ex_key 2] [(ex_key 5, [50])] ].
Definition ex_utxo : utxo_set := {[ ex_key 1 := [10]; ex_key 2 := [20] ]}.

Lemma state_changes_correct_witness :
  compute_state_changes ex_block = Ok (mk_changes [ex_key 2] [ex_key 1] [(ex_key 3, [30]); (ex_key 5, [50])]) /\
  apply_txs ex_block ex_utxo = Some {[ ex_key 2 := [20]; ex_key 3 := [30]; ex_key 5 := [50] ]}.
Proof.
  split; [by vm_compute|].
  assert (Hnd : NoDup (block_outputs ex_block).*1) by (apply (bool_decide_unpack _); by vm_compute).
  assert (Hf : forall id, id ∈ (block_outputs ex_block).*1 -> ex_utxo !! id = None).
  { apply Forall_forall. apply (bool_decide_unpack _). by vm_compute. }
  etransitivity; [exact (proj1 (state_changes_correct ex_block ex_utxo Hnd Hf))|vm_compute; reflexivity].
Defined.

End StateChanges.
