(* ===== verification/Validators.v ===== *)
(** * The block validators

    src/validation/src: the epoch-boundary checks (voting.rs), the evaluation of a block's
    scripts and its cost gate (tx_validation.rs), the validator over the persistent tree
    (utxo.rs) and the one over AD proofs (digest.rs). Script evaluation is ergo-lib's
    ([TxInterp]), the prover and the verifier are ergo_avltree_rust's ([AvlProver]). *)

From S2P Require Import Prelude Bytes Frame ChainConfig VotingCodec Voting Header Sections AvlTree StateStorage BlockSections StateChanges.
Import ChainConfig VotingCodec Voting Sections Avl State BlockSections StateChanges.

(** The fields of a header that only the validators read: the state root (33 bytes) and
    the miner's key. *)
Record BlockHeader := mk_block_header {
  base_header :> Header;
  state_root : list Z;
  miner_pk : list Z;
}.

Record PreHeader := mk_pre_header {
  pre_version : Z;
  pre_parent_id : id32;
  pre_timestamp : Z;
  pre_n_bits : Z;
  pre_height : Z;
  pre_miner_pk : list Z;
  pre_votes : Z * Z * Z;
}.

(** [ErgoStateContext]: the parameters are a table by id. *)
Record StateContext := mk_context {
  ctx_pre_header : PreHeader;
  ctx_headers : list BlockHeader;
  ctx_parameters : gmap Z Z;
}.

(** [TransactionContext::new] and [validate], with the cost in block units; the group
    generator; the serialized emission contract, if it can be built and serialized. *)
Class TxInterp (Tx Box : Type) := {
  TransactionContext : Type;
  context_new : Tx -> list Box -> list Box -> result string TransactionContext;
  context_validate : TransactionContext -> StateContext -> result string Z;
  ec_generator : list Z;
  emission_contract : option (option (list Z));
}.

Inductive Operation :=
  | Lookup (key : list Z)
  | Remove (key : list Z)
  | Insert (key value : list Z).

(** [BatchAVLProver] and [BatchAVLVerifier]. An operation returns the value that was under
    the key, and may leave the prover changed when it fails; [restore_root] installs a
    packed root of a height; [new_prover] starts on one. *)
Class AvlProver := {
  perform_one_operation : Operation -> Prover -> result string (option (list Z)) * Prover;
  generate_proof : Prover -> list Z * Prover;
  restore_root : list Z -> Z -> Prover -> Prover;
  new_prover : list Z -> Z -> Prover;
  Verifier : Type;
  new_verifier : list Z -> list Z -> Z -> result string Verifier;
  verify_one_operation : Operation -> Verifier -> result string (option (list Z)) * Verifier;
  verifier_digest : Verifier -> option (list Z);
}.

Module Validation.

(** ** Epoch boundaries: voting.rs *)

(** A parameter is its id; these are the ones of the enum. *)
Definition signed_id_to_parameter (id : Z) : option Z :=
  match id with
  | 1 => Some StorageFeeFactor
  | 2 => Some MinValuePerByte
  | 3 => Some MaxBlockSize
  | 4 => Some MaxBlockCost
  | 5 => Some TokenAccessCost
  | 6 => Some InputCost
  | 7 => Some DataInputCost
  | 8 => Some OutputCost
  | 9 => Some SubblocksPerBlock
  | 121 => Some SoftForkVotesCollected
  | 122 => Some SoftForkStartingHeight
  | 123 => Some BlockVersion
  | _ => None
  end.

Definition parameter_to_signed_id (param : Z) : option Z := signed_id_to_parameter param.

Fixpoint parse_parameter_fields (fields : list extension_field) (params : table)
    : result ValidationError table :=
  match fields with
  | [] => Ok params
  | ((k0, k1), value) :: fields' =>
      if negb (k0 =? 0) then parse_parameter_fields fields' params
      else
        let signed_id := as_i8 k1 in
        if signed_id =? 124 then parse_parameter_fields fields' params
        else if negb (length value =? 4)%nat
        then Err (SectionParse 108 (ParamLength signed_id (zlen value)))
        else
          let v := i32_from_be_bytes value in
          parse_parameter_fields fields'
            (match signed_id_to_parameter signed_id with
             | Some param => <[param := v]> params
             | None => params
             end)
  end.

Definition parse_parameters_from_extension (ext : ParsedExtension) : result ValidationError table :=
  let? params := parse_parameter_fields (ext_fields ext) ∅ in
  if decide (params = ∅) then Err (SectionParse 108 NoParameters) else Ok params.

Definition extract_proposed_update (ext : ParsedExtension) : list Z :=
  match list_find (fun f : extension_field => f.1.1 = 0 /\ as_i8 f.1.2 = 124) (ext_fields ext) with
  | Some (_, f) => f.2
  | None => []
  end.

(** The proposed updates and the version are not looked at. *)
Definition check_parameters_v6 (expected parsed : table) (height block_version : Z)
    (expected_proposed_update parsed_proposed_update : list Z) : result ValidationError unit :=
  if (size parsed <? size expected)%nat then Err (ParameterMismatch height expected parsed)
  else if decide (Forall (fun e : Z * Z => parsed !! e.1 = Some e.2) (map_to_list expected)) then Ok tt
  else Err (ParameterMismatch height expected parsed).

Definition check_block_version (governing : table) (header_version height : Z) : result ValidationError unit :=
  match governing !! BlockVersion with
  | Some expected =>
      if expected =? header_version then Ok tt else Err (BlockVersionMismatch expected header_version)
  | None => Err (StateOperationFailed "no BlockVersion entry")
  end.

Definition pack_parameters (params : table) : list extension_field :=
  (fun e : Z * Z => ((0, as_u8 e.1), i32_to_be_bytes e.2)) <$>
  merge_sort VotingCodec.id_le
    (omap (fun e : Z * Z => (fun id => (id, e.2)) <$> parameter_to_signed_id e.1) (map_to_list params)).

(** The checks both validators make of a boundary block, and what they report of it. *)
Definition check_boundary (h : BlockHeader) (ext : ParsedExtension) (expected_boundary_params : option table)
    (expected_proposed_update : option (list Z)) : result ValidationError (option table * option (list Z)) :=
  match expected_boundary_params with
  | Some expected =>
      let? parsed := parse_parameters_from_extension ext in
      let parsed_pu := extract_proposed_update ext in
      let expected_pu := default [] expected_proposed_update in
      let? _ := check_parameters_v6 expected parsed (height h) (Header.version h) expected_pu parsed_pu in
      let? _ := check_block_version expected (Header.version h) (height h) in
      Ok (Some parsed, Some parsed_pu)
  | None => Ok (None, None)
  end.

(** ** Scripts: tx_validation.rs *)

Definition pre_header_of (h : BlockHeader) : PreHeader :=
  mk_pre_header (Header.version h) (parent_id h) (timestamp h) (n_bits h) (height h) (miner_pk h) (header_votes h).

(** [build_state_context]: at most nine headers, and a panic without any. *)
Definition build_state_context (h : BlockHeader) (preceding : list BlockHeader) (parameters : table)
    : outcome ValidationError StateContext :=
  match take 9 preceding with
  | [] => Panic
  | headers => Return (mk_context (pre_header_of h) headers parameters)
  end.

Fixpoint sum_costs (costs : list Z) (total max_cost : Z) : result ValidationError Z :=
  match costs with
  | [] => Ok total
  | cost :: costs' =>
      let? total := ok_or (checked_add_u64 total cost) (BlockCostExceeded U64_MAX max_cost) in
      sum_costs costs' total max_cost
  end.

Definition enforce_block_cost (costs : list Z) (max_cost : Z) : result ValidationError Z :=
  let? total := sum_costs costs 0 max_cost in
  if max_cost <? total then Err (BlockCostExceeded total max_cost) else Ok total.

Section Scripts.
Context {Tx Box : Type} `{ErgoTx Tx Box} `{TxInterp Tx Box}.

Definition deserialize_box (bytes : list Z) : result ValidationError Box :=
  ok_or (box_parse bytes) (TransactionInvalid 0 "box deserialization").

(** [build_upcoming_state_context]: the tip leads the window. *)
Definition build_upcoming_state_context (last_header : BlockHeader) (preceding : list BlockHeader)
    (parameters : table) : StateContext :=
  mk_context
    (mk_pre_header (Header.version last_header) (header_id last_header) (sat_add_u64 (timestamp last_header) 1)
       (n_bits last_header) (sat_add_u32 (height last_header) 1) ec_generator (0, 0, 0))
    (last_header :: take 8 preceding) parameters.

Definition validate_single_transaction (tx : Tx) (input_boxes data_boxes : list Box) (ctx : StateContext)
    : result ValidationError Z :=
  match context_new tx input_boxes data_boxes with
  | Err e => Err (TransactionInvalid 0 e)
  | Ok tx_context =>
      match context_validate tx_context ctx with
      | Err e => Err (TransactionInvalid 0 e)
      | Ok cost => Ok cost
      end
  end.

(** The boxes under a list of ids. *)
Fixpoint boxes_of (tx_idx : Z) (what : string) (box_map : gmap (list Z) Box) (ids : list (list Z))
    : result ValidationError (list Box) :=
  match ids with
  | [] => Ok []
  | id :: ids' =>
      let? b := ok_or (box_map !! id) (TransactionInvalid tx_idx what) in
      let? bs := boxes_of tx_idx what box_map ids' in
      Ok (b :: bs)
  end.

(** The proof boxes, and the outputs of the block under ids still free. *)
Definition block_box_map (txs : list Tx) (proof_boxes : gmap (list Z) Box) : gmap (list Z) Box :=
  foldl (fun m output => match m !! box_id output with Some _ => m | None => <[box_id output := output]> m end)
    proof_boxes (concat (tx_outputs <$> txs)).

(** The parallel iteration: some transaction's error when any fails, here the first's. *)
Fixpoint tx_costs (idx : Z) (box_map : gmap (list Z) Box) (ctx : StateContext) (txs : list Tx)
    : result ValidationError (list Z) :=
  match txs with
  | [] => Ok []
  | tx :: txs' =>
      let? input_boxes := boxes_of idx "input box not found" box_map (tx_inputs tx) in
      let? data_boxes := boxes_of idx "data input box not found" box_map (default [] (tx_data_inputs tx)) in
      let? cost :=
        match validate_single_transaction tx input_boxes data_boxes ctx with
        | Err (TransactionInvalid _ reason) => Err (TransactionInvalid idx reason)
        | r => r
        end in
      let? costs := tx_costs (idx + 1) box_map ctx txs' in
      Ok (cost :: costs)
  end.

(** [validate_transactions]; [max_block_cost] indexes the table, which panics without the
    entry, and a negative limit is clamped to zero. *)
Definition validate_transactions (txs : list Tx) (proof_boxes : gmap (list Z) Box) (h : BlockHeader)
    (preceding : list BlockHeader) (parameters : table) : outcome ValidationError Z :=
  match txs, preceding with
  | [], _ => Return 0
  | _, [] => Return 0
  | _, _ =>
      let! ctx := build_state_context h preceding parameters in
      let! costs := of_result (tx_costs 0 (block_box_map txs proof_boxes) ctx txs) in
      let! max_block_cost := expect (parameters !! MaxBlockCost) in
      of_result (enforce_block_cost costs (Z.max 0 max_block_cost))
  end.

(** [ScriptEvalInputs]. *)
Record ScriptEvalInputs := mk_eval {
  eval_height : Z;
  eval_transactions : list Tx;
  eval_proof_boxes : gmap (list Z) Box;
  eval_header : BlockHeader;
  eval_preceding : list BlockHeader;
  eval_parameters : table;
}.

Definition evaluate_scripts (e : ScriptEvalInputs) : outcome ValidationError Z :=
  validate_transactions (eval_transactions e) (eval_proof_boxes e) (eval_header e) (eval_preceding e)
    (eval_parameters e).

(** The boxes captured from the tree, deserialized. *)
Fixpoint deserialize_entries (es : list (list Z * list Z)) : result ValidationError (list (list Z * Box)) :=
  match es with
  | [] => Ok []
  | (id, bytes) :: es' =>
      let? b := deserialize_box bytes in
      let? bs := deserialize_entries es' in
      Ok ((id, b) :: bs)
  end.

(** Script evaluation of a block above the checkpoint; nothing at or below it. *)
Definition evaluate_block (validate_txs : bool) (captured : gmap (list Z) (list Z)) (txs : list Tx)
    (h : BlockHeader) (preceding : list BlockHeader) (parameters : table)
    : outcome ValidationError (option Z) :=
  if validate_txs then
    let! proof_boxes := of_result (deserialize_entries (map_to_list captured)) in
    let! cost := evaluate_scripts (mk_eval (height h) txs (list_to_map proof_boxes) h preceding parameters) in
    Return (Some cost)
  else Return None.

End Scripts.

(** ** The operations of a block *)

(** Lookups, removals, insertions. *)
Definition operations_of (c : StateChanges) : list Operation :=
  (Lookup <$> lookups c) ++ (Remove <$> removals c) ++ ((fun e : Insertion => Insert e.1 e.2) <$> insertions c).

(** The value an operation returns, kept under its key for lookups and removals. *)
Definition capture (validate_txs : bool) (op : Operation) (value : option (list Z))
    (captured : gmap (list Z) (list Z)) : gmap (list Z) (list Z) :=
  match validate_txs, value, op with
  | true, Some v, (Lookup key | Remove key) => <[key := v]> captured
  | _, _, _ => captured
  end.

(** The operations on a prover or a verifier [X], up to the first failure. *)
Fixpoint perform_all {X : Type} (perform : Operation -> X -> result string (option (list Z)) * X)
    (fail : string -> ValidationError) (validate_txs : bool) (ops : list Operation)
    (captured : gmap (list Z) (list Z)) (x : X) : result ValidationError (gmap (list Z) (list Z)) * X :=
  match ops with
  | [] => (Ok captured, x)
  | op :: ops' =>
      match perform op x with
      | (Err e, x') => (Err (fail e), x')
      | (Ok value, x') => perform_all perform fail validate_txs ops' (capture validate_txs op value captured) x'
      end
  end.

Record ApplyStateOutcome := mk_outcome {
  epoch_boundary_params : option table;
  epoch_boundary_proposed_update : option (list Z);
  block_cost : option Z;
}.

Section Validators.
Context {Tx Box RuleStatus : Type} `{SectionIO Tx} `{SigmaIO RuleStatus} `{ErgoTx Tx Box} `{TxInterp Tx Box} `{AvlProver}.

(** The tree's labels and the proofs are hashed by the same function. *)
#[local] Instance state_blake : Blake2b := blake2b256.

(** What [apply_state] is given. *)
Record BlockInput := mk_input {
  in_header : BlockHeader;
  in_block_txs : list Z;
  in_ad_proofs : option (list Z);
  in_extension : list Z;
  in_preceding : list BlockHeader;
  in_active_params : table;
  in_boundary_params : option table;
  in_proposed_update : option (list Z);
}.

(** ** The UTXO validator: utxo.rs *)

Record UtxoValidator := mk_utxo {
  storage : Storage;
  prover : Prover;
  u_validated_height : Z;
  u_checkpoint_height : Z;
  u_current_digest : list Z;
  emission_box_id : option (list Z);
  emission_tree_bytes : list Z;
  adproof_dump_heights : gset Z;
  adproof_dump_dir : option string;
  dumped : gmap Z (list Z);          (* the files written to the directory, by height *)
}.

(** [EmissionSource]. *)
Inductive EmissionSource :=
  | TipBlock (section_bytes : list Z)
  | GenesisBoxes (boxes : list Insertion)
  | Unavailable (reason : string).

Fixpoint find_emission_box (ins : list Insertion) (tree_bytes : list Z) : option (list Z) :=
  match ins with
  | [] => None
  | (id, bytes) :: ins' =>
      match box_parse bytes ≫= box_tree_bytes with
      | Some bytes' => if decide (bytes' = tree_bytes) then Some id else find_emission_box ins' tree_bytes
      | None => find_emission_box ins' tree_bytes
      end
  end.

Definition insertions_of_block (section_bytes : list Z) : result ValidationError (list Insertion) :=
  let? parsed := parse_block_transactions section_bytes in
  let? summaries := transactions_to_summaries (transactions parsed) in
  let? changes := compute_state_changes summaries in
  Ok (insertions changes).

Definition recover_emission_box_id (source : EmissionSource) (tree_bytes : list Z) : option (list Z) :=
  if decide (tree_bytes = []) then None
  else
    match source with
    | TipBlock section_bytes =>
        match insertions_of_block section_bytes with
        | Ok ins => find_emission_box ins tree_bytes
        | Err _ => None
        end
    | GenesisBoxes boxes => find_emission_box boxes tree_bytes
    | Unavailable _ => None
    end.

(** [UtxoValidator::new]. *)
Definition utxo_new (s : Storage) (p : Prover) (height checkpoint : Z) (source : EmissionSource)
    : outcome ValidationError UtxoValidator :=
  let! digest := expect (prover_digest p) in
  let tree_bytes := match emission_contract with Some (Some bytes) => bytes | _ => [] end in
  Return (mk_utxo s p height checkpoint digest (recover_emission_box_id source tree_bytes) tree_bytes ∅ None ∅).

Definition set_adproof_dump (heights : gset Z) (dir : string) (v : UtxoValidator) : UtxoValidator :=
  mk_utxo (storage v) (prover v) (u_validated_height v) (u_checkpoint_height v) (u_current_digest v)
    (emission_box_id v) (emission_tree_bytes v) heights (Some dir) (dumped v).

Definition with_state (v : UtxoValidator) (s : Storage) (p : Prover) : UtxoValidator :=
  mk_utxo s p (u_validated_height v) (u_checkpoint_height v) (u_current_digest v)
    (emission_box_id v) (emission_tree_bytes v) (adproof_dump_heights v) (adproof_dump_dir v) (dumped v).

(** The proof of a block at a height asked for, as a type-104 section. *)
Definition dump_proof (v : UtxoValidator) (h : BlockHeader) (proof : list Z) : gmap Z (list Z) :=
  match adproof_dump_dir v with
  | Some _ =>
      if decide (height h ∈ adproof_dump_heights v)
      then <[height h := serialize_ad_proofs (id_bytes (header_id h)) proof]> (dumped v)
      else dumped v
  | None => dumped v
  end.

(** What a block needs before the tree is touched: its transactions, the boundary report,
    its changes. *)
Definition prepare_utxo (b : BlockInput) (v : UtxoValidator)
    : result ValidationError (list Tx * (option table * option (list Z)) * StateChanges) :=
  let expected_height := add_u32 (u_validated_height v) 1 in
  if negb (height (in_header b) =? expected_height)
  then Err (HeightMismatch expected_height (height (in_header b)))
  else
    let? parsed_txs := parse_block_transactions (in_block_txs b) in
    let? parsed_ext := parse_extension (in_extension b) in
    let? boundary := check_boundary (in_header b) parsed_ext (in_boundary_params b) (in_proposed_update b) in
    let? summaries := transactions_to_summaries (transactions parsed_txs) in
    let? changes := compute_state_changes summaries in
    Ok (transactions parsed_txs, boundary, changes).

(** Steps 7 to 10: persist, prove, compare the proof, track the emission box, advance. *)
Definition commit_block (b : BlockInput) (changes : StateChanges) (report : ApplyStateOutcome) (v : UtxoValidator)
    : outcome ValidationError ApplyStateOutcome * UtxoValidator :=
  let h := in_header b in
  match update_with_height (prover v) [] (height h) (storage v) with
  | Panic => (Panic, v)
  | Fail _ => (Fail (StateOperationFailed "persist failed"), v)
  | Return (s, p) =>
      let '(proof, p) := generate_proof p in
      let v := with_state v s p in
      let got := blake2b256 proof in
      let expected := id_bytes (ad_proofs_root h) in
      if decide (got = expected) then
        let emission :=
          if decide (emission_tree_bytes v = []) then emission_box_id v
          else find_emission_box (insertions changes) (emission_tree_bytes v) in
        (Return report,
         mk_utxo s p (height h) (u_checkpoint_height v) (state_root h) emission (emission_tree_bytes v)
           (adproof_dump_heights v) (adproof_dump_dir v) (dump_proof v h proof))
      else (Fail (ProofDigestMismatch expected got), v)
  end.

Definition apply_state_internal (b : BlockInput) (v : UtxoValidator)
    : outcome ValidationError ApplyStateOutcome * UtxoValidator :=
  let h := in_header b in
  match prepare_utxo b v with
  | Err e => (Fail e, v)
  | Ok (txs, (params, update), changes) =>
      let validate_txs := u_checkpoint_height v <? height h in
      match perform_all perform_one_operation StateOperationFailed validate_txs (operations_of changes) ∅ (prover v) with
      | (Err e, p) => (Fail e, with_state v (storage v) p)
      | (Ok captured, p) =>
          let v := with_state v (storage v) p in
          match prover_digest p with
          | None => (Fail (StateOperationFailed "prover has no root after operations"), v)
          | Some digest =>
              if decide (digest = state_root h) then
                match evaluate_block validate_txs captured txs h (in_preceding b) (in_active_params b) with
                | Panic => (Panic, v)
                | Fail e => (Fail e, v)
                | Return cost => commit_block b changes (mk_outcome params update cost) v
                end
              else (Fail (StateRootMismatch (state_root h) digest), v)
          end
      end
  end.

(** [rollback_prover_to]: a failed rollback is logged. *)
Definition rollback_prover_to (digest : list Z) (v : UtxoValidator) : outcome ValidationError unit * UtxoValidator :=
  match rollback digest (storage v) with
  | (Return (root, tree_height), s) => (Return tt, with_state v s (restore_root root tree_height (prover v)))
  | (Fail _, s) => (Return tt, with_state v s (prover v))
  | (Panic, s) => (Panic, with_state v s (prover v))
  end.

(** [apply_state] of the UTXO validator. *)
Definition utxo_apply_state (b : BlockInput) (v : UtxoValidator)
    : outcome ValidationError ApplyStateOutcome * UtxoValidator :=
  match apply_state_internal b v with
  | (Fail e, v') =>
      match rollback_prover_to (u_current_digest v) v' with
      | (Panic, v') => (Panic, v')
      | (_, v') => (Fail e, v')
      end
  | r => r
  end.

Definition utxo_reset_to (height : Z) (digest : list Z) (v : UtxoValidator)
    : outcome ValidationError unit * UtxoValidator :=
  match rollback digest (storage v) with
  | (Return (root, tree_height), s) =>
      (Return tt,
       mk_utxo s (restore_root root tree_height (prover v)) height (u_checkpoint_height v) digest
         (emission_box_id v) (emission_tree_bytes v) (adproof_dump_heights v) (adproof_dump_dir v) (dumped v))
  | (Fail _, s) => (Fail (StateOperationFailed "rollback failed"), with_state v s (prover v))
  | (Panic, s) => (Panic, with_state v s (prover v))
  end.

Definition utxo_flush (now_nanos : Z) (v : UtxoValidator) : UtxoValidator :=
  with_state v (flush now_nanos (storage v)) (prover v).

(** [proofs_from_storage]: the proof and the digest of a set of transactions on the
    committed tree, with a prover of its own. *)
Definition proofs_from_storage (resolver : list Z -> option (list Z)) (root : option (list Z * Z)) (txs : list Tx)
    : result ValidationError (list Z * list Z) :=
  let? summaries := transactions_to_summaries txs in
  let? changes := compute_state_changes summaries in
  let? (root_label, tree_height) := ok_or root (StateOperationFailed "no root state") in
  let? root_node := ok_or (resolver root_label) (StateOperationFailed "root node not found") in
  match perform_all perform_one_operation StateOperationFailed false (operations_of changes) ∅
          (new_prover root_node tree_height) with
  | (Err e, _) => Err e
  | (Ok _, p) =>
      let '(proof, p) := generate_proof p in
      let? digest := ok_or (prover_digest p) (StateOperationFailed "temp prover has no root") in
      Ok (proof, digest)
  end.

Definition compute_proofs (txs : list Tx) (v : UtxoValidator) : outcome ValidationError (list Z * list Z) :=
  match read_root_state (db (storage v)) with
  | Return root => of_result (proofs_from_storage (fun l => get_node l (storage v)) root txs)
  | Fail _ => of_result (proofs_from_storage (fun l => get_node l (storage v)) None txs)
  | Panic => Panic
  end.

(** ** The digest validator: digest.rs *)

Record DigestValidator := mk_digest {
  d_current_digest : list Z;
  d_validated_height : Z;
  d_checkpoint_height : Z;
}.

Definition digest_new (genesis_digest : list Z) (checkpoint_height : Z) : DigestValidator :=
  mk_digest genesis_digest 0 checkpoint_height.

Definition from_state (digest : list Z) (height checkpoint_height : Z) : DigestValidator :=
  mk_digest digest height checkpoint_height.

(** Steps 1 to 4: the sections, the boundary, the digest of the proof, the changes. *)
Definition prepare_digest (b : BlockInput) (v : DigestValidator)
    : result ValidationError (list Z * list Tx * (option table * option (list Z)) * StateChanges) :=
  let h := in_header b in
  let expected_height := add_u32 (d_validated_height v) 1 in
  if negb (height h =? expected_height) then Err (HeightMismatch expected_height (height h))
  else
    let? proof_data := ok_or (in_ad_proofs b) MissingProof in
    let? parsed_proofs := parse_ad_proofs proof_data in
    let? parsed_txs := parse_block_transactions (in_block_txs b) in
    let? parsed_ext := parse_extension (in_extension b) in
    let? boundary := check_boundary h parsed_ext (in_boundary_params b) (in_proposed_update b) in
    let proof_digest := blake2b256 (proof_bytes parsed_proofs) in
    let expected_digest := id_bytes (ad_proofs_root h) in
    if decide (proof_digest = expected_digest) then
      let? summaries := transactions_to_summaries (transactions parsed_txs) in
      let? changes := compute_state_changes summaries in
      Ok (proof_bytes parsed_proofs, transactions parsed_txs, boundary, changes)
    else Err (ProofDigestMismatch expected_digest proof_digest).

Definition digest_apply_state (b : BlockInput) (v : DigestValidator)
    : outcome ValidationError ApplyStateOutcome * DigestValidator :=
  let h := in_header b in
  let r :=
    let! (proof, txs, (params, update), changes) := of_result (prepare_digest b v) in
    let validate_txs := d_checkpoint_height v <? height h in
    let ops := operations_of changes in
    let! verifier :=
      match new_verifier (d_current_digest v) proof (Z.of_nat (length ops)) with
      | Ok verifier => Return verifier
      | Err e => Fail (ProofVerificationFailed e)
      end in
    let '(performed, verifier) :=
      perform_all verify_one_operation ProofVerificationFailed validate_txs ops ∅ verifier in
    let! captured := of_result performed in
    match verifier_digest verifier with
    | Some d =>
        if decide (d = state_root h) then
          let! cost := evaluate_block validate_txs captured txs h (in_preceding b) (in_active_params b) in
          Return (mk_outcome params update cost)
        else Fail (StateRootMismatch (state_root h) d)
    | None => Fail (ProofVerificationFailed "verifier digest is None after operations")
    end in
  match r with
  | Return report => (Return report, mk_digest (state_root h) (height h) (d_checkpoint_height v))
  | Fail e => (Fail e, v)
  | Panic => (Panic, v)
  end.

Definition digest_reset_to (height : Z) (digest : list Z) (v : DigestValidator) : DigestValidator :=
  mk_digest digest height (d_checkpoint_height v).

End Validators.

End Validation.
