(* ===== verification/ValidatorsInv.v ===== *)
(** * What the validators guarantee

    The prover's contract ([ProverLaws]) relates its runs to maps of boxes; over it, the
    UTXO validator keeps its height, its digest and its prover in step with the newest
    version of the storage, an accepted block does to the set of boxes what its
    transactions do one after the other, and a rejected one leaves everything as it was.
    The digest validator accepts what the UTXO validator accepts. *)

From S2P Require Import Prelude Bytes Frame ChainConfig VotingCodec Voting Header Sections AvlTree StateStorage StateStorageInv StateReader BlockSections StateChanges Validators.
Import ChainConfig VotingCodec Voting Sections Avl State Reader BlockSections StateChanges Validation.

Module ValidationInv.

(** ** Operations on a map of boxes *)

(** One operation: lookups always succeed, a removal needs its key, an insertion needs it
    free. *)
Definition map_op (op : Operation) (u : utxo_set) : option (option (list Z) * utxo_set) :=
  match op with
  | Lookup k => Some (u !! k, u)
  | Remove k => (fun v => (Some v, delete k u)) <$> u !! k
  | Insert k v => match u !! k with Some _ => None | None => Some (None, <[k := v]> u) end
  end.

(** Operations in turn on any structure, with the values they return. *)
Fixpoint run {X : Type} (step : Operation -> X -> option (option (list Z) * X)) (ops : list Operation) (x : X)
    : option (list (option (list Z)) * X) :=
  match ops with
  | [] => Some ([], x)
  | op :: ops' =>
      match step op x with
      | Some (value, x') => (fun r : list (option (list Z)) * X => (value :: r.1, r.2)) <$> run step ops' x'
      | None => None
      end
  end.

(** A fallible operation as a step. *)
Definition step_of {X : Type} (perform : Operation -> X -> result string (option (list Z)) * X)
    (op : Operation) (x : X) : option (option (list Z) * X) :=
  match perform op x with
  | (Ok value, x') => Some (value, x')
  | (Err _, _) => None
  end.

Fixpoint captures (validate_txs : bool) (ops : list Operation) (vals : list (option (list Z)))
    (captured : gmap (list Z) (list Z)) : gmap (list Z) (list Z) :=
  match ops, vals with
  | op :: ops', v :: vals' => captures validate_txs ops' vals' (capture validate_txs op v captured)
  | _, _ => captured
  end.

Lemma perform_all_run {X} perform fail validate_txs ops (x : X) captured :
  match perform_all perform fail validate_txs ops captured x with
  | (Ok got, x') => exists vals, run (step_of perform) ops x = Some (vals, x') /\ got = captures validate_txs ops vals captured
  | (Err _, _) => run (step_of perform) ops x = None
  end.
Proof.
  revert x captured. induction ops as [|op ops IH]; intros x captured; cbn [perform_all run]; [by eexists|].
  unfold step_of at 1 3. destruct (perform op x) as [[value|e] x'] eqn:E; [|done].
  specialize (IH x' (capture validate_txs op value captured)).
  destruct (perform_all perform fail validate_txs ops _ x') as [[got|e] x'']; [|by rewrite IH].
  destruct IH as (vals & -> & ->). by exists (value :: vals).
Qed.

Lemma run_perform_all {X} perform fail validate_txs ops (x : X) captured vals x' :
  run (step_of perform) ops x = Some (vals, x') ->
  perform_all perform fail validate_txs ops captured x = (Ok (captures validate_txs ops vals captured), x').
Proof.
  intros Hr. pose proof (perform_all_run perform fail validate_txs ops x captured) as Hp.
  destruct (perform_all perform fail validate_txs ops captured x) as [[got|e] x'']; [|congruence].
  destruct Hp as (vals' & Hr' & ->). rewrite Hr in Hr'. by injection Hr' as <- <-.
Qed.

Lemma run_app {X} (step : Operation -> X -> option (option (list Z) * X)) ops ops' x :
  run step (ops ++ ops') x =
    match run step ops x with
    | Some (vals, x') => (fun r : list (option (list Z)) * X => (vals ++ r.1, r.2)) <$> run step ops' x'
    | None => None
    end.
Proof.
  revert x. induction ops as [|op ops IH]; intros x; cbn [app run]; [by destruct (run step ops' x) as [[]|]|].
  destruct (step op x) as [[v x']|]; [|done]. rewrite IH. destruct (run step ops x') as [[vals x'']|]; [|done].
  cbn. by destruct (run step ops' x'') as [[]|].
Qed.

(** The operations of a block on a map: its changes. *)
Lemma run_changes c u :
  snd <$> run map_op (operations_of c) u = apply_changes c u.
Proof.
  unfold operations_of, apply_changes. rewrite run_app.
  assert (forall ids, exists vals, run map_op (Lookup <$> ids) u = Some (vals, u)) as Hl.
  { induction ids as [|id ids [vals IH]]; [by eexists|]. cbn [fmap list_fmap run map_op]. rewrite IH. by eexists. }
  destruct (Hl (lookups c)) as [vals ->]. rewrite run_app.
  assert (forall ids u, snd <$> run map_op (Remove <$> ids) u = spend ids u) as Hs.
  { induction ids as [|id ids IH]; intros u'; [done|]. cbn [fmap list_fmap run map_op spend].
    destruct (u' !! id); [|done]. cbn. rewrite <- IH. by destruct (run map_op _ _) as [[]|]. }
  assert (forall es u, snd <$> run map_op ((fun e : Insertion => Insert e.1 e.2) <$> es) u = create es u) as Hc.
  { induction es as [|[id v] es IH]; intros u'; [done|]. cbn [fmap list_fmap run map_op create fst snd].
    destruct (u' !! id); [done|]. rewrite <- IH. by destruct (run map_op _ _) as [[]|]. }
  rewrite <- Hs. destruct (run map_op (Remove <$> removals c) u) as [[vals' u']|]; [|done]. cbn.
  rewrite <- Hc. by destruct (run map_op _ u') as [[]|].
Qed.

(** ** The cost gate *)

Abbreviation sum := (foldr Z.add 0).

Lemma sum_nonneg costs : Forall is_u64 costs -> 0 <= sum costs.
Proof. induction 1 as [|c costs Hc _ IH]; cbn; int_unfold; lia. Qed.

Lemma sum_costs_spec costs total max_cost :
  Forall is_u64 costs -> is_u64 total ->
  sum_costs costs total max_cost =
    if total + sum costs <=? U64_MAX then Ok (total + sum costs) else Err (BlockCostExceeded U64_MAX max_cost).
Proof.
  intros Hc. revert total. induction Hc as [|c costs Hc Hcs IH]; intros total Ht; cbn [sum_costs foldr].
  - rewrite Z.add_0_r. destruct (Z.leb_spec total U64_MAX); [done|]. int_unfold. lia.
  - pose proof (sum_nonneg costs Hcs). unfold checked_add_u64. destruct (Z.ltb_spec U64_MAX (total + c)); cbn [ok_or result_bind].
    + destruct (Z.leb_spec (total + (c + sum costs)) U64_MAX); [lia|done].
    + rewrite IH by (int_unfold; lia). by rewrite <- Z.add_assoc.
Qed.

(** The sum is exact, and the gate decides by it alone. *)
Lemma enforce_block_cost_spec costs max_cost :
  Forall is_u64 costs -> max_cost <= U64_MAX ->
  match enforce_block_cost costs max_cost with
  | Ok total => total = sum costs /\ sum costs <= max_cost
  | Err (BlockCostExceeded cost max) => max_cost < sum costs /\ max = max_cost /\ cost = Z.min (sum costs) U64_MAX
  | Err _ => False
  end.
Proof.
  intros Hc Hm. unfold enforce_block_cost. rewrite sum_costs_spec by (done || int_unfold; lia).
  rewrite Z.add_0_l. destruct (Z.leb_spec (sum costs) U64_MAX); cbn [result_bind].
  - destruct (Z.ltb_spec max_cost (sum costs)); split_and?; lia.
  - split_and!; [lia|done|lia].
Qed.

Section ScriptProps.
Context {Tx Box : Type} `{ErgoTx Tx Box} `{TxInterp Tx Box}.

(** [TransactionContext::validate] returns a [u64]. *)
Definition costs_u64 : Prop := forall c ctx cost, context_validate c ctx = Ok cost -> is_u64 cost.

(** A transaction evaluates at a cost, on the boxes its ids name. *)
Definition tx_passes (box_map : gmap (list Z) Box) (ctx : StateContext) (tx : Tx) (cost : Z) : Prop :=
  exists ins datas tc,
    Forall2 (fun id b => box_map !! id = Some b) (tx_inputs tx) ins /\
    Forall2 (fun id b => box_map !! id = Some b) (default [] (tx_data_inputs tx)) datas /\
    context_new tx ins datas = Ok tc /\ context_validate tc ctx = Ok cost.

Lemma boxes_of_spec (i : Z) (what : string) (m : gmap (list Z) Box) (ids : list (list Z)) (bs : list Box) :
  boxes_of i what m ids = Ok bs <-> Forall2 (fun id b => m !! id = Some b) ids bs.
Proof.
  revert bs. induction ids as [|id ids IH]; intros bs; cbn [boxes_of].
  - split; [intros [= <-]; constructor|by intros ->%Forall2_nil_inv_l].
  - split.
    + destruct (m !! id) as [b|] eqn:E; [|done]. cbn [ok_or result_bind].
      destruct (boxes_of i what m ids) as [bs'|]; [|done]. intros [= <-]. constructor; [done|]. by apply IH.
    + intros (b & bs' & E & Hf & ->)%Forall2_cons_inv_l. rewrite E. cbn [ok_or result_bind].
      apply IH in Hf. by rewrite Hf.
Qed.

Lemma tx_costs_spec (i : Z) (m : gmap (list Z) Box) (ctx : StateContext) (txs : list Tx) (costs : list Z) : tx_costs i m ctx txs = Ok costs <-> Forall2 (tx_passes m ctx) txs costs.
Proof.
  revert i costs. induction txs as [|tx txs IH]; intros i costs; cbn [tx_costs].
  - split; [intros [= <-]; constructor|by intros ->%Forall2_nil_inv_l].
  - split.
    + destruct (boxes_of i _ m (tx_inputs tx)) as [ins|] eqn:Ei; [|done]. cbn [result_bind].
      destruct (boxes_of i _ m (default [] (tx_data_inputs tx))) as [datas|] eqn:Ed; [|done]. cbn [result_bind].
      unfold validate_single_transaction. destruct (context_new tx ins datas) as [tc|] eqn:Ec; [|done].
      destruct (context_validate tc ctx) as [cost|] eqn:Ev; [|done]. cbn [result_bind].
      destruct (tx_costs (i + 1) m ctx txs) as [costs'|] eqn:Et; [|done]. intros [= <-].
      constructor; [|by apply (IH (i + 1))]. apply boxes_of_spec in Ei, Ed. by exists ins, datas, tc.
    + intros (cost & costs' & (ins & datas & tc & Hi & Hd & Ec & Ev) & Hf & ->)%Forall2_cons_inv_l.
      apply (boxes_of_spec i "input box not found") in Hi. apply (boxes_of_spec i "data input box not found") in Hd.
      rewrite Hi. cbn [result_bind]. rewrite Hd. cbn [result_bind]. unfold validate_single_transaction.
      rewrite Ec, Ev. cbn [result_bind]. apply (IH (i + 1)) in Hf. by rewrite Hf.
Qed.

(** C31: the script check of a block returns a cost exactly when every transaction, on the
    boxes its inputs and data inputs name among the boxes read from the state and the
    outputs of the block, evaluates in the context of the header and its nine
    predecessors, and the exact sum of the costs, which is the cost returned, is within
    the limit of the active parameters; a sum beyond 64 bits is never wrapped. Without
    transactions or predecessors it returns zero. *)
Theorem scripts_correct txs proof_boxes h preceding params max_cost cost :
  costs_u64 -> params !! MaxBlockCost = Some max_cost -> is_i32 max_cost ->
  validate_transactions txs proof_boxes h preceding params = Return cost <->
  if decide (txs = [] \/ preceding = []) then cost = 0
  else
    exists costs,
      Forall2 (tx_passes (block_box_map txs proof_boxes) (mk_context (pre_header_of h) (take 9 preceding) params))
        txs costs /\
      cost = sum costs /\ sum costs <= Z.max 0 max_cost.
Proof.
  intros Hu64 Hp Hi. unfold validate_transactions, build_state_context. rewrite Hp.
  destruct txs as [|tx txs]; [rewrite decide_True by (by left); split; congruence|].
  destruct preceding as [|hd preceding]; [rewrite decide_True by (by right); split; congruence|].
  rewrite decide_False by (by intros [|]). cbn [take outcome_bind].
  set (ctx := mk_context _ _ _). set (m := block_box_map _ _).
  assert (forall costs, tx_costs 0 m ctx (tx :: txs) = Ok costs ->
    (enforce_block_cost costs (Z.max 0 max_cost) = Ok cost <-> cost = sum costs /\ sum costs <= Z.max 0 max_cost)) as He.
  { intros costs Hc%tx_costs_spec.
    assert (Forall is_u64 costs) as Hf.
    { eapply Forall2_Forall_r; [exact Hc|]. apply Forall_forall. intros x _ y (? & ? & tc & _ & _ & _ & Hv).
      by eapply Hu64. }
    pose proof (enforce_block_cost_spec costs (Z.max 0 max_cost) Hf ltac:(int_unfold; lia)) as Hs.
    destruct (enforce_block_cost costs (Z.max 0 max_cost)) as [total|e].
    - destruct Hs as [-> Hle]. split; [by intros [= <-]|]. by intros [-> _].
    - split; [done|]. intros [_ Hle]. destruct e; try done. lia. }
  destruct (tx_costs 0 m ctx (tx :: txs)) as [costs|e] eqn:Ec; cbn [of_result outcome_bind expect].
  - specialize (He costs eq_refl). apply tx_costs_spec in Ec. split.
    + intros Hr. exists costs. split; [done|]. apply He. destruct (enforce_block_cost costs _); [|done]. by injection Hr as ->.
    + intros (costs' & Hc & Hs). assert (costs' = costs) as ->; [|by rewrite (proj2 He Hs)].
      apply (tx_costs_spec 0) in Hc, Ec. congruence.
  - split; [done|]. intros (costs & Hc & _). apply (tx_costs_spec 0) in Hc. congruence.
Qed.

End ScriptProps.

(** ** Epoch boundaries *)

Lemma check_parameters_spec expected parsed h bv pu pu' :
  check_parameters_v6 expected parsed h bv pu pu' = Ok tt <-> expected ⊆ parsed.
Proof.
  unfold check_parameters_v6. rewrite map_subseteq_spec. case_decide as Hf.
  - assert (expected ⊆ parsed) as Hsub.
    { apply map_subseteq_spec. intros k v Hk%elem_of_map_to_list. rewrite Forall_forall in Hf. exact (Hf _ Hk). }
    destruct (Nat.ltb_spec (size parsed) (size expected)) as [Hlt|_].
    + apply map_subseteq_size in Hsub. lia.
    + split; [|done]. intros _. by apply map_subseteq_spec.
  - split; [by destruct (size parsed <? size expected)%nat|]. intros Hs. destruct Hf. apply Forall_forall.
    intros [k v] Hk%elem_of_map_to_list. by apply Hs.
Qed.

Definition packed_entry (e : Z * Z) : extension_field := ((0, as_u8 e.1), i32_to_be_bytes e.2).

(** An entry of a table of the enum's parameters and [i32] values. *)
Definition entry_typed (e : Z * Z) : Prop := signed_id_to_parameter e.1 = Some e.1 /\ is_i32 e.2.

Lemma known_id id : signed_id_to_parameter id = Some id -> -128 <= id <= 127 /\ id <> 124.
Proof.
  intros E. assert (id ∈ [1; 2; 3; 4; 5; 6; 7; 8; 9; 121; 122; 123]) as Hin; [|set_unfold; lia].
  unfold signed_id_to_parameter in E. repeat case_match; try done; set_unfold; naive_solver.
Qed.

(** The fields the parameter parser looks at. *)
Definition param_field (f : extension_field) : Prop := f.1.1 = 0 /\ as_i8 f.1.2 <> 124.

Lemma parse_fields_filter fields acc :
  parse_parameter_fields fields acc = parse_parameter_fields (filter param_field fields) acc.
Proof.
  revert acc. induction fields as [|[[k0 k1] v] fields IH]; intros acc; [done|].
  cbn [parse_parameter_fields]. destruct (decide (param_field ((k0, k1), v))) as [Hp|Hp].
  - rewrite filter_cons_True by done. destruct Hp as [E Hne]. cbn in E, Hne. subst k0.
    cbn [parse_parameter_fields Z.eqb negb].
    destruct (as_i8 k1 =? 124); [by apply IH|]. destruct (negb (length v =? 4)%nat); [done|apply IH].
  - rewrite filter_cons_False by done. unfold param_field in Hp. cbn in Hp.
    destruct (Z.eqb_spec k0 0) as [->|]; cbn [negb]; [|apply IH].
    destruct (Z.eqb_spec (as_i8 k1) 124); [apply IH|]. by destruct Hp.
Qed.

Lemma parse_packed es acc :
  Forall entry_typed es -> NoDup es.*1 ->
  parse_parameter_fields (packed_entry <$> es) acc = Ok (list_to_map es ∪ acc).
Proof.
  intros Hf. revert acc. induction Hf as [|[id v] es [Hid Hv] _ IH]; intros acc Hnd.
  { cbn. by rewrite (left_id_L ∅ (∪)). }
  cbn [fst snd] in Hid, Hv. destruct (known_id id Hid) as [Hr Hne]. apply NoDup_cons in Hnd as [Hni Hnd].
  cbn [fmap list_fmap packed_entry fst snd parse_parameter_fields]. rewrite Z.eqb_refl. cbn [negb].
  rewrite i8_roundtrip by done. destruct (Z.eqb_spec id 124); [done|].
  change (length (i32_to_be_bytes v)) with 4%nat. cbn [Nat.eqb negb].
  rewrite i32_be_roundtrip, Hid, IH by done. f_equal. cbn [list_to_map foldr uncurry fst snd].
  fold (list_to_map (M := gmap Z Z) es).
  rewrite <- insert_union_l, <- insert_union_r; [done|]. by apply not_elem_of_list_to_map_1.
Qed.

Lemma omap_known (es : list (Z * Z)) :
  Forall entry_typed es ->
  omap (fun e : Z * Z => (fun id => (id, e.2)) <$> parameter_to_signed_id e.1) es = es.
Proof.
  induction 1 as [|[id v] es [Hid _] _ IH]; [done|]. cbn in *. unfold parameter_to_signed_id at 1.
  rewrite Hid. cbn. by rewrite IH.
Qed.

Lemma parse_pack_parameters params acc :
  Forall entry_typed (map_to_list params) ->
  parse_parameter_fields (pack_parameters params) acc = Ok (params ∪ acc).
Proof.
  intros Ht. unfold pack_parameters. rewrite omap_known by done.
  assert (merge_sort VotingCodec.id_le (map_to_list params) ≡ₚ map_to_list params) as Hp
    by apply merge_sort_Permutation.
  change (fun e : Z * Z => (0, as_u8 e.1, i32_to_be_bytes e.2)) with packed_entry.
  assert (NoDup (merge_sort VotingCodec.id_le (map_to_list params)).*1) as Hnd
    by (rewrite Hp; apply NoDup_fst_map_to_list).
  assert (Forall entry_typed (merge_sort VotingCodec.id_le (map_to_list params))) as Ht'.
  { rewrite Forall_forall in Ht |- *. intros e. rewrite Hp. apply Ht. }
  rewrite parse_packed by done. do 2 f_equal.
  rewrite <- (list_to_map_to_list params) at 2. by apply list_to_map_proper.
Qed.

(** at an epoch boundary a block is accepted exactly when its extension decodes to a
    parameter table that has every entry the chain computed, with its value, and the
    computed table names the header's version; parameters the block adds are let through,
    and the proposed update is reported and not compared. An extension whose parameter
    fields are the packed expected table always passes, whatever other fields it has, so
    the miner's boundary blocks are accepted, and reports the table itself. *)
Theorem boundary_check_exact h ext expected update :
  (forall r, check_boundary h ext (Some expected) update = Ok r <->
     exists parsed, parse_parameters_from_extension ext = Ok parsed /\ expected ⊆ parsed /\
       expected !! BlockVersion = Some (Header.version h) /\
       r = (Some parsed, Some (extract_proposed_update ext))) /\
  (Forall entry_typed (map_to_list expected) -> filter param_field (ext_fields ext) = pack_parameters expected ->
   expected !! BlockVersion = Some (Header.version h) ->
   check_boundary h ext (Some expected) update = Ok (Some expected, Some (extract_proposed_update ext))).
Proof.
  assert (forall parsed, parse_parameters_from_extension ext = Ok parsed -> expected ⊆ parsed ->
    expected !! BlockVersion = Some (Header.version h) ->
    check_boundary h ext (Some expected) update = Ok (Some parsed, Some (extract_proposed_update ext))) as Hok.
  { intros parsed Hp Hs Hv. unfold check_boundary. rewrite Hp. cbn [result_bind].
    rewrite (proj2 (check_parameters_spec _ _ _ _ _ _) Hs). cbn [result_bind].
    unfold check_block_version. by rewrite Hv, Z.eqb_refl. }
  split.
  - intros r. split; [|intros (parsed & Hp & Hs & Hv & ->); by apply Hok].
    unfold check_boundary. destruct (parse_parameters_from_extension ext) as [parsed|]; [|done]. cbn [result_bind].
    destruct (check_parameters_v6 _ _ _ _ _ _) as [[]|] eqn:Ec; [|done]. cbn [result_bind].
    unfold check_block_version. destruct (expected !! BlockVersion) as [bv|]; [|done].
    destruct (Z.eqb_spec bv (Header.version h)) as [->|]; [|done]. cbn. intros [= <-]. exists parsed.
    by apply check_parameters_spec in Ec.
  - intros Ht Hf Hv. apply Hok; [|done|done]. unfold parse_parameters_from_extension.
    rewrite parse_fields_filter, Hf, parse_pack_parameters, (right_id_L ∅ (∪)) by done. cbn [result_bind].
    rewrite decide_False; [done|]. intros ->. by rewrite lookup_empty in Hv.
Qed.

(** ** The UTXO validator *)

(** The boxes of a tree: its leaves but the sentinel on the left. *)
Definition boxes (t : tree) : utxo_set := delete (replicate 32 0) (list_to_map (leaves t)).

Lemma captures_app b ops ops' vals vals' c :
  length vals = length ops ->
  captures b (ops ++ ops') (vals ++ vals') c = captures b ops' vals' (captures b ops vals c).
Proof.
  revert vals c. induction ops as [|op ops IH]; intros [|v vals] c Hl; cbn in *; [done..|]. apply IH. lia.
Qed.

Lemma run_length {X} (step : Operation -> X -> option (option (list Z) * X)) ops x vals x' :
  run step ops x = Some (vals, x') -> length vals = length ops.
Proof.
  revert x vals. induction ops as [|op ops IH]; intros x vals; cbn; [by intros [= <- _]|].
  destruct (step op x) as [[v x1]|]; [|done]. destruct (run step ops x1) as [[vals1 x2]|] eqn:E; [|done].
  cbn. intros [= <- <-]. cbn. f_equal. by eapply IH.
Qed.

(** What lookups and removals return is in the set they start from. *)
Lemma captures_sub (b : bool) (ops : list Operation) (u x x' : utxo_set) (vals : list (option (list Z))) (c : utxo_set) :
  Forall (fun op => match op with Insert _ _ => False | _ => True end) ops ->
  run map_op ops x = Some (vals, x') -> x ⊆ u -> c ⊆ u -> captures b ops vals c ⊆ u /\ x' ⊆ u.
Proof.
  intros Hf. revert x vals c. induction Hf as [|op ops Hop _ IH]; intros x vals c Hr Hx Hc; cbn in Hr.
  { by injection Hr as <- <-. }
  destruct (map_op op x) as [[v x1]|] eqn:Eo; [|done].
  destruct (run map_op ops x1) as [[vals1 x2]|] eqn:Er; [|done]. cbn in Hr. injection Hr as <- <-. cbn [captures].
  assert (forall k y, x !! k = Some y -> <[k := y]> c ⊆ u) as Hins.
  { intros k y Hk. apply insert_subseteq_l; [|done]. by eapply lookup_weaken. }
  destruct op as [k|k|k y]; cbn in Eo; [| |done].
  - injection Eo as <- <-. apply IH with x; [done|done|]. unfold capture. destruct b, (x !! k) eqn:Ek; by eauto.
  - destruct (x !! k) as [y|] eqn:Ek; [|done]. cbn in Eo. injection Eo as <- <-. apply IH with (delete k x); [done|..].
    + etrans; [apply delete_subseteq|done].
    + unfold capture. destruct b; by eauto.
Qed.

Lemma captures_inserts b es vals c :
  captures b ((fun e : Insertion => Insert e.1 e.2) <$> es) vals c = c.
Proof.
  revert vals c. induction es as [|e es IH]; intros [|v vals] c; cbn; [done..|].
  rewrite IH. unfold capture. by destruct b, v.
Qed.

Lemma captured_old (b : bool) (c : StateChanges) (u u' : utxo_set) (vals : list (option (list Z))) :
  run map_op (operations_of c) u = Some (vals, u') -> captures b (operations_of c) vals ∅ ⊆ u.
Proof.
  unfold operations_of. rewrite app_assoc, run_app. intros Hr.
  destruct (run map_op ((Lookup <$> lookups c) ++ (Remove <$> removals c)) u) as [[vals1 u1]|] eqn:E1; [|done].
  destruct (run map_op _ u1) as [[vals2 u2]|]; [|done]. cbn in Hr. injection Hr as <- <-.
  rewrite captures_app by (by eapply run_length). rewrite captures_inserts.
  apply (captures_sub b _ u u u1); [|done|done|apply map_empty_subseteq].
  apply Forall_app. split; apply Forall_fmap, Forall_forall; done.
Qed.

Section UtxoProps.
Context {Tx Box RuleStatus : Type} `{SectionIO Tx} `{SigmaIO RuleStatus} `{ErgoTx Tx Box} `{TxInterp Tx Box} `{AvlProver}.

#[local] Existing Instance state_blake.
Context `{HB : !Blake2bLaws} (content : list Z -> option (list Z)).

(** The prover between blocks holds the tree [t], with nothing pending: what a run of
    operations from there gives is the contract of [BatchAVLProver]. A run that succeeds
    has done the operations to the boxes and leaves the prover as an update expects it;
    once persisted and proved it is between blocks again. A restored root is a prover
    between blocks, and so is a new one; two provers on the same tree answer alike, and
    the proof does not depend on the update made before it. *)
Record ProverLaws (synced : tree -> Prover -> Prop) : Prop := {
  pl_run : forall t p ops vals p' d, synced t p ->
    run (step_of perform_one_operation) ops p = Some (vals, p') -> prover_digest p' = Some d ->
    exists t', StateInv.genuine content t' /\ StateInv.prover_ok (Some t) p' t' /\ StateInv.fits32 d /\
      run map_op ops (boxes t) = Some (vals, boxes t') /\ synced t' (generate_proof (reset_prover p')).2;
  pl_restore : forall t height p, StateInv.genuine content t -> synced t (restore_root (pack t) height p);
  pl_new : forall t height, StateInv.genuine content t -> synced t (new_prover (pack t) height);
  pl_alike : forall t p q ops vals p', synced t p -> synced t q ->
    run (step_of perform_one_operation) ops p = Some (vals, p') ->
    exists q', run (step_of perform_one_operation) ops q = Some (vals, q') /\ prover_digest q' = prover_digest p' /\
      (generate_proof (reset_prover q')).1 = (generate_proof p').1 /\
      prover_digest (generate_proof p').2 = prover_digest p';
}.

Context (synced : tree -> Prover -> Prop) (laws : ProverLaws synced).

(** The validator is in step with the newest version of its storage. *)
Record utxo_ok (v : StateInv.Version) (vs : list StateInv.Version) (val : UtxoValidator) : Prop := {
  uk_repr : StateInv.repr content (v :: vs) (storage val);
  uk_digest : u_current_digest val = StateInv.v_digest v;
  uk_height : u_validated_height val = StateInv.v_block v;
  uk_synced : synced (StateInv.v_tree v) (prover val);
}.

(** Room for one more version, and at least one kept for rollback. *)
Record room (vs : list StateInv.Version) (s : Storage) : Prop := {
  rm_lsn : current_lsn s < U64_MAX;
  rm_count : Z.of_nat (length vs) < U32_MAX;
  rm_keep : 0 < keep_versions s;
}.

(** What an accepting run went through. *)
Record accepting (b : BlockInput) (val : UtxoValidator) (report : ApplyStateOutcome) (val' : UtxoValidator)
    (txs : list Tx) (changes : StateChanges) (vals : list (option (list Z))) (p' : Prover) (proof : list Z) : Prop := {
  ac_prepare : prepare_utxo b val =
    Ok (txs, (epoch_boundary_params report, epoch_boundary_proposed_update report), changes);
  ac_run : run (step_of perform_one_operation) (operations_of changes) (prover val) = Some (vals, p');
  ac_root : prover_digest p' = Some (state_root (in_header b));
  ac_scripts :
    let validate_txs := u_checkpoint_height val <? height (in_header b) in
    evaluate_block validate_txs (captures validate_txs (operations_of changes) vals ∅) txs (in_header b)
      (in_preceding b) (in_active_params b) = Return (block_cost report);
  ac_persist : exists p'', update_with_height p' [] (height (in_header b)) (storage val) =
      Return (storage val', p'') /\ generate_proof p'' = (proof, prover val');
  ac_proof : blake2b256 proof = id_bytes (ad_proofs_root (in_header b));
  ac_state : val' =
    mk_utxo (storage val') (prover val') (height (in_header b)) (u_checkpoint_height val) (state_root (in_header b))
      (if decide (emission_tree_bytes val = []) then emission_box_id val
       else find_emission_box (insertions changes) (emission_tree_bytes val))
      (emission_tree_bytes val) (adproof_dump_heights val) (adproof_dump_dir val)
      (dump_proof val (in_header b) proof);
}.

Lemma internal_return b val report val' :
  apply_state_internal b val = (Return report, val') ->
  exists txs changes vals p' proof, accepting b val report val' txs changes vals p' proof.
Proof.
  unfold apply_state_internal. intros E.
  destruct (prepare_utxo b val) as [[[txs [params update]] changes]|] eqn:Ep; [|done].
  pose proof (perform_all_run perform_one_operation StateOperationFailed (u_checkpoint_height val <? height (in_header b))
    (operations_of changes) (prover val) ∅) as Hr.
  destruct (perform_all _ _ _ _ _ _) as [[captured|e] p']; [|done]. destruct Hr as (vals & Hr & ->).
  destruct (prover_digest p') as [digest|] eqn:Ed; [|done]. case_decide as Hd; [|done]. subst digest.
  destruct (evaluate_block _ _ _ _ _ _) as [cost|e|] eqn:Es; [|done..].
  unfold commit_block in E. cbn [prover storage with_state] in E.
  destruct (update_with_height p' [] (height (in_header b)) (storage val)) as [[s p'']|e|] eqn:Eu; [|done..].
  destruct (generate_proof p'') as [proof p3] eqn:Eg. case_decide as Hp; [|done].
  injection E as <- <-. exists txs, changes, vals, p', proof. split; cbn; try done. by exists p''.
Qed.

Lemma internal_accepts b val report txs changes vals p' proof s' p3 :
  let h := in_header b in
  let validate_txs := u_checkpoint_height val <? height h in
  prepare_utxo b val =
    Ok (txs, (epoch_boundary_params report, epoch_boundary_proposed_update report), changes) ->
  run (step_of perform_one_operation) (operations_of changes) (prover val) = Some (vals, p') ->
  prover_digest p' = Some (state_root h) ->
  evaluate_block validate_txs (captures validate_txs (operations_of changes) vals ∅) txs h
    (in_preceding b) (in_active_params b) = Return (block_cost report) ->
  update_with_height p' [] (height h) (storage val) = Return (s', reset_prover p') ->
  generate_proof (reset_prover p') = (proof, p3) ->
  blake2b256 proof = id_bytes (ad_proofs_root h) ->
  exists val', apply_state_internal b val = (Return report, val').
Proof.
  intros h validate_txs Ep Hr Hd Hs Hu Hg Hb. unfold apply_state_internal. fold h. rewrite Ep.
  rewrite (run_perform_all _ _ _ _ _ ∅ _ _ Hr), Hd, decide_True by done. fold validate_txs. rewrite Hs.
  unfold commit_block. cbn [prover storage with_state]. fold h. rewrite Hu, Hg, decide_True by done.
  eexists. by destruct report.
Qed.

(** The block's operations, run, can be persisted. *)
Lemma persist_ok v vs val ops vals p' d h :
  utxo_ok v vs val -> room (v :: vs) (storage val) -> is_u32 h ->
  run (step_of perform_one_operation) ops (prover val) = Some (vals, p') -> prover_digest p' = Some d ->
  exists t' s', update_with_height p' [] h (storage val) = Return (s', reset_prover p') /\
    StateInv.repr content
      (take (max_chain_len (keep_versions (storage val)))
         (StateInv.mk_version d t' (as_u32 (prover_height p')) h :: v :: vs)) s' /\
    keep_versions s' = keep_versions (storage val) /\
    run map_op ops (boxes (StateInv.v_tree v)) = Some (vals, boxes t') /\
    synced t' (generate_proof (reset_prover p')).2.
Proof.
  intros [Hr Hdg Hh Hsy] [Hl Hc Hk] Hu32 Hrun Hd.
  destruct (pl_run _ laws _ _ _ _ _ _ Hsy Hrun Hd) as (t' & Hg & Hp & Hf & Hm & Hs).
  assert (StateInv.update_args content (v :: vs) (storage val) p' t' d [] (Some h)) as Ha.
  { split; [done|exact Hp|done|constructor|by intros ? [= <-]|done]. }
  destruct (StateInv.update_spec _ _ _ _ _ _ _ _ Hr Ha) as (s' & Eu & Hr' & Hk' & _).
  exists t', s'. by split_and!.
Qed.

(** A failing block leaves the validator's own fields alone; the prover may have moved,
    and the block may be persisted, as a version above the newest. *)
Lemma internal_fail b v vs val e val' :
  utxo_ok v vs val -> room (v :: vs) (storage val) -> is_u32 (height (in_header b)) ->
  apply_state_internal b val = (Fail e, val') ->
  exists s p, val' = with_state val s p /\
    (s = storage val \/
     (exists expected got, e = ProofDigestMismatch expected got) /\
     exists w, StateInv.v_digest w = state_root (in_header b) /\
       StateInv.repr content (take (max_chain_len (keep_versions (storage val))) (w :: v :: vs)) s).
Proof.
  intros Hok Hrm Hu32. unfold apply_state_internal. intros E.
  destruct (prepare_utxo b val) as [[[txs [params update]] changes]|] eqn:Ep.
  2: { injection E as _ <-. exists (storage val), (prover val). split; [by destruct val|by left]. }
  pose proof (perform_all_run perform_one_operation StateOperationFailed (u_checkpoint_height val <? height (in_header b))
    (operations_of changes) (prover val) ∅) as Hr.
  destruct (perform_all _ _ _ _ _ _) as [[captured|e'] p']; [|injection E as _ <-; eexists _, p'; by eauto].
  destruct Hr as (vals & Hr & ->).
  destruct (prover_digest p') as [digest|] eqn:Ed; [|injection E as _ <-; eexists _, p'; by eauto].
  case_decide as Hd; [|injection E as _ <-; eexists _, p'; by eauto]. subst digest.
  destruct (evaluate_block _ _ _ _ _ _) as [cost|e'|] eqn:Es; [|injection E as _ <-; eexists _, p'; by eauto|done].
  destruct (persist_ok v vs val _ _ _ _ _ Hok Hrm Hu32 Hr Ed) as (t' & s' & Eu & Hrep & _).
  unfold commit_block in E. cbn [prover storage with_state] in E. rewrite Eu in E.
  destruct (generate_proof (reset_prover p')) as [proof p3]. case_decide as Hp; [done|].
  injection E as <- <-. exists s', p3. split; [done|]. right. split; [eauto|]. eexists. split; [|exact Hrep]. done.
Qed.

Lemma list_find_head {A} (P : A -> Prop) `{forall x, Decision (P x)} x l : P x -> list_find P (x :: l) = Some (0%nat, x).
Proof. intros Hx. cbn. by rewrite decide_True. Qed.

Lemma restored v vs s' val p height :
  StateInv.repr content (v :: vs) s' -> u_current_digest val = StateInv.v_digest v ->
  u_validated_height val = StateInv.v_block v ->
  utxo_ok v vs (with_state val s' (restore_root (pack (StateInv.v_tree v)) height p)).
Proof.
  intros Hr Hd Hh. pose proof (StateInv.r_versions _ _ _ Hr) as [Hv _]%Forall_cons.
  split; [done..|]. cbn. apply (pl_restore _ laws). apply Hv.
Qed.

(** Rolling back after a failed block. *)
Lemma rollback_ok b v vs val s p :
  utxo_ok v vs val -> 0 < keep_versions (storage val) ->
  s = storage val \/
    state_root (in_header b) <> StateInv.v_digest v /\
    (exists w, StateInv.v_digest w = state_root (in_header b) /\
       StateInv.repr content (take (max_chain_len (keep_versions (storage val))) (w :: v :: vs)) s) ->
  exists s' p' vs', rollback_prover_to (u_current_digest val) (with_state val s p) = (Return tt, with_state val s' p') /\
    utxo_ok v vs' (with_state val s' p') /\
    (vs' = vs \/ vs' = take (Z.to_nat (keep_versions (storage val)) - 1) vs).
Proof.
  intros [Hr Hd Hh Hsy] Hk Hor. unfold rollback_prover_to. cbn [storage prover with_state]. rewrite Hd.
  destruct Hor as [->|(Hne & w & Hw & Hr')].
  - pose proof (StateInv.rollback_spec content _ _ (StateInv.v_digest v) Hr) as Hs.
    rewrite list_find_head in Hs by done. destruct Hs as (s' & -> & Hr' & _). rewrite drop_0 in Hr'.
    exists s', (restore_root (pack (StateInv.v_tree v)) (StateInv.v_height v) p), vs.
    split; [done|]. split; [by apply restored|by left].
  - assert (take (max_chain_len (keep_versions (storage val))) (w :: v :: vs) =
            w :: v :: take (Z.to_nat (keep_versions (storage val)) - 1) vs) as Et.
    { unfold max_chain_len. destruct (Z.ltb_spec 0 (keep_versions (storage val))); [|lia].
      replace (Z.to_nat (keep_versions (storage val) + 1)) with (S (S (Z.to_nat (keep_versions (storage val)) - 1))) by lia.
      done. }
    rewrite Et in Hr'. set (vs' := take _ vs) in *.
    pose proof (StateInv.rollback_spec content _ _ (StateInv.v_digest v) Hr') as Hs.
    assert (list_find (fun w0 => StateInv.v_digest w0 = StateInv.v_digest v) (w :: v :: vs') = Some (1%nat, v)) as Ef.
    { cbn. rewrite decide_False by congruence. by rewrite decide_True. }
    rewrite Ef in Hs. destruct Hs as (s' & -> & Hr2 & _). cbn [drop] in Hr2.
    exists s', (restore_root (pack (StateInv.v_tree v)) (StateInv.v_height v) p), vs'.
    split; [done|]. split; [by apply restored|by right].
Qed.

Lemma internal_no_panic b v vs val val' :
  utxo_ok v vs val -> room (v :: vs) (storage val) -> is_u32 (height (in_header b)) ->
  is_Some (in_active_params b !! MaxBlockCost) ->
  apply_state_internal b val <> (Panic, val').
Proof.
  intros Hok Hrm Hu32 [mc Hmc]. unfold apply_state_internal. intros E.
  destruct (prepare_utxo b val) as [[[txs [params update]] changes]|] eqn:Ep; [|done].
  pose proof (perform_all_run perform_one_operation StateOperationFailed (u_checkpoint_height val <? height (in_header b))
    (operations_of changes) (prover val) ∅) as Hr.
  destruct (perform_all _ _ _ _ _ _) as [[captured|e'] p']; [|done].
  destruct Hr as (vals & Hr & ->). destruct (prover_digest p') as [digest|] eqn:Ed; [|done].
  case_decide as Hd; [|done]. subst digest.
  destruct (evaluate_block _ _ _ _ _ _) as [cost|e'|] eqn:Es; [|done|].
  - destruct (persist_ok v vs val _ _ _ _ _ Hok Hrm Hu32 Hr Ed) as (t' & s' & Eu & Hrep & _).
    unfold commit_block in E. cbn [prover storage with_state] in E. rewrite Eu in E.
    destruct (generate_proof (reset_prover p')) as [proof p3]. by case_decide.
  - unfold evaluate_block in Es. destruct (u_checkpoint_height val <? _); [|done].
    destruct (deserialize_entries _) as [pb|]; [|done]. cbn [of_result outcome_bind] in Es.
    unfold evaluate_scripts, validate_transactions, build_state_context in Es. cbn in Es.
    destruct txs, (in_preceding b); try done. cbn [take outcome_bind] in Es.
    destruct (tx_costs _ _ _ _); [|done]. cbn [of_result outcome_bind] in Es. rewrite Hmc in Es. cbn in Es.
    by destruct (enforce_block_cost _ _).
Qed.

Lemma prepare_inv b val txs boundary changes :
  prepare_utxo b val = Ok (txs, boundary, changes) ->
  height (in_header b) = add_u32 (u_validated_height val) 1 /\
  exists parsed ext summaries,
    parse_block_transactions (in_block_txs b) = Ok parsed /\ transactions parsed = txs /\
    parse_extension (in_extension b) = Ok ext /\
    check_boundary (in_header b) ext (in_boundary_params b) (in_proposed_update b) = Ok boundary /\
    transactions_to_summaries txs = Ok summaries /\ compute_state_changes summaries = Ok changes.
Proof.
  unfold prepare_utxo. destruct (Z.eqb_spec (height (in_header b)) (add_u32 (u_validated_height val) 1)) as [E|]; [|done].
  cbn [negb]. destruct (parse_block_transactions _) as [parsed|]; [|done]. cbn [result_bind].
  destruct (parse_extension _) as [ext|]; [|done]. cbn [result_bind].
  destruct (check_boundary _ _ _ _) as [bd|] eqn:Eb; [|done]. cbn [result_bind].
  destruct (transactions_to_summaries _) as [ss|] eqn:Es; [|done]. cbn [result_bind].
  destruct (compute_state_changes ss) as [c|] eqn:Ec; [|done]. cbn [result_bind]. intros [= <- <- <-].
  split; [done|]. by exists parsed, ext, ss.
Qed.

Lemma recovered_emission b val txs boundary changes :
  prepare_utxo b val = Ok (txs, boundary, changes) -> emission_tree_bytes val <> [] ->
  recover_emission_box_id (TipBlock (in_block_txs b)) (emission_tree_bytes val) =
    find_emission_box (insertions changes) (emission_tree_bytes val).
Proof.
  intros (_ & parsed & ext & ss & Ep & <- & _ & _ & Es & Ec)%prepare_inv Hne. unfold recover_emission_box_id.
  rewrite decide_False by done. unfold insertions_of_block. rewrite Ep. cbn [result_bind].
  rewrite Es. cbn [result_bind]. by rewrite Ec.
Qed.

Lemma deserialize_entries_spec es bs :
  deserialize_entries es = Ok bs -> Forall2 (fun e b => e.1 = b.1 /\ box_parse e.2 = Some b.2) es bs.
Proof.
  revert bs. induction es as [|[id bytes] es IH]; intros bs; cbn [deserialize_entries]; [by intros [= <-]|].
  unfold deserialize_box. destruct (box_parse bytes) as [b|] eqn:E; [|done]. cbn [ok_or result_bind].
  destruct (deserialize_entries es) as [bs'|]; [|done]. cbn. intros [= <-]. constructor; [done|]. by apply IH.
Qed.

(** The boxes scripts run on are boxes of the set before the block. *)
Lemma scripts_inv (captured u : utxo_set) (txs : list Tx) h preceding params (cost : option Z) :
  evaluate_block true captured txs h preceding params = Return cost -> captured ⊆ u ->
  exists c proof_boxes, cost = Some c /\ validate_transactions txs proof_boxes h preceding params = Return c /\
    forall id b, proof_boxes !! id = Some b -> exists bytes, u !! id = Some bytes /\ box_parse bytes = Some b.
Proof.
  unfold evaluate_block. intros E Hsub. destruct (deserialize_entries (map_to_list captured)) as [bs|] eqn:Ed; [|done].
  cbn [of_result outcome_bind] in E. destruct (evaluate_scripts _) as [c|e|] eqn:Es; [|done..]. injection E as <-.
  exists c, (list_to_map bs). split_and!; [done|exact Es|].
  intros id b Hb%elem_of_list_to_map_2. apply deserialize_entries_spec in Ed.
  apply list_elem_of_lookup in Hb as [i Hi]. destruct (Forall2_lookup_r _ _ _ _ _ Ed Hi) as ([k bytes] & Hk & [Ek Hp]).
  cbn in Ek, Hp. subst k. exists bytes. split; [|done]. apply list_elem_of_lookup_2, elem_of_map_to_list in Hk.
  by eapply lookup_weaken.
Qed.

(** C2: applying a block to a UTXO validator in step with its storage. If it is accepted,
    its height follows the validated one, its sections parse, its transactions applied one
    after the other take the boxes of the newest version to the boxes of a tree that is
    persisted as the new version, under the header's state root and height; above the
    checkpoint its scripts passed on boxes of the old set at the cost reported; the
    emission box is the one recovery from this block would find; and the validator is in
    step with the new version. If it is rejected, in any step, before or after it was
    persisted, the validator's fields are untouched, storage and prover are back in step
    at the same version, and of the older versions at most those beyond the retention are
    gone. It never panics while the parameters name a cost limit. *)
Theorem utxo_apply_correct b v vs val :
  utxo_ok v vs val -> room (v :: vs) (storage val) -> is_u32 (height (in_header b)) ->
  state_root (in_header b) <> StateInv.v_digest v -> is_Some (in_active_params b !! MaxBlockCost) ->
  let h := in_header b in
  match utxo_apply_state b val with
  | (Return report, val') =>
      exists parsed summaries t' tree_height,
        height h = add_u32 (u_validated_height val) 1 /\
        parse_block_transactions (in_block_txs b) = Ok parsed /\
        transactions_to_summaries (transactions parsed) = Ok summaries /\
        (NoDup (block_outputs summaries).*1 ->
         (forall id, id ∈ (block_outputs summaries).*1 -> boxes (StateInv.v_tree v) !! id = None) ->
         apply_txs summaries (boxes (StateInv.v_tree v)) = Some (boxes t')) /\
        (u_checkpoint_height val < height h ->
         exists cost proof_boxes, block_cost report = Some cost /\
           validate_transactions (transactions parsed) proof_boxes h (in_preceding b) (in_active_params b) = Return cost /\
           forall id bx, proof_boxes !! id = Some bx ->
             exists bytes, boxes (StateInv.v_tree v) !! id = Some bytes /\ box_parse bytes = Some bx) /\
        (emission_tree_bytes val <> [] ->
         emission_box_id val' = recover_emission_box_id (TipBlock (in_block_txs b)) (emission_tree_bytes val)) /\
        utxo_ok (StateInv.mk_version (state_root h) t' tree_height (height h))
          (take (max_chain_len (keep_versions (storage val)) - 1) (v :: vs)) val'
  | (Fail _, val') =>
      exists s' p' vs', val' = with_state val s' p' /\ utxo_ok v vs' val' /\
        (vs' = vs \/ vs' = take (Z.to_nat (keep_versions (storage val)) - 1) vs)
  | (Panic, _) => False
  end.
Proof.
  intros Hok Hrm Hu32 Hne Hmc h. unfold utxo_apply_state.
  destruct (apply_state_internal b val) as [[report|e|] val'] eqn:E.
  - destruct (internal_return _ _ _ _ E) as (txs & changes & vals & p' & proof & Hac).
    destruct Hac as [Hprep Hrun Hroot Hscr (p'' & Hup & Hgen) _ Hst].
    destruct (prepare_inv _ _ _ _ _ Hprep) as (Hh & parsed & ext & ss & Epa & Etx & _ & _ & Ess & Ecc).
    destruct (persist_ok v vs val _ _ _ _ _ Hok Hrm Hu32 Hrun Hroot) as (t' & s' & Eu & Hrep & Hkeep & Hmap & Hsy).
    rewrite Eu in Hup. injection Hup as -> <-. subst txs.
    exists parsed, ss, t', (as_u32 (prover_height p')). split_and!; [done..| | | |].
    + intros Hnd Hfr. rewrite (changes_spec _ _ Hnd Hfr), Ecc, <- run_changes, Hmap. done.
    + intros Hc%Z.ltb_lt. cbv zeta in Hscr. fold h in Hscr. rewrite Hc in Hscr.
      destruct (scripts_inv _ _ _ _ _ _ _ Hscr (captured_old _ _ _ _ _ Hmap)) as (c & pb & ? & ? & ?).
      by exists c, pb.
    + intros Hem. rewrite Hst, (recovered_emission _ _ _ _ _ Hprep Hem). cbn. by rewrite decide_False.
    + rewrite Hst. split; cbn [storage prover u_current_digest u_validated_height]; [|done..|].
      * destruct (max_chain_len (keep_versions (storage val))) as [|n] eqn:En.
        { pose proof (StateInv.max_chain_len_pos (keep_versions (storage val))). lia. }
        cbn [take Nat.sub] in *. by rewrite Nat.sub_0_r.
      * by rewrite Hgen in Hsy.
  - destruct (internal_fail b v vs val e val' Hok Hrm Hu32 E) as (s & p & -> & Hor).
    destruct (rollback_ok b v vs val s p Hok (rm_keep _ _ Hrm)) as (s' & p2 & vs' & -> & Hok' & Hvs); [by intuition|].
    by exists s', p2, vs'.
  - by eapply internal_no_panic.
Qed.

(** ** The digest validator follows *)

(** The proofs of [BatchAVLProver] convince [BatchAVLVerifier]: from the digest of the tree
    the prover started on, the same operations return the same values and arrive at the
    same digest. *)
Definition proofs_verify : Prop :=
  forall t p d0 ops vals p' d proof p3, synced t p -> prover_digest p = Some d0 ->
    run (step_of perform_one_operation) ops p = Some (vals, p') -> prover_digest p' = Some d ->
    generate_proof (reset_prover p') = (proof, p3) ->
    exists vf vf', new_verifier d0 proof (Z.of_nat (length ops)) = Ok vf /\
      run (step_of verify_one_operation) ops vf = Some (vals, vf') /\ verifier_digest vf' = Some d.

(** C24: a digest validator at the same height, digest and checkpoint accepts every block
    the UTXO validator accepts, given a proofs section that hashes to the header's root,
    no proof of the prover colliding with it: it reports the same outcome, the cost of the
    scripts included, and arrives at the same height and digest. *)
Theorem digest_follows_utxo b v vs val report val' dv body proofs :
  proofs_verify -> utxo_ok v vs val -> room (v :: vs) (storage val) -> is_u32 (height (in_header b)) ->
  prover_digest (prover val) = Some (u_current_digest val) ->
  d_current_digest dv = u_current_digest val -> d_validated_height dv = u_validated_height val ->
  d_checkpoint_height dv = u_checkpoint_height val ->
  in_ad_proofs b = Some body -> parse_ad_proofs body = Ok proofs ->
  blake2b256 (proof_bytes proofs) = id_bytes (ad_proofs_root (in_header b)) ->
  (forall p, blake2b256 (generate_proof p).1 = id_bytes (ad_proofs_root (in_header b)) ->
     (generate_proof p).1 = proof_bytes proofs) ->
  utxo_apply_state b val = (Return report, val') ->
  digest_apply_state b dv =
    (Return report, mk_digest (u_current_digest val') (u_validated_height val') (d_checkpoint_height dv)).
Proof.
  intros Hpv Hok Hrm Hu32 Hpd Ed Eh Ec Eb Ep Hroot Hpre E. unfold utxo_apply_state in E.
  destruct (apply_state_internal b val) as [[r|e|] v1] eqn:Ei; [|by destruct (rollback_prover_to _ _) as [[] ?]|done].
  injection E as -> ->. destruct (internal_return _ _ _ _ Ei) as (txs & changes & vals & p' & proof & Hac).
  destruct Hac as [Hprep Hrun Hsr Hscr (p'' & Hup & Hgen) Hproof Hst].
  destruct (persist_ok v vs val _ _ _ _ _ Hok Hrm Hu32 Hrun Hsr) as (t' & s' & Eu & _).
  rewrite Eu in Hup. injection Hup as Es <-. specialize (Hpre (reset_prover p')). rewrite Hgen in Hpre.
  cbn [fst] in Hpre. apply Hpre in Hproof as Epr. subst proof.
  destruct (Hpv _ _ _ _ _ _ _ _ _ (uk_synced _ _ _ Hok) Hpd Hrun Hsr Hgen) as (vf & vf' & Hnew & Hvr & Hvd).
  destruct (prepare_inv _ _ _ _ _ Hprep) as (Hh & parsed & ext & ss & Epa & Etx & Eex & Ebd & Ess & Ecc).
  assert (prepare_digest b dv = Ok (proof_bytes proofs, txs,
    (epoch_boundary_params report, epoch_boundary_proposed_update report), changes)) as Epd.
  { unfold prepare_digest. rewrite Eh, <- Hh, Z.eqb_refl. cbn [negb]. rewrite Eb. cbn [ok_or result_bind].
    rewrite Ep. cbn [result_bind]. rewrite Epa. cbn [result_bind]. rewrite Eex. cbn [result_bind].
    rewrite Ebd. cbn [result_bind]. rewrite decide_True by done. rewrite Etx, Ess. cbn [result_bind]. by rewrite Ecc. }
  unfold digest_apply_state. rewrite Epd. cbn [of_result outcome_bind]. rewrite Ed, Hnew. cbn [outcome_bind].
  rewrite (run_perform_all _ _ _ _ _ ∅ _ _ Hvr). cbn [of_result outcome_bind]. rewrite Hvd, decide_True by done.
  cbv zeta in Hscr. rewrite Ec, Hscr. cbn [outcome_bind]. rewrite Hst. by destruct report.
Qed.

(** ** What the miner computes is accepted *)

Lemma compute_proofs_inv v vs val txs proof digest :
  utxo_ok v vs val -> compute_proofs txs val = Return (proof, digest) ->
  exists ss changes vals p' ,
    transactions_to_summaries txs = Ok ss /\ compute_state_changes ss = Ok changes /\
    run (step_of perform_one_operation) (operations_of changes) (prover val) = Some (vals, p') /\
    prover_digest p' = Some digest /\ (generate_proof (reset_prover p')).1 = proof.
Proof.
  intros Hok. pose proof (uk_repr _ _ _ Hok) as Hr. pose proof (StateInv.r_versions _ _ _ Hr) as [Hv _]%Forall_cons.
  destruct (StateInv.vo_tree _ _ Hv) as (Hwf & Hwh & Hc).
  destruct (StateInv.r_meta _ _ _ Hr) as (_ & Hhash & Hheight & _).
  unfold compute_proofs, read_root_state, copy_digest. rewrite Hhash, (label_length _ Hwf), Hheight, be_bytes_length.
  cbn [Nat.eqb outcome_bind]. unfold proofs_from_storage, get_node.
  destruct (transactions_to_summaries txs) as [ss|]; [|done]. cbn [result_bind].
  destruct (compute_state_changes ss) as [changes|] eqn:Ec; [|done]. cbn [result_bind ok_or].
  rewrite (stored_root _ _ Hwh (StateInv.r_top _ _ _ Hr v eq_refl)). cbn [ok_or result_bind].
  set (p0 := new_prover _ _). pose proof (perform_all_run perform_one_operation StateOperationFailed false
    (operations_of changes) p0 ∅) as Hrun.
  destruct (perform_all _ _ _ _ _ p0) as [[captured|e] p1]; [|done]. destruct Hrun as (vals & Hrun & _).
  destruct (pl_alike _ laws (StateInv.v_tree v) p0 (prover val) _ _ _ ltac:(by apply (pl_new _ laws); apply Hv)
    (uk_synced _ _ _ Hok) Hrun) as (q' & Hq & Hqd & Hqp & Hgd).
  destruct (generate_proof p1) as [pr p2] eqn:Eg. cbn [fst snd] in Hqp, Hgd.
  destruct (prover_digest p2) as [d|] eqn:Ed; [|done]. cbn [ok_or result_bind of_result]. intros [= <- <-].
  exists ss, changes, vals, q'. split_and!; [done..| |done]. by rewrite Hqd, <- Hgd.
Qed.

(** A block whose transactions are those of a serialized section gets through the first
    checks. *)
Lemma serialized_prepares `{!SigmaIOLaws RuleStatus, !TxPrinter Tx, !TxPrinterLaws Tx}
    b val txs bv bytes ext boundary ss changes :
  let h := in_header b in
  height h = add_u32 (u_validated_height val) 1 -> 1 <= bv <= U8_MAX -> zlen txs <= U32_MAX ->
  serialize_block_transactions (id_bytes (header_id h)) bv txs = Ok bytes -> in_block_txs b = bytes ->
  parse_extension (in_extension b) = Ok ext ->
  check_boundary h ext (in_boundary_params b) (in_proposed_update b) = Ok boundary ->
  transactions_to_summaries txs = Ok ss -> compute_state_changes ss = Ok changes ->
  prepare_utxo b val = Ok (txs, (boundary.1, boundary.2), changes).
Proof.
  intros h Hh Hbv Hn Hser Hbt Hext Hbd Hss Hcc.
  unfold prepare_utxo. fold h. rewrite <- Hh, Z.eqb_refl. cbn [negb]. rewrite Hbt.
  pose proof (block_transactions_roundtrip (RuleStatus := RuleStatus) (id_bytes (header_id h)) bv txs bytes []
    (id_bytes_length _) Hbv Hn Hser) as Hrt. rewrite app_nil_r in Hrt. rewrite Hrt. cbn [result_bind].
  rewrite Hext. cbn [result_bind]. rewrite Hbd. cbn [result_bind transactions].
  rewrite Hss. cbn [result_bind]. rewrite Hcc. by destruct boundary.
Qed.

(** A block that got through them, with the digest and the proof the validator computed. *)
Lemma computed_applies b v vs val txs proof digest boundary ss changes vals u' cost :
  let h := in_header b in
  let validate_txs := u_checkpoint_height val <? height h in
  utxo_ok v vs val -> room (v :: vs) (storage val) -> is_u32 (height h) ->
  compute_proofs txs val = Return (proof, digest) -> state_root h = digest ->
  blake2b256 proof = id_bytes (ad_proofs_root h) ->
  prepare_utxo b val = Ok (txs, boundary, changes) ->
  transactions_to_summaries txs = Ok ss -> compute_state_changes ss = Ok changes ->
  run map_op (operations_of changes) (boxes (StateInv.v_tree v)) = Some (vals, u') ->
  evaluate_block validate_txs (captures validate_txs (operations_of changes) vals ∅) txs h
    (in_preceding b) (in_active_params b) = Return cost ->
  exists val', utxo_apply_state b val = (Return (mk_outcome boundary.1 boundary.2 cost), val').
Proof.
  intros h validate_txs Hok Hrm Hu32 Hcp Hsr Hb Eprep Hss Hcc Hmap Hscr.
  destruct (compute_proofs_inv v vs val txs proof digest Hok Hcp) as (ss' & ch' & vals' & p' & Ess & Ecc & Hrun & Hd & Hg).
  rewrite Hss in Ess. injection Ess as <-. rewrite Hcc in Ecc. injection Ecc as <-.
  destruct (persist_ok v vs val _ _ _ _ _ Hok Hrm Hu32 Hrun Hd) as (t' & s' & Eu & _ & _ & Hmap' & _).
  rewrite Hmap in Hmap'. injection Hmap' as <- _.
  destruct (generate_proof (reset_prover p')) as [pr p3] eqn:Eg. cbn [fst] in Hg. subst pr.
  rewrite <- Hsr in Hd. destruct boundary as [b1 b2].
  destruct (internal_accepts b val (mk_outcome b1 b2 cost) txs changes vals p' proof s' p3
    Eprep Hrun Hd Hscr Eu Eg Hb) as [val' Ei].
  exists val'. unfold utxo_apply_state. by rewrite Ei.
Qed.

(** C25: a block assembled from what the validator computed for the miner is accepted: with
    the transactions serialized into the section, the computed digest as state root and
    the hash of the computed proof as proof root, at the next height, if the extension
    passes the boundary check and, above the checkpoint, the scripts pass on the boxes
    the operations return from the current set, then the block applies, at the cost of
    the scripts. *)
Theorem mined_block_accepted `{!SigmaIOLaws RuleStatus, !TxPrinter Tx, !TxPrinterLaws Tx}
    b v vs val txs proof digest bv bytes ext boundary ss changes vals u' cost :
  let h := in_header b in
  let validate_txs := u_checkpoint_height val <? height h in
  utxo_ok v vs val -> room (v :: vs) (storage val) -> is_u32 (height h) ->
  compute_proofs txs val = Return (proof, digest) ->
  height h = add_u32 (u_validated_height val) 1 -> state_root h = digest ->
  blake2b256 proof = id_bytes (ad_proofs_root h) ->
  1 <= bv <= U8_MAX -> zlen txs <= U32_MAX ->
  serialize_block_transactions (id_bytes (header_id h)) bv txs = Ok bytes -> in_block_txs b = bytes ->
  parse_extension (in_extension b) = Ok ext ->
  check_boundary h ext (in_boundary_params b) (in_proposed_update b) = Ok boundary ->
  transactions_to_summaries txs = Ok ss -> compute_state_changes ss = Ok changes ->
  run map_op (operations_of changes) (boxes (StateInv.v_tree v)) = Some (vals, u') ->
  evaluate_block validate_txs (captures validate_txs (operations_of changes) vals ∅) txs h
    (in_preceding b) (in_active_params b) = Return cost ->
  exists val', utxo_apply_state b val = (Return (mk_outcome boundary.1 boundary.2 cost), val').
Proof.
  intros h validate_txs Hok Hrm Hu32 Hcp Hh Hsr Hb Hbv Hn Hser Hbt Hext Hbd Hss Hcc Hmap Hscr.
  eapply (computed_applies b v vs val txs proof digest (boundary.1, boundary.2)); [done..| |done|done|done|exact Hscr].
  by apply (serialized_prepares b val txs bv bytes ext boundary ss changes).
Qed.

(** ** Sequences of blocks, resets and flushes *)







End UtxoProps.

End ValidationInv.
