(* ===== verification/ValidatorsExample.v ===== *)
(** * The validators on a small tree

    An instance of every interface the validators use: one-byte transactions that create
    one box each, a prover and a verifier that know the insertion taking the tree [t1] of
    [StateInv.Examples] to [t2], and the block with that transaction. The laws hold of it,
    and the theorems of [ValidationInv] are applied to it. *)

From S2P Require Import Prelude Bytes Frame ChainConfig VotingCodec Voting Header Sections AvlTree StateStorage StateStorageInv StateReader BlockSections StateChanges Validators ValidatorsInv.
Import ChainConfig VotingCodec Voting Sections Avl State Reader BlockSections StateChanges Validation ValidationInv.
Import StateInv.Examples BlockSections.Examples.

Module ValidationEx.

#[export] Instance ex_ergo : ErgoTx Z Z := {
  tx_inputs _ := [];
  tx_data_inputs _ := None;
  tx_outputs tx := [tx];
  box_id b := key b;
  box_serialize b := Some [b + 2];
  box_parse l := match l with [x] => Some (x - 2) | _ => None end;
  box_tree_bytes b := Some [b];
}.

#[export] Instance ex_interp : TxInterp Z Z := {
  TransactionContext := Z;
  context_new tx _ _ := Ok tx;
  context_validate _ _ := Ok 10;
  ec_generator := [];
  emission_contract := Some (Some [5]);
}.

#[export] Instance pnode_eq_dec : EqDecision pnode.
Proof. solve_decision. Defined.
#[export] Instance prover_eq_dec : EqDecision Prover.
Proof. solve_decision. Defined.
#[export] Instance operation_eq_dec : EqDecision Operation.
Proof. solve_decision. Defined.

(** The provers between blocks on [t1], on [t2], and on nothing known. *)
Definition prover1 : Prover := mk_prover (LoadedLeaf false false (key 0) [] (key 9)) [] 0 (Some (label t1 ++ [0])).
Definition prover2 : Prover := reset_prover p2.
Definition dead : Prover := mk_prover (LabelOnly []) [] 0 None.

Definition the_insert : Operation := Insert (key 5) [7].

Definition on_root (root : list Z) : Prover :=
  if decide (root = pack t1) then prover1 else if decide (root = pack t2) then prover2 else dead.

#[export] Instance ex_prover : AvlProver := {
  perform_one_operation op p :=
    if decide (op = the_insert /\ p = prover1) then (Ok None, p2) else (Err "unknown", p);
  generate_proof p := ([4], p);
  restore_root root _ _ := on_root root;
  new_prover root _ := on_root root;
  Verifier := list Z;
  new_verifier d _ _ := Ok d;
  verify_one_operation op d :=
    if decide (op = the_insert /\ d = label t1 ++ [0]) then (Ok None, label t2 ++ [1]) else (Err "unknown", d);
  verifier_digest d := Some d;
}.

Definition ex_synced (t : tree) (p : Prover) : Prop :=
  (t = t1 /\ p = prover1) \/ (t = t2 /\ p = prover2) \/ (t <> t1 /\ t <> t2 /\ p = dead).

(** ** The laws *)

#[export] Existing Instance state_blake.
#[export] Instance ex_blake_laws : Blake2bLaws.
Proof. done. Qed.

Lemma run_ex p ops vals p' :
  run (step_of perform_one_operation) ops p = Some (vals, p') ->
  (ops = [] /\ vals = [] /\ p' = p) \/ (ops = [the_insert] /\ vals = [None] /\ p = prover1 /\ p' = p2).
Proof.
  destruct ops as [|op ops]; cbn [run]; [intros [= <- <-]; by left|]. unfold step_of at 1. cbn [perform_one_operation ex_prover].
  case_decide as Hd; [|done]. destruct Hd as [-> ->]. destruct ops as [|op ops]; cbn [run].
  - intros [= <- <-]. by right.
  - unfold step_of at 1. cbn [perform_one_operation ex_prover]. rewrite decide_False by (intros [_ E]; by vm_compute in E).
    done.
Qed.

(** A packed root determines a genuine tree. *)
Lemma pack_inj content t t' :
  StateInv.genuine content t -> StateInv.genuine content t' -> pack t = pack t' -> t = t'.
Proof.
  revert t'. induction t as [k v nk|b k l IHl r IHr|lbl]; intros [k' v' nk'|b' k' l' r'|lbl'] Hg Hg' E;
    try (by destruct Hg as (_ & [] & _)); try (by destruct Hg' as (_ & [] & _)); try (by cbn in E).
  - pose proof (parse_leaf k v nk [] (proj1 Hg)) as H1. pose proof (parse_leaf k' v' nk' [] (proj1 Hg')) as H2.
    rewrite E in H1. congruence.
  - pose proof (parse_internal b k l r [] (proj1 Hg)) as H1. pose proof (parse_internal b' k' l' r' [] (proj1 Hg')) as H2.
    rewrite E in H1. assert (label l = label l' /\ label r = label r' /\ b = b' /\ k = k') as (El & Er & -> & ->)
      by (split_and!; congruence).
    destruct Hg as ((_ & _ & Hwl & Hwr) & [Hhl Hhr] & [_ [Hcl Hcr]%Forall_app]%Forall_cons).
    destruct Hg' as ((_ & _ & Hwl' & Hwr') & [Hhl' Hhr'] & [_ [Hcl' Hcr']%Forall_app]%Forall_cons).
    assert (forall x y, whole x -> whole y -> Forall (StateInv.true_node content) (packed_nodes x) ->
      Forall (StateInv.true_node content) (packed_nodes y) -> label x = label y -> pack x = pack y) as Hp.
    { intros x y Hx Hy Hfx Hfy Exy. rewrite Forall_forall in Hfx, Hfy.
      destruct (Hfx _ (root_packed x Hx)) as [H3 _], (Hfy _ (root_packed y Hy)) as [H4 _]. cbn in H3, H4. congruence. }
    f_equal; [apply IHl|apply IHr]; try done; by apply Hp.
Qed.

Lemma ex_genuine_trees t : t = t1 \/ t = t2 -> StateInv.genuine ex_content t.
Proof. exact (ex_genuine t). Qed.

Lemma on_root_synced t : StateInv.genuine ex_content t -> ex_synced t (on_root (pack t)).
Proof.
  intros Hg. unfold on_root.
  destruct (decide (pack t = pack t1)) as [E|Hne1]; [|destruct (decide (pack t = pack t2)) as [E|Hne2]].
  - left. split; [|done]. apply (pack_inj ex_content); [done|by apply ex_genuine_trees; left|done].
  - right. left. split; [|done]. apply (pack_inj ex_content); [done|by apply ex_genuine_trees; right|done].
  - right. right. split_and!; [by intros ->|by intros ->|done].
Qed.

(** A prover on which nothing happened. *)
Lemma idle_ok t p :
  match top_node p with LabelOnly _ => False | _ => True end -> StateInv.explored (Some t) (top_node p) t ->
  removed_labels p = [] -> StateInv.fits32 (packed_nodes t) -> StateInv.prover_ok (Some t) p t.
Proof.
  intros Hl Hx Hr Hf. split; rewrite ?Hr; [done|done|by intros l ?%elem_of_nil|..].
  - intros o n [= <-] Hn. by left.
  - constructor.
  - by split; [vm_compute|].
Qed.

Lemma ex_prover_laws : ProverLaws ex_content ex_synced.
Proof.
  split.
  - intros t p ops vals p' d Hs [(-> & -> & ->)|(-> & -> & -> & ->)]%run_ex Hd.
    + destruct Hs as [[-> ->]|[[-> ->]|(_ & _ & ->)]]; [..|done].
      * injection Hd as <-. exists t1. split_and!; [by apply ex_genuine_trees; left| |by vm_compute|done|by left].
        apply idle_ok; [done| |done|by vm_compute]. constructor. intros _ _. exists t1. split; [done|constructor].
      * injection Hd as <-. exists t2. split_and!; [by apply ex_genuine_trees; right| |by vm_compute|done|by right; left].
        apply idle_ok; [done| |done|by vm_compute].
        apply StateInv.explored_node; [|apply StateInv.explored_leaf..]; intros _ _; exists t2; (split; [done|]).
        -- apply StateInv.subtree_refl.
        -- apply StateInv.subtree_left, StateInv.subtree_refl.
        -- apply StateInv.subtree_right, StateInv.subtree_refl.
    + destruct Hs as [[-> _]|[[_ E]|(_ & _ & E)]]; [|by vm_compute in E..]. injection Hd as <-.
      exists t2. split_and!; [by apply ex_genuine_trees; right| |by vm_compute|vm_compute; reflexivity|right; left; split; reflexivity].
      exact (StateInv.ua_prover _ _ _ _ _ _ _ _ ex_args).
  - intros t h p Hg. by apply on_root_synced.
  - intros t h Hg. by apply on_root_synced.
  - intros t p q ops vals p' Hp Hq Hr. exists p'. assert (p = q) as <-; [|done].
    unfold ex_synced in Hp, Hq. assert (t1 <> t2) by done. intuition congruence.
Qed.

(** ** The block *)

Definition val1 : UtxoValidator := mk_utxo s1 prover1 100 50 (label t1 ++ [0]) None [5] ∅ None ∅.

Definition hdr (h proofs_root : Z) (root : list Z) : BlockHeader :=
  mk_block_header (mk_header 2 7 6 proofs_root 0 38 1000 h 1 (0, 0, 0)) root [].

(** The block at height 101 with the transaction that creates box 5; the root of its proof
    is an argument. *)
Definition block (proofs_root : Z) : BlockInput :=
  mk_input (hdr 101 proofs_root (label t2 ++ [1]))
    (id_bytes 7 ++ put_u32 (BLOCK_VERSION_SENTINEL + 2) ++ put_u32 1 ++ [5])
    (Some (id_bytes 7 ++ put_u32 1 ++ [4])) (id_bytes 7 ++ put_u16 0) [hdr 100 0 (label t1 ++ [0])]
    {[ MaxBlockCost := 1000 ]} None None.

Definition good_root : Z := from_be (blake2b256 [4]).
Definition bad_root : Z := 1.

Lemma ex_utxo_ok : utxo_ok ex_content ex_synced v1 [] val1.
Proof. split; [exact (StateInv.reachable_repr _ _ _ ex_reachable1)|done|done|by left]. Qed.

Lemma ex_room : room [v1] (storage val1).
Proof. by split; vm_compute. Qed.

Lemma ex_accepts :
  match utxo_apply_state (block good_root) val1 with
  | (Return report, val') => block_cost report = Some 10 /\ emission_box_id val' = Some (key 5) /\
      version (storage val') = Some (label t2 ++ [1])
  | _ => False
  end.
Proof. by vm_compute. Qed.

Lemma ex_advances :
  match utxo_apply_state (block good_root) val1 with
  | (Return _, val') => u_current_digest val' = label t2 ++ [1] /\ u_validated_height val' = 101
  | _ => False
  end.
Proof. by vm_compute. Qed.

Lemma ex_rejects : match utxo_apply_state (block bad_root) val1 with (Fail _, _) => True | _ => False end.
Proof. by vm_compute. Qed.

Lemma ex_parsed :
  parse_block_transactions (in_block_txs (block good_root)) = Ok (mk_block_txs (id_bytes 7) 2 [5]).
Proof. by vm_compute. Qed.

Lemma ex_new_root root : state_root (in_header (block root)) <> StateInv.v_digest v1.
Proof. intros E. by vm_compute in E. Qed.

Lemma ex_limit root : is_Some (in_active_params (block root) !! MaxBlockCost).
Proof. by exists 1000. Qed.

Lemma utxo_apply_correct_witness :
  (exists report val' t', utxo_apply_state (block good_root) val1 = (Return report, val') /\
     block_cost report = Some 10 /\ emission_box_id val' = Some (key 5) /\
     apply_txs [mk_summary [] [] [(key 5, [7])]] (boxes t1) = Some (boxes t') /\
     version (storage val') = Some (label t2 ++ [1])) /\
  (exists e val' vs', utxo_apply_state (block bad_root) val1 = (Fail e, val') /\
     utxo_ok ex_content ex_synced v1 vs' val').
Proof.
  split.
  - pose proof (utxo_apply_correct ex_content ex_synced ex_prover_laws (block good_root) v1 [] val1 ex_utxo_ok ex_room
      ltac:(by vm_compute) (ex_new_root _) (ex_limit _)) as Ht. pose proof ex_accepts as Hc.
    destruct (utxo_apply_state (block good_root) val1) as [[report|e|] val']; [|done..].
    destruct Ht as (parsed & ss & t' & th & _ & Hp & Hs & Ha & _). destruct Hc as (Hc & He & Hv).
    rewrite ex_parsed in Hp. injection Hp as <-. cbn in Hs. injection Hs as <-.
    exists report, val', t'. split_and!; [done..| |done]. apply Ha.
    + apply (bool_decide_unpack _). by vm_compute.
    + intros id Hid. apply list_elem_of_singleton in Hid as ->. by vm_compute.
  - pose proof (utxo_apply_correct ex_content ex_synced ex_prover_laws (block bad_root) v1 [] val1 ex_utxo_ok ex_room
      ltac:(by vm_compute) (ex_new_root _) (ex_limit _)) as Ht. pose proof ex_rejects as Hc.
    destruct (utxo_apply_state (block bad_root) val1) as [[report|e|] val']; [done| |done].
    destruct Ht as (s' & p' & vs' & -> & Hok & _). by exists e, (with_state val1 s' p'), vs'.
Defined.

Lemma ex_proofs_verify : proofs_verify ex_synced.
Proof.
  intros t p d0 ops vals p' d proof p3 Hs Hd0 [(-> & -> & ->)|(-> & -> & -> & ->)]%run_ex Hd _.
  - exists d0, d0. rewrite Hd0 in Hd. by injection Hd as <-.
  - exists d0, (label t2 ++ [1]). injection Hd0 as <-. injection Hd as <-. split_and!; [done| |done].
    cbn [run]. unfold step_of. cbn [verify_one_operation ex_prover]. by rewrite decide_True.
Qed.

Lemma digest_follows_utxo_witness :
  exists report, digest_apply_state (block good_root) (mk_digest (label t1 ++ [0]) 100 50) =
    (Return report, mk_digest (label t2 ++ [1]) 101 50) /\ block_cost report = Some 10.
Proof.
  pose proof (fun report val' => digest_follows_utxo ex_content ex_synced ex_prover_laws (block good_root) v1 [] val1
    report val' (mk_digest (label t1 ++ [0]) 100 50) (id_bytes 7 ++ put_u32 1 ++ [4]) (mk_proofs (id_bytes 7) [4])
    ex_proofs_verify ex_utxo_ok ex_room ltac:(by vm_compute) eq_refl eq_refl eq_refl eq_refl eq_refl
    ltac:(by vm_compute) ltac:(by vm_compute) (fun _ _ => eq_refl)) as Ht.
  pose proof ex_accepts as Hc. pose proof ex_advances as Ha.
  destruct (utxo_apply_state (block good_root) val1) as [[report|e|] val']; [|done..].
  destruct Hc as (Hc & _), Ha as [Hd Hh]. exists report. split; [|done].
  rewrite (Ht report val' eq_refl), Hd, Hh. done.
Defined.

(** The miner's side: the proof and the digest for the transaction. *)
Lemma mined_block_accepted_witness :
  exists val', utxo_apply_state (block good_root) val1 = (Return (mk_outcome None None (Some 10)), val').
Proof.
  apply (mined_block_accepted ex_content ex_synced ex_prover_laws (block good_root) v1 [] val1 [5] [4] (label t2 ++ [1]) 2
    (in_block_txs (block good_root)) (mk_extension (id_bytes 7) []) (None, None)
    [mk_summary [] [] [(key 5, [7])]] (mk_changes [] [] [(key 5, [7])]) [None] (boxes t2) (Some 10));
    [exact ex_utxo_ok|exact ex_room|split; vm_compute; discriminate
    |vm_compute; reflexivity|vm_compute; reflexivity|vm_compute; reflexivity|vm_compute; reflexivity
    |split; vm_compute; discriminate|vm_compute; discriminate|vm_compute; reflexivity..].
Defined.



(** ** The checks *)

Lemma scripts_correct_witness :
  validate_transactions [5; 6] ∅ (hdr 101 0 []) [hdr 100 0 []] {[ MaxBlockCost := 20 ]} = Return 20 /\
  validate_transactions [5; 6] ∅ (hdr 101 0 []) [hdr 100 0 []] {[ MaxBlockCost := 19 ]} <> Return 20.
Proof.
  assert (costs_u64 (Tx := Z) (Box := Z)) as Hc by (intros c ctx cost [= <-]; split; vm_compute; discriminate).
  split.
  - apply (scripts_correct [5; 6] ∅ (hdr 101 0 []) [hdr 100 0 []] {[ MaxBlockCost := 20 ]} 20 20 Hc);
      [reflexivity|split; vm_compute; discriminate|].
    exists [10; 10]. split; [|split; [reflexivity|vm_compute; discriminate]].
    repeat constructor; eexists [], [], _; (split_and!; [constructor|constructor|reflexivity|reflexivity]).
  - intros E.
    apply (scripts_correct [5; 6] ∅ (hdr 101 0 []) [hdr 100 0 []] {[ MaxBlockCost := 19 ]} 19 20 Hc) in E
      as (costs & _ & Hs & Hle); [|reflexivity|split; vm_compute; discriminate].
    lia.
Defined.

(** A boundary block with a field of another kind between its parameters. *)
Definition ex_params : table := {[ BlockVersion := 2; MaxBlockCost := 1000000 ]}.

Lemma boundary_check_exact_witness :
  check_boundary (hdr 1024 0 [])
    (mk_extension (id_bytes 7) (((1, 0), [9]) :: pack_parameters ex_params ++ [((0, 124), [8])])) (Some ex_params) None =
    Ok (Some ex_params, Some [8]).
Proof.
  apply (proj2 (boundary_check_exact (hdr 1024 0 [])
    (mk_extension (id_bytes 7) (((1, 0), [9]) :: pack_parameters ex_params ++ [((0, 124), [8])])) ex_params None)).
  - apply Forall_forall. intros [k v] Hin%elem_of_map_to_list. unfold ex_params in Hin.
    apply lookup_insert_Some in Hin as [[<- <-]|[_ Hin]]; [by vm_compute|].
    apply lookup_singleton_Some in Hin as [<- <-]. by vm_compute.
  - vm_compute. reflexivity.
  - vm_compute. reflexivity.
Defined.

End ValidationEx.
