(* ===== verification/Mining.v ===== *)
(** * Block candidates

    src/mining/src: the emission transaction and the re-emission rules (emission.rs), the
    fee transaction (fee.rs), the selection of transactions and its limits
    (selection.rs), the extension (extension.rs), the assembly of a candidate, its work
    message and a solved block (lib.rs, candidate.rs, solution.rs), and the candidate
    slots with the solved latch (lib.rs). Boxes are built, measured and put into
    transactions by ergo-lib ([MinerLib]); interlinks are those of ergo_nipopow, headers
    are serialized by ergo_chain_types ([MinerHeaders]). *)

From S2P Require Import Prelude Bytes Frame ChainConfig VotingCodec Voting Header Pow Sections AvlTree StateStorage BlockSections StateChanges Validators.
Import ChainConfig VotingCodec Voting Pow Sections Avl State BlockSections StateChanges Validation.

(** A token: its id and its amount. *)
Record Token := mk_token { token_id : list Z; token_amount : Z }.

#[global] Instance Token_eq_dec : EqDecision Token.
Proof. solve_decision. Defined.

(** What the miner uses of ergo-lib: the emission schedule, the fields of a box, checked
    values and amounts, box candidates, the predefined scripts, the bytes of a box
    candidate as the output of a transaction, and a transaction of inputs with empty
    proofs, no data inputs and the candidates as outputs. *)
Class MinerLib (Tx Box : Type) := {
  ErgoTree : Type;
  BoxCandidate : Type;
  miners_reward_at_height : Z -> Z;
  emission_at_height : Z -> Z;
  box_value : Box -> Z;
  box_tree : Box -> ErgoTree;
  box_tokens : Box -> option (list Token);
  box_value_try_from : Z -> option Z;
  token_amount_try_from : Z -> option Z;
  build_box : Z -> ErgoTree -> Z -> list Token -> option BoxCandidate;
  reward_output_script : Z -> list Z -> option ErgoTree;
  fee_proposition : Z -> option ErgoTree;
  tree_serialize : ErgoTree -> option (list Z);
  output_bytes : Z -> ErgoTree -> list Token -> Z -> option (list Z);
  MAX_TOKENS_COUNT : nat;
  MAX_BOX_SIZE : Z;
  new_from_vec : list (list Z) -> list BoxCandidate -> option Tx;
}.

(** The solution a miner submits. *)
Record AutolykosSolution := mk_solution { sol_miner_pk : list Z; sol_nonce : list Z }.

(** Headers with and without their solution as bytes, the check of the proof of work, and
    the interlinks of ergo_nipopow. *)
Class MinerHeaders := {
  serialize_without_pow : BlockHeader -> option (list Z);
  serialize_header : BlockHeader -> AutolykosSolution -> option (list Z);
  check_pow : BlockHeader -> AutolykosSolution -> result string bool;
  update_interlinks : BlockHeader -> list id32 -> option (list id32);
  pack_interlinks : list id32 -> list extension_field;
  extension_candidate : list extension_field -> bool;
  unpack_interlinks : list extension_field -> option (list id32);
}.

Module Mining.

Inductive MiningError :=
  | MiningUnavailable (reason : string)
  | NoCachedCandidate
  | StaleCandidate
  | InvalidSolution (reason : string)
  | AssemblyFailed (reason : string)
  | ValidationFailed (e : ValidationError)
  | Emission (reason : string)
  | StateRoot (reason : string).

(** ** Emission: emission.rs *)

Definition COINS_IN_ONE_ERG : Z := 1000000000.

Record ReemissionRules := mk_reemission {
  activation_height : Z;
  basic_charge_amount : Z;
}.

Definition reemission_mainnet : ReemissionRules := mk_reemission 777217 12.
Definition reemission_testnet : ReemissionRules := mk_reemission 100000001 12.

Definition reemission_for_height (r : ReemissionRules) (height total_emission : Z) : Z :=
  if height <? activation_height r then 0
  else
    let charge := as_i64 (basic_charge_amount r * COINS_IN_ONE_ERG) in
    let floor := 3 * COINS_IN_ONE_ERG in
    if as_i64 (charge + floor) <=? total_emission then charge
    else if floor <? total_emission then as_i64 (total_emission - floor)
    else 0.

Section Emission.
Context {Tx Box : Type} `{ErgoTx Tx Box} `{MinerLib Tx Box}.

(** The tokens of the new emission box: the second one gives up the re-emission. *)
Fixpoint emission_tokens (i : nat) (reemission : Z) (tokens : list Token) : result MiningError (list Token) :=
  match tokens with
  | [] => Ok []
  | t :: tokens' =>
      let? kept :=
        (if (i =? 1)%nat && (0 <? reemission) then
           let remaining := as_i64 (as_i64 (token_amount t) - reemission) in
           if 0 <? remaining then
             let? amount := ok_or (token_amount_try_from (as_u64 remaining)) (Emission "reemission token amount") in
             Ok [mk_token (token_id t) amount]
           else Ok []
         else Ok [t]) in
      let? rest := emission_tokens (S i) reemission tokens' in
      Ok (kept ++ rest)
  end.

(** The tokens of the miner's box. *)
Definition reward_tokens (reemission : Z) (tokens : option (list Token)) : result MiningError (list Token) :=
  if 0 <? reemission then
    match tokens with
    | Some (_ :: t :: _) =>
        let? amount := ok_or (token_amount_try_from (as_u64 reemission)) (Emission "miner reemission token") in
        Ok [mk_token (token_id t) amount]
    | _ => Ok []
    end
  else Ok [].

Definition build_emission_tx (emission_box : Box) (height : Z) (miner_pk : list Z) (reward_delay : Z)
    (rules : ReemissionRules) : result MiningError Tx :=
  let miner_reward := miners_reward_at_height height in
  if miner_reward <=? 0 then Err (Emission "no emission remaining")
  else
    let new_value := as_i64 (box_value emission_box - miner_reward) in
    if new_value <? 0 then Err (Emission "emission box value below reward")
    else
      let reemission := reemission_for_height rules height (emission_at_height height) in
      let? value := ok_or (box_value_try_from (as_u64 new_value)) (Emission "emission box value") in
      let? tokens := emission_tokens 0 reemission (default [] (box_tokens emission_box)) in
      let? new_box :=
        ok_or (build_box value (box_tree emission_box) height tokens) (Emission "emission box build") in
      let? script := ok_or (reward_output_script reward_delay miner_pk) (Emission "reward script") in
      let? reward := ok_or (box_value_try_from (as_u64 miner_reward)) (Emission "reward value") in
      let? mine := reward_tokens reemission (box_tokens emission_box) in
      let? reward_box := ok_or (build_box reward script height mine) (Emission "reward box build") in
      ok_or (new_from_vec [box_id emission_box] [new_box; reward_box]) (Emission "transaction").

End Emission.

(** ** Fees: fee.rs *)

Section Fees.
Context {Tx Box : Type} `{ErgoTx Tx Box} `{MinerLib Tx Box}.

Definition block_inputs (txs : list Tx) : gset (list Z) := list_to_set (concat (tx_inputs <$> txs)).

(** The outputs with the fee proposition that the block does not spend itself. *)
Definition fee_boxes (txs : list Tx) (fee_tree_bytes : list Z) : list Box :=
  let spent := block_inputs txs in
  filter (fun b => default [] (box_tree_bytes b) = fee_tree_bytes /\ box_id b ∉ spent)
    (concat (tx_outputs <$> txs)).

(** One token added to the totals, which are in the order of first sight. *)
Fixpoint add_token (t : Token) (totals : list (list Z * Z)) : list (list Z * Z) :=
  match totals with
  | [] => [(token_id t, token_amount t)]
  | (id, n) :: totals' =>
      if decide (id = token_id t) then (id, sat_add_u64 n (token_amount t)) :: totals'
      else (id, n) :: add_token t totals'
  end.

Definition aggregate (boxes : list Box) : list (list Z * Z) :=
  foldl (fun totals t => add_token t totals) [] (concat ((fun b => default [] (box_tokens b)) <$> boxes)).

Definition reward_box_size (value : Z) (script : ErgoTree) (tokens : list Token) (height : Z)
    : result MiningError Z :=
  let? bytes := ok_or (output_bytes value script tokens height) (Emission "fee reward box measure") in
  Ok (zlen bytes).

(** The loop of [fit_tokens]. *)
Fixpoint fit_loop (totals : list (list Z * Z)) (kept : list Token) (value : Z) (script : ErgoTree) (height : Z)
    : result MiningError (list Token) :=
  match totals with
  | [] => Ok kept
  | (id, n) :: totals' =>
      let? amount := ok_or (token_amount_try_from n) (Emission "fee token amount") in
      let kept' := kept ++ [mk_token id amount] in
      let? size := reward_box_size value script kept' height in
      if MAX_BOX_SIZE <? size then Ok kept
      else fit_loop totals' kept' value script height
  end.

Definition fit_tokens (totals : list (list Z * Z)) (value : Z) (script : ErgoTree) (height : Z)
    : result MiningError (list Token) :=
  fit_loop (take MAX_TOKENS_COUNT totals) [] value script height.

(** [i64] addition wraps. *)
Definition total_fee (boxes : list Box) : Z := foldl (fun acc b => as_i64 (acc + box_value b)) 0 boxes.

Definition build_fee_tx (block_txs : list Tx) (height reward_delay : Z) (miner_pk : list Z)
    : result MiningError (option Tx) :=
  let? fee_tree := ok_or (fee_proposition reward_delay) (Emission "fee proposition") in
  let? fee_tree_bytes := ok_or (tree_serialize fee_tree) (Emission "fee tree serialize") in
  match fee_boxes block_txs fee_tree_bytes with
  | [] => Ok None
  | boxes =>
      let total := total_fee boxes in
      if total <=? 0 then Ok None
      else
        let? script := ok_or (reward_output_script reward_delay miner_pk) (Emission "reward script") in
        let? value := ok_or (box_value_try_from (as_u64 total)) (Emission "fee value") in
        let? kept := fit_tokens (aggregate boxes) value script height in
        let? reward := ok_or (build_box value script height kept) (Emission "fee reward box build") in
        let? tx := ok_or (new_from_vec (box_id <$> boxes) [reward]) (Emission "fee transaction") in
        Ok (Some tx)
  end.

End Fees.

(** ** Selection: selection.rs *)

(** How often [rest] can be shifted by seven bits until nothing is left. *)
Fixpoint vlq_more (fuel : nat) (rest : Z) : Z :=
  match fuel with
  | O => 0
  | S fuel' => if rest =? 0 then 0 else 1 + vlq_more fuel' (Z.shiftr rest 7)
  end.

(** [vlq_len]: nine shifts exhaust a [u64]. *)
Definition vlq_len (v : Z) : Z := 1 + vlq_more 9 (Z.shiftr v 7).

Definition block_transactions_overhead (block_version tx_count : Z) : Z :=
  let version_bytes := if 1 <? block_version then vlq_len (BLOCK_VERSION_SENTINEL + block_version) else 0 in
  32 + version_bytes + vlq_len tx_count.

Record CostedTx (Tx : Type) := mk_costed { c_tx : Tx; c_cost : Z; c_size : Z }.
Arguments mk_costed {Tx}.
Arguments c_tx {Tx}.
Arguments c_cost {Tx}.
Arguments c_size {Tx}.

(** The variables of the loop. *)
Record Selection (Tx Box : Type) := mk_selection {
  selected : list (CostedTx Tx);
  invalid_ids : list (list Z);
  accumulated_tx_bytes : Z;
  accumulated_cost : Z;
  available_outputs : gmap (list Z) Box;
  spent_ids : gset (list Z);
}.
Arguments mk_selection {Tx Box}.
Arguments selected {Tx Box}.
Arguments invalid_ids {Tx Box}.
Arguments accumulated_tx_bytes {Tx Box}.
Arguments accumulated_cost {Tx Box}.
Arguments available_outputs {Tx Box}.
Arguments spent_ids {Tx Box}.

Section Select.
Context {Tx Box : Type} `{SectionIO Tx} `{ErgoTx Tx Box} `{TxInterp Tx Box}.

Definition record_outputs (tx : Tx) (available : gmap (list Z) Box) : gmap (list Z) Box :=
  foldl (fun m b => <[box_id b := b]> m) available (tx_outputs tx).

Definition record_inputs (tx : Tx) (spent : gset (list Z)) : gset (list Z) := list_to_set (tx_inputs tx) ∪ spent.

(** A transaction the block already carries. *)
Definition commit_tx (s : Selection Tx Box) (c : CostedTx Tx) : Selection Tx Box :=
  mk_selection (selected s) (invalid_ids s)
    (sat_add_u64 (accumulated_tx_bytes s) (c_size c)) (sat_add_u64 (accumulated_cost s) (c_cost c))
    (record_outputs (c_tx c) (available_outputs s)) (record_inputs (c_tx c) (spent_ids s)).

(** Boxes by id: outputs of the block so far, then the state. *)
Fixpoint resolve_boxes (available : gmap (list Z) Box) (utxo_lookup : list Z -> option Box) (ids : list (list Z))
    : option (list Box) :=
  match ids with
  | [] => Some []
  | id :: ids' =>
      match (match available !! id with Some b => Some b | None => utxo_lookup id end) with
      | Some b => cons b <$> resolve_boxes available utxo_lookup ids'
      | None => None
      end
  end.

Definition conflicts (tx : Tx) (spent : gset (list Z)) : bool := existsb (fun id => bool_decide (id ∈ spent)) (tx_inputs tx).

Definition take_tx (tx : Tx) (tx_size cost total_cost : Z) (s : Selection Tx Box) : Selection Tx Box :=
  mk_selection (selected s ++ [mk_costed tx cost tx_size]) (invalid_ids s)
    (add_u64 (accumulated_tx_bytes s) tx_size) total_cost
    (record_outputs tx (available_outputs s)) (record_inputs tx (spent_ids s)).

Definition reject_tx (tx : Tx) (s : Selection Tx Box) : Selection Tx Box :=
  mk_selection (selected s) (invalid_ids s ++ [tx_id tx]) (accumulated_tx_bytes s) (accumulated_cost s)
    (available_outputs s) (spent_ids s).

(** One candidate. *)
Definition select_step (n_committed block_version max_block_size max_block_cost : Z) (ctx : StateContext)
    (utxo_lookup : list Z -> option Box) (s : Selection Tx Box) (c : Tx * Z) : Selection Tx Box :=
  let '(tx, tx_size) := c in
  let section_size :=
    sat_add_u64 (sat_add_u64 (block_transactions_overhead block_version (n_committed + zlen (selected s) + 1))
                   (accumulated_tx_bytes s)) tx_size in
  if max_block_size <? section_size then s
  else if conflicts tx (spent_ids s) then s
  else
    match resolve_boxes (available_outputs s) utxo_lookup (tx_inputs tx) with
    | None => s
    | Some input_boxes =>
        match resolve_boxes (available_outputs s) utxo_lookup (default [] (tx_data_inputs tx)) with
        | None => s
        | Some data_boxes =>
            match validate_single_transaction tx input_boxes data_boxes ctx with
            | Ok cost =>
                match checked_add_u64 (accumulated_cost s) cost with
                | Some total => if total <=? max_block_cost then take_tx tx tx_size cost total s else s
                | None => s
                end
            | Err _ => reject_tx tx s
            end
        end
    end.

Definition select_transactions (candidates : list (Tx * Z)) (committed : list (CostedTx Tx)) (ctx : StateContext)
    (block_version max_block_size max_block_cost : Z) (utxo_lookup : list Z -> option Box)
    : list (CostedTx Tx) * list (list Z) :=
  let s := foldl commit_tx (mk_selection [] [] 0 0 ∅ ∅) committed in
  let s := foldl (select_step (zlen committed) block_version max_block_size max_block_cost ctx utxo_lookup) s candidates in
  (selected s, invalid_ids s).

End Select.

(** ** Assembly: lib.rs *)

Record MinerConfig := mk_miner_config {
  mc_miner_pk : list Z;
  reward_delay : Z;
  mc_votes : Z * Z * Z;
  candidate_ttl : Z;
  reemission_rules : ReemissionRules;
}.

Section Assemble.
Context {Tx Box : Type} `{SectionIO Tx} `{TxPrinter Tx} `{ErgoTx Tx Box} `{TxInterp Tx Box} `{MinerLib Tx Box}.

Definition serialized_size (tx : Tx) : result MiningError Z :=
  let? bytes := ok_or (tx_serialize tx) (AssemblyFailed "transaction serialize") in
  Ok (zlen bytes).

(** The boxes the block creates, by id. *)
Definition outputs_map (txs : list Tx) : gmap (list Z) Box :=
  foldl (fun m b => <[box_id b := b]> m) ∅ (concat (tx_outputs <$> txs)).

(** The fee transaction of a block with its cost and size; [None] without fees. *)
Definition measure_fee_tx (block_txs : list Tx) (height : Z) (cfg : MinerConfig) (ctx : StateContext)
    : result string (option (Tx * Z * Z)) :=
  match build_fee_tx block_txs height (reward_delay cfg) (mc_miner_pk cfg) with
  | Err _ => Err "build"
  | Ok None => Ok None
  | Ok (Some fee_tx) =>
      let? input_boxes :=
        ok_or (mapM (fun id => outputs_map block_txs !! id) (tx_inputs fee_tx)) "fee input box not found" in
      match validate_single_transaction fee_tx input_boxes [] ctx with
      | Err _ => Err "validation"
      | Ok cost =>
          match serialized_size fee_tx with
          | Err _ => Err "size"
          | Ok size => Ok (Some (fee_tx, cost, size))
          end
      end
  end.

(** The fee transaction, or none when it is unusable, with its cost and size. *)
Definition usable_fee (block_txs : list Tx) (height : Z) (cfg : MinerConfig) (ctx : StateContext)
    : option Tx * Z * Z :=
  match measure_fee_tx block_txs height cfg ctx with
  | Ok (Some (tx, cost, size)) => (Some tx, cost, size)
  | Ok None | Err _ => (None, 0, 0)
  end.

Definition block_cost_of (emission : CostedTx Tx) (sel : list (CostedTx Tx)) (fee_cost : Z) : Z :=
  sat_add_u64 (foldl (fun acc c => sat_add_u64 acc (c_cost c)) (c_cost emission) sel) fee_cost.

Definition block_size_of (block_version : Z) (emission : CostedTx Tx) (sel : list (CostedTx Tx)) (fee_tx : option Tx)
    (fee_size : Z) : Z :=
  let tx_count := 1 + zlen sel + (match fee_tx with Some _ => 1 | None => 0 end) in
  sat_add_u64 (sat_add_u64 (foldl (fun acc c => sat_add_u64 acc (c_size c)) (c_size emission) sel) fee_size)
    (block_transactions_overhead block_version tx_count).

(** The loop that drops the last selected transaction until the block fits; the selection
    is given last first. *)
Fixpoint fit_block (height block_version max_block_size max_block_cost : Z) (cfg : MinerConfig) (ctx : StateContext)
    (emission : CostedTx Tx) (rev_selected : list (CostedTx Tx)) : list (CostedTx Tx) * option Tx :=
  let sel := reverse rev_selected in
  let '(fee_tx, fee_cost, fee_size) := usable_fee (c_tx emission :: (c_tx <$> sel)) height cfg ctx in
  if (block_cost_of emission sel fee_cost <=? max_block_cost) &&
     (block_size_of block_version emission sel fee_tx fee_size <=? max_block_size)
  then (sel, fee_tx)
  else
    match rev_selected with
    | [] => ([], None)
    | _ :: rest => fit_block height block_version max_block_size max_block_cost cfg ctx emission rest
    end.

(** The emission transaction, the selected ones, the fee transaction, and the ids of the
    invalid ones. The two limits index the table. *)
Definition select_and_collect_fees (cfg : MinerConfig) (height block_version : Z) (emission_tx : Tx)
    (emission_box : Box) (candidate_txs : list (Tx * Z)) (parameters : table) (ctx : StateContext)
    (utxo_lookup : list Z -> option Box) : outcome MiningError (list Tx * list (list Z)) :=
  let! max_cost := expect (parameters !! MaxBlockCost) in
  let! max_size := expect (parameters !! MaxBlockSize) in
  let max_block_cost := Z.max 0 max_cost in
  let max_block_size := Z.max 0 max_size in
  match validate_single_transaction emission_tx [emission_box] [] ctx with
  | Err _ => Return ([emission_tx], [])
  | Ok emission_cost =>
      let! size := of_result (serialized_size emission_tx) in
      let emission := mk_costed emission_tx emission_cost size in
      let '(sel, invalid_txs) :=
        select_transactions candidate_txs [emission] ctx block_version max_block_size max_block_cost utxo_lookup in
      let '(sel, fee_tx) :=
        fit_block height block_version max_block_size max_block_cost cfg ctx emission (reverse sel) in
      Return (emission_tx :: (c_tx <$> sel) ++ (match fee_tx with Some tx => [tx] | None => [] end), invalid_txs)
  end.

End Assemble.

(** ** The extension: extension.rs *)

Section Extension.
Context {RuleStatus : Type} `{SigmaIO RuleStatus} `{MinerHeaders}.

(** The interlinks in the parent's extension, none when it does not parse. *)
Definition unpack_parent_interlinks (parent_extension : list Z) : list id32 :=
  match parse_extension parent_extension with
  | Err _ => []
  | Ok parsed =>
      if extension_candidate (ext_fields parsed) then default [] (unpack_interlinks (ext_fields parsed)) else []
  end.

Definition build_extension (parent : BlockHeader) (parent_interlinks : list id32) (boundary_params : option table)
    (proposed_update : list Z) : result MiningError (list extension_field) :=
  let? updated := ok_or (update_interlinks parent parent_interlinks) (AssemblyFailed "interlinks") in
  Ok (pack_interlinks updated ++
      (match boundary_params with Some params => pack_parameters params | None => [] end) ++
      (match proposed_update with [] => [] | _ => [((0, 124), proposed_update)] end)).

End Extension.

(** ** Candidates: lib.rs, candidate.rs, solution.rs *)

Record CandidateBlock (Tx : Type) := mk_candidate {
  cb_parent : BlockHeader;
  cb_version : Z;
  cb_n_bits : Z;
  cb_state_root : list Z;
  ad_proof_bytes : list Z;
  cb_transactions : list Tx;
  cb_timestamp : Z;
  cb_extension : list extension_field;
  cb_votes : Z * Z * Z;
  cb_header_bytes : list Z;
}.
Arguments mk_candidate {Tx}.
Arguments cb_parent {Tx}.
Arguments cb_version {Tx}.
Arguments cb_n_bits {Tx}.
Arguments cb_state_root {Tx}.
Arguments ad_proof_bytes {Tx}.
Arguments cb_transactions {Tx}.
Arguments cb_timestamp {Tx}.
Arguments cb_extension {Tx}.
Arguments cb_votes {Tx}.
Arguments cb_header_bytes {Tx}.

(** [WorkMessage]: the hash and the key as bytes, the target as a number. *)
Record WorkMessage := mk_work { w_msg : list Z; w_b : Z; w_h : Z; w_pk : list Z }.

Record GeneratedCandidate (Tx : Type) := mk_generated {
  g_block : CandidateBlock Tx;
  g_work : WorkMessage;
  g_invalid_txs : list (list Z);
}.
Arguments mk_generated {Tx}.
Arguments g_block {Tx}.
Arguments g_work {Tx}.
Arguments g_invalid_txs {Tx}.

Definition CONTEXT_HEADERS : nat := 9.

Definition context_window (parent : BlockHeader) (ancestors : list BlockHeader) : list BlockHeader :=
  parent :: take (CONTEXT_HEADERS - 1) ancestors.

Section Candidates.
Context {Tx Box RuleStatus : Type} `{SectionIO Tx} `{SigmaIO RuleStatus} `{TxPrinter Tx} `{ErgoTx Tx Box}.
Context `{TxInterp Tx Box} `{MinerLib Tx Box} `{MinerHeaders} `{PowScheme}.

(** The header the transactions run under; its id and roots are not set yet. *)
Definition upcoming_header (parent : BlockHeader) (version n_bits height timestamp : Z) (cfg : MinerConfig) : BlockHeader :=
  mk_block_header (mk_header version 0 (header_id parent) 0 0 timestamp n_bits height 0 (mc_votes cfg))
    (state_root parent) (mc_miner_pk cfg).

(** The header of a candidate under a miner's key, without its id. *)
Definition header_of (c : CandidateBlock Tx) (pk : list Z) : result MiningError BlockHeader :=
  match cb_transactions c with
  | [] => Err (AssemblyFailed "no transactions")
  | txs =>
      Ok (mk_block_header
            (mk_header (cb_version c) 0 (header_id (cb_parent c)) (from_be (ad_proofs_digest (ad_proof_bytes c)))
               (from_be (transactions_root txs (cb_version c))) (cb_timestamp c) (cb_n_bits c)
               (add_u32 (height (cb_parent c)) 1) (from_be (section_extension_root (cb_extension c))) (cb_votes c))
            (cb_state_root c) pk)
  end.

Definition with_id (h : BlockHeader) (id : id32) : BlockHeader :=
  mk_block_header
    (mk_header (Header.version h) id (parent_id h) (ad_proofs_root h) (transaction_root h) (timestamp h) (n_bits h)
       (height h) (extension_root h) (header_votes h))
    (state_root h) (miner_pk h).

Definition build_work_message (c : CandidateBlock Tx) (pk : list Z) : outcome MiningError (list Z * WorkMessage) :=
  let! header := of_result (header_of c pk) in
  let! bytes := of_result (ok_or (serialize_without_pow header) (AssemblyFailed "header serialize")) in
  match pow_target (cb_n_bits c) with
  | Return target => Return (bytes, mk_work (blake2b256 bytes) target (height header) pk)
  | _ => Panic
  end.

Definition validate_solution (c : CandidateBlock Tx) (solution : AutolykosSolution) : result MiningError BlockHeader :=
  let? header := header_of c (sol_miner_pk solution) in
  let? bytes := ok_or (serialize_header header solution) (AssemblyFailed "header serialize") in
  let header := with_id header (from_be (blake2b256 bytes)) in
  match check_pow header solution with
  | Err e => Err (InvalidSolution e)
  | Ok false => Err (InvalidSolution "pow_hit >= target")
  | Ok true => Ok header
  end.

(** [generate_candidate]; the clock is [now] in milliseconds. *)
Definition generate_candidate (cfg : MinerConfig) (now : Z) (parent : BlockHeader) (n_bits : Z)
    (parent_interlinks : list id32) (emission_box : Box) (boundary_params : option table) (proposed_update : list Z)
    (candidate_txs : list (Tx * Z)) (parameters : table) (ancestors : list BlockHeader)
    (utxo_lookup : list Z -> option Box)
    (validator_proofs : list Tx -> option (outcome ValidationError (list Z * list Z)))
    : outcome MiningError (GeneratedCandidate Tx) :=
  let height := add_u32 (height parent) 1 in
  let timestamp := Z.max now (add_u64 (timestamp parent) 1) in
  let version := Header.version parent in
  let! emission_tx :=
    of_result (build_emission_tx emission_box height (mc_miner_pk cfg) (reward_delay cfg) (reemission_rules cfg)) in
  let! (transactions, invalid_txs) :=
    (match candidate_txs with
     | [] => Return ([emission_tx], [])
     | _ =>
         match build_state_context (upcoming_header parent version n_bits height timestamp cfg)
                 (context_window parent ancestors) parameters with
         | Return ctx =>
             select_and_collect_fees cfg height version emission_tx emission_box candidate_txs parameters ctx utxo_lookup
         | _ => Panic
         end
     end) in
  let! proofs := of_result (ok_or (validator_proofs transactions) (MiningUnavailable "UTXO mode required for mining")) in
  let! (proof, state_root) := (match proofs with Return r => Return r | Fail e => Fail (ValidationFailed e) | Panic => Panic end) in
  let! extension := of_result (build_extension parent parent_interlinks boundary_params proposed_update) in
  let block bytes := mk_candidate parent version n_bits state_root proof transactions timestamp extension (mc_votes cfg) bytes in
  let! (header_bytes, work) := build_work_message (block []) (mc_miner_pk cfg) in
  Return (mk_generated (block header_bytes) work invalid_txs).

End Candidates.

(** The proofs of a candidate, read from the committed tree. *)
Definition storage_proofs {Tx Box RuleStatus : Type} `{SectionIO Tx} `{SigmaIO RuleStatus} `{ErgoTx Tx Box} `{AvlProver}
    (v : UtxoValidator) (txs : list Tx) : option (outcome ValidationError (list Z * list Z)) :=
  Some (compute_proofs txs v).

(** ** The candidate slots: lib.rs *)

Section Slots.
Context {Tx : Type}.

Record CachedCandidate := mk_cached {
  cc_block : CandidateBlock Tx;
  cc_work : WorkMessage;
  cc_tip_height : Z;
  cc_created : instant;
}.

Record CandidateGenerator := mk_generator {
  gen_config : MinerConfig;
  cached : option CachedCandidate;
  previous : option CachedCandidate;
  solved : option (id32 * Z);            (* [SolvedLatch]: the id and the height *)
}.

Definition generator_new (cfg : MinerConfig) : CandidateGenerator := mk_generator cfg None None None.

Definition cached_work (tip_height : Z) (now : instant) (g : CandidateGenerator) : option WorkMessage :=
  match cached g with
  | Some c =>
      if (cc_tip_height c =? tip_height) && (duration_since now (cc_created c) <? candidate_ttl (gen_config g))
      then Some (cc_work c) else None
  | None => None
  end.

(** The current candidate becomes the previous one, unless there is none. *)
Definition supersede (g : CandidateGenerator) : option CachedCandidate :=
  match cached g with Some old => Some old | None => previous g end.

Definition cache_candidate (block : CandidateBlock Tx) (work : WorkMessage) (tip_height : Z) (now : instant)
    (g : CandidateGenerator) : CandidateGenerator :=
  mk_generator (gen_config g) (Some (mk_cached block work tip_height now)) (supersede g) (solved g).

Definition cached_block (g : CandidateGenerator) : option (CandidateBlock Tx) := cc_block <$> cached g.
Definition previous_block (g : CandidateGenerator) : option (CandidateBlock Tx) := cc_block <$> previous g.

Definition invalidate_candidate (g : CandidateGenerator) : CandidateGenerator :=
  mk_generator (gen_config g) None (supersede g) (solved g).

Definition set_latch (l : option (id32 * Z)) (g : CandidateGenerator) : CandidateGenerator :=
  mk_generator (gen_config g) (cached g) (previous g) l.

Definition try_mark_solved (id : id32) (height : Z) (g : CandidateGenerator) : bool * CandidateGenerator :=
  match solved g with
  | Some _ => (false, g)
  | None => (true, set_latch (Some (id, height)) g)
  end.

Definition clear_solved (g : CandidateGenerator) : CandidateGenerator := set_latch None g.
Definition solved_pending (g : CandidateGenerator) : bool := bool_decide (is_Some (solved g)).

(** A slot that no longer builds on the applied block is dropped. *)
Definition keep_slot (applied_id : id32) (slot : option CachedCandidate) : option CachedCandidate :=
  match slot with
  | Some c => if header_id (cb_parent (cc_block c)) =? applied_id then Some c else None
  | None => None
  end.

Definition on_block_applied (applied_id : id32) (applied_height : Z) (g : CandidateGenerator) : CandidateGenerator :=
  mk_generator (gen_config g) (keep_slot applied_id (cached g)) (keep_slot applied_id (previous g))
    (match solved g with
     | Some (id, height) => if height <=? applied_height then None else Some (id, height)
     | None => None
     end).

End Slots.

End Mining.
