(* ===== verification/MiningInv.v ===== *)
(** * What a block candidate guarantees

    The size the miner counts is the length of the section it writes; the transactions it
    selects run one after the other on the state, spend no box twice and stay within both
    limits with the fee transaction; and a solved candidate is a block the validator
    applies. *)

From S2P Require Import Prelude Bytes Vlq Frame ChainConfig VotingCodec Voting Header Pow Sections AvlTree StateStorage StateStorageInv.
From S2P Require Import StateReader BlockSections StateChanges Validators ValidatorsInv Mining.
Import Vlq ChainConfig VotingCodec Voting Pow Sections Avl State Reader BlockSections StateChanges Validation ValidationInv Mining.

(** The unsigned VLQ of [sigma_ser] has seven bits to the byte. *)
Class VlqLength (RuleStatus : Type) `{SigmaIO RuleStatus} : Prop :=
  put_u32_length : forall v, is_u32 v -> zlen (put_u32 v) = vlq_len v.

(** The transaction [new_from_vec] makes spends what it was given, and reads nothing. *)
Class MinerLibLaws (Tx Box : Type) `{ErgoTx Tx Box, !MinerLib Tx Box} : Prop :=
  new_tx_inputs : forall ins outs tx, new_from_vec ins outs = Some tx -> tx_inputs tx = ins /\ tx_data_inputs tx = None.

Module MiningInv.

(** ** Sizes *)

Lemma write_vlq_loop_len n v : zlen (write_vlq_loop (S n) v) = 1 + vlq_more n (Z.shiftr v 7).
Proof.
  unfold zlen. revert v. induction n as [|n IH]; intros v.
  - unfold write_vlq_loop. cbv zeta. by destruct (Z.shiftr v 7 =? 0).
  - change (write_vlq_loop (S (S n)) v) with
      (let byte := as_u8 (Z.land v 127) in
       if Z.shiftr v 7 =? 0 then [byte] else Z.lor byte 128 :: write_vlq_loop (S n) (Z.shiftr v 7)).
    cbv zeta. change (vlq_more (S n) (Z.shiftr v 7)) with
      (if Z.shiftr v 7 =? 0 then 0 else 1 + vlq_more n (Z.shiftr (Z.shiftr v 7) 7)).
    destruct (Z.shiftr v 7 =? 0); [done|]. rewrite <- IH. cbn [length]. lia.
Qed.

(** The length computed is the length of the encoding. *)
Lemma vlq_len_write v : zlen (write_vlq [] v) = vlq_len v.
Proof. apply (write_vlq_loop_len 9). Qed.

#[export] Instance vlq_length : VlqLength Z.
Proof. intros v _. apply vlq_len_write. Qed.

Lemma vlq_more_range n v : 0 <= vlq_more n v <= Z.of_nat n.
Proof. revert v. induction n as [|n IH]; intros v; cbn [vlq_more]; [lia|]. case_match; [lia|]. specialize (IH (Z.shiftr v 7)). lia. Qed.

Lemma overhead_range bv n : 33 <= block_transactions_overhead bv n <= 52.
Proof.
  unfold block_transactions_overhead, vlq_len.
  pose proof (vlq_more_range 9 (Z.shiftr (BLOCK_VERSION_SENTINEL + bv) 7)). pose proof (vlq_more_range 9 (Z.shiftr n 7)).
  destruct (1 <? bv); lia.
Qed.

Section Sizes.
Context {Tx RuleStatus : Type} `{SectionIO Tx} `{SigmaIO RuleStatus} `{!VlqLength RuleStatus} `{TxPrinter Tx}.



End Sizes.

(** ** Transactions that run one after the other *)

Section Selected.
Context {Tx Box : Type} `{SectionIO Tx} `{TxPrinter Tx} `{ErgoTx Tx Box} `{TxInterp Tx Box} `{!MinerLib Tx Box} `{!MinerLibLaws Tx Box}.
Variable lookup : list Z -> option Box.
Variable ctx : StateContext.

Definition inputs_of (txs : list Tx) : list (list Z) := concat (tx_inputs <$> txs).
Definition outputs_of (txs : list Tx) : list Box := concat (tx_outputs <$> txs).

(** [tx] runs at [cost] behind [prior]: its inputs are unspent, and it validates on the
    boxes of the state and of [prior]. *)
Definition runs (prior : list Tx) (tx : Tx) (cost : Z) : Prop :=
  (forall id, id ∈ tx_inputs tx -> id ∉ inputs_of prior) /\
  exists ins datas,
    resolve_boxes (outputs_map prior) lookup (tx_inputs tx) = Some ins /\
    resolve_boxes (outputs_map prior) lookup (default [] (tx_data_inputs tx)) = Some datas /\
    validate_single_transaction tx ins datas ctx = Ok cost.

Fixpoint assembled (prior : list Tx) (l : list (Tx * Z)) : Prop :=
  match l with
  | [] => True
  | (tx, cost) :: l' => runs prior tx cost /\ assembled (prior ++ [tx]) l'
  end.

Lemma assembled_app prior l l' :
  assembled prior (l ++ l') <-> assembled prior l /\ assembled (prior ++ l.*1) l'.
Proof.
  revert prior. induction l as [|[tx cost] l IH]; intros prior; cbn [app assembled fmap list_fmap].
  - rewrite app_nil_r. tauto.
  - rewrite IH, <- app_assoc. cbn. tauto.
Qed.

Definition costs_of (l : list (CostedTx Tx)) : list (Tx * Z) := (fun c => (c_tx c, c_cost c)) <$> l.

Lemma costs_of_fst l : (costs_of l).*1 = c_tx <$> l.
Proof. unfold costs_of. by rewrite <- list_fmap_compose. Qed.

Lemma record_outputs_map txs tx : record_outputs tx (outputs_map txs) = outputs_map (txs ++ [tx]).
Proof. unfold record_outputs, outputs_map. rewrite fmap_app, concat_app, foldl_app. cbn. by rewrite app_nil_r. Qed.

Lemma inputs_of_snoc txs tx : inputs_of (txs ++ [tx]) = inputs_of txs ++ tx_inputs tx.
Proof. unfold inputs_of. rewrite fmap_app, concat_app. cbn. by rewrite app_nil_r. Qed.

(** ** Selection *)

(** Why a candidate is reported as invalid: its boxes are there, and it fails on them. *)
Definition fails_on_its_boxes (tx : Tx) : Prop :=
  exists prior ins datas e,
    resolve_boxes (outputs_map prior) lookup (tx_inputs tx) = Some ins /\
    resolve_boxes (outputs_map prior) lookup (default [] (tx_data_inputs tx)) = Some datas /\
    validate_single_transaction tx ins datas ctx = Err e.

Record sel_ok (emission : Tx) (candidates : list (Tx * Z)) (s : Selection Tx Box) : Prop := {
  so_available : available_outputs s = outputs_map (emission :: (c_tx <$> selected s));
  so_spent : forall id, id ∈ spent_ids s <-> id ∈ inputs_of (emission :: (c_tx <$> selected s));
  so_runs : assembled [emission] (costs_of (selected s));
  so_from : Forall (fun c => (c_tx c, c_size c) ∈ candidates) (selected s);
  so_invalid : Forall (fun id => exists c, c ∈ candidates /\ tx_id c.1 = id /\ fails_on_its_boxes c.1) (invalid_ids s);
}.

Lemma conflicts_spec tx spent : conflicts tx spent = false -> forall id, id ∈ tx_inputs tx -> id ∉ spent.
Proof.
  unfold conflicts. intros Hc id Hid Hs. apply not_true_iff_false in Hc. apply Hc, existsb_exists.
  exists id. split; [by apply list_elem_of_In|]. by apply bool_decide_eq_true.
Qed.

Lemma select_step_ok emission candidates n bv max_size max_cost s c :
  sel_ok emission candidates s -> c ∈ candidates ->
  sel_ok emission candidates (select_step n bv max_size max_cost ctx lookup s c).
Proof.
  intros [Ha Hs Hr Hf Hi] Hc. destruct c as [tx size]. unfold select_step. case_match; [by split|].
  destruct (conflicts tx _) eqn:Econ; [by split|]. pose proof (conflicts_spec _ _ Econ) as Hfree.
  destruct (resolve_boxes _ lookup (tx_inputs tx)) as [ins|] eqn:Ei; [|by split].
  destruct (resolve_boxes _ lookup (default [] _)) as [datas|] eqn:Ed; [|by split]. rewrite Ha in Ei, Ed.
  destruct (validate_single_transaction tx ins datas ctx) as [cost|e] eqn:Ev; cycle 1.
  { split; try done. cbn. apply Forall_app. split; [done|]. apply Forall_singleton. exists (tx, size).
    split_and!; [done..|]. by exists (emission :: (c_tx <$> selected s)), ins, datas, e. }
  destruct (checked_add_u64 _ cost) as [total|]; [|by split]. destruct (total <=? max_cost); [|by split].
  split; cbn [selected invalid_ids available_outputs spent_ids take_tx]; rewrite ?fmap_app; cbn [fmap list_fmap].
  - by rewrite Ha, record_outputs_map.
  - intros id. rewrite app_comm_cons, inputs_of_snoc. unfold record_inputs.
    rewrite elem_of_union, elem_of_list_to_set, elem_of_app, Hs. tauto.
  - unfold costs_of. rewrite fmap_app. apply assembled_app. split; [done|]. cbn [fmap list_fmap assembled].
    split; [|done]. fold (costs_of (selected s)). rewrite costs_of_fst. cbn [c_tx c_cost app]. split; [|by exists ins, datas].
    intros id Hid Hin. by apply (Hfree id Hid), Hs.
  - apply Forall_app. split; [done|]. by apply Forall_singleton.
  - done.
Qed.

Lemma select_ok emission candidates bv max_size max_cost :
  let '(sel, invalid) := select_transactions candidates [emission] ctx bv max_size max_cost lookup in
  assembled [c_tx emission] (costs_of sel) /\ Forall (fun c => (c_tx c, c_size c) ∈ candidates) sel /\
  Forall (fun id => exists c, c ∈ candidates /\ tx_id c.1 = id /\ fails_on_its_boxes c.1) invalid.
Proof.
  unfold select_transactions. set (s0 := foldl commit_tx _ _).
  assert (sel_ok (c_tx emission) candidates s0) as Hs0.
  { split; cbn; try done.
    - unfold record_outputs, outputs_map. cbn. by rewrite app_nil_r.
    - intros id. unfold record_inputs, inputs_of. cbn. rewrite app_nil_r, elem_of_union, elem_of_list_to_set, elem_of_empty. tauto. }
  assert (forall l s, (forall c, c ∈ l -> c ∈ candidates) -> sel_ok (c_tx emission) candidates s ->
    sel_ok (c_tx emission) candidates (foldl (select_step (zlen [emission]) bv max_size max_cost ctx lookup) s l)) as Hl.
  { induction l as [|c l IH]; intros s Hl Hs; [done|]. cbn [foldl]. apply IH.
    - intros c' Hc'. apply Hl. by right.
    - apply select_step_ok; [done|]. apply Hl. by left. }
  destruct (Hl candidates s0 ltac:(done) Hs0) as [_ _ ? ? ?]. done.
Qed.

(** ** The fee transaction and the limits *)

Lemma resolve_mapM (m : gmap (list Z) Box) ids ins :
  mapM (fun id => m !! id) ids = Some ins -> resolve_boxes m lookup ids = Some ins.
Proof.
  revert ins. induction ids as [|id ids IH]; intros ins; cbn [resolve_boxes]; [by intros [= <-]|].
  cbn. destruct (m !! id) as [b|]; [|done]. cbn. destruct (mapM _ ids) as [bs|] eqn:E; [|done]. cbn. intros [= <-].
  by rewrite (IH bs).
Qed.

(** A fee transaction is built over outputs of the block that the block does not spend. *)
Lemma fee_tx_inputs txs height delay pk tx :
  build_fee_tx txs height delay pk = Ok (Some tx) ->
  (forall id, id ∈ tx_inputs tx -> id ∉ inputs_of txs) /\ tx_data_inputs tx = None.
Proof.
  unfold build_fee_tx. destruct (fee_proposition delay) as [tree|]; [|done]. cbn [ok_or result_bind].
  destruct (tree_serialize tree) as [fee_bytes|]; [|done]. cbn [ok_or result_bind].
  pose (bs := fee_boxes txs fee_bytes).
  assert (Forall (fun b => box_id b ∉ inputs_of txs) bs) as Hb.
  { apply Forall_forall. intros b Hb. apply list_elem_of_filter in Hb as [[_ Hb] _].
    unfold block_inputs in Hb. by rewrite elem_of_list_to_set in Hb. }
  fold bs. destruct bs as [|b0 bs']; [done|]. destruct (_ <=? 0); [done|].
  destruct (reward_output_script delay pk) as [script|]; [|done]. cbn [ok_or result_bind].
  destruct (box_value_try_from _) as [value|]; [|done]. cbn [ok_or result_bind].
  destruct (fit_tokens _ _ _ _) as [kept|]; [|done]. cbn [result_bind].
  destruct (build_box _ _ _ _) as [reward|]; [|done]. cbn [ok_or result_bind].
  destruct (new_from_vec _ _) as [tx'|] eqn:E; [|done]. cbn [ok_or result_bind]. intros [= <-].
  apply new_tx_inputs in E as [-> Hd]. split; [|done]. intros id (b & -> & Hin)%list_elem_of_fmap.
  rewrite Forall_forall in Hb. by apply Hb.
Qed.

Lemma usable_fee_spec txs height cfg :
  match usable_fee txs height cfg ctx with
  | (Some tx, cost, size) => runs txs tx cost /\ exists bs, tx_serialize tx = Some bs /\ size = zlen bs
  | (None, cost, size) => cost = 0 /\ size = 0
  end.
Proof.
  unfold usable_fee, measure_fee_tx.
  destruct (build_fee_tx _ _ _ _) as [[tx|]|] eqn:Eb; [|done..]. apply fee_tx_inputs in Eb as [Hin Hd].
  destruct (mapM _ _) as [ins|] eqn:Em; [|done]. cbn [ok_or result_bind].
  destruct (validate_single_transaction tx ins [] ctx) as [cost|] eqn:Ev; [|done].
  unfold serialized_size. destruct (tx_serialize tx) as [bs|] eqn:Es; [|done]. cbn [ok_or result_bind].
  split; [|by exists bs]. split; [done|]. exists ins, []. rewrite Hd. split_and!; [by apply resolve_mapM|done..].
Qed.

Lemma sat_fold {A} (f : A -> Z) l a :
  Forall (fun x => 0 <= f x) l -> 0 <= a <= U64_MAX ->
  foldl (fun acc x => sat_add_u64 acc (f x)) a l = Z.min (a + sum (f <$> l)) U64_MAX /\ 0 <= sum (f <$> l).
Proof.
  intros Hf. revert a. induction Hf as [|x l Hx Hl IH]; intros a Ha; cbn [foldl fmap list_fmap foldr]; [lia|].
  destruct (IH (sat_add_u64 a (f x))) as [-> Hs]; [unfold sat_add_u64; int_unfold; lia|].
  split; [|lia]. unfold sat_add_u64. int_unfold. lia.
Qed.

Definition size_of (tx : Tx) : Z := zlen (default [] (tx_serialize tx)).

(** A costed transaction as the miner makes them. *)
Definition measured (c : CostedTx Tx) : Prop := is_u64 (c_cost c) /\ c_size c = size_of (c_tx c).

Lemma block_cost_exact emission sel fee_cost max :
  measured emission -> Forall measured sel -> 0 <= fee_cost -> max < U64_MAX ->
  block_cost_of emission sel fee_cost <= max ->
  c_cost emission + sum (c_cost <$> sel) + fee_cost <= max.
Proof.
  intros [He _] Hs Hf Hm. unfold block_cost_of.
  destruct (sat_fold c_cost sel (c_cost emission)) as [-> ?]; [|done|].
  - apply (Forall_impl _ _ _ Hs). intros c [[? _] _]. done.
  - unfold sat_add_u64. revert He. int_unfold. lia.
Qed.

Lemma block_size_exact bv emission sel fee_tx fee_size max :
  measured emission -> Forall measured sel -> 0 <= fee_size -> c_size emission <= U64_MAX -> max < U64_MAX ->
  block_size_of bv emission sel fee_tx fee_size <= max ->
  c_size emission + sum (c_size <$> sel) + fee_size +
    block_transactions_overhead bv (1 + zlen sel + (match fee_tx with Some _ => 1 | None => 0 end)) <= max.
Proof.
  intros [_ He] Hs Hf Hu Hm. unfold block_size_of.
  assert (0 <= c_size emission) by (rewrite He; unfold size_of, zlen; lia).
  destruct (sat_fold c_size sel (c_size emission)) as [-> ?]; [|done|].
  - apply (Forall_impl _ _ _ Hs). intros c [_ ->]. unfold size_of, zlen. lia.
  - pose proof (overhead_range bv (1 + zlen sel + (match fee_tx with Some _ => 1 | None => 0 end))).
    unfold sat_add_u64. revert Hu Hm. int_unfold. lia.
Qed.

(** Whether the transactions of a block, with their costs, are within the limits. *)
Definition within (bv max_size max_cost : Z) (block : list (Tx * Z)) : Prop :=
  sum block.*2 <= max_cost /\ block_transactions_overhead bv (zlen block) + sum (size_of <$> block.*1) <= max_size.

Lemma sum_app l l' : sum (l ++ l') = sum l + sum l'.
Proof. induction l as [|x l IH]; cbn; [done|]. rewrite IH. lia. Qed.

Lemma costs_of_snd l : (costs_of l).*2 = c_cost <$> l.
Proof. unfold costs_of. by rewrite <- list_fmap_compose. Qed.

Lemma measured_sizes sel : Forall measured sel -> c_size <$> sel = size_of <$> (c_tx <$> sel).
Proof.
  intros Hs. rewrite <- list_fmap_compose. apply list_fmap_ext. intros i c Hc.
  rewrite Forall_forall in Hs. apply Hs. by eapply list_elem_of_lookup_2.
Qed.

(** The block around a selection and a fee transaction. *)
Definition block_of (emission : CostedTx Tx) (sel : list (CostedTx Tx)) (fee : option (Tx * Z)) : list (Tx * Z) :=
  (c_tx emission, c_cost emission) :: costs_of sel ++ (match fee with Some f => [f] | None => [] end).

Lemma block_of_within bv max_size max_cost emission sel fee fee_size :
  measured emission -> Forall measured sel -> c_size emission <= U64_MAX ->
  max_size < U64_MAX -> max_cost < U64_MAX ->
  (match fee with Some (tx, cost) => 0 <= cost /\ fee_size = size_of tx | None => fee_size = 0 end) ->
  block_cost_of emission sel (match fee with Some f => f.2 | None => 0 end) <= max_cost ->
  block_size_of bv emission sel (fst <$> fee) fee_size <= max_size ->
  within bv max_size max_cost (block_of emission sel fee).
Proof.
  intros He Hs Hu Hms Hmc Hfee Hc Hsz.
  apply block_cost_exact in Hc; [|done..|destruct fee as [[]|]; cbn; [tauto|lia]|done].
  apply block_size_exact in Hsz; [|done..|destruct fee as [[]|]; [destruct Hfee as [_ ->]; unfold size_of, zlen; lia|lia]|done|done].
  unfold within, block_of. cbn [fmap list_fmap fst snd foldr]. rewrite !fmap_app, !sum_app, costs_of_fst, costs_of_snd.
  rewrite <- (measured_sizes sel) by done. rewrite <- (proj2 He).
  assert (zlen ((c_tx emission, c_cost emission) :: costs_of sel ++ match fee with Some f => [f] | None => [] end) =
    1 + zlen sel + (match fst <$> fee with Some _ => 1 | None => 0 end)) as ->.
  { unfold zlen, costs_of. cbn [length]. rewrite length_app, length_fmap. destruct fee; cbn; lia. }
  destruct fee as [[tx cost]|]; cbn [fmap list_fmap foldr fst snd] in *; [destruct Hfee as [_ ->]|]; split; lia.
Qed.

Lemma runs_cost prior tx cost : (forall c x cost, context_validate c x = Ok cost -> is_u64 cost) -> runs prior tx cost -> is_u64 cost.
Proof.
  intros Hu (_ & ins & datas & _ & _ & Hv). unfold validate_single_transaction in Hv.
  destruct (context_new tx ins datas) as [tc|]; [|done]. destruct (context_validate tc ctx) as [k|] eqn:E; [|done].
  injection Hv as <-. by eapply Hu.
Qed.

Lemma block_of_assembled emission sel fee :
  runs [] (c_tx emission) (c_cost emission) -> assembled [c_tx emission] (costs_of sel) ->
  (match fee with Some (tx, cost) => runs (c_tx emission :: (c_tx <$> sel)) tx cost | None => True end) ->
  assembled [] (block_of emission sel fee).
Proof.
  intros He Hs Hf. unfold block_of. cbn [assembled app]. split; [done|]. apply assembled_app. split; [done|].
  rewrite costs_of_fst. destruct fee as [[tx cost]|]; [|done]. cbn [assembled app]. done.
Qed.

(** Hypotheses on a candidate's parts that every step of the loop shares. *)
Record parts_ok (bv max_size max_cost : Z) (emission : CostedTx Tx) (sel : list (CostedTx Tx)) : Prop := {
  po_emission : runs [] (c_tx emission) (c_cost emission);
  po_measured : measured emission;
  po_selected : Forall measured sel;
  po_runs : assembled [c_tx emission] (costs_of sel);
  po_size : c_size emission <= U64_MAX;
  po_max_size : max_size < U64_MAX;
  po_max_cost : max_cost < U64_MAX;
  po_alone : within bv max_size max_cost [(c_tx emission, c_cost emission)];
}.

Hypothesis costs_are_u64 : forall c x cost, context_validate c x = Ok cost -> is_u64 cost.

Lemma fitting_block height bv max_size max_cost cfg emission sel fee_tx fee_cost fee_size :
  parts_ok bv max_size max_cost emission sel ->
  usable_fee (c_tx emission :: (c_tx <$> sel)) height cfg ctx = (fee_tx, fee_cost, fee_size) ->
  block_cost_of emission sel fee_cost <= max_cost -> block_size_of bv emission sel fee_tx fee_size <= max_size ->
  exists fee, fee_tx = fst <$> fee /\ assembled [] (block_of emission sel fee) /\
    within bv max_size max_cost (block_of emission sel fee).
Proof.
  intros [He Hme Hms Has Hsz Hmsz Hmc _] Eu Hc Hs.
  pose proof (usable_fee_spec (c_tx emission :: (c_tx <$> sel)) height cfg) as Hfee. rewrite Eu in Hfee.
  destruct fee_tx as [tx|].
  - destruct Hfee as (Hr & bs & Hb & ->). exists (Some (tx, fee_cost)). split_and!; [done|by apply block_of_assembled|].
    apply (block_of_within bv _ _ emission sel (Some (tx, fee_cost)) (zlen bs)); try done.
    apply (runs_cost _ _ _ costs_are_u64) in Hr. split; [by apply Hr|]. unfold size_of. by rewrite Hb.
  - destruct Hfee as [-> ->]. exists None. split_and!; [done|by apply block_of_assembled|].
    by apply (block_of_within bv _ _ emission sel None 0).
Qed.

Lemma parts_ok_init bv max_size max_cost emission sel c :
  parts_ok bv max_size max_cost emission (sel ++ [c]) -> parts_ok bv max_size max_cost emission sel.
Proof.
  intros [? ? Hms Has ? ? ? ?]. split; try done.
  - by apply Forall_app in Hms as [? _].
  - unfold costs_of in Has. rewrite fmap_app in Has. by apply assembled_app in Has as [? _].
Qed.

(** The block the miner settles on: a prefix of the selection and at most the fee
    transaction, all of it running in turn within both limits. *)
Lemma fit_block_ok height bv max_size max_cost cfg emission rsel :
  parts_ok bv max_size max_cost emission (reverse rsel) ->
  let '(sel, fee_tx) := fit_block height bv max_size max_cost cfg ctx emission rsel in
  exists n fee, sel = take n (reverse rsel) /\ fee_tx = fst <$> fee /\
    assembled [] (block_of emission sel fee) /\ within bv max_size max_cost (block_of emission sel fee).
Proof.
  induction rsel as [|c rsel IH]; intros Hp; cbn [fit_block];
    destruct (usable_fee _ _ _ _) as [[fee_tx fee_cost] fee_size] eqn:Eu;
    destruct (_ && _) eqn:Ef;
    try (apply andb_true_iff in Ef as [Hc%Z.leb_le Hs%Z.leb_le];
         destruct (fitting_block _ _ _ _ _ _ _ _ _ _ Hp Eu Hc Hs) as (fee & -> & Ha & Hw)).
  - by exists 0%nat, fee.
  - exists 0%nat, None. destruct Hp. split_and!; [done..|by apply block_of_assembled|done].
  - exists (length (reverse (c :: rsel))), fee. by rewrite firstn_all.
  - rewrite reverse_cons in Hp. specialize (IH (parts_ok_init _ _ _ _ _ _ Hp)).
    destruct (fit_block _ _ _ _ _ _ _ rsel) as [sel fee']. destruct IH as (n & fee & -> & -> & Ha & Hw).
    exists (n `min` length (reverse rsel))%nat, fee. rewrite reverse_cons, take_app_le by lia.
    assert (take (n `min` length (reverse rsel)) (reverse rsel) = take n (reverse rsel)) as ->; [|done].
    destruct (Nat.min_spec n (length (reverse rsel))) as [[_ ->]|[Hle ->]]; [done|].
    by rewrite firstn_all, take_ge.
Qed.

End Selected.

(** ** The same boxes for the validator *)

Lemma captures_mono (b : bool) (ops : list Operation) (vals : list (option (list Z))) (c : utxo_set) (id : list Z) :
  is_Some (c !! id) -> is_Some (captures b ops vals c !! id).
Proof.
  revert vals c. induction ops as [|op ops IH]; intros vals c Hc; [done|]. destruct vals as [|v vals]; [done|].
  cbn [captures]. apply IH. unfold capture. destruct b; [|done]. destruct v as [v|]; [|done].
  destruct op as [k|k|k w]; [| |done]; (destruct (decide (k = id)) as [->|];
    [rewrite lookup_insert_eq; by eexists|by rewrite lookup_insert_ne]).
Qed.

#[local] Instance op_eq_dec : EqDecision Operation.
Proof. solve_decision. Defined.

Lemma captures_have (ops : list Operation) (x : utxo_set) (vals : list (option (list Z))) (x' c : utxo_set) (id : list Z) :
  run map_op ops x = Some (vals, x') -> Lookup id ∈ ops \/ Remove id ∈ ops -> is_Some (x !! id) ->
  is_Some (captures true ops vals c !! id).
Proof.
  revert x vals c. induction ops as [|op ops IH]; intros x vals c.
  { by intros _ [?%elem_of_nil|?%elem_of_nil]. }
  cbn [run]. destruct (map_op op x) as [[v x1]|] eqn:Eop; [|done].
  destruct (run map_op ops x1) as [[vals1 x2]|] eqn:Er; [|done]. cbn. intros [= <- <-] Hin [w Hw].
  destruct (decide (op = Lookup id \/ op = Remove id)) as [Hop|Hop].
  - apply captures_mono. assert (v = Some w) as ->.
    { destruct Hop as [-> | ->]; cbn in Eop; rewrite Hw in Eop; cbn in Eop; by simplify_eq. }
    unfold capture. destruct Hop as [-> | ->]; rewrite lookup_insert_eq; by eexists.
  - apply (IH x1); [done| |].
    + rewrite !elem_of_cons in Hin. naive_solver.
    + destruct op as [k|k|k w']; cbn in Eop.
      * injection Eop as <- <-. by eexists.
      * destruct (x !! k); [|done]. injection Eop as <- <-. rewrite lookup_delete_ne by (intros ->; naive_solver). by eexists.
      * destruct (x !! k); [done|]. injection Eop as <- <-.
        destruct (decide (k = id)) as [->|]; [rewrite lookup_insert_eq; by eexists|]. rewrite lookup_insert_ne by done. by eexists.
Qed.

Lemma captures_only (b : bool) (ops : list Operation) (vals : list (option (list Z))) (c : utxo_set) (id : list Z) :
  is_Some (captures b ops vals c !! id) -> is_Some (c !! id) \/ Lookup id ∈ ops \/ Remove id ∈ ops.
Proof.
  revert vals c. induction ops as [|op ops IH]; intros vals c; [by left|]. destruct vals as [|v vals]; [by left|].
  cbn [captures]. intros [Hc|Hc]%IH; [|rewrite !elem_of_cons; naive_solver].
  unfold capture in Hc. destruct b; [|by left]. destruct v as [v|]; [|by left].
  destruct op as [k|k|k w]; [| |by left]; (destruct (decide (k = id)) as [->|];
    [right; rewrite !elem_of_cons; naive_solver|left; by rewrite lookup_insert_ne in Hc]).
Qed.

Lemma lookup_op c id : Lookup id ∈ operations_of c <-> id ∈ lookups c.
Proof.
  unfold operations_of. rewrite !elem_of_app, !list_elem_of_fmap. split; [|naive_solver].
  intros [(? & [= <-] & ?)|[(? & ? & _)|(? & ? & _)]]; done.
Qed.

Lemma remove_op c id : Remove id ∈ operations_of c <-> id ∈ removals c.
Proof.
  unfold operations_of. rewrite !elem_of_app, !list_elem_of_fmap. split; [|naive_solver].
  intros [(? & ? & _)|[(? & [= <-] & ?)|(? & ? & _)]]; done.
Qed.

(** *** The removals of a block *)

Lemma spend_inputs_removals ids a a' :
  spend_inputs ids a = Ok a' ->
  created a' = created a /\
  (forall id, id ∈ acc_removals a' <-> id ∈ acc_removals a \/ (id ∈ ids /\ id ∉ created a)).
Proof.
  revert a. induction ids as [|k ids IH]; intros a; cbn [spend_inputs].
  { intros [= <-]. split; [done|]. intros id. rewrite elem_of_nil. tauto. }
  unfold spend_input. case_decide; [done|]. case_decide as Hk; cbn [result_bind]; intros [Hc Hr]%IH;
    cbn [created acc_removals] in Hc, Hr; (split; [done|]); intros id; rewrite Hr, ?elem_of_app, ?list_elem_of_singleton, !elem_of_cons.
  - split; [tauto|]. intros [?|[[->|?] ?]]; tauto.
  - split; [naive_solver|]. tauto.
Qed.

Lemma create_outputs_created es a :
  (forall id, id ∈ created (foldl (fun a e => create_output e a) a es) <-> id ∈ created a \/ id ∈ es.*1) /\
  acc_removals (foldl (fun a e => create_output e a) a es) = acc_removals a.
Proof.
  revert a. induction es as [|e es IH]; intros a; cbn [foldl fmap list_fmap].
  { split; [|done]. intros id. rewrite elem_of_nil. tauto. }
  destruct (IH (create_output e a)) as [Hc ->]. split; [|done]. intros id. rewrite Hc. cbn [created create_output].
  rewrite elem_of_union, elem_of_singleton, elem_of_cons. tauto.
Qed.

Lemma summarize_removals ts a a' :
  summarize ts a = Ok a' ->
  (forall id, id ∈ acc_removals a' -> id ∈ acc_removals a \/ id ∈ concat (input_ids <$> ts)) /\
  (forall id, id ∈ acc_removals a -> id ∈ acc_removals a') /\
  (forall id, id ∈ concat (input_ids <$> ts) -> id ∉ created a -> id ∉ (block_outputs ts).*1 -> id ∈ acc_removals a').
Proof.
  revert a. induction ts as [|t ts IH]; intros a; cbn [summarize fmap list_fmap concat].
  { intros [= <-]. split_and!; [by left|done|by intros id ?%elem_of_nil]. }
  destruct (spend_inputs (input_ids t) a) as [a1|] eqn:E; cbn [result_bind]; [|done].
  apply spend_inputs_removals in E as [Ec Hr]. destruct (create_outputs_created (output_entries t) a1) as [Hc Er].
  intros (H1' & H2' & H3')%IH. cbn [add_lookups acc_removals created] in H1', H2', H3'. rewrite Er in H1', H2'.
  setoid_rewrite Hc in H3'. rewrite Ec in H3'. setoid_rewrite Hr in H1'. setoid_rewrite Hr in H2'.
  split_and!.
  - intros id [[?|[? _]]|?]%H1'; rewrite elem_of_app; tauto.
  - intros id Hid. apply H2'. by left.
  - intros id Hid Hnc Hno. unfold block_outputs in *. cbn [fmap list_fmap concat] in Hno.
    rewrite fmap_app, not_elem_of_app in Hno. apply elem_of_app in Hid as [Hid|Hid].
    + apply H2'. right. by split.
    + apply H3'; [done| |tauto]. intros [?|?]; tauto.
Qed.

(** *** The box map of a block *)

Section Maps.
Context {Tx Box : Type} `{ErgoTx Tx Box}.
Implicit Types (m : gmap (list Z) Box) (outs : list Box).

Definition add_free m (b : Box) : gmap (list Z) Box :=
  match m !! box_id b with Some _ => m | None => <[box_id b := b]> m end.

Lemma add_free_keeps outs m id b : m !! id = Some b -> foldl add_free m outs !! id = Some b.
Proof.
  revert m. induction outs as [|o outs IH]; intros m Hm; [done|]. cbn [foldl]. apply IH. unfold add_free.
  destruct (m !! box_id o) eqn:E; [done|]. rewrite lookup_insert_ne; [done|congruence].
Qed.

Lemma add_free_new outs m b :
  b ∈ outs -> NoDup (box_id <$> outs) -> m !! box_id b = None -> foldl add_free m outs !! box_id b = Some b.
Proof.
  revert m. induction outs as [|o outs IH]; intros m; [by intros ?%elem_of_nil|]. cbn [foldl fmap list_fmap].
  intros [->|Hb]%elem_of_cons [Hn Hnd]%NoDup_cons Hm.
  - apply add_free_keeps. unfold add_free. rewrite Hm. apply lookup_insert_eq.
  - apply IH; [done..|]. assert (box_id o <> box_id b) as Hne.
    { intros E. apply Hn. rewrite E. by apply (list_elem_of_fmap_2 box_id). }
    unfold add_free. destruct (m !! box_id o); [done|]. by rewrite lookup_insert_ne.
Qed.

Lemma insert_all_lookup outs m id b :
  foldl (fun m b => <[box_id b := b]> m) m outs !! id = Some b -> m !! id = Some b \/ (b ∈ outs /\ box_id b = id).
Proof.
  revert m. induction outs as [|o outs IH]; intros m; cbn [foldl]; [by left|]. intros [Hm|[? ?]]%IH.
  - destruct (decide (box_id o = id)) as [E|E].
    + rewrite E, lookup_insert_eq in Hm. injection Hm as <-. right. split; [by left|done].
    + rewrite lookup_insert_ne in Hm by done. by left.
  - right. split; [by right|done].
Qed.

Lemma insert_all_has outs m id :
  id ∈ box_id <$> outs \/ is_Some (m !! id) -> is_Some (foldl (fun m b => <[box_id b := b]> m) m outs !! id).
Proof.
  revert m. induction outs as [|o outs IH]; intros m; cbn [foldl fmap list_fmap]; [intros [?%elem_of_nil|?]; done|].
  rewrite elem_of_cons. intros [[->|?]|[b Hb]]; apply IH.
  - right. rewrite lookup_insert_eq. by eexists.
  - by left.
  - right. destruct (decide (box_id o = id)) as [->|]; [rewrite lookup_insert_eq|rewrite lookup_insert_ne by done]; by eexists.
Qed.

(** The captured boxes, when each of them parses. *)
Lemma deserialize_entries_ok (es : list (list Z * list Z)) :
  Forall (fun e => is_Some (box_parse e.2)) es ->
  exists bs, deserialize_entries es = Ok bs /\ Forall2 (fun e b => e.1 = b.1 /\ box_parse e.2 = Some b.2) es bs.
Proof.
  induction 1 as [|[id bytes] es [b Hb] _ IH]; [by exists []|]. destruct IH as (bs & E & Hf).
  cbn [deserialize_entries]. unfold deserialize_box. cbn in Hb. rewrite Hb. cbn [ok_or result_bind]. rewrite E. cbn [result_bind].
  eexists. split; [done|]. by constructor.
Qed.

Lemma deserialized_lookup (captured : gmap (list Z) (list Z)) bs id bytes b :
  Forall2 (fun (e : list Z * list Z) (b : list Z * Box) => e.1 = b.1 /\ box_parse e.2 = Some b.2) (map_to_list captured) bs ->
  captured !! id = Some bytes -> box_parse bytes = Some b -> (list_to_map bs : gmap (list Z) Box) !! id = Some b.
Proof.
  intros Hf Hc Hb. assert (bs.*1 = (map_to_list captured).*1) as Ek.
  { clear -Hf. induction Hf as [|e b es bs [? _] _ IH]; cbn; congruence. }
  apply elem_of_list_to_map_1; [rewrite Ek; apply NoDup_fst_map_to_list|].
  apply elem_of_map_to_list in Hc. apply list_elem_of_lookup in Hc as [i Hi].
  destruct (Forall2_lookup_l _ _ _ _ _ Hf Hi) as ([k b'] & Hb' & E1 & E2). cbn in *. subst k. rewrite Hb in E2. injection E2 as <-.
  by eapply list_elem_of_lookup_2.
Qed.

Lemma deserialized_keys (captured : gmap (list Z) (list Z)) bs id :
  Forall2 (fun (e : list Z * list Z) (b : list Z * Box) => e.1 = b.1 /\ box_parse e.2 = Some b.2) (map_to_list captured) bs ->
  captured !! id = None -> (list_to_map bs : gmap (list Z) Box) !! id = None.
Proof.
  intros Hf Hc. apply not_elem_of_list_to_map_1. intros Hin. assert (bs.*1 = (map_to_list captured).*1) as Ek.
  { clear -Hf. induction Hf as [|e b es bs [? _] _ IH]; cbn; congruence. }
  rewrite Ek in Hin. apply list_elem_of_fmap in Hin as ([k v] & -> & Hkv%elem_of_map_to_list). cbn in Hc. congruence.
Qed.

(** The summaries name the inputs, data inputs and outputs. *)
Lemma output_list_ids (outs : list Box) es : output_list outs = Ok es -> es.*1 = box_id <$> outs.
Proof.
  revert es. induction outs as [|b outs IH]; intros es; cbn [output_list]; [by intros [= <-]|].
  destruct (box_serialize b) as [bs|]; [|done]. cbn [ok_or result_bind].
  destruct (output_list outs) as [rest|]; [|done]. cbn [result_bind]. intros [= <-]. cbn. f_equal. by apply IH.
Qed.

Lemma summaries_spec (txs : list Tx) ss :
  transactions_to_summaries txs = Ok ss ->
  concat (input_ids <$> ss) = concat (tx_inputs <$> txs) /\
  concat (data_input_ids <$> ss) = concat ((fun tx => default [] (tx_data_inputs tx)) <$> txs) /\
  (block_outputs ss).*1 = box_id <$> concat (tx_outputs <$> txs).
Proof.
  revert ss. induction txs as [|tx txs IH]; intros ss; cbn [transactions_to_summaries]; [by intros [= <-]|].
  destruct (output_list (tx_outputs tx)) as [es|] eqn:E; [|done]. cbn [result_bind].
  destruct (transactions_to_summaries txs) as [rest|]; [|done]. cbn [result_bind]. intros [= <-].
  destruct (IH _ eq_refl) as (E1 & E2 & E3). unfold block_outputs in *. cbn [fmap list_fmap concat input_ids data_input_ids output_entries].
  rewrite !fmap_app, E1, E2, E3. by rewrite (output_list_ids _ _ E).
Qed.

End Maps.

(** ** The scripts of an assembled block pass *)

Section Pass.
Context {Tx Box : Type} `{ErgoTx Tx Box} `{TxInterp Tx Box}.
Variable u : utxo_set.
Variable ctx : StateContext.

(** The state as the miner reads it. *)
Definition state_lookup (id : list Z) : option Box := u !! id ≫= box_parse.

Lemma resolve_spec (m : gmap (list Z) Box) (lookup : list Z -> option Box) ids bs :
  resolve_boxes m lookup ids = Some bs ->
  Forall2 (fun id b => m !! id = Some b \/ (m !! id = None /\ lookup id = Some b)) ids bs.
Proof.
  revert bs. induction ids as [|id ids IH]; intros bs; cbn [resolve_boxes]; [by intros [= <-]; constructor|].
  destruct (m !! id) as [b|] eqn:E.
  - destruct (resolve_boxes m lookup ids) as [rest|]; [|done]. cbn. intros [= <-]. constructor; [by left|by apply IH].
  - destruct (lookup id) as [b|] eqn:El; [|done]. destruct (resolve_boxes m lookup ids) as [rest|]; [|done]. cbn.
    intros [= <-]. constructor; [by right|by apply IH].
Qed.

Lemma assembled_elem (lookup : list Z -> option Box) prior (l : list (Tx * Z)) :
  assembled lookup ctx prior l ->
  Forall (fun e => exists p, p `prefix_of` (prior ++ l.*1) /\ runs lookup ctx p e.1 e.2) l.
Proof.
  revert prior. induction l as [|[tx cost] l IH]; intros prior; cbn [assembled fmap list_fmap]; [constructor|].
  intros [Hr Ha]. apply IH in Ha. constructor.
  - exists prior. split; [by eexists|done].
  - apply (Forall_impl _ _ _ Ha). intros e (p & Hp & Hr'). exists p. split; [|done]. by rewrite <- app_assoc in Hp.
Qed.

(** Everything a transaction of the block reads. *)
Definition reads (tx : Tx) : list (list Z) := tx_inputs tx ++ default [] (tx_data_inputs tx).

Context (block : list (Tx * Z)) (ss : list TxSummary) (changes : StateChanges) (vals : list (option (list Z))) (u' : utxo_set).
Hypothesis Hassembled : assembled state_lookup ctx [] block.
Hypothesis Hdistinct : NoDup (box_id <$> outputs_of block.*1).
Hypothesis Hfresh : forall b, b ∈ outputs_of block.*1 -> u !! box_id b = None.
Hypothesis Hsummaries : transactions_to_summaries block.*1 = Ok ss.
Hypothesis Hchanges : compute_state_changes ss = Ok changes.
Hypothesis Hrun : run map_op (operations_of changes) u = Some (vals, u').

Lemma prefix_outputs p b : p `prefix_of` block.*1 -> b ∈ outputs_of p -> b ∈ outputs_of block.*1.
Proof. intros [q ->] Hb. unfold outputs_of in *. rewrite fmap_app, concat_app. apply elem_of_app. by left. Qed.

(** What a read resolves to: an output of the block, or a box of the state. *)
Lemma resolved_read tx cost id :
  (tx, cost) ∈ block -> id ∈ reads tx ->
  exists b, (b ∈ outputs_of block.*1 /\ box_id b = id) \/ (exists bytes, u !! id = Some bytes /\ box_parse bytes = Some b).
Proof.
  intros Hin Hid. apply assembled_elem in Hassembled. rewrite Forall_forall in Hassembled.
  destruct (Hassembled _ Hin) as (p & Hp & _ & ins & datas & Hi & Hd & _). cbn in Hp, Hi, Hd.
  apply resolve_spec in Hi, Hd.
  assert (exists b, outputs_map p !! id = Some b \/ (outputs_map p !! id = None /\ state_lookup id = Some b)) as [b Hb].
  { apply elem_of_app in Hid as [Hid|Hid]; apply list_elem_of_lookup in Hid as [i Hid].
    - destruct (Forall2_lookup_l _ _ _ _ _ Hi Hid) as (b & _ & ?). by exists b.
    - destruct (Forall2_lookup_l _ _ _ _ _ Hd Hid) as (b & _ & ?). by exists b. }
  exists b. destruct Hb as [Hb|[_ Hb]].
  - left. apply insert_all_lookup in Hb as [Hb|[Hb E]]; [by rewrite lookup_empty in Hb|].
    split; [|done]. by eapply prefix_outputs.
  - right. unfold state_lookup in Hb. destruct (u !! id) as [bytes|]; [|done]. by exists bytes.
Qed.

Lemma read_of tx id : tx ∈ block.*1 -> id ∈ reads tx -> is_Some (u !! id) ->
  exists bytes b, u !! id = Some bytes /\ box_parse bytes = Some b.
Proof.
  intros ([tx' cost] & -> & Hin)%list_elem_of_fmap Hid [bytes Hu].
  destruct (resolved_read _ _ id Hin Hid) as (b & [[Hb <-]|(bytes' & ? & ?)]); [|by exists bytes', b].
  by rewrite (Hfresh b Hb) in Hu.
Qed.

Lemma in_concat_map {A} (f : Tx -> list A) (txs : list Tx) x :
  x ∈ concat (f <$> txs) <-> exists tx, tx ∈ txs /\ x ∈ f tx.
Proof.
  induction txs as [|tx txs IH]; cbn [fmap list_fmap concat]; [setoid_rewrite elem_of_nil; naive_solver|].
  rewrite elem_of_app, IH. setoid_rewrite elem_of_cons. naive_solver.
Qed.

Local Abbreviation captured := (captures true (operations_of changes) vals ∅).

Lemma changes_spec' : exists a, summarize ss acc_empty = Ok a /\ removals changes ≡ₚ acc_removals a /\ lookups changes = acc_lookups a.
Proof.
  unfold compute_state_changes in Hchanges. destruct (summarize ss acc_empty) as [a|] eqn:E; [|done].
  cbn [result_bind] in Hchanges. injection Hchanges as <-. exists a. split_and!; [done| |done]. apply stable_sort_Permutation.
Qed.

Lemma operation_reads id :
  Lookup id ∈ operations_of changes \/ Remove id ∈ operations_of changes -> exists tx, tx ∈ block.*1 /\ id ∈ reads tx.
Proof.
  rewrite lookup_op, remove_op. destruct changes_spec' as (a & E & -> & ->).
  destruct (summaries_spec _ _ Hsummaries) as (Ei & Ed & _). intros [Hid|Hid].
  - rewrite (summarize_lookups _ _ _ E), Ed in Hid. cbn in Hid. apply in_concat_map in Hid as (tx & ? & ?).
    exists tx. split; [done|]. apply elem_of_app. by right.
  - apply (summarize_removals _ _ _ E) in Hid as [Hid|Hid]; [by apply elem_of_nil in Hid|].
    rewrite Ei in Hid. apply in_concat_map in Hid as (tx & ? & ?). exists tx. split; [done|]. apply elem_of_app. by left.
Qed.

Lemma read_operations tx id :
  tx ∈ block.*1 -> id ∈ reads tx -> is_Some (u !! id) ->
  Lookup id ∈ operations_of changes \/ Remove id ∈ operations_of changes.
Proof.
  intros Htx Hid [bytes Hu]. rewrite lookup_op, remove_op. destruct changes_spec' as (a & E & -> & ->).
  destruct (summaries_spec _ _ Hsummaries) as (Ei & Ed & Eo). apply elem_of_app in Hid as [Hid|Hid].
  - right. apply (summarize_removals _ _ _ E); [rewrite Ei; apply in_concat_map; eauto|apply not_elem_of_empty|].
    rewrite Eo. intros (b & -> & Hb)%list_elem_of_fmap. by rewrite (Hfresh b Hb) in Hu.
  - left. rewrite (summarize_lookups _ _ _ E), Ed. cbn. apply in_concat_map. eauto.
Qed.

Lemma captured_at tx id bytes :
  tx ∈ block.*1 -> id ∈ reads tx -> u !! id = Some bytes -> captured !! id = Some bytes.
Proof.
  intros Htx Hid Hu. pose proof (captured_old true _ _ _ _ Hrun) as Hsub.
  destruct (captures_have _ _ _ _ ∅ id Hrun (read_operations tx id Htx Hid ltac:(by eexists)) ltac:(by eexists)) as [bytes' E].
  pose proof (lookup_weaken _ _ _ _ E Hsub) as E'. rewrite Hu in E'. by injection E' as ->.
Qed.

Lemma captured_parse : Forall (fun e : list Z * list Z => is_Some (box_parse e.2)) (map_to_list captured).
Proof.
  apply Forall_forall. intros [id bytes] Hin%elem_of_map_to_list. cbn.
  destruct (captures_only true _ vals ∅ id ltac:(by eexists)) as [Hno|Hop]; [by rewrite lookup_empty in Hno; destruct Hno|].
  destruct (operation_reads id Hop) as (tx & Htx & Hid).
  pose proof (lookup_weaken _ _ _ _ Hin (captured_old true _ _ _ _ Hrun)) as Hu.
  destruct (read_of tx id Htx Hid ltac:(by eexists)) as (bytes' & b & E & Hb). rewrite Hu in E. injection E as <-. by exists b.
Qed.

Lemma scripts_pass :
  exists bs, deserialize_entries (map_to_list captured) = Ok bs /\
    Forall2 (tx_passes (block_box_map block.*1 (list_to_map bs)) ctx) block.*1 block.*2.
Proof.
  destruct (deserialize_entries_ok _ captured_parse) as (bs & E & Hbs). exists bs. split; [done|].
  set (m := block_box_map _ _).
  assert (forall tx id b p, tx ∈ block.*1 -> id ∈ reads tx -> p `prefix_of` block.*1 ->
    outputs_map p !! id = Some b \/ (outputs_map p !! id = None /\ state_lookup id = Some b) -> m !! id = Some b) as Hm.
  { intros tx id b p Htx Hid Hp [Hb|[_ Hb]].
    - apply insert_all_lookup in Hb as [Hb|[Hb <-]]; [by rewrite lookup_empty in Hb|].
      pose proof (prefix_outputs _ _ Hp Hb) as Hb'. apply add_free_new; [done..|].
      apply (deserialized_keys _ _ _ Hbs). destruct (captured !! box_id b) as [x|] eqn:Ex; [|done].
      pose proof (lookup_weaken _ _ _ _ Ex (captured_old true _ _ _ _ Hrun)) as Hu. by rewrite (Hfresh b Hb') in Hu.
    - unfold state_lookup in Hb. destruct (u !! id) as [bytes|] eqn:Hu; [|done]. cbn in Hb. apply add_free_keeps.
      apply (deserialized_lookup _ _ _ bytes b Hbs); [|done]. by apply (captured_at tx). }
  apply assembled_elem in Hassembled. clear -Hassembled Hm.
  assert (Forall (fun e => tx_passes m ctx e.1 e.2) block) as Hp.
  { apply Forall_forall. intros [tx cost] Hin. rewrite Forall_forall in Hassembled.
    destruct (Hassembled _ Hin) as (p & Hp & _ & ins & datas & Hi & Hd & Hv). cbn in Hp, Hi, Hd, Hv |- *.
    assert (tx ∈ block.*1) as Htx by (by apply (list_elem_of_fmap_2 fst) in Hin).
    unfold validate_single_transaction in Hv. destruct (context_new tx ins datas) as [tc|] eqn:Ec; [|done].
    destruct (context_validate tc ctx) as [k|] eqn:Ek; [|done]. injection Hv as <-.
    apply resolve_spec in Hi, Hd.
    assert (forall ids bs, (forall id, id ∈ ids -> id ∈ reads tx) ->
      Forall2 (fun id b => outputs_map p !! id = Some b \/ (outputs_map p !! id = None /\ state_lookup id = Some b)) ids bs ->
      Forall2 (fun id b => m !! id = Some b) ids bs) as Hall.
    { intros ids bs' Hids Hf. induction Hf as [|id b ids bs' Hb Hf IH]; constructor.
      - apply (Hm tx id b p); [done|apply Hids; by left|done..].
      - apply IH. intros id' ?. apply Hids. by right. }
    exists ins, datas, tc. unfold reads in Hall. setoid_rewrite elem_of_app in Hall.
    split_and!; [apply Hall; [by left|done]|apply Hall; [by right|done]|done..]. }
  clear Hassembled Hm. clearbody m. induction Hp as [|[tx cost] l ? _ IH]; cbn; by constructor.
Qed.

End Pass.

(** ** The transactions of a candidate *)

Section Collect.
Context {Tx Box RuleStatus : Type} `{SectionIO Tx} `{SigmaIO RuleStatus} `{!VlqLength RuleStatus} `{TxPrinter Tx} `{ErgoTx Tx Box} `{TxInterp Tx Box} `{!MinerLib Tx Box} `{!MinerLibLaws Tx Box}.
Variable lookup : list Z -> option Box.
Variable ctx : StateContext.

(** The limits of a parameter table, a negative one counting as zero. *)
Record limits (params : table) (max_size max_cost : Z) : Prop := {
  lim_cost : exists c, params !! MaxBlockCost = Some c /\ is_i32 c /\ max_cost = Z.max 0 c;
  lim_size : exists s, params !! MaxBlockSize = Some s /\ is_i32 s /\ max_size = Z.max 0 s;
}.

Lemma limits_range params max_size max_cost :
  limits params max_size max_cost -> 0 <= max_size < U64_MAX /\ 0 <= max_cost < U64_MAX.
Proof. intros [(c & _ & Hc & ->) (s & _ & Hs & ->)]. revert Hc Hs. int_unfold. lia. Qed.

(** The emission transaction is valid where it comes first, and fits alone. *)
Record emission_ok (bv max_size max_cost : Z) (etx : Tx) (ebox : Box) (cost : Z) : Prop := {
  eo_inputs : tx_inputs etx = [box_id ebox] /\ tx_data_inputs etx = None;
  eo_box : lookup (box_id ebox) = Some ebox;
  eo_valid : validate_single_transaction etx [ebox] [] ctx = Ok cost;
  eo_bytes : is_Some (tx_serialize etx);
  eo_alone : within bv max_size max_cost [(etx, cost)];
}.

Lemma emission_runs bv max_size max_cost etx ebox cost :
  emission_ok bv max_size max_cost etx ebox cost -> runs lookup ctx [] etx cost.
Proof.
  intros [[Hi Hd] Hb Hv _ _]. split; [by intros id _ ?%elem_of_nil|]. exists [ebox], []. rewrite Hi, Hd. cbn. by rewrite Hb.
Qed.

Lemma collect_ok cfg height bv etx ebox cands params max_size max_cost cost :
  costs_u64 (Tx := Tx) (Box := Box) -> limits params max_size max_cost ->
  emission_ok bv max_size max_cost etx ebox cost -> Forall (fun c => c.2 = size_of c.1) cands ->
  exists block invalid,
    select_and_collect_fees cfg height bv etx ebox cands params ctx lookup = Return (block.*1, invalid) /\
    assembled lookup ctx [] block /\ within bv max_size max_cost block /\ head block = Some (etx, cost) /\
    Forall (fun id => exists c, c ∈ cands /\ tx_id c.1 = id /\ fails_on_its_boxes lookup ctx c.1) invalid.
Proof.
  intros Hu Hlim He Hcands. pose proof (emission_runs _ _ _ _ _ _ He) as Hr. pose proof (limits_range _ _ _ Hlim) as [? ?].
  destruct Hlim as [(mc & Ec & _ & ->) (ms & Es & _ & ->)]. pose proof He as [_ _ Hv [bs Hb] Hw].
  unfold select_and_collect_fees. rewrite Ec, Es, Hv. unfold serialized_size. rewrite Hb. cbn [expect outcome_bind ok_or result_bind of_result].
  set (emission := mk_costed etx cost (zlen bs)).
  assert (measured emission) as Hme.
  { split; [by apply (runs_cost _ _ _ _ _ Hu Hr)|]. unfold size_of. cbn. by rewrite Hb. }
  pose proof (select_ok lookup ctx emission cands bv (Z.max 0 ms) (Z.max 0 mc)) as Hsel.
  destruct (select_transactions _ _ _ _ _ _ _) as [sel invalid]. destruct Hsel as (Has & Hfrom & Hinv).
  assert (Forall measured sel) as Hms.
  { apply Forall_forall. intros c Hc. rewrite Forall_forall in Hfrom. rewrite Forall_forall in Hcands. split.
    - apply assembled_elem in Has. rewrite Forall_forall in Has.
      destruct (Has (c_tx c, c_cost c)) as (p & _ & Hp); [by apply (list_elem_of_fmap_2 (fun c => (c_tx c, c_cost c)))|].
      by apply (runs_cost _ _ _ _ _ Hu Hp).
    - exact (Hcands _ (Hfrom c Hc)). }
  pose proof (fit_block_ok lookup ctx Hu height bv (Z.max 0 ms) (Z.max 0 mc) cfg emission (reverse sel)) as Hfit.
  rewrite reverse_involutive in Hfit. destruct (fit_block _ _ _ _ _ _ _ _) as [sel' fee_tx].
  destruct Hfit as (n & fee & -> & -> & Hba & Hbw).
  { split; try done; [|lia|lia]. destruct Hw as [_ Hw]. pose proof (overhead_range bv (zlen [(etx, cost)])).
    revert Hw. cbn [fmap list_fmap foldr fst]. rewrite <- (proj2 Hme : zlen bs = size_of etx). cbn [c_size emission]. lia. }
  exists (block_of emission (take n sel) fee), invalid. split_and!; [|done|done|done|done].
  do 2 f_equal. unfold block_of. cbn [fmap list_fmap fst]. rewrite fmap_app, costs_of_fst. by destruct fee as [[]|].
Qed.


End Collect.

(** ** A solved candidate is a valid block *)

Section Accepted.
Context {Tx Box RuleStatus : Type} `{SectionIO Tx} `{SigmaIO RuleStatus} `{ErgoTx Tx Box} `{TxInterp Tx Box} `{AvlProver}.
Context `{!SigmaIOLaws RuleStatus} `{!VlqWidths RuleStatus} `{!TxPrinter Tx} `{!TxPrinterLaws Tx}.
Context `{!MinerLib Tx Box} `{!MinerLibLaws Tx Box} `{MinerHeaders} `{PowScheme}.

#[local] Existing Instance state_blake.
Context `{HB : !Blake2bLaws} (content : list Z -> option (list Z)).
Context (synced : tree -> Prover -> Prop) (laws : ProverLaws content synced).

(** A digest is 32 bytes; the key of an interlink field starts with 1. *)
Hypothesis digest_bytes : forall l, bytes_ok (blake2b256 l).
Hypothesis interlink_keys : forall l, Forall (fun f : extension_field => f.1.1 <> 0) (pack_interlinks l).

(** *** The extension *)

Lemma filter_nothing {A} (P : A -> Prop) `{forall x, Decision (P x)} l : Forall (fun x => ~ P x) l -> filter P l = [].
Proof. induction 1 as [|x l Hx _ IH]; [done|]. by rewrite filter_cons_False. Qed.

Lemma packed_fields params :
  Forall entry_typed (map_to_list params) -> Forall param_field (pack_parameters params).
Proof.
  intros Ht. unfold pack_parameters. rewrite omap_known by done. apply Forall_fmap, Forall_forall. intros e He.
  rewrite merge_sort_Permutation in He. rewrite Forall_forall in Ht. destruct (Ht e He) as [Hid _].
  destruct (known_id _ Hid) as [Hr Hne]. split; [done|]. cbn. by rewrite i8_roundtrip.
Qed.

Lemma filter_everything {A} (P : A -> Prop) `{forall x, Decision (P x)} l : Forall P l -> filter P l = l.
Proof. induction 1 as [|x l Hx _ IH]; [done|]. rewrite filter_cons_True by done. by rewrite IH. Qed.

Lemma extension_params parent links params update fields :
  build_extension parent links (Some params) update = Ok fields -> Forall entry_typed (map_to_list params) ->
  filter param_field fields = pack_parameters params.
Proof.
  unfold build_extension. destruct (update_interlinks parent links) as [l|]; [|done]. cbn [ok_or result_bind].
  intros [= <-] Ht. rewrite !filter_app, (filter_nothing _ (pack_interlinks l)), (filter_everything _ (pack_parameters params));
    [|by apply packed_fields|].
  - rewrite (filter_nothing _ (match update with [] => [] | _ => [((0, 124), update)] end)); [by rewrite app_nil_r|].
    destruct update; constructor; [|constructor]. intros [_ Hk]. by apply Hk.
  - eapply Forall_impl; [apply interlink_keys|]. intros f Hf [? _]. done.
Qed.

(** What the boundary check of the block is given and finds. *)
Definition boundary_ok (parent : BlockHeader) (boundary : option table) : Prop :=
  match boundary with
  | Some params => Forall entry_typed (map_to_list params) /\ params !! BlockVersion = Some (Header.version parent)
  | None => True
  end.

Lemma extension_boundary parent links boundary update fields (h : BlockHeader) hid :
  build_extension parent links boundary update = Ok fields -> boundary_ok parent boundary ->
  Header.version h = Header.version parent ->
  exists reported, check_boundary h (mk_extension hid fields) boundary (Some update) = Ok (boundary, reported).
Proof.
  intros Hb Hok Hv. destruct boundary as [params|]; [|by exists None]. destruct Hok as [Ht Hbv].
  exists (Some (extract_proposed_update (mk_extension hid fields))).
  apply boundary_check_exact; [done|by eapply extension_params|by rewrite Hv].
Qed.

(** *** The scripts *)

Lemma evaluates u block ss changes vals u' (h : BlockHeader) preceding params max_size max_cost bv (validate : bool) :
  costs_u64 (Tx := Tx) (Box := Box) -> limits params max_size max_cost -> block <> [] ->
  assembled (state_lookup u) (mk_context (pre_header_of h) (take 9 preceding) params) [] block ->
  within bv max_size max_cost block -> preceding <> [] ->
  NoDup (box_id <$> outputs_of block.*1) -> (forall b, b ∈ outputs_of block.*1 -> u !! box_id b = None) ->
  transactions_to_summaries block.*1 = Ok ss -> compute_state_changes ss = Ok changes ->
  run map_op (operations_of changes) u = Some (vals, u') ->
  evaluate_block validate (captures validate (operations_of changes) vals ∅) block.*1 h preceding params =
    Return (if validate then Some (sum block.*2) else None).
Proof.
  intros Hu [(mc & Emc & Hmc & ->) _] Hne Ha [Hcost _] Hpre Hd Hf Hs Hc Hr. destruct validate; [|done].
  destruct (scripts_pass u _ block ss changes vals u' Ha Hd Hf Hs Hc Hr) as (bs & E & Hp).
  unfold evaluate_block. rewrite E. cbn [of_result outcome_bind].
  unfold evaluate_scripts, validate_transactions, build_state_context.
  cbn [eval_transactions eval_proof_boxes eval_header eval_preceding eval_parameters].
  destruct block as [|e block]; [done|]. destruct preceding as [|p0 preceding]; [done|].
  cbn [fmap list_fmap]. change (take 9 (p0 :: preceding)) with (p0 :: take 8 preceding) in *. cbn [outcome_bind].
  apply tx_costs_spec with (i := 0) in Hp. cbn [fmap list_fmap] in Hp. rewrite Hp. cbn [of_result outcome_bind].
  rewrite Emc. cbn [expect outcome_bind].
  assert (Forall is_u64 (e.2 :: block.*2)) as Hall.
  { apply assembled_elem in Ha. change (Forall is_u64 (e :: block).*2). apply Forall_fmap.
    eapply Forall_impl; [exact Ha|]. intros x (q & _ & Hq). by apply (runs_cost _ _ _ _ _ Hu Hq). }
  pose proof (enforce_block_cost_spec (e.2 :: block.*2) (Z.max 0 mc) Hall ltac:(revert Hmc; int_unfold; lia)) as He.
  cbn [fmap list_fmap] in Hcost. destruct (enforce_block_cost _ _) as [total|[]] eqn:Ee; try done.
  - destruct He as [-> _]. done.
  - destruct He as [Hlt _]. lia.
Qed.

(** *** From the candidate to the block *)

Definition candidate_context (cfg : MinerConfig) (now : Z) (parent : BlockHeader) (n_bits : Z) (params : table)
    (ancestors : list BlockHeader) : StateContext :=
  mk_context
    (pre_header_of (upcoming_header parent (Header.version parent) n_bits (add_u32 (height parent) 1)
                      (Z.max now (add_u64 (timestamp parent) 1)) cfg))
    (context_window parent ancestors) params.

Lemma window_context (h : BlockHeader) parent ancestors params :
  build_state_context h (context_window parent ancestors) params =
  Return (mk_context (pre_header_of h) (context_window parent ancestors) params).
Proof.
  unfold build_state_context, context_window. cbn [CONTEXT_HEADERS Nat.sub].
  change (take 9 (parent :: take 8 ancestors)) with (parent :: take 8 (take 8 ancestors)). by rewrite take_take.
Qed.

Lemma emission_tx_inputs ebox k pk delay rules (etx : Tx) :
  build_emission_tx ebox k pk delay rules = Ok etx -> tx_inputs etx = [box_id ebox] /\ tx_data_inputs etx = None.
Proof.
  unfold build_emission_tx. destruct (_ <=? 0); [done|]. destruct (_ <? 0); [done|].
  destruct (box_value_try_from _) as [value|]; [|done]. cbn [ok_or result_bind].
  destruct (emission_tokens _ _ _) as [ts|]; [|done]. cbn [result_bind].
  destruct (build_box value _ _ _) as [nb|]; [|done]. cbn [ok_or result_bind].
  destruct (reward_output_script _ _) as [sc|]; [|done]. cbn [ok_or result_bind].
  destruct (box_value_try_from _) as [rv|]; [|done]. cbn [ok_or result_bind].
  destruct (reward_tokens _ _) as [mine|]; [|done]. cbn [result_bind].
  destruct (build_box rv _ _ _) as [rb|]; [|done]. cbn [ok_or result_bind].
  destruct (new_from_vec _ _) as [tx|] eqn:E; [|done]. intros [= <-]. by apply new_tx_inputs in E.
Qed.

Lemma generate_inv cfg now parent n_bits links ebox boundary update cands params ancestors lookup proofs gen :
  generate_candidate cfg now parent n_bits links ebox boundary update cands params ancestors lookup proofs = Return gen ->
  exists etx txs invalid proof root fields bytes,
    build_emission_tx ebox (add_u32 (height parent) 1) (mc_miner_pk cfg) (reward_delay cfg) (reemission_rules cfg) = Ok etx /\
    ((cands = [] /\ txs = [etx]) \/
     select_and_collect_fees cfg (add_u32 (height parent) 1) (Header.version parent) etx ebox cands params
       (candidate_context cfg now parent n_bits params ancestors) lookup = Return (txs, invalid)) /\
    proofs txs = Some (Return (proof, root)) /\ build_extension parent links boundary update = Ok fields /\
    g_block gen = mk_candidate parent (Header.version parent) n_bits root proof txs
                    (Z.max now (add_u64 (timestamp parent) 1)) fields (mc_votes cfg) bytes.
Proof.
  unfold generate_candidate. cbv zeta. destruct (build_emission_tx _ _ _ _ _) as [etx|]; [|done]. cbn [of_result outcome_bind].
  set (m := match cands with [] => _ | _ => _ end). intros E.
  assert (exists txs invalid, m = Return (txs, invalid)) as (txs & invalid & Em).
  { destruct m as [[txs invalid]| |]; [by exists txs, invalid|done..]. }
  assert ((cands = [] /\ txs = [etx]) \/
     select_and_collect_fees cfg (add_u32 (height parent) 1) (Header.version parent) etx ebox cands params
       (candidate_context cfg now parent n_bits params ancestors) lookup = Return (txs, invalid)) as Hm.
  { subst m. destruct cands; [left; by simplify_eq|right]. by rewrite window_context in Em. }
  rewrite Em in E. clearbody m. cbn [outcome_bind] in E. destruct (proofs txs) as [[[proof root]|e|]|] eqn:Ep;
    cbn [ok_or of_result outcome_bind] in E; [|done..]. destruct (build_extension _ _ _ _) as [fields|]; [|done]. cbn [of_result outcome_bind] in E.
  destruct (build_work_message _ _) as [[bytes work]| |]; [|done..]. cbn [outcome_bind] in E. injection E as <-.
  exists etx, txs, invalid, proof, root, fields, bytes. split_and!; done.
Qed.

(** The header of a solved candidate. *)
Lemma solution_header (c : CandidateBlock Tx) sol h :
  validate_solution c sol = Ok h ->
  cb_transactions c <> [] /\ height h = add_u32 (height (cb_parent c)) 1 /\ Header.version h = cb_version c /\
  state_root h = cb_state_root c /\ ad_proofs_root h = from_be (ad_proofs_digest (ad_proof_bytes c)) /\
  pre_header_of h = mk_pre_header (cb_version c) (header_id (cb_parent c)) (cb_timestamp c) (cb_n_bits c)
                      (add_u32 (height (cb_parent c)) 1) (sol_miner_pk sol) (cb_votes c).
Proof.
  unfold validate_solution, header_of. destruct (cb_transactions c) as [|tx txs]; [done|]. cbn [result_bind].
  destruct (serialize_header _ _) as [bytes|]; [|done]. cbn [ok_or result_bind].
  destruct (check_pow _ _) as [[|]|]; [|done..]. intros [= <-]. by split_and!.
Qed.

Lemma context_window_take parent ancestors : context_window parent ancestors = take 9 (parent :: ancestors).
Proof. done. Qed.

(** The transactions of a candidate, the emission transaction alone among them. *)
Lemma candidate_assembled lookup cfg now parent n_bits ebox cands params ancestors etx txs invalid max_size max_cost cost :
  let ctx := candidate_context cfg now parent n_bits params ancestors in
  costs_u64 (Tx := Tx) (Box := Box) -> limits params max_size max_cost ->
  emission_ok lookup ctx (Header.version parent) max_size max_cost etx ebox cost -> Forall (fun c => c.2 = size_of c.1) cands ->
  (cands = [] /\ txs = [etx]) \/
   select_and_collect_fees cfg (add_u32 (height parent) 1) (Header.version parent) etx ebox cands params ctx lookup =
     Return (txs, invalid) ->
  exists bl, bl.*1 = txs /\ bl <> [] /\ assembled lookup ctx [] bl /\ within (Header.version parent) max_size max_cost bl.
Proof.
  intros ctx Hu Hlim Hem Hcands [[_ ->]|Ht].
  - exists [(etx, cost)]. split_and!; [done|done| |apply Hem]. split; [by eapply emission_runs|done].
  - destruct (collect_ok lookup ctx cfg (add_u32 (height parent) 1) (Header.version parent) etx ebox cands params
      max_size max_cost cost Hu Hlim Hem Hcands) as (bl & inv' & E & Ha & Hw & Hhd & _).
    rewrite Ht in E. injection E as -> _. exists bl. split_and!; try done. by intros ->.
Qed.

(** C23: What the miner hands out is a block its own validator applies. When the validator
    is at the parent, the emission transaction is valid and fits alone, the boxes the
    candidate creates have distinct ids that the state does not hold, as ids are hashes,
    and at an epoch boundary the computed table names the parent's version: a candidate
    generated on the validator's state, once solved under the configured key, and with
    its sections serialized as the node serializes them, is applied by the validator that
    checks it like any other block, and the parameters reported are those the miner was
    given. *)
Theorem candidate_accepted v vs val cfg now parent n_bits links ebox boundary update cands params ancestors
    gen sol h txs_bytes ext_bytes max_size max_cost etx cost :
  let u := boxes (StateInv.v_tree v) in
  let ctx := candidate_context cfg now parent n_bits params ancestors in
  let block := g_block gen in
  utxo_ok content synced v vs val -> room (v :: vs) (storage val) ->
  costs_u64 (Tx := Tx) (Box := Box) -> limits params max_size max_cost ->
  height parent = u_validated_height val -> 1 <= Header.version parent <= U8_MAX ->
  build_emission_tx ebox (add_u32 (height parent) 1) (mc_miner_pk cfg) (reward_delay cfg) (reemission_rules cfg) = Ok etx ->
  emission_ok (state_lookup u) ctx (Header.version parent) max_size max_cost etx ebox cost ->
  Forall (fun c => c.2 = size_of c.1) cands -> boundary_ok parent boundary ->
  generate_candidate cfg now parent n_bits links ebox boundary update cands params ancestors
    (state_lookup u) (storage_proofs val) = Return gen ->
  NoDup (box_id <$> outputs_of (cb_transactions block)) ->
  (forall b, b ∈ outputs_of (cb_transactions block) -> u !! box_id b = None) ->
  zlen (cb_transactions block) <= U32_MAX -> zlen (cb_extension block) <= U16_MAX ->
  validate_solution block sol = Ok h -> sol_miner_pk sol = mc_miner_pk cfg ->
  serialize_block_transactions (id_bytes (header_id h)) (cb_version block) (cb_transactions block) = Ok txs_bytes ->
  serialize_extension (id_bytes (header_id h)) (cb_extension block) = Ok ext_bytes ->
  exists reported total val',
    utxo_apply_state (mk_input h txs_bytes None ext_bytes (parent :: ancestors) params boundary (Some update)) val =
      (Return (mk_outcome boundary reported total), val').
Proof.
  intros u ctx block Hok Hrm Hu Hlim Hpar Hbv Hetx Hem Hcands Hbd Hgen Hnd Hfr Hn Hfn Hsol Hpk Htb Heb.
  destruct (generate_inv _ _ _ _ _ _ _ _ _ _ _ _ _ _ Hgen) as (etx' & txs & invalid & proof & root & fields & hb & Ee & Ht & Hp & Hx & Eb).
  rewrite Hetx in Ee. injection Ee as <-.
  destruct (candidate_assembled (state_lookup u) cfg now parent n_bits ebox cands params ancestors etx txs invalid max_size max_cost cost
    Hu Hlim Hem Hcands Ht) as (bl & Ebl & Hne & Ha & Hw).
  unfold storage_proofs in Hp. injection Hp as Ecp.
  destruct (compute_proofs_inv content synced laws v vs val txs proof root Hok Ecp) as (ss & changes & vals & p' & Hss & Hcc & Hrun & Hd & _).
  apply solution_header in Hsol as (_ & Hh & Hv & Hsr & Hap & Hpre). subst block. rewrite Eb in *. cbn in Hn, Hfn, Hnd, Hfr, Htb, Heb, Hh, Hv, Hsr, Hap, Hpre.
  assert (is_u32 (height h)) as Hu32 by (rewrite Hh; apply as_u32_range).
  destruct (persist_ok content synced laws v vs val _ _ _ _ (height h) Hok Hrm Hu32 Hrun Hd) as (t' & s' & _ & _ & _ & Hmap & _).
  destruct (extension_boundary parent links boundary update fields h (id_bytes (header_id h)) Hx Hbd Hv) as [reported Hbc].
  assert (ctx = mk_context (pre_header_of h) (take 9 (parent :: ancestors)) params) as Ectx.
  { unfold ctx, candidate_context. rewrite Hpre, Hpk. done. }
  fold ctx in Ha. rewrite Ectx in Ha. rewrite <- Ebl in *.
  set (b := mk_input h txs_bytes None ext_bytes (parent :: ancestors) params boundary (Some update)).
  assert (prepare_utxo b val = Ok (bl.*1, (boundary, reported), changes)) as Eprep.
  { apply (serialized_prepares b val bl.*1 (Header.version parent) txs_bytes (mk_extension (id_bytes (header_id h)) fields)
      (boundary, reported) ss changes); try done; [by cbn; rewrite Hh, Hpar|]. cbn [b in_extension].
    pose proof (extension_section_roundtrip (id_bytes (header_id h)) fields ext_bytes [] (id_bytes_length _)
      ltac:(revert Hfn; int_unfold; lia) Heb) as Hrt. rewrite app_nil_r in Hrt. rewrite Hrt.
    destruct (Z.leb_spec (zlen fields) U16_MAX); [done|lia]. }
  exists reported. eexists.
  apply (computed_applies content synced laws b v vs val bl.*1 proof root (boundary, reported) ss changes vals (boxes t')); try done.
  - cbn [b in_header]. rewrite Hap. unfold id_bytes, ad_proofs_digest. symmetry.
    rewrite <- (blake2b_length proof : length (blake2b256 proof) = 32%nat). by apply be_bytes_from.
  - by eapply (evaluates u bl ss changes vals (boxes t') h (parent :: ancestors) params max_size max_cost).
Qed.

End Accepted.

End MiningInv.
