(* ===== verification/MiningTask.v ===== *)
(** * Solutions and announcements

    The node around the miner: POST /mining/solution (src/api/src/handlers.rs), the
    submission of a mined block to the store and the pipeline, and the announcer
    (src/src/main.rs). A request is answered in one go by [post_mining_solution]; since
    requests run concurrently, the claim of the solved latch and what follows it are also
    modelled as separate steps. *)

From S2P Require Import Prelude Bytes Frame ChainConfig VotingCodec Voting Header Difficulty Pow HeaderStore Sections SyncInfo AvlTree StateStorage.
From S2P Require Import BlockSections StateChanges Validators Mining Messages Handshake MempoolTypes Mempool Store HeaderChain HeaderChainInv ChainStore Pipeline.
Import ChainConfig VotingCodec Voting Pow Sections Avl State BlockSections StateChanges Validation Mining Pipeline.

Module MiningTask.

(** ** The announcer: main.rs *)

Definition ANNOUNCE_FRESHNESS_MS : Z := 2 * 60 * 60 * 1000.
Definition MINED_IDS_REMEMBERED : nat := 16.
Definition MODIFIER_QUEUE : nat := 4096.
Definition ANNOUNCE_QUEUE : nat := 64.

Inductive BlockAnnouncement := Mined (h : BlockHeader) | Applied (h : BlockHeader).

Definition is_fresh (header_timestamp_ms now_ms : Z) : bool := sat_sub now_ms header_timestamp_ms <? ANNOUNCE_FRESHNESS_MS.

(** The ids of the blocks this node mined, oldest first. *)
Definition Announcer : Type := list (list Z).

(** [position] and [remove]: the list without the first occurrence. *)
Fixpoint remove_first (id : list Z) (l : Announcer) : option Announcer :=
  match l with
  | [] => None
  | x :: l' => if decide (x = id) then Some l' else cons x <$> remove_first id l'
  end.

Definition announce (event : BlockAnnouncement) (mined : Announcer) : option BlockHeader * Announcer :=
  match event with
  | Mined h =>
      let mined := if (length mined =? MINED_IDS_REMEMBERED)%nat then drop 1 mined else mined in
      (Some h, mined ++ [id_bytes (header_id h)])
  | Applied h =>
      match remove_first (id_bytes (header_id h)) mined with
      | Some rest => (None, rest)
      | None => (Some h, mined)
      end
  end.

Section Node.
Context {Tx RuleStatus : Type} `{SectionIO Tx} `{SigmaIO RuleStatus} `{TxPrinter Tx} `{MinerHeaders}.

(** The header id, then the proofs, the transactions and the extension. *)
Definition announced_ids (h : BlockHeader) : list (Z * list Z) :=
  match section_ids h with
  | [txs; proofs; ext] => [(HEADER_TYPE_ID, id_bytes (header_id h)); proofs; txs; ext]
  | _ => []
  end.

(** ** Submission: main.rs *)

Record MiningNode := mk_mining_node {
  generator : CandidateGenerator (Tx := Tx);
  modifiers : Store.RedbModifierStore;
  modifier_queue : list ModifierBatchItem;
  announce_queue : list BlockAnnouncement;
  has_submitter : bool;                  (* whether the API was given a [BlockSubmitter] *)
}.

Definition with_generator (n : MiningNode) (g : CandidateGenerator (Tx := Tx)) : MiningNode :=
  mk_mining_node g (modifiers n) (modifier_queue n) (announce_queue n) (has_submitter n).

(** [try_send] on a bounded channel. *)
Definition try_send {A} (capacity : nat) (x : A) (q : list A) : option (list A) :=
  if (length q <? capacity)%nat then Some (q ++ [x]) else None.

Definition section_entries (h : BlockHeader) (txs_bytes proofs_bytes ext_bytes : list Z) : list Store.ModifierBatchEntry :=
  let ids := section_ids h in
  let at_ i := default [] (snd <$> ids !! i) in
  [ Store.mk_entry BLOCK_TRANSACTIONS_TYPE_ID (at_ 0%nat) (height h) txs_bytes None;
    Store.mk_entry AD_PROOFS_TYPE_ID (at_ 1%nat) (height h) proofs_bytes None;
    Store.mk_entry EXTENSION_TYPE_ID (at_ 2%nat) (height h) ext_bytes None ].

(** [MinedBlockSubmitter::submit]. *)
Definition submit (h : BlockHeader) (sol : AutolykosSolution) (txs_bytes proofs_bytes ext_bytes : list Z) (n : MiningNode)
    : result string unit * MiningNode :=
  match serialize_header h sol with
  | None => (Err "header serialize", n)
  | Some header_bytes =>
      match Store.put_batch (section_entries h txs_bytes proofs_bytes ext_bytes) (modifiers n) with
      | (Err _, s) => (Err "section store", mk_mining_node (generator n) s (modifier_queue n) (announce_queue n) (has_submitter n))
      | (Ok _, s) =>
          match try_send MODIFIER_QUEUE (mk_item HEADER_TYPE_ID (id_bytes (header_id h)) header_bytes None)
                  (modifier_queue n) with
          | None => (Err "pipeline injection", mk_mining_node (generator n) s (modifier_queue n) (announce_queue n) (has_submitter n))
          | Some q =>
              (Ok tt, mk_mining_node (generator n) s q
                        (default (announce_queue n) (try_send ANNOUNCE_QUEUE (Mined h) (announce_queue n))) (has_submitter n))
          end
      end
  end.

(** ** POST /mining/solution: handlers.rs *)

Inductive Response :=
  | Accepted
  | BadRequest (reason : string)
  | ServerError (reason : string)
  | ServiceUnavailable (reason : string).

(** The candidates that build on the tip, the current one first, and whether one was
    skipped. *)
Definition live_candidates (tip_id : option id32) (g : CandidateGenerator (Tx := Tx)) : list (CandidateBlock Tx) * bool :=
  let slots := omap (fun c => c) [cached_block g; previous_block g] in
  (filter (fun c => tip_id = Some (header_id (cb_parent c))) slots,
   existsb (fun c => negb (bool_decide (tip_id = Some (header_id (cb_parent c))))) slots).

(** The first candidate the solution fits, or the error of the last one. *)
Fixpoint match_solution (cs : list (CandidateBlock Tx)) (sol : AutolykosSolution) (last_err : option MiningError)
    : result (option MiningError) (BlockHeader * CandidateBlock Tx) :=
  match cs with
  | [] => Err last_err
  | c :: cs' =>
      match validate_solution c sol with
      | Ok h => Ok (h, c)
      | Err e => match_solution cs' sol (Some e)
      end
  end.

(** The solved block with its sections, from what the generator holds. *)
Definition solved_block (nonce : option (list Z)) (tip_id : option id32) (g : CandidateGenerator (Tx := Tx))
    : result Response (BlockHeader * AutolykosSolution * (list Z * list Z * list Z)) :=
  let? nonce := ok_or nonce (BadRequest "invalid nonce hex") in
  if negb (length nonce =? 8)%nat then Err (BadRequest "nonce must be exactly 8 bytes")
  else
    match live_candidates tip_id g with
    | ([], true) => Err (BadRequest "stale candidate")
    | ([], false) => Err (BadRequest "no current candidate")
    | (cs, _) =>
        let sol := mk_solution (mc_miner_pk (gen_config g)) nonce in
        match match_solution cs sol None with
        | Err (Some (InvalidSolution _)) => Err (BadRequest "invalid solution")
        | Err _ => Err (ServerError "solution validation failed")
        | Ok (h, c) =>
            let hid := id_bytes (header_id h) in
            match serialize_block_transactions hid (cb_version c) (cb_transactions c) with
            | Err _ => Err (ServerError "block transactions serialize")
            | Ok txs_bytes =>
                match serialize_extension hid (cb_extension c) with
                | Err _ => Err (ServerError "extension serialize")
                | Ok ext_bytes => Ok (h, sol, (txs_bytes, serialize_ad_proofs hid (ad_proof_bytes c), ext_bytes))
                end
            end
        end
    end.

(** On a node that mines; [nonce] is what [hex::decode] makes of the request. *)
Definition post_mining_solution (nonce : option (list Z)) (tip_id : option id32) (n : MiningNode) : Response * MiningNode :=
  if solved_pending (generator n) then (BadRequest "solution already accepted, awaiting block application", n)
  else
    match solved_block nonce tip_id (generator n) with
    | Err r => (r, n)
    | Ok (h, sol, (txs_bytes, proofs_bytes, ext_bytes)) =>
        match try_mark_solved (header_id h) (height h) (generator n) with
        | (false, _) => (BadRequest "solution already accepted, awaiting block application", n)
        | (true, g) =>
            if has_submitter n then
              match submit h sol txs_bytes proofs_bytes ext_bytes (with_generator n g) with
              | (Ok _, n) => (Accepted, n)
              | (Err _, n) => (ServerError "block submission failed", with_generator n (clear_solved (generator n)))
              end
            else (ServiceUnavailable "block submitter not configured", with_generator n (clear_solved g))
        end
    end.

End Node.

(** ** One solution at a time *)

Section Latch.
Context {Tx RuleStatus : Type} `{SectionIO Tx} `{SigmaIO RuleStatus} `{TxPrinter Tx} `{MinerHeaders}.
Implicit Types n : MiningNode (Tx := Tx).

(** What happens to the generator: a request, an applied block, a new candidate, a change
    of the mempool. *)
Inductive Event :=
  | Solution (nonce : option (list Z)) (tip_id : option id32)
  | BlockApplied (id : id32) (height : Z)
  | NewCandidate (block : CandidateBlock Tx) (work : WorkMessage) (tip_height : Z) (now : instant)
  | MempoolChanged.

(** The node after an event, and the blocks accepted from solutions that no applied block
    has caught up with. *)
Definition handle (st : MiningNode * list (id32 * Z)) (e : Event) : MiningNode * list (id32 * Z) :=
  let '(n, awaiting) := st in
  match e with
  | Solution nonce tip_id =>
      match post_mining_solution nonce tip_id n, solved_block nonce tip_id (generator n) with
      | (Accepted, n'), Ok (h, _, _) => (n', awaiting ++ [(header_id h, height h)])
      | (_, n'), _ => (n', awaiting)
      end
  | BlockApplied id k =>
      (with_generator n (on_block_applied id k (generator n)), filter (fun x : id32 * Z => k < x.2) awaiting)
  | NewCandidate block work tip_height now =>
      (with_generator n (cache_candidate block work tip_height now (generator n)), awaiting)
  | MempoolChanged => (with_generator n (invalidate_candidate (generator n)), awaiting)
  end.

Lemma submit_generator h sol b1 b2 b3 n : generator (submit h sol b1 b2 b3 n).2 = generator n.
Proof.
  unfold submit. destruct (serialize_header h sol); [|done]. destruct (Store.put_batch _ _) as [[|] s]; [|done].
  by destruct (try_send _ _ _).
Qed.

Lemma solved_block_rejects nonce tip_id (g : CandidateGenerator (Tx := Tx)) : solved_block nonce tip_id g <> Err Accepted.
Proof.
  unfold solved_block. destruct nonce as [nonce|]; [|done]. cbn [ok_or result_bind]. repeat (case_match; try done).
Qed.

(** A request changes the latch exactly when it is accepted, from free to the block. *)
Lemma post_latch nonce tip_id n :
  match post_mining_solution nonce tip_id n with
  | (Accepted, n') => exists h sol bytes, solved_block nonce tip_id (generator n) = Ok (h, sol, bytes) /\
      solved (generator n) = None /\ solved (generator n') = Some (header_id h, height h)
  | (_, n') => solved (generator n') = solved (generator n)
  end.
Proof.
  unfold post_mining_solution, solved_pending. case_bool_decide as Hl; [done|]. apply eq_None_not_Some in Hl.
  destruct (solved_block nonce tip_id (generator n)) as [[[h sol] [[b1 b2] b3]]|r] eqn:Es; cycle 1.
  { destruct r; [by apply solved_block_rejects in Es|done..]. }
  unfold try_mark_solved. rewrite Hl. destruct (has_submitter n); [|done].
  pose proof (submit_generator h sol b1 b2 b3 (with_generator n (set_latch (Some (header_id h, height h)) (generator n)))) as Hg.
  destruct (submit _ _ _ _ _ _) as [[u|e] n']; cbn in Hg.
  - exists h, sol, (b1, b2, b3). rewrite Hg. by split_and!.
  - done.
Qed.

(** The node competes with no block of its own. Whatever solutions, applied blocks, new
    candidates and mempool changes come in, in whatever order: there is never more than
    one accepted block that the applied chain has not reached, the latch holds exactly
    that block, and it is free, so that the next solution can be accepted, exactly when
    there is none. *)
Theorem one_solution_at_a_time events n :
  solved (generator n) = None ->
  let '(n', awaiting) := foldl handle (n, []) events in
  awaiting = option_list (solved (generator n')).
Proof.
  intros Hn. assert ([] = option_list (solved (generator n))) as Hinv by (by rewrite Hn).
  clear Hn. revert Hinv. generalize (@nil (id32 * Z)). revert n.
  induction events as [|e events IH]; intros n awaiting Hinv; cbn [foldl]; [done|].
  destruct (handle (n, awaiting) e) as [n1 a1] eqn:E. apply IH. clear IH.
  destruct e as [nonce tip_id|id k|block work tip now|]; cbn [handle] in E.
  - pose proof (post_latch nonce tip_id n) as Hp. destruct (post_mining_solution nonce tip_id n) as [[| | |] n'].
    + destruct Hp as (h & sol & bytes & Es & Hl & Hl'). rewrite Es in E. injection E as <- <-. by rewrite Hl', Hinv, Hl.
    + injection E as <- <-. by rewrite Hp.
    + injection E as <- <-. by rewrite Hp.
    + injection E as <- <-. by rewrite Hp.
  - injection E as <- <-. rewrite Hinv. cbn. destruct (solved (generator n)) as [[i h]|]; [|done].
    cbn. repeat case_decide; repeat case_match; naive_solver lia.
  - by injection E as <- <-.
  - by injection E as <- <-.
Qed.

(** Two requests in flight can still let a second block of the same height out. A first
    request claims the latch for height [k]; a block of that height is applied, which
    frees the latch; a second request claims it for the next height and submits its
    block; then the submission of the first fails, and its release frees the latch of
    the second, so that a third request, for the same height as the second, is let
    through. *)
Theorem latch_race (g : CandidateGenerator (Tx := Tx)) a b c x k :
  solved g = None ->
  let '(first, g) := try_mark_solved a k g in
  let g := on_block_applied x k g in
  let '(second, g) := try_mark_solved b (k + 1) g in
  let g := clear_solved g in
  let '(third, g) := try_mark_solved c (k + 1) g in
  first = true /\ second = true /\ third = true /\ solved g = Some (c, k + 1).
Proof.
  intros Hg. unfold try_mark_solved. rewrite Hg. cbn. rewrite (proj2 (Z.leb_le k k)) by lia. cbn. done.
Qed.

End Latch.

(** ** What is submitted *)

Section Submitted.
Context {Tx RuleStatus : Type} `{SectionIO Tx} `{SigmaIOLaws RuleStatus} `{!VlqWidths RuleStatus}.
Context `{!TxPrinter Tx} `{!TxPrinterLaws Tx} `{MinerHeaders}.

(** The digests are thirty-two bytes. *)
Hypothesis digest_bytes : forall l, length (blake2b256 l) = 32%nat /\ bytes_ok (blake2b256 l).
Hypothesis root_bytes : forall ls, length (merkle_root ls) = 32%nat /\ bytes_ok (merkle_root ls).

Lemma id_from_root l : length l = 32%nat -> bytes_ok l -> id_bytes (from_be l) = l.
Proof. intros Hl Hb. unfold id_bytes. rewrite <- Hl. by apply be_bytes_from. Qed.

Lemma txs_body_parses txs i j body :
  serialize_txs i txs = Ok body -> body_transactions (length txs) j body = Ok (txs, []).
Proof.
  revert i j body. induction txs as [|tx txs IH]; intros i j body E; [by injection E as <-|].
  cbn [serialize_txs] in E. destruct (tx_serialize tx) as [bs|] eqn:Etx; [|done]. cbn in E.
  destruct (serialize_txs (i + 1) txs) as [rest|] eqn:Er; [|done]. cbn in E. injection E as <-.
  cbn [length body_transactions]. rewrite (parse_printed tx bs) by done. cbn [ok_or result_bind].
  by rewrite (IH (i + 1) (j + 1) rest).
Qed.

Lemma fields_body_parses fields i body :
  serialize_fields i fields = Ok body -> body = concat (field_bytes <$> fields).
Proof.
  revert i body. induction fields as [|[[k0 k1] v] fields IH]; intros i body E; [by injection E as <-|].
  cbn [serialize_fields] in E. destruct (Z.ltb_spec 255 (zlen v)) as [|Hv]; [done|].
  destruct (serialize_fields (i + 1) fields) as [rest|] eqn:Er; [|done]. cbn [result_bind] in E.
  assert (as_u8 (zlen v) = zlen v) as Eu by (unfold as_u8, zlen in *; apply Z.mod_small; lia).
  rewrite Eu in E. injection E as <-. by rewrite (IH _ _ Er).
Qed.

(** The limits of the formats the sections are written in. *)
Record representable (c : CandidateBlock Tx) : Prop := {
  version_fits : 1 <= cb_version c <= U8_MAX;
  txs_fit : zlen (cb_transactions c) <= U32_MAX;
  proof_fits : zlen (ad_proof_bytes c) <= U32_MAX;
  fields_fit : zlen (cb_extension c) <= U16_MAX;
}.

Lemma solution_inv (c : CandidateBlock Tx) sol h :
  validate_solution c sol = Ok h ->
  exists bytes, serialize_header (with_id h 0) sol = Some bytes /\ header_id h = from_be (blake2b256 bytes) /\
    check_pow h sol = Ok true /\ parent_id h = header_id (cb_parent c) /\ cb_transactions c <> [] /\
    transaction_root h = from_be (transactions_root (cb_transactions c) (cb_version c)) /\
    ad_proofs_root h = from_be (ad_proofs_digest (ad_proof_bytes c)) /\
    extension_root h = from_be (section_extension_root (cb_extension c)).
Proof.
  unfold validate_solution, header_of. destruct (cb_transactions c) as [|tx txs]; [done|]. cbn [result_bind].
  destruct (serialize_header _ _) as [bytes|] eqn:Es; [|done]. cbn [ok_or result_bind].
  destruct (check_pow _ _) as [[|]|] eqn:Ep; [|done..]. intros [= <-]. by exists bytes.
Qed.

Lemma serialized_committed (c : CandidateBlock Tx) sol h b1 b3 :
  representable c -> validate_solution c sol = Ok h ->
  serialize_block_transactions (id_bytes (header_id h)) (cb_version c) (cb_transactions c) = Ok b1 ->
  serialize_extension (id_bytes (header_id h)) (cb_extension c) = Ok b3 ->
  committed BLOCK_TRANSACTIONS_TYPE_ID b1 h /\
  committed AD_PROOFS_TYPE_ID (serialize_ad_proofs (id_bytes (header_id h)) (ad_proof_bytes c)) h /\
  committed EXTENSION_TYPE_ID b3 h.
Proof.
  intros [Hv Ht Hp Hf] (bytes & _ & _ & _ & _ & Hne & Hr1 & Hr2 & Hr3)%solution_inv E1 E3.
  unfold committed, payload_digest, section_root. cbn [Z.eqb]. rewrite Hr1, Hr2, Hr3. split_and!.
  - unfold serialize_block_transactions in E1. destruct (serialize_txs 0 (cb_transactions c)) as [body|] eqn:Eb; [|done].
    injection E1 as <-. eexists. split; [done|]. cbn. unfold transactions_digest.
    rewrite get_put_u32 by apply as_u32_range. cbn [ok_or result_bind].
    assert (add_u32 BLOCK_VERSION_SENTINEL (cb_version c) = BLOCK_VERSION_SENTINEL + cb_version c) as ->.
    { unfold add_u32. apply as_u32_small. unfold BLOCK_VERSION_SENTINEL. int_unfold. lia. }
    destruct (Z.ltb_spec BLOCK_VERSION_SENTINEL (BLOCK_VERSION_SENTINEL + cb_version c)); [|lia].
    rewrite Z.add_simpl_l. destruct (Z.ltb_spec U8_MAX (cb_version c)); [lia|].
    rewrite get_put_u32 by apply as_u32_range. cbn [ok_or result_bind].
    rewrite as_u32_small by (unfold zlen in *; int_unfold; lia). unfold zlen.
    destruct (Z.eqb_spec (Z.of_nat (length (cb_transactions c))) 0) as [E0|_].
    { destruct (cb_transactions c); [done|cbn in E0; lia]. }
    rewrite Nat2Z.id, (txs_body_parses _ _ 0 _ Eb). cbn [result_bind]. unfold transactions_root.
    by rewrite id_from_root by apply root_bytes.
  - eexists. split; [done|]. cbn. unfold proofs_digest. rewrite get_put_u32 by apply as_u32_range. cbn [ok_or result_bind].
    rewrite as_u32_small by (unfold zlen in *; int_unfold; lia). unfold zlen. rewrite Nat2Z.id.
    rewrite <- (app_nil_r (ad_proof_bytes c)) at 2. rewrite read_exact_app. cbn [ok_or result_bind].
    unfold ad_proofs_digest. by rewrite id_from_root by apply digest_bytes.
  - unfold serialize_extension in E3. destruct (serialize_fields 0 (cb_extension c)) as [body|] eqn:Eb; [|done].
    injection E3 as <-. eexists. split; [done|]. cbn. rewrite (fields_body_parses _ _ _ Eb).
    rewrite as_u32_small by (unfold zlen in *; int_unfold; lia). rewrite put_widths by (unfold zlen in *; int_unfold; lia).
    rewrite (extension_digest_encoded _ Hf : extension_digest (put_u16 (zlen _) ++ _) = _).
    unfold section_extension_root. by rewrite id_from_root by apply root_bytes.
Qed.

Lemma match_solution_inv (cs : list (CandidateBlock Tx)) sol last_err h c :
  match_solution cs sol last_err = Ok (h, c) -> c ∈ cs /\ validate_solution c sol = Ok h.
Proof.
  revert last_err. induction cs as [|c' cs IH]; intros last_err E; [done|]. cbn [match_solution] in E.
  destruct (validate_solution c' sol) as [h'|e] eqn:Ev; [injection E as -> ->; by split; [left|]|].
  destruct (IH _ E). split; [by right|done].
Qed.

(** The candidates the generator holds. *)
Definition holds (g : CandidateGenerator (Tx := Tx)) (c : CandidateBlock Tx) : Prop :=
  cached_block g = Some c \/ previous_block g = Some c.

Lemma solved_block_inv nonce tip_id g h sol b1 b2 b3 :
  solved_block nonce tip_id g = Ok (h, sol, (b1, b2, b3)) ->
  exists c nonce', nonce = Some nonce' /\ length nonce' = 8%nat /\ sol = mk_solution (mc_miner_pk (gen_config g)) nonce' /\
    holds g c /\ tip_id = Some (header_id (cb_parent c)) /\ validate_solution c sol = Ok h /\
    serialize_block_transactions (id_bytes (header_id h)) (cb_version c) (cb_transactions c) = Ok b1 /\
    b2 = serialize_ad_proofs (id_bytes (header_id h)) (ad_proof_bytes c) /\
    serialize_extension (id_bytes (header_id h)) (cb_extension c) = Ok b3.
Proof.
  unfold solved_block. destruct nonce as [nonce|]; [|done]. cbn [ok_or result_bind].
  destruct (Nat.eqb_spec (length nonce) 8) as [Hl|]; [|done]. cbn [negb].
  destruct (live_candidates tip_id g) as [cs stale] eqn:Ec.
  assert (forall c, c ∈ cs -> holds g c /\ tip_id = Some (header_id (cb_parent c))) as Hcs.
  { unfold live_candidates in Ec. injection Ec as <- _. intros c [Ht Hc]%list_elem_of_filter. split; [|done].
    unfold holds. destruct (cached_block g), (previous_block g); set_solver. }
  destruct cs as [|c0 cs]; [by destruct stale|].
  destruct (match_solution (c0 :: cs) _ None) as [[h' c]|[[]|]] eqn:Em; try done.
  apply match_solution_inv in Em as [Hin Hv]. destruct (Hcs c Hin) as [Hh Ht].
  destruct (serialize_block_transactions _ _ _) as [x1|] eqn:E1; [|done].
  destruct (serialize_extension _ _) as [x3|] eqn:E3; [|done]. intros [= <- <- <- <- <-].
  exists c, nonce. by split_and!.
Qed.

Lemma submit_inv h sol b1 b2 b3 (n n' : MiningNode (Tx := Tx)) u :
  submit h sol b1 b2 b3 n = (Ok u, n') ->
  (forall t id, (t, id) ∈ section_ids h -> exists body,
      (t, body) ∈ [(BLOCK_TRANSACTIONS_TYPE_ID, b1); (AD_PROOFS_TYPE_ID, b2); (EXTENSION_TYPE_ID, b3)] /\
      Store.get t id (modifiers n') = Some body) /\
  exists bytes, serialize_header h sol = Some bytes /\
    modifier_queue n' = modifier_queue n ++ [mk_item HEADER_TYPE_ID (id_bytes (header_id h)) bytes None].
Proof.
  unfold submit. destruct (serialize_header h sol) as [bytes|]; [|done].
  pose proof (Store.put_batch_correct (section_entries h b1 b2 b3) (modifiers n)) as Hp.
  destruct (Store.put_batch _ _) as [[[]|] s]; [|done]. destruct Hp as (_ & Hget & _).
  destruct (try_send MODIFIER_QUEUE _ _) as [q|] eqn:Eq; [|done]. intros [= _ <-]. split; cycle 1.
  { unfold try_send in Eq. case_match; [|done]. injection Eq as <-. by exists bytes. }
  intros t id Hin. cbn [modifiers]. rewrite Hget. unfold section_entries, Store.latest, Store.data_of, section_ids in *. cbn [omap list_omap Store.e_type Store.e_id Store.e_data default snd fmap option_fmap option_map lookup list_lookup] in *.
  apply elem_of_cons in Hin as [E|[E|[E|[]%not_elem_of_nil]%elem_of_cons]%elem_of_cons]; injection E as -> ->.
  - exists b1. split; [set_solver|]. rewrite bool_decide_true by done.
    rewrite !bool_decide_false by (intros [? _]; done). done.
  - exists b2. split; [set_solver|]. cbn. repeat case_bool_decide; naive_solver.
  - exists b3. split; [set_solver|]. cbn. repeat case_bool_decide; naive_solver.
Qed.

(** C40: What an accepted solution puts into the node is a block any peer could have sent. If
    a request is accepted, it found a candidate on the tip whose header, under the
    configured key and the request's nonce, has the work the header asks for; the
    header's id is the hash of its bytes with that solution; the pipeline is handed the
    header, and the store holds, under each of the header's section ids, a body that
    passes the check made on delivered sections. *)
Theorem accepted_solution_stored nonce tip_id (n n' : MiningNode (Tx := Tx)) :
  (forall c, holds (generator n) c -> representable c) ->
  post_mining_solution nonce tip_id n = (Accepted, n') ->
  exists c sol (h : BlockHeader) bytes,
    holds (generator n) c /\ tip_id = Some (parent_id h) /\ sol_miner_pk sol = mc_miner_pk (gen_config (generator n)) /\
    nonce = Some (sol_nonce sol) /\ check_pow h sol = Ok true /\
    (exists unnamed, serialize_header (with_id h 0) sol = Some unnamed /\ header_id h = from_be (blake2b256 unnamed)) /\
    serialize_header h sol = Some bytes /\
    modifier_queue n' = modifier_queue n ++ [mk_item HEADER_TYPE_ID (id_bytes (header_id h)) bytes None] /\
    forall t id, (t, id) ∈ section_ids h ->
      exists body, Store.get t id (modifiers n') = Some body /\ committed t body h.
Proof.
  intros Hrep. unfold post_mining_solution. destruct (solved_pending (generator n)); [done|].
  destruct (solved_block nonce tip_id (generator n)) as [[[h sol] [[b1 b2] b3]]|r] eqn:Es; cycle 1.
  { intros [= -> _]. by apply solved_block_rejects in Es. }
  apply solved_block_inv in Es as (c & nonce' & -> & Hl & -> & Hc & -> & Hv & E1 & -> & E3).
  destruct (try_mark_solved _ _ _) as [[|] g]; [|done]. destruct (has_submitter n); [|done].
  destruct (submit _ _ _ _ _ _) as [[u|e] n1] eqn:Esub; [|done]. intros [= <-].
  apply submit_inv in Esub as (Hstored & bytes & Hb & Hq).
  destruct (solution_inv _ _ _ Hv) as (raw & Hraw & Hid & Hpow & Hpar & _).
  destruct (serialized_committed c _ h b1 b3 (Hrep c Hc) Hv E1 E3) as (Hc1 & Hc2 & Hc3).
  exists c, (mk_solution (mc_miner_pk (gen_config (generator n))) nonce'), h, bytes. rewrite Hpar. split_and!; try done; [by exists raw|].
  intros t id Hin. destruct (Hstored t id Hin) as (body & Hbody & Hget). exists body. split; [done|].
  apply elem_of_cons in Hbody as [E|[E|[E|[]%not_elem_of_nil]%elem_of_cons]%elem_of_cons]; by injection E as -> ->.
Qed.

End Submitted.

(** ** Announcements *)

Section Announcing.
Implicit Types events : list BlockAnnouncement.

(** The announcer after a run of events. *)
Definition announcer_after (events : list BlockAnnouncement) (m : Announcer) : Announcer :=
  foldl (fun m e => (announce e m).2) m events.

Fixpoint mined_in (events : list BlockAnnouncement) : nat :=
  match events with
  | [] => 0
  | Mined _ :: events => S (mined_in events)
  | Applied _ :: events => mined_in events
  end.

Lemma remove_other id id' l l' : id <> id' -> remove_first id' l = Some l' -> forall pre post, l = pre ++ id :: post ->
  exists pre' post', l' = pre' ++ id :: post' /\ (length post' <= length post)%nat.
Proof.
  intros Hne. revert l'. induction l as [|x l IH]; intros l' Hl pre post Ep; [by destruct pre|].
  cbn [remove_first] in Hl. destruct (decide (x = id')) as [->|Hx].
  - injection Hl as <-. destruct pre as [|y pre]; injection Ep as E1 E2; [congruence|]. by exists pre, post.
  - destruct (remove_first id' l) as [r|] eqn:Er; [|done]. injection Hl as <-.
    destruct pre as [|y pre]; injection Ep as -> ->.
    + exists [], r. split; [done|]. clear -Er. revert r Er.
      induction post as [|y post IH]; intros r Er; [done|]. cbn [remove_first] in Er.
      destruct (decide (y = id')); [injection Er as <-; cbn; lia|].
      destruct (remove_first id' post) as [r'|]; [|done]. injection Er as <-. specialize (IH r' eq_refl). cbn. lia.
    + destruct (IH r eq_refl pre post eq_refl) as (pre' & post' & -> & Hle). by exists (y :: pre'), post'.
Qed.

Lemma remove_first_in id pre post : is_Some (remove_first id (pre ++ id :: post)).
Proof.
  induction pre as [|x pre [r IH]]; cbn [app remove_first]; [by rewrite decide_True|].
  destruct (decide (x = id)); [done|]. rewrite IH. done.
Qed.

(** The id stays among the remembered ones while fewer than [MINED_IDS_REMEMBERED] blocks
    are mined after it. *)
Lemma remembered id events : forall pre post,
  (forall h, Applied h ∈ events -> id_bytes (header_id h) <> id) ->
  (length post + mined_in events < MINED_IDS_REMEMBERED)%nat ->
  exists pre' post', announcer_after events (pre ++ id :: post) = pre' ++ id :: post'.
Proof.
  induction events as [|e events IH]; intros pre post Hid Hn; [by exists pre, post|].
  assert (forall h, Applied h ∈ events -> id_bytes (header_id h) <> id) as Hid' by (intros h Hh; apply Hid; by right).
  unfold announcer_after. cbn [foldl]. fold (announcer_after events (announce e (pre ++ id :: post)).2).
  destruct e as [h|h]; cbn [announce].
  - cbn [mined_in] in Hn.
    assert (exists pre1, (if (length (pre ++ id :: post) =? MINED_IDS_REMEMBERED)%nat then drop 1 (pre ++ id :: post)
      else pre ++ id :: post) = pre1 ++ id :: post) as [pre1 ->].
    { destruct (Nat.eqb_spec (length (pre ++ id :: post)) MINED_IDS_REMEMBERED) as [E|_]; [|by exists pre].
      destruct pre as [|x pre]; [cbn in E; lia|by exists pre]. }
    cbn [snd]. rewrite <- app_assoc. cbn [app]. apply IH; [done|]. rewrite length_app. cbn. lia.
  - cbn [mined_in] in Hn.
    destruct (remove_first (id_bytes (header_id h)) (pre ++ id :: post)) as [l|] eqn:El; cbn [snd]; [|by apply IH].
    assert (id <> id_bytes (header_id h)) as Hne by (intros ->; by apply (Hid h); [left|]).
    destruct (remove_other _ _ _ _ Hne El pre post eq_refl) as (pre' & post' & -> & Hle). apply IH; [done|lia].
Qed.

(** A block the node mined is announced when it is mined and not again when it is applied,
    while fewer than [MINED_IDS_REMEMBERED] blocks are mined in between. *)
Theorem mined_announced_once (h : BlockHeader) events (mined : Announcer) :
  (forall h', Applied h' ∈ events -> id_bytes (header_id h') <> id_bytes (header_id h)) ->
  (mined_in events < MINED_IDS_REMEMBERED)%nat ->
  (announce (Mined h) mined).1 = Some h /\
  (announce (Applied h) (announcer_after events (announce (Mined h) mined).2)).1 = None.
Proof.
  intros Hid Hn. split; [done|]. cbn [announce snd].
  destruct (remembered (id_bytes (header_id h)) events
    (if (length mined =? MINED_IDS_REMEMBERED)%nat then drop 1 mined else mined) [] Hid Hn) as (pre & post & ->).
  cbn [announce]. destruct (remove_first_in (id_bytes (header_id h)) pre post) as [l ->]. done.
Qed.

End Announcing.

End MiningTask.
