(* ===== verification/MiningExample.v ===== *)
(** * A mined block

    An instance of everything the miner and the validator use: transactions and boxes
    that are numbers, with an emission transaction that spends box 5, a transaction of the
    mempool that spends its output and pays a fee, and the fee transaction; a prover that
    knows the block of the three. The candidate is generated, solved, submitted and
    applied, and the theorems on mining are applied to it. *)

From S2P Require Import Prelude Bytes Vlq Frame ChainConfig VotingCodec Voting Header Pow Sections AvlTree StateStorage StateStorageInv StateReader.
From S2P Require Import BlockSections StateChanges Validators ValidatorsInv ValidatorsExample Store ChainStore Pipeline Mining MiningInv MiningTask.
Import Vlq ChainConfig VotingCodec Voting Pow Sections Avl State Reader BlockSections StateChanges Validation ValidationInv.
Import Mining MiningInv MiningTask StateInv.Examples BlockSections.Examples.

Module MiningExample.

(** ** Transactions *)

(** As [ex_sections], with a root that is a digest for any number of leaves. *)
#[local] Instance mx_sections : SectionIO Z := {
  blake2b256 l := toy_blake l;
  merkle_root ls := replicate 31 0 ++ [Z.of_nat (length ls) mod 256];
  tx_parse l := match l with x :: r => Some (x, r) | [] => None end;
  tx_id x := [x];
  tx_proofs x := [];
}.

#[local] Instance mx_printer_laws : TxPrinterLaws Z.
Proof. by intros tx bs r [= <-]. Qed.

(** Transaction 1 spends box 5 and makes box 10, transaction 2 spends that and makes box
    11, under the fee script, transaction 3 spends that and makes box 6. *)
#[local] Instance mx_ergo : ErgoTx Z Z := {
  tx_inputs tx := if tx =? 1 then [key 5] else if tx =? 2 then [key 10] else if tx =? 3 then [key 11] else [];
  tx_data_inputs _ := None;
  tx_outputs tx := if tx =? 1 then [10] else if tx =? 2 then [11] else if tx =? 3 then [6] else [];
  box_id b := key b;
  box_serialize b := Some [b + 2];
  box_parse l := match l with [x] => Some (x - 2) | _ => None end;
  box_tree_bytes b := Some [b];
}.

#[local] Instance mx_interp : TxInterp Z Z := {
  TransactionContext := Z;
  context_new tx _ _ := Ok tx;
  context_validate _ _ := Ok 10;
  ec_generator := [];
  emission_contract := Some (Some [5]);
}.

#[local] Instance mx_lib : MinerLib Z Z := {
  ErgoTree := Z;
  BoxCandidate := Z;
  miners_reward_at_height _ := 3;
  emission_at_height _ := 3;
  box_value b := b;
  box_tree b := b;
  box_tokens _ := None;
  box_value_try_from v := Some v;
  token_amount_try_from v := Some v;
  build_box value _ _ _ := Some value;
  reward_output_script _ _ := Some 6;
  fee_proposition _ := Some 11;
  tree_serialize t := Some [t];
  output_bytes value _ _ _ := Some [value];
  MAX_TOKENS_COUNT := 255;
  MAX_BOX_SIZE := 4096;
  new_from_vec ins _ := if decide (ins = [key 5]) then Some 1 else if decide (ins = [key 11]) then Some 3 else None;
}.

#[local] Instance mx_lib_laws : MinerLibLaws Z Z.
Proof. intros ins outs tx. cbn. repeat case_decide; intros [= <-]; by subst. Qed.

#[local] Instance mx_headers : MinerHeaders := {
  serialize_without_pow h := Some [height h; timestamp h];
  serialize_header h sol := Some (height h :: timestamp h :: sol_nonce sol);
  check_pow _ sol := Ok (bool_decide (sol_nonce sol = replicate 8 7));
  update_interlinks p l := Some (header_id p :: l);
  pack_interlinks l := (fun id => ((1, 0), id_bytes id)) <$> l;
  extension_candidate _ := true;
  unpack_interlinks _ := Some [];
}.

#[local] Instance mx_pow : PowScheme := {
  decode_compact_bits n := n;
  encode_compact_bits d := d;
  order_bigint := 100000;
  pow_hit _ := Some 0;
}.

(** The format of [Vlq] is the one whose length the miner counts. *)
#[local] Instance vlq_length : VlqLength Z.
Proof. intros v Hv. cbn [put_u32 vlq_io]. apply vlq_len_write. Qed.

(** ** The prover *)

#[local] Existing Instance ValidationEx.pnode_eq_dec.
#[local] Existing Instance ValidationEx.prover_eq_dec.
#[local] Existing Instance ValidationEx.operation_eq_dec.

Definition t3 : tree := Node 0 (key 6) (Leaf (key 0) [] (key 6)) (Leaf (key 6) [8] (key 9)).

Definition prover2 : Prover := ValidationEx.prover2.
Definition midway : Prover := mk_prover (LabelOnly []) [] 1 None.
Definition p3 : Prover :=
  mk_prover (LoadedNode true false 0 (key 6) (LoadedLeaf true false (key 0) [] (key 6))
               (LoadedLeaf true false (key 6) [8] (key 9)))
    ((packed_nodes t2).*1) 1 (Some (label t3 ++ [1])).
Definition prover3 : Prover := reset_prover p3.
Definition dead : Prover := mk_prover (LabelOnly []) [] 0 None.

Definition mx_content (l : list Z) : option (list Z) :=
  list_to_map (M := gmap (list Z) (list Z)) (packed_nodes t2 ++ packed_nodes t3) !! l.

Definition on_root (root : list Z) : Prover :=
  if decide (root = pack t2) then prover2 else if decide (root = pack t3) then prover3 else dead.

Definition the_removal : Operation := Remove (key 5).
Definition the_insertion : Operation := Insert (key 6) [8].

#[local] Instance mx_prover : AvlProver := {
  perform_one_operation op p :=
    if decide (op = the_removal /\ p = prover2) then (Ok (Some [7]), midway)
    else if decide (op = the_insertion /\ p = midway) then (Ok None, p3)
    else (Err "unknown", p);
  generate_proof p := ([4], p);
  restore_root root _ _ := on_root root;
  new_prover root _ := on_root root;
  Verifier := list Z;
  new_verifier d _ _ := Ok d;
  verify_one_operation _ d := (Err "unused", d);
  verifier_digest d := Some d;
}.

Definition mx_synced (t : tree) (p : Prover) : Prop :=
  (t = t2 /\ p = prover2) \/ (t = t3 /\ p = prover3) \/ (t <> t2 /\ t <> t3 /\ p = dead).

#[local] Existing Instance state_blake.
#[local] Instance mx_blake_laws : Blake2bLaws.
Proof. done. Qed.

Lemma mx_genuine t : t = t2 \/ t = t3 -> StateInv.genuine mx_content t.
Proof.
  intros [-> | ->]; (split; [by vm_compute|split; [done|]]);
    cbn [packed_nodes t2 t3 app]; repeat apply Forall_cons_2; try done; split; by vm_compute.
Qed.

Lemma mx_on_root t : StateInv.genuine mx_content t -> mx_synced t (on_root (pack t)).
Proof.
  intros Hg. unfold on_root.
  destruct (decide (pack t = pack t2)) as [E|Hne1]; [|destruct (decide (pack t = pack t3)) as [E|Hne2]].
  - left. split; [|done]. apply (ValidationEx.pack_inj mx_content); [done|by apply mx_genuine; left|done].
  - right. left. split; [|done]. apply (ValidationEx.pack_inj mx_content); [done|by apply mx_genuine; right|done].
  - right. right. split_and!; [by intros ->|by intros ->|done].
Qed.

Lemma run_mx p ops vals p' d :
  run (step_of perform_one_operation) ops p = Some (vals, p') -> p <> midway -> prover_digest p' = Some d ->
  (ops = [] /\ vals = [] /\ p' = p) \/
  (ops = [the_removal; the_insertion] /\ vals = [Some [7]; None] /\ p = prover2 /\ p' = p3).
Proof.
  intros Hr Hp Hd. destruct ops as [|op ops]; [injection Hr as <- <-; by left|]. right.
  cbn [run] in Hr. unfold step_of at 1 in Hr. cbn [perform_one_operation mx_prover] in Hr.
  case_decide as H1; [|by rewrite decide_False in Hr by (by intros [_ ->])]. destruct H1 as [-> ->].
  destruct ops as [|op ops]; [by injection Hr as <- <-|].
  cbn [run] in Hr. unfold step_of at 1 in Hr. cbn [perform_one_operation mx_prover] in Hr.
  rewrite decide_False in Hr by (intros [_ E]; by vm_compute in E). case_decide as H1; [|done]. destruct H1 as [-> _].
  destruct ops as [|op ops]; [by injection Hr as <- <-|].
  cbn [run] in Hr. unfold step_of at 1 in Hr. cbn [perform_one_operation mx_prover] in Hr.
  by rewrite !decide_False in Hr by (intros [_ E]; by vm_compute in E).
Qed.

Lemma synced_not_midway t p : mx_synced t p -> p <> midway.
Proof. intros [[_ ->]|[[_ ->]|(_ & _ & ->)]] E; by vm_compute in E. Qed.

Lemma mx_prover_ok : StateInv.prover_ok (Some t2) p3 t3.
Proof.
  split; [done|by repeat constructor|..].
  - intros l Hl. left. revert l Hl. apply Forall_forall. apply (bool_decide_unpack _). by vm_compute.
  - intros o n [= <-] Hn. right. by apply list_elem_of_fmap_2.
  - apply (bool_decide_unpack _). by vm_compute.
  - split; by vm_compute.
Qed.

Lemma mx_prover_laws : ProverLaws mx_content mx_synced.
Proof.
  split.
  - intros t p ops vals p' d Hs Hr Hd.
    apply (run_mx _ _ _ _ d) in Hr as [(-> & -> & ->)|(-> & -> & -> & ->)]; [..|by eapply synced_not_midway|done].
    + destruct Hs as [[-> ->]|[[-> ->]|(_ & _ & ->)]]; [..|done]; injection Hd as <-;
        [exists t2|exists t3]; (split_and!; [apply mx_genuine; auto| |by vm_compute|done|unfold mx_synced; auto]);
        (apply ValidationEx.idle_ok; [done| |done|by vm_compute]);
        (apply StateInv.explored_node; [|apply StateInv.explored_leaf..]; intros _ _; eexists; (split; [done|]));
        [apply StateInv.subtree_refl|apply StateInv.subtree_left, StateInv.subtree_refl|apply StateInv.subtree_right, StateInv.subtree_refl
        |apply StateInv.subtree_refl|apply StateInv.subtree_left, StateInv.subtree_refl|apply StateInv.subtree_right, StateInv.subtree_refl].
    + destruct Hs as [[-> _]|[[_ E]|(_ & _ & E)]]; [|by vm_compute in E..]. injection Hd as <-.
      exists t3. split_and!; [by apply mx_genuine; right|exact mx_prover_ok|by vm_compute|vm_compute; reflexivity
        |right; left; split; reflexivity].
  - intros t h p Hg. by apply mx_on_root.
  - intros t h Hg. by apply mx_on_root.
  - intros t p q ops vals p' Hp Hq Hr. exists p'. assert (p = q) as <-; [|done].
    unfold mx_synced in Hp, Hq. assert (t2 <> t3) by done. intuition congruence.
Qed.

(** ** The candidate *)

Definition s2 : Storage := load_snapshot (packed_nodes t2) (label t2) 1 (label t2 ++ [1]) 100 s0.
Definition v2 : StateInv.Version := StateInv.mk_version (label t2 ++ [1]) t2 1 100.
Definition val2 : UtxoValidator := mk_utxo s2 prover2 100 50 (label t2 ++ [1]) None [5] ∅ None ∅.

Lemma mx_utxo_ok : utxo_ok mx_content mx_synced v2 [] val2.
Proof.
  split; [|done|done|by left]. apply (StateInv.reachable_repr mx_content).
  apply StateInv.reach_load; [by apply mx_genuine; left|by vm_compute..| |done].
  cbn [packed_nodes t2 app]. repeat apply Forall_cons_2; try done; split; by vm_compute.
Qed.

Lemma mx_room : room [v2] (storage val2).
Proof. by split; vm_compute. Qed.

Definition cfg : MinerConfig := mk_miner_config [2; 3] 720 (0, 0, 0) 5000 reemission_mainnet.
Definition parent : BlockHeader := ValidationEx.hdr 100 0 (label t2 ++ [1]).
Definition params : table := {[ MaxBlockCost := 30; MaxBlockSize := 100 ]}.
Definition mempool : list (Z * Z) := [(2, 1); (2, 1)].
Definition mx_lookup : list Z -> option Z := state_lookup (boxes t2).
Definition mx_ctx : StateContext := candidate_context cfg 2000 parent 1000 params [].

Definition generated : outcome MiningError (GeneratedCandidate Z) :=
  generate_candidate (Box := Z) cfg 2000 parent 1000 [] 5 None [] mempool params [] mx_lookup (storage_proofs val2).
Definition gen : GeneratedCandidate Z :=
  match generated with
  | Return g => g
  | _ => mk_generated (mk_candidate parent 0 0 [] [] [] 0 [] (0, 0, 0) []) (mk_work [] 0 0 []) []
  end.
Definition candidate : CandidateBlock Z := g_block gen.

Lemma generates : generated = Return gen.
Proof. by vm_compute. Qed.

(** The second offer of transaction 2 spends what the first one spent, and is left out. *)
Lemma candidate_txs : cb_transactions candidate = [1; 2; 3] /\ cb_state_root candidate = label t3 ++ [1].
Proof. by vm_compute. Qed.

Lemma mx_costs : costs_u64 (Tx := Z) (Box := Z).
Proof. intros c ctx cost [= <-]. split; vm_compute; discriminate. Qed.

Lemma mx_limits : limits params 100 30.
Proof. split; [exists 30|exists 100]; (split; [reflexivity|split; [split; vm_compute; discriminate|reflexivity]]). Qed.

Lemma mx_emission : emission_ok mx_lookup mx_ctx 2 100 30 1 5 10.
Proof. split; [done|by vm_compute|done|by exists [1]|split; vm_compute; discriminate]. Qed.

Lemma mx_mempool : Forall (fun c : Z * Z => c.2 = size_of c.1) mempool.
Proof. by repeat constructor. Qed.

Definition nonce : list Z := replicate 8 7.
Definition sol : AutolykosSolution := mk_solution [2; 3] nonce.
Definition solved_header : BlockHeader := match validate_solution candidate sol with Ok h => h | Err _ => parent end.
Definition body {E : Type} (r : result E (list Z)) : list Z := match r with Ok b => b | Err _ => [] end.
Definition mx_txs_bytes : list Z :=
  body (serialize_block_transactions (id_bytes (header_id solved_header)) (cb_version candidate) (cb_transactions candidate)).
Definition mx_ext_bytes : list Z := body (serialize_extension (id_bytes (header_id solved_header)) (cb_extension candidate)).

Lemma hash_bytes l : length (blake2b256 l) = 32%nat /\ bytes_ok (blake2b256 l).
Proof.
  split; [done|]. apply Forall_app. split; [by apply Forall_replicate|]. apply Forall_singleton.
  destruct l as [|b l] using rev_ind; [done|]. rewrite foldl_app. cbn [foldl].
  pose proof (Z.mod_pos_bound (foldl (fun a b0 => (a * 31 + b0 + 1) mod 251) 0 l * 31 + b + 1) 251 ltac:(lia)). int_unfold. lia.
Qed.

Lemma root_bytes ls : length (merkle_root ls) = 32%nat /\ bytes_ok (merkle_root ls).
Proof.
  split; [done|]. apply Forall_app. split; [by apply Forall_replicate|]. apply Forall_singleton.
  pose proof (Z.mod_pos_bound (Z.of_nat (length ls)) 256 ltac:(lia)). int_unfold. lia.
Qed.

Lemma mx_keys l : Forall (fun f : extension_field => f.1.1 <> 0) (pack_interlinks l).
Proof. cbn [pack_interlinks mx_headers]. apply Forall_fmap, Forall_forall. done. Qed.

Lemma candidate_accepted_witness :
  exists reported total val',
    utxo_apply_state (mk_input solved_header mx_txs_bytes None mx_ext_bytes [parent] params None (Some [])) val2 =
      (Return (mk_outcome None reported total), val').
Proof.
  apply (candidate_accepted mx_content mx_synced mx_prover_laws (fun l => proj2 (hash_bytes l)) mx_keys v2 [] val2 cfg 2000 parent 1000 []
    5 None [] mempool params [] gen sol solved_header mx_txs_bytes mx_ext_bytes 100 30 1 10);
    [exact mx_utxo_ok|exact mx_room|exact mx_costs|exact mx_limits|reflexivity|split; vm_compute; discriminate
    |vm_compute; reflexivity|exact mx_emission|exact mx_mempool|exact I|exact generates|..|vm_compute; reflexivity
    |vm_compute; reflexivity|vm_compute; reflexivity|vm_compute; reflexivity].
  - apply (bool_decide_unpack _). vm_compute. exact I.
  - intros b Hb. apply (proj1 (Forall_forall (fun b => boxes t2 !! box_id b = None) (outputs_of (cb_transactions candidate)))); [|exact Hb].
    apply (bool_decide_unpack _). vm_compute. exact I.
  - vm_compute. discriminate.
  - vm_compute. discriminate.
Defined.


(** ** The solution *)

Definition mx_node : MiningNode (Tx := Z) :=
  mk_mining_node (cache_candidate candidate (g_work gen) 100 0 (generator_new cfg)) (Store.open Store.no_tables) [] [] true.

Lemma mx_answers : (post_mining_solution (Some nonce) (Some 7) mx_node).1 = Accepted.
Proof. vm_compute. reflexivity. Qed.

Lemma candidate_representable : representable candidate.
Proof. split; vm_compute; try split; discriminate. Qed.

Lemma holds_first (block : CandidateBlock Z) work tip now c :
  holds (cache_candidate block work tip now (generator_new cfg)) c -> c = block.
Proof. intros [E|E]; [by injection E|done]. Qed.

Lemma mx_representable c : holds (generator mx_node) c -> representable c.
Proof. intros Hc. apply holds_first in Hc. rewrite Hc. exact candidate_representable. Qed.

Lemma mx_posted :
  post_mining_solution (Some nonce) (Some 7) mx_node = (Accepted, (post_mining_solution (Some nonce) (Some 7) mx_node).2).
Proof. apply injective_projections; [exact mx_answers|reflexivity]. Qed.

Lemma accepted_solution_stored_witness :
  exists n' (h : BlockHeader), post_mining_solution (Some nonce) (Some 7) mx_node = (Accepted, n') /\ Some 7 = Some (parent_id h) /\
    forall t id, (t, id) ∈ section_ids h -> exists body, Store.get t id (modifiers n') = Some body /\ committed t body h.
Proof.
  destruct (accepted_solution_stored hash_bytes root_bytes (Some nonce) (Some 7) mx_node _ mx_representable mx_posted)
    as (c & s & h & bytes & _ & Ht & _ & _ & _ & _ & _ & _ & Hs).
  exists (post_mining_solution (Some nonce) (Some 7) mx_node).2, h.
  split; [exact mx_posted|]. split; [exact Ht|exact Hs].
Defined.

(** The same solution a second time is refused, until the block is applied. *)
Lemma second_refused :
  let '(n1, awaiting1) := foldl handle (mx_node, []) [Solution (Some nonce) (Some 7); Solution (Some nonce) (Some 7)] in
  let '(n2, awaiting2) :=
    foldl handle (mx_node, []) [Solution (Some nonce) (Some 7); BlockApplied (header_id solved_header) 101] in
  (length awaiting1, length awaiting2) = (1, 0)%nat.
Proof. vm_compute. reflexivity. Qed.

End MiningExample.
